(* ===== verification/_CoqProject ===== *)
-Q . S2P
Prelude.v
Align.v
LinkedList.v
HList.v
PtrTree.v
VmaTree.v
VmaRefine.v
VmaInv.v
VmaOps.v
VmaInsert.v
VmaRemove.v
VmaAdjust.v
VmaFind.v
VmaFree.v
VmaExample.v
Str.v
Vsnprintf.v
Fbcon.v
PageAlloc.v
EarlyAlloc.v
BootMem.v
AvlTree.v
AvlFixup.v
AvlOps.v
Dpc.v
KTimer.v
Timeout.v
Mutex.v
RWMutex.v
Rcu.v
RcuSmp.v
Cmdline.v
Wake.v
CondWait.v
Sched.v
Slab.v
SlabOps.v
SlabPages.v
Pgtable.v
VmapPt.v
Vmap.v
VmapTree.v
VmapHeap.v
VmapExample.v
BootMap.v
BootPt.v
BootSetup.v
KmapFixed.v
