(* ===== verification/Prelude.v ===== *)
(** * Verification of the davix kernel

    davix is a kernel for x86-64 written in C++.  This library models its core
    logic as executable definitions and transition systems, and proves what
    makes each part correct.  Names follow the source; each definition's doc
    comment or section says which function it translates.

    ** The parts of the program and the files that model them

    - [Prelude]: machine words ([u64], [+ᵤ], [-ᵤ], [*ᵤ]: the operation and the
      reduction modulo 2^64), the tactic [word_lia], the hint database [davix],
      counting of threads by control point ([cnt]).
    - [Align]: [include/dsl/align.h], [minmax.h], [interval.h].
    - [LinkedList]: the intrusive lists of [include/dsl/list.h], over a memory
      from addresses to link fields; [is_list] relates a list head to the
      sequence it holds, and [lists_ok] does so for many lists at once.
    - [HList]: the hash-table lists of [include/dsl/hlist.h].
    - [PtrTree]: binary trees with parent pointers in a memory, the shape
      predicate [rep], contexts ([frame], [plug], [crep]).
    - [VmaTree], [VmaFind]: [VMATree] of [include/dsl/vmatree.h],
      [dsl/vmamodify.cc] and [dsl/vmafind.cc], statement by statement.
      [VmaRefine] relates the pointer code of rotation and rebalancing to
      functions on trees; [VmaInv] and [VmaOps] hold the invariants
      ([vma_wf]: AVL balance, heights, gaps, order, the threaded list);
      [VmaInsert], [VmaRemove], [VmaAdjust], [VmaFree] prove the operations and
      [VmaExample] bounds the height and holds a concrete tree.
    - [AvlTree]: [AVLTree] and [TypedAVLTree] of [include/dsl/avltree.h] and
      [dsl/avlfixup.cc]; [AvlFixup] and [AvlOps] prove that the operations
      refine a sorted sequence ([avl_seq]).
    - [Dpc]: [kernel/dpc.cc]; a client of [LinkedList].
    - [KTimer]: [kernel/ktimer.cc]; a client of [AvlOps] and [Dpc].
    - [Timeout]: [kernel/sched/timeout.cc] as steps of the callback and of the
      sleeping tasks; a client of [AvlOps] and [KTimer].
    - [Str]: the functions of [util/string.cc] over a byte memory.
    - [Vsnprintf]: [util/vsnprintf.cc].
    - [PageAlloc]: [mm/page_alloc.cc], [asm/zone.h], [davix/page.h]; a client of
      [LinkedList].
    - [EarlyAlloc]: [mm/early_alloc.cc]; hands its blocks to [PageAlloc].
    - [Slab]: [mm/slab.cc]; [SlabOps] proves it against the class [PageSource],
      and [SlabPages] shows that the page allocator is an instance.
    - [Pgtable]: page-table entries, the TLB accumulator and the walk of the
      processor ([asm/pgtable.h], [asm/pgtable_modify.h], [arch/x86/mm/tlb.cc]),
      over [PageSource]; the invariant [pt_wf] says that the tables form a tree.
    - [VmapPt]: looking up and freeing page-table entries in [mm/vmap.cc].
    - [Vmap]: the rest of [mm/vmap.cc], proved against the classes [AreaTree]
      (the tree of areas) and [AreaSource] (pages and [kmalloc]); [VmapTree]
      shows that the VMA tree, [VmapHeap] that the slab allocator over the page
      allocator is an instance; [VmapExample] puts them together on a concrete
      machine.
    - [BootMem]: the firmware's memory map, allocation from it during boot and
      what is left for [EarlyAlloc] ([arch/x86/boot/setup.cc]).
    - [BootMap]: [identity_map], over any way to write an entry; [BootPt]: the
      page-table windows that it writes through, over [BootMem], and the walk of
      the processor with large pages; [BootSetup]: the loop of [setup_memory]
      that builds the direct map and the array of page structures.
    - [KmapFixed]: [arch/x86/mm/kmap_fixed.cc].
    - [Fbcon]: [drivers/fbcon/fbcon.cc], drawing bytes into the back buffer in
      the memory of [Str], and [printk] with its consoles ([kernel/printk.cc]);
      the screen as a table of colors and a cursor is its specification.
    - [Mutex]: [kernel/mutex.cc] as a transition system.
    - [RWMutex]: [kernel/rwmutex.cc], proved against the class [Lock], of which
      the mutex is an instance.
    - [Rcu]: [kernel/rcu.cc], each operation run alone; [RcuSmp]: the operations
      interleaved on all CPUs, one transition per critical section.
    - [Cmdline]: the command line functions of [kernel/main.cc].
    - [CondWait]: [kernel/condwait.cc] as steps of waiters and touchers, over
      [HList].
    - [Wake]: blocking, waking and preemption in [kernel/sched/main.cc] as a
      transition system.
    - [Sched]: the runqueues of [kernel/sched/main.cc].

    ** How the code is modelled

    Sequential code is a function returning [option]: [None] is undefined
    behaviour (a null or foreign pointer, an access outside an object) or a loop
    out of fuel, and the theorems establish [Some].  Fuel is the number of
    allocated objects (plus a constant) for walks over lists and trees, the
    length of the string for the string and format loops, the leaf index for the
    climbs of RCU, four visits per node for the free searches, the 512 entries of
    a page table, the pages of an area or range, and the entries and blockers of
    the memory map; the theorems prove that it is enough.  Concurrent code is a
    step relation whose transitions are single atomic accesses or critical
    sections, over any number of threads;
    [atomic_cmpxchg_weak] may fail spuriously, time and signals are
    nondeterministic, memory is sequentially consistent.  Locks taken around a
    whole operation make it one transition.

    ** What the theorems show

    - VMA tree: insertion, removal and adjustment implement a sorted sequence of
      disjoint ranges and keep all invariants; the lookups and the two free
      searches return exactly the best answer (for sizes up to the window's
      highest address); the height is logarithmic.
    - Mutex and reader-writer mutex: mutual exclusion, no lost waiter, progress,
      error results, an exact reader count, no leak on error paths.
    - Scheduler: stable priority scheduling with an exact load, wake-ups
      delivered exactly once.
    - RCU: no grace period ends early as long as [rcu_enable] and [rcu_disable]
      do not overlap with other operations on the segment tree.
    - Time-outs and condition waits: no sleeper is lost and no entry is touched
      too late as long as tasks stay on their CPU; the lists hold exactly the
      waiters.
    - Virtual mappings and page tables: mapping, unmapping and failing change
      exactly the translations, free exactly the tables, pages and objects they
      should (a request that fails may leave empty tables behind); areas keep
      free pages between them; no freed table is used.
    - Boot: blocks taken from the memory map never overlap and are the highest
      there are; the rest of memory, and no more, reaches the early allocator;
      the direct map leads exactly to the memory of the map, if its entries are
      made of whole pages.
    - Fixed mappings: first fit, and unmapping undoes mapping.
    - Deferred procedure calls: first in, first out, whatever is enqueued
      meanwhile, if no call is enqueued twice.
    - Framebuffer console: the framebuffer shows the text screen of the messages
      printed, and nothing else is written.
    - Slab allocator: objects handed out are fresh, disjoint and aligned, freeing
      gives back exactly the object, the counters and page lists are exact, and
      no allocator disturbs another.
    - AVL trees and kernel timers: the tree is a sorted sequence, timers fire in
      order, none is missed, and the timer DPC terminates.
    - Page and early allocators, string functions, formatted output, command
      line: functional behaviour, bounds, termination, round trips.
    - Defects found while modelling are theorems too, each about the
      definitions as they are in the source.

    ** What is not modelled

    The vendored uACPI library and its glue, assembly, device registers and
    interrupts, the clock, parsing of the boot information, the tests, weak
    memory orderings, and the code that only prints.  The flush of a TLB is recorded
    but not modelled.  Virtual mappings are modelled with calls one after the
    other.  The contents of pages are modelled where the code depends on them
    (lists, tables, objects). *)

From stdpp Require Export prelude gmap.

Declare Scope word_scope.
Delimit Scope word_scope with word.

#[export] Set Default Goal Selector "!".

Create HintDb davix.

(** ** Machine words

    An unsigned [w]-bit integer of the source is a [Z] in [[0, 2^w)].  The
    operators below are the C++ operators on that type: the mathematical
    operation followed by the reduction modulo [2^w]. *)

Definition wrap (w x : Z) : Z := (x `mod` 2 ^ w)%Z.

Definition in_width (w x : Z) : Prop := (0 ≤ x < 2 ^ w)%Z.

Abbreviation u64 := (in_width 64).
Abbreviation u32 := (in_width 32).
Abbreviation wrap64 := (wrap 64).
Abbreviation wrap32 := (wrap 32).

Definition UINT64_MAX : Z := 18446744073709551615%Z.

Definition add64 (x y : Z) : Z := wrap64 (x + y).
Definition sub64 (x y : Z) : Z := wrap64 (x - y).
Definition mul64 (x y : Z) : Z := wrap64 (x * y).
Definition not64 (x : Z) : Z := Z.lxor x (Z.ones 64).
Definition shl64 (x n : Z) : Z := wrap64 (Z.shiftl x n).

Notation "x +ᵤ y" := (add64 x y) (at level 50, left associativity) : word_scope.
Notation "x -ᵤ y" := (sub64 x y) (at level 50, left associativity) : word_scope.
Notation "x *ᵤ y" := (mul64 x y) (at level 40, left associativity) : word_scope.

Open Scope word_scope.

#[export] Instance in_width_dec w x : Decision (in_width w x).
Proof. unfold in_width. apply _. Defined.

(** Unfold the word operators and the width predicates: what is left is plain
    integer arithmetic, which [word_lia] closes. *)
Ltac unfold_words :=
  unfold add64, sub64, mul64, shl64, wrap, in_width, UINT64_MAX in *;
  change (2 ^ 64)%Z with 18446744073709551616%Z in *;
  change (2 ^ 32)%Z with 4294967296%Z in *.

Ltac word_lia :=
  unfold_words; Z.div_mod_to_equations; lia.

Section words.
Local Open Scope Z_scope.

Lemma wrap_small w x : in_width w x → wrap w x = x.
Proof. intros H. by apply Z.mod_small. Qed.

Lemma wrap_range w x : 0 ≤ w → in_width w (wrap w x).
Proof. intros. apply Z.mod_pos_bound. lia. Qed.

Lemma add64_small x y : 0 ≤ x + y < 2 ^ 64 → x +ᵤ y = x + y.
Proof. apply wrap_small. Qed.

Lemma sub64_small x y : 0 ≤ x - y < 2 ^ 64 → x -ᵤ y = x - y.
Proof. apply wrap_small. Qed.

Lemma add64_range x y : u64 (x +ᵤ y).
Proof. by apply wrap_range. Qed.

Lemma sub64_range x y : u64 (x -ᵤ y).
Proof. by apply wrap_range. Qed.

(** Subtraction undoes addition at any width, wrap-around included. *)
Lemma add64_sub64 x y : u64 x → (x +ᵤ y) -ᵤ y = x.
Proof. intros. word_lia. Qed.

Lemma sub64_add64 x y : u64 x → (x -ᵤ y) +ᵤ y = x.
Proof. intros. word_lia. Qed.

(** ** Bit masks *)

Lemma testbit_u_high w x i : 0 ≤ w → in_width w x → w ≤ i → Z.testbit x i = false.
Proof.
  intros Hw Hx Hi. rewrite <- (Z.mod_small x (2 ^ w)) by exact Hx.
  apply Z.mod_pow2_bits_high. lia.
Qed.

Lemma not64_range x : u64 x → u64 (not64 x).
Proof.
  intros Hx. assert (0 ≤ not64 x) as H0.
  { apply Z.lxor_nonneg. split; intros; [by vm_compute | apply Hx]. }
  split; [done|]. destruct (decide (not64 x = 0)) as [->|Hne]; [done|].
  apply Z.log2_lt_pow2; [lia|].
  apply Z.nle_gt. intros Hl.
  pose proof (Z.bit_log2 (not64 x) ltac:(lia)) as Hb.
  unfold not64 in Hb at 1. rewrite Z.lxor_spec in Hb.
  rewrite (testbit_u_high 64 x), Z.ones_spec_high in Hb by (done || lia). done.
Qed.

(** [v & ~a] at width 64 is the set difference of the bits. *)
Lemma land_not64 v a : u64 v → Z.land v (not64 a) = Z.ldiff v a.
Proof.
  intros Hv. apply Z.bits_inj'. intros i Hi.
  unfold not64. rewrite Z.land_spec, Z.lxor_spec, Z.ldiff_spec.
  destruct (decide (i < 64)).
  - rewrite Z.ones_spec_low by lia. by destruct (Z.testbit a i).
  - rewrite (testbit_u_high 64 v) by (done || lia). done.
Qed.

(** Clearing the low [k] bits rounds down to a multiple of [2^k]. *)
Lemma land_not64_pow2 v k :
  u64 v → 0 ≤ k → Z.land v (not64 (2 ^ k - 1)) = v - v `mod` 2 ^ k.
Proof.
  intros Hv Hk. rewrite land_not64 by done.
  replace (2 ^ k - 1) with (Z.ones k) by (rewrite Z.ones_equiv; lia).
  rewrite Z.ldiff_ones_r, Z.shiftr_div_pow2, Z.shiftl_mul_pow2 by lia.
  pose proof (Z.div_mod v (2 ^ k) ltac:(lia)). lia.
Qed.

Lemma pow2_divide_mod v k j : 0 ≤ k ≤ j → (v `mod` 2 ^ j) `mod` 2 ^ k = v `mod` 2 ^ k.
Proof.
  intros. apply Z.mod_mod_divide.
  exists (2 ^ (j - k)). rewrite <- Z.pow_add_r by lia. f_equal. lia.
Qed.

End words.

#[export] Hint Resolve wrap_range add64_range sub64_range not64_range : davix.

(** ** Options: the result of an operation that may be undefined behaviour

    [None] is undefined behaviour (a null or dangling dereference) or a loop
    that has run out of fuel; theorems about the code establish [Some]. *)

Ltac simpl_bind :=
  repeat (first
    [ progress simpl
    | progress simplify_option_eq
    | progress simplify_map_eq ]).

Lemma bind_Some_inv {A B} (f : A → option B) (o : option A) (b : B) :
  o ≫= f = Some b → ∃ a, o = Some a ∧ f a = Some b.
Proof. destruct o; naive_solver. Qed.

(** ** Counting the threads at given control points *)

Section count.
Context {A : Type}.
Implicit Types (P : A → bool) (l : list A).
Local Open Scope Z_scope.

Definition cnt P l : Z := foldr (λ p n, Z.b2z (P p) + n) 0 l.

Lemma cnt_app P l1 l2 : cnt P (l1 ++ l2) = cnt P l1 + cnt P l2.
Proof. unfold cnt. induction l1 as [|p l1 IH]; simpl; lia. Qed.

Lemma cnt_insert P l i p q :
  l !! i = Some p → cnt P (<[i:=q]> l) = cnt P l - Z.b2z (P p) + Z.b2z (P q).
Proof.
  intros Hi. pose proof (lookup_lt_Some _ _ _ Hi).
  rewrite insert_take_drop by done. rewrite <-(take_drop_middle l i p) at 3 by done.
  rewrite !cnt_app. simpl. lia.
Qed.

Lemma cnt_le P l : 0 ≤ cnt P l ≤ Z.of_nat (length l).
Proof. induction l as [|p l IH]; simpl; [lia|]. destruct (P p); simpl; lia. Qed.

Lemma cnt_pos P l i p : l !! i = Some p → P p = true → 1 ≤ cnt P l.
Proof.
  intros Hi HP. rewrite <-(take_drop_middle l i p) by done. rewrite cnt_app. simpl. rewrite HP.
  pose proof (cnt_le P (take i l)). pose proof (cnt_le P (drop (S i) l)). simpl. lia.
Qed.

(** [d] is any element that is not counted. *)
Lemma cnt_two P d l i j p q :
  P d = false → i ≠ j → l !! i = Some p → l !! j = Some q →
  P p = true → P q = true → 2 ≤ cnt P l.
Proof.
  intros HI Hij Hi Hj Hp Hq. pose proof (cnt_insert P l i p d Hi) as Hc.
  assert (<[i:=d]> l !! j = Some q) as Hj' by (by rewrite list_lookup_insert_ne).
  pose proof (cnt_pos P _ _ _ Hj' Hq). rewrite Hp, HI in Hc. simpl in Hc. lia.
Qed.

Lemma cnt_replicate P d n : P d = false → cnt P (replicate n d) = 0.
Proof. intros HP. induction n as [|n IH]; simpl; [done|]. rewrite HP, IH. done. Qed.

Lemma cnt_zero P l : (∀ p, p ∈ l → P p = false) → cnt P l = 0.
Proof.
  induction l as [|p l IH]; intros H; simpl; [done|].
  rewrite (H p), IH; [done|intros; apply H|]; set_solver.
Qed.

End count.

(** ** Taking one element out of a list *)

Section filter_ne.
Context {A : Type} `{!EqDecision A}.
Implicit Types (p : A) (l : list A).

Lemma filter_ne_id p l : p ∉ l → filter (λ q, q ≠ p) l = l.
Proof.
  induction l as [|x l IH]; intros Hp; [done|]. apply not_elem_of_cons in Hp as [Hx Hp].
  rewrite filter_cons, decide_True by congruence. by rewrite IH.
Qed.

Lemma filter_ne_mid p l1 l2 : NoDup (l1 ++ p :: l2) → filter (λ q, q ≠ p) (l1 ++ p :: l2) = l1 ++ l2.
Proof.
  intros (_ & Hd & [Hp _]%NoDup_cons)%NoDup_app.
  rewrite filter_app, filter_cons, decide_False by tauto.
  rewrite !filter_ne_id; [done|done|]. intros Hin. by apply (Hd p Hin); left.
Qed.

Lemma filter_ne_length p l :
  NoDup l → p ∈ l → (Z.of_nat (length (filter (λ q, q ≠ p) l)) = Z.of_nat (length l) - 1)%Z.
Proof.
  intros Hn (l1 & l2 & ->)%list_elem_of_split. rewrite filter_ne_mid by done. rewrite !length_app. simpl. lia.
Qed.

End filter_ne.
