(* ===== verification/Align.v ===== *)
(** * Alignment, minimum/maximum and intervals ([include/dsl])

    [align_up]/[align_down] of [include/dsl/align.h] at [T = A = uintptr_t],
    [min]/[max]/[clamp] of [include/dsl/minmax.h], and the two interval
    representations of [include/dsl/interval.h]. *)

From S2P Require Import Prelude.

Section align_defs.
Local Open Scope Z_scope.

Definition align_up (value alignment : Z) : Z :=
  let a := alignment in
  let v := value in
  let a := if decide (a ≠ 0) then a -ᵤ 1 else a in
  Z.land (v +ᵤ a) (not64 a).

Definition align_down (value alignment : Z) : Z :=
  let a := alignment in
  let v := value in
  let a := if decide (a ≠ 0) then a -ᵤ 1 else a in
  Z.land v (not64 a).

Definition min (a b : Z) : Z := if decide (a < b) then a else b.
Definition max (a b : Z) : Z := if decide (a > b) then a else b.
Definition clamp (floor value ceiling : Z) : Z := max floor (min value ceiling).

(** The inclusive and the half-open interval of [interval.h]. *)
Record first_last := mk_first_last { fl_first : Z; fl_last : Z }.
Record start_end := mk_start_end { se_start : Z; se_end : Z }.

Definition first_last_end (i : first_last) : Z := fl_last i +ᵤ 1.
Definition start_end_last (i : start_end) : Z := se_end i -ᵤ 1.
Definition to_start_end (i : first_last) : start_end :=
  mk_start_end (fl_first i) (fl_last i +ᵤ 1).
Definition to_first_last (i : start_end) : first_last :=
  mk_first_last (se_start i) (se_end i -ᵤ 1).

(** What [align_up] computes when the sum does not overflow: the least
    multiple of the alignment that is not below the value. *)
Definition is_pow2 (a : Z) : Prop := ∃ k, 0 ≤ k < 64 ∧ a = 2 ^ k.
Definition least_multiple_above (a v r : Z) : Prop :=
  v ≤ r ∧ r `mod` a = 0 ∧ ∀ x, v ≤ x → x `mod` a = 0 → r ≤ x.
Definition greatest_multiple_below (a v r : Z) : Prop :=
  r ≤ v ∧ r `mod` a = 0 ∧ ∀ x, x ≤ v → x `mod` a = 0 → x ≤ r.
End align_defs.

Section align_lemmas.
Local Open Scope Z_scope.

Lemma is_pow2_range a : is_pow2 a → 0 < a < 2 ^ 64.
Proof.
  intros (k & Hk & ->). split; [lia|]. apply Z.pow_lt_mono_r; lia.
Qed.

Lemma pow2_u64 k : 0 ≤ k < 64 → 0 < 2 ^ k < 2 ^ 64.
Proof. intros. apply is_pow2_range. by exists k. Qed.

Lemma mask_pow2 a : is_pow2 a → (if decide (a ≠ 0) then a -ᵤ 1 else a) = a - 1.
Proof.
  intros Ha%is_pow2_range. rewrite decide_True by lia. apply sub64_small. lia.
Qed.

Lemma align_down_eq v a : u64 v → is_pow2 a → align_down v a = v - v `mod` a.
Proof.
  intros Hv Ha. unfold align_down. rewrite mask_pow2 by done.
  destruct Ha as (k & Hk & ->). apply land_not64_pow2; [done|lia].
Qed.

Lemma align_up_eq v a :
  is_pow2 a → align_up v a = (v +ᵤ (a - 1)) - (v +ᵤ (a - 1)) `mod` a.
Proof.
  intros Ha. unfold align_up. rewrite mask_pow2 by done.
  destruct Ha as (k & Hk & ->). apply land_not64_pow2; [|lia]. apply add64_range.
Qed.

Lemma greatest_multiple_sub_mod v a :
  0 < a → greatest_multiple_below a v (v - v `mod` a).
Proof.
  intros Ha. pose proof (Z.mod_pos_bound v a Ha). split_and!.
  - lia.
  - replace (v - v `mod` a) with (v / a * a); [apply Z.mod_mul; lia|].
    pose proof (Z.div_mod v a). lia.
  - intros x Hx Hxa. apply Z.mod_divide in Hxa as [q ->]; [|lia].
    assert (q ≤ v / a) by (apply Z.div_le_lower_bound; lia).
    pose proof (Z.div_mod v a ltac:(lia)). nia.
Qed.

Lemma least_multiple_add v a :
  0 < a →
  least_multiple_above a v ((v + (a - 1)) - (v + (a - 1)) `mod` a).
Proof.
  intros Ha. destruct (greatest_multiple_sub_mod (v + (a - 1)) a Ha) as (H1 & H2 & _).
  pose proof (Z.mod_pos_bound (v + (a - 1)) a Ha).
  split_and!; [lia|done|]. intros x Hx Hxa.
  apply Z.nlt_ge. intros Hlt.
  apply Z.mod_divide in Hxa as [q ->]; [|lia].
  apply Z.mod_divide in H2 as [p Hp]; [|lia].
  assert (q < p) by nia. assert (q * a ≤ (p - 1) * a) by nia. lia.
Qed.

(** [align_down] is always exact. *)
Lemma align_down_spec v a :
  u64 v → is_pow2 a →
  greatest_multiple_below a v (align_down v a) ∧ 0 ≤ align_down v a.
Proof.
  intros Hv Ha. pose proof (is_pow2_range a Ha).
  rewrite align_down_eq by done. split.
  - apply greatest_multiple_sub_mod. lia.
  - pose proof (Z.mod_le v a). destruct Hv. lia.
Qed.

(** [align_up] is exact when it fits in 64 bits and otherwise wraps to zero:
    the overflow is visible as a result below the value. *)
Lemma align_up_spec v a :
  u64 v → is_pow2 a →
  (v + (a - 1) < 2 ^ 64 ∧ least_multiple_above a v (align_up v a) ∧ align_up v a < 2 ^ 64)
  ∨ (2 ^ 64 ≤ v + (a - 1) ∧ align_up v a = 0).
Proof.
  intros Hv Ha. rewrite align_up_eq by done. pose proof (is_pow2_range a Ha).
  destruct (decide (v + (a - 1) < 2 ^ 64)).
  - left. rewrite add64_small by (destruct Hv; lia).
    pose proof (Z.mod_pos_bound (v + (a - 1)) a).
    split_and!; [done|apply least_multiple_add; lia|lia].
  - right. split; [lia|]. destruct Ha as (k & Hk & ->).
    assert (v +ᵤ (2 ^ k - 1) = v + (2 ^ k - 1) - 2 ^ 64) as ->.
    { destruct Hv. unfold add64, wrap. symmetry. apply Z.mod_unique with 1; lia. }
    rewrite Z.mod_small; destruct Hv; lia.
Qed.

Lemma align_up_no_overflow v a :
  u64 v → is_pow2 a → v ≤ align_up v a → v ≠ 0 →
  least_multiple_above a v (align_up v a) ∧ align_up v a < 2 ^ 64.
Proof.
  intros Hv Ha Hle Hne. destruct (align_up_spec v a Hv Ha) as [(?&?&?)|[? Hz]]; [done|].
  destruct Hv. lia.
Qed.

Lemma align_up_range v a : u64 (align_up v a).
Proof.
  unfold align_up. set (m := if decide _ then _ else _).
  pose proof (add64_range v m) as Hr. rewrite land_not64 by done.
  split; [apply Z.ldiff_nonneg; left; apply Hr|].
  assert (Z.ldiff (v +ᵤ m) m ≤ v +ᵤ m); [|destruct Hr; lia].
  apply Z.ldiff_le; [apply Hr|]. apply Z.bits_inj'. intros i _.
  rewrite !Z.ldiff_spec, Z.bits_0. by destruct (Z.testbit (v +ᵤ m) i), (Z.testbit m i).
Qed.

Lemma align_up_fixed v a : u64 v → is_pow2 a → v `mod` a = 0 → align_up v a = v.
Proof.
  intros Hv Ha Hm. pose proof (is_pow2_range a Ha).
  destruct (align_up_spec v a Hv Ha) as [(?&(H1&_&H2)&?)|[Ho Hz]].
  - specialize (H2 v ltac:(lia) Hm). lia.
  - exfalso. apply Z.mod_divide in Hm as [q ->]; [|lia].
    destruct Ha as (k & Hk & ->).
    assert (2 ^ 64 = 2 ^ (64 - k) * 2 ^ k) as Hs
      by (rewrite <- Z.pow_add_r; [f_equal; lia|lia|lia]).
    destruct Hv as [_ Hv]. rewrite Hs in Hv, Ho.
    assert (q < 2 ^ (64 - k)) by (eapply Z.mul_lt_mono_pos_r; [|exact Hv]; lia).
    assert ((q + 1) * 2 ^ k ≤ 2 ^ (64 - k) * 2 ^ k) by (apply Z.mul_le_mono_nonneg_r; lia).
    lia.
Qed.

Lemma align_up_overflow v a x :
  u64 v → is_pow2 a → align_up v a < v → v <= x < 2 ^ 64 → x `mod` a = 0 → False.
Proof.
  intros Hv Ha Hlt Hx Hxa. pose proof (is_pow2_range a Ha).
  destruct (align_up_spec v a Hv Ha) as [(_ & (? & _) & _)|[Ho _]]; [lia|].
  destruct Ha as (k & Hk & ->). apply Z.mod_divide in Hxa as [p ->]; [|lia].
  assert (2 ^ 64 = 2 ^ (64 - k) * 2 ^ k) as Hs by (rewrite <- Z.pow_add_r; [f_equal; lia|lia|lia]).
  assert (p < 2 ^ (64 - k)) by (eapply (Z.mul_lt_mono_pos_r (2 ^ k)); lia).
  assert ((p + 1) * 2 ^ k <= 2 ^ (64 - k) * 2 ^ k) by (apply Z.mul_le_mono_nonneg_r; lia). lia.
Qed.

(** [align_up] without overflow, as the searches test it. *)
Lemma align_up_least v a :
  u64 v → is_pow2 a → ¬ align_up v a < v →
  least_multiple_above a v (align_up v a) ∧ align_up v a < 2 ^ 64.
Proof.
  intros Hv Ha Hge. pose proof (is_pow2_range a Ha).
  destruct (align_up_spec v a Hv Ha) as [(_ & ? & ?)|[Ho Hz]]; [done|].
  destruct Hv. lia.
Qed.

(** The test [a & (a - 1)] for powers of two. *)
Lemma land_pred_pow2 a : 0 < a < 2 ^ 64 → Z.land a (a -ᵤ 1) = 0 → is_pow2 a.
Proof.
  intros Ha Hl. rewrite sub64_small in Hl by lia. exists (Z.log2 a).
  pose proof (Z.log2_spec a ltac:(lia)) as [H1 H2]. pose proof (Z.log2_nonneg a) as H0.
  rewrite Z.pow_succ_r in H2 by lia. split.
  { split; [done|]. apply Z.log2_lt_pow2; lia. }
  destruct (decide (a = 2 ^ Z.log2 a)) as [|Hne]; [done|]. exfalso.
  assert (Z.testbit (Z.land a (a - 1)) (Z.log2 a) = true) as Ht; [|by rewrite Hl, Z.bits_0 in Ht].
  rewrite Z.land_spec, Z.bit_log2 by lia. simpl.
  replace (Z.log2 a) with (Z.log2 (a - 1)) at 1; [apply Z.bit_log2; lia|].
  apply Z.log2_unique; [done|]. rewrite Z.pow_succ_r by lia. lia.
Qed.

Lemma pow2_divide j k : is_pow2 j → is_pow2 k → j <= k → (j | k).
Proof.
  intros (m & Hm & ->) (n & Hn & ->) Hle. assert (m <= n) by (apply (Z.pow_le_mono_r_iff 2); lia).
  exists (2 ^ (n - m)). rewrite <-Z.pow_add_r by lia. f_equal. lia.
Qed.

Lemma min_spec a b : min a b = Z.min a b.
Proof. unfold min. case_decide; lia. Qed.

Lemma max_spec a b : max a b = Z.max a b.
Proof. unfold max. case_decide; lia. Qed.

Lemma clamp_between floor value ceiling :
  floor ≤ ceiling → floor ≤ clamp floor value ceiling ≤ ceiling.
Proof. unfold clamp. rewrite max_spec, min_spec. lia. Qed.

End align_lemmas.

#[export] Hint Resolve align_up_range : davix.
