(* ===== verification/LinkedList.v ===== *)
(** * Intrusive doubly linked lists ([include/dsl/list.h])

    [ListHead] objects live in a memory [lmem] from addresses to their two
    link fields.  A list is a circle through its head object.  The address of
    an embedded [ListHead] stands for the address of the object around it, so
    [container_of] is the identity.  Every operation below performs the
    source's field accesses in the source's order and is undefined ([None])
    when it touches an address that holds no [ListHead]. *)

From S2P Require Import Prelude.

Abbreviation loc := positive.

Record ListHead := mkListHead { next : loc; prev : loc }.

Abbreviation lmem := (gmap loc ListHead).

(** ** Operations *)

Definition POISON_PREV : loc := 3735928559%positive. (* 0xdeadbeef *)
Definition POISON_NEXT : loc := 3405691582%positive. (* 0xcafebabe *)

Definition get_next (m : lmem) (p : loc) : option loc := next <$> m !! p.
Definition get_prev (m : lmem) (p : loc) : option loc := prev <$> m !! p.

Definition set_next (m : lmem) (p v : loc) : option lmem :=
  n ← m !! p; Some (<[p := mkListHead v (prev n)]> m).
Definition set_prev (m : lmem) (p v : loc) : option lmem :=
  n ← m !! p; Some (<[p := mkListHead (next n) v]> m).

Definition list_init (m : lmem) (this : loc) : lmem :=
  <[this := mkListHead this this]> m.

Definition list_push_front (m : lmem) (this node : loc) : option lmem :=
  m ← set_prev m node this;
  nx ← get_next m this;
  m ← set_next m node nx;
  m ← set_prev m nx node;
  set_next m this node.

Definition list_push_back (m : lmem) (this node : loc) : option lmem :=
  pv ← get_prev m this;
  m ← set_prev m node pv;
  m ← set_next m node this;
  m ← set_next m pv node;
  set_prev m this node.

Definition list_remove (m : lmem) (this : loc) : option lmem :=
  nx ← get_next m this;
  pv ← get_prev m this;
  m ← set_prev m nx pv;
  m ← set_next m pv nx;
  m ← set_prev m this POISON_PREV;
  set_next m this POISON_NEXT.

(** Move all list entries from [other] to [this]. *)
Definition list_adopt (m : lmem) (this other : loc) : option lmem :=
  fst ← get_next m other;
  lst ← get_prev m other;
  if decide (fst = other) then
    m ← set_next m this this;
    set_prev m this this
  else
    m ← set_next m other other;
    m ← set_prev m other other;
    m ← set_prev m fst this;
    m ← set_next m lst this;
    m ← set_next m this fst;
    set_prev m this lst.

Definition list_empty (m : lmem) (this : loc) : option bool :=
  nx ← get_next m this; Some (bool_decide (nx = this)).

Definition list_pop_front (m : lmem) (this : loc) : option (loc * lmem) :=
  it ← get_next m this;
  m ← list_remove m it;
  Some (it, m).

Definition list_pop_back (m : lmem) (this : loc) : option (loc * lmem) :=
  it ← get_prev m this;
  m ← list_remove m it;
  Some (it, m).

(** [for (x : list)]: from [begin ()] by [operator++] until [end ()].  The
    fuel bounds the number of steps; the number of allocated heads is enough
    for a well-formed list. *)
Fixpoint list_iterate (fuel : nat) (m : lmem) (this cur : loc) : option (list loc) :=
  match fuel with
  | O => None
  | S fuel =>
    if decide (cur = this) then Some []
    else nx ← get_next m cur; xs ← list_iterate fuel m this nx; Some (cur :: xs)
  end.

Definition list_elements (m : lmem) (this : loc) : option (list loc) :=
  it ← get_next m this; list_iterate (S (size m)) m this it.

(** ** The sequence a list represents *)

Fixpoint links (m : lmem) (l : list loc) : Prop :=
  match l with
  | a :: (b :: _) as l' => get_next m a = Some b ∧ get_prev m b = Some a ∧ links m l'
  | _ => True
  end.

(** The list headed by [h] holds exactly the objects [xs], in this order. *)
Definition is_list (m : lmem) (h : loc) (xs : list loc) : Prop :=
  NoDup (h :: xs) ∧ links m (h :: xs ++ [h]).

Section links.
Implicit Types (m : lmem) (l : list loc).

Lemma links_app m l1 a l2 :
  links m (l1 ++ a :: l2) ↔ links m (l1 ++ [a]) ∧ links m (a :: l2).
Proof.
  induction l1 as [|x l1 IH]; simpl; [by destruct l2; tauto|].
  destruct l1 as [|y l1]; simpl in *; tauto.
Qed.

Lemma links_ext m m' l z :
  (∀ p, p ∈ l → get_next m p = get_next m' p) →
  (∀ p, p ∈ tail (l ++ [z]) → get_prev m p = get_prev m' p) →
  links m (l ++ [z]) → links m' (l ++ [z]).
Proof.
  induction l as [|a l IH]; [done|]. intros Hn Hp H.
  destruct l as [|b l]; simpl in *.
  - rewrite <- Hn, <- Hp by set_solver. done.
  - destruct H as (H1 & H2 & H3). rewrite <- Hn, <- Hp by set_solver.
    split_and!; [done..|]. apply IH; set_solver.
Qed.

Lemma is_list_rotate m h l1 a l2 :
  is_list m h (l1 ++ a :: l2) ↔ is_list m a (l2 ++ h :: l1).
Proof.
  unfold is_list.
  assert (h :: l1 ++ a :: l2 ≡ₚ a :: l2 ++ h :: l1) as Hp
    by apply (Permutation_app_comm (h :: l1) (a :: l2)).
  rewrite Hp. apply and_iff_compat_l.
  replace (h :: (l1 ++ a :: l2) ++ [h]) with ((h :: l1) ++ a :: (l2 ++ [h]))
    by (by rewrite <- app_assoc).
  replace (a :: (l2 ++ h :: l1) ++ [a]) with ((a :: l2) ++ h :: (l1 ++ [a]))
    by (by rewrite <- app_assoc).
  rewrite (links_app m (h :: l1)), (links_app m (a :: l2)). simpl. tauto.
Qed.

Lemma is_list_NoDup m h xs : is_list m h xs → NoDup (h :: xs).
Proof. by intros []. Qed.

Lemma links_next m l z a : links m (l ++ [z]) → a ∈ l → is_Some (m !! a).
Proof.
  induction l as [|x l IH]; [set_solver|]. destruct l as [|y l]; simpl.
  - intros (H & _) ->%list_elem_of_singleton. unfold get_next in H.
    destruct (m !! x); [eauto|done].
  - intros (H & _ & H') [->|Hin]%elem_of_cons; [|by apply IH].
    unfold get_next in H. destruct (m !! x); [eauto|done].
Qed.

Lemma is_list_alloc m h xs a : is_list m h xs → a ∈ h :: xs → is_Some (m !! a).
Proof. intros [_ H]. by apply (links_next m (h :: xs) h). Qed.

End links.

(** ** Correctness of the operations *)

(** Every operation is a sequence of field writes; [list_run] executes it on a
    memory whose relevant entries are known. *)
Ltac list_run :=
  unfold list_push_front, list_push_back, list_remove, list_adopt,
    set_next, set_prev in *;
  unfold get_next, get_prev in *; simplify_option_eq; simplify_map_eq.

Section ops.
Implicit Types (m : lmem) (l xs : list loc).

(** The fields after an insertion of [n] between [a] and its successor [b]. *)
Lemma push_front_fields m a b n :
  get_next m a = Some b → is_Some (m !! b) → is_Some (m !! n) → n ≠ a → n ≠ b →
  ∃ m', list_push_front m a n = Some m' ∧
    get_next m' a = Some n ∧ get_prev m' b = Some n ∧
    get_next m' n = Some b ∧ get_prev m' n = Some a ∧
    (∀ p, p ≠ n → p ≠ a → get_next m' p = get_next m p) ∧
    (∀ p, p ≠ n → p ≠ b → get_prev m' p = get_prev m p) ∧
    (∀ p, p ≠ n → p ≠ a → p ≠ b → m' !! p = m !! p) ∧
    dom m' = dom m.
Proof.
  intros Ha [nb Hb] [nn Hn] Hna Hnb.
  unfold get_next in Ha. destruct (m !! a) as [na|] eqn:Ea; simplify_eq/=.
  unfold list_push_front, set_next, set_prev, get_next, get_prev.
  simplify_map_eq. destruct (decide (a = next na)) as [He|He].
  - rewrite <- He in *. simplify_map_eq. eexists; split; [done|].
    split_and!; intros; simplify_map_eq; try done.
    apply set_eq. intros p. rewrite !elem_of_dom, !lookup_insert_is_Some'. naive_solver.
  - simplify_map_eq. eexists; split; [done|].
    split_and!; intros; simplify_map_eq; try done.
    + destruct (decide (p = next na)) as [->|]; by simplify_map_eq.
    + destruct (decide (p = a)) as [->|]; by simplify_map_eq.
    + apply set_eq. intros p. rewrite !elem_of_dom, !lookup_insert_is_Some'. naive_solver.
Qed.

(** Objects outside the list keep their links: what a client with several
    lists in the same memory needs. *)
Definition frame_outside (m m' : lmem) (l : list loc) : Prop :=
  (∀ p, p ∉ l → m' !! p = m !! p) ∧ dom m' = dom m.

Lemma is_list_frame m m' h xs l :
  frame_outside m m' l → (∀ p, p ∈ h :: xs → p ∉ l) → is_list m h xs → is_list m' h xs.
Proof.
  intros [Hf _] Hd [Hnd Hl]. split; [done|].
  apply (links_ext m m' (h :: xs)); [..|done];
    intros p Hp; unfold get_next, get_prev; rewrite Hf; set_solver.
Qed.

Lemma list_init_spec m h : is_list (list_init m h) h [].
Proof.
  split; [apply NoDup_singleton|]. unfold list_init, get_next, get_prev.
  simpl. unfold get_next, get_prev. by simplify_map_eq.
Qed.

Lemma is_list_next m h xs :
  is_list m h xs → get_next m h = Some (default h (head xs)).
Proof. intros [_ H]. destruct xs; simpl in *; naive_solver. Qed.

Lemma push_front_spec m h xs n :
  is_list m h xs → n ∉ h :: xs → is_Some (m !! n) →
  ∃ m', list_push_front m h n = Some m' ∧ is_list m' h (n :: xs) ∧
        frame_outside m m' (n :: h :: xs).
Proof.
  intros HL Hn Hal. pose proof (is_list_next _ _ _ HL) as Hnx.
  set (b := default h (head xs)) in *.
  assert (b ∈ h :: xs) as Hb by (destruct xs; set_solver).
  destruct (push_front_fields m h b n) as (m' & Hm & H1 & H2 & H3 & H4 & H5 & H6 & H7 & H8);
    [done|by eapply is_list_alloc|done|set_solver..|].
  exists m'. split; [done|]. destruct HL as [Hnd HL]. split; [|split; [set_solver|done]].
  split; [rewrite NoDup_cons in Hnd; rewrite !NoDup_cons; set_solver|].
  simpl. split_and!; [done..|]. destruct xs as [|x xs]; simpl in *; [done|].
  split_and!; [done..|]. destruct HL as (_ & _ & HL).
  apply (links_ext m m' (x :: xs)); [..|done]; rewrite !NoDup_cons in Hnd; intros p Hp.
  - symmetry. apply H5; set_solver.
  - simpl in Hp. symmetry. apply H6; set_solver.
Qed.

(** Insertion behind an arbitrary element, as [pred->list.push_front (x)]. *)
Lemma push_after_spec m h l1 a l2 n :
  is_list m h (l1 ++ a :: l2) → n ∉ h :: l1 ++ a :: l2 → is_Some (m !! n) →
  ∃ m', list_push_front m a n = Some m' ∧ is_list m' h (l1 ++ a :: n :: l2) ∧
        frame_outside m m' (n :: h :: l1 ++ a :: l2).
Proof.
  intros HL Hn Hal. apply is_list_rotate in HL.
  destruct (push_front_spec m a (l2 ++ h :: l1) n) as (m' & Hm & HL' & Hf1 & Hf2);
    [done|set_solver|done|].
  exists m'. split_and!; [done| |split; [|done]].
  - apply is_list_rotate. done.
  - intros p Hp. apply Hf1. set_solver.
Qed.

(** [push_back] on [h] is [push_front] on the last element. *)
Lemma push_back_push_front m h z n :
  get_prev m h = Some z → get_next m z = Some h → n ≠ h → n ≠ z →
  list_push_back m h n = list_push_front m z n.
Proof.
  intros Hp Hz Hnh Hnz. unfold get_next, get_prev in *.
  destruct (m !! h) as [nh|] eqn:Eh; [|done].
  destruct (m !! z) as [nz|] eqn:Ez; [|done]. simplify_eq/=.
  unfold list_push_front, list_push_back, set_next, set_prev, get_next, get_prev.
  destruct (m !! n) as [nn|] eqn:En; simplify_map_eq; [|done].
  destruct (decide (prev nh = next nz)) as [He|He].
  - rewrite He in *. simplify_map_eq. by rewrite !insert_insert_eq.
  - simplify_map_eq. f_equal. by apply insert_insert_ne.
Qed.

Lemma is_list_prev m h xs :
  is_list m h xs → get_prev m h = Some (default h (last xs)).
Proof.
  intros [_ H]. destruct xs as [|x xs _] using rev_ind; [simpl in *; naive_solver|].
  rewrite last_snoc. simpl default.
  replace (h :: (xs ++ [x]) ++ [h]) with ((h :: xs) ++ x :: [h]) in H
    by (by rewrite <- app_assoc).
  apply links_app in H as [_ H]. simpl in H. naive_solver.
Qed.

Lemma push_back_spec m h xs n :
  is_list m h xs → n ∉ h :: xs → is_Some (m !! n) →
  ∃ m', list_push_back m h n = Some m' ∧ is_list m' h (xs ++ [n]) ∧
        frame_outside m m' (n :: h :: xs).
Proof.
  intros HL Hn Hal. pose proof (is_list_prev _ _ _ HL) as Hp.
  destruct xs as [|z xs _] using rev_ind; simpl in *.
  - rewrite (push_back_push_front m h h) by (set_solver || apply (is_list_next m h []); done).
    by apply push_front_spec.
  - rewrite last_snoc in Hp. simpl in Hp.
    assert (get_next m z = Some h) as Hz.
    { pose proof HL as HL'. apply is_list_rotate, is_list_next in HL'. done. }
    rewrite (push_back_push_front m h z) by (done || set_solver).
    destruct (push_after_spec m h xs z [] n) as (m' & Hm & HL' & Hf); [done..|].
    exists m'. split_and!; [done| |done]. by rewrite <- app_assoc.
Qed.

(** The fields after [b] is unlinked from between [a] and [c]. *)
Lemma remove_fields m a b c :
  get_prev m b = Some a → get_next m b = Some c → is_Some (m !! a) → is_Some (m !! c) →
  b ≠ a → b ≠ c →
  ∃ m', list_remove m b = Some m' ∧
    get_next m' a = Some c ∧ get_prev m' c = Some a ∧
    m' !! b = Some (mkListHead POISON_NEXT POISON_PREV) ∧
    (∀ p, p ≠ b → p ≠ a → get_next m' p = get_next m p) ∧
    (∀ p, p ≠ b → p ≠ c → get_prev m' p = get_prev m p) ∧
    (∀ p, p ≠ b → p ≠ a → p ≠ c → m' !! p = m !! p) ∧
    dom m' = dom m.
Proof.
  intros Hp Hn [na Ha] [nc Hc] Hba Hbc. unfold get_next, get_prev in Hp, Hn.
  destruct (m !! b) as [nb|] eqn:Eb; simplify_eq/=.
  destruct nb as [c a]; simpl in *.
  unfold list_remove, set_next, set_prev, get_next, get_prev.
  destruct (decide (a = c)) as [->|He].
  - simplify_map_eq. eexists; split; [done|].
    split_and!; intros; simplify_map_eq; try done.
    apply set_eq. intros p. rewrite !elem_of_dom, !lookup_insert_is_Some'. naive_solver.
  - simplify_map_eq. eexists; split; [done|].
    split_and!; intros; simplify_map_eq; try done.
    + destruct (decide (p = c)) as [->|]; by simplify_map_eq.
    + destruct (decide (p = a)) as [->|]; by simplify_map_eq.
    + apply set_eq. intros p. rewrite !elem_of_dom, !lookup_insert_is_Some'. naive_solver.
Qed.

(** Unlinking the first object of a circle leaves the circle of the others. *)
Lemma remove_first m x L0 a c :
  is_list m x (L0 ++ [a]) → head (L0 ++ [a]) = Some c →
  ∃ m', list_remove m x = Some m' ∧ is_list m' c (tail (L0 ++ [a])) ∧
        frame_outside m m' (x :: L0 ++ [a]).
Proof.
  intros HL Hc. pose proof (is_list_next _ _ _ HL) as Hn. rewrite Hc in Hn.
  pose proof (is_list_prev _ _ _ HL) as Hp. rewrite last_snoc in Hp. simpl in *.
  pose proof (is_list_NoDup _ _ _ HL) as Hnd. apply NoDup_cons in Hnd as [Hx Hnd].
  assert (c ∈ L0 ++ [a] ∧ c :: tail (L0 ++ [a]) = L0 ++ [a]) as [Hcin Heq]
    by (destruct L0; simplify_eq/=; set_solver).
  destruct (remove_fields m a x c) as (m' & Hm & H1 & H2 & H3 & H4 & H5 & H6 & H7);
    [done|done| | |set_solver..|].
  { apply (is_list_alloc _ _ _ _ HL). set_solver. }
  { apply (is_list_alloc _ _ _ _ HL). set_solver. }
  exists m'. split; [done|]. split; [|split; [set_solver|done]].
  split; [by rewrite Heq|]. rewrite app_comm_cons, Heq, <- app_assoc. simpl.
  apply links_app. split; [|by simpl]. destruct HL as [_ HL].
  apply (links_ext m m' L0).
  - intros p Hp'. symmetry. apply H4; apply NoDup_app in Hnd; set_solver.
  - intros p Hp'. symmetry. rewrite <- Heq in Hnd, Hp'. apply NoDup_cons in Hnd as [Hct _].
    simpl in Hp'. apply H5; intros ->; [|done].
    apply Hx. rewrite <- Heq. by apply elem_of_cons; right.
  - rewrite <- app_assoc in HL. simpl in HL.
    apply (links_app m (x :: L0) a [x]) in HL as [HL _].
    destruct L0; [done|]. simpl in HL. tauto.
Qed.

Lemma remove_spec m h l1 x l2 :
  is_list m h (l1 ++ x :: l2) →
  ∃ m', list_remove m x = Some m' ∧ is_list m' h (l1 ++ l2) ∧
        frame_outside m m' (h :: l1 ++ x :: l2).
Proof.
  intros HL. apply is_list_rotate in HL.
  destruct (exists_last (l := l2 ++ h :: l1)) as (L0 & a & HE); [by destruct l2|].
  destruct (remove_first m x L0 a (default h (head l2))) as (m' & Hm & HL' & Hf1 & Hf2).
  { by rewrite <- HE. }
  { rewrite <- HE. by destruct l2. }
  rewrite <- HE in *. exists m'. split; [done|]. split.
  - destruct l2 as [|c l2]; simpl in *; [by rewrite app_nil_r|].
    by apply is_list_rotate.
  - split; [|done]. intros p Hp. apply Hf1. set_solver.
Qed.

Lemma empty_spec m h xs : is_list m h xs → list_empty m h = Some (bool_decide (xs = [])).
Proof.
  intros HL. unfold list_empty. rewrite (is_list_next _ _ _ HL). simpl. f_equal.
  apply bool_decide_ext. destruct xs as [|x xs]; simpl; [done|].
  destruct HL as [Hnd _]. apply NoDup_cons in Hnd. set_solver.
Qed.

Lemma pop_front_spec m h x xs :
  is_list m h (x :: xs) →
  ∃ m', list_pop_front m h = Some (x, m') ∧ is_list m' h xs ∧
        frame_outside m m' (h :: x :: xs).
Proof.
  intros HL. unfold list_pop_front. rewrite (is_list_next _ _ _ HL). simpl.
  destruct (remove_spec m h [] x xs HL) as (m' & -> & HL' & Hf). by exists m'.
Qed.

Lemma pop_back_spec m h x xs :
  is_list m h (xs ++ [x]) →
  ∃ m', list_pop_back m h = Some (x, m') ∧ is_list m' h xs ∧
        frame_outside m m' (h :: xs ++ [x]).
Proof.
  intros HL. unfold list_pop_back. rewrite (is_list_prev _ _ _ HL), last_snoc. simpl.
  destruct (remove_spec m h xs x [] HL) as (m' & -> & HL' & Hf).
  rewrite app_nil_r in HL'. by exists m'.
Qed.

(** The fields after [this] takes over the circle of [other]. *)
Lemma adopt_fields m this other x z :
  get_next m other = Some x → get_prev m other = Some z →
  is_Some (m !! x) → is_Some (m !! z) → is_Some (m !! this) →
  this ≠ other → x ≠ other → z ≠ other → this ≠ x → this ≠ z →
  ∃ m', list_adopt m this other = Some m' ∧
    m' !! other = Some (mkListHead other other) ∧
    m' !! this = Some (mkListHead x z) ∧
    get_prev m' x = Some this ∧ get_next m' z = Some this ∧
    (∀ p, p ≠ this → p ≠ other → p ≠ z → get_next m' p = get_next m p) ∧
    (∀ p, p ≠ this → p ≠ other → p ≠ x → get_prev m' p = get_prev m p) ∧
    (∀ p, p ≠ this → p ≠ other → p ≠ x → p ≠ z → m' !! p = m !! p) ∧
    dom m' = dom m.
Proof.
  intros Hn Hp [nx Hx] [nz Hz] [nt Ht] ?????. unfold get_next, get_prev in Hp, Hn.
  destruct (m !! other) as [[n' p']|] eqn:Eb; simplify_eq/=.
  unfold list_adopt, set_next, set_prev, get_next, get_prev. simplify_map_eq.
  rewrite ?decide_False by done.
  destruct (decide (x = z)) as [->|He].
  - simplify_map_eq. eexists; split; [done|].
    split_and!; intros; simplify_map_eq; try done.
    apply set_eq. intros p. rewrite !elem_of_dom, !lookup_insert_is_Some'. naive_solver.
  - simplify_map_eq. eexists; split; [done|].
    split_and!; intros; simplify_map_eq; try done.
    + destruct (decide (p = x)) as [->|]; by simplify_map_eq.
    + destruct (decide (p = z)) as [->|]; by simplify_map_eq.
    + apply set_eq. intros p. rewrite !elem_of_dom, !lookup_insert_is_Some'. naive_solver.
Qed.

Lemma adopt_spec m this other xs :
  is_list m other xs → this ∉ other :: xs → is_Some (m !! this) →
  ∃ m', list_adopt m this other = Some m' ∧ is_list m' this xs ∧ is_list m' other [] ∧
        frame_outside m m' (this :: other :: xs).
Proof.
  intros HL Hth Hal. pose proof (is_list_next _ _ _ HL) as Hn.
  pose proof (is_list_prev _ _ _ HL) as Hp.
  destruct xs as [|x xs'] eqn:Exs.
  - unfold list_adopt. rewrite Hn, Hp. simpl. rewrite decide_True by done.
    destruct Hal as [nt Ht]. unfold set_next, set_prev. simplify_map_eq.
    eexists. split; [done|]. rewrite insert_insert_eq. split_and!.
    + apply list_init_spec.
    + apply (is_list_frame m _ other [] [this]); [|set_solver|done].
      split; [intros; by rewrite lookup_insert_ne by set_solver|].
      rewrite dom_insert_L. apply subseteq_union_1_L, singleton_subseteq_l, elem_of_dom. eauto.
    + split; [intros; by rewrite lookup_insert_ne by set_solver|].
      rewrite dom_insert_L. apply subseteq_union_1_L, singleton_subseteq_l, elem_of_dom. eauto.
  - destruct (exists_last (l := x :: xs')) as (L0 & z & HE); [done|].
    rewrite HE, last_snoc in Hp. simpl in Hn, Hp.
    assert (z ∈ x :: xs') as Hz by (rewrite HE; set_solver).
    pose proof (is_list_NoDup _ _ _ HL) as Hnd. apply NoDup_cons in Hnd as [Ho Hnd].
    destruct (adopt_fields m this other x z)
      as (m' & Hm & Ho' & Ht' & Hx' & Hz' & Hfn & Hfp & Hf & Hd);
      [done|done|apply (is_list_alloc _ _ _ _ HL); set_solver|
       apply (is_list_alloc _ _ _ _ HL); set_solver|done|set_solver..|].
    exists m'. split; [done|]. split_and!.
    + split; [apply NoDup_cons; set_solver|]. rewrite HE, <- app_assoc.
      apply (links_app m' (this :: L0) z [this]). split.
      * simpl. rewrite <- HE. unfold get_next. rewrite Ht'. split_and!; [done..|].
        rewrite HE. destruct HL as [_ HL]. apply (links_ext m m' L0).
        -- intros p Hp'. symmetry. rewrite HE in Hnd, Hth, Ho. apply NoDup_app in Hnd.
           apply Hfn; set_solver.
        -- intros p Hp'. symmetry. rewrite <- HE in Hp'. apply NoDup_cons in Hnd.
           apply Hfp; set_solver.
        -- rewrite HE, <- app_assoc in HL. apply (links_app m (other :: L0) z [other]) in HL as [HL _].
           destruct L0; [done|]. simpl in HL. tauto.
      * simpl. unfold get_prev. by rewrite Ht'.
    + split; [apply NoDup_singleton|]. simpl. unfold get_next, get_prev. by rewrite Ho'.
    + split; [|done]. intros p Hp'. apply Hf; set_solver.
Qed.

(** Popping the head of an empty list unlinks the head object itself and
    leaves it poisoned: the callers test [empty ()] first. *)
Lemma pop_front_empty m h :
  is_list m h [] →
  ∃ m', list_pop_front m h = Some (h, m') ∧ get_next m' h = Some POISON_NEXT.
Proof.
  intros HL. destruct (is_list_alloc m h [] h HL ltac:(set_solver)) as [n Hn].
  pose proof (is_list_next _ _ _ HL) as H1. pose proof (is_list_prev _ _ _ HL) as H2.
  unfold list_pop_front, list_remove, set_next, set_prev, get_next, get_prev in *.
  rewrite Hn in *. simpl in *. simplify_eq. destruct n as [nx pv]; simpl in *; subst.
  simplify_map_eq. eexists. split; [done|]. by simplify_map_eq.
Qed.

(** Iteration visits the elements in order. *)
Lemma iterate_links m h a l fuel :
  links m (a :: l ++ [h]) → NoDup (a :: l) → h ∉ a :: l → (length l + 1 < fuel)%nat →
  list_iterate fuel m h a = Some (a :: l).
Proof.
  revert a fuel. induction l as [|b l IH]; intros a [|fuel] HL Hnd Hh Hf; simpl in *; try lia.
  - rewrite decide_False by set_solver. destruct HL as (-> & _). simpl.
    destruct fuel; [lia|]. simpl. by rewrite decide_True.
  - rewrite decide_False by set_solver. destruct HL as (-> & _ & HL). simpl.
    rewrite IH; [done|done|by apply NoDup_cons in Hnd as []|set_solver|lia].
Qed.

Lemma is_list_size m h xs : is_list m h xs → (length (h :: xs) ≤ size m)%nat.
Proof.
  intros HL. rewrite <- size_dom, <- (size_list_to_set (C := gset loc) (h :: xs))
    by apply HL.
  apply subseteq_size. intros p Hp%elem_of_list_to_set.
  apply elem_of_dom. by apply (is_list_alloc m h xs).
Qed.

Lemma elements_spec m h xs : is_list m h xs → list_elements m h = Some xs.
Proof.
  intros HL. pose proof (is_list_size _ _ _ HL) as Hsz. simpl in Hsz.
  unfold list_elements. rewrite (is_list_next _ _ _ HL). simpl mbind.
  destruct HL as [Hnd HL]. apply NoDup_cons in Hnd as [Hh Hnd].
  destruct xs as [|x xs]; simpl default.
  - simpl. by rewrite decide_True.
  - simpl in HL, Hsz. apply (iterate_links m h x xs (S (size m))); [tauto|done|done|lia].
Qed.

End ops.

(** ** Several lists in one memory

    [lists_ok m L]: for every head [h] in [L], the memory holds the list
    [L !! h], and no object is on two lists. *)

Section many.
Implicit Types (m : lmem) (L : gmap loc (list loc)).

Definition on_list L (x : loc) : Prop := ∃ h xs, L !! h = Some xs ∧ x ∈ h :: xs.

Definition lists_ok m L : Prop :=
  (∀ h xs, L !! h = Some xs → is_list m h xs) ∧
  (∀ h1 h2 xs1 xs2 x, L !! h1 = Some xs1 → L !! h2 = Some xs2 → h1 ≠ h2 →
     x ∈ h1 :: xs1 → x ∉ h2 :: xs2).

(** An operation that rewrites one list and, at most, [n], which is on no
    list, keeps the others. *)
Lemma lists_ok_update m m' L h xs xs' n :
  lists_ok m L → L !! h = Some xs → is_list m' h xs' → frame_outside m m' (n :: h :: xs) →
  (∀ x, x ∈ xs' → x ∈ n :: xs) → ¬ on_list L n ∨ n ∈ xs →
  lists_ok m' (<[h := xs']> L).
Proof.
  intros [Hl Hd] Hh Hl' Hf Hxs' Hn.
  assert (∀ h2 xs2 x, L !! h2 = Some xs2 → h ≠ h2 → x ∈ n :: h :: xs → x ∉ h2 :: xs2) as Hfresh.
  { intros h2 xs2 x H2 Hne Hx Hin. apply elem_of_cons in Hx as [->|Hx]; [|by eapply (Hd h h2)].
    destruct Hn as [Hn|Hn]; [apply Hn; by exists h2, xs2|]. eapply (Hd h h2); [done|done|done| |done].
    apply elem_of_cons. by right. }
  split.
  - intros h1 xs1 H1. destruct (decide (h = h1)) as [->|Hne].
    + rewrite lookup_insert_eq in H1. by injection H1 as <-.
    + rewrite lookup_insert_ne in H1 by done.
      apply (is_list_frame m m' h1 xs1 (n :: h :: xs)); [done| |by apply Hl].
      intros p Hp Hin. by apply (Hfresh h1 xs1 p).
  - intros h1 h2 xs1 xs2 x H1 H2 Hne Hx Hx2.
    assert (∀ y, y ∈ h :: xs' → y ∈ n :: h :: xs) as Hin.
    { intros y [->|Hy]%elem_of_cons; [set_solver|]. apply Hxs' in Hy. set_solver. }
    destruct (decide (h1 = h)) as [->|Hn1], (decide (h2 = h)) as [->|Hn2]; [done|..].
    + rewrite lookup_insert_eq in H1. injection H1 as <-. rewrite lookup_insert_ne in H2 by done.
      eapply (Hfresh h2); eauto.
    + rewrite lookup_insert_eq in H2. injection H2 as <-. rewrite lookup_insert_ne in H1 by done.
      eapply (Hfresh h1); eauto.
    + rewrite lookup_insert_ne in H1, H2 by done. by eapply (Hd h1 h2).
Qed.

Lemma lists_push_front m L h xs n :
  lists_ok m L → L !! h = Some xs → ¬ on_list L n → is_Some (m !! n) →
  ∃ m', list_push_front m h n = Some m' ∧ lists_ok m' (<[h := n :: xs]> L) ∧ dom m' = dom m.
Proof.
  intros Hok Hh Hn Hal. destruct (push_front_spec m h xs n) as (m' & E & Hl & Hf).
  - by apply Hok.
  - intros Hin. apply Hn. by exists h, xs.
  - done.
  - exists m'. split_and!; [done| |apply Hf].
    eapply lists_ok_update; [done|done|done|done|set_solver|by left].
Qed.

Lemma lists_push_back m L h xs n :
  lists_ok m L → L !! h = Some xs → ¬ on_list L n → is_Some (m !! n) →
  ∃ m', list_push_back m h n = Some m' ∧ lists_ok m' (<[h := xs ++ [n]]> L) ∧ dom m' = dom m.
Proof.
  intros Hok Hh Hn Hal. destruct (push_back_spec m h xs n) as (m' & E & Hl & Hf).
  - by apply Hok.
  - intros Hin. apply Hn. by exists h, xs.
  - done.
  - exists m'. split_and!; [done| |apply Hf].
    eapply lists_ok_update; [done|done|done|done|set_solver|by left].
Qed.

Lemma lists_remove m L h l1 x l2 :
  lists_ok m L → L !! h = Some (l1 ++ x :: l2) →
  ∃ m', list_remove m x = Some m' ∧ lists_ok m' (<[h := l1 ++ l2]> L) ∧ dom m' = dom m.
Proof.
  intros Hok Hh. destruct (remove_spec m h l1 x l2) as (m' & E & Hl & Hf); [by apply Hok|].
  exists m'. split_and!; [done| |apply Hf].
  eapply (lists_ok_update m m' L h (l1 ++ x :: l2) (l1 ++ l2) x); [done|done|done| |set_solver|set_solver].
  destruct Hf as [Hf ?]. split; [|done]. intros p Hp. apply Hf. set_solver.
Qed.

Lemma lists_pop_front m L h x xs :
  lists_ok m L → L !! h = Some (x :: xs) →
  ∃ m', list_pop_front m h = Some (x, m') ∧ lists_ok m' (<[h := xs]> L) ∧ dom m' = dom m.
Proof.
  intros Hok Hh. destruct (lists_remove m L h [] x xs Hok Hh) as (m' & E & Hok' & Hd).
  exists m'. split_and!; [|done|done]. unfold list_pop_front.
  rewrite (is_list_next m h (x :: xs)) by (by apply Hok). simpl. by rewrite E.
Qed.

(** The removed object is on no list afterwards. *)
Lemma removed_off_list m L h l1 x l2 :
  lists_ok m L → L !! h = Some (l1 ++ x :: l2) → ¬ on_list (<[h := l1 ++ l2]> L) x.
Proof.
  intros [Hl Hd] Hh (h' & xs' & Hh' & Hx).
  pose proof (is_list_NoDup _ _ _ (Hl _ _ Hh)) as Hnd.
  destruct (decide (h = h')) as [->|Hne].
  - rewrite lookup_insert_eq in Hh'. injection Hh' as <-.
    rewrite <- Permutation_middle, perm_swap in Hnd. apply NoDup_cons in Hnd as [Hnd _]. done.
  - rewrite lookup_insert_ne in Hh' by done. eapply (Hd h h'); [done|done|done| |done]. set_solver.
Qed.

Lemma on_list_insert L h xs xs' x :
  L !! h = Some xs → on_list (<[h := xs']> L) x → x ∈ xs' ∨ on_list L x.
Proof.
  intros Hh (h' & ys & Hh' & Hx). destruct (decide (h = h')) as [->|Hne].
  - rewrite lookup_insert_eq in Hh'. injection Hh' as <-.
    apply elem_of_cons in Hx as [->|Hx]; [|by left]. right. exists h', xs. set_solver.
  - rewrite lookup_insert_ne in Hh' by done. right. by exists h', ys.
Qed.

Lemma lists_ok_alloc m L x : lists_ok m L → on_list L x → is_Some (m !! x).
Proof. intros [Hl _] (h & xs & Hh & Hx). by eapply is_list_alloc; [apply Hl|]. Qed.

End many.
