(* ===== verification/HList.v ===== *)
(** * Lists for hash tables ([include/dsl/hlist.h])

    A list head is one pointer; an entry points to its successor and back to
    the pointer that points to it, the head or the [next] field of its
    predecessor.  As in [LinkedList] the address of an embedded [HListHead]
    stands for the object around it, and an operation that follows a wild
    pointer is undefined ([None]). *)

From S2P Require Import Prelude.
From S2P Require Export LinkedList.

(** What a [HListHead **] points to; [CWild] is the poison. *)
Inductive hcell := CHead (b : loc) | CNext (x : loc) | CWild.

#[global] Instance hcell_eq_dec : EqDecision hcell.
Proof. solve_decision. Defined.

Record HListHead := mkHListHead { hl_next : option loc; hl_link : hcell }.

(** The heads and the entries. *)
Record hmem := mkHmem { hl_heads : gmap loc (option loc); hl_nodes : gmap loc HListHead }.

(** [0xdeadbeef], as in [ListHead]. *)
Definition HPOISON_NEXT : option loc := Some POISON_PREV.

(** ** Operations *)

Definition load_cell (m : hmem) (c : hcell) : option (option loc) :=
  match c with
  | CHead b => hl_heads m !! b
  | CNext x => hl_next <$> hl_nodes m !! x
  | CWild => None
  end.

Definition set_hnode (m : hmem) (x : loc) (n : HListHead) : hmem :=
  mkHmem (hl_heads m) (<[x := n]> (hl_nodes m)).

Definition store_cell (m : hmem) (c : hcell) (v : option loc) : option hmem :=
  match c with
  | CHead b => _ ← hl_heads m !! b; Some (mkHmem (<[b := v]> (hl_heads m)) (hl_nodes m))
  | CNext x => n ← hl_nodes m !! x; Some (set_hnode m x (mkHListHead v (hl_link n)))
  | CWild => None
  end.

(** [p->link = c], for a non-null [p]. *)
Definition set_link_opt (m : hmem) (p : option loc) (c : hcell) : option hmem :=
  match p with
  | Some x => n ← hl_nodes m !! x; Some (set_hnode m x (mkHListHead (hl_next n) c))
  | None => Some m
  end.

Definition hlist_init (m : hmem) (b : loc) : hmem := mkHmem (<[b := None]> (hl_heads m)) (hl_nodes m).

Definition hlist_remove (m : hmem) (x : loc) : option hmem :=
  n ← hl_nodes m !! x;
  m ← set_link_opt m (hl_next n) (hl_link n);
  m ← store_cell m (hl_link n) (hl_next n);
  _ ← hl_nodes m !! x;
  Some (set_hnode m x (mkHListHead HPOISON_NEXT CWild)).

Definition hlist_push (m : hmem) (b entry : loc) : option hmem :=
  h ← hl_heads m !! b;
  _ ← hl_nodes m !! entry;
  let m := set_hnode m entry (mkHListHead h (CHead b)) in
  m ← set_link_opt m h (CNext entry);
  store_cell m (CHead b) (Some entry).

Definition hlist_empty (m : hmem) (b : loc) : option bool :=
  h ← hl_heads m !! b; Some (bool_decide (h = None)).

(** [TypedHList::pop]; on an empty list it dereferences null. *)
Definition hlist_pop (m : hmem) (b : loc) : option (loc * hmem) :=
  h ← hl_heads m !! b;
  x ← h;
  m ← hlist_remove m x;
  Some (x, m).

(** [for (x : list)]: from [begin ()] by [operator++] until [end ()]. *)
Fixpoint hlist_iterate (fuel : nat) (m : hmem) (cur : option loc) : option (list loc) :=
  match cur, fuel with
  | None, _ => Some []
  | Some x, O => None
  | Some x, S fuel => n ← hl_nodes m !! x; xs ← hlist_iterate fuel m (hl_next n); Some (x :: xs)
  end.

Definition hlist_elements (m : hmem) (b : loc) : option (list loc) :=
  h ← hl_heads m !! b; hlist_iterate (size (hl_nodes m)) m h.

(** ** The sequence a list represents *)

Section hlist.
Implicit Types (m : hmem) (xs ys : list loc) (c : hcell).

(** [c] points to the first of [xs], which are linked to their end. *)
Fixpoint hseg m c xs : Prop :=
  match xs with
  | [] => load_cell m c = Some None
  | x :: xs => load_cell m c = Some (Some x) ∧ (hl_link <$> hl_nodes m !! x) = Some c ∧ hseg m (CNext x) xs
  end.

Definition is_hlist m b xs : Prop := NoDup xs ∧ hseg m (CHead b) xs.

(** Only the list [b] and the entries [xs] changed. *)
Definition only_touched (b : option loc) xs m m' : Prop :=
  (∀ b', Some b' ≠ b → hl_heads m' !! b' = hl_heads m !! b') ∧
  (∀ x, x ∉ xs → hl_nodes m' !! x = hl_nodes m !! x) ∧
  dom (hl_heads m') = dom (hl_heads m) ∧ dom (hl_nodes m') = dom (hl_nodes m).

Lemma hseg_ext m m' c xs :
  hseg m c xs → load_cell m' c = load_cell m c →
  (∀ x, x ∈ xs → hl_nodes m' !! x = hl_nodes m !! x) → hseg m' c xs.
Proof.
  revert c. induction xs as [|x xs IH]; intros c H Hc Hx; simpl in *; [by rewrite Hc|].
  destruct H as (H1 & H2 & H3). rewrite Hc, Hx by set_solver. split_and!; [done..|].
  apply IH; [done| |set_solver]. simpl. by rewrite Hx by set_solver.
Qed.

Lemma is_hlist_other m m' b b' xs ys :
  only_touched (Some b) xs m m' → is_hlist m b' ys → b' ≠ b → (∀ y, y ∈ ys → y ∉ xs) → is_hlist m' b' ys.
Proof.
  intros (H1 & H2 & _) [Hn H] Hb Hd. split; [done|]. eapply hseg_ext; [exact H| |].
  - simpl. apply H1. congruence.
  - intros y Hy. by apply H2, Hd.
Qed.

Lemma hseg_nodes m c xs x : hseg m c xs → x ∈ xs → is_Some (hl_nodes m !! x).
Proof.
  revert c. induction xs as [|y xs IH]; intros c H Hx; [by apply elem_of_nil in Hx|].
  destruct H as (_ & H2 & H3). apply elem_of_cons in Hx as [->|Hx]; [|by eapply IH].
  destruct (hl_nodes m !! y); [by eexists|done].
Qed.

(** Redirecting the back link of the first entry. *)
Lemma set_link_seg m c c' xs :
  hseg m c xs → NoDup xs →
  ∃ m', set_link_opt m (head xs) c' = Some m' ∧ hl_heads m' = hl_heads m ∧ dom (hl_nodes m') = dom (hl_nodes m) ∧
    (∀ x, Some x ≠ head xs → hl_nodes m' !! x = hl_nodes m !! x) ∧
    (∀ x, hl_next <$> hl_nodes m' !! x = hl_next <$> hl_nodes m !! x) ∧
    match xs with [] => True | x :: xs => (hl_link <$> hl_nodes m' !! x) = Some c' ∧ hseg m' (CNext x) xs end.
Proof.
  intros H Hnd. destruct xs as [|x xs]; simpl; [by exists m|]. destruct H as (_ & H2 & H3).
  destruct (hl_nodes m !! x) as [n|] eqn:Hx; [|done]. cbn [mbind option_bind]. eexists. split; [done|]. simpl.
  assert (∀ y, hl_next <$> (<[x:=mkHListHead (hl_next n) c']> (hl_nodes m)) !! y = hl_next <$> hl_nodes m !! y) as Hnx.
  { intros y. destruct (decide (y = x)) as [->|]; [by rewrite lookup_insert_eq, Hx|by rewrite lookup_insert_ne]. }
  split_and!; try done.
  - by rewrite dom_insert_lookup_L by (by eexists).
  - intros y Hy. rewrite lookup_insert_ne by congruence. done.
  - by rewrite lookup_insert_eq.
  - apply NoDup_cons in Hnd as [Hn _]. eapply hseg_ext; [exact H3|apply Hnx|]. intros y Hy. simpl.
    rewrite lookup_insert_ne by congruence. done.
Qed.

(** The pointer to what follows [xs]. *)
Fixpoint end_cell c xs : hcell := match xs with [] => c | x :: xs => end_cell (CNext x) xs end.

Lemma end_cell_cases c xs : (xs = [] ∧ end_cell c xs = c) ∨ ∃ x, x ∈ xs ∧ end_cell c xs = CNext x.
Proof.
  revert c. induction xs as [|x xs IH]; intros c; [by left|right]. simpl.
  destruct (IH (CNext x)) as [[-> ->]|(y & Hy & ->)]; [exists x|exists y]; set_solver.
Qed.

Lemma hseg_app m c l1 l2 : hseg m c (l1 ++ l2) → hseg m (end_cell c l1) l2.
Proof. revert c. induction l1 as [|x l1 IH]; intros c; simpl; [done|]. intros (_ & _ & H). by apply IH. Qed.

(** Replacing what follows [l1]. *)
Lemma hseg_splice m m' c l1 l2 l3 (bad : hcell → Prop) :
  hseg m c (l1 ++ l2) → NoDup l1 → (∀ z, z ∈ l1 → c ≠ CNext z ∧ ¬ bad (CNext z)) → ¬ bad c →
  (∀ z, z ∈ l1 → hl_link <$> hl_nodes m' !! z = hl_link <$> hl_nodes m !! z) →
  (∀ k, k ≠ end_cell c l1 → ¬ bad k → load_cell m' k = load_cell m k) →
  hseg m' (end_cell c l1) l3 → hseg m' c (l1 ++ l3).
Proof.
  revert c. induction l1 as [|y l1 IH]; intros c H Hnd Hc Hb Hl Hk H3; [done|].
  destruct H as (H1 & H2 & H4). apply NoDup_cons in Hnd as [Hn Hnd]. simpl in *.
  rewrite Hl by set_solver. rewrite Hk; [|by destruct (end_cell_cases (CNext y) l1) as [[_ ->]|(z & Hz & ->)];
    apply Hc; set_solver|done].
  split_and!; [done..|]. apply IH; try done; [set_solver|by apply Hc; left|set_solver].
Qed.

Lemma store_cell_spec m c v :
  is_Some (load_cell m c) →
  ∃ m', store_cell m c v = Some m' ∧ load_cell m' c = Some v ∧
    (∀ k, k ≠ c → load_cell m' k = load_cell m k) ∧
    (∀ x, hl_link <$> hl_nodes m' !! x = hl_link <$> hl_nodes m !! x) ∧
    (∀ x, c ≠ CNext x → hl_nodes m' !! x = hl_nodes m !! x) ∧
    dom (hl_heads m') = dom (hl_heads m) ∧ dom (hl_nodes m') = dom (hl_nodes m).
Proof.
  intros Hc. destruct c as [b|x|]; simpl in *; [| |by destruct Hc].
  - destruct Hc as [w Hw]. rewrite Hw. eexists. split; [done|]. simpl. split_and!; try done.
    + by rewrite lookup_insert_eq.
    + intros [b'|x|] Hk; simpl; [|done..]. rewrite lookup_insert_ne by congruence. done.
    + by rewrite dom_insert_lookup_L by (by eexists).
  - destruct (hl_nodes m !! x) as [n|] eqn:Hx; [|by destruct Hc]. eexists. split; [done|]. simpl. split_and!; try done.
    + by rewrite lookup_insert_eq.
    + intros [b'|y|] Hk; simpl; [done| |done]. rewrite lookup_insert_ne by congruence. done.
    + intros y. destruct (decide (y = x)) as [->|]; [by rewrite lookup_insert_eq, Hx|by rewrite lookup_insert_ne].
    + intros y Hy. rewrite lookup_insert_ne by congruence. done.
    + by rewrite dom_insert_lookup_L by (by eexists).
Qed.

Lemma hlist_push_spec m b xs x :
  is_hlist m b xs → x ∉ xs → is_Some (hl_nodes m !! x) →
  ∃ m', hlist_push m b x = Some m' ∧ is_hlist m' b (x :: xs) ∧ only_touched (Some b) (x :: xs) m m'.
Proof.
  intros [Hnd H] Hx [n Hn]. unfold hlist_push.
  assert (hl_heads m !! b = Some (head xs)) as Hh by (destruct xs; [done|apply H]).
  rewrite Hh, Hn. cbn [mbind option_bind]. set (m1 := set_hnode m x (mkHListHead (head xs) (CHead b))).
  assert (hseg m1 (CHead b) xs) as H1.
  { eapply hseg_ext; [exact H|done|]. intros y Hy. simpl. rewrite lookup_insert_ne by congruence. done. }
  destruct (set_link_seg m1 (CHead b) (CNext x) xs H1 Hnd) as (m2 & -> & Hh2 & Hd2 & Hn2 & Hx2 & H2).
  cbn [mbind option_bind]. simpl. rewrite Hh2. simpl. rewrite Hh. cbn [mbind option_bind].
  assert (Some x ≠ head xs) as Hxh by (destruct xs; simpl; set_solver).
  assert (hl_nodes m2 !! x = Some (mkHListHead (head xs) (CHead b))) as Hx1.
  { rewrite Hn2 by done. simpl. by rewrite lookup_insert_eq. }
  eexists. split; [done|]. split; [split; [by constructor|]|].
  - simpl. rewrite lookup_insert_eq, Hx1. split_and!; [done..|]. destruct xs as [|y ys]; simpl; rewrite Hx1; [done|].
    destruct H2 as [H2 H3]. split_and!; [done..|]. eapply hseg_ext; [exact H3|done|done].
  - split_and!; simpl.
    + intros b' Hb. rewrite lookup_insert_ne by congruence. done.
    + intros y Hy. rewrite Hn2 by (destruct xs; simpl in *; set_solver). simpl. rewrite lookup_insert_ne by set_solver. done.
    + by rewrite dom_insert_lookup_L by (by eexists).
    + rewrite Hd2. simpl. by rewrite dom_insert_lookup_L by (by eexists).
Qed.

Lemma hlist_remove_seq m b l1 x l2 :
  is_hlist m b (l1 ++ x :: l2) →
  ∃ m', hlist_remove m x = Some m' ∧ is_hlist m' b (l1 ++ l2).
Proof.
  intros [Hnd H]. unfold hlist_remove. pose proof (hseg_app _ _ _ _ H) as (Hc & Hl & H2).
  set (c := end_cell (CHead b) l1) in *.
  apply NoDup_app in Hnd as (Hn1 & Hdis & [Hx2 Hn2]%NoDup_cons).
  destruct (hl_nodes m !! x) as [n|] eqn:Hx; [|done]. simpl in Hl. injection Hl as Hl.
  assert (hl_next n = head l2) as Hnx by (destruct l2; simpl in H2; rewrite Hx in H2; naive_solver).
  cbn [mbind option_bind]. rewrite Hl, Hnx.
  destruct (set_link_seg m (CNext x) c l2 H2 Hn2) as (m1 & -> & Hh1 & Hd1 & Hu1 & Hnx1 & H3). cbn [mbind option_bind].
  assert (∀ k, load_cell m1 k = load_cell m k) as Hld.
  { intros [b'|y|]; simpl; [by rewrite Hh1|apply Hnx1|done]. }
  destruct (store_cell_spec m1 c (head l2)) as (m2 & -> & Hst & Hld2 & Hlk2 & Hno2 & Hdh2 & Hdn2); [by rewrite Hld, Hc|].
  cbn [mbind option_bind].
  assert (∀ y, y ∈ l2 → c ≠ CNext y ∧ Some y ≠ Some x) as Hcy.
  { intros y Hy. unfold c. destruct (end_cell_cases (CHead b) l1) as [[_ ->]|(z & Hz & ->)]; set_solver. }
  assert (c ≠ CNext x) as Hcx.
  { unfold c. destruct (end_cell_cases (CHead b) l1) as [[_ ->]|(z & Hz & ->)]; set_solver. }
  assert (hl_nodes m2 !! x = Some n) as Hx3.
  { rewrite Hno2, Hu1 by (done || destruct l2; simpl in *; set_solver). done. }
  rewrite Hx3. cbn [mbind option_bind]. eexists. split; [done|]. set (m3 := set_hnode m2 x _).
  assert (∀ y, y ≠ x → hl_nodes m3 !! y = hl_nodes m2 !! y) as Hm3 by (intros y Hy; simpl; by rewrite lookup_insert_ne).
  assert (∀ k, k ≠ CNext x → load_cell m3 k = load_cell m2 k) as Hld3.
  { intros [b'|y|] Hk; [done| |done]. simpl. rewrite lookup_insert_ne by congruence. done. }
  split.
  - apply NoDup_app. split_and!; try done. intros y Hy Hy2. apply (Hdis y Hy). set_solver.
  - apply (hseg_splice m m3 (CHead b) l1 (x :: l2) l2 (λ k, k = CNext x)); try done.
    + intros z Hz. split; [done|]. intros [= ->]. apply (Hdis x Hz). set_solver.
    + intros z Hz. rewrite Hm3, Hlk2, Hu1; [done|..]; intros E; apply (Hdis z Hz);
        [destruct l2; simpl in E; set_solver|set_solver].
    + intros k Hk Hb. by rewrite Hld3, Hld2, Hld.
    + fold c. destruct l2 as [|y l2]; simpl; rewrite Hld3, Hst by done; [done|]. destruct H3 as [H3 H4].
      rewrite Hm3, Hlk2 by set_solver. split_and!; [done..|]. eapply hseg_ext; [exact H4| |].
      * rewrite Hld3, Hld2 by (apply not_eq_sym, Hcy || idtac; set_solver). done.
      * intros z Hz. rewrite Hm3, Hno2 by (set_solver || apply Hcy; set_solver). done.
Qed.

(** What the stores change. *)
Lemma only_touched_trans b xs m1 m2 m3 :
  only_touched b xs m1 m2 → only_touched b xs m2 m3 → only_touched b xs m1 m3.
Proof.
  intros (A1 & A2 & A3 & A4) (B1 & B2 & B3 & B4). split_and!; try congruence.
  - intros b' Hb. by rewrite B1, A1.
  - intros x Hx. by rewrite B2, A2.
Qed.

Lemma set_hnode_frame b xs m x n :
  x ∈ xs → is_Some (hl_nodes m !! x) → only_touched b xs m (set_hnode m x n).
Proof.
  intros Hx Hn. split_and!; simpl; try done; [|by rewrite dom_insert_lookup_L].
  intros y Hy. rewrite lookup_insert_ne by congruence. done.
Qed.

Lemma set_link_frame b xs m p c m' :
  (∀ x, p = Some x → x ∈ xs) → set_link_opt m p c = Some m' → only_touched b xs m m'.
Proof.
  intros Hp. destruct p as [x|]; simpl; [|by intros [= <-]].
  intros (n & Hn & [= <-])%bind_Some. apply set_hnode_frame; [by apply Hp|by eexists].
Qed.

Lemma store_cell_frame b xs m c v m' :
  c = CHead b ∨ (∃ x, x ∈ xs ∧ c = CNext x) → store_cell m c v = Some m' → only_touched (Some b) xs m m'.
Proof.
  intros [->|(x & Hx & ->)]; simpl; intros (n & Hn & [= <-])%bind_Some.
  - split_and!; simpl; try done; [|by rewrite dom_insert_lookup_L by (by eexists)].
    intros b' Hb. rewrite lookup_insert_ne by congruence. done.
  - apply set_hnode_frame; [done|by eexists].
Qed.

Lemma hlist_remove_frame m b l1 x l2 m' :
  is_hlist m b (l1 ++ x :: l2) → hlist_remove m x = Some m' → only_touched (Some b) (l1 ++ x :: l2) m m'.
Proof.
  intros [_ H]. pose proof (hseg_app _ _ _ _ H) as (_ & Hl & H2). unfold hlist_remove. intros (n & Hn & E)%bind_Some.
  rewrite Hn in Hl. injection Hl as Hl.
  assert (hl_next n = head l2) as Hnx by (destruct l2; simpl in H2; rewrite Hn in H2; naive_solver).
  apply bind_Some in E as (m1 & E1 & E). apply bind_Some in E as (m2 & E2 & E). apply bind_Some in E as (n2 & Hn2 & [= <-]).
  eapply only_touched_trans; [eapply set_link_frame; [|exact E1]|eapply only_touched_trans; [eapply store_cell_frame; [|exact E2]|]].
  - rewrite Hnx. intros y Hy. destruct l2; simplify_eq. set_solver.
  - rewrite Hl. destruct (end_cell_cases (CHead b) l1) as [[_ ->]|(z & Hz & ->)]; [by left|right]. exists z. set_solver.
  - apply set_hnode_frame; [set_solver|by eexists].
Qed.

Lemma hlist_remove_spec m b l1 x l2 :
  is_hlist m b (l1 ++ x :: l2) →
  ∃ m', hlist_remove m x = Some m' ∧ is_hlist m' b (l1 ++ l2) ∧ only_touched (Some b) (l1 ++ x :: l2) m m'.
Proof.
  intros H. destruct (hlist_remove_seq _ _ _ _ _ H) as (m' & E & H'). exists m'. split_and!; try done.
  by eapply hlist_remove_frame.
Qed.

Lemma hlist_pop_spec m b x xs :
  is_hlist m b (x :: xs) →
  ∃ m', hlist_pop m b = Some (x, m') ∧ is_hlist m' b xs ∧ only_touched (Some b) (x :: xs) m m'.
Proof.
  intros H. destruct (hlist_remove_spec m b [] x xs H) as (m' & E & H').
  destruct H as [_ (Hh & _)]. exists m'. unfold hlist_pop. simpl in Hh. rewrite Hh. simpl. by rewrite E.
Qed.

Lemma hlist_empty_spec m b xs : is_hlist m b xs → hlist_empty m b = Some (bool_decide (xs = [])).
Proof.
  intros [_ H]. unfold hlist_empty. destruct xs as [|x xs]; simpl in H; [by rewrite H|].
  destruct H as [-> _]. done.
Qed.

Lemma hlist_iterate_spec m c xs fuel :
  hseg m c xs → (length xs ≤ fuel)%nat → hlist_iterate fuel m (head xs) = Some xs.
Proof.
  revert c fuel. induction xs as [|x xs IH]; intros c fuel H Hf; [by destruct fuel|].
  destruct fuel as [|fuel]; [simpl in Hf; lia|]. destruct H as (_ & _ & H).
  assert (hl_next <$> hl_nodes m !! x = Some (head xs)) as Hn by (destruct xs; [done|apply H]).
  simpl. destruct (hl_nodes m !! x) as [n|]; [|done]. injection Hn as Hn. simpl. rewrite Hn.
  rewrite (IH _ fuel H) by (simpl in Hf; lia). done.
Qed.

Lemma hlist_elements_spec m b xs : is_hlist m b xs → hlist_elements m b = Some xs.
Proof.
  intros [Hnd H]. unfold hlist_elements.
  assert (hl_heads m !! b = Some (head xs)) as -> by (destruct xs; [done|apply H]). simpl.
  eapply hlist_iterate_spec; [exact H|]. rewrite <-(size_list_to_set (C := gset loc) xs Hnd), <-size_dom.
  apply subseteq_size. intros x Hx%elem_of_list_to_set. apply elem_of_dom. by eapply hseg_nodes.
Qed.

(** C28. A hash-table list refines a sequence: [push] adds at the front, [remove]
    takes out exactly the given entry wherever it is, [pop] the first one (with
    [empty] telling that there is one), the iterator visits every entry once
    and ends; no operation touches another list. *)
Theorem hlist_correct m b xs :
  is_hlist m b xs →
  hlist_elements m b = Some xs ∧ hlist_empty m b = Some (bool_decide (xs = [])) ∧
  (∀ x, x ∉ xs → is_Some (hl_nodes m !! x) →
     ∃ m', hlist_push m b x = Some m' ∧ is_hlist m' b (x :: xs) ∧
       ∀ b' ys, b' ≠ b → (∀ y, y ∈ ys → y ∉ x :: xs) → is_hlist m b' ys → is_hlist m' b' ys) ∧
  (∀ x, x ∈ xs →
     ∃ m', hlist_remove m x = Some m' ∧ is_hlist m' b (filter (λ y, y ≠ x) xs) ∧
       ∀ b' ys, b' ≠ b → (∀ y, y ∈ ys → y ∉ xs) → is_hlist m b' ys → is_hlist m' b' ys) ∧
  match xs with
  | [] => hlist_pop m b = None
  | x :: xs' => ∃ m', hlist_pop m b = Some (x, m') ∧ is_hlist m' b xs'
  end.
Proof.
  intros H. split_and!; [by apply hlist_elements_spec|by apply hlist_empty_spec|..].
  - intros x Hx Hn. destruct (hlist_push_spec m b xs x H Hx Hn) as (m' & E & H' & U). exists m'. split_and!; try done.
    intros b' ys Hb Hd Hy. by eapply is_hlist_other.
  - intros x (l1 & l2 & ->)%list_elem_of_split. destruct (hlist_remove_spec m b l1 x l2 H) as (m' & E & H' & U).
    exists m'. rewrite filter_ne_mid by apply H. split_and!; try done. intros b' ys Hb Hd Hy. by eapply is_hlist_other.
  - destruct xs as [|x xs].
    + destruct H as [_ H]. simpl in H. unfold hlist_pop. by rewrite H.
    + destruct (hlist_pop_spec m b x xs H) as (m' & E & H' & _). by exists m'.
Qed.

End hlist.

(** Entries 3 and 4 on the list at 1; the list at 2 is empty; 5 is outside. *)
Definition ex_hlist : hmem :=
  mkHmem (list_to_map [(1%positive, Some 3%positive); (2%positive, None)])
    (list_to_map [(3%positive, mkHListHead (Some 4%positive) (CHead 1)); (4%positive, mkHListHead None (CNext 3));
                  (5%positive, mkHListHead None CWild)]).

Lemma ex_hlist_ok : is_hlist ex_hlist 1 [3; 4]%positive.
Proof. split; [apply (bool_decide_unpack _); reflexivity|]. vm_compute. repeat split. Qed.

Lemma hlist_correct_witness :
  hlist_elements ex_hlist 1 = Some [3; 4]%positive ∧
  ∃ m', hlist_push ex_hlist 1 5 = Some m' ∧ is_hlist m' 1 [5; 3; 4]%positive.
Proof.
  destruct (hlist_correct ex_hlist 1 [3; 4]%positive ex_hlist_ok) as (H1 & _ & H2 & _). split; [exact H1|].
  destruct (H2 5%positive) as (m' & E & H3 & _).
  - apply (bool_decide_unpack _). reflexivity.
  - vm_compute. by eexists.
  - exists m'. split; [exact E|exact H3].
Defined.
