(* ===== verification/PtrTree.v ===== *)
(** * Pointer-linked binary trees with parent pointers

    What the AVL tree ([include/dsl/avltree.h]) and the VMA tree
    ([include/dsl/vmatree.h]) have in common: a node has two children, a parent
    pointer and some payload; nodes live in a memory indexed by address.

    [rep m par t] says that the memory [m] holds the tree [t] below the parent
    [par]; [crep] says the same of a tree with a hole, the zipper through which
    the [fixup] loops walk from a node to the root. *)

From S2P Require Import Prelude.
From S2P Require Export LinkedList.

Abbreviation ptr := (option loc).

Inductive Dir := LEFT | RIGHT.

#[export] Instance Dir_eq_dec : EqDecision Dir.
Proof. solve_decision. Defined.

Definition opposite (d : Dir) : Dir := if decide (d ≠ LEFT) then LEFT else RIGHT.

Record node (A : Type) := mkNode {
  child_l : ptr;
  child_r : ptr;
  parent : ptr;
  aux : A
}.
Arguments mkNode {A}.
Arguments child_l {A}.
Arguments child_r {A}.
Arguments parent {A}.
Arguments aux {A}.

Inductive tree (A : Type) :=
| E
| T (l : tree A) (x : loc) (a : A) (r : tree A).
Arguments E {A}.
Arguments T {A}.

Section ptr_tree.
Context {A : Type}.
Implicit Types (m : gmap loc (node A)) (t l r : tree A) (d : Dir) (x : loc) (a : A).

(** ** Field accesses *)

Definition child (n : node A) d : ptr :=
  match d with LEFT => child_l n | RIGHT => child_r n end.

Definition with_child (n : node A) d (p : ptr) : node A :=
  match d with
  | LEFT => mkNode p (child_r n) (parent n) (aux n)
  | RIGHT => mkNode (child_l n) p (parent n) (aux n)
  end.

Definition set_child m x d (p : ptr) : option (gmap loc (node A)) :=
  n ← m !! x; Some (<[x := with_child n d p]> m).

Definition set_parent m x (p : ptr) : option (gmap loc (node A)) :=
  n ← m !! x; Some (<[x := mkNode (child_l n) (child_r n) p (aux n)]> m).

Definition set_aux m x a : option (gmap loc (node A)) :=
  n ← m !! x; Some (<[x := mkNode (child_l n) (child_r n) (parent n) a]> m).

(** [me]: the side on which [node] hangs below its parent. *)
Definition side_of m (par : ptr) (node : loc) : option Dir :=
  match par with
  | Some p => pn ← m !! p; Some (if decide (child pn LEFT ≠ Some node) then RIGHT else LEFT)
  | None => Some LEFT
  end.

(** [if (parent) parent->child[me] = p; else root = p;] *)
Definition link m (root par : ptr) (me : Dir) (p : ptr) : option (gmap loc (node A) * ptr) :=
  match par with
  | Some q => m ← set_child m q me p; Some (m, root)
  | None => Some (m, p)
  end.

Definition set_parent_opt m (p : ptr) (q : ptr) : option (gmap loc (node A)) :=
  match p with Some x => set_parent m x q | None => Some m end.

(** ** Trees *)

Definition root_of t : ptr := match t with E => None | T _ x _ _ => Some x end.

Fixpoint inorder t : list (loc * A) :=
  match t with E => [] | T l x a r => inorder l ++ (x, a) :: inorder r end.

Definition keys t : list loc := (inorder t).*1.

(** A node whose subtree on side [d] is [s] and on the other side [o]. *)
Definition bin d (s : tree A) x a (o : tree A) : tree A :=
  match d with LEFT => T s x a o | RIGHT => T o x a s end.

Definition mk_child_node d (s o p : ptr) a : node A :=
  match d with LEFT => mkNode s o p a | RIGHT => mkNode o s p a end.

Fixpoint rep m (par : ptr) t : Prop :=
  match t with
  | E => True
  | T l x a r =>
    m !! x = Some (mkNode (root_of l) (root_of r) par a) ∧
    rep m (Some x) l ∧ rep m (Some x) r
  end.

(** ** Trees with a hole

    [Fr d x a s]: the hole is on side [d] of node [x], whose other subtree is
    [s].  A context lists the frames from the hole outwards. *)
Record frame := Fr { fr_dir : Dir; fr_key : loc; fr_aux : A; fr_sib : tree A }.

Fixpoint plug (c : list frame) t : tree A :=
  match c with [] => t | Fr d x a s :: c => plug c (bin d t x a s) end.

Definition cparent (c : list frame) : ptr :=
  match c with [] => None | f :: _ => Some (fr_key f) end.

Fixpoint crep m (root hole : ptr) (c : list frame) : Prop :=
  match c with
  | [] => root = hole
  | Fr d x a s :: c =>
    m !! x = Some (mk_child_node d hole (root_of s) (cparent c) a) ∧
    rep m (Some x) s ∧ crep m root (Some x) c
  end.

Fixpoint ckeys (c : list frame) : list loc :=
  match c with [] => [] | Fr _ x _ s :: c => x :: keys s ++ ckeys c end.

(** The in-order sequence before and after the hole. *)
Fixpoint cleft (c : list frame) : list (loc * A) :=
  match c with
  | [] => []
  | Fr LEFT _ _ _ :: c => cleft c
  | Fr RIGHT x a s :: c => cleft c ++ inorder s ++ [(x, a)]
  end.

Fixpoint cright (c : list frame) : list (loc * A) :=
  match c with
  | [] => []
  | Fr LEFT x a s :: c => (x, a) :: inorder s ++ cright c
  | Fr RIGHT _ _ _ :: c => cright c
  end.

(** ** Lemmas *)

Lemma opposite_involutive d : opposite (opposite d) = d.
Proof. by destruct d. Qed.

Lemma opposite_ne d : opposite d ≠ d.
Proof. by destruct d. Qed.

Lemma child_mk d s o p a : child (mk_child_node d s o p a) d = s.
Proof. by destruct d. Qed.

Lemma child_mk_opp d s o p a : child (mk_child_node d s o p a) (opposite d) = o.
Proof. by destruct d. Qed.

Lemma with_child_mk d s o p a q :
  with_child (mk_child_node d s o p a) d q = mk_child_node d q o p a.
Proof. by destruct d. Qed.

Lemma with_child_mk_opp d s o p a q :
  with_child (mk_child_node d s o p a) (opposite d) q = mk_child_node d s q p a.
Proof. by destruct d. Qed.

Lemma parent_mk d s o p a : parent (mk_child_node d s o p a) = p.
Proof. by destruct d. Qed.

Lemma aux_mk d s o p a : aux (mk_child_node d s o p a) = a.
Proof. by destruct d. Qed.

Lemma root_of_bin d s x a o : root_of (bin d s x a o) = Some x.
Proof. by destruct d. Qed.

Lemma keys_bin d s x a o : keys (bin d s x a o) ≡ₚ x :: keys s ++ keys o.
Proof.
  unfold keys. destruct d; simpl; rewrite fmap_app; simpl.
  - by rewrite Permutation_middle.
  - by rewrite (Permutation_app_comm (inorder s).*1), Permutation_middle.
Qed.

Lemma keys_T l x a r : keys (T l x a r) = keys l ++ x :: keys r.
Proof. unfold keys. simpl. by rewrite fmap_app. Qed.

Lemma rep_bin m par d s x a o :
  rep m par (bin d s x a o) ↔
  m !! x = Some (mk_child_node d (root_of s) (root_of o) par a) ∧
  rep m (Some x) s ∧ rep m (Some x) o.
Proof. destruct d; simpl; tauto. Qed.

Lemma rep_ext m m' par t :
  (∀ x, x ∈ keys t → m' !! x = m !! x) → rep m par t → rep m' par t.
Proof.
  revert par. induction t as [|l IHl x a r IHr]; intros par Hf; [done|].
  rewrite keys_T in Hf. simpl. intros (H1 & H2 & H3). split_and!.
  - rewrite Hf; [done|set_solver].
  - apply IHl; set_solver.
  - apply IHr; set_solver.
Qed.

Lemma rep_lookup m par t x : rep m par t → x ∈ keys t → is_Some (m !! x).
Proof.
  revert par. induction t as [|l IHl y a r IHr]; intros par; [set_solver|].
  rewrite keys_T. simpl. intros (H1 & H2 & H3) Hx.
  apply elem_of_app in Hx as [Hx|[->|Hx]%elem_of_cons]; eauto.
Qed.

Lemma crep_ext m m' root hole c :
  (∀ x, x ∈ ckeys c → m' !! x = m !! x) → crep m root hole c → crep m' root hole c.
Proof.
  revert hole. induction c as [|[d x a s] c IH]; intros hole Hf; [done|]. simpl in *.
  intros (H1 & H2 & H3). split_and!.
  - rewrite Hf; [done|set_solver].
  - eapply rep_ext; [|done]. set_solver.
  - apply IH; set_solver.
Qed.

Lemma keys_plug c t : keys (plug c t) ≡ₚ keys t ++ ckeys c.
Proof.
  revert t. induction c as [|[d x a s] c IH]; intros t; simpl; [by rewrite app_nil_r|].
  rewrite IH, keys_bin. simpl. by rewrite <- app_assoc, Permutation_middle.
Qed.

Lemma inorder_plug c t : inorder (plug c t) = cleft c ++ inorder t ++ cright c.
Proof.
  revert t. induction c as [|[d x a s] c IH]; intros t; simpl; [by rewrite app_nil_r|].
  rewrite IH. destruct d; simpl; by rewrite <- ?app_assoc.
Qed.

Lemma rep_plug m root c t :
  rep m None (plug c t) ∧ root = root_of (plug c t) ↔
  crep m root (root_of t) c ∧ rep m (cparent c) t.
Proof.
  revert t. induction c as [|[d x a s] c IH]; intros t; simpl; [naive_solver|].
  rewrite IH, rep_bin, root_of_bin. naive_solver.
Qed.

(** Changing the parent pointer of the root moves the tree below [par']. *)
Lemma rep_set_parent m par par' t x :
  rep m par t → NoDup (keys t) → root_of t = Some x →
  ∃ m', set_parent m x par' = Some m' ∧ rep m' par' t ∧
        ∀ y, y ≠ x → m' !! y = m !! y.
Proof.
  destruct t as [|l y a r]; [done|]. intros (H1 & H2 & H3) Hnd [= <-].
  unfold set_parent. rewrite H1. simpl. eexists; split; [done|].
  rewrite keys_T in Hnd. split.
  - apply NoDup_app in Hnd as (_ & Hd & [Hn _]%NoDup_cons).
    simpl. split_and!; [by simplify_map_eq| |]; (eapply rep_ext; [|done]);
      intros z Hz; (rewrite lookup_insert_ne; [done|]); intros ->; set_solver.
  - intros z Hz. by simplify_map_eq.
Qed.

(** The context length is bounded by the memory size: the fuel of the loops. *)
Lemma crep_size m root hole c :
  crep m root hole c → NoDup (ckeys c) → (length c ≤ size m)%nat.
Proof.
  intros Hc Hnd.
  assert (∀ x, x ∈ fr_key <$> c → is_Some (m !! x)) as Hin.
  { clear Hnd. revert hole Hc. induction c as [|[d x a s] c IH]; intros hole Hc y Hy;
      [set_solver|]. simpl in *. destruct Hc as (H1 & _ & H3).
    apply elem_of_cons in Hy as [->|Hy]; eauto. }
  assert (NoDup (fr_key <$> c)) as Hnd'.
  { clear Hin Hc. revert Hnd. induction c as [|[d x a s] c IH]; [by constructor|].
    simpl. rewrite !NoDup_cons, NoDup_app. intros (Hx & _ & _ & Hc). split; [|by apply IH].
    intros Hin. apply Hx, elem_of_app. right. clear -Hin.
    induction c as [|[d' y a' s'] c IH]; simpl in *; set_solver. }
  rewrite <- (length_fmap fr_key), <- size_dom, <- (size_list_to_set (C := gset loc)) by done.
  apply subseteq_size. intros y Hy%elem_of_list_to_set. apply elem_of_dom. by apply Hin.
Qed.

(** Replacing a subtree by another with the same root address. *)
Lemma rep_plug_replace m m' par c t t' :
  rep m par (plug c t) → (∀ y, y ∈ ckeys c → m' !! y = m !! y) →
  root_of t' = root_of t → (∀ p, rep m p t → rep m' p t') → rep m' par (plug c t').
Proof.
  revert t t'. induction c as [|[d x a s] c IH]; intros t t' Hr Hf Hrt Ht; simpl in *; [auto|].
  apply (IH (bin d t x a s)); [done|set_solver|by rewrite !root_of_bin|].
  intros p. rewrite !rep_bin, Hrt. intros (H1 & H2 & H3). split_and!.
  - rewrite Hf; [done|set_solver].
  - auto.
  - eapply rep_ext; [|done]. set_solver.
Qed.

Lemma plug_app c1 c2 t : plug (c1 ++ c2) t = plug c2 (plug c1 t).
Proof. revert t. induction c1 as [|[d x a s] c1 IH]; intros t; simpl; [done|]. apply IH. Qed.

(** Every key of a tree is the root of a subtree. *)
Lemma plug_find t x : x ∈ keys t → ∃ c l a r, t = plug c (T l x a r).
Proof.
  induction t as [|l IHl y a r IHr]; [set_solver|]. rewrite keys_T.
  intros [(c & l' & a' & r' & ->)%IHl|[->|(c & l' & a' & r' & ->)%IHr]%elem_of_cons]%elem_of_app.
  - exists (c ++ [Fr LEFT y a r]), l', a', r'. by rewrite plug_app.
  - by exists [], l, a, r.
  - exists (c ++ [Fr RIGHT y a l]), l', a', r'. by rewrite plug_app.
Qed.

(** The leftmost node of a non-empty tree. *)
Lemma plug_leftmost t :
  t ≠ E → ∃ c x a r, t = plug c (T E x a r) ∧ Forall (λ f, fr_dir f = LEFT) c ∧ cleft c = [].
Proof.
  induction t as [|l IHl y a r _]; [done|]. intros _. destruct l as [|ll lx la lr].
  - exists [], y, a, r. by split_and!; [|constructor|].
  - destruct IHl as (c & x & b & r' & -> & Hc & Hl); [done|].
    exists (c ++ [Fr LEFT y a r]), x, b, r'. rewrite plug_app. split_and!; [done| |].
    + apply Forall_app. split; [done|]. by repeat constructor.
    + clear -Hc. induction Hc as [|[[] ???] c H Hc IH]; simpl in *; done.
Qed.

Lemma root_of_plug_nonempty c t : root_of t ≠ None → root_of (plug c t) ≠ None.
Proof.
  revert t. induction c as [|[d x a s] c IH]; intros t Ht; simpl; [done|].
  apply IH. by rewrite root_of_bin.
Qed.

(** Nodes outside [ks] are untouched. *)
Definition untouched (ks : list loc) m m' : Prop := ∀ y, y ∉ ks → m' !! y = m !! y.

Lemma untouched_trans ks m1 m2 m3 :
  untouched ks m1 m2 → untouched ks m2 m3 → untouched ks m1 m3.
Proof. intros H1 H2 y Hy. by rewrite H2, H1. Qed.

Lemma untouched_weaken ks ks' m1 m2 : ks ⊆ ks' → untouched ks m1 m2 → untouched ks' m1 m2.
Proof. intros Hs H y Hy. apply H. set_solver. Qed.

Lemma rep_untouched ks m m' par t :
  untouched ks m m' → (∀ x, x ∈ keys t → x ∉ ks) → rep m par t → rep m' par t.
Proof. intros Hu Hd. apply rep_ext. auto. Qed.

Lemma crep_untouched ks m m' rt hole c :
  untouched ks m m' → (∀ x, x ∈ ckeys c → x ∉ ks) → crep m rt hole c → crep m' rt hole c.
Proof. intros Hu Hd. apply crep_ext. auto. Qed.

Lemma set_child_lookup m x d s o p a q :
  m !! x = Some (mk_child_node d s o p a) →
  set_child m x d q = Some (<[x := mk_child_node d q o p a]> m).
Proof. intros H. unfold set_child. rewrite H. simpl. by rewrite with_child_mk. Qed.

Lemma set_child_opp_lookup m x d s o p a q :
  m !! x = Some (mk_child_node d s o p a) →
  set_child m x (opposite d) q = Some (<[x := mk_child_node d s q p a]> m).
Proof. intros H. unfold set_child. rewrite H. simpl. by rewrite with_child_mk_opp. Qed.

Lemma set_parent_lookup m x d s o p a q :
  m !! x = Some (mk_child_node d s o p a) →
  set_parent m x q = Some (<[x := mk_child_node d s o q a]> m).
Proof. intros H. unfold set_parent. rewrite H. by destruct d. Qed.

(** Reparenting a possibly empty subtree. *)
Lemma set_parent_opt_rep m par par' t :
  rep m par t → NoDup (keys t) →
  ∃ m', set_parent_opt m (root_of t) par' = Some m' ∧ rep m' par' t ∧ untouched (keys t) m m'.
Proof.
  intros Hr Hnd. destruct t as [|l x a r]; [by exists m|].
  destruct (rep_set_parent m par par' (T l x a r) x) as (m' & H1 & H2 & H3); [done..|].
  exists m'. split_and!; [done..|]. intros y Hy. apply H3. intros ->. apply Hy.
  rewrite keys_T. set_solver.
Qed.

Lemma bin_opposite d s o x a : bin d s x a o = bin (opposite d) o x a s.
Proof. by destruct d. Qed.

Lemma mk_child_node_opposite d (s o p : ptr) a :
  mk_child_node d s o p a = mk_child_node (opposite d) o s p a.
Proof. by destruct d. Qed.

Definition cdir c : Dir := match c with [] => LEFT | f :: _ => fr_dir f end.

Lemma side_of_crep m rt x c :
  crep m rt (Some x) c → NoDup (x :: ckeys c) → side_of m (cparent c) x = Some (cdir c).
Proof.
  destruct c as [|[d y a s] c]; [done|]. simpl. intros (H1 & _ & _) Hnd.
  rewrite H1. cbn [mbind option_bind]. f_equal. destruct d; simpl.
  - by rewrite decide_False by tauto.
  - rewrite decide_True; [done|]. intros Hs. apply NoDup_cons in Hnd as [Hn _]. apply Hn.
    destruct s as [|sl sx sa sr]; [done|]. injection Hs as ->. rewrite keys_T. set_solver.
Qed.

Lemma link_crep m rt hole c p :
  crep m rt hole c → NoDup (ckeys c) →
  ∃ m' rt', link m rt (cparent c) (cdir c) p = Some (m', rt') ∧ crep m' rt' p c ∧
            untouched (ckeys c) m m'.
Proof.
  destruct c as [|[d y a s] c]; [by exists m, p|]. simpl. intros (H1 & H2 & H3) Hnd.
  rewrite (set_child_lookup _ _ _ _ _ _ _ _ H1). cbn [mbind option_bind].
  eexists _, rt. split; [done|]. apply NoDup_cons in Hnd as [Hy Hnd].
  split; [|intros z Hz; apply lookup_insert_ne; set_solver]. split_and!.
  - by rewrite lookup_insert_eq.
  - eapply rep_ext; [|done]. intros z Hz. apply lookup_insert_ne. set_solver.
  - eapply crep_ext; [|done]. intros z Hz. apply lookup_insert_ne. set_solver.
Qed.

Definition cparent_or (p : ptr) c : ptr := match c with [] => p | f :: _ => Some (fr_key f) end.

Lemma rep_plug_sub m par c t : rep m par (plug c t) → rep m (cparent_or par c) t.
Proof.
  revert t. induction c as [|[d x a s] c IH]; intros t; simpl; [done|].
  intros (_ & H & _)%IH%rep_bin. done.
Qed.

Lemma ckeys_keys c t y : y ∈ ckeys c → y ∈ keys (plug c t).
Proof. intros H. rewrite keys_plug. set_solver. Qed.

Lemma root_of_plug_cons f c t t' : root_of (plug (f :: c) t) = root_of (plug (f :: c) t').
Proof.
  assert (∀ c t t', root_of t = root_of t' → root_of (plug c t) = root_of (plug c t')) as H.
  { clear. induction c as [|[d x a s] c IH]; intros t t' Ht; simpl; [done|].
    apply IH. by rewrite !root_of_bin. }
  destruct f as [d x a s]. simpl. apply H. by rewrite !root_of_bin.
Qed.

(** A node takes [s], so far below another node, as its child. *)
Lemma adopt_child m d z q o p b s par :
  m !! z = Some (mk_child_node d q o p b) → rep m par s → NoDup (keys s) → z ∉ keys s →
  ∃ m1 m2, set_child m z d (root_of s) = Some m1 ∧ set_parent_opt m1 (root_of s) (Some z) = Some m2 ∧
    m2 !! z = Some (mk_child_node d (root_of s) o p b) ∧ rep m2 (Some z) s ∧ untouched (z :: keys s) m m2.
Proof.
  intros Hz Hs Hnd Hzs. rewrite (set_child_lookup _ _ _ _ _ _ _ _ Hz). set (m1 := <[z := _]> m).
  destruct (set_parent_opt_rep m1 par (Some z) s) as (m2 & E2 & R2 & U2); [|done|].
  { eapply rep_ext; [|exact Hs]. intros y Hy. apply lookup_insert_ne. by intros <-. }
  exists m1, m2. split_and!; try done.
  - rewrite U2 by done. apply lookup_insert_eq.
  - intros y Hy. rewrite U2 by set_solver. apply lookup_insert_ne. set_solver.
Qed.

(** The leftmost node [z], below [y], leaves the tree; its right child takes
    its place. *)
Lemma leftmost_leaves m par bs y ay sy z az zr (r := plug (Fr LEFT y ay sy :: bs) (T E z az zr)) :
  rep m par r → NoDup (keys r) →
  ∃ m1 m2, set_child m y LEFT (root_of zr) = Some m1 ∧ set_parent_opt m1 (root_of zr) (Some y) = Some m2 ∧
    rep m2 par (plug (Fr LEFT y ay sy :: bs) zr) ∧ m2 !! z = Some (mkNode None (root_of zr) (Some y) az) ∧
    untouched (y :: keys zr) m m2.
Proof.
  intros Hr Hnd.
  assert (keys r ≡ₚ z :: keys zr ++ y :: keys sy ++ ckeys bs) as Hk by (unfold r; by rewrite keys_plug).
  rewrite Hk in Hnd. apply NoDup_cons in Hnd as [Hzn Hnd]. pose proof Hnd as (Hnr & Hrd & Hnd')%NoDup_app.
  apply NoDup_cons in Hnd' as [Hyn Hnd'].
  pose proof (rep_plug_sub _ _ _ _ Hr) as (Hz & _ & Hzr). simpl plug in Hr.
  pose proof (rep_plug_sub m par bs (T (T E z az zr) y ay sy) Hr) as (Hy & _ & Hsy).
  destruct (adopt_child m LEFT y (Some z) (root_of sy) (cparent_or par bs) ay zr (Some z))
    as (m1 & m2 & E1 & E2 & Hy2 & R2 & U2); [done|done|done|set_solver|].
  exists m1, m2. split_and!; try done.
  - simpl. eapply rep_plug_replace; [exact Hr|intros; apply U2; set_solver|done|].
    intros p (Hy' & _ & _). rewrite Hy in Hy'. injection Hy' as <-. simpl. split_and!; [done|done|].
    eapply rep_ext; [|exact Hsy]. intros; apply U2; set_solver.
  - rewrite U2 by set_solver. done.
Qed.

End ptr_tree.

Arguments frame : clear implicits.
