(* ===== verification/VmaTree.v ===== *)
(** * The VMA tree: data and modification operations

    [include/dsl/vmatree.h] and [dsl/vmamodify.cc]: an AVL tree of address
    ranges, threaded by a linked list in address order, in which every node
    knows the free gap in front of it ([prev_gap]) and the biggest such gap of
    its subtree ([biggest_gap]).

    The definitions follow the source statement by statement over explicit
    memories; the second half of the file is the functional reading of the
    rebalancing loop on zippers, to which [VmaRefine] relates the pointer
    code. *)

From S2P Require Import Prelude Align.
From S2P Require Export PtrTree.

Definition VMA_TREE_MAX : Z := UINT64_MAX.

(** The fields of [VMANode] other than the linkage. *)
Record vma := mkVma {
  first : Z;
  last : Z;
  height : Z;
  prev_gap : Z;
  biggest_gap : Z
}.

Abbreviation vmem := (gmap loc (node vma)).

(** [struct VMATree] with the memory it lives in: [m_list] is the address of
    the list head [list.m_list]. *)
Record VMATree := mkVMATree {
  nodes : vmem;
  lists : lmem;
  m_list : loc;
  root : ptr
}.

Section defs.
Local Open Scope Z_scope.

Definition with_prev_gap (a : vma) (g : Z) : vma :=
  mkVma (first a) (last a) (height a) g (biggest_gap a).

Definition set_prev_gap (m : vmem) (x : loc) (g : Z) : option vmem :=
  n ← m !! x; set_aux m x (with_prev_gap (aux n) g).

(** ** [struct VMATree]: list traversal *)

Definition VMATree_init (st : VMATree) : VMATree :=
  mkVMATree (nodes st) (list_init (lists st) (m_list st)) (m_list st) None.

Definition VMATree_empty (st : VMATree) : bool := bool_decide (root st = None).

Definition VMATree_next (lm : lmem) (head : loc) (node : ptr) : option ptr :=
  let entry := match node with Some x => x | None => head end in
  entry ← get_next lm entry;
  Some (if decide (entry = head) then None else Some entry).

Definition VMATree_prev (lm : lmem) (head : loc) (node : ptr) : option ptr :=
  let entry := match node with Some x => x | None => head end in
  entry ← get_prev lm entry;
  Some (if decide (entry = head) then None else Some entry).

Definition VMATree_first (st : VMATree) : option ptr :=
  VMATree_next (lists st) (m_list st) None.
Definition VMATree_last (st : VMATree) : option ptr :=
  VMATree_prev (lists st) (m_list st) None.

(** ** Rebalancing *)

Definition node_height (m : vmem) (p : ptr) : option Z :=
  match p with Some x => n ← m !! x; Some (height (aux n)) | None => Some 0 end.

Definition node_balance (m : vmem) (x : loc) : option Z :=
  n ← m !! x;
  r ← node_height m (child n RIGHT);
  l ← node_height m (child n LEFT);
  Some (r - l).

Definition node_max_gap (m : vmem) (p : ptr) : option Z :=
  match p with Some x => n ← m !! x; Some (biggest_gap (aux n)) | None => Some 0 end.

Definition propagate (m : vmem) (x : loc) : option vmem :=
  n ← m !! x;
  l_height ← node_height m (child n LEFT);
  l_gap ← node_max_gap m (child n LEFT);
  r_height ← node_height m (child n RIGHT);
  r_gap ← node_max_gap m (child n RIGHT);
  let new_height := 1 + max l_height r_height in
  let new_gap := max (prev_gap (aux n)) (max l_gap r_gap) in
  set_aux m x (mkVma (first (aux n)) (last (aux n)) new_height (prev_gap (aux n)) new_gap).

Definition rotate (m : vmem) (node : loc) (dir : Dir) : option (vmem * loc) :=
  let oth := opposite dir in
  n ← m !! node;
  Z ← child n oth;
  z ← m !! Z;
  let tmp := child z dir in
  m ← set_child m node oth tmp;
  m ← match tmp with Some t => set_parent m t (Some node) | None => Some m end;
  m ← set_child m Z dir (Some node);
  m ← set_parent m node (Some Z);
  m ← propagate m node;
  m ← propagate m Z;
  Some (m, Z).

(** The body of the loop for an unbalanced node: the single or double
    rotation and the relinking of the new subtree root. *)
Definition fixup_rotate (m : vmem) (root : ptr) (node : loc) (balance : Z)
    : option (vmem * ptr * ptr) :=
  n ← m !! node;
  let par := parent n in
  me ← side_of m par node;
  let '(dir, oth) := if decide (balance >= 0) then (RIGHT, LEFT) else (LEFT, RIGHT) in
  Z ← child n dir;
  zb ← node_balance m Z;
  m ← (if decide (dir = LEFT ∧ zb > 0) then
         '(m, Z) ← rotate m Z LEFT;
         m ← set_parent m Z (Some node);
         set_child m node LEFT (Some Z)
       else if decide (dir = RIGHT ∧ zb < 0) then
         '(m, Z) ← rotate m Z RIGHT;
         m ← set_parent m Z (Some node);
         set_child m node RIGHT (Some Z)
       else Some m);
  '(m, node') ← rotate m node oth;
  m ← set_parent m node' par;
  '(m, root) ← link m root par me (Some node');
  Some (m, root, par).

Fixpoint fixup (fuel : nat) (m : vmem) (root node : ptr) : option (vmem * ptr) :=
  match fuel with
  | O => None
  | S fuel =>
    match node with
    | None => Some (m, root)
    | Some x =>
      balance ← node_balance m x;
      if decide (-1 <= balance ∧ balance <= 1) then
        m ← propagate m x;
        n ← m !! x;
        fixup fuel m root (parent n)
      else
        '(m, root, par) ← fixup_rotate m root x balance;
        fixup fuel m root par
    end
  end.

(** Each iteration moves to the parent, so the number of nodes bounds it. *)
Definition fixup_fuel (m : vmem) : nat := S (S (size m)).

(** ** [VMATree::insert] *)

Fixpoint descend (fuel : nat) (m : vmem) (k : Z) (par : ptr) (dir : Dir) (x : ptr)
    : option (ptr * Dir) :=
  match fuel with
  | O => None
  | S fuel =>
    match x with
    | None => Some (par, dir)
    | Some y =>
      n ← m !! y;
      let dir := if decide (k < first (aux n)) then LEFT else RIGHT in
      descend fuel m k (Some y) dir (child n dir)
    end
  end.

Definition VMATree_insert (st : VMATree) (node : loc) : option VMATree :=
  let m := nodes st in
  let lm := lists st in
  n ← m !! node;
  m ← set_child m node LEFT None;
  m ← set_child m node RIGHT None;
  m ← set_aux m node (mkVma (first (aux n)) (last (aux n)) 1
                        (prev_gap (aux n)) (biggest_gap (aux n)));
  '(par, dir) ← descend (S (size m)) m (first (aux n)) None LEFT (root st);
  pred ← (if decide (dir = RIGHT) then Some par
          else VMATree_prev lm (m_list st) par);
  succ ← (if decide (dir = RIGHT) then VMATree_next lm (m_list st) par
          else Some par);
  m ← match pred with
      | Some p => pn ← m !! p;
          set_prev_gap m node (first (aux n) -ᵤ last (aux pn) -ᵤ 1)
      | None => set_prev_gap m node (first (aux n))
      end;
  m ← match succ with
      | Some s => sn ← m !! s;
          set_prev_gap m s (first (aux sn) -ᵤ last (aux n) -ᵤ 1)
      | None => Some m
      end;
  m ← set_parent m node par;
  '(m, rt) ← link m (root st) par dir (Some node);
  lm ← match pred with
       | Some p => list_push_front lm p node
       | None => list_push_front lm (m_list st) node
       end;
  '(m, rt) ← fixup (fixup_fuel m) m rt (Some node);
  Some (mkVMATree m lm (m_list st) rt).

(** ** [VMATree::remove] *)

(** Set the gap in front of [succ] when [pred] is what precedes it. *)
Definition regap (m : vmem) (pred succ : ptr) : option vmem :=
  match succ with
  | Some s =>
    sn ← m !! s;
    match pred with
    | Some p => pn ← m !! p; set_prev_gap m s (first (aux sn) -ᵤ last (aux pn) -ᵤ 1)
    | None => set_prev_gap m s (first (aux sn))
    end
  | None => Some m
  end.

(** Both children exist: [Z], the successor, takes the place of [node].  The
    third component of the result is where [fixup] starts. *)
Definition replace_by_succ (m : vmem) (rt par : ptr) (me : Dir) (node : loc) (n : PtrTree.node vma)
    (Z : loc) : option (vmem * ptr * ptr) :=
  zn ← m !! Z;
  let Y := parent zn in
  m ← set_parent m Z par;
  m ← set_child m Z LEFT (child n LEFT);
  m ← set_parent_opt m (child n LEFT) (Some Z);
  '(m, rt) ← link m rt par me (Some Z);
  if decide (Y = Some node) then Some (m, rt, Some Z)
  else
    y ← Y;
    zn ← m !! Z;
    m ← set_child m y LEFT (child zn RIGHT);
    m ← set_parent_opt m (child zn RIGHT) (Some y);
    m ← set_child m Z RIGHT (child n RIGHT);
    m ← set_parent_opt m (child n RIGHT) (Some Z);
    Some (m, rt, Some y).

(** Unlink [node] from the tree and say where [fixup] starts. *)
Definition remove_unlink (m : vmem) (rt par : ptr) (me : Dir) (node : loc) (succ : ptr)
    : option (vmem * ptr * ptr) :=
  n ← m !! node;
  match child n RIGHT, child n LEFT with
  | None, Z =>
    '(m, rt) ← link m rt par me Z;
    m ← set_parent_opt m Z par;
    Some (m, rt, match Z with Some _ => Z | None => par end)
  | Some Z, None =>
    m ← set_parent m Z par;
    '(m, rt) ← link m rt par me (Some Z);
    Some (m, rt, succ)
  | Some _, Some _ =>
    Z ← succ;
    replace_by_succ m rt par me node n Z
  end.

Definition VMATree_remove (st : VMATree) (node : loc) : option VMATree :=
  let m := nodes st in
  let lm := lists st in
  n ← m !! node;
  let par := parent n in
  me ← side_of m par node;
  pred ← VMATree_prev lm (m_list st) (Some node);
  succ ← VMATree_next lm (m_list st) (Some node);
  m ← regap m pred succ;
  lm ← list_remove lm node;
  '(m, rt, start) ← remove_unlink m (root st) par me node succ;
  '(m, rt) ← fixup (fixup_fuel m) m rt start;
  Some (mkVMATree m lm (m_list st) rt).

(** ** [VMATree::adjust] *)

Fixpoint propagate_up (fuel : nat) (m : vmem) (node : ptr) : option vmem :=
  match fuel with
  | O => None
  | S fuel =>
    match node with
    | None => Some m
    | Some x => m ← propagate m x; n ← m !! x; propagate_up fuel m (parent n)
    end
  end.

Definition VMATree_adjust (st : VMATree) (node : loc) : option VMATree :=
  let m := nodes st in
  pred ← VMATree_prev (lists st) (m_list st) (Some node);
  succ ← VMATree_next (lists st) (m_list st) (Some node);
  m ← regap m pred (Some node);
  m ← regap m (Some node) succ;
  n ← m !! node;
  start ← match succ with
          | Some s => sn ← m !! s;
              Some (if decide (height (aux sn) < height (aux n)) then s else node)
          | None => Some node
          end;
  m ← propagate_up (fixup_fuel m) m (Some start);
  Some (mkVMATree m (lists st) (m_list st) (root st)).

(** ** The functional reading *)

Definition hgt (t : tree vma) : Z := match t with E => 0 | T _ _ a _ => height a end.
Definition maxgap (t : tree vma) : Z := match t with E => 0 | T _ _ a _ => biggest_gap a end.

Definition upd (a : vma) (l r : tree vma) : vma :=
  mkVma (first a) (last a) (1 + max (hgt l) (hgt r)) (prev_gap a)
    (max (prev_gap a) (max (maxgap l) (maxgap r))).

Definition mkT (l : tree vma) (x : loc) (a : vma) (r : tree vma) : tree vma :=
  T l x (upd a l r) r.

Definition mkbin (d : Dir) (s : tree vma) (x : loc) (a : vma) (o : tree vma) : tree vma :=
  match d with LEFT => mkT s x a o | RIGHT => mkT o x a s end.

Definition rot (dir : Dir) (t : tree vma) : tree vma :=
  match dir, t with
  | LEFT, T l x a (T b z az c) => mkT (mkT l x a b) z az c
  | RIGHT, T (T c z az b) x a r => mkT c z az (mkT b x a r)
  | _, _ => t
  end.

Definition bal (t : tree vma) : Z :=
  match t with E => 0 | T l _ _ r => hgt r - hgt l end.

Definition rebalance (t : tree vma) : tree vma :=
  match t with
  | E => E
  | T l x a r =>
    let b := hgt r - hgt l in
    if decide (-1 <= b ∧ b <= 1) then mkT l x a r
    else if decide (b >= 0) then
      rot LEFT (T l x a (if decide (bal r < 0) then rot RIGHT r else r))
    else
      rot RIGHT (T (if decide (bal l > 0) then rot LEFT l else l) x a r)
  end.

Fixpoint fixup_tree (c : list (frame vma)) (t : tree vma) : tree vma :=
  match c with
  | [] => rebalance t
  | Fr d x a s :: c => fixup_tree c (bin d (rebalance t) x a s)
  end.

Fixpoint propagate_tree (c : list (frame vma)) (t : tree vma) : tree vma :=
  match c with
  | [] => match t with E => E | T l x a r => mkT l x a r end
  | Fr d x a s :: c =>
    propagate_tree c (bin d (match t with E => E | T l x a r => mkT l x a r end) x a s)
  end.

(** The context of the leaf at which a range starting at [k] is inserted. *)
Fixpoint descend_tree (k : Z) (t : tree vma) (c : list (frame vma)) : list (frame vma) :=
  match t with
  | E => c
  | T l x a r =>
    if decide (k < first a) then descend_tree k l (Fr LEFT x a r :: c)
    else descend_tree k r (Fr RIGHT x a l :: c)
  end.

End defs.

#[global] Arguments rot : simpl never.
#[global] Arguments rebalance : simpl never.
