(* ===== verification/VmaRefine.v ===== *)
(** * The VMA tree: the pointer code refines the zipper functions

    [rotate], [fixup], [descend] and [propagate_up] of [dsl/vmamodify.cc], run
    on a memory that holds a tree (with a hole), return a memory that holds the
    tree computed by [rot], [fixup_tree], [descend_tree] and [propagate_tree],
    touch nothing outside the tree, and never dereference a null pointer. *)

From S2P Require Import Prelude Align.
From S2P Require Export VmaTree.

Section refine.
Local Open Scope Z_scope.
Implicit Types (m : vmem) (t l r : tree vma) (c : list (frame vma)).

(** Every stored height is positive: what the rotations need in order to find
    the nodes they rotate. *)
Fixpoint hpos t : Prop :=
  match t with E => True | T l _ a r => 1 <= height a ∧ hpos l ∧ hpos r end.

Definition cpos c : Prop := Forall (λ f, 1 <= height (fr_aux f) ∧ hpos (fr_sib f)) c.

Lemma hpos_hgt t : hpos t → 0 <= hgt t.
Proof. destruct t; simpl; lia. Qed.

Lemma hpos_nonempty t : 0 < hgt t → ∃ l x a r, t = T l x a r.
Proof. destruct t; simpl; [lia|eauto]. Qed.

Lemma hpos_mkT l x a r : hpos l → hpos r → hpos (mkT l x a r).
Proof.
  intros Hl Hr. simpl. pose proof (hpos_hgt l Hl). pose proof (hpos_hgt r Hr).
  rewrite max_spec. split_and!; [lia|done|done].
Qed.

Lemma hpos_bin d s x a o : hpos (bin d s x a o) ↔ 1 <= height a ∧ hpos s ∧ hpos o.
Proof. destruct d; simpl; tauto. Qed.

Lemma hpos_mkbin d s x a o : hpos s → hpos o → hpos (mkbin d s x a o).
Proof. destruct d; simpl mkbin; intros; by apply hpos_mkT. Qed.

Lemma hpos_rot d t : hpos t → hpos (rot d t).
Proof.
  intros H. destruct d, t as [|[|ll xl al rl] x a [|lr xr ar rr]]; try done;
    simpl in H; destruct_and?; unfold rot; repeat (apply hpos_mkT); done.
Qed.

Lemma hpos_rebalance t : hpos t → hpos (rebalance t).
Proof.
  destruct t as [|l x a r]; [done|]. simpl hpos. intros (Ha & Hl & Hr). unfold rebalance. cbv zeta.
  case_decide; [by apply hpos_mkT|].
  case_decide; case_decide; apply hpos_rot; simpl; split_and!; try done; by apply hpos_rot.
Qed.

Lemma hpos_plug c t : hpos (plug c t) ↔ hpos t ∧ cpos c.
Proof.
  unfold cpos. revert t. induction c as [|[d x a s] c IH]; intros t; simpl.
  - rewrite Forall_nil. tauto.
  - rewrite IH, hpos_bin, Forall_cons. simpl. tauto.
Qed.

Lemma hpos_fixup_tree c t : hpos t → cpos c → hpos (fixup_tree c t).
Proof.
  revert t. induction c as [|[d x a s] c IH]; intros t Ht Hc; simpl.
  - by apply hpos_rebalance.
  - apply Forall_cons in Hc as [[??] Hc]. apply IH; [|done].
    apply hpos_bin. split_and!; [done|by apply hpos_rebalance|done].
Qed.

(** ** Reading heights and gaps from memory *)

Lemma node_height_rep m par t : rep m par t → node_height m (root_of t) = Some (hgt t).
Proof. destruct t; simpl; [done|]. by intros [-> _]. Qed.

Lemma node_max_gap_rep m par t : rep m par t → node_max_gap m (root_of t) = Some (maxgap t).
Proof. destruct t; simpl; [done|]. by intros [-> _]. Qed.

Lemma node_balance_rep m par l x a r :
  rep m par (T l x a r) → node_balance m x = Some (hgt r - hgt l).
Proof.
  simpl. intros (H1 & H2 & H3). unfold node_balance. rewrite H1. simpl.
  by rewrite (node_height_rep _ _ _ H3), (node_height_rep _ _ _ H2).
Qed.

(** [propagate] recomputes exactly the height and the biggest gap of a node. *)
Lemma propagate_rep m par l x a r :
  rep m par (T l x a r) → NoDup (keys (T l x a r)) →
  ∃ m', propagate m x = Some m' ∧ rep m' par (mkT l x a r) ∧ untouched [x] m m'.
Proof.
  simpl. intros (H1 & H2 & H3) Hnd. unfold propagate. rewrite H1. simpl.
  rewrite (node_height_rep _ _ _ H2), (node_height_rep _ _ _ H3),
    (node_max_gap_rep _ _ _ H2), (node_max_gap_rep _ _ _ H3). simpl.
  unfold set_aux. rewrite H1. simpl. eexists; split; [done|].
  rewrite keys_T in Hnd. apply NoDup_app in Hnd as (_ & Hd & [Hn _]%NoDup_cons).
  split; [|intros y Hy; rewrite lookup_insert_ne; [done|set_solver]].
  split_and!; [by simplify_map_eq|..]; (eapply rep_ext; [|done]);
    intros z Hz; (rewrite lookup_insert_ne; [done|]); intros ->; set_solver.
Qed.

Lemma propagate_rep_bin d m par s x a o :
  rep m par (bin d s x a o) → NoDup (keys (bin d s x a o)) →
  ∃ m', propagate m x = Some m' ∧ rep m' par (mkbin d s x a o) ∧ untouched [x] m m'.
Proof. destruct d; apply propagate_rep. Qed.

Lemma keys_mkbin d s x a o : keys (mkbin d s x a o) = keys (bin d s x a o).
Proof. destruct d; unfold keys; simpl; by rewrite !fmap_app. Qed.

Lemma root_of_mkbin d s x a o : root_of (mkbin d s x a o) = Some x.
Proof. by destruct d. Qed.

(** ** Rotation *)

(** Rotating [X] towards [dir], where [Z] is its child on the other side.  The
    parent pointer of [Z] is left stale, as in the source: the caller sets
    it. *)
Lemma rotate_rep m par dir s x ax b z az w :
  rep m par (bin dir s x ax (bin dir b z az w)) →
  NoDup (keys (bin dir s x ax (bin dir b z az w))) →
  ∃ m', rotate m x dir = Some (m', z) ∧
    rep m' (Some x) (mkbin dir (mkbin dir s x ax b) z az w) ∧
    untouched (x :: z :: keys b) m m'.
Proof.
  intros Hr Hnd. rewrite !keys_bin in Hnd. cbn [app] in Hnd.
  rewrite !rep_bin, root_of_bin in Hr. destruct Hr as (Hx & Hs & Hz & Hb & Hw).
  apply NoDup_cons in Hnd as [Hxn Hnd]. apply NoDup_app in Hnd as (Hns & Hsd & Hnd).
  apply NoDup_cons in Hnd as [Hzn Hnd]. apply NoDup_app in Hnd as (Hnb & Hbd & Hnw).
  unfold rotate. rewrite Hx. cbn [mbind option_bind]. rewrite child_mk_opp.
  cbn [mbind option_bind]. rewrite Hz. cbn [mbind option_bind]. rewrite child_mk.
  rewrite (set_child_opp_lookup _ _ _ _ _ _ _ _ Hx). cbn [mbind option_bind].
  set (m1 := <[x := _]> m).
  assert (rep m1 (Some z) b) as Hb1.
  { eapply rep_ext; [|exact Hb]. intros y Hy. apply lookup_insert_ne. set_solver. }
  destruct (set_parent_opt_rep m1 (Some z) (Some x) b Hb1 Hnb) as (m2 & E2 & Hb2 & U2).
  unfold set_parent_opt in E2. rewrite E2. cbn [mbind option_bind].
  assert (m2 !! z = Some (mk_child_node dir (root_of b) (root_of w) (Some x) az)) as Hz2.
  { rewrite U2 by set_solver. unfold m1. rewrite lookup_insert_ne; [done|set_solver]. }
  assert (m2 !! x = Some (mk_child_node dir (root_of s) (root_of b) par ax)) as Hx2.
  { rewrite U2 by set_solver. unfold m1. by rewrite lookup_insert_eq. }
  rewrite (set_child_lookup _ _ _ _ _ _ _ _ Hz2). cbn [mbind option_bind].
  set (m3 := <[z := _]> m2).
  assert (m3 !! x = Some (mk_child_node dir (root_of s) (root_of b) par ax)) as Hx3.
  { unfold m3. rewrite lookup_insert_ne; [done|set_solver]. }
  rewrite (set_parent_lookup _ _ _ _ _ _ _ _ Hx3). cbn [mbind option_bind].
  set (m4 := <[x := _]> m3).
  assert (untouched (x :: z :: keys b) m m4) as U4.
  { intros y Hy. unfold m4, m3. rewrite !lookup_insert_ne by set_solver.
    rewrite U2 by set_solver. apply lookup_insert_ne. set_solver. }
  assert (rep m4 (Some z) (bin dir s x ax b)) as R4.
  { apply rep_bin. split_and!.
    - unfold m4. by rewrite lookup_insert_eq.
    - eapply (rep_untouched (x :: z :: keys b)); [done| |done]. set_solver.
    - eapply rep_ext; [|exact Hb2]. intros y Hy. unfold m4, m3.
      rewrite !lookup_insert_ne by set_solver. done. }
  destruct (propagate_rep_bin dir m4 (Some z) s x ax b R4) as (m5 & -> & R5 & U5).
  { rewrite keys_bin. apply NoDup_cons. rewrite NoDup_app. set_solver. }
  cbn [mbind option_bind].
  assert (rep m5 (Some x) (bin dir (mkbin dir s x ax b) z az w)) as R5'.
  { apply rep_bin. rewrite root_of_mkbin. split_and!; [|done|].
    - rewrite U5 by set_solver. unfold m4, m3. rewrite lookup_insert_ne by set_solver.
      by rewrite lookup_insert_eq.
    - apply (rep_untouched [x] m4); [done|set_solver|].
      eapply (rep_untouched (x :: z :: keys b)); [done| |done]. set_solver. }
  destruct (propagate_rep_bin dir m5 (Some x) (mkbin dir s x ax b) z az w R5') as (m6 & -> & R6 & U6).
  { rewrite keys_bin, keys_mkbin, keys_bin. apply NoDup_cons.
    rewrite NoDup_app, NoDup_cons, NoDup_app. set_solver. }
  exists m6. split_and!; [done|done|].
  eapply untouched_trans; [exact U4|]. eapply untouched_trans;
    (eapply untouched_weaken; [|done]); set_solver.
Qed.

(** ** The loop of [fixup] *)

Lemma mkbin_opposite d s o x a : mkbin d s x a o = mkbin (opposite d) o x a s.
Proof. by destruct d. Qed.

Lemma rot_bin d p z az q x a o :
  rot (opposite d) (bin d (bin d p z az q) x a o) = mkbin d p z az (mkbin d q x a o).
Proof. by destruct d. Qed.

(** The two heavy cases of [rebalance], read uniformly in the heavy side. *)
Lemma rebalance_heavy d p z az q x a o :
  2 <= hgt (bin d p z az q) - hgt o →
  rebalance (bin d (bin d p z az q) x a o) =
  rot (opposite d)
    (bin d (if decide (hgt p < hgt q) then rot d (bin d p z az q) else bin d p z az q) x a o).
Proof.
  intros Hb. unfold rebalance. destruct d; simpl in *.
  - rewrite decide_False, decide_False by lia. do 3 f_equal. unfold bal.
    destruct (decide (hgt q - hgt p > 0)), (decide (hgt p < hgt q)); done || lia.
  - rewrite decide_False, decide_True by lia. do 3 f_equal. unfold bal.
    destruct (decide (hgt p - hgt q < 0)), (decide (hgt p < hgt q)); done || lia.
Qed.

(** The rotation of the heavy child that precedes a double rotation. *)
Definition inner_rotate m (x z : loc) (d : Dir) : option vmem :=
  '(m, Z) ← rotate m z d; m ← set_parent m Z (Some x); set_child m x d (Some Z).

Lemma inner_rotate_rep m par d p z az q1 y ay q2 x a o :
  rep m par (bin d (bin d p z az (bin d q1 y ay q2)) x a o) →
  NoDup (keys (bin d (bin d p z az (bin d q1 y ay q2)) x a o)) →
  ∃ m', inner_rotate m x z d = Some m' ∧
    rep m' par (bin d (mkbin d (mkbin d p z az q1) y ay q2) x a o) ∧
    untouched (keys (bin d (bin d p z az (bin d q1 y ay q2)) x a o)) m m'.
Proof.
  intros Hr Hnd. apply rep_bin in Hr as (Hx & Hh & Ho).
  rewrite keys_bin in Hnd. apply NoDup_cons in Hnd as [Hxn Hnd].
  apply NoDup_app in Hnd as (Hnh & Hd & Hno).
  set (h := bin d p z az (bin d q1 y ay q2)) in *.
  set (h' := mkbin d (mkbin d p z az q1) y ay q2).
  assert (keys h ≡ₚ keys h') as Hk.
  { unfold h, h'. rewrite !keys_bin, keys_mkbin, keys_bin, keys_mkbin, keys_bin.
    rewrite <- Permutation_middle. cbn [app]. rewrite <- app_assoc. apply perm_swap. }
  destruct (rotate_rep m (Some x) d p z az q1 y ay q2 Hh Hnh) as (m1 & E1 & R1 & U1).
  unfold inner_rotate. rewrite E1. cbn [mbind option_bind].
  destruct (rep_set_parent m1 (Some z) (Some x) h' y) as (m2 & -> & R2 & U2);
    [done|by rewrite <- Hk|apply root_of_mkbin|]. cbn [mbind option_bind].
  assert (y ∈ keys h) as Hyh by (unfold h; rewrite !keys_bin; set_solver).
  assert (untouched (keys h) m m2) as U.
  { intros v Hv. rewrite U2 by set_solver. apply U1. intros Hin. apply Hv. unfold h.
    rewrite !keys_bin. set_solver. }
  assert (m2 !! x = Some (mk_child_node d (root_of h) (root_of o) par a)) as Hx2
    by (rewrite U; [done|set_solver]).
  rewrite (set_child_lookup _ _ _ _ _ _ _ _ Hx2). eexists. split; [done|]. split.
  - apply rep_bin. split_and!.
    + rewrite lookup_insert_eq. unfold h'. by rewrite root_of_mkbin.
    + eapply rep_ext; [|exact R2]. intros v Hv. apply lookup_insert_ne.
      intros <-. rewrite <- Hk in Hv. set_solver.
    + eapply rep_ext; [|exact Ho]. intros v Hv. rewrite lookup_insert_ne by set_solver.
      apply U. set_solver.
  - intros v Hv. rewrite keys_bin in Hv. rewrite lookup_insert_ne by set_solver.
    apply U. set_solver.
Qed.

Definition updbin (d : Dir) (a : vma) (s o : tree vma) : vma :=
  match d with LEFT => upd a s o | RIGHT => upd a o s end.

Lemma mkbin_bin d s x a o : mkbin d s x a o = bin d s x (updbin d a s o) o.
Proof. by destruct d. Qed.

(** The part of the loop body before the final rotation. *)
Lemma heavy_child_rep m par d p z az q x a o :
  let h := bin d p z az q in
  let t := bin d h x a o in
  rep m par t → NoDup (keys t) → hpos h →
  ∃ m1 p' z' az' q',
    (if decide (hgt p < hgt q) then inner_rotate m x z d else Some m) = Some m1 ∧
    (if decide (hgt p < hgt q) then rot d h else h) = bin d p' z' az' q' ∧
    rep m1 par (bin d (bin d p' z' az' q') x a o) ∧
    keys (bin d p' z' az' q') ≡ₚ keys h ∧ untouched (keys t) m m1.
Proof.
  intros h t Hr Hnd Hh. case_decide as Hpq; [|by exists m, p, z, az, q].
  apply hpos_bin in Hh as (_ & Hp & Hq). pose proof (hpos_hgt p Hp).
  destruct (hpos_nonempty q ltac:(lia)) as (ql & y & ay & qr & Eq).
  assert (∃ q1 q2, q = bin d q1 y ay q2) as (q1 & q2 & Eq')
    by (subst q; destruct d; [by exists ql, qr|by exists qr, ql]).
  clear Eq. subst q.
  destruct (inner_rotate_rep m par d p z az q1 y ay q2 x a o Hr Hnd) as (m1 & E1 & R1 & U1).
  assert (rot d h = mkbin d (mkbin d p z az q1) y ay q2) as Erot by (unfold h; by destruct d).
  exists m1, (mkbin d p z az q1), y, (updbin d ay (mkbin d p z az q1) q2), q2.
  rewrite <- mkbin_bin. split_and!; [done|done|done| |done].
  unfold h. rewrite keys_mkbin. rewrite !keys_bin, keys_mkbin, keys_bin.
  rewrite <- Permutation_middle. cbn [app]. rewrite <- app_assoc. apply perm_swap.
Qed.

(** The loop body for heavy side [d], with the case distinctions resolved. *)
Lemma fixup_rotate_eq m rt c d p z az q x a o balance m1 :
  let t := bin d (bin d p z az q) x a o in
  crep m rt (Some x) c → rep m (cparent c) t →
  (∀ y, y ∈ keys t → y ∉ ckeys c) → NoDup (ckeys c) →
  d = (if decide (balance >= 0) then RIGHT else LEFT) →
  (if decide (hgt p < hgt q) then inner_rotate m x z d else Some m) = Some m1 →
  fixup_rotate m rt x balance =
    '(m2, x') ← rotate m1 x (opposite d);
    m3 ← set_parent m2 x' (cparent c);
    '(m4, rt4) ← link m3 rt (cparent c) (cdir c) (Some x');
    Some (m4, rt4, cparent c).
Proof.
  intros t Hc Hr Htc Hnc Hd E1. unfold fixup_rotate.
  pose proof Hr as Hr'. apply rep_bin in Hr' as (Hx & Hh & _).
  rewrite Hx. cbn [mbind option_bind]. rewrite parent_mk.
  rewrite (side_of_crep m rt x c Hc)
    by (apply NoDup_cons; split; [apply Htc; unfold t; rewrite keys_bin; set_solver|done]).
  cbn [mbind option_bind].
  replace (if decide (balance >= 0) then (RIGHT, LEFT) else (LEFT, RIGHT))
    with (d, opposite d) by (rewrite Hd; by destruct (decide (balance >= 0))).
  rewrite child_mk, root_of_bin. cbn [mbind option_bind].
  unfold inner_rotate in E1. destruct d; simpl in Hh;
    (erewrite node_balance_rep by exact Hh); cbn [mbind option_bind];
    destruct (decide (hgt p < hgt q)).
  - rewrite decide_True by (split; [done|lia]). by rewrite E1.
  - rewrite decide_False, decide_False by (intros [? ?]; (done || lia)). by simplify_eq.
  - rewrite decide_False, decide_True by (done || naive_solver lia). by rewrite E1.
  - rewrite decide_False, decide_False by (intros [? ?]; (done || lia)). by simplify_eq.
Qed.

(** One iteration of [fixup] on an unbalanced node. *)
Lemma fixup_rotate_rep m rt c d p z az q x a o balance :
  let t := bin d (bin d p z az q) x a o in
  crep m rt (Some x) c → rep m (cparent c) t → NoDup (keys t ++ ckeys c) → hpos t →
  2 <= hgt (bin d p z az q) - hgt o →
  d = (if decide (balance >= 0) then RIGHT else LEFT) →
  ∃ m' rt', fixup_rotate m rt x balance = Some (m', rt', cparent c) ∧
    crep m' rt' (root_of (rebalance t)) c ∧ rep m' (cparent c) (rebalance t) ∧
    keys (rebalance t) ≡ₚ keys t ∧ untouched (keys t ++ ckeys c) m m'.
Proof.
  intros t Hc Hr Hnd Hpos Hb Hd. apply NoDup_app in Hnd as (Hnt & Htc & Hnc).
  assert (keys t ≡ₚ x :: keys (bin d p z az q) ++ keys o) as Hkt by apply keys_bin.
  destruct (heavy_child_rep m (cparent c) d p z az q x a o Hr Hnt)
    as (m1 & p' & z' & az' & q' & E1 & Eh & R1 & Hk & U1); [apply hpos_bin in Hpos; tauto|].
  rewrite (fixup_rotate_eq m rt c d p z az q x a o balance m1) by (done || set_solver).
  assert (rebalance t = mkbin (opposite d) (mkbin (opposite d) o x a q') z' az' p') as Ert.
  { unfold t. rewrite rebalance_heavy, Eh, rot_bin by done.
    by rewrite mkbin_opposite, (mkbin_opposite d q'). }
  rewrite (bin_opposite d), (bin_opposite d p') in R1.
  destruct (rotate_rep m1 (cparent c) (opposite d) o x a q' z' az' p' R1) as (m2 & -> & R2 & U2).
  { rewrite <- !bin_opposite, keys_bin, Hk, <- Hkt. done. }
  cbn [mbind option_bind]. rewrite <- Ert in R2.
  assert (root_of (rebalance t) = Some z') as Hrt by (rewrite Ert; apply root_of_mkbin).
  assert (keys (rebalance t) ≡ₚ keys t) as Hkr.
  { rewrite Ert, keys_mkbin, keys_bin, keys_mkbin, keys_bin, Hkt, <- Hk, keys_bin.
    cbn [app]. rewrite perm_swap. do 2 f_equiv.
    rewrite (Permutation_app_comm (keys o)), <- app_assoc, (Permutation_app_comm (keys o)).
    rewrite app_assoc, (Permutation_app_comm (keys q')). done. }
  destruct (rep_set_parent m2 (Some x) (cparent c) (rebalance t) z') as (m3 & -> & R3 & U3);
    [done|by rewrite Hkr|done|]. cbn [mbind option_bind].
  assert (untouched (keys t) m m3) as U.
  { assert (z' ∈ keys t) by (rewrite <- Hkr, Ert, keys_mkbin, keys_bin; set_solver).
    intros y Hy. rewrite U3 by set_solver. rewrite U2; [by apply U1|].
    rewrite Hkt, <- Hk, keys_bin in Hy. set_solver. }
  destruct (link_crep m3 rt (Some x) c (Some z')) as (m4 & rt4 & -> & C4 & U4);
    [by eapply crep_untouched; [done|set_solver|done]|done|].
  cbn [mbind option_bind]. exists m4, rt4. rewrite Hrt. split_and!; [done|done| |done|].
  - eapply rep_untouched; [exact U4| |done]. intros y Hy. rewrite Hkr in Hy. set_solver.
  - intros y Hy. rewrite U4 by set_solver. apply U. set_solver.
Qed.

Lemma rebalance_balanced l x a r :
  -1 <= hgt r - hgt l <= 1 → rebalance (T l x a r) = mkT l x a r.
Proof. intros. unfold rebalance. by rewrite decide_True by lia. Qed.

(** One iteration of [fixup], in both cases. *)
Lemma fixup_step m rt c l x a r fuel :
  let t := T l x a r in
  crep m rt (Some x) c → rep m (cparent c) t → NoDup (keys t ++ ckeys c) → hpos t →
  ∃ m' rt', fixup (S fuel) m rt (Some x) = fixup fuel m' rt' (cparent c) ∧
    crep m' rt' (root_of (rebalance t)) c ∧ rep m' (cparent c) (rebalance t) ∧
    keys (rebalance t) ≡ₚ keys t ∧ untouched (keys t ++ ckeys c) m m'.
Proof.
  intros t Hc Hr Hnd Hpos. pose proof Hnd as (Hnt & Htc & Hnc)%NoDup_app.
  cbn [fixup]. rewrite (node_balance_rep m (cparent c) l x a r Hr). cbn [mbind option_bind].
  set (b := hgt r - hgt l). destruct (decide (-1 <= b ∧ b <= 1)) as [Hb|Hb].
  - destruct (propagate_rep m (cparent c) l x a r Hr Hnt) as (m' & -> & R' & U').
    cbn [mbind option_bind]. pose proof R' as (-> & _ & _). cbn [mbind option_bind].
    exists m', rt. unfold t. rewrite rebalance_balanced by (unfold b in Hb; lia).
    assert (x ∈ keys t) by (unfold t; rewrite keys_T; set_solver).
    split_and!; [done| |done|unfold keys; simpl; by rewrite !fmap_app|].
    + eapply crep_untouched; [done|set_solver|done].
    + eapply untouched_weaken; [|done]. set_solver.
  - pose proof (proj2 Hpos) as [Hl%hpos_hgt Hr'%hpos_hgt].
    destruct (decide (b >= 0)) as [Hs|Hs].
    + destruct (hpos_nonempty r ltac:(lia)) as (q & z & az & p & ->).
      destruct (fixup_rotate_rep m rt c RIGHT p z az q x a l b) as (m' & rt' & -> & H);
        [done|done|done|done|simpl in *; lia|by rewrite decide_True|].
      by exists m', rt'.
    + destruct (hpos_nonempty l ltac:(lia)) as (p & z & az & q & ->).
      destruct (fixup_rotate_rep m rt c LEFT p z az q x a r b) as (m' & rt' & -> & H);
        [done|done|done|done|simpl in *; lia|by rewrite decide_False|].
      by exists m', rt'.
Qed.

Lemma rebalance_root_of l x a r : root_of (rebalance (T l x a r)) ≠ None.
Proof.
  unfold rebalance. case_decide; [done|]. unfold rot.
  repeat (case_decide || case_match); simplify_eq/=; done.
Qed.

(** [fixup] computes [fixup_tree], from any node up to the root. *)
Lemma fixup_rep c t x m rt fuel :
  root_of t = Some x → crep m rt (Some x) c → rep m (cparent c) t →
  NoDup (keys t ++ ckeys c) → hpos t → cpos c → (length c + 1 < fuel)%nat →
  ∃ m' rt', fixup fuel m rt (Some x) = Some (m', rt') ∧
    rep m' None (fixup_tree c t) ∧ rt' = root_of (fixup_tree c t) ∧
    keys (fixup_tree c t) ≡ₚ keys t ++ ckeys c ∧ untouched (keys t ++ ckeys c) m m'.
Proof.
  revert t x m rt fuel. induction c as [|[d y b s] c IH];
    intros [|l x' a r] x m rt fuel [= <-] Hc Hr Hnd Hpos Hcp Hf;
    (destruct fuel as [|fuel]; [lia|]);
    (edestruct fixup_step as (m1 & rt1 & -> & C1 & R1 & K1 & U1); [done..|]).
  - destruct fuel as [|fuel]; [simpl in *; lia|]. exists m1, rt1. simpl fixup.
    rewrite app_nil_r in *. simpl. split_and!; done.
  - set (t := T l x' a r) in *. simpl in C1. destruct C1 as (Hy & Hs & C1).
    apply Forall_cons in Hcp as [[? ?] Hcp]. cbn [fr_aux fr_sib] in *.
    assert (keys (bin d (rebalance t) y b s) ++ ckeys c ≡ₚ keys t ++ ckeys (Fr d y b s :: c)) as HK.
    { rewrite keys_bin, K1. simpl. by rewrite <- app_assoc, Permutation_middle. }
    destruct (IH (bin d (rebalance t) y b s) y m1 rt1 fuel) as (m' & rt' & E' & R' & Ert & K' & U').
    + apply root_of_bin.
    + done.
    + apply rep_bin. split_and!; done.
    + by rewrite HK.
    + apply hpos_bin. split_and!; [done|by apply hpos_rebalance|done].
    + done.
    + simpl in Hf. lia.
    + exists m', rt'. simpl. split_and!; [done|done|done|by rewrite K', HK|].
      eapply untouched_trans; [exact U1|]. eapply untouched_weaken; [|exact U'].
      by rewrite HK.
Qed.

(** With the fuel of the operations: the memory holds the whole path. *)
Lemma fixup_rep_fuel c t x m rt :
  root_of t = Some x → crep m rt (Some x) c → rep m (cparent c) t →
  NoDup (keys t ++ ckeys c) → hpos t → cpos c →
  ∃ m' rt', fixup (fixup_fuel m) m rt (Some x) = Some (m', rt') ∧
    rep m' None (fixup_tree c t) ∧ rt' = root_of (fixup_tree c t) ∧
    keys (fixup_tree c t) ≡ₚ keys t ++ ckeys c ∧ untouched (keys t ++ ckeys c) m m'.
Proof.
  intros Ht Hc Hr Hnd Hp Hcp. apply fixup_rep; [done..|].
  pose proof (crep_size m rt (Some x) c Hc) as Hs. apply NoDup_app in Hnd as (_ & _ & Hnc).
  specialize (Hs Hnc). unfold fixup_fuel. lia.
Qed.

End refine.
