(* ===== verification/VmaInv.v ===== *)
(** * The VMA tree: invariants of the functional reading

    Balance, the augmented gap data and the address order, and their
    preservation by the rebalancing of [VmaTree]. *)

From S2P Require Import Prelude Align.
From S2P Require Export VmaRefine.

Section inv.
Local Open Scope Z_scope.
Implicit Types (t l r : tree vma) (c : list (frame vma)) (a : vma).

(** ** Definitions *)

(** The data of a node that rebalancing never changes. *)
Definition core a : Z * Z * Z := (first a, last a, prev_gap a).
Definition cores_of (l : list (loc * vma)) : list (loc * (Z * Z * Z)) :=
  (λ p, (p.1, core p.2)) <$> l.
Definition cores t : list (loc * (Z * Z * Z)) := cores_of (inorder t).

(** Heights are correct and every node is balanced. *)
Fixpoint avl t : Prop :=
  match t with
  | E => True
  | T l _ a r =>
    height a = 1 + Z.max (hgt l) (hgt r) ∧ -1 <= hgt r - hgt l <= 1 ∧ avl l ∧ avl r
  end.

(** [biggest_gap] is the maximum of the gaps in front of the nodes below. *)
Fixpoint gaps_ok t : Prop :=
  match t with
  | E => True
  | T l _ a r =>
    biggest_gap a = Z.max (prev_gap a) (Z.max (maxgap l) (maxgap r)) ∧ gaps_ok l ∧ gaps_ok r
  end.

(** The ranges are non-empty, 64-bit, in address order and disjoint, none
    below [lo], and [prev_gap] is the number of free addresses in front of
    each. *)
Fixpoint ranges_ok (lo : Z) (l : list (loc * (Z * Z * Z))) : Prop :=
  match l with
  | [] => True
  | (_, (f, e, g)) :: l => lo <= f ∧ f <= e < 2 ^ 64 ∧ g = f - lo ∧ ranges_ok (e + 1) l
  end.

(** A context is balanced when its hole is filled with a tree of height [k]. *)
Fixpoint cavl c (k : Z) : Prop :=
  match c with
  | [] => True
  | Fr d x a s :: c =>
    height a = 1 + Z.max k (hgt s) ∧ -1 <= hgt s - k <= 1 ∧ avl s ∧
    cavl c (1 + Z.max k (hgt s))
  end.

(** The same without the heights stored in the path, which [fixup] overwrites. *)
Fixpoint cbal c (k : Z) : Prop :=
  match c with
  | [] => True
  | Fr d x a s :: c => -1 <= hgt s - k <= 1 ∧ avl s ∧ cbal c (1 + Z.max k (hgt s))
  end.

Definition cgaps c : Prop := Forall (λ f, gaps_ok (fr_sib f)) c.

(** ** Balance *)

Lemma avl_hgt_nonneg t : avl t → 0 <= hgt t.
Proof. induction t; simpl; [lia|]. intros (-> & _ & ? & ?). intuition lia. Qed.

Lemma avl_hpos t : avl t → hpos t.
Proof.
  induction t as [|l IHl x a r IHr]; simpl; [done|]. intros (Hh & _ & Hl & Hr).
  pose proof (avl_hgt_nonneg l Hl). pose proof (avl_hgt_nonneg r Hr).
  split_and!; [lia|auto..].
Qed.

Lemma hgt_mkT l x a r : hgt (mkT l x a r) = 1 + Z.max (hgt l) (hgt r).
Proof. simpl. by rewrite max_spec. Qed.

Lemma avl_mkT l x a r :
  avl l → avl r → -1 <= hgt r - hgt l <= 1 → avl (mkT l x a r).
Proof. intros. simpl. rewrite max_spec. done. Qed.

Lemma avl_bin d s x a o :
  avl (bin d s x a o) ↔
  height a = 1 + Z.max (hgt s) (hgt o) ∧ -1 <= hgt o - hgt s <= 1 ∧ avl s ∧ avl o.
Proof. destruct d; simpl; intuition lia. Qed.

Lemma avl_plug c t : avl (plug c t) ↔ avl t ∧ cavl c (hgt t).
Proof.
  revert t. induction c as [|[d x a s] c IH]; intros t; simpl; [tauto|].
  rewrite IH, avl_bin.
  assert (height a = 1 + Z.max (hgt t) (hgt s) →
          hgt (bin d t x a s) = 1 + Z.max (hgt t) (hgt s)) by (by destruct d).
  split; intros; destruct_and?; split_and?; try done.
  - by rewrite <- H.
  - by rewrite H.
Qed.

Lemma cavl_cpos c k : 0 <= k → cavl c k → cpos c.
Proof.
  revert k. induction c as [|[d x a s] c IH]; intros k Hk Hc; [constructor|].
  simpl in Hc. destruct Hc as (Ha & _ & Hs & Hc). constructor.
  - simpl. split; [lia|by apply avl_hpos].
  - eapply IH; [|done]. lia.
Qed.

Lemma cavl_cbal c k : cavl c k → cbal c k.
Proof.
  revert k. induction c as [|[d x a s] c IH]; intros k; simpl; [done|].
  intros (_ & ? & ? & ?). auto.
Qed.

Lemma cbal_swap c1 d x a s c2 y b k :
  cbal (c1 ++ Fr d x a s :: c2) k → cbal (c1 ++ Fr d y b s :: c2) k.
Proof.
  revert k. induction c1 as [|[d' x' a' s'] c1 IH]; intros k; simpl; [done|].
  intros (? & ? & ?). auto.
Qed.

(** Rebalancing a node whose children are balanced and differ in height by at
    most two yields a balanced tree, no higher than before and at most one
    lower. *)
Lemma rebalance_avl l x a r :
  avl l → avl r → -2 <= hgt r - hgt l <= 2 →
  avl (rebalance (T l x a r)) ∧
  (hgt (rebalance (T l x a r)) = 1 + Z.max (hgt l) (hgt r) ∨
   ¬ (-1 <= hgt r - hgt l <= 1) ∧ hgt (rebalance (T l x a r)) = Z.max (hgt l) (hgt r)).
Proof.
  intros Hl Hr Hd. unfold rebalance. cbv zeta.
  case_decide as Hb.
  { split; [by apply avl_mkT|]. left. apply hgt_mkT. }
  pose proof (avl_hgt_nonneg l Hl). pose proof (avl_hgt_nonneg r Hr).
  case_decide as Hs.
  - destruct r as [|p z az q]; [simpl in *; lia|]. simpl in Hr. destruct Hr as (? & ? & Hp & Hq).
    pose proof (avl_hgt_nonneg p Hp). pose proof (avl_hgt_nonneg q Hq). simpl bal.
    case_decide as Hpq; unfold rot.
    + destruct p as [|p1 y ay p2]; [simpl in *; lia|]. simpl in Hp.
      destruct Hp as (? & ? & ? & ?). simpl in *.
      rewrite !max_spec in *. repeat split; try done; lia.
    + simpl in *. rewrite !max_spec in *. repeat split; try done; lia.
  - destruct l as [|p z az q]; [simpl in *; lia|]. simpl in Hl. destruct Hl as (? & ? & Hp & Hq).
    pose proof (avl_hgt_nonneg p Hp). pose proof (avl_hgt_nonneg q Hq). simpl bal.
    case_decide as Hpq; unfold rot.
    + destruct q as [|q1 y ay q2]; [simpl in *; lia|]. simpl in Hq.
      destruct Hq as (? & ? & ? & ?). simpl in *.
      rewrite !max_spec in *. repeat split; try done; lia.
    + simpl in *. rewrite !max_spec in *. repeat split; try done; lia.
Qed.

Definition children_avl t : Prop :=
  match t with E => True | T l _ _ r => avl l ∧ avl r ∧ -2 <= hgt r - hgt l <= 2 end.

(** The whole path is repaired when the height of the subtree at its start is
    within one of what the context expects. *)
Lemma fixup_tree_avl c t k :
  children_avl t → cbal c k → 0 <= k → -1 <= hgt (rebalance t) - k <= 1 →
  avl (fixup_tree c t).
Proof.
  revert t k. induction c as [|[d x a s] c IH]; intros t k Ht Hc Hk Hd; simpl.
  - destruct t as [|l x a r]; [done|]. destruct Ht as (? & ? & ?). by apply rebalance_avl.
  - assert (avl (rebalance t)) as Ha.
    { destruct t as [|l y b r]; [done|]. destruct Ht as (? & ? & ?). by apply rebalance_avl. }
    simpl in Hc. destruct Hc as (Hs & Has & Hc).
    pose proof (avl_hgt_nonneg _ Has). pose proof (avl_hgt_nonneg _ Ha).
    apply (IH _ (1 + Z.max k (hgt s))); [|done|lia|].
    + destruct d; simpl; split_and!; done || lia.
    + destruct d; simpl bin;
        match goal with |- context [rebalance (T ?l ?x ?a ?r)] =>
          destruct (rebalance_avl l x a r) as [_ [->|[? ->]]]; [done|done|lia|lia|lia] end.
Qed.

(** ** Gaps *)

Lemma gaps_mkT l x a r : gaps_ok l → gaps_ok r → gaps_ok (mkT l x a r).
Proof. intros. simpl. rewrite !max_spec. done. Qed.

Definition children_gaps t : Prop :=
  match t with E => True | T l _ _ r => gaps_ok l ∧ gaps_ok r end.

Lemma rot_gaps d t : (∃ s x a b z az w, t = bin d s x a (bin d b z az w)) → children_gaps t →
  gaps_ok (rot d t).
Proof.
  intros (s & x & a & b & z & az & w & ->) Hg. destruct d; simpl in Hg; destruct_and?;
    unfold rot; simpl; rewrite !max_spec; done.
Qed.

Lemma rebalance_gaps t : children_gaps t → hpos t → gaps_ok (rebalance t).
Proof.
  destruct t as [|l x a r]; [done|]. intros [Hl Hr] (_ & Pl & Pr). unfold rebalance. cbv zeta.
  case_decide; [by apply gaps_mkT|].
  pose proof (hpos_hgt l Pl). pose proof (hpos_hgt r Pr).
  case_decide.
  - destruct (hpos_nonempty r ltac:(lia)) as (p & z & az & q & ->).
    destruct Pr as (_ & Pp%hpos_hgt & Pq%hpos_hgt). simpl bal. case_decide.
    + destruct (hpos_nonempty p ltac:(lia)) as (p1 & y & ay & p2 & ->).
      apply (rot_gaps LEFT); [by repeat eexists|].
      split; [done|]. apply (rot_gaps RIGHT); [by repeat eexists|]. destruct Hr as (_ & ? & ?). done.
    + apply (rot_gaps LEFT); [by repeat eexists|done].
  - destruct (hpos_nonempty l ltac:(lia)) as (p & z & az & q & ->).
    destruct Pl as (_ & Pp%hpos_hgt & Pq%hpos_hgt). simpl bal. case_decide.
    + destruct (hpos_nonempty q ltac:(lia)) as (q1 & y & ay & q2 & ->).
      apply (rot_gaps RIGHT); [by repeat eexists|].
      split; [|done]. apply (rot_gaps LEFT); [by repeat eexists|]. destruct Hl as (_ & ? & ?). done.
    + apply (rot_gaps RIGHT); [by repeat eexists|done].
Qed.

Lemma fixup_tree_gaps c t :
  children_gaps t → hpos t → cgaps c → cpos c → gaps_ok (fixup_tree c t).
Proof.
  revert t. induction c as [|[d x a s] c IH]; intros t Ht Hp Hc Hcp; simpl.
  - by apply rebalance_gaps.
  - apply Forall_cons in Hc as [? Hc]. apply Forall_cons in Hcp as [[??] Hcp].
    apply IH; [| |done|done].
    + pose proof (rebalance_gaps t Ht Hp). by destruct d.
    + apply hpos_bin. split_and!; [done|by apply hpos_rebalance|done].
Qed.

(** Which gaps a subtree can contain: the search prunes on this. *)
Lemma gaps_ok_max t x f e g : gaps_ok t → (x, (f, e, g)) ∈ cores t → g <= maxgap t.
Proof.
  induction t as [|l IHl y a r IHr]; [set_solver|]. simpl. intros (Hb & Hl & Hr).
  unfold cores, cores_of. simpl. rewrite fmap_app. simpl.
  rewrite elem_of_app, elem_of_cons. intros [H|[H|H]].
  - specialize (IHl Hl H). lia.
  - injection H as -> -> -> ->. lia.
  - specialize (IHr Hr H). lia.
Qed.

(** ** Order *)

Lemma cores_T l x a r : cores (T l x a r) = cores l ++ (x, core a) :: cores r.
Proof. unfold cores, cores_of. simpl. by rewrite fmap_app. Qed.

Lemma cores_mkT l x a r : cores (mkT l x a r) = cores l ++ (x, core a) :: cores r.
Proof. unfold mkT. by rewrite cores_T. Qed.

Lemma rot_cores d t : cores (rot d t) = cores t.
Proof.
  destruct d, t as [|[|ll xl al rl] x a [|lr xr ar rr]]; unfold rot;
    rewrite ?cores_mkT, ?cores_T, ?cores_mkT, ?cores_T, <- ?app_assoc; done.
Qed.

Lemma rebalance_cores t : cores (rebalance t) = cores t.
Proof.
  destruct t as [|l x a r]; [done|]. unfold rebalance. cbv zeta.
  case_decide; [by rewrite cores_mkT, cores_T|].
  case_decide; rewrite rot_cores, !cores_T; case_decide; by rewrite ?rot_cores.
Qed.

Lemma cores_bin_ext d t t' x a s :
  cores t = cores t' → cores (bin d t x a s) = cores (bin d t' x a s).
Proof. intros H. destruct d; simpl; rewrite !cores_T; by rewrite H. Qed.

Lemma cores_plug_ext c t t' : cores t = cores t' → cores (plug c t) = cores (plug c t').
Proof.
  revert t t'. induction c as [|[d x a s] c IH]; intros t t' H; simpl; [done|].
  apply IH. by apply cores_bin_ext.
Qed.

Lemma fixup_tree_cores c t : cores (fixup_tree c t) = cores (plug c t).
Proof.
  revert t. induction c as [|[d x a s] c IH]; intros t; simpl; [apply rebalance_cores|].
  rewrite IH. apply cores_plug_ext, cores_bin_ext, rebalance_cores.
Qed.

Lemma keys_cores t : keys t = (cores t).*1.
Proof.
  unfold keys, cores, cores_of. rewrite <- list_fmap_compose. by apply list_fmap_ext.
Qed.

(** ** Changing the payload of one node *)

Definition at_key (y : loc) (f : vma → vma) (x : loc) a : vma :=
  if decide (x = y) then f a else a.

Fixpoint upd_key (y : loc) (f : vma → vma) t : tree vma :=
  match t with E => E | T l x a r => T (upd_key y f l) x (at_key y f x a) (upd_key y f r) end.

Definition cupd_key (y : loc) (f : vma → vma) c : list (frame vma) :=
  (λ fr, Fr (fr_dir fr) (fr_key fr) (at_key y f (fr_key fr) (fr_aux fr))
           (upd_key y f (fr_sib fr))) <$> c.

Lemma root_of_upd_key y f t : root_of (upd_key y f t) = root_of t.
Proof. by destruct t. Qed.

Lemma inorder_upd_key y f t :
  inorder (upd_key y f t) = (λ p, (p.1, at_key y f p.1 p.2)) <$> inorder t.
Proof.
  induction t as [|l IHl x a r IHr]; simpl; [done|].
  by rewrite IHl, IHr, fmap_app.
Qed.

Lemma keys_upd_key y f t : keys (upd_key y f t) = keys t.
Proof.
  unfold keys. rewrite inorder_upd_key, <- list_fmap_compose. by apply list_fmap_ext.
Qed.

Lemma upd_key_notin y f t : y ∉ keys t → upd_key y f t = t.
Proof.
  induction t as [|l IHl x a r IHr]; [done|]. rewrite keys_T. intros Hy. simpl.
  rewrite IHl, IHr by set_solver. unfold at_key. rewrite decide_False; [done|set_solver].
Qed.

Lemma upd_key_plug y f c t : upd_key y f (plug c t) = plug (cupd_key y f c) (upd_key y f t).
Proof.
  revert t. induction c as [|[d x a s] c IH]; intros t; simpl; [done|].
  rewrite IH. f_equal. by destruct d.
Qed.

Lemma rep_upd_key m par y f t n :
  m !! y = Some n → rep m par t →
  rep (<[y := mkNode (child_l n) (child_r n) (parent n) (f (aux n))]> m) par (upd_key y f t).
Proof.
  intros Hn. revert par. induction t as [|l IHl x a r IHr]; intros par; [done|].
  simpl. intros (H1 & H2 & H3). rewrite !root_of_upd_key. split_and!; [|auto..].
  unfold at_key. case_decide as E.
  - subst x. rewrite Hn in H1. injection H1 as ->. by rewrite lookup_insert_eq.
  - by rewrite lookup_insert_ne by done.
Qed.

Lemma upd_key_hgt y f t :
  (∀ a, height (f a) = height a) → hgt (upd_key y f t) = hgt t.
Proof. intros Hf. destruct t; simpl; [done|]. unfold at_key. case_decide; auto. Qed.

Lemma upd_key_avl y f t :
  (∀ a, height (f a) = height a) → avl t → avl (upd_key y f t).
Proof.
  intros Hf. induction t as [|l IHl x a r IHr]; simpl; [done|].
  intros (? & ? & ? & ?). rewrite !upd_key_hgt by done.
  split; [unfold at_key; case_decide; by rewrite ?Hf|]. split_and!; auto; lia.
Qed.

End inv.
