(* ===== verification/VmaOps.v ===== *)
(** * The VMA tree: insert, remove and adjust

    Each operation of [dsl/vmamodify.cc] takes a well-formed tree to a
    well-formed tree and changes the represented address ranges exactly as
    documented. *)

From S2P Require Import Prelude Align.
From S2P Require Export VmaInv.

Section ops.
Local Open Scope Z_scope.
Implicit Types (t : tree vma) (c : list (frame vma)) (a : vma) (m : vmem) (lm : lmem).

(** ** The invariant of a VMA tree *)

Record vma_wf (st : VMATree) t : Prop := {
  wf_rep : rep (nodes st) None t;
  wf_root : root st = root_of t;
  wf_list : is_list (lists st) (m_list st) (keys t);
  wf_avl : avl t;
  wf_gaps : gaps_ok t;
  wf_ranges : ranges_ok 0 (cores t)
}.

(** The abstract content: which object covers which addresses, in address
    order. *)
Definition range_of (p : loc * (Z * Z * Z)) : loc * Z * Z := (p.1, p.2.1.1, p.2.1.2).
Definition ranges t : list (loc * Z * Z) := range_of <$> cores t.

(** ** Order of the ranges *)

Definition core_first (p : loc * (Z * Z * Z)) : Z := p.2.1.1.
Definition core_last (p : loc * (Z * Z * Z)) : Z := p.2.1.2.

(** The first address after the ranges [l], none of which lies below [lo]. *)
Fixpoint end_of (lo : Z) (l : list (loc * (Z * Z * Z))) : Z :=
  match l with [] => lo | p :: l => end_of (core_last p + 1) l end.

Lemma end_of_app lo l1 l2 : end_of lo (l1 ++ l2) = end_of (end_of lo l1) l2.
Proof. revert lo. induction l1; intros lo; simpl; auto. Qed.

Lemma ranges_ok_app lo l1 l2 :
  ranges_ok lo (l1 ++ l2) ↔ ranges_ok lo l1 ∧ ranges_ok (end_of lo l1) l2.
Proof.
  revert lo. induction l1 as [|[x [[f e] g]] l1 IH]; intros lo; simpl; [tauto|].
  rewrite IH. unfold core_last. simpl. tauto.
Qed.

Lemma ranges_ok_end lo l : ranges_ok lo l → lo <= end_of lo l.
Proof.
  revert lo. induction l as [|[x [[f e] g]] l IH]; intros lo; simpl; [lia|].
  intros (? & ? & _ & H%IH). unfold core_last in *. simpl in *. lia.
Qed.

Lemma ranges_ok_lower lo l : ranges_ok lo l → Forall (λ p, lo <= core_first p) l.
Proof.
  revert lo. induction l as [|[x [[f e] g]] l IH]; intros lo; simpl; [constructor|].
  intros (? & ? & _ & H%IH). constructor; [done|].
  eapply Forall_impl; [exact H|]. unfold core_first. simpl. lia.
Qed.

Lemma ranges_ok_upper lo l :
  ranges_ok lo l → Forall (λ p, core_first p <= core_last p < end_of lo l) l.
Proof.
  revert lo. induction l as [|[x [[f e] g]] l IH]; intros lo; simpl; [constructor|].
  intros (? & ? & _ & H). pose proof (ranges_ok_end _ _ H).
  constructor; [unfold core_first, core_last in *; simpl in *; lia|by apply IH].
Qed.

Lemma end_of_u64 lo l : ranges_ok lo l → 0 <= lo <= 2 ^ 64 → 0 <= end_of lo l <= 2 ^ 64.
Proof.
  revert lo. induction l as [|[x [[f e] g]] l IH]; intros lo; simpl; [done|].
  intros (? & ? & _ & H) ?. apply IH; [done|]. unfold core_last. simpl. lia.
Qed.

Lemma end_of_last lo l p : list.last l = Some p → end_of lo l = core_last p + 1.
Proof.
  revert lo. induction l as [|q l IH]; intros lo; [done|]. simpl.
  destruct l as [|q' l]; [by intros [= ->]|]. intros H. by apply IH.
Qed.

(** Starting the ranges of [p :: l] at another free address only changes the
    gap of [p]. *)
Lemma ranges_ok_regap lo lo' x f e g l :
  ranges_ok lo ((x, (f, e, g)) :: l) → lo' <= f → ranges_ok lo' ((x, (f, e, f - lo')) :: l).
Proof. simpl. tauto. Qed.

(** ** Neighbours *)

Lemma VMATree_next_spec lm h l1 x l2 :
  is_list lm h (l1 ++ x :: l2) → VMATree_next lm h (Some x) = Some (head l2).
Proof.
  intros HL. pose proof HL as Hr. apply is_list_rotate in Hr.
  unfold VMATree_next. rewrite (is_list_next _ _ _ Hr). simpl. f_equal.
  apply is_list_NoDup in HL.
  destruct l2 as [|y l2]; simpl; [by rewrite decide_True|].
  rewrite decide_False; [done|]. intros ->. apply NoDup_cons in HL as [Hn _]. set_solver.
Qed.

Lemma VMATree_prev_spec lm h l1 x l2 :
  is_list lm h (l1 ++ x :: l2) → VMATree_prev lm h (Some x) = Some (list.last l1).
Proof.
  intros HL. pose proof HL as Hr. apply is_list_rotate in Hr.
  unfold VMATree_prev. rewrite (is_list_prev _ _ _ Hr). simpl. f_equal.
  apply is_list_NoDup in HL. rewrite last_app_cons.
  destruct l1 as [|y l1 _] using rev_ind; simpl; [by rewrite decide_True|].
  rewrite last_snoc, app_comm_cons, last_snoc. simpl.
  rewrite decide_False; [done|]. intros ->. apply NoDup_cons in HL as [Hn _]. set_solver.
Qed.

Lemma VMATree_next_None lm h xs : is_list lm h xs → VMATree_next lm h None = Some (head xs).
Proof.
  intros HL. unfold VMATree_next. rewrite (is_list_next _ _ _ HL). simpl. f_equal.
  apply is_list_NoDup, NoDup_cons in HL as [Hn _].
  destruct xs; simpl; [by rewrite decide_True|]. rewrite decide_False; [done|set_solver].
Qed.

Lemma VMATree_prev_None lm h xs :
  is_list lm h xs → VMATree_prev lm h None = Some (list.last xs).
Proof.
  intros HL. unfold VMATree_prev. rewrite (is_list_prev _ _ _ HL). simpl. f_equal.
  apply is_list_NoDup, NoDup_cons in HL as [Hn _].
  destruct xs as [|x xs _] using rev_ind; simpl; [by rewrite decide_True|].
  rewrite last_snoc. simpl. rewrite decide_False; [done|set_solver].
Qed.

(** ** Descent *)

Lemma plug_descend k t c : plug (descend_tree k t c) E = plug c t.
Proof.
  revert c. induction t as [|l IHl x a r IHr]; intros c; simpl; [done|].
  case_decide; [by rewrite IHl|by rewrite IHr].
Qed.

Lemma descend_length k t c : (length c <= length (descend_tree k t c))%nat.
Proof.
  revert c. induction t as [|l IHl x a r IHr]; intros c; simpl; [done|].
  case_decide; [specialize (IHl (Fr LEFT x a r :: c))|specialize (IHr (Fr RIGHT x a l :: c))];
    simpl in *; lia.
Qed.

Lemma descend_rep m k t c fuel :
  rep m (cparent c) t →
  (length (descend_tree k t c) < length c + fuel)%nat →
  descend fuel m k (cparent c) (cdir c) (root_of t) =
  Some (cparent (descend_tree k t c), cdir (descend_tree k t c)).
Proof.
  revert c fuel. induction t as [|l IHl x a r IHr]; intros c fuel Hr Hf; simpl in *.
  - destruct fuel; [lia|done].
  - destruct fuel as [|fuel].
    { case_decide; [pose proof (descend_length k l (Fr LEFT x a r :: c))|
        pose proof (descend_length k r (Fr RIGHT x a l :: c))]; simpl in *; lia. }
    destruct Hr as (Hx & Hl & Hr). simpl. rewrite Hx. simpl.
    case_decide; simpl.
    + apply (IHl (Fr LEFT x a r :: c)); [done|simpl; lia].
    + apply (IHr (Fr RIGHT x a l :: c)); [done|simpl; lia].
Qed.

(** The ranges before the insertion point start at or below [k], those after
    it above [k]. *)
Lemma descend_sides k t c lo :
  ranges_ok lo (cores t) →
  Forall (λ p, core_first p <= k) (cores_of (cleft c)) →
  Forall (λ p, k < core_first p) (cores_of (cright c)) →
  Forall (λ p, core_first p <= k) (cores_of (cleft (descend_tree k t c))) ∧
  Forall (λ p, k < core_first p) (cores_of (cright (descend_tree k t c))).
Proof.
  revert c lo. induction t as [|l IHl x a r IHr]; intros c lo Hok Hcl Hcr; simpl; [done|].
  rewrite cores_T in Hok. apply ranges_ok_app in Hok as [Hl Hr].
  simpl in Hr. destruct Hr as (H1 & H2 & _ & Hr).
  case_decide as Hk; (eapply IHl || eapply IHr); try done; simpl.
  - unfold cores_of in *. simpl. rewrite fmap_app. constructor; [done|].
    apply Forall_app. split; [|done].
    eapply Forall_impl; [apply (ranges_ok_lower _ _ Hr)|]. simpl. lia.
  - unfold cores_of in *. rewrite !fmap_app. apply Forall_app. split; [done|].
    apply Forall_app. split; [|repeat constructor; unfold core_first; simpl; lia].
    eapply Forall_impl; [apply (ranges_ok_upper _ _ Hl)|]. simpl. lia.
Qed.

(** ** Neighbours of the insertion point *)

Lemma keys_sides c t : keys (plug c t) = (cleft c).*1 ++ keys t ++ (cright c).*1.
Proof. unfold keys. by rewrite inorder_plug, !fmap_app. Qed.

Lemma cores_sides c t : cores (plug c t) = cores_of (cleft c) ++ cores t ++ cores_of (cright c).
Proof. unfold cores, cores_of. by rewrite inorder_plug, !fmap_app. Qed.

Lemma fmap_head {A B} (f : A → B) (l : list A) : head (f <$> l) = f <$> head l.
Proof. by destruct l. Qed.

Lemma insert_neighbours lm h c :
  is_list lm h (keys (plug c E)) →
  (if decide (cdir c = RIGHT) then Some (cparent c) else VMATree_prev lm h (cparent c)) =
    Some (fst <$> list.last (cleft c)) ∧
  (if decide (cdir c = RIGHT) then VMATree_next lm h (cparent c) else Some (cparent c)) =
    Some (fst <$> head (cright c)).
Proof.
  rewrite keys_sides. simpl. destruct c as [|[[] x a s] c]; simpl.
  - intros HL. by rewrite (VMATree_prev_None lm h []).
  - intros HL. rewrite (VMATree_prev_spec lm h (cleft c).*1 x ((inorder s).*1 ++ (cright c).*1)).
    + by rewrite fmap_last.
    + by rewrite fmap_app in HL.
  - intros HL. rewrite app_assoc, last_snoc. split; [done|].
    rewrite (VMATree_next_spec lm h ((cleft c).*1 ++ (inorder s).*1) x (cright c).*1).
    + by rewrite fmap_head.
    + rewrite !fmap_app in HL. simpl in HL. by rewrite <- !app_assoc in *.
Qed.

(** The successor of the hole is the nearest ancestor that has the hole on its
    left. *)
Lemma cright_head c s a :
  head (cright c) = Some (s, a) →
  ∃ c1 b c2, c = c1 ++ Fr LEFT s a b :: c2 ∧
    (∀ a', cleft (c1 ++ Fr LEFT s a' b :: c2) = cleft c) ∧
    (∀ a', cright (c1 ++ Fr LEFT s a' b :: c2) = (s, a') :: tail (cright c)).
Proof.
  induction c as [|[[] x ax o] c IH]; simpl; [done| |].
  - intros [= -> ->]. by exists [], o, c.
  - intros H. destruct (IH H) as (c1 & b & c2 & -> & H1 & H2).
    exists (Fr RIGHT x ax o :: c1), b, c2. simpl. split; [done|].
    split; intros a'; [by rewrite (H1 a')|by rewrite (H2 a')].
Qed.

Lemma ckeys_app c1 c2 : ckeys (c1 ++ c2) = ckeys c1 ++ ckeys c2.
Proof.
  induction c1 as [|[d x a s] c1 IH]; simpl; [done|]. by rewrite IH, <- app_assoc.
Qed.

(** Changing the payload of one node of the path. *)
Lemma crep_set_frame m rt hole c1 d s a b c2 n a' :
  crep m rt hole (c1 ++ Fr d s a b :: c2) → NoDup (ckeys (c1 ++ Fr d s a b :: c2)) →
  m !! s = Some n →
  crep (<[s := mkNode (child_l n) (child_r n) (parent n) a']> m) rt hole
    (c1 ++ Fr d s a' b :: c2).
Proof.
  intros Hc Hnd Hn. revert hole Hc. induction c1 as [|[d' x ax o] c1 IH]; intros hole Hc.
  - simpl in *. destruct Hc as (H1 & H2 & H3). apply NoDup_cons in Hnd as [Hs Hnd].
    split_and!.
    + rewrite lookup_insert_eq. rewrite Hn in H1. injection H1 as ->. by destruct d.
    + eapply rep_ext; [|done]. intros y Hy. apply lookup_insert_ne. set_solver.
    + eapply crep_ext; [|done]. intros y Hy. apply lookup_insert_ne. set_solver.
  - simpl in *. destruct Hc as (H1 & H2 & H3). apply NoDup_cons in Hnd as [Hs Hnd].
    rewrite ckeys_app in *. simpl in *. apply NoDup_app in Hnd as (_ & Hd & Hnd).
    split_and!.
    + rewrite lookup_insert_ne by set_solver. rewrite H1. by destruct c1.
    + eapply rep_ext; [|done]. intros y Hy. apply lookup_insert_ne.
      intros <-. apply (Hd s Hy). set_solver.
    + by apply IH.
Qed.

Lemma cgaps_swap c1 d x a s c2 y b :
  cgaps (c1 ++ Fr d x a s :: c2) → cgaps (c1 ++ Fr d y b s :: c2).
Proof. unfold cgaps. rewrite !Forall_app, !Forall_cons. done. Qed.

Lemma cpos_swap c1 d x a s c2 y b :
  1 <= height b → cpos (c1 ++ Fr d x a s :: c2) → cpos (c1 ++ Fr d y b s :: c2).
Proof. unfold cpos. rewrite !Forall_app, !Forall_cons. simpl. tauto. Qed.

Lemma gaps_ok_plug c t : gaps_ok (plug c t) → gaps_ok t ∧ cgaps c.
Proof.
  revert t. induction c as [|[d x a s] c IH]; intros t; simpl; [by split; [|constructor]|].
  intros [H Hc]%IH. unfold cgaps. rewrite Forall_cons. destruct d; simpl in H; tauto.
Qed.

(** Changing payloads of path nodes without touching heights. *)
Lemma cavl_swap c1 d x a s c2 b k :
  height b = height a → cavl (c1 ++ Fr d x a s :: c2) k → cavl (c1 ++ Fr d x b s :: c2) k.
Proof.
  intros Hb. revert k. induction c1 as [|[d' x' a' s'] c1 IH]; intros k; simpl.
  - by rewrite Hb.
  - intros (? & ? & ? & ?). auto.
Qed.

(** ** Updating the gap in front of the successor of a hole *)

(** [c'] is the path [c] up to gaps. *)
Record path_like c c' : Prop := {
  pl_parent : cparent c' = cparent c;
  pl_dir : cdir c' = cdir c;
  pl_keys : ckeys c' = ckeys c;
  pl_left : cleft c' = cleft c;
  pl_avl : ∀ k, cavl c k → cavl c' k;
  pl_bal : ∀ k, cbal c k → cbal c' k;
  pl_pos : cpos c → cpos c';
  pl_gaps : cgaps c → cgaps c';
  pl_ranges : range_of <$> cores_of (cright c') = range_of <$> cores_of (cright c)
}.

Lemma path_like_refl c : path_like c c.
Proof. by split. Qed.

Lemma path_like_frame c1 s a b c2 g :
  (∀ a', cleft (c1 ++ Fr LEFT s a' b :: c2) = cleft (c1 ++ Fr LEFT s a b :: c2)) →
  (∀ a', cright (c1 ++ Fr LEFT s a' b :: c2) =
         (s, a') :: tail (cright (c1 ++ Fr LEFT s a b :: c2))) →
  cpos (c1 ++ Fr LEFT s a b :: c2) →
  path_like (c1 ++ Fr LEFT s a b :: c2) (c1 ++ Fr LEFT s (with_prev_gap a g) b :: c2).
Proof.
  intros H1 H2 Hp. split.
  - by destruct c1.
  - by destruct c1.
  - by rewrite !ckeys_app.
  - apply H1.
  - intros k. by apply cavl_swap.
  - intros k. apply cbal_swap.
  - apply cpos_swap. unfold cpos in Hp. rewrite Forall_app, Forall_cons in Hp. simpl in *. tauto.
  - apply cgaps_swap.
  - by rewrite H2, (H2 a).
Qed.

Lemma regap_succ m rt hole c lo e :
  crep m rt hole c → NoDup (ckeys c) → cpos c → ranges_ok lo (cores_of (cright c)) →
  Forall (λ p, e <= core_first p) (cores_of (cright c)) →
  ∃ m' c',
    match fst <$> head (cright c) with
    | Some s => sn ← m !! s; set_prev_gap m s (first (aux sn) - e)
    | None => Some m
    end = Some m' ∧
    crep m' rt hole c' ∧ path_like c c' ∧ ranges_ok e (cores_of (cright c')) ∧
    untouched (ckeys c) m m'.
Proof.
  intros Hc Hnd Hp Hok He.
  destruct (head (cright c)) as [[s a]|] eqn:Eh; simpl.
  - destruct (cright_head c s a Eh) as (c1 & b & c2 & -> & H1 & H2).
    assert (∃ n, m !! s = Some n ∧ aux n = a) as (n & Hn & Ha).
    { clear -Hc. revert hole Hc. induction c1 as [|[d x ax o] c1 IH]; intros hole; simpl.
      - intros (-> & _). by eexists.
      - intros (_ & _ & H). eauto. }
    rewrite Hn. simpl. unfold set_prev_gap. rewrite Hn. simpl. unfold set_aux. rewrite Hn. simpl.
    eexists _, (c1 ++ Fr LEFT s (with_prev_gap a (first a - e)) b :: c2).
    rewrite Ha. split; [done|]. split_and!.
    + by eapply crep_set_frame.
    + by apply path_like_frame.
    + rewrite H2. destruct (cright _) as [|[s' a0] R]; [done|]. injection Eh as -> ->.
      apply Forall_cons in He as [He _]. unfold cores_of, core_first in *. simpl in *. tauto.
    + intros y Hy. apply lookup_insert_ne. intros ->. apply Hy.
      rewrite ckeys_app. simpl. set_solver.
  - exists m, c. split_and!; [done..|apply path_like_refl| |done].
    by destruct (cright c).
Qed.

Lemma rep_inorder m par t x a :
  rep m par t → (x, a) ∈ inorder t → ∃ n, m !! x = Some n ∧ aux n = a.
Proof.
  revert par. induction t as [|l IHl y b r IHr]; intros par; simpl; [set_solver|].
  intros (H1 & H2 & H3) [H|[H|H]%elem_of_cons]%elem_of_app; [eauto| |eauto].
  injection H as -> ->. rewrite H1. by eexists.
Qed.

(** The gap the code computes behind the last range of [L]. *)
Lemma gap_behind (L : list (loc * vma)) f :
  ranges_ok 0 (cores_of L) → end_of 0 (cores_of L) <= f < 2 ^ 64 →
  match list.last L with
  | Some p => f -ᵤ last p.2 -ᵤ 1
  | None => f
  end = f - end_of 0 (cores_of L).
Proof.
  intros Hok Hf. pose proof (ranges_ok_end _ _ Hok) as H0.
  destruct (list.last L) as [[p a]|] eqn:El.
  - assert (list.last (cores_of L) = Some (p, core a)) as El'
      by (unfold cores_of; by rewrite fmap_last, El).
    rewrite (end_of_last _ _ _ El') in *. unfold core_last in *. simpl in *.
    assert (0 <= first a <= last a) as Hl.
    { pose proof (ranges_ok_lower _ _ Hok) as Hl. pose proof (ranges_ok_upper _ _ Hok) as Hu.
      apply last_Some in El' as [L' EL]. rewrite EL, Forall_app, Forall_singleton in Hl, Hu.
      unfold core_first, core_last in *. simpl in *. lia. }
    rewrite (sub64_small f) by lia. rewrite sub64_small by lia. lia.
  - apply last_None in El as ->. simpl. lia.
Qed.

(** ** The end of every structural operation: [fixup] restores the invariant *)

Lemma fixup_wf lm h m rt c t x k :
  root_of t = Some x → crep m rt (Some x) c → rep m (cparent c) t →
  children_avl t → hpos t → cbal c k → cpos c → 0 <= k → -1 <= hgt (rebalance t) - k <= 1 →
  children_gaps t → cgaps c →
  is_list lm h (keys (plug c t)) → ranges_ok 0 (cores (plug c t)) →
  ∃ m' rt', fixup (fixup_fuel m) m rt (Some x) = Some (m', rt') ∧
    vma_wf (mkVMATree m' lm h rt') (fixup_tree c t) ∧
    untouched (keys (plug c t)) m m'.
Proof.
  intros Ht Hc Hr Ha Hp Hcb Hcp Hk Hd Hg Hcg HL Hok.
  assert (NoDup (keys t ++ ckeys c)) as Hnd.
  { rewrite <- keys_plug. by apply is_list_NoDup, NoDup_cons in HL as [_ ?]. }
  destruct (fixup_rep_fuel c t x m rt) as (m' & rt' & -> & R' & -> & K' & U'); [done..|].
  eexists m', _. split; [done|].
  split; [|eapply untouched_weaken; [|done]; by rewrite keys_plug].
  split; simpl; [done|done| | | |].
  - by rewrite keys_cores, fixup_tree_cores, <- keys_cores.
  - by eapply fixup_tree_avl.
  - by apply fixup_tree_gaps.
  - by rewrite fixup_tree_cores.
Qed.

End ops.
