(* ===== verification/VmaInsert.v ===== *)
(** * The VMA tree: insertion

    [VMATree::insert] ([dsl/vmamodify.cc]) puts a free range at its place in
    the address order and restores balance and gap data. *)

From S2P Require Import Prelude Align.
From S2P Require Export VmaOps.

Section insert.
Local Open Scope Z_scope.
Implicit Types (t : tree vma) (c : list (frame vma)) (a : vma) (m : vmem) (lm : lmem).

(** A range that meets none of the ranges [l]. *)
Definition disjoint_from (f e : Z) (l : list (loc * Z * Z)) : Prop :=
  Forall (λ '(_, f', e'), e' < f ∨ e < f') l.

(** The insertion point separates the ranges below from those above. *)
Lemma insert_sides t f e :
  ranges_ok 0 (cores t) → 0 <= f <= e → disjoint_from f e (ranges t) →
  let c := descend_tree f t [] in
  ranges_ok 0 (cores_of (cleft c)) ∧ end_of 0 (cores_of (cleft c)) <= f ∧
  ranges_ok (end_of 0 (cores_of (cleft c))) (cores_of (cright c)) ∧
  Forall (λ p, e + 1 <= core_first p) (cores_of (cright c)).
Proof.
  intros Hok Hf Hd c. destruct (descend_sides f t [] 0) as [Hl Hr]; [done|constructor..|].
  fold c in Hl, Hr.
  assert (cores t = cores_of (cleft c) ++ cores_of (cright c)) as Hcs.
  { pose proof (plug_descend f t []) as Hp. simpl in Hp. rewrite <- Hp. apply cores_sides. }
  unfold disjoint_from, ranges in Hd. rewrite Forall_fmap in Hd.
  rewrite Hcs in *. apply ranges_ok_app in Hok as [Hok1 Hok2].
  apply Forall_app in Hd as [Hd1 Hd2].
  split_and!; [done| |done|].
  - destruct (list.last (cores_of (cleft c))) as [p|] eqn:El; cycle 1.
    { apply last_None in El as ->. simpl. lia. }
    rewrite (end_of_last _ _ _ El). apply last_Some in El as [L El].
    rewrite El in Hl, Hd1. rewrite Forall_app, Forall_singleton in Hl, Hd1.
    destruct p as [x [[f' e'] g]]. unfold core_first, core_last in *. simpl in *. lia.
  - pose proof (ranges_ok_upper _ _ Hok2) as Hu.
    apply Forall_forall. intros p Hp. rewrite !Forall_forall in *.
    specialize (Hr p Hp). specialize (Hd2 p Hp). specialize (Hu p Hp).
    destruct p as [x [[f' e'] g]]. unfold core_first, core_last in *. simpl in *. lia.
Qed.

(** The list insertion behind the predecessor. *)
Lemma insert_list lm h (L R : list loc) x :
  is_list lm h (L ++ R) → x ∉ h :: L ++ R → is_Some (lm !! x) →
  ∃ lm', match list.last L with
         | Some p => list_push_front lm p x
         | None => list_push_front lm h x
         end = Some lm' ∧ is_list lm' h (L ++ x :: R) ∧ frame_outside lm lm' (x :: h :: L ++ R).
Proof.
  intros HL Hx Hal. destruct L as [|p L _] using rev_ind; [by apply push_front_spec|].
  rewrite last_snoc. rewrite <- app_assoc in *. simpl in *.
  destruct (push_after_spec lm h L p R x) as (lm' & E & HL' & Hf); [done..|].
  exists lm'. by rewrite <- app_assoc.
Qed.

Lemma descend_fuel m t k :
  rep m None t → NoDup (keys t) →
  descend (S (size m)) m k None LEFT (root_of t) =
  Some (cparent (descend_tree k t []), cdir (descend_tree k t [])).
Proof.
  intros Hr Hnd. apply (descend_rep m k t []); [done|]. simpl.
  pose proof (plug_descend k t []) as Hp. simpl in Hp.
  destruct (rep_plug m (root_of t) (descend_tree k t []) E) as [Hc _].
  rewrite Hp in Hc. destruct Hc as [Hc _]; [done|].
  apply crep_size in Hc; [lia|].
  rewrite <- Hp, keys_plug in Hnd. by apply NoDup_app in Hnd as (_ & _ & ?).
Qed.

(** The fields of the new node once its gap is known. *)
Definition new_vma a (g : Z) : vma := mkVma (first a) (last a) 1 g (biggest_gap a).

(** The first half of [insert]: descent, gaps and linking, up to the call of
    [fixup]. *)
Definition insert_link (st : VMATree) (x : loc) (n : node vma) : option (vmem * ptr * lmem) :=
  let m := <[x := mkNode None None (parent n) (new_vma (aux n) (prev_gap (aux n)))]> (nodes st) in
  '(par, dir) ← descend (S (size m)) m (first (aux n)) None LEFT (root st);
  pred ← (if decide (dir = RIGHT) then Some par
          else VMATree_prev (lists st) (m_list st) par);
  succ ← (if decide (dir = RIGHT) then VMATree_next (lists st) (m_list st) par
          else Some par);
  m ← match pred with
      | Some p => pn ← m !! p;
          set_prev_gap m x (first (aux n) -ᵤ last (aux pn) -ᵤ 1)
      | None => set_prev_gap m x (first (aux n))
      end;
  m ← match succ with
      | Some s => sn ← m !! s;
          set_prev_gap m s (first (aux sn) -ᵤ last (aux n) -ᵤ 1)
      | None => Some m
      end;
  m ← set_parent m x par;
  '(m, rt) ← link m (root st) par dir (Some x);
  lm ← match pred with
       | Some p => list_push_front (lists st) p x
       | None => list_push_front (lists st) (m_list st) x
       end;
  Some (m, rt, lm).

Lemma insert_unfold st x n :
  nodes st !! x = Some n →
  VMATree_insert st x =
  '(m, rt, lm) ← insert_link st x n;
  '(m, rt) ← fixup (fixup_fuel m) m rt (Some x);
  Some (mkVMATree m lm (m_list st) rt).
Proof.
  intros Hn. unfold VMATree_insert, insert_link, set_child, set_aux. rewrite Hn.
  cbn [mbind option_bind]. rewrite lookup_insert_eq. cbn [mbind option_bind].
  rewrite lookup_insert_eq. cbn [mbind option_bind].
  rewrite !insert_insert_eq. unfold new_vma. simpl child_l. simpl child_r. simpl parent.
  simpl with_child.
  repeat match goal with
         | |- ?o ≫= _ = ?o ≫= _ => destruct o; [|done]; cbn [mbind option_bind]
         | |- ?o ≫= _ = (?o ≫= _) ≫= _ => destruct o as [[] |]; [|done]; cbn [mbind option_bind]
         | |- ?o ≫= _ = (?o ≫= _) ≫= _ => destruct o; [|done]; cbn [mbind option_bind]
         end; done.
Qed.

Lemma set_prev_gap_lookup m x n g :
  m !! x = Some n →
  set_prev_gap m x g =
  Some (<[x := mkNode (child_l n) (child_r n) (parent n) (with_prev_gap (aux n) g)]> m).
Proof. intros H. unfold set_prev_gap. rewrite H. simpl. unfold set_aux. by rewrite H. Qed.

(** The two gap computations of [insert], as differences of addresses. *)
Lemma insert_own_gap m c x f :
  (∀ p a, (p, a) ∈ cleft c → ∃ n, m !! p = Some n ∧ aux n = a) →
  ranges_ok 0 (cores_of (cleft c)) → end_of 0 (cores_of (cleft c)) <= f < 2 ^ 64 →
  match fst <$> list.last (cleft c) with
  | Some p => pn ← m !! p; set_prev_gap m x (f -ᵤ last (aux pn) -ᵤ 1)
  | None => set_prev_gap m x f
  end = set_prev_gap m x (f - end_of 0 (cores_of (cleft c))).
Proof.
  intros Hin Hok Hf. rewrite <- (gap_behind (cleft c) f) by done.
  destruct (list.last (cleft c)) as [[p a]|] eqn:El; simpl; [|done].
  destruct (Hin p a) as (n & -> & Ha).
  { apply last_Some in El as [L ->]. set_solver. }
  simpl. by rewrite Ha.
Qed.

Lemma insert_succ_gap m R e lo :
  (∀ p a, (p, a) ∈ R → ∃ n, m !! p = Some n ∧ aux n = a) →
  ranges_ok lo (cores_of R) → Forall (λ p, e + 1 <= core_first p) (cores_of R) → 0 <= e →
  match fst <$> head R with
  | Some s => sn ← m !! s; set_prev_gap m s (first (aux sn) -ᵤ e -ᵤ 1)
  | None => Some m
  end =
  match fst <$> head R with
  | Some s => sn ← m !! s; set_prev_gap m s (first (aux sn) - (e + 1))
  | None => Some m
  end.
Proof.
  intros Hin Hok He H0. destruct R as [|[s a] R]; simpl; [done|].
  destruct (Hin s a) as (n & -> & Ha); [set_solver|]. simpl. rewrite Ha.
  simpl in Hok. apply Forall_cons in He as [He _]. unfold core_first in He. simpl in *.
  rewrite (sub64_small (first a) e) by lia. rewrite sub64_small by lia. by replace (first a - e - 1) with (first a - (e + 1)) by lia.
Qed.

Lemma insert_link_spec st t x n :
  let f := first (aux n) in let e := last (aux n) in
  vma_wf st t → nodes st !! x = Some n → x ∉ m_list st :: keys t →
  is_Some (lists st !! x) → 0 <= f <= e → e < 2 ^ 64 → disjoint_from f e (ranges t) →
  let c := descend_tree f t [] in
  let g := f - end_of 0 (cores_of (cleft c)) in
  ∃ m rt lm c', insert_link st x n = Some (m, rt, lm) ∧
    crep m rt (Some x) c' ∧ path_like c c' ∧
    m !! x = Some (mkNode None None (cparent c') (new_vma (aux n) g)) ∧
    ranges_ok (e + 1) (cores_of (cright c')) ∧
    is_list lm (m_list st) ((cleft c).*1 ++ x :: (cright c).*1) ∧
    untouched (x :: keys t) (nodes st) m ∧
    frame_outside (lists st) lm (x :: m_list st :: keys t).
Proof.
  intros f e Hwf Hn Hx Hal Hf He Hd c g. destruct Hwf as [Hrep Hrt HL Havl Hgaps Hok].
  pose proof (plug_descend f t []) as Hplug. simpl in Hplug. fold c in Hplug.
  destruct (insert_sides t f e Hok Hf Hd) as (Hok1 & Hend & Hok2 & Hsucc). fold c in Hok1, Hend, Hok2, Hsucc.
  assert (NoDup (keys t)) as Hnd by (by apply is_list_NoDup, NoDup_cons in HL as [_ ?]).
  assert (keys t ≡ₚ ckeys c) as Hck by (rewrite <- Hplug, keys_plug; done).
  assert (keys t = (cleft c).*1 ++ (cright c).*1) as Hks by (rewrite <- Hplug, keys_sides; done).
  unfold insert_link. set (m0 := <[x := _]> (nodes st)).
  assert (rep m0 None t) as Hr0.
  { eapply rep_ext; [|exact Hrep]. intros y Hy. apply lookup_insert_ne. set_solver. }
  rewrite Hrt, (descend_fuel m0 t) by done. fold f c. cbn [mbind option_bind].
  rewrite <- Hplug in HL. destruct (insert_neighbours _ _ _ HL) as [-> ->].
  cbn [mbind option_bind].
  assert (∀ p a, (p, a) ∈ inorder t → ∃ n, m0 !! p = Some n ∧ aux n = a) as Hin.
  { intros p a. by apply rep_inorder with None. }
  rewrite <- Hplug, inorder_plug in Hin. simpl in Hin.
  rewrite insert_own_gap; [|intros; apply Hin; set_solver|done|lia]. fold g.
  assert (m0 !! x = Some (mkNode None None (parent n) (new_vma (aux n) (prev_gap (aux n)))))
    as Hx0 by (unfold m0; apply lookup_insert_eq).
  rewrite (set_prev_gap_lookup _ _ _ _ Hx0). cbn [mbind option_bind].
  unfold m0. rewrite insert_insert_eq. simpl child_l. simpl child_r. simpl parent. simpl aux. fold m0.
  set (m1 := <[x := _]> (nodes st)).
  assert (∀ y, y ≠ x → m1 !! y = m0 !! y) as Hm1.
  { intros y Hy. unfold m1, m0. by rewrite !lookup_insert_ne. }
  fold e. rewrite (insert_succ_gap m1 (cright c) e (end_of 0 (cores_of (cleft c)))); [|..|done|done|lia]; cycle 1.
  { intros p a Hp. rewrite Hm1; [apply Hin; set_solver|]. intros ->.
    apply Hx, elem_of_cons. right. rewrite Hks, elem_of_app. right.
    apply list_elem_of_fmap. by exists (x, a). }
  destruct (regap_succ m1 (root_of t) None c (end_of 0 (cores_of (cleft c))) (e + 1))
    as (m2 & c' & -> & C2 & PL & Hok' & U2); [|by rewrite <- Hck|..|done|done|].
  { apply crep_ext with m0.
    - intros y Hy. apply Hm1. intros ->. rewrite <- Hck in Hy. set_solver.
    - apply (rep_plug m0 (root_of t) c E). by rewrite Hplug. }
  { apply (cavl_cpos c 0); [done|]. rewrite <- Hplug in Havl. by apply avl_plug in Havl as [_ ?]. }
  cbn [mbind option_bind].
  assert (x ∉ ckeys c) as Hxc by (rewrite <- Hck; set_solver).
  unfold set_parent. rewrite U2 by done. unfold m1 at 1. rewrite lookup_insert_eq.
  cbn [mbind option_bind]. simpl child_l. simpl child_r. simpl aux.
  destruct (link_crep (<[x := mkNode None None (cparent c) (new_vma (aux n) g)]> m2)
    (root_of t) None c' (Some x)) as (m4 & rt4 & El & C4 & U4).
  { eapply crep_ext; [|done]. intros y Hy. apply lookup_insert_ne.
    rewrite (pl_keys _ _ PL) in Hy. set_solver. }
  { rewrite (pl_keys _ _ PL). by rewrite <- Hck. }
  rewrite (pl_parent _ _ PL), (pl_dir _ _ PL) in El.
  unfold new_vma in El. unfold new_vma, with_prev_gap. simpl aux. simpl first.
  simpl last. simpl height. simpl biggest_gap. rewrite El. cbn [mbind option_bind].
  rewrite Hplug, Hks in HL.
  destruct (insert_list (lists st) (m_list st) (cleft c).*1 (cright c).*1 x)
    as (lm' & El' & HL' & Hfr); [done|by rewrite <- Hks|done|].
  rewrite fmap_last in El'. rewrite El'. cbn [mbind option_bind].
  exists m4, rt4, lm', c'. split; [done|]. split_and!; [done..| |done|done| |by rewrite Hks].
  - rewrite U4 by (rewrite (pl_keys _ _ PL); done). rewrite lookup_insert_eq.
    by rewrite (pl_parent _ _ PL).
  - intros y Hy. rewrite U4 by (rewrite (pl_keys _ _ PL), <- Hck; set_solver).
    rewrite lookup_insert_ne by set_solver. rewrite U2 by (rewrite <- Hck; set_solver).
    unfold m1. apply lookup_insert_ne. set_solver.
Qed.

Lemma VMATree_insert_spec st t x n :
  vma_wf st t → nodes st !! x = Some n → x ∉ m_list st :: keys t →
  is_Some (lists st !! x) → 0 <= first (aux n) <= last (aux n) → last (aux n) < 2 ^ 64 →
  disjoint_from (first (aux n)) (last (aux n)) (ranges t) →
  ∃ st' t' l1 l2, VMATree_insert st x = Some st' ∧ vma_wf st' t' ∧
    m_list st' = m_list st ∧ ranges t = l1 ++ l2 ∧
    ranges t' = l1 ++ (x, first (aux n), last (aux n)) :: l2 ∧
    untouched (x :: keys t) (nodes st) (nodes st') ∧
    frame_outside (lists st) (lists st') (x :: m_list st :: keys t).
Proof.
  intros Hwf Hn Hx Hal Hf He Hd.
  destruct (insert_link_spec st t x n) as
    (m & rt & lm & c' & El & C & PL & Hnx & Hok & HL & U & Hfr); [done..|].
  rewrite (insert_unfold st x n Hn), El. cbn [mbind option_bind].
  set (c := descend_tree (first (aux n)) t []) in *.
  set (g := first (aux n) - end_of 0 (cores_of (cleft c))) in *.
  pose proof (plug_descend (first (aux n)) t []) as Hplug. simpl in Hplug. fold c in Hplug.
  destruct Hwf as [Hrep Hrt HLt Havl Hgaps Hokt].
  destruct (insert_sides t _ _ Hokt Hf Hd) as (Hok1 & Hend & _). fold c in Hok1, Hend.
  set (t0 := T E x (new_vma (aux n) g) E).
  assert (cores (plug c' t0) = cores_of (cleft c) ++ (x, (first (aux n), last (aux n), g)) ::
    cores_of (cright c')) as Hcs.
  { rewrite cores_sides, (pl_left _ _ PL). done. }
  assert (cavl c 0) as Hcavl.
  { rewrite <- Hplug in Havl. by apply avl_plug in Havl as [_ ?]. }
  assert ((cright c').*1 = (cright c).*1) as Hr1.
  { pose proof (pl_ranges _ _ PL) as H. apply (f_equal (fmap (fst ∘ fst))) in H.
    unfold cores_of in H. rewrite <- !list_fmap_compose in H. exact H. }
  destruct (fixup_wf lm (m_list st) m rt c' t0 x 0) as (m' & rt' & -> & Hwf' & U').
  - done.
  - done.
  - simpl. done.
  - simpl. lia.
  - simpl. lia.
  - by apply (pl_bal _ _ PL), cavl_cbal.
  - by apply (pl_pos _ _ PL), (cavl_cpos c 0).
  - done.
  - unfold t0. rewrite rebalance_balanced by (simpl; lia). rewrite hgt_mkT. simpl. lia.
  - done.
  - apply (pl_gaps _ _ PL). rewrite <- Hplug in Hgaps. by apply gaps_ok_plug in Hgaps as [_ ?].
  - rewrite keys_sides, (pl_left _ _ PL), Hr1. done.
  - rewrite Hcs. apply ranges_ok_app. split; [done|]. simpl. split_and!; [lia..|done|done].
  - cbn [mbind option_bind].
    exists (mkVMATree m' lm (m_list st) rt'), (fixup_tree c' t0),
      (range_of <$> cores_of (cleft c)), (range_of <$> cores_of (cright c)).
    split_and!; [done..| | | |done].
    + unfold ranges. rewrite <- Hplug, cores_sides. simpl. by rewrite fmap_app.
    + unfold ranges. rewrite fixup_tree_cores, Hcs, fmap_app, fmap_cons, (pl_ranges _ _ PL). done.
    + intros y Hy. simpl. rewrite U'; [by apply U|].
      rewrite keys_sides, (pl_left _ _ PL), Hr1.
      rewrite <- Hplug, keys_sides in Hy. simpl in Hy. set_solver.
Qed.

(** C1. [VMATree::insert] of a range that overlaps no range of the tree
    succeeds, keeps the invariant (pointer structure, balance, list order, gap
    data), and adds exactly the new range at its place in the address order;
    objects outside the tree are untouched. *)
Theorem VMATree_insert_correct st t x n :
  vma_wf st t → nodes st !! x = Some n → x ∉ m_list st :: keys t →
  is_Some (lists st !! x) → 0 <= first (aux n) <= last (aux n) → last (aux n) < 2 ^ 64 →
  disjoint_from (first (aux n)) (last (aux n)) (ranges t) →
  ∃ st' t' l1 l2, VMATree_insert st x = Some st' ∧ vma_wf st' t' ∧
    m_list st' = m_list st ∧ ranges t = l1 ++ l2 ∧
    ranges t' = l1 ++ (x, first (aux n), last (aux n)) :: l2 ∧
    untouched (x :: keys t) (nodes st) (nodes st') ∧
    frame_outside (lists st) (lists st') (x :: m_list st :: keys t).
Proof. apply VMATree_insert_spec. Qed.

End insert.
