(* ===== verification/VmaRemove.v ===== *)
(** * The VMA tree: removal ([VMATree::remove], [dsl/vmamodify.cc]) *)

From S2P Require Import Prelude Align.
From S2P Require Export VmaInsert.

Section remove.
Local Open Scope Z_scope.
Implicit Types (t l r : tree vma) (c : list (frame vma)) (a : vma) (m : vmem) (lm : lmem).

(** ** The gap in front of the successor *)

Lemma regap_eq m (P S : list (loc * vma)) lo :
  (∀ p a, (p, a) ∈ P ++ S → ∃ n, m !! p = Some n ∧ aux n = a) →
  ranges_ok 0 (cores_of P) → ranges_ok lo (cores_of S) →
  Forall (λ p, end_of 0 (cores_of P) <= core_first p) (cores_of S) →
  regap m (fst <$> list.last P) (fst <$> head S) =
  match fst <$> head S with
  | Some s => sn ← m !! s; set_prev_gap m s (first (aux sn) - end_of 0 (cores_of P))
  | None => Some m
  end.
Proof.
  intros Hin HP HS He. destruct S as [|[s a] S]; simpl; [done|].
  destruct (Hin s a) as (n & Hn & Ha); [set_solver|]. rewrite Hn. simpl. rewrite Ha.
  apply Forall_cons in He as [He _]. destruct HS as (_ & HS & _). unfold core_first in He. simpl in *.
  rewrite <- (gap_behind P (first a)) by (done || lia).
  destruct (list.last P) as [[p b]|] eqn:El; simpl; [|done].
  destruct (Hin p b) as (n' & -> & Ha').
  { apply last_Some in El as [L ->]. set_solver. }
  simpl. by rewrite Ha'.
Qed.

Lemma remove_neighbours lm h (P S : list (loc * vma)) x :
  is_list lm h (P.*1 ++ x :: S.*1) →
  VMATree_prev lm h (Some x) = Some (fst <$> list.last P) ∧
  VMATree_next lm h (Some x) = Some (fst <$> head S).
Proof.
  intros HL. rewrite (VMATree_prev_spec _ _ _ _ _ HL), (VMATree_next_spec _ _ _ _ _ HL).
  by rewrite fmap_last, fmap_head.
Qed.

(** ** [fixup] from the parent of a changed subtree *)

Definition fixup_parent c t : tree vma :=
  match c with [] => t | Fr d y b s :: c => fixup_tree c (bin d t y b s) end.

Lemma fixup_parent_cores c t : cores (fixup_parent c t) = cores (plug c t).
Proof. destruct c as [|[d y b s] c]; simpl; [done|]. apply fixup_tree_cores. Qed.

Lemma fixup_parent_wf lm h m rt c t k :
  crep m rt (root_of t) c → rep m (cparent c) t → avl t → gaps_ok t →
  cbal c k → cpos c → 0 <= k → -1 <= hgt t - k <= 1 → cgaps c →
  is_list lm h (keys (plug c t)) → ranges_ok 0 (cores (plug c t)) →
  ∃ m' rt', fixup (fixup_fuel m) m rt (cparent c) = Some (m', rt') ∧
    vma_wf (mkVMATree m' lm h rt') (fixup_parent c t) ∧ untouched (keys (plug c t)) m m'.
Proof.
  intros Hc Hr Ha Hg Hcb Hcp Hk Hd Hcg HL Hok. destruct c as [|[d y b s] c]; simpl in *.
  - exists m, rt. split_and!; [done| |done]. by split.
  - destruct Hc as (Hy & Hs & Hc). destruct Hcb as (Hb & Has & Hcb).
    apply Forall_cons in Hcp as [[Hp1 Hp2] Hcp]. apply Forall_cons in Hcg as [Hg1 Hcg].
    simpl in *. pose proof (avl_hgt_nonneg _ Ha). pose proof (avl_hgt_nonneg _ Has).
    apply (fixup_wf lm h m rt c (bin d t y b s) y (1 + Z.max k (hgt s))); try done.
    + apply root_of_bin.
    + by apply rep_bin.
    + destruct d; simpl; split_and!; done || lia.
    + apply hpos_bin. split_and!; [done|by apply avl_hpos|done].
    + lia.
    + destruct d; simpl bin;
        match goal with |- context [rebalance (T ?l ?x ?a ?r)] =>
          destruct (rebalance_avl l x a r) as [_ [->|[? ->]]]; [done|done|lia|lia|lia] end.
    + by destruct d.
Qed.

(** ** The pointer surgery *)

(** A node with at most one child: the child takes its place. *)
Lemma replace_by_child m rt c l x hole :
  crep m rt hole c → rep m (Some x) l → NoDup (keys l ++ ckeys c) →
  ∃ m2 rt2 m3, link m rt (cparent c) (cdir c) (root_of l) = Some (m2, rt2) ∧
    set_parent_opt m2 (root_of l) (cparent c) = Some m3 ∧
    crep m3 rt2 (root_of l) c ∧ rep m3 (cparent c) l ∧ untouched (keys l ++ ckeys c) m m3.
Proof.
  intros Hc Hl Hnd. pose proof Hnd as (Hnl & Hd & Hnc)%NoDup_app.
  destruct (link_crep m rt hole c (root_of l)) as (m2 & rt2 & -> & C2 & U2); [done..|].
  assert (rep m2 (Some x) l) as R2 by (eapply rep_untouched; [exact U2|done|done]).
  destruct (set_parent_opt_rep m2 (Some x) (cparent c) l) as (m3 & E3 & R3 & U3); [done..|].
  exists m2, rt2, m3. split_and!; [done..| |done|].
  - eapply crep_untouched; [exact U3| |done]. intros y Hy Hin. by apply (Hd y).
  - eapply untouched_trans; (eapply untouched_weaken; [|done]); set_solver.
Qed.

(** The successor moves up: everything but the right subtree. *)
Lemma succ_takes_place m rt c l x s b p q :
  crep m rt (Some x) c → rep m (Some x) l → m !! s = Some (mkNode None q p b) →
  NoDup (s :: keys l ++ ckeys c) →
  ∃ m2 m3 m4 m5 rt5,
    set_parent m s (cparent c) = Some m2 ∧ set_child m2 s LEFT (root_of l) = Some m3 ∧
    set_parent_opt m3 (root_of l) (Some s) = Some m4 ∧
    link m4 rt (cparent c) (cdir c) (Some s) = Some (m5, rt5) ∧
    crep m5 rt5 (Some s) c ∧ rep m5 (Some s) l ∧
    m5 !! s = Some (mkNode (root_of l) q (cparent c) b) ∧
    untouched (s :: keys l ++ ckeys c) m m5.
Proof.
  intros Hc Hl Hs [Hsn (Hnl & Hd & Hnc)%NoDup_app]%NoDup_cons.
  set (m2 := <[s := mkNode None q (cparent c) b]> m).
  set (m3 := <[s := mkNode (root_of l) q (cparent c) b]> m2).
  assert (set_parent m s (cparent c) = Some m2) as E2 by (unfold set_parent; by rewrite Hs).
  assert (set_child m2 s LEFT (root_of l) = Some m3) as E3.
  { unfold set_child. replace (m2 !! s) with (Some (mkNode None q (cparent c) b)); [done|].
    unfold m2. by rewrite lookup_insert_eq. }
  assert (untouched [s] m m3) as U3.
  { intros y Hy. unfold m3, m2. rewrite !lookup_insert_ne by set_solver. done. }
  destruct (set_parent_opt_rep m3 (Some x) (Some s) l) as (m4 & E4 & R4 & U4);
    [by eapply rep_untouched; [done|set_solver|]|done|].
  destruct (link_crep m4 rt (Some x) c (Some s)) as (m5 & rt5 & E5 & C5 & U5); [|done|].
  { eapply crep_untouched; [exact U4| |].
    { intros y Hy Hin. by apply (Hd y). }
    eapply crep_untouched; [exact U3|set_solver|done]. }
  exists m2, m3, m4, m5, rt5. split_and!; [done..| | |].
  - eapply rep_untouched; [exact U5|done|done].
  - rewrite U5 by set_solver. rewrite U4 by set_solver. unfold m3. by rewrite lookup_insert_eq.
  - intros y Hy. rewrite U5 by set_solver. rewrite U4 by set_solver. apply U3. set_solver.
Qed.

(** The right subtree loses its leftmost node [s] and moves below it. *)
Lemma right_subtree_moves m m0 x s b q lc cr rr y ay sy bs :
  cr = Fr LEFT y ay sy :: bs →
  let r := plug cr (T E s b rr) in
  rep m (Some x) r → NoDup (keys r) → (∀ z, z ∈ keys r → z ≠ s → m0 !! z = m !! z) →
  m0 !! s = Some (mkNode lc (root_of rr) q b) →
  ∃ m1 m2 m3 m4,
    set_child m0 y LEFT (root_of rr) = Some m1 ∧
    set_parent_opt m1 (root_of rr) (Some y) = Some m2 ∧
    set_child m2 s RIGHT (root_of r) = Some m3 ∧
    set_parent_opt m3 (root_of r) (Some s) = Some m4 ∧
    rep m4 (Some s) (plug cr rr) ∧
    m4 !! s = Some (mkNode lc (root_of (plug cr rr)) q b) ∧ untouched (keys r) m0 m4.
Proof.
  intros Ecr r Hr Hnd H0 Hs0. subst cr.
  assert (root_of r = root_of (plug (Fr LEFT y ay sy :: bs) rr)) as Hrt by apply root_of_plug_cons.
  assert (keys r ≡ₚ s :: keys rr ++ y :: keys sy ++ ckeys bs) as Hk.
  { unfold r. by rewrite keys_plug. }
  assert (keys (plug (Fr LEFT y ay sy :: bs) rr) ≡ₚ keys rr ++ y :: keys sy ++ ckeys bs) as Hk'.
  { by rewrite keys_plug. }
  rewrite Hrt. rewrite Hk in Hnd. setoid_rewrite Hk in H0.
  apply NoDup_cons in Hnd as [Hsn Hnd]. pose proof Hnd as (Hnr & Hrd & Hnd')%NoDup_app.
  apply NoDup_cons in Hnd' as [Hyn Hnd'].
  pose proof (rep_plug_sub _ _ _ _ Hr) as (_ & _ & Hrr). simpl plug in Hr, Hrt, Hk', Hnd |- *.
  pose proof (rep_plug_sub m (Some x) bs (T (T E s b rr) y ay sy) Hr) as (Hy & _ & Hsy).
  set (m1 := <[y := mkNode (root_of rr) (root_of sy) (cparent_or (Some x) bs) ay]> m0).
  assert (set_child m0 y LEFT (root_of rr) = Some m1) as E1.
  { unfold set_child. rewrite H0, Hy by set_solver. done. }
  destruct (set_parent_opt_rep m1 (Some s) (Some y) rr) as (m2 & E2 & R2 & U2); [|done|].
  { eapply rep_ext; [|exact Hrr]. intros z Hz. unfold m1.
    rewrite lookup_insert_ne by set_solver. apply H0; set_solver. }
  assert (∀ z, z ∈ keys sy ++ ckeys bs → m2 !! z = m !! z) as H2.
  { intros z Hz. rewrite U2 by set_solver. unfold m1. rewrite lookup_insert_ne by set_solver.
    apply H0; set_solver. }
  assert (rep m2 (Some x) (plug bs (T rr y ay sy))) as Rp.
  { eapply rep_plug_replace; [exact Hr|intros; apply H2; set_solver|done|].
    intros p (Hy' & _ & _). rewrite Hy in Hy'. injection Hy' as <-. simpl. split_and!; [|done|].
    - rewrite U2 by set_solver. unfold m1. by rewrite lookup_insert_eq.
    - eapply rep_ext; [|exact Hsy]. intros; apply H2; set_solver. }
  set (r' := plug bs (T rr y ay sy)) in *.
  assert (m2 !! s = Some (mkNode lc (root_of rr) q b)) as Hs2.
  { rewrite U2 by set_solver. unfold m1. by rewrite lookup_insert_ne by set_solver. }
  set (m3 := <[s := mkNode lc (root_of r') q b]> m2).
  assert (set_child m2 s RIGHT (root_of r') = Some m3) as E3 by (unfold set_child; by rewrite Hs2).
  destruct (set_parent_opt_rep m3 (Some x) (Some s) r') as (m4 & E4 & R4 & U4).
  { eapply rep_ext; [|exact Rp]. intros z Hz. unfold m3. apply lookup_insert_ne.
    intros ->. rewrite Hk' in Hz. done. }
  { rewrite Hk'. done. }
  exists m1, m2, m3, m4. split_and!; [done..| |].
  - rewrite U4 by (rewrite Hk'; done). unfold m3. by rewrite lookup_insert_eq.
  - intros z Hz. rewrite Hk in Hz. rewrite U4 by (rewrite Hk'; set_solver). unfold m3.
    rewrite lookup_insert_ne by set_solver. rewrite U2 by set_solver. unfold m1.
    apply lookup_insert_ne. set_solver.
Qed.

Lemma replace_by_succ_rep m rt c l x a cr s b rr :
  let r := plug cr (T E s b rr) in
  crep m rt (Some x) c → rep m (cparent c) (T l x a r) →
  NoDup (keys (T l x a r) ++ ckeys c) → Forall (λ f, fr_dir f = LEFT) cr →
  ∃ m' rt',
    replace_by_succ m rt (cparent c) (cdir c) x
      (mkNode (root_of l) (root_of r) (cparent c) a) s =
      Some (m', rt', cparent_or (Some s) cr) ∧
    crep m' rt' (Some s) c ∧ rep m' (cparent c) (T l s b (plug cr rr)) ∧
    untouched (keys (T l x a r) ++ ckeys c) m m'.
Proof.
  intros r Hc (Hx & Hl & Hr) Hnd Hcr.
  assert (keys r ≡ₚ s :: keys rr ++ ckeys cr) as Hk by (unfold r; by rewrite keys_plug).
  rewrite keys_T in Hnd. apply NoDup_app in Hnd as (Hnt & Htc & Hnc).
  apply NoDup_app in Hnt as (Hnl & Hlr & [Hxr Hnr]%NoDup_cons).
  pose proof (rep_plug_sub _ _ _ _ Hr) as (Hs & _ & Hrr).
  assert (∀ z, z ∈ keys r → z ∉ keys l ++ ckeys c) as Hrd.
  { intros z Hz [Hz'|Hz']%elem_of_app; [apply (Hlr z Hz')|apply (Htc z)]; set_solver. }
  assert (s ∈ keys r) as Hsr by (rewrite Hk; set_solver).
  destruct (succ_takes_place m rt c l x s b (cparent_or (Some x) cr) (root_of rr))
    as (m2 & m3 & m4 & m5 & rt5 & E2 & E3 & E4 & E5 & C5 & L5 & S5 & U5); [done..| |].
  { apply NoDup_cons. split; [by apply Hrd|]. apply NoDup_app. split_and!; [done| |done].
    intros z Hz. apply Htc. set_solver. }
  unfold replace_by_succ. rewrite Hs. cbn [mbind option_bind parent].
  rewrite E2. cbn [mbind option_bind child child_l]. rewrite E3. cbn [mbind option_bind].
  rewrite E4. cbn [mbind option_bind]. rewrite E5. cbn [mbind option_bind].
  destruct cr as [|[d y ay sy] bs]; simpl cparent_or.
  - rewrite decide_True by done. exists m5, rt5. split_and!; [done..| |].
    + simpl. split_and!; [done..|]. eapply rep_untouched; [exact U5| |exact Hrr].
      intros z Hz. assert (z ∈ keys r) by (rewrite Hk; set_solver).
      rewrite elem_of_cons. intros [->|?]; [|by apply (Hrd z)].
      rewrite Hk in Hnr. apply NoDup_cons in Hnr. set_solver.
    + eapply untouched_weaken; [|exact U5]. rewrite keys_T. set_solver.
  - apply Forall_cons in Hcr as [Hd Hcr]. simpl in Hd. subst d.
    assert (y ∈ keys r) as Hyr by (rewrite Hk; simpl; set_solver).
    rewrite decide_False by (intros [= ->]; done). cbn [mbind option_bind].
    rewrite S5. cbn [mbind option_bind child child_r].
    destruct (right_subtree_moves m m5 x s b (cparent c) (root_of l)
      (Fr LEFT y ay sy :: bs) rr y ay sy bs) as (m6 & m7 & m8 & m9 & E6 & E7 & E8 & E9 & R9 & S9 & U9);
      [done..| |done|].
    { intros z Hz Hzs. apply U5. rewrite elem_of_cons. intros [->|?]; [done|]. by apply (Hrd z). }
    rewrite E6. cbn [mbind option_bind]. rewrite E7. cbn [mbind option_bind].
    fold r in E8, E9. rewrite E8. cbn [mbind option_bind]. rewrite E9. cbn [mbind option_bind].
    fold r in U9. exists m9, rt5. split_and!; [done..| | |].
    + eapply crep_untouched; [exact U9| |exact C5]. intros z Hz Hin. apply (Hrd z Hin). set_solver.
    + simpl. split_and!; [done| |done].
      eapply rep_untouched; [exact U9| |exact L5]. intros z Hz Hin. apply (Hrd z Hin). set_solver.
    + intros z Hz. rewrite keys_T in Hz. rewrite U9 by set_solver. apply U5. set_solver.
Qed.

(** ** The three cases of [remove], from the updated gaps to the end *)

Definition unlink_fixup m rt c x succ : option (vmem * ptr) :=
  '(m, rt, start) ← remove_unlink m rt (cparent c) (cdir c) x succ;
  fixup (fixup_fuel m) m rt start.

(** What the cases establish: the result represents the tree without [x]. *)
Definition unlinked (o : option (vmem * ptr)) lm h t0 m (ks : list loc) : Prop :=
  ∃ m' rt' t', o = Some (m', rt') ∧ vma_wf (mkVMATree m' lm h rt') t' ∧
    cores t' = cores t0 ∧ untouched ks m m'.

Lemma remove_no_right m rt c l x a lm h succ :
  crep m rt (Some x) c → rep m (cparent c) (T l x a E) → avl l → gaps_ok l →
  cbal c (1 + hgt l) → cpos c → cgaps c →
  is_list lm h (keys (plug c l)) → ranges_ok 0 (cores (plug c l)) →
  unlinked (unlink_fixup m rt c x succ) lm h (plug c l) m (keys (plug c l)).
Proof.
  intros Hc (Hx & Hl & _) Ha Hg Hb Hp Hcg HL Hok.
  assert (NoDup (keys l ++ ckeys c)) as Hnd.
  { rewrite <- keys_plug. by apply is_list_NoDup, NoDup_cons in HL as [_ ?]. }
  pose proof (avl_hgt_nonneg _ Ha) as H0.
  unfold unlink_fixup, remove_unlink. rewrite Hx. cbn [mbind option_bind child child_l child_r root_of].
  destruct (replace_by_child m rt c l x (Some x)) as (m2 & rt2 & m3 & E2 & E3 & C3 & R3 & U3); [done..|].
  rewrite E2. cbn [mbind option_bind]. rewrite E3. cbn [mbind option_bind].
  assert (untouched (keys (plug c l)) m m3) as U3'
    by (eapply untouched_weaken; [|exact U3]; by rewrite keys_plug).
  destruct l as [|ll y b lr]; simpl root_of in *.
  - destruct (fixup_parent_wf lm h m3 rt2 c E 1) as (m4 & rt4 & E4 & W4 & U4); [try done..|simpl; lia|done|done|done|].
    exists m4, rt4, (fixup_parent c E). split_and!; [done|done|apply fixup_parent_cores|].
    by eapply untouched_trans.
  - destruct Ha as (Hh & Hd & Hal & Har). simpl in H0.
    destruct (fixup_wf lm h m3 rt2 c (T ll y b lr) y (1 + height b)) as (m4 & rt4 & E4 & W4 & U4).
    all: try done.
    + simpl. split_and!; [done|done|lia|lia].
    + by apply avl_hpos.
    + lia.
    + rewrite rebalance_balanced, hgt_mkT by done. lia.
    + by destruct Hg as (_ & ? & ?).
    + exists m4, rt4, (fixup_tree c (T ll y b lr)). split_and!; [done|done|apply fixup_tree_cores|].
      by eapply untouched_trans.
Qed.

Lemma remove_right_leaf m rt c x a s b lm h :
  let r := T E s b E in
  crep m rt (Some x) c → rep m (cparent c) (T E x a r) → height b = 1 →
  cbal c 2 → cpos c → cgaps c →
  is_list lm h (keys (plug c r)) → ranges_ok 0 (cores (plug c r)) →
  unlinked (unlink_fixup m rt c x (Some s)) lm h (plug c r) m (keys (plug c r)).
Proof.
  intros r Hc (Hx & _ & Hr) Hb Hcb Hp Hcg HL Hok.
  assert (NoDup (keys r ++ ckeys c)) as Hnd.
  { rewrite <- keys_plug. by apply is_list_NoDup, NoDup_cons in HL as [_ ?]. }
  pose proof Hnd as (Hnr & Hd & Hnc)%NoDup_app.
  unfold unlink_fixup, remove_unlink. rewrite Hx. cbn [mbind option_bind child child_l child_r root_of].
  unfold r at 1 2. cbn [root_of].
  destruct (rep_set_parent m (Some x) (cparent c) r s) as (m2 & -> & R2 & U2); [done..|].
  cbn [mbind option_bind].
  assert (s ∈ keys r) as Hs by (unfold keys; set_solver).
  destruct (link_crep m2 rt (Some x) c (Some s)) as (m3 & rt3 & -> & C3 & U3); [|done|].
  { eapply crep_ext; [|exact Hc]. intros y Hy. apply U2. intros ->. by apply (Hd s). }
  cbn [mbind option_bind].
  destruct (fixup_wf lm h m3 rt3 c r s 2) as (m4 & rt4 & E4 & W4 & U4); try done.
  - eapply rep_untouched; [exact U3|done|done].
  - unfold r. simpl. split_and!; done || lia.
  - exists m4, rt4, (fixup_tree c r). split_and!; [done|done|apply fixup_tree_cores|].
    intros y Hy. rewrite U4 by done. rewrite keys_plug in Hy.
    rewrite U3 by set_solver. apply U2. set_solver.
Qed.

Lemma cbal_app c1 c2 k t :
  cavl c1 k → k = hgt t → cbal c2 (hgt (plug c1 t)) → cbal (c1 ++ c2) k.
Proof.
  revert k t. induction c1 as [|[d x a s] c1 IH]; intros k t; simpl; [by intros _ ->|].
  intros (Ha & Hb & Hs & Hc) -> Hc2. split_and!; [lia|lia|done|].
  apply (IH _ (bin d t x a s)); [done| |done]. by destruct d.
Qed.

Lemma remove_both_children m rt c l x a cr s b rr lm h :
  let r := plug cr (T E s b rr) in
  let t' := plug c (T l s b (plug cr rr)) in
  crep m rt (Some x) c → rep m (cparent c) (T l x a r) →
  NoDup (keys (T l x a r) ++ ckeys c) → Forall (λ f, fr_dir f = LEFT) cr → l ≠ E →
  avl l → avl r → -1 <= hgt r - hgt l <= 1 → gaps_ok l → gaps_ok rr → cgaps cr →
  cbal c (1 + Z.max (hgt l) (hgt r)) → cpos c → cgaps c →
  is_list lm h (keys t') → ranges_ok 0 (cores t') →
  unlinked (unlink_fixup m rt c x (Some s)) lm h t' m (keys (T l x a r) ++ ckeys c).
Proof.
  intros r t' Hc Hr Hnd Hcr Hl Hal Har Hd Hgl Hgr Hgc Hcb Hcp Hcg HL Hok.
  destruct (replace_by_succ_rep m rt c l x a cr s b rr) as (m2 & rt2 & E2 & C2 & R2 & U2); [done..|].
  unfold unlink_fixup, remove_unlink. pose proof Hr as (-> & _ & _).
  cbn [mbind option_bind child child_l child_r].
  assert (∃ lx, root_of l = Some lx) as [lx Elx] by (destruct l; [done|by eexists]).
  rewrite Elx in E2 |- *.
  assert (root_of r ≠ None) as Hrr by (by apply root_of_plug_nonempty).
  destruct (root_of r) as [w|] eqn:Ew; [|done]. unfold r in Ew. rewrite Ew in E2.
  cbn [mbind option_bind]. rewrite E2. cbn [mbind option_bind].
  pose proof Har as Har'. unfold r in Har'. apply avl_plug in Har' as [(Hhb & Hdb & _ & Harr) Hccr].
  pose proof (avl_hgt_nonneg _ Hal). pose proof (avl_hgt_nonneg _ Harr). simpl in Hhb, Hdb, Hccr.
  assert (∀ m4, untouched (keys t') m2 m4 → untouched (keys (T l x a r) ++ ckeys c) m m4) as Hu.
  { intros m4 U4. eapply untouched_trans; [exact U2|]. eapply untouched_weaken; [|exact U4].
    intros z. unfold t', r. rewrite keys_plug, !keys_T, !keys_plug, keys_T. set_solver. }
  destruct cr as [|[d y ay sy] bs]; simpl cparent_or.
  - simpl plug in *. simpl in Har, Hd, Hcb.
    destruct (fixup_wf lm h m2 rt2 c (T l s b rr) s (1 + Z.max (hgt l) (height b)))
      as (m4 & rt4 & E4 & W4 & U4); try done.
    + simpl. split_and!; [done|done|lia|lia].
    + simpl. split_and!; [lia|by apply avl_hpos..].
    + lia.
    + destruct (rebalance_avl l s b rr) as [_ [->|[? ->]]]; [done|done|lia|lia|lia].
    + exists m4, rt4, (fixup_tree c (T l s b rr)). split_and!; [done|done|apply fixup_tree_cores|auto].
  - set (cr := Fr d y ay sy :: bs) in *.
    set (C := cr ++ Fr RIGHT s b l :: c).
    assert (plug C rr = t') as HC by (unfold C; by rewrite plug_app).
    assert (crep m2 rt2 (root_of rr) C ∧ rep m2 (cparent C) rr) as [C3 R3].
    { apply rep_plug. rewrite HC. apply rep_plug. done. }
    assert (cavl cr (height b)) as Hccr' by done.
    destruct (fixup_parent_wf lm h m2 rt2 C rr (height b)) as (m4 & rt4 & E4 & W4 & U4); try done.
    + apply (cbal_app _ _ _ (T E s b rr)); [done|done|]. simpl cbal.
      change (hgt (plug bs (bin d (T E s b rr) y ay sy))) with (hgt r).
      split_and!; [lia|lia|done|]. by rewrite Z.max_comm.
    + unfold C, cpos. rewrite Forall_app, Forall_cons. simpl. split_and!; [|lia|by apply avl_hpos|done].
      apply (cavl_cpos cr (height b)); [lia|done].
    + lia.
    + lia.
    + unfold C, cgaps. rewrite Forall_app, Forall_cons. done.
    + by rewrite HC.
    + by rewrite HC.
    + change (cparent C) with (Some y) in E4. rewrite E4.
      exists m4, rt4, (fixup_parent C rr). split_and!; [done|done| |].
      * by rewrite fixup_parent_cores, HC.
      * apply Hu. by rewrite <- HC.
Qed.

Lemma avl_hgt_zero t : avl t → hgt t = 0 → t = E.
Proof.
  destruct t as [|l x a r]; [done|]. simpl. intros (-> & _ & Hl & Hr).
  pose proof (avl_hgt_nonneg _ Hl). pose proof (avl_hgt_nonneg _ Hr). lia.
Qed.

Lemma hgt_plug c t t' : hgt t = hgt t' → hgt (plug c t) = hgt (plug c t').
Proof.
  revert t t'. induction c as [|[d x a s] c IH]; intros t t' Ht; simpl; [done|].
  apply IH. by destruct d.
Qed.

Lemma hgt_plug_le c t : avl (plug c t) → hgt t <= hgt (plug c t) ∧ (c ≠ [] → hgt t < hgt (plug c t)).
Proof.
  revert t. induction c as [|[d x a s] c IH]; intros t; simpl; [done|].
  intros H. destruct (IH _ H) as [H1 _]. apply avl_plug in H as [H _].
  apply avl_bin in H as (Ha & _ & _ & _).
  assert (hgt (bin d t x a s) = height a) by (by destruct d). lia.
Qed.

(** The two cases with a right child together. *)
Lemma remove_right m rt c l x a cr s b rr lm h :
  let r := plug cr (T E s b rr) in
  let t' := plug c (T l s b (plug cr rr)) in
  crep m rt (Some x) c → rep m (cparent c) (T l x a r) →
  NoDup (keys (T l x a r) ++ ckeys c) → Forall (λ f, fr_dir f = LEFT) cr →
  avl l → avl r → -1 <= hgt r - hgt l <= 1 → gaps_ok l → gaps_ok rr → cgaps cr →
  cbal c (1 + Z.max (hgt l) (hgt r)) → cpos c → cgaps c →
  is_list lm h (keys t') → ranges_ok 0 (cores t') →
  unlinked (unlink_fixup m rt c x (Some s)) lm h t' m (keys (T l x a r) ++ ckeys c).
Proof.
  intros r t' Hc Hr Hnd Hcr Hal Har Hd Hgl Hgr Hgc Hcb Hcp Hcg HL Hok.
  destruct l as [|ll lx la lr]; [|by apply remove_both_children].
  simpl in Hd, Hcb. destruct (hgt_plug_le _ _ Har) as [H1 H2].
  pose proof Har as Har'. apply avl_plug in Har' as [(Hb & _ & _ & Hrr) _].
  pose proof (avl_hgt_nonneg _ Hrr). fold r in H1, H2. simpl in H1, H2, Hb.
  assert (cr = []) as -> by (destruct cr; [done|]; specialize (H2 ltac:(done)); lia).
  assert (rr = E) as -> by (apply avl_hgt_zero; [done|lia]).
  simpl in *.
  destruct (remove_right_leaf m rt c x a s b lm h) as (m' & rt' & t1 & E' & W' & Hc' & U'); try done.
  { by rewrite Hb in Hcb. }
  exists m', rt', t1. split_and!; [done..|]. eapply untouched_weaken; [|exact U'].
  intros z. unfold t', r. rewrite keys_plug, !keys_T. set_solver.
Qed.

Lemma leftmost_set_aux m par cr s b rr b' :
  let n := mkNode None (root_of rr) (cparent_or par cr) b' in
  NoDup (keys (plug cr (T E s b rr))) → rep m par (plug cr (T E s b rr)) →
  rep (<[s := n]> m) par (plug cr (T E s b' rr)).
Proof.
  intros n Hnd Hr. rewrite keys_plug in Hnd.
  pose proof (rep_plug_sub _ _ _ _ Hr) as (Hs & _ & _).
  apply NoDup_app in Hnd as (Hn1 & Hn2 & _). rewrite keys_T in Hn1, Hn2.
  apply NoDup_app in Hn1 as (_ & _ & [Hsr _]%NoDup_cons).
  eapply rep_plug_replace; [exact Hr| |done|].
  - intros y Hy. apply lookup_insert_ne. intros ->. apply (Hn2 y); set_solver.
  - intros p (Hs' & _ & Hrr). rewrite Hs in Hs'. injection Hs' as <-. simpl. split_and!; [|done|].
    + by rewrite lookup_insert_eq.
    + eapply rep_ext; [|exact Hrr]. intros y Hy. apply lookup_insert_ne. set_solver.
Qed.

(** ** [VMATree::remove] *)

Lemma ranges_ok_mid lo L x f e g R :
  ranges_ok lo (L ++ (x, (f, e, g)) :: R) →
  ranges_ok lo L ∧ end_of lo L <= f ∧ f <= e < 2 ^ 64 ∧ ranges_ok (e + 1) R ∧
  Forall (λ p, end_of lo L <= core_first p) R.
Proof.
  intros [H1 (H2 & H3 & _ & H4)]%ranges_ok_app. split_and!; [done|done|lia|lia|done|].
  eapply Forall_impl; [apply (ranges_ok_lower _ _ H4)|]. simpl. lia.
Qed.

(** The tree part of [remove], from the gap update to the end, on the focused
    node [x]. *)
Lemma remove_tree m rt c l x a r lm h g :
  let t := plug c (T l x a r) in
  let S := inorder r ++ cright c in
  let L := cores_of (cleft c ++ inorder l) in
  let succ := fst <$> head S in
  crep m rt (Some x) c → rep m (cparent c) (T l x a r) → NoDup (keys t) →
  avl t → gaps_ok t → ranges_ok 0 L → end_of 0 L = g → ranges_ok (last a + 1) (cores_of S) →
  Forall (λ p, g <= core_first p) (cores_of S) →
  is_list lm h (L.*1 ++ S.*1) →
  ∃ m1, match succ with
        | Some s => sn ← m !! s; set_prev_gap m s (first (aux sn) - g)
        | None => Some m
        end = Some m1 ∧
  ∃ m' rt' t', unlink_fixup m1 rt c x succ = Some (m', rt') ∧
    vma_wf (mkVMATree m' lm h rt') t' ∧
    ranges t' = (range_of <$> L) ++ (range_of <$> cores_of S) ∧
    untouched (keys t) m m'.
Proof.
  intros t S L succ Hc Hr Hnd Havl Hgaps HokL Hg HokS HgS HL. subst succ.
  unfold t in Havl, Hgaps. apply avl_plug in Havl as [(Hh & Hd & Hal & Har) Hcavl].
  apply gaps_ok_plug in Hgaps as [(_ & Hgl & Hgr) Hcg]. simpl in Hcavl. rewrite Hh in Hcavl.
  pose proof (avl_hgt_nonneg _ Hal). pose proof (avl_hgt_nonneg _ Har).
  assert (cpos c) as Hcp by (eapply cavl_cpos; [|exact Hcavl]; lia).
  apply cavl_cbal in Hcavl.
  assert (NoDup (keys (T l x a r) ++ ckeys c)) as Hnd' by (unfold t in Hnd; by rewrite keys_plug in Hnd).
  pose proof Hnd' as (Hnt & Htc & Hnc)%NoDup_app.
  assert (r = E ∨ r ≠ E) as [->|Hre] by (by destruct r; [left|right]).
  - change (head S) with (head (cright c)). destruct (regap_succ m rt (Some x) c (last a + 1) g) as
      (m1 & c1 & -> & C1 & PL & Hok1 & U1); [done..|].
    eexists; split; [done|].
    assert (cores (plug c1 l) = L ++ cores_of (cright c1)) as Hcs.
    { rewrite cores_sides, (pl_left _ _ PL). unfold L, cores, cores_of.
      by rewrite fmap_app, <- app_assoc. }
    assert ((cores_of (cright c1)).*1 = S.*1) as HS1.
    { pose proof (pl_ranges _ _ PL) as Hpr. apply (f_equal (fmap (fst ∘ fst))) in Hpr.
      unfold cores_of in *. rewrite <- !list_fmap_compose in *. exact Hpr. }
    destruct (remove_no_right m1 rt c1 l x a lm h (fst <$> head (cright c))) as (m' & rt' & t' & E' & W' & Hc' & U').
    + done.
    + rewrite (pl_parent _ _ PL). eapply rep_untouched; [exact U1| |exact Hr].
      intros y Hy Hin. by apply (Htc y).
    + done.
    + done.
    + apply (pl_bal _ _ PL). simpl in Hcavl. by rewrite Z.max_l in Hcavl by lia.
    + by apply (pl_pos _ _ PL).
    + by apply (pl_gaps _ _ PL).
    + by rewrite keys_cores, Hcs, fmap_app, HS1.
    + rewrite Hcs. apply ranges_ok_app. by rewrite Hg.
    + unfold unlink_fixup in *. rewrite (pl_parent _ _ PL), (pl_dir _ _ PL) in E'.
      exists m', rt', t'. split_and!; [done|done| |].
      * unfold ranges. rewrite Hc', Hcs, fmap_app. by rewrite (pl_ranges _ _ PL).
      * assert (ckeys c ⊆ keys t) by (unfold t; rewrite keys_plug; set_solver).
        intros y Hy. rewrite U'; [apply U1; set_solver|].
        unfold t in Hy. rewrite keys_plug, keys_T in Hy. rewrite keys_plug, (pl_keys _ _ PL).
        set_solver.
  - destruct (plug_leftmost r Hre) as (cr & s & b & rr & Er & Hcr & Hcl).
    set (b' := with_prev_gap b (first b - g)). set (r' := plug cr (T E s b' rr)).
    assert (inorder r = (s, b) :: inorder rr ++ cright cr) as Hir by (by rewrite Er, inorder_plug, Hcl).
    assert (inorder r' = (s, b') :: inorder rr ++ cright cr) as Hir' by (unfold r'; by rewrite inorder_plug, Hcl).
    assert (keys r' = keys r) as Hkr by (unfold keys; by rewrite Hir, Hir').
    destruct Hr as (Hx & Hrl & Hrr). pose proof Hrr as Hrr0.
    rewrite Er in Hrr0. pose proof (rep_plug_sub _ _ _ _ Hrr0) as (Hs & _ & _).
    assert (fst <$> head S = Some s) as -> by (unfold S; by rewrite Hir).
    rewrite Hs. cbn [mbind option_bind aux]. rewrite (set_prev_gap_lookup _ _ _ _ Hs).
    cbn [child_l child_r parent aux]. fold b'. set (m1 := <[s := _]> m).
    eexists; split; [done|].
    assert (s ∈ keys r) as Hsr by (unfold keys; rewrite Hir; set_solver).
    assert (∀ y, y ≠ s → m1 !! y = m !! y) as U1 by (intros y Hy; unfold m1; by apply lookup_insert_ne).
    rewrite keys_T in Hnt, Htc. apply NoDup_app in Hnt as (Hnl & Hlr & [Hxr Hnr]%NoDup_cons).
    assert (crep m1 rt (Some x) c) as C1.
    { eapply crep_ext; [|exact Hc]. intros y Hy. apply U1. intros ->. apply (Htc s); set_solver. }
    assert (rep m1 (cparent c) (T l x a r')) as R1.
    { assert (root_of r' = root_of r) as Hrr'.
      { unfold r'. rewrite Er. destruct cr; [done|]. apply root_of_plug_cons. }
      simpl. rewrite Hrr', U1 by (intros ->; done). split_and!; [done| |].
      - eapply rep_ext; [|exact Hrl]. intros y Hy. apply U1. intros ->. apply (Hlr s Hy). set_solver.
      - apply (leftmost_set_aux m (Some x) cr s b rr b'); [by rewrite <- Er|done]. }
    rewrite Er in Har, Hgr. apply gaps_ok_plug in Hgr as [(_ & _ & Hgr) Hgcr].
    pose proof Har as Har0. apply avl_plug in Har0 as [(Hb1 & Hb2 & _ & Hb3) Hb4].
    assert (avl r') as Har' by (apply avl_plug; done).
    assert (hgt r' = hgt r) as Hhr by (rewrite Er; by apply hgt_plug).
    assert (cores (plug c (T l s b' (plug cr rr))) = L ++ (s, core b') :: tail (cores_of S)) as Hcs.
    { rewrite cores_sides, cores_T. unfold L, S, cores, cores_of. rewrite Hir.
      rewrite inorder_plug, Hcl. cbn [app fmap list_fmap tail]. rewrite !fmap_app, <- !app_assoc.
      cbn [app]. by rewrite <- !app_assoc. }
    assert (cores_of S = (s, core b) :: tail (cores_of S)) as HS.
    { unfold S, cores_of. by rewrite Hir. }
    destruct (remove_right m1 rt c l x a cr s b' rr lm h)
      as (m' & rt' & t' & E' & W' & Hc' & U').
    all: try done.
    + rewrite keys_T. fold r'. rewrite Hkr. by rewrite keys_T in Hnd'.
    + fold r'. lia.
    + fold r'. by rewrite Hhr.
    + rewrite keys_cores, Hcs, fmap_app. replace (S.*1) with ((cores_of S).*1) in HL.
      * by rewrite HS in HL.
      * unfold cores_of. rewrite <- list_fmap_compose. by apply list_fmap_ext.
    + rewrite Hcs. apply ranges_ok_app. split; [done|]. rewrite Hg.
      rewrite HS in HokS, HgS. apply Forall_cons in HgS as [HgS _]. unfold core_first in HgS.
      simpl in *. tauto.
    + exists m', rt', t'. split_and!; [done|done| |].
      * unfold ranges. by rewrite Hc', Hcs, fmap_app, (f_equal (fmap range_of) HS).
      * intros y Hy. unfold t in Hy. rewrite keys_plug, keys_T in Hy. fold r' in U'.
        rewrite U'; [|rewrite keys_T, Hkr; done]. apply U1. set_solver.
Qed.

Lemma VMATree_remove_spec st t x :
  vma_wf st t → x ∈ keys t →
  ∃ st' t' R1 f e R2, VMATree_remove st x = Some st' ∧ vma_wf st' t' ∧
    m_list st' = m_list st ∧ ranges t = R1 ++ (x, f, e) :: R2 ∧ ranges t' = R1 ++ R2 ∧
    untouched (keys t) (nodes st) (nodes st') ∧
    frame_outside (lists st) (lists st') (m_list st :: keys t).
Proof.
  intros [Hrep Hrt HL Havl Hgaps Hok] Hx. destruct (plug_find t x Hx) as (c & l & a & r & Et).
  assert (NoDup (keys t)) as Hnd by (by apply is_list_NoDup, NoDup_cons in HL as [_ ?]).
  assert (crep (nodes st) (root st) (Some x) c ∧ rep (nodes st) (cparent c) (T l x a r)) as [Hc Hr].
  { apply (rep_plug (nodes st) (root st) c (T l x a r)). by rewrite <- Et. }
  set (P := cleft c ++ inorder l). set (S := inorder r ++ cright c).
  assert (inorder t = P ++ (x, a) :: S) as Hin.
  { rewrite Et, inorder_plug. unfold P, S. simpl. by rewrite <- !app_assoc. }
  assert (cores t = cores_of P ++ (x, core a) :: cores_of S) as Hcs.
  { unfold cores, cores_of. by rewrite Hin, fmap_app. }
  assert (keys t = P.*1 ++ x :: S.*1) as Hks by (unfold keys; by rewrite Hin, fmap_app).
  rewrite Hcs in Hok. apply ranges_ok_mid in Hok as (HokP & Hf & Hfe & HokS & HgS).
  rewrite Hks in HL. destruct (remove_neighbours _ _ _ _ _ HL) as [Hp Hn].
  destruct (remove_spec _ _ _ _ _ HL) as (lm' & Erm & HL' & Hfr).
  unfold VMATree_remove. pose proof Hr as (-> & _ & _). cbn [mbind option_bind parent].
  rewrite (side_of_crep (nodes st) (root st) x c); [|done|]; cycle 1.
  { rewrite Et, keys_plug, keys_T, <- Permutation_middle in Hnd. apply NoDup_app in Hnd as (Hn1 & Hn2 & Hn3).
    apply NoDup_cons. split; [apply Hn2; set_solver|done]. }
  cbn [mbind option_bind]. rewrite Hp, Hn. cbn [mbind option_bind].
  rewrite (regap_eq (nodes st) P S (last a + 1)); [|..|done|done|done]; cycle 1.
  { intros p b Hpb. apply (rep_inorder _ None t); [done|]. rewrite Hin. set_solver. }
  destruct (remove_tree (nodes st) (root st) c l x a r lm' (m_list st) (end_of 0 (cores_of P)))
    as (m1 & Em1 & m' & rt' & t' & E' & W' & Hrg & U').
  all: rewrite <- ?Et; try done.
  { fold P. fold S.
    replace ((cores_of P).*1) with (P.*1); [done|].
    unfold cores_of. rewrite <- list_fmap_compose. by apply list_fmap_ext. }
  fold S in Em1, E', Hrg. fold P in Hrg. rewrite Em1. cbn [mbind option_bind]. rewrite Erm. cbn [mbind option_bind].
  unfold unlink_fixup in E'. rewrite <- Et in U'.
  destruct (remove_unlink _ _ _ _ _ _) as [[[m2 rt2] start]|]; [|done].
  cbn [mbind option_bind] in E' |- *. rewrite E'. cbn [mbind option_bind].
  eexists _, t', (range_of <$> cores_of P), (first a), (last a), (range_of <$> cores_of S).
  split_and!; [done..| |done|done|by rewrite Hks].
  unfold ranges. by rewrite Hcs, fmap_app.
Qed.

(** C2. [VMATree::remove] of a node of the tree succeeds, keeps the invariant
    and removes exactly the range of that node. *)
Theorem VMATree_remove_correct st t x :
  vma_wf st t → x ∈ keys t →
  ∃ st' t' R1 f e R2, VMATree_remove st x = Some st' ∧ vma_wf st' t' ∧
    m_list st' = m_list st ∧ ranges t = R1 ++ (x, f, e) :: R2 ∧ ranges t' = R1 ++ R2 ∧
    untouched (keys t) (nodes st) (nodes st') ∧
    frame_outside (lists st) (lists st') (m_list st :: keys t).
Proof. apply VMATree_remove_spec. Qed.

End remove.
