(* ===== verification/VmaAdjust.v ===== *)
(** * The VMA tree: adjustment ([VMATree::adjust], [dsl/vmamodify.cc])

    After the bounds of one node were changed in place, [adjust] recomputes the
    gaps in front of it and of its successor and the biggest gaps above. *)

From S2P Require Import Prelude Align.
From S2P Require Export VmaRemove.

Section adjust.
Local Open Scope Z_scope.
Implicit Types (t l r : tree vma) (c : list (frame vma)) (a : vma) (m : vmem) (lm : lmem).

(** [propagate_up] computes [propagate_tree]. *)
Lemma propagate_up_rep c t x m rt fuel :
  root_of t = Some x → crep m rt (Some x) c → rep m (cparent c) t →
  NoDup (keys t ++ ckeys c) → (length c + 1 < fuel)%nat →
  ∃ m', propagate_up fuel m (Some x) = Some m' ∧
    rep m' None (propagate_tree c t) ∧ rt = root_of (propagate_tree c t) ∧
    untouched (keys t ++ ckeys c) m m'.
Proof.
  revert t x m fuel. induction c as [|[d y b s] c IH];
    intros [|l x' a r] x m fuel [= <-] Hc Hr Hnd Hf; (destruct fuel as [|fuel]; [lia|]);
    pose proof Hnd as (Hnt & Htc & _)%NoDup_app; cbn [propagate_up].
  - destruct (propagate_rep m None l x' a r Hr Hnt) as (m1 & -> & R1 & U1).
    cbn [mbind option_bind]. pose proof R1 as (-> & _ & _). cbn [mbind option_bind parent].
    destruct fuel as [|fuel]; [simpl in Hf; lia|]. exists m1. simpl in Hc. simpl. split_and!; [done|by apply R1..|done|].
    eapply untouched_weaken; [|exact U1]. rewrite keys_T. set_solver.
  - destruct (propagate_rep m (Some y) l x' a r Hr Hnt) as (m1 & -> & R1 & U1).
    cbn [mbind option_bind]. pose proof R1 as (-> & _ & _). cbn [mbind option_bind parent].
    assert (x' ∈ keys (T l x' a r)) as Hxk by (rewrite keys_T; set_solver).
    assert (crep m1 rt (Some x') (Fr d y b s :: c)) as (Hy & Hs & C1).
    { eapply crep_untouched; [exact U1| |exact Hc]. intros z Hz ->%list_elem_of_singleton.
      by apply (Htc x'). }
    assert (keys (bin d (mkT l x' a r) y b s) ++ ckeys c ≡ₚ keys (T l x' a r) ++ ckeys (Fr d y b s :: c)) as HK.
    { rewrite keys_bin. simpl. unfold mkT. rewrite !keys_T.
      by rewrite <- app_assoc, Permutation_middle. }
    destruct (IH (bin d (mkT l x' a r) y b s) y m1 fuel) as (m' & E' & R' & Ert & U').
    + apply root_of_bin.
    + done.
    + apply rep_bin. split_and!; done.
    + by rewrite HK.
    + simpl in Hf. lia.
    + exists m'. split_and!; [done|done|done|]. eapply untouched_trans.
      * eapply untouched_weaken; [|exact U1]. set_solver.
      * eapply untouched_weaken; [|exact U']. by rewrite HK.
Qed.

(** *** What propagation preserves and restores *)

Definition reup t : tree vma := match t with E => E | T l x a r => mkT l x a r end.

Lemma propagate_tree_cons d x a s c t :
  propagate_tree (Fr d x a s :: c) t = propagate_tree c (bin d (reup t) x a s).
Proof. done. Qed.

Lemma reup_cores t : cores (reup t) = cores t.
Proof. destruct t; [done|]. unfold reup. by rewrite cores_mkT, cores_T. Qed.

Lemma propagate_tree_cores c t : cores (propagate_tree c t) = cores (plug c t).
Proof.
  revert t. induction c as [|[d x a s] c IH]; intros t; [apply reup_cores|].
  rewrite propagate_tree_cons, IH. simpl plug. apply cores_plug_ext, cores_bin_ext, reup_cores.
Qed.

Lemma propagate_tree_gaps c t : children_gaps t → cgaps c → gaps_ok (propagate_tree c t).
Proof.
  revert t. induction c as [|[d x a s] c IH]; intros t Ht Hc.
  - destruct t; [done|]. destruct Ht. by apply gaps_mkT.
  - rewrite propagate_tree_cons. apply Forall_cons in Hc as [Hs Hc]. apply IH; [|done].
    assert (gaps_ok (reup t)) by (destruct t; [done|]; destruct Ht; by apply gaps_mkT).
    by destruct d.
Qed.

Lemma reup_avl t : avl t → avl (reup t) ∧ hgt (reup t) = hgt t.
Proof.
  destruct t as [|l x a r]; [done|]. intros (Ha & Hb & Hl & Hr). unfold reup.
  rewrite hgt_mkT. split; [by apply avl_mkT|done].
Qed.

Lemma propagate_tree_avl c t : avl t → cavl c (hgt t) → avl (propagate_tree c t).
Proof.
  revert t. induction c as [|[d x a s] c IH]; intros t Ht Hc.
  - by apply reup_avl.
  - rewrite propagate_tree_cons. destruct (reup_avl t Ht) as [Ht' Hh].
    destruct Hc as (Ha & Hb & Hs & Hc).
    assert (avl (bin d (reup t) x a s)) as Hbin.
    { apply avl_bin. rewrite Hh. split_and!; done || lia. }
    apply IH; [done|]. replace (hgt (bin d (reup t) x a s)) with (height a) by (by destruct d).
    by rewrite Ha.
Qed.

Lemma cavl_heights c k f : cavl c k → f ∈ c → k < height (fr_aux f).
Proof.
  revert k. induction c as [|[d x a s] c IH]; intros k; [set_solver|]. simpl.
  intros (Ha & _ & _ & Hc) [->|Hf]%elem_of_cons; [simpl; lia|].
  specialize (IH _ Hc Hf). lia.
Qed.

(** ** The operation *)

(** The caller has stored new bounds in the node. *)
Definition set_bounds (f e : Z) a : vma := mkVma f e (height a) (prev_gap a) (biggest_gap a).

Definition resize (st : VMATree) (x : loc) (f e : Z) : option VMATree :=
  n ← nodes st !! x;
  m ← set_aux (nodes st) x (set_bounds f e (aux n));
  Some (mkVMATree m (lists st) (m_list st) (root st)).

Lemma crep_frame m rt hole c f :
  crep m rt hole c → f ∈ c → ∃ n, m !! fr_key f = Some n ∧ aux n = fr_aux f.
Proof.
  revert hole. induction c as [|[d x a s] c IH]; intros hole; [set_solver|]. simpl.
  intros (Hx & _ & Hc) [->|Hf]%elem_of_cons; [|eauto].
  simpl. rewrite Hx. eexists; split; [done|]. apply aux_mk.
Qed.

(** The second half of [adjust] on the memory [m] with updated gaps. *)
Definition adjust_rest m (x : loc) (succ : ptr) : option vmem :=
  n ← m !! x;
  start ← match succ with
          | Some s => sn ← m !! s;
              Some (if decide (height (aux sn) < height (aux n)) then s else x)
          | None => Some x
          end;
  propagate_up (fixup_fuel m) m (Some start).

Lemma adjust_rest_bind {B} m x succ (k : vmem → option B) :
  (n ← m !! x;
   start ← match succ with
           | Some s => sn ← m !! s;
               Some (if decide (height (aux sn) < height (aux n)) then s else x)
           | None => Some x
           end;
   m' ← propagate_up (fixup_fuel m) m (Some start);
   k m') = adjust_rest m x succ ≫= k.
Proof.
  unfold adjust_rest. destruct (m !! x); [|done]. simpl.
  destruct succ as [s|]; [|done]. simpl. by destruct (m !! s).
Qed.

(** What it establishes. *)
Definition adjusted m m1 rt (x : loc) (succ : ptr) t : Prop :=
  ∃ m' t', adjust_rest m1 x succ = Some m' ∧ rep m' None t' ∧ rt = root_of t' ∧ avl t' ∧
    gaps_ok t' ∧ ranges_ok 0 (cores t') ∧ ranges t' = ranges t ∧ untouched (keys t) m m'.

(** [propagate_up] from a node in focus, with the fuel of the operation. *)
Lemma propagate_up_fuel c t x m rt :
  root_of t = Some x → crep m rt (Some x) c → rep m (cparent c) t → NoDup (keys t ++ ckeys c) →
  avl t → cavl c (hgt t) → children_gaps t → cgaps c → 
  ∃ m' t', propagate_up (fixup_fuel m) m (Some x) = Some m' ∧ rep m' None t' ∧ rt = root_of t' ∧
    avl t' ∧ gaps_ok t' ∧ cores t' = cores (plug c t) ∧ untouched (keys (plug c t)) m m'.
Proof.
  intros Ht Hc Hr Hnd Ha Hca Hg Hcg.
  pose proof (crep_size m rt (Some x) c Hc) as Hs. pose proof Hnd as (_ & _ & Hnc)%NoDup_app.
  destruct (propagate_up_rep c t x m rt (fixup_fuel m)) as (m' & E' & R' & Ert & U');
    [done..|specialize (Hs Hnc); unfold fixup_fuel; lia|].
  exists m', (propagate_tree c t). split_and!; [done|done|done| | | |].
  - by apply propagate_tree_avl.
  - by apply propagate_tree_gaps.
  - apply propagate_tree_cores.
  - eapply untouched_weaken; [|exact U']. by rewrite keys_plug.
Qed.

Lemma adjust_no_right m rt c l x a g :
  let t := plug c (T l x a E) in
  let L := cores_of (cleft c ++ inorder l) in
  let succ := fst <$> head (cright c) in
  crep m rt (Some x) c → rep m (cparent c) (T l x a E) → NoDup (keys t) →
  avl t → gaps_ok l → cgaps c → ranges_ok 0 (L ++ [(x, core a)]) →
  ranges_ok g (cores_of (cright c)) →
  Forall (λ p, last a + 1 <= core_first p) (cores_of (cright c)) →
  ∃ m1, match succ with
        | Some s => sn ← m !! s; set_prev_gap m s (first (aux sn) - (last a + 1))
        | None => Some m
        end = Some m1 ∧ adjusted m m1 rt x succ t.
Proof.
  intros t L succ Hc Hr Hnd Havl Hgl Hcg HokL HokS HgS. subst succ.
  assert (NoDup (keys (T l x a E) ++ ckeys c)) as Hnd' by (unfold t in Hnd; by rewrite keys_plug in Hnd).
  pose proof Hnd' as (Hnt & Htc & Hnc)%NoDup_app.
  pose proof Havl as Havl'. apply avl_plug in Havl' as [Ha Hcavl]. simpl in Hcavl.
  assert (0 <= height a) by apply (avl_hgt_nonneg _ Ha).
  destruct (regap_succ m rt (Some x) c g (last a + 1)) as (m1 & c1 & -> & C1 & PL & Hok1 & U1);
    [done|done|by eapply cavl_cpos|done|done|].
  eexists; split; [done|]. apply (pl_avl _ _ PL) in Hcavl.
  assert (rep m1 (cparent c) (T l x a E)) as R1.
  { eapply rep_untouched; [exact U1| |exact Hr]. intros y Hy Hin. by apply (Htc y). }
  destruct (propagate_up_fuel c1 (T l x a E) x m1 rt) as (m' & t' & E' & R' & Ert & A' & G' & Cs & U').
  all: try done.
  - by rewrite (pl_parent _ _ PL).
  - by rewrite (pl_keys _ _ PL).
  - by apply (pl_gaps _ _ PL).
  - assert (cores (plug c1 (T l x a E)) = (L ++ [(x, core a)]) ++ cores_of (cright c1)) as Hcs.
    { rewrite cores_sides, (pl_left _ _ PL), cores_T. unfold L, cores, cores_of.
      rewrite fmap_app, <- !app_assoc. done. }
    exists m', t'. split_and!; [|done..| | |].
    + unfold adjust_rest. pose proof R1 as (-> & _ & _). cbn [mbind option_bind aux].
      assert (fst <$> head (cright c) = fst <$> head (cright c1)) as ->.
      { pose proof (pl_ranges _ _ PL) as Hp. unfold cores_of in Hp.
        destruct (cright c) as [|[]], (cright c1) as [|[]]; simplify_eq/=; done. }
      destruct (head (cright c1)) as [[s b]|] eqn:Eh; simpl; [|done].
      destruct (cright_head c1 s b Eh) as (d1 & o & d2 & Ec & _ & _).
      destruct (crep_frame m1 rt (Some x) c1 (Fr LEFT s b o)) as (sn & Esn & Hsn);
        [done|rewrite Ec; set_solver|].
      simpl in Esn. rewrite Esn. simpl. pose proof (cavl_heights c1 (height a) (Fr LEFT s b o) Hcavl ltac:(rewrite Ec; set_solver)).
      rewrite Hsn. simpl in *. rewrite decide_False by lia. done.
    + rewrite Cs, Hcs. apply ranges_ok_app. split; [done|]. by rewrite end_of_app.
    + unfold ranges, t. rewrite Cs, Hcs, cores_sides, cores_T.
      pose proof (pl_ranges _ _ PL) as Hp.
      rewrite !fmap_app, Hp. unfold L, cores, cores_of. rewrite !fmap_app, <- !app_assoc. done.
    + intros y Hy. unfold t in Hy. rewrite keys_plug in Hy.
      rewrite U' by (rewrite keys_plug, (pl_keys _ _ PL); done). apply U1. set_solver.
Qed.

Lemma adjust_right m rt c l x a cr s b rr g :
  let r := plug cr (T E s b rr) in
  let t := plug c (T l x a r) in
  let L := cores_of (cleft c ++ inorder l) in
  let S := inorder r ++ cright c in
  cleft cr = [] →
  crep m rt (Some x) c → rep m (cparent c) (T l x a r) → NoDup (keys t) →
  avl t → gaps_ok l → gaps_ok r → cgaps c → ranges_ok 0 (L ++ [(x, core a)]) →
  ranges_ok g (cores_of S) → Forall (λ p, last a + 1 <= core_first p) (cores_of S) →
  ∃ m1, (sn ← m !! s; set_prev_gap m s (first (aux sn) - (last a + 1))) = Some m1 ∧
    adjusted m m1 rt x (Some s) t.
Proof.
  intros r t L S Hcl Hc Hr Hnd Havl Hgl Hgr Hcg HokL HokS HgS.
  set (b' := with_prev_gap b (first b - (last a + 1))). set (r' := plug cr (T E s b' rr)).
  assert (inorder r = (s, b) :: inorder rr ++ cright cr) as Hir by (unfold r; by rewrite inorder_plug, Hcl).
  assert (inorder r' = (s, b') :: inorder rr ++ cright cr) as Hir' by (unfold r'; by rewrite inorder_plug, Hcl).
  assert (keys r' = keys r) as Hkr by (unfold keys; by rewrite Hir, Hir').
  assert (s ∈ keys r) as Hsr by (unfold keys; rewrite Hir; set_solver).
  assert (NoDup (keys (T l x a r) ++ ckeys c)) as Hnd' by (unfold t in Hnd; by rewrite keys_plug in Hnd).
  rewrite keys_T in Hnd'. pose proof Hnd' as (Hnt & Htc & Hnc)%NoDup_app.
  apply NoDup_app in Hnt as (Hnl & Hlr & [Hxr Hnr]%NoDup_cons).
  destruct Hr as (Hx & Hrl & Hrr). pose proof (rep_plug_sub _ _ _ _ Hrr) as (Hs & _ & _).
  rewrite Hs. cbn [mbind option_bind aux]. rewrite (set_prev_gap_lookup _ _ _ _ Hs).
  cbn [child_l child_r parent aux]. fold b'. set (m1 := <[s := _]> m). exists m1. split; [done|].
  assert (∀ y, y ≠ s → m1 !! y = m !! y) as U1 by (intros y Hy; unfold m1; by apply lookup_insert_ne).
  assert (crep m1 rt (Some x) c) as C1.
  { eapply crep_ext; [|exact Hc]. intros y Hy. apply U1. intros ->. apply (Htc s); set_solver. }
  assert (rep m1 (cparent c) (T l x a r')) as R1.
  { assert (root_of r' = root_of r) as Hrr'.
    { unfold r', r. destruct cr; [done|]. apply root_of_plug_cons. }
    simpl. rewrite Hrr', U1 by (intros ->; done). split_and!; [done| |].
    - eapply rep_ext; [|exact Hrl]. intros y Hy. apply U1. intros ->. apply (Hlr s Hy). set_solver.
    - by apply (leftmost_set_aux m (Some x) cr s b rr b'). }
  set (C := cr ++ Fr RIGHT x a l :: c).
  assert (∀ u, plug C u = plug c (T l x a (plug cr u))) as HC by (intros u; unfold C; by rewrite plug_app).
  assert (crep m1 rt (Some s) C ∧ rep m1 (cparent C) (T E s b' rr)) as [C2 R2].
  { apply (rep_plug m1 rt C (T E s b' rr)). rewrite HC. by apply (rep_plug m1 rt c). }
  pose proof Havl as Havl'. unfold t, r in Havl'. rewrite <- HC in Havl'.
  apply avl_plug in Havl' as [Hbavl HCavl].
  apply gaps_ok_plug in Hgr as [(_ & _ & Hgrr) Hgcr].
  assert (inorder t = (cleft c ++ inorder l) ++ (x, a) :: S) as Hit.
  { unfold t, S. rewrite inorder_plug. simpl. by rewrite <- !app_assoc. }
  assert (cores (plug C (T E s b' rr)) = (L ++ [(x, core a)]) ++ (s, core b') :: tail (cores_of S)) as Hcs.
  { rewrite HC. fold r'. unfold L, S, cores, cores_of. rewrite Hir, inorder_plug. simpl inorder.
    rewrite Hir'. rewrite !fmap_app, <- !app_assoc. simpl. by rewrite !fmap_app. }
  assert (cores_of S = (s, core b) :: tail (cores_of S)) as HS by (unfold S, cores_of; by rewrite Hir).
  assert (keys (plug C (T E s b' rr)) = keys t) as HkC.
  { rewrite HC. unfold t. rewrite !keys_sides, !keys_T. fold r'. by rewrite Hkr. }
  destruct (propagate_up_fuel C (T E s b' rr) s m1 rt) as (m' & t' & E' & R' & Ert & A' & G' & Cs & U').
  all: try done.
  - rewrite <- keys_plug, HkC. done.
  - unfold C, cgaps. rewrite Forall_app, Forall_cons. done.
  - exists m', t'. split_and!; [|done..| | |].
    + unfold adjust_rest. pose proof R1 as (-> & _ & _). cbn [mbind option_bind aux].
      assert (m1 !! s = Some (mkNode None (root_of rr) (cparent_or (Some x) cr) b')) as ->
        by (unfold m1; by rewrite lookup_insert_eq).
      cbn [mbind option_bind aux].
      rewrite decide_True; [done|].
      unfold C in HCavl. pose proof (cavl_heights _ _ (Fr RIGHT x a l) HCavl ltac:(set_solver)).
      done.
    + rewrite Cs, Hcs. apply ranges_ok_app. split; [done|]. rewrite end_of_app. simpl.
      rewrite HS in HokS, HgS. apply Forall_cons in HgS as [HgS _]. unfold core_first in HgS.
      simpl in *. tauto.
    + unfold ranges. rewrite Cs, Hcs. unfold cores. rewrite Hit. unfold cores_of at 2.
      rewrite (fmap_app _ (cleft c ++ inorder l)), fmap_cons.
      fold (cores_of (cleft c ++ inorder l)). fold (cores_of S). fold L.
      rewrite !fmap_app, !fmap_cons, (f_equal (fmap range_of) HS), <- app_assoc. done.
    + intros y Hy. rewrite U' by (rewrite HkC; done). apply U1. intros ->. apply Hy.
      rewrite <- HkC, keys_plug, keys_T. set_solver.
Qed.

Lemma pivot_unique {A} (k : A → loc) (l1 l2 k1 k2 : list A) p q :
  l1 ++ p :: l2 = k1 ++ q :: k2 → k p = k q → NoDup (k <$> l1 ++ p :: l2) →
  l1 = k1 ∧ p = q ∧ l2 = k2.
Proof.
  revert k1. induction l1 as [|y l1 IH]; intros [|z k1] He Hk Hnd; simplify_eq/=; [done|..].
  - apply NoDup_cons in Hnd as [Hn _]. exfalso. apply Hn. rewrite Hk, fmap_app. set_solver.
  - apply NoDup_cons in Hnd as [Hn _]. exfalso. apply Hn. rewrite <- Hk, fmap_app. set_solver.
  - apply NoDup_cons in Hnd as [_ Hnd]. destruct (IH k1) as (-> & -> & ->); done.
Qed.

(** Both cases of [adjust] after the gap in front of [x] is updated. *)
Lemma adjust_any m rt c l x a r g :
  let t := plug c (T l x a r) in
  let L := cores_of (cleft c ++ inorder l) in
  let S := inorder r ++ cright c in
  crep m rt (Some x) c → rep m (cparent c) (T l x a r) → NoDup (keys t) →
  avl t → gaps_ok l → gaps_ok r → cgaps c → ranges_ok 0 (L ++ [(x, core a)]) →
  ranges_ok g (cores_of S) → Forall (λ p, last a + 1 <= core_first p) (cores_of S) →
  ∃ m1, match fst <$> head S with
        | Some s => sn ← m !! s; set_prev_gap m s (first (aux sn) - (last a + 1))
        | None => Some m
        end = Some m1 ∧ adjusted m m1 rt x (fst <$> head S) t.
Proof.
  intros t L S ?????????. assert (r = E ∨ r ≠ E) as [->|Hre] by (by destruct r; [left|right]).
  - by apply (adjust_no_right m rt c l x a g).
  - destruct (plug_leftmost r Hre) as (cr & s & b & rr & -> & _ & Hcl).
    assert (fst <$> head S = Some s) as -> by (unfold S; by rewrite inorder_plug, Hcl).
    by apply (adjust_right m rt c l x a cr s b rr g).
Qed.

(** The memory after the caller stored the bounds and [adjust] updated the gap
    in front of [x], seen from [x]. *)
Lemma refocus m rt c l x a r b :
  let m' := <[x := mkNode (root_of l) (root_of r) (cparent c) b]> m in
  height b = height a → crep m rt (Some x) c → rep m (cparent c) (T l x a r) →
  NoDup (keys (plug c (T l x a r))) → avl (plug c (T l x a r)) →
  crep m' rt (Some x) c ∧ rep m' (cparent c) (T l x b r) ∧
  keys (plug c (T l x b r)) = keys (plug c (T l x a r)) ∧ avl (plug c (T l x b r)).
Proof.
  intros m' Hb Hc (Hx & Hl & Hr) Hnd Hav. rewrite keys_plug, keys_T in Hnd.
  apply NoDup_app in Hnd as (Hnt & Htc & _).
  apply NoDup_app in Hnt as (_ & Hlr & [Hxr _]%NoDup_cons).
  assert (∀ y, y ≠ x → m' !! y = m !! y) as U by (intros y Hy; by apply lookup_insert_ne).
  split_and!.
  - eapply crep_ext; [|exact Hc]. intros y Hy. apply U. intros ->. apply (Htc x); set_solver.
  - simpl. split_and!; [unfold m'; by rewrite lookup_insert_eq| |];
      (eapply rep_ext; [|done]); intros y Hy; apply U; intros ->; [apply (Hlr x Hy); set_solver|done].
  - by rewrite !keys_sides, !keys_T.
  - apply avl_plug. apply avl_plug in Hav. simpl in *. by rewrite Hb.
Qed.

(** [adjust] on the focused node [x] with the new bounds [f, e]. *)
Lemma adjust_focus st c l x a r f e :
  let t := plug c (T l x a r) in
  let P := cleft c ++ inorder l in
  let S := inorder r ++ cright c in
  vma_wf st t → end_of 0 (cores_of P) <= f → 0 <= f <= e → e < 2 ^ 64 →
  Forall (λ p, e + 1 <= core_first p) (cores_of S) →
  ∃ st1, resize st x f e = Some st1 ∧ ∃ st' t', VMATree_adjust st1 x = Some st' ∧
    vma_wf st' t' ∧ ranges t' = (range_of <$> cores_of P) ++ (x, f, e) :: (range_of <$> cores_of S) ∧
    untouched (keys t) (nodes st) (nodes st').
Proof.
  intros t P S [Hrep Hrt HL Havl Hgaps Hok] Hend Hf He HgS.
  assert (NoDup (keys t)) as Hnd by (by apply is_list_NoDup, NoDup_cons in HL as [_ ?]).
  assert (crep (nodes st) (root st) (Some x) c ∧ rep (nodes st) (cparent c) (T l x a r)) as [Hc Hr]
    by (by apply (rep_plug (nodes st) (root st) c (T l x a r))).
  assert (∀ b, inorder (plug c (T l x b r)) = P ++ (x, b) :: S) as Hin.
  { intros b. rewrite inorder_plug. unfold P, S. simpl. by rewrite <- !app_assoc. }
  assert (∀ b, cores (plug c (T l x b r)) = cores_of P ++ (x, core b) :: cores_of S) as Hcs.
  { intros b. unfold cores, cores_of. by rewrite Hin, fmap_app. }
  unfold t in Hok. rewrite Hcs in Hok.
  apply ranges_ok_mid in Hok as Hm. destruct Hm as (HokP & Hfa & Hfe & HokS & _).
  apply gaps_ok_plug in Hgaps as [(_ & Hgl & Hgr) Hcg].
  set (a1 := set_bounds f e a). set (a2 := with_prev_gap a1 (f - end_of 0 (cores_of P))).
  set (nd := λ b : vma, mkNode (root_of l) (root_of r) (cparent c) b).
  exists (mkVMATree (<[x := nd a1]> (nodes st)) (lists st) (m_list st) (root st)). split.
  { unfold resize, set_aux. destruct Hr as (-> & _ & _). done. }
  unfold VMATree_adjust. cbn [nodes lists m_list root].
  assert (is_list (lists st) (m_list st) (P.*1 ++ x :: S.*1)) as HLP.
  { revert HL. unfold t, keys. by rewrite Hin, fmap_app. }
  destruct (remove_neighbours _ _ _ _ _ HLP) as [-> ->]. cbn [mbind option_bind].
  destruct (refocus (nodes st) (root st) c l x a r a1) as (C1 & T1 & K1 & A1); [done..|].
  destruct (refocus (nodes st) (root st) c l x a r a2) as (C2 & T2 & K2 & A2); [done..|].
  fold (nd a1) in C1, T1. fold (nd a2) in C2, T2.
  assert (∀ b p q, rep (<[x := nd b]> (nodes st)) (cparent c) (T l x b r) →
    crep (<[x := nd b]> (nodes st)) (root st) (Some x) c →
    (p, q) ∈ P ++ (x, b) :: S → ∃ n, <[x := nd b]> (nodes st) !! p = Some n ∧ aux n = q) as Hlook.
  { intros b p q HT HC Hpq. apply (rep_inorder _ None (plug c (T l x b r))).
    - by apply (rep_plug _ (root st)).
    - by rewrite Hin. }
  replace (regap (<[x := nd a1]> (nodes st)) (fst <$> list.last P) (Some x))
    with (Some (<[x := nd a2]> (nodes st))); cycle 1.
  { symmetry. etrans; [apply (regap_eq _ P [(x, a1)] (f - prev_gap a))|].
    - intros p q Hpq. apply Hlook; [done..|]. set_solver.
    - done.
    - apply ranges_ok_app in Hok as [_ (_ & _ & Hg & _)]. simpl. split_and!; try done; lia.
    - repeat constructor. unfold core_first. simpl. lia.
    - cbn [head fmap option_fmap option_map fst]. rewrite lookup_insert_eq. cbn [mbind option_bind].
      rewrite (set_prev_gap_lookup _ _ (nd a1)) by apply lookup_insert_eq.
      by rewrite insert_insert_eq. }
  cbn [mbind option_bind]. set (m2 := <[x := nd a2]> (nodes st)) in *.
  assert (cores_of (P ++ [(x, a2)]) = cores_of P ++ [(x, core a2)]) as HcP
    by (unfold cores_of; by rewrite fmap_app).
  assert (ranges_ok 0 (cores_of P ++ [(x, core a2)])) as HokP2.
  { apply ranges_ok_app. split; [done|]. simpl. split_and!; done || lia. }
  destruct (adjust_any m2 (root st) c l x a2 r (last a + 1)) as (m3 & E3 & m4 & t4 & E4 & R4 & Ert & A4 & G4 & O4 & Hr4 & U4);
    [done|done|by rewrite K2|done..|].
  replace (regap m2 (Some x) (fst <$> head S)) with (Some m3); cycle 1.
  { symmetry. rewrite <- E3. fold S.
    replace (Some x) with (fst <$> list.last (P ++ [(x, a2)])) by (by rewrite last_snoc).
    rewrite (regap_eq m2 (P ++ [(x, a2)]) S (last a + 1)).
    - by rewrite HcP, end_of_app.
    - intros p q Hpq. apply Hlook; [done..|]. rewrite <- app_assoc in Hpq. done.
    - by rewrite HcP.
    - done.
    - by rewrite HcP, end_of_app. }
  cbn [mbind option_bind]. fold S in E4.
  rewrite (adjust_rest_bind m3 x (fst <$> head S)), E4. cbn [mbind option_bind].
  eexists _, t4. split; [done|]. split_and!.
  - split; simpl; try done.
    assert (keys t4 = (fst ∘ fst) <$> ranges t4) as ->.
    { rewrite keys_cores. unfold ranges. rewrite <- list_fmap_compose. by apply list_fmap_ext. }
    rewrite Hr4. unfold ranges. rewrite <- list_fmap_compose, Hcs, fmap_app.
    unfold cores_of. rewrite <- !list_fmap_compose, fmap_cons, <- list_fmap_compose. exact HLP.
  - rewrite Hr4. unfold ranges. by rewrite Hcs, fmap_app.
  - intros y Hy. simpl. rewrite U4 by (by rewrite K2). unfold m2. apply lookup_insert_ne.
    intros ->. apply Hy. unfold t. rewrite keys_plug, keys_T. set_solver.
Qed.

(** C8. Growing or shrinking a range within the free space around it and
    calling [VMATree::adjust] restores the invariant; only that range
    changes. *)
Theorem VMATree_adjust_correct st t x R1 f0 e0 R2 f e :
  vma_wf st t → ranges t = R1 ++ (x, f0, e0) :: R2 →
  0 <= f <= e → e < 2 ^ 64 →
  Forall (λ '(_, _, e'), e' < f) R1 → Forall (λ '(_, f', _), e < f') R2 →
  ∃ st1, resize st x f e = Some st1 ∧ ∃ st' t', VMATree_adjust st1 x = Some st' ∧
    vma_wf st' t' ∧ ranges t' = R1 ++ (x, f, e) :: R2 ∧
    untouched (keys t) (nodes st) (nodes st').
Proof.
  intros Hwf Hrg Hf He HR1 HR2.
  assert (keys t = (fst ∘ fst) <$> ranges t) as Hkr.
  { rewrite keys_cores. unfold ranges. rewrite <- list_fmap_compose. by apply list_fmap_ext. }
  assert (x ∈ keys t) as Hx by (rewrite Hkr, Hrg, fmap_app; set_solver).
  assert (NoDup (keys t)) as Hnd by (by destruct Hwf as [_ _ [_ ?]%is_list_NoDup%NoDup_cons _ _ _]).
  destruct (plug_find t x Hx) as (c & l & a & r & ->).
  set (P := cleft c ++ inorder l). set (S := inorder r ++ cright c).
  assert (ranges (plug c (T l x a r)) =
    (range_of <$> cores_of P) ++ (x, first a, last a) :: (range_of <$> cores_of S)) as Hr.
  { unfold ranges. rewrite cores_sides, cores_T. unfold P, S, cores, cores_of.
    rewrite !fmap_app, fmap_cons, <- !app_assoc. done. }
  rewrite Hkr, Hr in Hnd. rewrite Hr in Hrg.
  destruct (pivot_unique (fst ∘ fst) _ _ _ _ _ _ Hrg) as (<- & _ & <-); [done|done|].
  rewrite Forall_fmap in HR1, HR2.
  apply adjust_focus; [done| |done|done|].
  - fold P. destruct (list.last (cores_of P)) as [p|] eqn:El; cycle 1.
    { apply last_None in El as ->. simpl. lia. }
    rewrite (end_of_last _ _ _ El). apply last_Some in El as [L' El].
    rewrite El, Forall_app, Forall_singleton in HR1. destruct p as [? [[]]].
    unfold core_last. simpl in *. lia.
  - eapply Forall_impl; [exact HR2|]. intros [? [[]]]. unfold core_first. simpl. lia.
Qed.

End adjust.
