(* ===== verification/VmaFind.v ===== *)
(** * The VMA tree: lookups ([dsl/vmafind.cc])

    [find], [find_above] and [find_below] descend from the root;
    [find_free_bottomup] and [find_free_topdown] walk the tree with explicit
    gotos, which are the constructors of [pos]. *)

From S2P Require Import Prelude Align.
From S2P Require Export VmaAdjust.

Section find_defs.
Local Open Scope Z_scope.

(** ** Point lookups *)

Fixpoint find_loop (fuel : nat) (m : vmem) (addr : Z) (current : ptr) : option ptr :=
  match fuel with
  | O => None
  | S fuel =>
    match current with
    | None => Some None
    | Some x =>
      n ← m !! x;
      if decide (addr < first (aux n)) then find_loop fuel m addr (child n LEFT)
      else if decide (addr > last (aux n)) then find_loop fuel m addr (child n RIGHT)
      else Some (Some x)
    end
  end.

Definition VMATree_find (st : VMATree) (addr : Z) : option ptr :=
  find_loop (S (size (nodes st))) (nodes st) addr (root st).

Fixpoint find_above_loop (fuel : nat) (m : vmem) (addr : Z) (current found : ptr) : option ptr :=
  match fuel with
  | O => None
  | S fuel =>
    match current with
    | None => Some found
    | Some x =>
      n ← m !! x;
      if decide (addr > last (aux n)) then find_above_loop fuel m addr (child n RIGHT) found
      else find_above_loop fuel m addr (child n LEFT) current
    end
  end.

Definition VMATree_find_above (st : VMATree) (addr : Z) : option ptr :=
  find_above_loop (S (size (nodes st))) (nodes st) addr (root st) None.

Fixpoint find_below_loop (fuel : nat) (m : vmem) (addr : Z) (current found : ptr) : option ptr :=
  match fuel with
  | O => None
  | S fuel =>
    match current with
    | None => Some found
    | Some x =>
      n ← m !! x;
      if decide (addr <= first (aux n)) then find_below_loop fuel m addr (child n LEFT) found
      else find_below_loop fuel m addr (child n RIGHT) current
    end
  end.

Definition VMATree_find_below (st : VMATree) (addr : Z) : option ptr :=
  find_below_loop (S (size (nodes st))) (nodes st) addr (root st) None.

(** ** Free-range search *)

(** Where control is in the loop of the search, and with which [current]. *)
Inductive pos :=
| Visit (x : loc)        (* the top of the loop *)
| Look (x : loc)         (* look_at_current *)
| Far (x : loc)          (* look_at_right_subtree / look_at_left_subtree *)
| Up (x : loc)           (* go_up *)
| Rightmost.             (* look_at_rightmost *)

(** The result of one step: continue at a label, or return. *)
Abbreviation outcome := (pos + option Z)%type.

Record request := mkReq { req_size : Z; req_align : Z; min_addr : Z; max_addr : Z }.

(** The early returns shared by both searches. *)
Definition search_refuses (q : request) : bool :=
  bool_decide (req_size q = 0)
  || bool_decide (max_addr q < min_addr q) || bool_decide (max_addr q < req_size q)
  || ((bool_decide (max_addr q ≠ VMA_TREE_MAX) || bool_decide (min_addr q ≠ 0))
      && bool_decide (max_addr q -ᵤ min_addr q +ᵤ 1 < req_size q)).

(** The gap in front of [x], clipped to the requested window, and the first
    aligned address in it. *)
Definition clipped_gap (st : VMATree) (q : request) (x : loc) : option (Z * Z * Z) :=
  n ← nodes st !! x;
  tmp ← VMATree_prev (lists st) (m_list st) (Some x);
  gap_start ← match tmp with
              | Some p => pn ← nodes st !! p; Some (last (aux pn) +ᵤ 1)
              | None => Some 0
              end;
  let gap_end := first (aux n) in
  let gap_start := max gap_start (min_addr q) in
  let gap_end := if decide (max_addr q ≠ VMA_TREE_MAX) then min gap_end (max_addr q +ᵤ 1)
                 else gap_end in
  Some (gap_start, gap_end, align_up gap_start (req_align q)).

Definition bottomup_step (st : VMATree) (q : request) (p : pos) : option outcome :=
  match p with
  | Visit x =>
    n ← nodes st !! x;
    if decide (biggest_gap (aux n) < req_size q) then Some (inl (Up x))
    else match child n LEFT with
         | Some l => if decide (first (aux n) > min_addr q) then Some (inl (Visit l))
                     else Some (inl (Look x))
         | None => Some (inl (Look x))
         end
  | Look x =>
    '(gap_start, gap_end, alloc_start) ← clipped_gap st q x;
    if decide (alloc_start < gap_start ∨ gap_end <= alloc_start) then Some (inl (Far x))
    else if decide (gap_end -ᵤ alloc_start >= req_size q) then Some (inr (Some alloc_start))
    else if decide (gap_end >= max_addr q) then Some (inr None)
    else Some (inl (Far x))
  | Far x =>
    n ← nodes st !! x;
    match child n RIGHT with
    | Some r => Some (inl (Visit r))
    | None => Some (inl (Up x))
    end
  | Up x =>
    n ← nodes st !! x;
    match parent n with
    | None => Some (inl Rightmost)
    | Some y =>
      yn ← nodes st !! y;
      if decide (child yn RIGHT = Some x) then Some (inl (Up y)) else Some (inl (Look y))
    end
  | Rightmost =>
    current ← VMATree_last st;
    start ← match current with
            | Some x => n ← nodes st !! x;
                Some (if decide (last (aux n) = VMA_TREE_MAX) then None
                      else Some (last (aux n) +ᵤ 1))
            | None => Some (Some 0)
            end;
    match start with
    | None => Some (inr None)
    | Some gap_start =>
      let gap_start := max gap_start (min_addr q) in
      let alloc_start := align_up gap_start (req_align q) in
      if decide (alloc_start < gap_start) then Some (inr None)
      else
        let gap_end := alloc_start +ᵤ req_size q -ᵤ 1 in
        if decide (gap_end < alloc_start ∨ gap_end > max_addr q) then Some (inr None)
        else Some (inr (Some alloc_start))
    end
  end.

Definition topdown_step (st : VMATree) (q : request) (p : pos) : option outcome :=
  match p with
  | Rightmost =>
    current ← VMATree_last st;
    start ← match current with
            | Some x => n ← nodes st !! x;
                Some (if decide (last (aux n) = VMA_TREE_MAX) then None
                      else Some (last (aux n) +ᵤ 1))
            | None => Some (Some 0)
            end;
    let start_loop := match root st with
                      | None => Some (inr None)
                      | Some x => Some (inl (Visit x))
                      end in
    match start with
    | None => start_loop
    | Some gap_start =>
      let gap_start := max gap_start (min_addr q) in
      let alloc_start := align_up gap_start (req_align q) in
      if decide (alloc_start < gap_start) then start_loop
      else
        let gap_end := alloc_start +ᵤ req_size q -ᵤ 1 in
        if decide (gap_end >= alloc_start ∧ gap_end <= max_addr q) then
          Some (inr (Some (align_down (max_addr q +ᵤ 1 -ᵤ req_size q) (req_align q))))
        else start_loop
    end
  | Visit x =>
    n ← nodes st !! x;
    if decide (biggest_gap (aux n) < req_size q) then Some (inl (Up x))
    else match child n RIGHT with
         | Some r => if decide (last (aux n) < max_addr q) then Some (inl (Visit r))
                     else Some (inl (Look x))
         | None => Some (inl (Look x))
         end
  | Look x =>
    '(gap_start, gap_end, alloc_start) ← clipped_gap st q x;
    if decide (alloc_start < gap_start ∨ gap_end <= alloc_start) then Some (inl (Far x))
    else if decide (gap_end -ᵤ alloc_start >= req_size q) then
      Some (inr (Some (align_down (gap_end -ᵤ req_size q) (req_align q))))
    else if decide (gap_start <= min_addr q) then Some (inr None)
    else Some (inl (Far x))
  | Far x =>
    n ← nodes st !! x;
    match child n LEFT with
    | Some l => Some (inl (Visit l))
    | None => Some (inl (Up x))
    end
  | Up x =>
    n ← nodes st !! x;
    match parent n with
    | None => Some (inr None)
    | Some y =>
      yn ← nodes st !! y;
      if decide (child yn LEFT = Some x) then Some (inl (Up y)) else Some (inl (Look y))
    end
  end.

Fixpoint search (step : pos → option outcome) (fuel : nat) (p : pos) : option (option Z) :=
  match fuel with
  | O => None
  | S fuel =>
    r ← step p;
    match r with
    | inl p => search step fuel p
    | inr res => Some res
    end
  end.

(** A node is passed at most four times. *)
Definition search_fuel (st : VMATree) : nat := 4 * size (nodes st) + 2.

Definition VMATree_find_free_bottomup (st : VMATree) (q : request) : option (option Z) :=
  if search_refuses q then Some None
  else search (bottomup_step st q) (search_fuel st)
         (match root st with Some x => Visit x | None => Rightmost end).

Definition VMATree_find_free_topdown (st : VMATree) (q : request) : option (option Z) :=
  if search_refuses q then Some None
  else search (topdown_step st q) (search_fuel st) Rightmost.

End find_defs.

Section find.
Local Open Scope Z_scope.
Implicit Types (t l r : tree vma) (c : list (frame vma)) (a : vma) (m : vmem).

Lemma rep_size m par t : rep m par t → NoDup (keys t) → (length (keys t) ≤ size m)%nat.
Proof.
  intros Hr Hnd. rewrite <- size_dom, <- (size_list_to_set (C := gset loc) (keys t)) by done.
  apply subseteq_size. intros y Hy%elem_of_list_to_set. apply elem_of_dom. by eapply rep_lookup.
Qed.

Lemma length_keys_T l x a r : length (keys (T l x a r)) = S (length (keys l) + length (keys r)).
Proof. rewrite keys_T, length_app. simpl. lia. Qed.

(** The order of the ranges below a node, as the searches use it. *)
Lemma ranges_ok_T lo l x a r :
  ranges_ok lo (cores (T l x a r)) →
  ranges_ok lo (cores l) ∧ first a <= last a < 2 ^ 64 ∧ ranges_ok (last a + 1) (cores r) ∧
  Forall (λ p, last p.2 < first a) (inorder l) ∧ Forall (λ p, last a < first p.2) (inorder r).
Proof.
  rewrite cores_T. intros (Hl & Hf & Hfe & Hr & _)%ranges_ok_mid. split_and!; try done; try lia.
  - pose proof (ranges_ok_upper _ _ Hl) as Hu. unfold cores, cores_of in Hu. rewrite Forall_fmap in Hu.
    eapply Forall_impl; [exact Hu|]. intros [y b]. unfold core_first, core_last. simpl. 
    unfold cores, cores_of in Hf. lia.
  - pose proof (ranges_ok_lower _ _ Hr) as Hu. unfold cores, cores_of in Hu. rewrite Forall_fmap in Hu.
    eapply Forall_impl; [exact Hu|]. intros [y b]. unfold core_first. simpl. lia.
Qed.

Lemma ranges_ok_nonempty lo L : ranges_ok lo (cores_of L) → Forall (λ p, first p.2 <= last p.2) L.
Proof.
  intros Hu%ranges_ok_upper. unfold cores_of in Hu. rewrite Forall_fmap in Hu.
  eapply Forall_impl; [exact Hu|]. intros [y b]. unfold core_first, core_last. simpl. lia.
Qed.

(** What [find_loop] returns on a subtree. *)
Lemma find_loop_rep m par t addr lo fuel :
  rep m par t → ranges_ok lo (cores t) → (length (keys t) < fuel)%nat →
  ∃ res, find_loop fuel m addr (root_of t) = Some res ∧
    match res with
    | Some x => ∃ a, (x, a) ∈ inorder t ∧ first a <= addr <= last a
    | None => Forall (λ p, addr < first p.2 ∨ last p.2 < addr) (inorder t)
    end.
Proof.
  revert par lo fuel. induction t as [|l IHl x a r IHr]; intros par lo [|fuel] Hrep Hok Hf;
    try (simpl in Hf; lia).
  - by exists None.
  - rewrite length_keys_T in Hf. destruct Hrep as (Hx & Hl & Hr).
    pose proof (ranges_ok_T _ _ _ _ _ Hok) as (Hl1 & Hxa & Hr1 & HFl & HFr).
    pose proof (ranges_ok_nonempty _ _ Hl1) as HNl. pose proof (ranges_ok_nonempty _ _ Hr1) as HNr.
    simpl. rewrite Hx. simpl. case_decide as H1; [|case_decide as H2].
    + destruct (IHl _ _ fuel Hl Hl1 ltac:(lia)) as (res & E & Hres). exists res. split; [done|].
      destruct res as [y|].
      * destruct Hres as (b & Hb & ?). exists b. set_solver.
      * apply Forall_app. split; [done|]. constructor; [simpl; lia|].
        rewrite Forall_forall in *. intros p Hp. specialize (HFr p Hp). lia.
    + destruct (IHr _ _ fuel Hr Hr1 ltac:(lia)) as (res & E & Hres). exists res. split; [done|].
      destruct res as [y|].
      * destruct Hres as (b & Hb & ?). exists b. set_solver.
      * apply Forall_app. split; [|constructor; [simpl; lia|done]].
        rewrite Forall_forall in *. intros p Hp. specialize (HFl p Hp). lia.
    + exists (Some x). split; [done|]. exists a. split; [set_solver|lia].
Qed.

(** The first element of a list that satisfies a predicate, and the last. *)
Definition first_such (Q : vma → Prop) (L : list (loc * vma)) (res : ptr) : Prop :=
  match res with
  | Some x => ∃ P a S, L = P ++ (x, a) :: S ∧ Q a ∧ Forall (λ p, ¬ Q p.2) P
  | None => Forall (λ p, ¬ Q p.2) L
  end.

Definition last_such (Q : vma → Prop) (L : list (loc * vma)) (res : ptr) : Prop :=
  match res with
  | Some x => ∃ P a S, L = P ++ (x, a) :: S ∧ Q a ∧ Forall (λ p, ¬ Q p.2) S
  | None => Forall (λ p, ¬ Q p.2) L
  end.

(** The loop of [find_above]: [rest] is what lies to the right of the current
    subtree, from the candidate [found] on. *)
Lemma find_above_loop_rep m par t addr lo fuel found rest :
  rep m par t → ranges_ok lo (cores t) → (length (keys t) < fuel)%nat →
  found = fst <$> head rest → (∀ y b, head rest = Some (y, b) → addr <= last b) →
  ∃ res, find_above_loop fuel m addr (root_of t) found = Some res ∧
    first_such (λ a, addr <= last a) (inorder t ++ rest) res.
Proof.
  revert par lo fuel found rest.
  induction t as [|l IHl x a r IHr]; intros par lo [|fuel] found rest Hrep Hok Hf -> HR;
    try (simpl in Hf; lia).
  - eexists. split; [done|]. destruct rest as [|[y b] rest]; simpl; [done|].
    exists [], b, rest. split_and!; [done|by eapply HR|constructor].
  - rewrite length_keys_T in Hf. destruct Hrep as (Hx & Hl & Hr).
    pose proof (ranges_ok_T _ _ _ _ _ Hok) as (Hl1 & Hxa & Hr1 & HFl & HFr).
    simpl. rewrite Hx. simpl. case_decide as Hc.
    + destruct (IHr _ _ fuel _ rest Hr Hr1 ltac:(lia) eq_refl HR) as (res & E & Hres).
      exists res. split; [done|].
      assert (Forall (λ p, ¬ addr <= last p.2) (inorder l ++ [(x, a)])) as HN.
      { apply Forall_app. split; [|repeat constructor; simpl; lia].
        eapply Forall_impl; [exact HFl|]. simpl. lia. }
      replace ((inorder l ++ (x, a) :: inorder r) ++ rest)
        with ((inorder l ++ [(x, a)]) ++ inorder r ++ rest) by (by rewrite <- !app_assoc).
      destruct res as [y|]; simpl in *; [|by apply Forall_app].
      destruct Hres as (P & b & S & -> & Hb & HP).
      exists ((inorder l ++ [(x, a)]) ++ P), b, S.
      split_and!; [by rewrite <- !app_assoc|done|by apply Forall_app].
    + destruct (IHl _ _ fuel (Some x) ((x, a) :: inorder r ++ rest) Hl Hl1 ltac:(lia))
        as (res & E & Hres); [done|intros y b [= -> ->]; lia|].
      exists res. split; [done|]. by rewrite <- app_assoc.
Qed.

(** The loop of [find_below], with what lies to the left up to [found]. *)
Lemma find_below_loop_rep m par t addr lo fuel found rest :
  rep m par t → ranges_ok lo (cores t) → (length (keys t) < fuel)%nat →
  found = fst <$> list.last rest → (∀ y b, list.last rest = Some (y, b) → first b < addr) →
  ∃ res, find_below_loop fuel m addr (root_of t) found = Some res ∧
    last_such (λ a, first a < addr) (rest ++ inorder t) res.
Proof.
  revert par lo fuel found rest.
  induction t as [|l IHl x a r IHr]; intros par lo [|fuel] found rest Hrep Hok Hf -> HR;
    try (simpl in Hf; lia).
  - eexists. split; [done|]. simpl. rewrite app_nil_r.
    destruct rest as [|[y b] rest _] using rev_ind; simpl; [done|]. rewrite last_snoc in *.
    exists rest, b, []. split_and!; [done|by eapply HR|constructor].
  - rewrite length_keys_T in Hf. destruct Hrep as (Hx & Hl & Hr).
    pose proof (ranges_ok_T _ _ _ _ _ Hok) as (Hl1 & Hxa & Hr1 & HFl & HFr).
    simpl. rewrite Hx. simpl. case_decide as Hc.
    + destruct (IHl _ _ fuel _ rest Hl Hl1 ltac:(lia) eq_refl HR) as (res & E & Hres).
      exists res. split; [done|].
      assert (Forall (λ p, ¬ first p.2 < addr) ((x, a) :: inorder r)) as HN.
      { constructor; [simpl; lia|]. eapply Forall_impl; [exact HFr|]. simpl. lia. }
      rewrite app_assoc. destruct res as [y|]; simpl in *; [|by apply Forall_app].
      destruct Hres as (P & b & S & Hsp & Hb & HP).
      exists P, b, (S ++ (x, a) :: inorder r).
      split_and!; [by rewrite Hsp, <- app_assoc|done|by apply Forall_app].
    + destruct (IHr _ _ fuel (Some x) ((rest ++ inorder l) ++ [(x, a)]) Hr Hr1 ltac:(lia))
        as (res & E & Hres); [by rewrite last_snoc|rewrite last_snoc; intros y b [= -> ->]; lia|].
      exists res. split; [done|]. by rewrite <- !app_assoc in *.
Qed.

Lemma wf_fuel st t : vma_wf st t → (length (keys t) ≤ size (nodes st))%nat.
Proof.
  intros [Hrep _ HL _ _ _]. apply (rep_size _ None); [done|].
  by apply is_list_NoDup, NoDup_cons in HL as [_ ?].
Qed.

Lemma VMATree_find_spec st t addr :
  vma_wf st t →
  ∃ res, VMATree_find st addr = Some res ∧
    match res with
    | Some x => ∃ a, (x, a) ∈ inorder t ∧ first a <= addr <= last a
    | None => Forall (λ p, addr < first p.2 ∨ last p.2 < addr) (inorder t)
    end.
Proof.
  intros Hwf. pose proof (wf_fuel _ _ Hwf). destruct Hwf as [Hrep Hrt _ _ _ Hok].
  unfold VMATree_find. rewrite Hrt. eapply find_loop_rep; [done|done|lia].
Qed.

(** C38. The lookups terminate.  [VMATree::find] returns the node whose range
    contains the address, or null when no range of the tree contains it;
    [find_above] the lowest range that ends at or above the address ("the first
    node on or above addr"); [find_below] the highest range that starts below
    the address. *)
Theorem VMATree_lookups_correct st t addr :
  vma_wf st t →
  (∃ res, VMATree_find st addr = Some res ∧
    match res with
    | Some x => ∃ a, (x, a) ∈ inorder t ∧ first a <= addr <= last a
    | None => Forall (λ p, addr < first p.2 ∨ last p.2 < addr) (inorder t)
    end) ∧
  (∃ res, VMATree_find_above st addr = Some res ∧ first_such (λ a, addr <= last a) (inorder t) res) ∧
  (∃ res, VMATree_find_below st addr = Some res ∧ last_such (λ a, first a < addr) (inorder t) res).
Proof.
  intros Hwf. split; [by apply VMATree_find_spec|]. pose proof (wf_fuel _ _ Hwf).
  destruct Hwf as [Hrep Hrt _ _ _ Hok]. unfold VMATree_find_above, VMATree_find_below. rewrite Hrt. split_and!.
  - destruct (find_above_loop_rep (nodes st) None t addr 0 (S (size (nodes st))) None [])
      as (res & E & Hres); [done|done|lia|done|done|].
    rewrite app_nil_r in Hres. by exists res.
  - apply (find_below_loop_rep (nodes st) None t addr 0 (S (size (nodes st))) None []);
      [done|done|lia|done|done].
Qed.

End find.
