(* ===== verification/VmaFree.v ===== *)
(** * The VMA tree: searching free address space

    [find_free_bottomup] returns the lowest, [find_free_topdown] the highest
    aligned address at which the requested range fits into the window without
    meeting a range of the tree, and [false] when there is none or the size is
    zero or above the window's end. *)

From S2P Require Import Prelude Align.
From S2P Require Export VmaFind.

Section spec.
Local Open Scope Z_scope.

(** The requested range can be placed at [v]. *)
Definition fits (q : request) (rs : list (loc * Z * Z)) (v : Z) : Prop :=
  min_addr q <= v ∧ v + req_size q - 1 <= max_addr q ∧ v `mod` req_align q = 0 ∧
  disjoint_from v (v + req_size q - 1) rs.

Definition lowest_fit q rs (res : option Z) : Prop :=
  match res with
  | Some v => fits q rs v ∧ ∀ w, fits q rs w → v <= w
  | None => ∀ w, ¬ fits q rs w
  end.

Definition highest_fit q rs (res : option Z) : Prop :=
  match res with
  | Some v => fits q rs v ∧ ∀ w, fits q rs w → w <= v
  | None => ∀ w, ¬ fits q rs w
  end.

(** A request whose values are 64-bit words, for a non-empty range that is
    not larger than the window's end. *)
Record request_ok (q : request) : Prop := {
  rq_size : 0 < req_size q <= max_addr q;
  rq_align : is_pow2 (req_align q);
  rq_min : 0 <= min_addr q < 2 ^ 64;
  rq_max : max_addr q < 2 ^ 64
}.

End spec.

Section search.
Local Open Scope Z_scope.
Implicit Types (l r : tree vma) (c : list (frame vma)) (a : vma) (P S : list (loc * vma)).
Context (st : VMATree) (t : tree vma) (q : request).
Context (Hwf : vma_wf st t) (Hq : request_ok q).

Let fit := fits q (ranges t).

(** ** The gap in front of a node *)

Lemma wf_split P x a S :
  inorder t = P ++ (x, a) :: S →
  ranges_ok 0 (cores_of P) ∧ end_of 0 (cores_of P) <= first a ∧ first a <= last a < 2 ^ 64 ∧
  ranges_ok (last a + 1) (cores_of S) ∧ prev_gap a = first a - end_of 0 (cores_of P).
Proof.
  intros Hin. destruct Hwf as [_ _ _ _ _ Hok]. unfold cores, cores_of in Hok.
  rewrite Hin, fmap_app in Hok. apply ranges_ok_app in Hok as [H1 (H2 & H3 & H4 & H5)].
  simpl in *. split_and!; try done; lia.
Qed.

Lemma end_nonneg P : ranges_ok 0 (cores_of P) → 0 <= end_of 0 (cores_of P) <= 2 ^ 64.
Proof. intros H. apply end_of_u64; [done|lia]. Qed.

Lemma lookup_inorder x a : (x, a) ∈ inorder t → ∃ n, nodes st !! x = Some n ∧ aux n = a.
Proof. destruct Hwf. by apply rep_inorder with None. Qed.

Lemma clipped_gap_spec P x a S :
  inorder t = P ++ (x, a) :: S →
  let gs := Z.max (end_of 0 (cores_of P)) (min_addr q) in
  clipped_gap st q x =
  Some (gs, Z.min (first a) (max_addr q + 1), align_up gs (req_align q)).
Proof.
  intros Hin gs. destruct (wf_split P x a S Hin) as (HP & Hf & Hfe & _).
  pose proof (end_nonneg P HP). unfold clipped_gap.
  destruct (lookup_inorder x a) as (n & -> & Ha); [rewrite Hin; set_solver|]. simpl.
  destruct (remove_neighbours (lists st) (m_list st) P S x) as [-> _].
  { destruct Hwf as [_ _ HL _ _ _]. unfold keys in HL. by rewrite Hin, fmap_app in HL. }
  assert ((if decide (max_addr q ≠ VMA_TREE_MAX) then min (first (aux n)) (max_addr q +ᵤ 1)
    else first (aux n)) = Z.min (first a) (max_addr q + 1)) as ->.
  { rewrite Ha. destruct Hq as [_ _ _ Hmax]. unfold VMA_TREE_MAX, UINT64_MAX. case_decide as Hd.
    - rewrite min_spec, add64_small by (destruct Hq; lia). done.
    - lia. }
  cbn [mbind option_bind].
  destruct (list.last P) as [[p b]|] eqn:El; simpl.
  - destruct (lookup_inorder p b) as (pn & -> & Hb).
    { rewrite Hin. apply last_Some in El as [L ->]. set_solver. }
    simpl. rewrite Hb.
    assert (list.last (cores_of P) = Some (p, core b)) as El'
      by (unfold cores_of; by rewrite fmap_last, El).
    pose proof (end_of_last 0 _ _ El') as Hend. unfold core_last in Hend. simpl in Hend.
    rewrite add64_small by lia. rewrite <- Hend, max_spec. done.
  - apply last_None in El as ->. simpl. rewrite max_spec. done.
Qed.

Lemma fit_range v : fit v → 0 <= v ∧ v < 2 ^ 64.
Proof. intros (H1 & H2 & _). destruct Hq. lia. Qed.

Lemma fit_disjoint v P x a S :
  inorder t = P ++ (x, a) :: S → fit v → last a < v ∨ v + req_size q - 1 < first a.
Proof.
  intros Hin (_ & _ & _ & Hd). unfold disjoint_from, ranges, cores, cores_of in Hd.
  rewrite Hin, !fmap_app, Forall_app in Hd. destruct Hd as [_ Hd].
  by apply Forall_cons in Hd as [Hd _].
Qed.

(** A range placed inside the gap in front of [x] meets nothing. *)
Lemma gap_disjoint v P x a S :
  inorder t = P ++ (x, a) :: S → end_of 0 (cores_of P) <= v → v + req_size q <= first a →
  disjoint_from v (v + req_size q - 1) (ranges t).
Proof.
  intros Hin H1 H2. destruct (wf_split P x a S Hin) as (HP & Hf & Hfe & HS & _).
  unfold disjoint_from, ranges, cores, cores_of. rewrite Hin, !fmap_app, Forall_app.
  assert (Forall (λ p, core_last p < v) (cores_of P)) as HLP.
  { eapply Forall_impl; [apply (ranges_ok_upper _ _ HP)|]. simpl. lia. }
  assert (Forall (λ p, v + req_size q - 1 < core_first p) (cores_of S)) as HLS.
  { eapply Forall_impl; [apply (ranges_ok_lower _ _ HS)|]. simpl. destruct Hq. lia. }
  unfold cores_of in *. rewrite Forall_fmap in HLP, HLS.
  rewrite !fmap_cons, Forall_cons, !Forall_fmap. split_and!.
  - eapply Forall_impl; [exact HLP|]. intros [y b]. unfold core_last. simpl. lia.
  - simpl. destruct Hq. lia.
  - eapply Forall_impl; [exact HLS|]. intros [y b]. unfold core_first. simpl. lia.
Qed.

(** ** How far the search has come *)

(** Every fit starts behind the ranges [P], respectively before their end. *)
Definition above P : Prop := ∀ v, fit v → end_of 0 (cores_of P) <= v.
Definition below P : Prop := ∀ v, fit v → v < end_of 0 (cores_of P).

Lemma end_of_snoc lo P x a : end_of lo (cores_of (P ++ [(x, a)])) = last a + 1.
Proof. unfold cores_of. rewrite fmap_app, end_of_app. done. Qed.

(** Between [P] and [P ++ M] there is no room when every gap of [M] is too
    small. *)
Lemma small_gaps P M S :
  inorder t = P ++ M ++ S → Forall (λ p, prev_gap p.2 < req_size q) M →
  ∀ v, fit v → end_of 0 (cores_of P) <= v ↔ end_of 0 (cores_of (P ++ M)) <= v.
Proof.
  revert P. induction M as [|[x a] M IH]; intros P Hin HM v Hv; [by rewrite app_nil_r|].
  apply Forall_cons in HM as [Hx HM]. simpl in Hx.
  assert (inorder t = (P ++ [(x, a)]) ++ M ++ S) as Hin' by (by rewrite <- app_assoc).
  specialize (IH (P ++ [(x, a)]) Hin' HM v Hv). rewrite <- app_assoc in IH. simpl in IH.
  rewrite <- IH, end_of_snoc. destruct (wf_split P x a (M ++ S) Hin) as (_ & Hf & Hfe & _ & Hg).
  destruct (fit_disjoint v P x a (M ++ S) Hin Hv); lia.
Qed.

Lemma subtree_small_gaps c l x a r :
  t = plug c (T l x a r) → biggest_gap a < req_size q →
  ∀ v, fit v → end_of 0 (cores_of (cleft c)) <= v ↔
               end_of 0 (cores_of (cleft c ++ inorder (T l x a r))) <= v.
Proof.
  intros Ht Hb. apply (small_gaps _ _ (cright c)); [by rewrite Ht, inorder_plug|].
  apply Forall_forall. intros [y b] Hy. simpl.
  assert (gaps_ok (T l x a r)) as Hg.
  { destruct Hwf as [_ _ _ _ Hg _]. rewrite Ht in Hg. by apply gaps_ok_plug in Hg as [? _]. }
  assert (prev_gap b <= maxgap (T l x a r)); [|simpl in *; lia].
  apply (gaps_ok_max _ y (first b) (last b)); [done|].
  unfold cores, cores_of. apply list_elem_of_fmap. by exists (y, b).
Qed.

(** ** Scanning one gap *)

Section gap.
Context (P S : list (loc * vma)) (x : loc) (a : vma) (Hin : inorder t = P ++ (x, a) :: S).
Let e := end_of 0 (cores_of P).
Let gs := Z.max e (min_addr q).
Let ge := Z.min (first a) (max_addr q + 1).
Let start := align_up gs (req_align q).

(** [v] lies in the gap in front of [x]. *)
Let in_gap v := e <= v ∧ v + req_size q - 1 < first a.

Lemma gs_u64 : u64 gs.
Proof.
  destruct (wf_split P x a S Hin) as (HP & Hf & Hfe & _). pose proof (end_nonneg P HP).
  destruct Hq. unfold gs, e, in_width. lia.
Qed.

Lemma gap_no_room v : start < gs ∨ ge <= start → fit v → ¬ in_gap v.
Proof.
  intros Hs Hv [H1 H2]. pose proof gs_u64 as Hgs. destruct (fit_range v Hv) as [_ Hv64].
  pose proof Hv as (Hmin & Hmax & Hal & _). destruct Hq as [Hsz Hp2 _ _].
  destruct (decide (start < gs)) as [Hlt|Hge].
  - apply (align_up_overflow gs (req_align q) v); [done|done|done|unfold gs; lia|done].
  - destruct (align_up_least gs (req_align q) Hgs Hp2 Hge) as [(_ & _ & Hle) _].
    specialize (Hle v ltac:(unfold gs; lia) Hal). fold start in Hle. unfold ge in Hs. lia.
Qed.

Lemma gap_start_least v : ¬ start < gs → fit v → e <= v → start <= v.
Proof.
  intros Hge Hv H1. pose proof gs_u64 as Hgs. pose proof Hv as (Hmin & _ & Hal & _).
  destruct Hq as [_ Hp2 _ _].
  destruct (align_up_least gs (req_align q) Hgs Hp2 Hge) as [(_ & _ & Hle) _].
  apply Hle; [unfold gs; lia|done].
Qed.

Lemma gap_too_small v : ¬ start < gs → ge - start < req_size q → fit v → ¬ in_gap v.
Proof.
  intros Hge Hsm Hv [H1 H2]. pose proof (gap_start_least v Hge Hv H1).
  destruct Hv as (_ & Hmax & _). unfold ge in Hsm. lia.
Qed.

Lemma gap_fit_start : ¬ start < gs → req_size q <= ge - start → fit start.
Proof.
  intros Hge Hsz. pose proof gs_u64 as Hgs.
  destruct (align_up_least gs (req_align q) Hgs (rq_align _ Hq) Hge) as [(Hle & Hal & _) _].
  fold start in Hle, Hal. unfold ge, gs in *. split_and!; [lia|lia|done|].
  apply (gap_disjoint start P x a S Hin); fold e; lia.
Qed.

Lemma ge_u64 : u64 ge.
Proof.
  destruct (wf_split P x a S Hin) as (HP & Hf & Hfe & _). pose proof (end_nonneg P HP).
  destruct Hq. unfold ge, in_width. lia.
Qed.

(** The highest aligned address from which the rest of the gap suffices. *)
Lemma gap_fit_end :
  ¬ start < gs → req_size q <= ge - start →
  let v := align_down (ge - req_size q) (req_align q) in
  fit v ∧ ∀ w, fit w → w + req_size q - 1 < first a → w <= v.
Proof.
  intros Hge Hsz v. pose proof gs_u64 as Hgs. pose proof ge_u64 as [_ Hge64].
  destruct (align_up_least gs (req_align q) Hgs (rq_align _ Hq) Hge) as [(Hle & Hal & _) _].
  fold start in Hle, Hal.
  destruct (align_down_spec (ge - req_size q) (req_align q)) as [(Hd1 & Hd2 & Hd3) Hd4].
  { destruct Hgs as [Hgs0 _]. destruct Hq. unfold in_width. lia. }
  { apply Hq. }
  fold v in Hd1, Hd2, Hd3. pose proof (Hd3 start ltac:(lia) Hal) as Hsv.
  assert (ge <= first a ∧ ge <= max_addr q + 1) as [Hg1 Hg2] by (unfold ge; lia).
  assert (e <= gs ∧ min_addr q <= gs) as [Hs1 Hs2] by (unfold gs; lia).
  split.
  - split_and!; [lia|lia|done|]. apply (gap_disjoint v P x a S Hin); fold e; lia.
  - intros w (Hw1 & Hw2 & Hw3 & _) Hw. apply Hd3; [|done]. unfold ge. lia.
Qed.

(** What the two searches conclude at [look_at_current]. *)
Lemma look_bottomup :
  above P →
  ∃ o, bottomup_step st q (Look x) = Some o ∧
    match o with
    | inl p => p = Far x ∧ above (P ++ [(x, a)])
    | inr res => lowest_fit q (ranges t) res
    end.
Proof.
  intros Hab. unfold bottomup_step. rewrite (clipped_gap_spec P x a S Hin).
  fold e gs ge start. cbn [mbind option_bind].
  assert (∀ v, fit v → ¬ in_gap v → last a + 1 <= v) as Hskip.
  { intros v Hv Hn. specialize (Hab v Hv). fold e in Hab.
    destruct (fit_disjoint v P x a S Hin Hv); [lia|]. by destruct Hn. }
  case_decide as H1.
  { eexists; split; [done|]. split; [done|]. intros v Hv. rewrite end_of_snoc.
    apply Hskip; [done|]. by apply gap_no_room. }
  pose proof ge_u64 as [_ Hge64]. pose proof (align_up_range gs (req_align q)) as [Hs0 _].
  fold start in Hs0. rewrite sub64_small by lia.
  case_decide as H2.
  { eexists; split; [done|]. split; [apply gap_fit_start; lia|].
    intros w Hw. apply gap_start_least; [lia|done|by apply Hab]. }
  assert (∀ v, fit v → last a + 1 <= v) as Hskip'.
  { intros v Hv. apply Hskip; [done|]. apply gap_too_small; [lia|lia|done]. }
  case_decide as H3.
  - eexists; split; [done|]. intros v Hv. specialize (Hskip' v Hv).
    destruct (wf_split P x a S Hin) as (_ & Hf & Hfe & _).
    destruct Hv as (_ & Hv & _). destruct Hq. unfold ge in H3. lia.
  - eexists; split; [done|]. split; [done|]. intros v Hv. rewrite end_of_snoc. auto.
Qed.

Lemma look_topdown :
  below (P ++ [(x, a)]) →
  ∃ o, topdown_step st q (Look x) = Some o ∧
    match o with
    | inl p => p = Far x ∧ below P
    | inr res => highest_fit q (ranges t) res
    end.
Proof.
  intros Hab. unfold topdown_step. rewrite (clipped_gap_spec P x a S Hin).
  fold e gs ge start. cbn [mbind option_bind].
  assert (∀ v, fit v → v + req_size q - 1 < first a) as Hlow.
  { intros v Hv. specialize (Hab v Hv). rewrite end_of_snoc in Hab.
    destruct (fit_disjoint v P x a S Hin Hv); lia. }
  assert (∀ v, fit v → ¬ in_gap v → v < e) as Hskip.
  { intros v Hv Hn. specialize (Hlow v Hv). destruct (decide (v < e)); [done|].
    destruct Hn. split; lia. }
  case_decide as H1.
  { eexists; split; [done|]. split; [done|]. intros v Hv. apply Hskip; [done|]. by apply gap_no_room. }
  pose proof ge_u64 as [_ Hge64]. pose proof (align_up_range gs (req_align q)) as [Hs0 _].
  fold start in Hs0. rewrite sub64_small by lia.
  case_decide as H2.
  { rewrite sub64_small by (destruct Hq; lia).
    destruct gap_fit_end as [Hf Hl]; [lia|lia|]. eexists; split; [done|]. split; [done|].
    intros w Hw. apply Hl; [done|by apply Hlow]. }
  assert (∀ v, fit v → v < e) as Hskip'.
  { intros v Hv. apply Hskip; [done|]. apply gap_too_small; [lia|lia|done]. }
  case_decide as H3.
  - eexists; split; [done|]. intros v Hv. specialize (Hskip' v Hv).
    destruct Hv as (Hv & _). unfold gs in H3. lia.
  - eexists; split; [done|]. split; [done|]. exact Hskip'.
Qed.

End gap.

(** ** The gap behind the last range *)

Let e := end_of 0 (cores t).
Let gs := Z.max e (min_addr q).
Let start := align_up gs (req_align q).

Lemma rightmost_start :
  ∃ current, VMATree_last st = Some current ∧
  match current with
  | Some x => n ← nodes st !! x;
      Some (if decide (last (aux n) = VMA_TREE_MAX) then None else Some (last (aux n) +ᵤ 1))
  | None => Some (Some 0)
  end = Some (if decide (e = 2 ^ 64) then None else Some e) ∧ 0 <= e <= 2 ^ 64.
Proof.
  pose proof Hwf as [_ _ HL _ _ Hok]. unfold VMATree_last. rewrite (VMATree_prev_None _ _ _ HL).
  eexists; split; [done|]. unfold e, cores in *. pose proof (end_nonneg _ Hok) as Hend.
  split; [|done]. unfold keys. rewrite fmap_last.
  destruct (list.last (inorder t)) as [[x a]|] eqn:El; simpl.
  - destruct (lookup_inorder x a) as (n & -> & Ha).
    { apply last_Some in El as [L ->]. set_solver. }
    simpl. rewrite Ha. apply last_Some in El as [L El]. rewrite El, end_of_snoc in *.
    destruct (wf_split L x a [] El) as (_ & _ & Hfe & _).
    pose proof (end_nonneg _ (proj1 (wf_split L x a [] El))).
    unfold VMA_TREE_MAX, UINT64_MAX. 
    destruct (decide (last a = 18446744073709551615)), (decide (last a + 1 = 2 ^ 64)); try lia; [done|].
    by rewrite add64_small by lia.
  - apply last_None in El as ->. simpl. done.
Qed.

Lemma end_disjoint v : e <= v → disjoint_from v (v + req_size q - 1) (ranges t).
Proof.
  intros Hv. pose proof Hwf as [_ _ _ _ _ Hok]. unfold disjoint_from, ranges. rewrite Forall_fmap.
  eapply Forall_impl; [apply (ranges_ok_upper _ _ Hok)|]. intros [y [[f l] g]].
  unfold core_first, core_last, e in *. simpl. lia.
Qed.

(** [alloc_start + size - 1] does not wrap exactly when it is not below
    [alloc_start]. *)
Lemma last_addr_wrap :
  0 <= start < 2 ^ 64 →
  (start +ᵤ req_size q -ᵤ 1 < start ∧ 2 ^ 64 < start + req_size q) ∨
  (start +ᵤ req_size q -ᵤ 1 = start + req_size q - 1 ∧ start + req_size q <= 2 ^ 64).
Proof. intros Hs. destruct Hq as [Hsz _ _ Hmax]. word_lia. Qed.

Lemma rightmost_no_fit v :
  e < 2 ^ 64 → start < gs ∨ start +ᵤ req_size q -ᵤ 1 < start ∨ start +ᵤ req_size q -ᵤ 1 > max_addr q →
  0 <= e → fit v → v < e.
Proof.
  intros He64 Hs He Hv. destruct (decide (v < e)) as [|Hge]; [done|]. exfalso.
  destruct (fit_range v Hv) as [_ Hv64]. pose proof Hv as (Hmin & Hmax & Hal & _).
  pose proof Hq as [Hsz Hp2 Hmn Hmx].
  assert (u64 gs) as Hgs by (unfold gs, in_width; lia).
  destruct (decide (start < gs)) as [Hlt|Hnlt].
  - apply (align_up_overflow gs (req_align q) v); [done|done|done|unfold gs; lia|done].
  - destruct (align_up_least gs (req_align q) Hgs Hp2 Hnlt) as [(_ & _ & Hle) Hs64].
    specialize (Hle v ltac:(unfold gs; lia) Hal). fold start in Hle, Hs64.
    pose proof (align_up_range gs (req_align q)) as [Hs0 _]. fold start in Hs0.
    destruct (last_addr_wrap ltac:(lia)) as [[]|[]]; lia.
Qed.

Lemma look_rightmost_bottomup :
  above (inorder t) → ∃ res, bottomup_step st q Rightmost = Some (inr res) ∧ lowest_fit q (ranges t) res.
Proof.
  intros Hab. unfold bottomup_step. destruct rightmost_start as (cur & -> & Hst & He).
  cbn [mbind option_bind]. rewrite Hst. cbn [mbind option_bind]. clear Hst cur.
  change (above (inorder t)) with (∀ v, fit v → e <= v) in Hab.
  destruct (decide (e = 2 ^ 64)) as [He'|He'].
  { exists None. split; [done|]. intros v Hv. specialize (Hab v Hv). apply fit_range in Hv. lia. }
  rewrite max_spec. fold gs. fold start. pose proof Hq as [Hsz Hp2 Hmn Hmx].
  case_decide as H1.
  { exists None. split; [done|]. intros v Hv. specialize (Hab v Hv).
    apply rightmost_no_fit in Hv; [lia|lia|tauto|lia]. }
  case_decide as H2.
  { exists None. split; [done|]. intros v Hv. specialize (Hab v Hv).
    apply rightmost_no_fit in Hv; [lia|lia|tauto|lia]. }
  assert (u64 gs) as Hgs by (unfold gs, in_width; lia).
  destruct (align_up_least gs (req_align q) Hgs Hp2 H1) as [(Hle & Hal & Hleast) Hs64].
  fold start in Hle, Hal, Hleast, Hs64.
  pose proof (align_up_range gs (req_align q)) as [Hs0 _]. fold start in Hs0.
  exists (Some start). split; [done|]. split.
  - destruct (last_addr_wrap ltac:(lia)) as [[]|[Hw _]]; [lia|].
    assert (e <= gs ∧ min_addr q <= gs) as [] by (unfold gs; lia).
    split_and!; [lia|lia|done|]. apply end_disjoint. lia.
  - intros w Hw. specialize (Hab w Hw). destruct Hw as (? & _ & ? & _).
    apply Hleast; [unfold gs; lia|done].
Qed.

Lemma look_rightmost_topdown :
  ∃ o, topdown_step st q Rightmost = Some o ∧
    match o with
    | inl p => ∃ x, p = Visit x ∧ root st = Some x ∧ below (inorder t)
    | inr res => highest_fit q (ranges t) res
    end.
Proof.
  unfold topdown_step. destruct rightmost_start as (cur & -> & Hst & He).
  cbn [mbind option_bind]. rewrite Hst. cbn [mbind option_bind]. clear Hst cur.
  set (start_loop := match root st with Some _ => _ | None => _ end).
  assert (below (inorder t) → ∃ o, start_loop = Some o ∧
    match o with
    | inl p => ∃ x, p = Visit x ∧ root st = Some x ∧ below (inorder t)
    | inr res => highest_fit q (ranges t) res
    end) as Hloop.
  { intros Hb. unfold start_loop. destruct (root st) as [x|] eqn:Er; eexists; (split; [done|]).
    - by exists x.
    - intros v Hv. specialize (Hb v Hv). apply fit_range in Hv.
      pose proof (wf_root _ _ Hwf) as Hrt. rewrite Er in Hrt. destruct t; [|done].
      simpl in Hb. lia. }
  change (below (inorder t)) with (∀ v, fit v → v < e) in Hloop.
  destruct (decide (e = 2 ^ 64)) as [He'|He'].
  { apply Hloop. intros v Hv. apply fit_range in Hv. lia. }
  rewrite max_spec. fold gs. fold start. pose proof Hq as [Hsz Hp2 Hmn Hmx].
  case_decide as H1.
  { apply Hloop. intros v. apply rightmost_no_fit; [lia|tauto|lia]. }
  case_decide as H2.
  2: { apply Hloop. intros v. apply rightmost_no_fit; [lia| |lia].
       destruct (decide (start +ᵤ req_size q -ᵤ 1 < start)); [tauto|]. right; right. lia. }
  assert (u64 gs) as Hgs by (unfold gs, in_width; lia).
  destruct (align_up_least gs (req_align q) Hgs Hp2 H1) as [(Hle & Hal & Hleast) Hs64].
  fold start in Hle, Hal, Hleast, Hs64.
  pose proof (align_up_range gs (req_align q)) as [Hs0 _]. fold start in Hs0.
  destruct (last_addr_wrap ltac:(lia)) as [[]|[Hw _]]; [lia|].
  assert (max_addr q +ᵤ 1 -ᵤ req_size q = max_addr q + 1 - req_size q) as -> by word_lia.
  destruct (align_down_spec (max_addr q + 1 - req_size q) (req_align q)) as [(Hd1 & Hd2 & Hd3) _];
    [unfold in_width; lia|done|].
  pose proof (Hd3 start ltac:(lia) Hal) as Hsv.
  assert (e <= gs ∧ min_addr q <= gs) as [] by (unfold gs; lia).
  eexists; split; [done|]. split.
  - split_and!; [lia|lia|done|]. apply end_disjoint. lia.
  - intros w (_ & ? & ? & _). apply Hd3; [lia|done].
Qed.

(** ** The walk *)

(** The steps left after leaving the hole of [c] for good: an ancestor on
    whose [near] side the hole is has its gap, its far subtree and itself still
    to come, any other ancestor is only passed on the way up. *)
Fixpoint pending (near : Dir) c : nat :=
  match c with
  | [] => 0
  | Fr d _ _ s :: c =>
    ((if decide (d = near) then 3 + 4 * length (keys s) else 1) + pending near c)%nat
  end.

Lemma focus_lookup c l x a r :
  t = plug c (T l x a r) →
  nodes st !! x = Some (mkNode (root_of l) (root_of r) (cparent c) a) ∧
  crep (nodes st) (root st) (Some x) c ∧ NoDup (keys (T l x a r) ++ ckeys c).
Proof.
  intros Ht. pose proof Hwf as [Hrep Hrt HL _ _ _]. rewrite Ht in Hrep, Hrt, HL.
  destruct (proj1 (rep_plug (nodes st) (root st) c (T l x a r)) (conj Hrep Hrt)) as [Hc (Hx & _)].
  split_and!; [done|done|]. apply is_list_NoDup, NoDup_cons in HL as [_ HL].
  by rewrite keys_plug in HL.
Qed.

(** Where a pointer to a subtree leads. *)
Lemma root_of_Some t' x : root_of t' = Some x → ∃ l a r, t' = T l x a r.
Proof. destruct t'; [done|]. intros [= ->]. by do 3 eexists. Qed.

Lemma sibling_differs c l x a r d y b s :
  t = plug (Fr d y b s :: c) (T l x a r) → root_of s ≠ Some x.
Proof.
  intros Ht Hs. destruct (root_of_Some _ _ Hs) as (sl & sa & sr & ->).
  destruct (focus_lookup _ _ _ _ _ Ht) as (_ & _ & Hnd). simpl in Hnd.
  apply NoDup_app in Hnd as (_ & Hd & _). apply (Hd x); rewrite !keys_T; set_solver.
Qed.

Definition bottomup_at (p : pos) (k : nat) : Prop :=
  match p with
  | Visit x => ∃ c l a r, t = plug c (T l x a r) ∧ above (cleft c) ∧
      k = (pending LEFT c + 4 * (1 + length (keys l) + length (keys r)))%nat
  | Look x => ∃ c l a r, t = plug c (T l x a r) ∧ above (cleft c ++ inorder l) ∧
      k = (pending LEFT c + 4 * length (keys r) + 3)%nat
  | Far x => ∃ c l a r, t = plug c (T l x a r) ∧ above (cleft c ++ inorder l ++ [(x, a)]) ∧
      k = (pending LEFT c + 4 * length (keys r) + 2)%nat
  | Up x => ∃ c l a r, t = plug c (T l x a r) ∧ above (cleft c ++ inorder (T l x a r)) ∧
      k = (pending LEFT c + 1)%nat
  | Rightmost => above (inorder t) ∧ k = 0%nat
  end.

Lemma bottomup_visit x k :
  bottomup_at (Visit x) k →
  ∃ p k', bottomup_step st q (Visit x) = Some (inl p) ∧ (k' < k)%nat ∧ bottomup_at p k'.
Proof.
  intros (c & l & a & r & Ht & Hab & ->). destruct (focus_lookup _ _ _ _ _ Ht) as (Hx & _ & _).
  unfold bottomup_step. rewrite Hx. cbn [mbind option_bind aux child child_l].
  case_decide as H1.
  { exists (Up x). eexists. split; [done|]. split; [|exists c, l, a, r; split_and!; [done| |done]].
    - lia.
    - intros v Hv. apply (subtree_small_gaps c l x a r Ht H1 v Hv). by apply Hab. }
  assert (l = E ∨ first a <= min_addr q →
    ∃ k', (k' < pending LEFT c + 4 * (1 + length (keys l) + length (keys r)))%nat ∧ bottomup_at (Look x) k') as Hlook.
  { intros Hl. eexists. split; [|exists c, l, a, r; split_and!; [done| |done]]; [lia|].
    destruct Hl as [->|Hmin]; [by rewrite app_nil_r|]. intros v (Hv & _).
    destruct (wf_split (cleft c ++ inorder l) x a (inorder r ++ cright c)) as (_ & Hf & _); [|lia].
    rewrite Ht, inorder_plug. simpl. by rewrite <- !app_assoc. }
  destruct (root_of l) as [y|] eqn:El; [case_decide as H2|].
  - destruct (root_of_Some _ _ El) as (ll & la & lr & ->).
    exists (Visit y). eexists. split; [done|].
    split; [|exists (Fr LEFT x a r :: c), ll, la, lr; split_and!; [done|done|done]].
    rewrite length_keys_T. simpl. lia.
  - destruct Hlook as (k' & ? & ?); [right; lia|]. by exists (Look x), k'.
  - destruct Hlook as (k' & ? & ?); [left; by destruct l|]. by exists (Look x), k'.
Qed.

Lemma bottomup_move p k :
  (∃ x, p = Far x ∨ p = Up x) → bottomup_at p k →
  ∃ p' k', bottomup_step st q p = Some (inl p') ∧ (k' < k)%nat ∧ bottomup_at p' k'.
Proof.
  intros [x [-> | ->]] (c & l & a & r & Ht & Hab & ->);
    destruct (focus_lookup _ _ _ _ _ Ht) as (Hx & Hc & _); unfold bottomup_step; rewrite Hx;
    cbn [mbind option_bind parent child child_r].
  - destruct (root_of r) as [y|] eqn:Er.
    + destruct (root_of_Some _ _ Er) as (rl & ra & rr & ->).
      exists (Visit y). eexists. split; [done|].
      split; [|exists (Fr RIGHT x a l :: c), rl, ra, rr; split_and!; [done|done|done]].
      rewrite length_keys_T. simpl. lia.
    + exists (Up x). eexists. split; [done|]. split; [|exists c, l, a, r; split_and!; [done| |done]].
      * lia.
      * by destruct r.
  - destruct c as [|[d y b s] c]; simpl cparent; cbn [mbind option_bind].
    + exists Rightmost. eexists. split; [done|]. split; [|split; [by rewrite Ht|done]]. simpl. lia.
    + destruct Hc as (Hy & _ & _). simpl fr_key. rewrite Hy. cbn [mbind option_bind].
      pose proof (sibling_differs _ _ _ _ _ _ _ _ _ Ht) as Hsib. destruct d; simpl child.
      * rewrite decide_False by done. exists (Look y). eexists. split; [done|].
        split; [|exists c, (T l x a r), b, s; split_and!; [done|done|done]]. simpl. lia.
      * rewrite decide_True by done. exists (Up y). eexists. split; [done|].
        split; [|exists c, s, b, (T l x a r); split_and!; [done| |done]]; [simpl; lia|].
        simpl in Hab |- *. by rewrite <- !app_assoc in Hab.
Qed.

(** Every step makes progress, and a return is the right answer. *)
Lemma bottomup_progress p k :
  bottomup_at p k →
  ∃ o, bottomup_step st q p = Some o ∧
    match o with
    | inl p' => ∃ k', (k' < k)%nat ∧ bottomup_at p' k'
    | inr res => lowest_fit q (ranges t) res
    end.
Proof.
  intros Hat. destruct p as [x|x|x|x|].
  - destruct (bottomup_visit x k Hat) as (p & k' & -> & ? & ?). eexists; split; [done|]. by exists k'.
  - destruct Hat as (c & l & a & r & Ht & Hab & ->).
    destruct (look_bottomup (cleft c ++ inorder l) (inorder r ++ cright c) x a) as (o & -> & Ho).
    { rewrite Ht, inorder_plug. simpl. by rewrite <- !app_assoc. }
    { done. }
    exists o. split; [done|]. destruct o as [p|res]; [|done]. destruct Ho as [-> Hab'].
    eexists. split; [|exists c, l, a, r; split_and!; [done| |done]]; [lia|].
    by rewrite <- app_assoc in Hab'.
  - destruct (bottomup_move (Far x) k) as (p & k' & -> & ? & ?); [eauto|done|].
    eexists; split; [done|]. by exists k'.
  - destruct (bottomup_move (Up x) k) as (p & k' & -> & ? & ?); [eauto|done|].
    eexists; split; [done|]. by exists k'.
  - destruct Hat as [Hab ->]. destruct (look_rightmost_bottomup Hab) as (res & -> & Hres).
    by eexists.
Qed.

End search.

(** A walk that makes progress at every step ends with a good result. *)
Lemma search_terminates (step : pos → option (pos + option Z)) (at_ : pos → nat → Prop)
    (good : option Z → Prop) :
  (∀ p k, at_ p k → ∃ o, step p = Some o ∧
    match o with inl p' => ∃ k', (k' < k)%nat ∧ at_ p' k' | inr res => good res end) →
  ∀ fuel p k, at_ p k → (k < fuel)%nat → ∃ res, search step fuel p = Some res ∧ good res.
Proof.
  intros Hstep. induction fuel as [|fuel IH]; intros p k Hat Hk; [lia|]. simpl.
  destruct (Hstep p k Hat) as (o & -> & Ho). simpl. destruct o as [p'|res]; [|by eexists].
  destruct Ho as (k' & ? & ?). by apply (IH p' k'); [|lia].
Qed.

Section topdown.
Local Open Scope Z_scope.
Implicit Types (l r : tree vma) (c : list (frame vma)) (a : vma) (P S : list (loc * vma)).
Context (st : VMATree) (t : tree vma) (q : request).
Context (Hwf : vma_wf st t) (Hq : request_ok q).

Definition topdown_at (p : pos) (k : nat) : Prop :=
  match p with
  | Visit x => ∃ c l a r, t = plug c (T l x a r) ∧
      below t q (cleft c ++ inorder (T l x a r)) ∧
      k = (pending RIGHT c + 4 * (1 + length (keys l) + length (keys r)))%nat
  | Look x => ∃ c l a r, t = plug c (T l x a r) ∧
      below t q (cleft c ++ inorder l ++ [(x, a)]) ∧
      k = (pending RIGHT c + 4 * length (keys l) + 3)%nat
  | Far x => ∃ c l a r, t = plug c (T l x a r) ∧ below t q (cleft c ++ inorder l) ∧
      k = (pending RIGHT c + 4 * length (keys l) + 2)%nat
  | Up x => ∃ c l a r, t = plug c (T l x a r) ∧ below t q (cleft c) ∧
      k = (pending RIGHT c + 1)%nat
  | Rightmost => k = S (4 * length (keys t))
  end.

Lemma topdown_visit x k :
  topdown_at (Visit x) k →
  ∃ p k', topdown_step st q (Visit x) = Some (inl p) ∧ (k' < k)%nat ∧ topdown_at p k'.
Proof.
  intros (c & l & a & r & Ht & Hbe & ->).
  destruct (focus_lookup st t Hwf _ _ _ _ _ Ht) as (Hx & _ & _).
  unfold topdown_step. rewrite Hx. cbn [mbind option_bind aux child child_r].
  case_decide as H1.
  { exists (Up x). eexists. split; [done|]. split; [|exists c, l, a, r; split_and!; [done| |done]].
    - lia.
    - intros v Hv. specialize (Hbe v Hv).
      pose proof (subtree_small_gaps st t q Hwf c l x a r Ht H1 v Hv). lia. }
  assert (r = E ∨ max_addr q <= last a →
    ∃ k', (k' < pending RIGHT c + 4 * (1 + length (keys l) + length (keys r)))%nat ∧ topdown_at (Look x) k') as Hlook.
  { intros Hr. eexists. split; [|exists c, l, a, r; split_and!; [done| |done]]; [lia|].
    destruct Hr as [->|Hmax]; [done|]. intros v Hv. rewrite app_assoc, end_of_snoc.
    destruct Hv as (_ & Hv & _). destruct Hq. lia. }
  destruct (root_of r) as [y|] eqn:Er; [case_decide as H2|].
  - destruct (root_of_Some _ _ Er) as (rl & ra & rr & ->).
    exists (Visit y). eexists. split; [done|].
    split; [|exists (Fr RIGHT x a l :: c), rl, ra, rr; split_and!; [done| |done]].
    + rewrite length_keys_T. simpl. lia.
    + simpl in Hbe |- *. by rewrite <- !app_assoc.
  - destruct Hlook as (k' & ? & ?); [right; lia|]. by exists (Look x), k'.
  - destruct Hlook as (k' & ? & ?); [left; by destruct r|]. by exists (Look x), k'.
Qed.

(** Going up past the root: nothing fits. *)
Lemma topdown_move p k :
  (∃ x, p = Far x ∨ p = Up x) → topdown_at p k →
  ∃ o, topdown_step st q p = Some o ∧
    match o with
    | inl p' => ∃ k', (k' < k)%nat ∧ topdown_at p' k'
    | inr res => highest_fit q (ranges t) res
    end.
Proof.
  intros [x [-> | ->]] (c & l & a & r & Ht & Hbe & ->);
    destruct (focus_lookup st t Hwf _ _ _ _ _ Ht) as (Hx & Hc & _); unfold topdown_step; rewrite Hx;
    cbn [mbind option_bind parent child child_l].
  - destruct (root_of l) as [y|] eqn:El.
    + destruct (root_of_Some _ _ El) as (ll & la & lr & ->).
      eexists. split; [done|]. eexists.
      split; [|exists (Fr LEFT x a r :: c), ll, la, lr; split_and!; [done|done|done]].
      rewrite length_keys_T. simpl. lia.
    + eexists. split; [done|]. eexists. split; [|exists c, l, a, r; split_and!; [done| |done]].
      * lia.
      * destruct l; [|done]. by rewrite app_nil_r in Hbe.
  - destruct c as [|[d y b s] c]; simpl cparent; cbn [mbind option_bind].
    + eexists. split; [done|]. intros v Hv. specialize (Hbe v Hv). simpl in Hbe.
      destruct Hv as (Hv & _). destruct Hq. lia.
    + destruct Hc as (Hy & _ & _). simpl fr_key. rewrite Hy. cbn [mbind option_bind].
      pose proof (sibling_differs st t q Hwf Hq _ _ _ _ _ _ _ _ _ Ht) as Hsib. destruct d; simpl child.
      * rewrite decide_True by done. eexists. split; [done|]. eexists.
        split; [|exists c, (T l x a r), b, s; split_and!; [done|done|done]]. simpl. lia.
      * rewrite decide_False by done. eexists. split; [done|]. eexists.
        split; [|exists c, s, b, (T l x a r); split_and!; [done|done|done]]. simpl. lia.
Qed.

Lemma topdown_progress p k :
  topdown_at p k →
  ∃ o, topdown_step st q p = Some o ∧
    match o with
    | inl p' => ∃ k', (k' < k)%nat ∧ topdown_at p' k'
    | inr res => highest_fit q (ranges t) res
    end.
Proof.
  intros Hat. destruct p as [x|x|x|x|].
  - destruct (topdown_visit x k Hat) as (p & k' & -> & ? & ?). eexists; split; [done|]. by exists k'.
  - destruct Hat as (c & l & a & r & Ht & Hbe & ->).
    destruct (look_topdown st t q Hwf Hq (cleft c ++ inorder l) (inorder r ++ cright c) x a) as (o & -> & Ho).
    { rewrite Ht, inorder_plug. simpl. by rewrite <- !app_assoc. }
    { by rewrite <- app_assoc. }
    exists o. split; [done|]. destruct o as [p|res]; [|done]. destruct Ho as [-> Hbe'].
    eexists. split; [|exists c, l, a, r; split_and!; [done|done|done]]. lia.
  - apply topdown_move; [eauto|done].
  - apply topdown_move; [eauto|done].
  - simpl in Hat. subst k. destruct (look_rightmost_topdown st t q Hwf Hq) as (o & -> & Ho).
    exists o. split; [done|]. destruct o as [p|res]; [|done]. destruct Ho as (x & -> & Hrt & Hbe).
    rewrite (wf_root _ _ Hwf) in Hrt. destruct (root_of_Some _ _ Hrt) as (l & a & r & Ht).
    eexists. split; [|exists [], l, a, r; split_and!; [done|by rewrite <- Ht|done]].
    rewrite Ht, length_keys_T. simpl. lia.
Qed.

End topdown.

Section results.
Local Open Scope Z_scope.

(** The early returns refuse only requests that cannot be satisfied. *)
Lemma search_refuses_none q rs v : request_ok q → search_refuses q = true → ¬ fits q rs v.
Proof.
  intros [Hsz Hp2 Hmn Hmx] Hr (H1 & H2 & _). unfold search_refuses, VMA_TREE_MAX, UINT64_MAX in Hr.
  rewrite !orb_true_iff, !andb_true_iff, !bool_decide_eq_true in Hr.
  assert (max_addr q -ᵤ min_addr q = max_addr q - min_addr q) as Hd by (apply sub64_small; lia).
  destruct Hr as [[[?|?]|?]|[Hw Hc]]; [lia|lia|lia|]. rewrite Hd in Hc.
  rewrite orb_true_iff, !bool_decide_eq_true in Hw. rewrite add64_small in Hc by lia. lia.
Qed.

Lemma find_free_bottomup_spec st t q :
  vma_wf st t → request_ok q →
  ∃ res, VMATree_find_free_bottomup st q = Some res ∧ lowest_fit q (ranges t) res.
Proof.
  intros Hwf Hq. unfold VMATree_find_free_bottomup. destruct (search_refuses q) eqn:Er.
  { exists None. split; [done|]. intros v. by apply search_refuses_none. }
  pose proof (wf_fuel _ _ Hwf) as Hsz. rewrite (wf_root _ _ Hwf).
  destruct t as [|l x a r]; simpl root_of.
  - apply (search_terminates _ (bottomup_at E q) _ (bottomup_progress st E q Hwf Hq) _ _ 0);
      [|unfold search_fuel; lia].
    split; [|done]. intros v Hv. apply (fit_range E q Hq) in Hv. simpl. lia.
  - rewrite length_keys_T in Hsz.
    apply (search_terminates _ (bottomup_at (T l x a r) q) _ (bottomup_progress st _ q Hwf Hq) _ _
      (4 * (1 + length (keys l) + length (keys r)))); [|unfold search_fuel; lia].
    exists [], l, a, r. split_and!; [done| |done]. intros v Hv.
    apply (fit_range _ q Hq) in Hv. simpl. lia.
Qed.

(** The search from above, likewise. *)
Lemma find_free_topdown_spec st t q :
  vma_wf st t → request_ok q →
  ∃ res, VMATree_find_free_topdown st q = Some res ∧ highest_fit q (ranges t) res.
Proof.
  intros Hwf Hq. unfold VMATree_find_free_topdown. destruct (search_refuses q) eqn:Er.
  { exists None. split; [done|]. intros v. by apply search_refuses_none. }
  pose proof (wf_fuel _ _ Hwf) as Hsz.
  apply (search_terminates _ (topdown_at t q) _ (topdown_progress st t q Hwf Hq) _ _
    (S (4 * length (keys t)))); [done|unfold search_fuel; lia].
Qed.

(** A request of 64-bit words with a power of two as its alignment. *)
Record request_words (q : request) : Prop := {
  rw_size : 0 <= req_size q < 2 ^ 64;
  rw_align : is_pow2 (req_align q);
  rw_min : 0 <= min_addr q < 2 ^ 64;
  rw_max : 0 <= max_addr q < 2 ^ 64
}.

Lemma search_refuses_size q : req_size q = 0 ∨ max_addr q < req_size q → search_refuses q = true.
Proof.
  intros H. unfold search_refuses. rewrite !orb_true_iff, !bool_decide_eq_true. left. tauto.
Qed.

(** C3. For any request with a power of two as its alignment,
    [VMATree::find_free_bottomup] and [VMATree::find_free_topdown] terminate.
    If the size is not zero and at most [max_addr], they return the lowest and
    the highest aligned address of the window at which the requested range meets
    no range of the tree, and [false] exactly when there is no such address.
    Otherwise they return [false]; the only request of positive size that is
    refused though it may fit is that of the whole window from 0 to
    [max_addr]. *)
Theorem find_free_correct st t q :
  vma_wf st t → request_words q →
  (0 < req_size q <= max_addr q →
   (∃ res, VMATree_find_free_bottomup st q = Some res ∧ lowest_fit q (ranges t) res) ∧
   (∃ res, VMATree_find_free_topdown st q = Some res ∧ highest_fit q (ranges t) res)) ∧
  (req_size q = 0 ∨ max_addr q < req_size q →
   VMATree_find_free_bottomup st q = Some None ∧ VMATree_find_free_topdown st q = Some None) ∧
  (max_addr q < req_size q → ∀ v, fits q (ranges t) v →
   v = 0 ∧ min_addr q = 0 ∧ req_size q = max_addr q + 1).
Proof.
  intros Hwf [Hs Ha Hmn Hmx]. split_and!.
  - intros Hsz. assert (request_ok q) by (split; (done || lia)).
    split; [by apply find_free_bottomup_spec|by apply find_free_topdown_spec].
  - intros Hr%search_refuses_size. unfold VMATree_find_free_bottomup, VMATree_find_free_topdown.
    by rewrite Hr.
  - intros Hgt v (H1 & H2 & _). lia.
Qed.

End results.
