(* ===== verification/VmaExample.v ===== *)
(** * The VMA tree: height bound, and the theorems on a concrete tree

    Three mapped ranges of one page each below a list head, and one more node
    that is not in the tree.  The operations run on it by computation, and
    every theorem about the VMA tree is applied to it. *)

From S2P Require Import Prelude Align.
From S2P Require Export VmaFree.

Section height.
Local Open Scope Z_scope.

Lemma avl_size t : avl t → 2 ^ (hgt t / 2) <= Z.of_nat (length (keys t)) + 1.
Proof.
  induction t as [|l IHl x a r IHr]; [done|]. intros (Hh & Hb & Hl & Hr).
  specialize (IHl Hl). specialize (IHr Hr). rewrite length_keys_T. simpl hgt.
  pose proof (avl_hgt_nonneg _ Hl). pose proof (avl_hgt_nonneg _ Hr).
  destruct (decide (height a <= 1)) as [H1|H1].
  { assert (height a = 1) as -> by lia. change (2 ^ (1 / 2)) with 1. lia. }
  assert (∀ k, height a - 2 <= k → 2 ^ (height a / 2 - 1) <= 2 ^ (k / 2)) as Hmono.
  { intros k Hk. apply Z.pow_le_mono_r; [lia|].
    replace (height a / 2 - 1) with ((height a - 2) / 2); [apply Z.div_le_mono; lia|].
    replace (height a - 2) with (height a + -1 * 2) by lia. rewrite Z.div_add by lia. lia. }
  pose proof (Hmono (hgt l) ltac:(lia)). pose proof (Hmono (hgt r) ltac:(lia)).
  assert (1 <= height a / 2) by (apply Z.div_le_lower_bound; lia).
  replace (2 ^ (height a / 2)) with (2 * 2 ^ (height a / 2 - 1)).
  - lia.
  - rewrite <- Z.pow_succ_r by lia. f_equal. lia.
Qed.

(** Balance: a well-formed VMA tree with [n] ranges is at most
    [2 log2 (n + 1) + 1] high, so every descent from the root takes
    logarithmically many steps. *)
Theorem vma_height_bound st t :
  vma_wf st t → 2 ^ (hgt t / 2) <= Z.of_nat (length (ranges t)) + 1.
Proof.
  intros [_ _ _ Ha _ _]. replace (length (ranges t)) with (length (keys t)); [by apply avl_size|].
  rewrite keys_cores. unfold ranges. by rewrite !length_fmap.
Qed.

End height.

(** ** The example *)

Definition ex_vma (f e h g b : Z) : vma := mkVma f e h g b.

Definition ex_nodes : vmem :=
  list_to_map [
    (1, mkNode None None (Some 2) (ex_vma 4096 8191 1 4096 4096));
    (2, mkNode (Some 1) (Some 3) None (ex_vma 12288 16383 2 4096 16384));
    (3, mkNode None None (Some 2) (ex_vma 32768 36863 1 16384 16384));
    (4, mkNode None None None (ex_vma 20480 24575 0 0 0))]%positive.

Definition ex_lists : lmem :=
  list_to_map [(10, mkListHead 1 3); (1, mkListHead 2 10); (2, mkListHead 3 1);
               (3, mkListHead 10 2); (4, mkListHead 4 4)]%positive.

Definition ex_tree : VMATree := mkVMATree ex_nodes ex_lists 10%positive (Some 2%positive).

Definition ex_shape : tree vma :=
  T (T E 1%positive (ex_vma 4096 8191 1 4096 4096) E) 2%positive (ex_vma 12288 16383 2 4096 16384)
    (T E 3%positive (ex_vma 32768 36863 1 16384 16384) E).

Lemma ex_wf : vma_wf ex_tree ex_shape.
Proof.
  split.
  - vm_compute. repeat split.
  - done.
  - split; [apply (bool_decide_unpack _); vm_compute; done|vm_compute; repeat split].
  - vm_compute. repeat split; discriminate.
  - vm_compute. repeat split.
  - vm_compute. repeat split; discriminate.
Defined.

Definition ex_request : request := mkReq 8192 4096 5000 65535.

Lemma ex_request_ok : request_ok ex_request.
Proof. split; [simpl; lia|exists 12%Z; simpl; lia|simpl; lia|simpl; lia]. Defined.

(** The witnesses: each theorem applied to the example. *)

Lemma vma_height_bound_witness :
  vma_wf ex_tree ex_shape ∧ (2 ^ (hgt ex_shape / 2) <= Z.of_nat (length (ranges ex_shape)) + 1)%Z.
Proof. split; [apply ex_wf|apply (vma_height_bound ex_tree), ex_wf]. Defined.

Lemma VMATree_insert_correct_witness :
  ∃ st' t' l1 l2, VMATree_insert ex_tree 4%positive = Some st' ∧ vma_wf st' t' ∧
    m_list st' = m_list ex_tree ∧ ranges ex_shape = l1 ++ l2 ∧
    ranges t' = l1 ++ (4%positive, 20480%Z, 24575%Z) :: l2 ∧
    untouched (4%positive :: keys ex_shape) (nodes ex_tree) (nodes st') ∧
    frame_outside (lists ex_tree) (lists st') (4%positive :: m_list ex_tree :: keys ex_shape).
Proof.
  apply (VMATree_insert_correct ex_tree ex_shape 4%positive
           (mkNode None None None (ex_vma 20480 24575 0 0 0))).
  - apply ex_wf.
  - reflexivity.
  - apply (bool_decide_unpack _). vm_compute. done.
  - vm_compute. by eexists.
  - simpl. lia.
  - simpl. lia.
  - vm_compute. repeat constructor; (left; reflexivity) || (right; reflexivity).
Defined.

Lemma VMATree_remove_correct_witness :
  ∃ st' t' R1 f e R2, VMATree_remove ex_tree 2%positive = Some st' ∧ vma_wf st' t' ∧
    m_list st' = m_list ex_tree ∧ ranges ex_shape = R1 ++ (2%positive, f, e) :: R2 ∧
    ranges t' = R1 ++ R2 ∧ untouched (keys ex_shape) (nodes ex_tree) (nodes st') ∧
    frame_outside (lists ex_tree) (lists st') (m_list ex_tree :: keys ex_shape).
Proof.
  apply (VMATree_remove_correct ex_tree ex_shape 2%positive); [apply ex_wf|].
  apply (bool_decide_unpack _). vm_compute. done.
Defined.

Lemma VMATree_adjust_correct_witness :
  ∃ st1, resize ex_tree 2%positive 9000 20000 = Some st1 ∧
  ∃ st' t', VMATree_adjust st1 2%positive = Some st' ∧ vma_wf st' t' ∧
    ranges t' = [(1%positive, 4096%Z, 8191%Z)] ++ (2%positive, 9000%Z, 20000%Z) ::
                [(3%positive, 32768%Z, 36863%Z)] ∧
    untouched (keys ex_shape) (nodes ex_tree) (nodes st').
Proof.
  apply (VMATree_adjust_correct ex_tree ex_shape 2%positive [(1%positive, 4096%Z, 8191%Z)]
           12288 16383 [(3%positive, 32768%Z, 36863%Z)] 9000 20000).
  - apply ex_wf.
  - reflexivity.
  - lia.
  - lia.
  - repeat constructor.
  - repeat constructor.
Defined.

Lemma VMATree_lookups_correct_witness :
  VMATree_find ex_tree 33000 = Some (Some 3%positive) ∧
  VMATree_find_above ex_tree 33000 = Some (Some 3%positive) ∧
  VMATree_find_below ex_tree 33000 = Some (Some 3%positive) ∧
  (∃ res, VMATree_find ex_tree 33000 = Some res ∧
    match res with
    | Some x => ∃ a, (x, a) ∈ inorder ex_shape ∧ (first a <= 33000 <= last a)%Z
    | None => Forall (λ p, (33000 < first p.2 ∨ last p.2 < 33000)%Z) (inorder ex_shape)
    end) ∧
  (∃ res, VMATree_find_above ex_tree 33000 = Some res ∧
    first_such (λ a, (33000 <= last a)%Z) (inorder ex_shape) res) ∧
  (∃ res, VMATree_find_below ex_tree 33000 = Some res ∧
    last_such (λ a, (first a < 33000)%Z) (inorder ex_shape) res).
Proof.
  split; [reflexivity|]. split; [reflexivity|]. split; [reflexivity|].
  apply (VMATree_lookups_correct ex_tree), ex_wf.
Defined.

Lemma find_free_correct_witness :
  VMATree_find_free_bottomup ex_tree ex_request = Some (Some 16384%Z) ∧
  VMATree_find_free_topdown ex_tree ex_request = Some (Some 57344%Z) ∧
  (∃ res, VMATree_find_free_bottomup ex_tree ex_request = Some res ∧ lowest_fit ex_request (ranges ex_shape) res) ∧
  (∃ res, VMATree_find_free_topdown ex_tree ex_request = Some res ∧ highest_fit ex_request (ranges ex_shape) res).
Proof.
  split; [reflexivity|]. split; [reflexivity|].
  apply (find_free_correct ex_tree ex_shape ex_request); [apply ex_wf| |];
    destruct ex_request_ok; [split; (done || lia)|done].
Defined.
