(* ===== verification/Str.v ===== *)
(** * String and memory functions ([util/string.cc])

    A memory maps addresses to bytes; touching an address that holds no byte
    is undefined.  Loops over [n] bytes recurse on [n]; loops up to a
    terminating zero get as much fuel as the memory has bytes. *)

From S2P Require Import Prelude.

Section str_defs.
Local Open Scope Z_scope.

Abbreviation bmem := (gmap Z Z).
Implicit Types (m : gmap Z Z) (p s dst src : Z) (n : nat).

Definition load m p : option Z := m !! p.
(** Stores convert to [unsigned char]. *)
Definition store m p (v : Z) : option (gmap Z Z) :=
  _ ← m !! p; Some (<[p := wrap 8 v]> m).

Fixpoint memset m p (c : Z) n : option (gmap Z Z) :=
  match n with
  | O => Some m
  | S n => m ← store m p c; memset m (p + 1) c n
  end.

(** [mempcpy] returns the end of the copy; the loop is also the forward branch
    of [memmove]. *)
Fixpoint copy_forward m dst src n : option (gmap Z Z) :=
  match n with
  | O => Some m
  | S n => b ← load m src; m ← store m dst b; copy_forward m (dst + 1) (src + 1) n
  end.

Fixpoint copy_backward m dst src n : option (gmap Z Z) :=
  match n with
  | O => Some m
  | S n =>
    b ← load m (src + Z.of_nat n);
    m ← store m (dst + Z.of_nat n) b;
    copy_backward m dst src n
  end.

Definition mempcpy m dst src n : option (gmap Z Z * Z) :=
  m ← copy_forward m dst src n; Some (m, dst + Z.of_nat n).

Definition memcpy m dst src n : option (gmap Z Z * Z) :=
  '(m, _) ← mempcpy m dst src n; Some (m, dst).

Definition memmove m dst src n : option (gmap Z Z * Z) :=
  m ← (if decide (dst > src) then copy_backward m dst src n else copy_forward m dst src n);
  Some (m, dst).

Fixpoint memcmp m s1 s2 n : option Z :=
  match n with
  | O => Some 0
  | S n =>
    a ← load m s1;
    b ← load m s2;
    if decide (a ≠ b) then Some (a - b) else memcmp m (s1 + 1) (s2 + 1) n
  end.

Fixpoint strlen_loop (fuel : nat) m s (i : Z) : option Z :=
  match fuel with
  | O => None
  | S fuel => b ← load m (s + i); if decide (b ≠ 0) then strlen_loop fuel m s (i + 1) else Some i
  end.
Definition strlen m s : option Z := strlen_loop (S (size m)) m s 0.

Fixpoint stpcpy_loop (fuel : nat) m dst src : option (gmap Z Z * Z) :=
  match fuel with
  | O => None
  | S fuel =>
    b ← load m src;
    if decide (b ≠ 0) then m ← store m dst b; stpcpy_loop fuel m (dst + 1) (src + 1)
    else m ← store m dst 0; Some (m, dst)
  end.
Definition stpcpy m dst src : option (gmap Z Z * Z) := stpcpy_loop (S (size m)) m dst src.

Definition strcpy m dst src : option (gmap Z Z * Z) :=
  '(m, _) ← stpcpy m dst src; Some (m, dst).

Fixpoint strcmp_loop (fuel : nat) m s1 s2 : option Z :=
  match fuel with
  | O => None
  | S fuel =>
    a ← load m s1;
    b ← load m s2;
    if decide (a = b) then
      if decide (a = 0) then Some 0 else strcmp_loop fuel m (s1 + 1) (s2 + 1)
    else Some (a - b)
  end.
Definition strcmp m s1 s2 : option Z := strcmp_loop (S (size m)) m s1 s2.

Fixpoint strnlen m s n : option Z :=
  match n with
  | O => Some 0
  | S n => b ← load m s;
      if decide (b ≠ 0) then k ← strnlen m (s + 1) n; Some (1 + k) else Some 0
  end.

Fixpoint stpncpy m dst src n : option (gmap Z Z * Z) :=
  match n with
  | O => Some (m, dst)
  | S n =>
    b ← load m src;
    if decide (b ≠ 0) then m ← store m dst b; stpncpy m (dst + 1) (src + 1) n
    else m ← memset m dst 0 (S n); Some (m, dst)
  end.

Definition strncpy m dst src n : option (gmap Z Z * Z) :=
  '(m, _) ← stpncpy m dst src n; Some (m, dst).

Fixpoint strncmp m s1 s2 n : option Z :=
  match n with
  | O => Some 0
  | S n =>
    a ← load m s1;
    b ← load m s2;
    if decide (a ≠ b) then Some (a - b)
    else if decide (a = 0) then Some 0
    else strncmp m (s1 + 1) (s2 + 1) n
  end.

Fixpoint strchrnul_loop (fuel : nat) m s (c : Z) : option Z :=
  match fuel with
  | O => None
  | S fuel =>
    b ← load m s;
    if decide (b ≠ c) then if decide (b = 0) then Some s else strchrnul_loop fuel m (s + 1) c
    else Some s
  end.
Definition strchrnul m s (c : Z) : option Z := strchrnul_loop (S (size m)) m s c.

(** ** What the memory holds *)

Fixpoint bytes_at m p (l : list Z) : Prop :=
  match l with
  | [] => True
  | b :: l => m !! p = Some b ∧ bytes_at m (p + 1) l
  end.

Definition is_byte (b : Z) : Prop := 0 <= b < 256.
Definition is_char (b : Z) : Prop := 0 < b < 256.

(** A NUL-terminated string. *)
Definition cstr m p (l : list Z) : Prop := bytes_at m p (l ++ [0]) ∧ Forall is_char l.

Definition writable m p n : Prop := ∀ a, p <= a < p + Z.of_nat n → is_Some (m !! a).

Definition unchanged m m' (lo hi : Z) : Prop := ∀ a, a < lo ∨ hi <= a → m' !! a = m !! a.

(** The comparison of two strings: the difference of the first bytes that
    differ, where the end of a string counts as a zero byte. *)
Fixpoint cmp_bytes (l1 l2 : list Z) : Z :=
  match l1, l2 with
  | [], [] => 0
  | [], b :: _ => 0 - b
  | a :: _, [] => a
  | a :: l1, b :: l2 => if decide (a = b) then cmp_bytes l1 l2 else a - b
  end.

End str_defs.

Section str.
Local Open Scope Z_scope.
Implicit Types (m : gmap Z Z) (p s dst src : Z) (n : nat) (l : list Z).

Lemma bytes_at_ext m m' p l :
  (∀ a, p <= a < p + Z.of_nat (length l) → m' !! a = m !! a) → bytes_at m p l → bytes_at m' p l.
Proof.
  revert p. induction l as [|b l IH]; intros p Hf; [done|]. simpl in *. intros [H1 H2].
  split; [rewrite Hf; [done|lia]|]. apply IH; [|done]. intros a Ha. apply Hf. lia.
Qed.

Lemma bytes_at_app m p l1 l2 :
  bytes_at m p (l1 ++ l2) ↔ bytes_at m p l1 ∧ bytes_at m (p + Z.of_nat (length l1)) l2.
Proof.
  revert p. induction l1 as [|b l1 IH]; intros p; simpl.
  - rewrite Z.add_0_r. tauto.
  - rewrite IH. replace (p + 1 + Z.of_nat (length l1)) with (p + Z.of_nat (S (length l1))) by lia. tauto.
Qed.

Lemma bytes_at_size m p l : bytes_at m p l → (length l ≤ size m)%nat.
Proof.
  intros Hb. set (addrs := (λ i, p + Z.of_nat i) <$> seq 0 (length l)).
  assert (NoDup addrs) as Hnd.
  { apply NoDup_fmap_2; [|apply NoDup_seq]. intros i j. lia. }
  replace (length l) with (length addrs) by (unfold addrs; by rewrite length_fmap, length_seq).
  rewrite <- size_dom, <- (size_list_to_set (C := gset Z) addrs) by done.
  apply subseteq_size. intros a Ha%elem_of_list_to_set. apply elem_of_dom.
  apply list_elem_of_fmap in Ha as (i & -> & [_ Hi]%elem_of_seq).
  clear -Hb Hi. revert p i Hb Hi. induction l as [|b l IH]; intros p i Hb Hi; simpl in *; [lia|].
  destruct Hb as [Hp Hb]. destruct i as [|i]; [rewrite Z.add_0_r; by eexists|].
  replace (p + Z.of_nat (S i)) with (p + 1 + Z.of_nat i) by lia. apply IH; [done|lia].
Qed.

Lemma store_byte m p v : is_Some (m !! p) → store m p v = Some (<[p := wrap 8 v]> m).
Proof. intros [b Hb]. unfold store. by rewrite Hb. Qed.

Lemma wrap8_byte b : is_byte b → wrap 8 b = b.
Proof. intros. apply wrap_small. done. Qed.

Lemma writable_insert m p n a v : writable m p n → writable (<[a := v]> m) p n.
Proof.
  intros Hw b Hb. destruct (decide (a = b)) as [->|]; [rewrite lookup_insert_eq; by eexists|].
  rewrite lookup_insert_ne by done. by apply Hw.
Qed.

Lemma writable_tail m p n : writable m p (S n) → is_Some (m !! p) ∧ writable m (p + 1) n.
Proof. intros Hw. split; [apply Hw; lia|]. intros a Ha. apply Hw. lia. Qed.

(** Forward copying is right when the destination is not above the source or
    the regions are disjoint: no source byte is overwritten before it is
    read. *)
Lemma copy_forward_spec m dst src l :
  bytes_at m src l → Forall is_byte l → writable m dst (length l) →
  dst <= src ∨ src + Z.of_nat (length l) <= dst →
  ∃ m', copy_forward m dst src (length l) = Some m' ∧ bytes_at m' dst l ∧
        unchanged m m' dst (dst + Z.of_nat (length l)).
Proof.
  revert m dst src. induction l as [|b l IH]; intros m dst src Hb Hby Hw Hd; [by exists m|].
  destruct Hb as [Hs Hb]. apply writable_tail in Hw as [Hd0 Hw]. apply Forall_cons in Hby as [Hb0 Hby].
  simpl length in *. cbn [copy_forward]. unfold load. rewrite Hs. simpl mbind.
  rewrite (store_byte m dst b Hd0), wrap8_byte by done. simpl mbind.
  destruct (IH (<[dst := b]> m) (dst + 1) (src + 1)) as (m' & -> & Hb' & Hu').
  - eapply bytes_at_ext; [|exact Hb]. intros a Ha. apply lookup_insert_ne. lia.
  - done.
  - by apply writable_insert.
  - lia.
  - exists m'. split; [done|]. split; [split; [|done]|].
    + rewrite Hu' by lia. by rewrite lookup_insert_eq.
    + intros a Ha. rewrite Hu' by lia. apply lookup_insert_ne. lia.
Qed.

Lemma copy_backward_spec m dst src l :
  bytes_at m src l → Forall is_byte l → writable m dst (length l) → src < dst →
  ∃ m', copy_backward m dst src (length l) = Some m' ∧ bytes_at m' dst l ∧
        unchanged m m' dst (dst + Z.of_nat (length l)).
Proof.
  revert m. induction l as [|b l IH] using rev_ind; intros m Hb Hby Hw Hd; [by exists m|].
  rewrite length_app in *. simpl length in *. rewrite Nat.add_1_r in *. cbn [copy_backward].
  apply bytes_at_app in Hb as [Hb [Hs _]]. apply Forall_app in Hby as [Hby [Hb0 _]%Forall_cons].
  unfold load. rewrite Hs. simpl mbind.
  rewrite store_byte, wrap8_byte by (done || (apply Hw; lia)). simpl mbind.
  set (m1 := <[_ := b]> m).
  destruct (IH m1) as (m' & -> & Hb' & Hu').
  - eapply bytes_at_ext; [|exact Hb]. intros a Ha. apply lookup_insert_ne. lia.
  - done.
  - apply writable_insert. intros a Ha. apply Hw. lia.
  - done.
  - exists m'. split; [done|]. split.
    + apply bytes_at_app. split; [done|]. split; [|done]. rewrite Hu' by lia.
      unfold m1. by rewrite lookup_insert_eq.
    + intros a Ha. rewrite Hu' by lia. apply lookup_insert_ne. lia.
Qed.

(** [memmove] copies the bytes of the source region as they were before the
    call to the destination, for all overlaps of the two regions, and changes
    nothing outside the destination. *)
Theorem memmove_correct m dst src l :
  bytes_at m src l → Forall is_byte l → writable m dst (length l) →
  ∃ m', memmove m dst src (length l) = Some (m', dst) ∧ bytes_at m' dst l ∧
        unchanged m m' dst (dst + Z.of_nat (length l)).
Proof.
  intros Hb Hby Hw. unfold memmove. case_decide as Hd.
  - destruct (copy_backward_spec m dst src l) as (m' & -> & H); [done|done|done|lia|]. by exists m'.
  - destruct (copy_forward_spec m dst src l) as (m' & -> & H); [done|done|done|lia|]. by exists m'.
Qed.

Lemma memcpy_spec m dst src l :
  bytes_at m src l → Forall is_byte l → writable m dst (length l) →
  src + Z.of_nat (length l) <= dst ∨ dst + Z.of_nat (length l) <= src →
  ∃ m', memcpy m dst src (length l) = Some (m', dst) ∧ bytes_at m' dst l ∧
        unchanged m m' dst (dst + Z.of_nat (length l)).
Proof.
  intros Hb Hby Hw Hd. unfold memcpy, mempcpy.
  destruct (copy_forward_spec m dst src l) as (m' & -> & H); [done|done|done|lia|]. by exists m'.
Qed.

Lemma memset_spec m p c n :
  writable m p n →
  ∃ m', memset m p c n = Some m' ∧ bytes_at m' p (replicate n (wrap 8 c)) ∧
        unchanged m m' p (p + Z.of_nat n).
Proof.
  revert m p. induction n as [|n IH]; intros m p Hw; [by exists m|].
  apply writable_tail in Hw as [Hp Hw]. cbn [memset]. rewrite store_byte by done. simpl mbind.
  destruct (IH (<[p := wrap 8 c]> m) (p + 1)) as (m' & -> & Hb & Hu); [by apply writable_insert|].
  exists m'. split; [done|]. split; [split; [|done]|].
  - rewrite Hu by lia. by rewrite lookup_insert_eq.
  - intros a Ha. rewrite Hu by lia. apply lookup_insert_ne. lia.
Qed.

Lemma memcmp_spec m s1 s2 l1 l2 :
  bytes_at m s1 l1 → bytes_at m s2 l2 → length l1 = length l2 →
  memcmp m s1 s2 (length l1) = Some (cmp_bytes l1 l2).
Proof.
  revert s1 s2 l2. induction l1 as [|a l1 IH]; intros s1 s2 [|b l2] H1 H2 Hl; simplify_eq/=; [done|].
  destruct H1 as [Ha H1], H2 as [Hb H2]. unfold load. rewrite Ha, Hb. simpl.
  destruct (decide (a = b)) as [->|Hne].
  - rewrite decide_False by tauto. by apply IH.
  - by rewrite decide_True.
Qed.

(** ** NUL-terminated strings *)

Lemma cstr_cons m p b l : cstr m p (b :: l) ↔ m !! p = Some b ∧ is_char b ∧ cstr m (p + 1) l.
Proof. unfold cstr. simpl. rewrite Forall_cons. tauto. Qed.

Lemma cstr_nil m p : cstr m p [] ↔ m !! p = Some 0.
Proof.
  unfold cstr. simpl. split; [tauto|]. intros H. split; [done|constructor].
Qed.

Lemma cstr_size m p l : cstr m p l → (length l < size m)%nat.
Proof. intros [Hb _]. apply bytes_at_size in Hb. rewrite length_app in Hb. simpl in Hb. lia. Qed.

Lemma cstr_app_tail m p l1 l2 :
  cstr m p (l1 ++ l2) → cstr m (p + Z.of_nat (length l1)) l2.
Proof.
  intros [Hb Hf]. rewrite <- app_assoc in Hb. apply bytes_at_app in Hb as [_ Hb].
  apply Forall_app in Hf as [_ Hf]. done.
Qed.

Lemma strlen_loop_spec fuel m p l i :
  cstr m (p + i) l → (length l < fuel)%nat →
  strlen_loop fuel m p i = Some (i + Z.of_nat (length l)).
Proof.
  revert i fuel. induction l as [|b l IH]; intros i [|fuel] Hc Hf; simpl in Hf; try lia.
  - apply cstr_nil in Hc. simpl. unfold load. rewrite Hc. simpl. by rewrite Z.add_0_r.
  - apply cstr_cons in Hc as (Hb & Hch & Hc). simpl. unfold load. rewrite Hb. simpl.
    rewrite decide_True by (destruct Hch; lia).
    rewrite IH; [f_equal; lia|by rewrite Z.add_assoc|lia].
Qed.

Lemma strlen_spec m p l : cstr m p l → strlen m p = Some (Z.of_nat (length l)).
Proof.
  intros Hc. unfold strlen. rewrite (strlen_loop_spec _ _ _ l); [done|by rewrite Z.add_0_r|].
  pose proof (cstr_size _ _ _ Hc). lia.
Qed.

Lemma strnlen_spec m p l n : cstr m p l → strnlen m p n = Some (Z.of_nat (Nat.min (length l) n)).
Proof.
  revert p n. induction l as [|b l IH]; intros p [|n] Hc; simpl; try done.
  - apply cstr_nil in Hc. unfold load. by rewrite Hc.
  - apply cstr_cons in Hc as (Hb & Hch & Hc). unfold load. rewrite Hb. simpl.
    rewrite decide_True by (destruct Hch; lia). rewrite (IH _ _ Hc). simpl. f_equal. lia.
Qed.

Lemma strcmp_loop_spec fuel m s1 s2 l1 l2 :
  cstr m s1 l1 → cstr m s2 l2 → (length l1 < fuel)%nat →
  strcmp_loop fuel m s1 s2 = Some (cmp_bytes l1 l2).
Proof.
  revert s1 s2 l2 fuel. induction l1 as [|a l1 IH]; intros s1 s2 l2 [|fuel] H1 H2 Hf;
    simpl in Hf; try lia; simpl; unfold load.
  - apply cstr_nil in H1. rewrite H1. simpl. destruct l2 as [|b l2].
    + apply cstr_nil in H2. by rewrite H2.
    + apply cstr_cons in H2 as (Hb & Hch & _). rewrite Hb. simpl.
      rewrite decide_False by (destruct Hch; lia). done.
  - apply cstr_cons in H1 as (Ha & Hca & H1). rewrite Ha. simpl. destruct l2 as [|b l2].
    + apply cstr_nil in H2. rewrite H2. simpl. rewrite decide_False by (destruct Hca; lia). f_equal. lia.
    + apply cstr_cons in H2 as (Hb & Hcb & H2). rewrite Hb. simpl.
      destruct (decide (a = b)) as [->|]; [|done].
      rewrite decide_False by (destruct Hcb; lia). apply IH; [done|done|lia].
Qed.

Lemma cmp_bytes_zero l1 l2 :
  Forall is_char l1 → Forall is_char l2 → cmp_bytes l1 l2 = 0 ↔ l1 = l2.
Proof.
  revert l2. induction l1 as [|a l1 IH]; intros [|b l2] H1 H2; simpl; [done|..].
  - apply Forall_cons in H2 as [[??] _]. split; [lia|done].
  - apply Forall_cons in H1 as [[??] _]. split; [lia|done].
  - apply Forall_cons in H1 as [? H1], H2 as [? H2]. case_decide as Hd.
    + subst. rewrite IH by done. split; [by intros ->|by intros [= ->]].
    + split; [lia|]. by intros [= -> ->].
Qed.

Lemma cmp_bytes_antisym l1 l2 : cmp_bytes l1 l2 = - cmp_bytes l2 l1.
Proof.
  revert l2. induction l1 as [|a l1 IH]; intros [|b l2]; simpl; try lia.
  repeat case_decide; simplify_eq; [apply IH|lia].
Qed.

(** [strcmp] terminates on two strings and returns the difference of the
    first differing bytes as unsigned characters; it is zero exactly for equal
    strings and changes sign when the arguments are swapped. *)
Theorem strcmp_correct m s1 s2 l1 l2 :
  cstr m s1 l1 → cstr m s2 l2 →
  strcmp m s1 s2 = Some (cmp_bytes l1 l2) ∧
  (strcmp m s1 s2 = Some 0 ↔ l1 = l2) ∧
  strcmp m s2 s1 = Some (- cmp_bytes l1 l2).
Proof.
  intros H1 H2. pose proof (cstr_size _ _ _ H1). pose proof (cstr_size _ _ _ H2).
  assert (strcmp m s1 s2 = Some (cmp_bytes l1 l2)) as E1 by (apply strcmp_loop_spec; [done|done|lia]).
  assert (strcmp m s2 s1 = Some (cmp_bytes l2 l1)) as E2 by (apply strcmp_loop_spec; [done|done|lia]).
  rewrite E1, E2, (cmp_bytes_antisym l2 l1). split_and!; [done| |done].
  rewrite <- (cmp_bytes_zero l1 l2) by (by destruct H1, H2). split; [by intros [= ->]|by intros ->].
Qed.

Lemma strncmp_spec m s1 s2 l1 l2 n :
  cstr m s1 l1 → cstr m s2 l2 → strncmp m s1 s2 n = Some (cmp_bytes (take n l1) (take n l2)).
Proof.
  revert s1 s2 l1 l2. induction n as [|n IH]; intros s1 s2 l1 l2 H1 H2; [done|].
  simpl. unfold load. destruct l1 as [|a l1], l2 as [|b l2].
  - apply cstr_nil in H1, H2. rewrite H1, H2. done.
  - apply cstr_nil in H1. apply cstr_cons in H2 as (Hb & [??] & _). rewrite H1, Hb. simpl.
    rewrite decide_True by lia. done.
  - apply cstr_nil in H2. apply cstr_cons in H1 as (Ha & [??] & _). rewrite H2, Ha. simpl.
    rewrite decide_True by lia. f_equal. lia.
  - apply cstr_cons in H1 as (Ha & [??] & H1), H2 as (Hb & _ & H2). rewrite Ha, Hb. simpl.
    destruct (decide (a = b)) as [->|Hne].
    + rewrite decide_False by tauto. rewrite decide_False by lia. by apply IH.
    + by rewrite decide_True.
Qed.

(** [strchrnul] stops at the first occurrence of the character or at the end. *)
Lemma strchrnul_loop_spec fuel m s c l1 l2 :
  cstr m s (l1 ++ l2) → c ∉ l1 → head l2 = Some c ∨ l2 = [] → (length l1 < fuel)%nat →
  strchrnul_loop fuel m s c = Some (s + Z.of_nat (length l1)).
Proof.
  revert s fuel. induction l1 as [|b l1 IH]; intros s [|fuel] Hc Hn Hl Hf; simpl in Hf; try lia; simpl.
  - rewrite Z.add_0_r. destruct l2 as [|b l2]; simpl in Hc.
    + apply cstr_nil in Hc. unfold load. rewrite Hc. simpl. case_decide; [|done]. done.
    + apply cstr_cons in Hc as (Hb & _ & _). unfold load. rewrite Hb. simpl.
      destruct Hl as [[= ->]|]; [|done]. by rewrite decide_False by tauto.
  - apply cstr_cons in Hc as (Hb & [??] & Hc). unfold load. rewrite Hb. simpl.
    rewrite decide_True by set_solver. rewrite decide_False by lia.
    rewrite IH; [f_equal; lia|done|set_solver|done|lia].
Qed.

(** [stpncpy] (and with it [strncpy]) fills exactly [n] bytes of the
    destination with the string cut off at [n] characters and padded with
    zeroes, and returns the end of the copied part; it never writes past the
    [n] bytes, and leaves no terminator when the string is too long. *)
Theorem stpncpy_correct m dst src l n :
  cstr m src l → writable m dst n →
  src + Z.of_nat (length l) + 1 <= dst ∨ dst + Z.of_nat n <= src →
  ∃ m', stpncpy m dst src n = Some (m', dst + Z.of_nat (Nat.min (length l) n)) ∧
    bytes_at m' dst (take n l ++ replicate (n - length l) 0) ∧
    unchanged m m' dst (dst + Z.of_nat n).
Proof.
  revert m dst src l. induction n as [|n IH]; intros m dst src l Hc Hw Hd.
  - exists m. rewrite Nat.min_0_r, Z.add_0_r. by destruct l.
  - destruct l as [|b l].
    + apply cstr_nil in Hc. cbn [stpncpy]. unfold load. rewrite Hc. cbn [mbind option_bind]. rewrite decide_False by tauto.
      destruct (memset_spec m dst 0 (S n) Hw) as (m' & -> & Hb & Hu).
      exists m'. simpl mbind. rewrite Z.add_0_r. done.
    + apply cstr_cons in Hc as (Hb & Hch & Hc). apply writable_tail in Hw as [Hd0 Hw].
      cbn [stpncpy]. unfold load. rewrite Hb. simpl mbind.
      rewrite decide_True by (destruct Hch; lia). rewrite store_byte by done.
      rewrite wrap8_byte by (destruct Hch; split; lia). simpl mbind. simpl length in *.
      destruct (IH (<[dst := b]> m) (dst + 1) (src + 1) l) as (m' & E & Hb' & Hu').
      * destruct Hc as [Hc1 Hc2]. split; [|done]. eapply bytes_at_ext; [|exact Hc1].
        intros a Ha. rewrite length_app in Ha. simpl in Ha. apply lookup_insert_ne. lia.
      * by apply writable_insert.
      * lia.
      * exists m'. rewrite E. split; [do 2 f_equal; lia|]. split; [split; [|done]|].
        -- rewrite Hu' by lia. by rewrite lookup_insert_eq.
        -- intros a Ha. rewrite Hu' by lia. apply lookup_insert_ne. lia.
Qed.

End str.

(** ** A concrete memory *)

(** "abc" at address 0, "abd" at address 4, and eight writable bytes at 8. *)
Definition ex_mem : gmap Z Z :=
  list_to_map [(0, 97); (1, 98); (2, 99); (3, 0); (4, 97); (5, 98); (6, 100); (7, 0);
               (8, 7); (9, 7); (10, 7); (11, 7); (12, 7); (13, 7); (14, 7); (15, 7)]%Z.

Lemma ex_writable p n :
  forallb (λ i, bool_decide (is_Some (ex_mem !! (p + Z.of_nat i)%Z))) (seq 0 n) = true →
  writable ex_mem p n.
Proof.
  intros H a Ha. rewrite forallb_forall in H.
  specialize (H (Z.to_nat (a - p))). rewrite Z2Nat.id in H by lia.
  replace (p + (a - p))%Z with a in H by lia.
  apply (bool_decide_eq_true_1 (is_Some (ex_mem !! a))), H, in_seq. lia.
Qed.

(** Moving three bytes up by one, over themselves. *)
Lemma memmove_correct_witness :
  ∃ m', memmove ex_mem 1 0 3 = Some (m', 1%Z) ∧ bytes_at m' 1 [97; 98; 99]%Z ∧
        unchanged ex_mem m' 1 4.
Proof.
  apply (memmove_correct ex_mem 1 0 [97; 98; 99]%Z).
  - vm_compute. repeat split.
  - repeat constructor; discriminate.
  - apply (ex_writable 1 3). vm_compute. reflexivity.
Defined.

Lemma ex_abc : cstr ex_mem 0 [97; 98; 99]%Z.
Proof. split; [vm_compute; repeat split|repeat constructor]. Defined.

Lemma ex_abd : cstr ex_mem 4 [97; 98; 100]%Z.
Proof. split; [vm_compute; repeat split|repeat constructor]. Defined.

Lemma strcmp_correct_witness :
  strcmp ex_mem 0 4 = Some (-1)%Z ∧
  (strcmp ex_mem 0 4 = Some 0%Z ↔ [97; 98; 99]%Z = [97; 98; 100]%Z) ∧
  strcmp ex_mem 4 0 = Some 1%Z.
Proof. exact (strcmp_correct ex_mem 0 4 _ _ ex_abc ex_abd). Defined.

Lemma stpncpy_correct_witness :
  ∃ m', stpncpy ex_mem 8 0 5 = Some (m', 11%Z) ∧
    bytes_at m' 8 [97; 98; 99; 0; 0]%Z ∧ unchanged ex_mem m' 8 13.
Proof.
  apply (stpncpy_correct ex_mem 8 0 [97; 98; 99]%Z 5); [exact ex_abc| |simpl; lia].
  apply (ex_writable 8 5). vm_compute. reflexivity.
Defined.
