(* ===== verification/Vsnprintf.v ===== *)
(** * Formatted output ([util/vsnprintf.cc])

    The output cursor [snprintf_output] is the list of the characters stored so
    far (the bytes below [pos]) and the room left.  The format string is the
    list of its characters; its end is the terminating zero.  [va_list] is a
    list of tagged arguments; fetching an argument of the wrong kind is
    undefined. *)

From S2P Require Import Prelude Align.
From stdpp Require Import strings.
From Stdlib Require Import Ascii.

Section vsnprintf_defs.
Local Open Scope Z_scope.

Definition chars (s : string) : list Z :=
  (λ a, Z.of_nat (nat_of_ascii a)) <$> String.list_ascii_of_string s.

Record snprintf_output := mkOut { written : list Z; len : nat }.

Definition put_single_char (o : snprintf_output) (c : Z) : snprintf_output :=
  match len o with
  | O => o
  | S k => mkOut (written o ++ [c]) k
  end.

Definition rep_single_char (o : snprintf_output) (c : Z) (n : Z) : snprintf_output :=
  let n := Nat.min (Z.to_nat n) (len o) in
  mkOut (written o ++ replicate n c) (len o - n).

Definition put_string (o : snprintf_output) (s : list Z) : snprintf_output :=
  let n := Nat.min (length s) (len o) in
  mkOut (written o ++ take n s) (len o - n).

Record fmtspec := mkSpec { width : Z; precision : Z; flags : Z }.

Definition PR_LEFT : Z := 1.
Definition PR_PLUS : Z := 2.
Definition PR_SPACE : Z := 4.
Definition PR_ZERO : Z := 8.
Definition PR_SPECIAL : Z := 16.
Definition PR_UPPER : Z := 32.

Definition has (spec : fmtspec) (f : Z) : bool := negb (Z.land (flags spec) f =? 0).
Definition with_width (spec : fmtspec) (w : Z) : fmtspec := mkSpec w (precision spec) (flags spec).
Definition with_flags (spec : fmtspec) (f : Z) : fmtspec := mkSpec (width spec) (precision spec) f.

Definition c_space : Z := 32.
Definition c_zero : Z := 48.

(** ** Digits *)

Definition alpha (upper : bool) (d : Z) : Z :=
  if decide (d < 10) then 48 + d else (if upper then 65 else 97) + (d - 10).

(** The [do ... while (value)] loop filling [buf] from its end; the fuel is
    the size of the buffer. *)
Fixpoint digits (fuel : nat) (upper : bool) (base value : Z) (acc : list Z) : option (list Z) :=
  match fuel with
  | O => None
  | S fuel =>
    let acc := alpha upper (value mod base) :: acc in
    let value := value / base in
    if decide (value ≠ 0) then digits fuel upper base value acc else Some acc
  end.

Definition buflen : nat := 32.

Definition pad (o : snprintf_output) (on : bool) (c w : Z) : snprintf_output :=
  if on && bool_decide (w > 0) then rep_single_char o c w else o.

Definition do_unsigned (base : Z) (o : snprintf_output) (spec : fmtspec) (value : Z)
    : option snprintf_output :=
  buf ← digits buflen (has spec PR_UPPER) base value [];
  let w := width spec - Z.of_nat (length buf) in
  let w := if has spec PR_SPECIAL then
             (if decide (base = 8) then w - 1 else if decide (base = 16) then w - 2 else w)
           else w in
  let o := pad o (negb (has spec (Z.lor PR_ZERO PR_LEFT))) c_space w in
  let o := if has spec PR_SPECIAL then
             if decide (base = 8 ∨ base = 16) then
               let o := put_single_char o c_zero in
               if decide (base = 16) then put_single_char o (if has spec PR_UPPER then 88 else 120) else o
             else o
           else o in
  let zero := has spec PR_ZERO && bool_decide (w > 0) in
  let o := if zero then rep_single_char o c_zero w else o in
  let w := if zero then 0 else w in
  let o := put_string o buf in
  Some (pad o (has spec PR_LEFT) c_space w).

Definition INTMAX_MIN : Z := - 2 ^ 63.

(** [-(value + 1) + 1] in [intmax_t]: the last addition overflows, which is
    undefined, for [INTMAX_MIN]. *)
Definition magnitude (value : Z) : option Z :=
  if decide (value < 0) then
    if decide (value = INTMAX_MIN) then None else Some (- (value + 1) + 1)
  else Some value.

Definition do_signed (o : snprintf_output) (spec : fmtspec) (value : Z) : option snprintf_output :=
  let sign := if has spec PR_PLUS then 43 else if has spec PR_SPACE then 32 else 0 in
  let sign := if decide (value < 0) then 45 else sign in
  x ← magnitude value;
  buf ← digits buflen false 10 x [];
  let w := width spec - Z.of_nat (length buf) in
  let w := if decide (sign ≠ 0) then w - 1 else w in
  let o := pad o (negb (has spec (Z.lor PR_ZERO PR_LEFT))) c_space w in
  let o := if decide (sign ≠ 0) then put_single_char o sign else o in
  let zero := has spec PR_ZERO && bool_decide (w > 0) in
  let o := if zero then rep_single_char o c_zero w else o in
  let w := if zero then 0 else w in
  let o := put_string o buf in
  Some (pad o (has spec PR_LEFT) c_space w).

Definition do_string (o : snprintf_output) (spec : fmtspec) (s : option (list Z)) : snprintf_output :=
  let s := match s with Some s => s | None => chars "(nullptr)" end in
  let n := Nat.min (length s) (Z.to_nat (if decide (precision spec ≠ 0) then precision spec else 1024)) in
  let w := width spec - Z.of_nat n in
  let o := pad o (negb (has spec PR_LEFT)) c_space w in
  let o := put_string o (take n s) in
  pad o (has spec PR_LEFT) c_space w.

(** ** The format string *)

Definition deref (fmt : list Z) : Z := match fmt with [] => 0 | c :: _ => c end.

Definition try_consume (fmt : list Z) (c : Z) : option (list Z) :=
  match fmt with
  | c' :: fmt' => if decide (c' = c) then Some fmt' else None
  | [] => None
  end.

Definition is_digit (c : Z) : bool := (48 <=? c) && (c <=? 57).
Definition is_digit1 (c : Z) : bool := (49 <=? c) && (c <=? 57).

Fixpoint atoi_loop (i : nat) (x : Z) (fmt : list Z) : Z * list Z :=
  match i with
  | O => (0, fmt)
  | S i =>
    match fmt with
    | c :: fmt' => if is_digit c then atoi_loop i (x * 10 + (c - 48)) fmt' else (x, fmt)
    | [] => (x, fmt)
    end
  end.

Definition dumb_atoi (fmt : list Z) : Z * list Z :=
  atoi_loop 4 (deref fmt - 48) (tail fmt).

Definition flag_of (c : Z) : Z :=
  if decide (c = 45) then PR_LEFT else if decide (c = 43) then PR_PLUS
  else if decide (c = 32) then PR_SPACE else if decide (c = 48) then PR_ZERO
  else if decide (c = 35) then PR_SPECIAL else 0.

(** A repeated flag is an error. *)
Fixpoint parse_flags (fmt : list Z) (fl : Z) : option (list Z * Z) :=
  match fmt with
  | [] => Some (fmt, fl)
  | c :: fmt' =>
    let f := flag_of c in
    if decide (f = 0) then Some (fmt, fl)
    else if decide (Z.land fl f ≠ 0) then None
    else parse_flags fmt' (Z.lor fl f)
  end.

(** Variadic arguments: an integer register or slot, a string pointer, any
    other pointer. *)
Inductive varg := VInt (z : Z) | VStr (s : option (list Z)) | VPtr (p : Z).

Definition sext (w z : Z) : Z :=
  let z := wrap w z in if decide (z < 2 ^ (w - 1)) then z else z - 2 ^ w.

Definition next_arg (args : list varg) : option (varg * list varg) :=
  match args with a :: args => Some (a, args) | [] => None end.

Definition arg_int (args : list varg) : option (Z * list varg) :=
  '(a, args) ← next_arg args; match a with VInt z => Some (sext 32 z, args) | _ => None end.

(** What parsing of one directive yields: a message to print before giving up,
    or the rest of the format and of the arguments with the specification. *)
Inductive parsed :=
| Stop (msg : list Z)
| Go (fmt : list Z) (args : list varg) (spec : fmtspec).

Definition bad_string : list Z := chars "(bad format string)".
Definition bad_params : list Z := chars "(bad format parameters)".

Definition parse_width (fmt : list Z) (args : list varg) (spec : fmtspec) : option parsed :=
  match try_consume fmt 42 with
  | Some fmt =>
    '(w, args) ← arg_int args;
    if decide (w < -1024 ∨ precision spec > 1024) then Some (Stop bad_params)
    else if decide (w < 0) then
      Some (Go fmt args (mkSpec (- w) (precision spec) (Z.lor (flags spec) PR_LEFT)))
    else Some (Go fmt args (with_width spec w))
  | None =>
    if is_digit1 (deref fmt) then
      let '(w, fmt) := dumb_atoi fmt in
      if decide (w = 0) then Some (Stop bad_string) else Some (Go fmt args (with_width spec w))
    else Some (Go fmt args spec)
  end.

Definition parse_precision (fmt : list Z) (args : list varg) (spec : fmtspec) : option parsed :=
  match try_consume fmt 46 with
  | None => Some (Go fmt args spec)
  | Some fmt =>
    match try_consume fmt 42 with
    | Some fmt =>
      '(p, args) ← arg_int args;
      if decide (p < 0 ∨ p > 1024) then Some (Stop bad_params)
      else Some (Go fmt args (mkSpec (width spec) p (flags spec)))
    | None =>
      if is_digit1 (deref fmt) then
        let '(p, fmt) := dumb_atoi fmt in
        if decide (p = 0) then Some (Stop bad_string)
        else Some (Go fmt args (mkSpec (width spec) p (flags spec)))
      else Some (Stop bad_string)
    end
  end.

Definition parse_size (fmt : list Z) : Z * list Z :=
  match try_consume fmt 104 with
  | Some fmt => match try_consume fmt 104 with Some fmt => (0, fmt) | None => (1, fmt) end
  | None =>
    match try_consume fmt 108 with
    | Some fmt => match try_consume fmt 108 with Some fmt => (4, fmt) | None => (3, fmt) end
    | None =>
      match try_consume fmt 106 with
      | Some fmt => (5, fmt)
      | None =>
        match try_consume fmt 122 with
        | Some fmt => (6, fmt)
        | None => match try_consume fmt 116 with Some fmt => (7, fmt) | None => (2, fmt) end
        end
      end
    end
  end.

(** [size] 0, 1 and 2 fetch an [int], all others a 64-bit type. *)
Definition arg_signed (size : Z) (args : list varg) : option (Z * list varg) :=
  '(a, args) ← next_arg args;
  match a with
  | VInt z => Some (sext (if decide (size <= 2) then 32 else 64) z, args)
  | _ => None
  end.
Definition arg_unsigned (size : Z) (args : list varg) : option (Z * list varg) :=
  '(a, args) ← next_arg args;
  match a with
  | VInt z => Some (wrap (if decide (size <= 2) then 32 else 64) z, args)
  | _ => None
  end.

(** The [switch] on the conversion character: [inl] continues with the rest of the arguments,
    [inr] is the default case. *)
Definition convert (c size : Z) (o : snprintf_output) (spec : fmtspec) (args : list varg)
    : option (snprintf_output * list varg + snprintf_output) :=
  if decide (c = 37) then Some (inl (put_single_char o 37, args))
  else if decide (c = 99) then
    '(z, args) ← arg_int args; Some (inl (put_single_char o (wrap 8 z), args))
  else if decide (c = 115) then
    '(a, args) ← next_arg args;
    match a with VStr s => Some (inl (do_string o spec s, args)) | _ => None end
  else if decide (c = 100 ∨ c = 105) then
    '(z, args) ← arg_signed size args; o ← do_signed o spec z; Some (inl (o, args))
  else if decide (c = 117) then
    '(z, args) ← arg_unsigned size args; o ← do_unsigned 10 o spec z; Some (inl (o, args))
  else if decide (c = 111) then
    '(z, args) ← arg_unsigned size args; o ← do_unsigned 8 o spec z; Some (inl (o, args))
  else if decide (c = 88) then
    '(z, args) ← arg_unsigned size args;
    o ← do_unsigned 16 o (with_flags spec (Z.lor (flags spec) PR_UPPER)) z; Some (inl (o, args))
  else if decide (c = 120) then
    '(z, args) ← arg_unsigned size args; o ← do_unsigned 16 o spec z; Some (inl (o, args))
  else if decide (c = 112) then
    '(a, args) ← next_arg args;
    match a with
    | VPtr p =>
      o ← do_unsigned 16 o (mkSpec 18 (precision spec) (Z.lor PR_ZERO PR_SPECIAL)) p;
      Some (inl (o, args))
    | _ => None
    end
  else Some (inr (put_string o bad_string)).

(** [strchrnul (fmt, '%')]: the characters before the first percent sign, and
    what follows it. *)
Fixpoint split_percent (fmt : list Z) : list Z * option (list Z) :=
  match fmt with
  | [] => ([], None)
  | c :: fmt => if decide (c = 37) then ([], Some fmt)
                else let '(l, r) := split_percent fmt in (c :: l, r)
  end.

Fixpoint format_loop (fuel : nat) (o : snprintf_output) (fmt : list Z) (args : list varg)
    : option snprintf_output :=
  match fuel with
  | O => None
  | S fuel =>
    let '(lit, rest) := split_percent fmt in
    let o := put_string o lit in
    match rest with
    | None => Some o
    | Some fmt =>
      match parse_flags fmt 0 with
      | None => Some (put_string o bad_string)
      | Some (fmt, fl) =>
        r ← parse_width fmt args (mkSpec 0 0 fl);
        match r with
        | Stop msg => Some (put_string o msg)
        | Go fmt args spec =>
          r ← parse_precision fmt args spec;
          match r with
          | Stop msg => Some (put_string o msg)
          | Go fmt args spec =>
            let '(size, fmt) := parse_size fmt in
            r ← convert (deref fmt) size o spec args;
            match r with
            | inr o => Some o
            | inl (o, args) => format_loop fuel o (tail fmt) args
            end
          end
        end
      end
    end
  end.

(** The contents of [buf] up to and including the terminating zero; the empty
    list when nothing is written. *)
Definition vsnprintf (size : nat) (fmt : list Z) (args : list varg) : option (list Z) :=
  match size with
  | O => Some []
  | S room => o ← format_loop (S (length fmt)) (mkOut [] room) fmt args; Some (written o ++ [0])
  end.

End vsnprintf_defs.

Section digits.
Local Open Scope Z_scope.

(** ** Digits *)

Definition digit_value (c : Z) : Z :=
  if decide (c <= 57) then c - 48 else if decide (c <= 70) then c - 55 else c - 87.

(** The number a digit string denotes. *)
Definition number (base : Z) (l : list Z) : Z := foldl (λ acc c, acc * base + digit_value c) 0 l.

Lemma digit_value_alpha up d : 0 <= d < 16 → digit_value (alpha up d) = d.
Proof. intros. unfold digit_value, alpha. destruct up; repeat case_decide; lia. Qed.

Lemma number_snoc base l c : number base (l ++ [c]) = number base l * base + digit_value c.
Proof. unfold number. by rewrite foldl_app. Qed.

Lemma digits_spec fuel up base v acc :
  2 <= base <= 16 → 0 <= v < base ^ Z.of_nat fuel → (0 < fuel)%nat →
  ∃ buf, digits fuel up base v acc = Some (buf ++ acc) ∧ buf ≠ [] ∧ (length buf ≤ fuel)%nat ∧
    number base buf = v ∧ (head buf = Some 48 → buf = [48]).
Proof.
  intros Hb. revert v acc. induction fuel as [|fuel IH]; intros v acc Hv Hf; [lia|]. simpl.
  pose proof (Z.div_mod v base ltac:(lia)) as Hdm. pose proof (Z.mod_pos_bound v base ltac:(lia)).
  set (d := alpha up (v mod base)).
  assert (digit_value d = v mod base) as Hd by (apply digit_value_alpha; lia).
  case_decide as Hq.
  - destruct fuel as [|fuel].
    { exfalso. apply Hq. apply Z.div_small. change (Z.of_nat 1) with 1 in Hv. lia. }
    destruct (IH (v / base) (d :: acc)) as (buf & E & Hne & Hl & Hn & Hz).
    + split; [apply Z.div_pos; lia|]. apply Z.div_lt_upper_bound; [lia|].
      rewrite Nat2Z.inj_succ, Z.pow_succ_r in Hv by lia. lia.
    + lia.
    + exists (buf ++ [d]). split_and!.
      * by rewrite <- app_assoc.
      * by destruct buf.
      * rewrite length_app. simpl in *. lia.
      * rewrite number_snoc, Hn, Hd. lia.
      * destruct buf as [|c buf]; [done|]. intros Hh. specialize (Hz Hh). injection Hz as -> ->.
        exfalso. apply Hq. unfold number in Hn. simpl in Hn. unfold digit_value in Hn.
        rewrite decide_True in Hn by lia. lia.
  - exists [d]. split_and!; [done|done|simpl; lia| |by intros [= ->]].
    unfold number. simpl. rewrite Hd. assert (v / base = 0) as Hz by lia. rewrite Hz in Hdm. lia.
Qed.

(** C37. Number conversion: for every 64-bit value and the bases the format
    characters use, the digit loop stays inside its 32-byte buffer, and the
    digits it prints denote the value and have no leading zero. *)
Theorem digits_correct up base v :
  base = 8 ∨ base = 10 ∨ base = 16 → 0 <= v < 2 ^ 64 →
  ∃ buf, digits buflen up base v [] = Some buf ∧ (0 < length buf ≤ buflen)%nat ∧
    number base buf = v ∧ (head buf = Some 48 → v = 0).
Proof.
  intros Hb Hv. destruct (digits_spec buflen up base v []) as (buf & E & Hne & Hl & Hn & Hz).
  - lia.
  - unfold buflen. destruct Hb as [-> | [-> | ->]]; simpl; lia.
  - unfold buflen. lia.
  - rewrite app_nil_r in E. exists buf. split_and!; [done| |done|done|].
    + destruct buf; simpl; [done|lia].
    + intros Hh. rewrite (Hz Hh) in Hn. by rewrite <- Hn.
Qed.

Lemma digits_correct_witness :
  ∃ buf, digits buflen true 16 51966 [] = Some buf ∧ (0 < length buf ≤ buflen)%nat ∧
    number 16 buf = 51966 ∧ (head buf = Some 48 → 51966 = 0).
Proof. apply (digits_correct true 16 51966); lia. Defined.

(** Except for [INTMAX_MIN], the magnitude is the absolute value. *)
Lemma magnitude_abs v : - 2 ^ 63 < v < 2 ^ 63 → magnitude v = Some (Z.abs v).
Proof. intros Hv. unfold magnitude, INTMAX_MIN. repeat case_decide; (lia || f_equal; lia). Qed.

End digits.

Section truncation.
Implicit Types (o : snprintf_output) (spec : fmtspec) (args : list varg) (fmt : list Z).

(** ** Output of bounded size is the truncation of the unbounded output *)

(** [o1] has room for [n] characters in all, [o2] for [N]; what [o1] holds is
    the first [n] characters of what [o2] holds. *)
Definition cut (n N : nat) o1 o2 : Prop :=
  (len o1 + length (written o1) = n ∧ len o2 + length (written o2) = N ∧
   written o1 = take n (written o2))%nat.

Lemma put_string_cut n N o1 o2 s :
  n ≤ N → cut n N o1 o2 → cut n N (put_string o1 s) (put_string o2 s).
Proof.
  intros Hn (H1 & H2 & H3). unfold cut, put_string. simpl.
  rewrite !length_app, !length_take. split_and!; [lia|lia|].
  rewrite take_app, take_take, H3.
  assert (length (written o1) = Nat.min n (length (written o2))) as Hl by (by rewrite H3, length_take).
  f_equal. destruct (decide (length (written o2) ≤ n)) as [Hle|Hgt].
  - destruct (decide (length s ≤ len o1)).
    + rewrite !take_ge by lia. done.
    + f_equal. lia.
  - replace (len o1) with 0 by lia. replace (n - length (written o2)) with 0 by lia.
    by rewrite Nat.min_0_r.
Qed.

Lemma rep_put_string o c n : rep_single_char o c n = put_string o (replicate (Z.to_nat n) c).
Proof.
  unfold rep_single_char, put_string. rewrite length_replicate, take_replicate.
  by rewrite (Nat.min_l (Nat.min (Z.to_nat n) (len o)) (Z.to_nat n)) by lia.
Qed.

Lemma put_single_put_string o c : put_single_char o c = put_string o [c].
Proof.
  unfold put_single_char, put_string. destruct o as [w [|k]]; simpl.
  - by rewrite app_nil_r.
  - by rewrite Nat.sub_0_r.
Qed.

Lemma pad_cut n N o1 o2 b c w : n ≤ N → cut n N o1 o2 → cut n N (pad o1 b c w) (pad o2 b c w).
Proof.
  intros Hn Hc. unfold pad. destruct (b && _); [|done]. rewrite !rep_put_string.
  by apply put_string_cut.
Qed.

Hint Resolve put_string_cut pad_cut : davix.

(** Both outcomes of an operation are related. *)
Definition cut_opt (n N : nat) (r1 r2 : option snprintf_output) : Prop :=
  match r1, r2 with Some o1, Some o2 => cut n N o1 o2 | None, None => True | _, _ => False end.

Ltac cut_step :=
  match goal with
  | |- cut _ _ (if ?b then _ else _) (if ?b then _ else _) => destruct b
  | |- cut _ _ (put_single_char _ _) _ => rewrite !put_single_put_string
  | |- cut _ _ (rep_single_char _ _ _) _ => rewrite !rep_put_string
  | |- cut _ _ (put_string _ _) (put_string _ _) => apply put_string_cut; [done|]
  | |- cut _ _ (pad _ _ _ _) (pad _ _ _ _) => apply pad_cut; [done|]
  end.

Lemma do_unsigned_cut n N base o1 o2 spec v :
  n ≤ N → cut n N o1 o2 → cut_opt n N (do_unsigned base o1 spec v) (do_unsigned base o2 spec v).
Proof.
  intros Hn Hc. unfold do_unsigned. destruct (digits _ _ _ _ _) as [buf|]; [|done]. simpl.
  repeat cut_step; done.
Qed.

Lemma do_signed_cut n N o1 o2 spec v :
  n ≤ N → cut n N o1 o2 → cut_opt n N (do_signed o1 spec v) (do_signed o2 spec v).
Proof.
  intros Hn Hc. unfold do_signed. destruct (magnitude v) as [x|]; [|done]. cbn [mbind option_bind].
  destruct (digits _ _ _ _ _) as [buf|]; [|done]. simpl.
  repeat cut_step; done.
Qed.

Lemma do_string_cut n N o1 o2 spec s :
  n ≤ N → cut n N o1 o2 → cut n N (do_string o1 spec s) (do_string o2 spec s).
Proof. intros Hn Hc. unfold do_string. repeat cut_step; done. Qed.

Definition cut_conv (n N : nat) (r1 r2 : option (snprintf_output * list varg + snprintf_output)) : Prop :=
  match r1, r2 with
  | None, None => True
  | Some (inl (o1, a1)), Some (inl (o2, a2)) => cut n N o1 o2 ∧ a1 = a2
  | Some (inr o1), Some (inr o2) => cut n N o1 o2
  | _, _ => False
  end.

Lemma cut_conv_bind n N r1 r2 args :
  cut_opt n N r1 r2 →
  cut_conv n N (o ← r1; Some (inl (o, args))) (o ← r2; Some (inl (o, args))).
Proof. destruct r1, r2; simpl; tauto. Qed.

Lemma convert_cut n N c size o1 o2 spec args :
  n ≤ N → cut n N o1 o2 →
  cut_conv n N (convert c size o1 spec args) (convert c size o2 spec args).
Proof.
  intros Hn Hc. unfold convert, arg_int, arg_signed, arg_unsigned.
  repeat case_decide; try (destruct args as [|[z|s|p] args]; simpl; try done).
  all: try (apply cut_conv_bind; first [apply do_signed_cut|apply do_unsigned_cut]; done).
  all: rewrite ?put_single_put_string; try (split; [|done]); auto using put_string_cut, do_string_cut.
Qed.

Lemma format_loop_cut n N fuel o1 o2 fmt args :
  n ≤ N → cut n N o1 o2 →
  cut_opt n N (format_loop fuel o1 fmt args) (format_loop fuel o2 fmt args).
Proof.
  intros Hn. revert o1 o2 fmt args. induction fuel as [|fuel IH]; intros o1 o2 fmt args Hc; [done|].
  simpl. destruct (split_percent fmt) as [lit [rest|]]; [|by apply put_string_cut].
  assert (cut n N (put_string o1 lit) (put_string o2 lit)) as Hc' by (by apply put_string_cut).
  set (p1 := put_string o1 lit) in *. set (p2 := put_string o2 lit) in *.
  destruct (parse_flags rest 0) as [[fmt1 fl]|]; [|by apply put_string_cut].
  destruct (parse_width fmt1 args _) as [[msg|fmt2 args2 spec2]|]; simpl; [by apply put_string_cut| |done].
  destruct (parse_precision fmt2 args2 spec2) as [[msg|fmt3 args3 spec3]|]; simpl; [by apply put_string_cut| |done].
  destruct (parse_size fmt3) as [size fmt4].
  pose proof (convert_cut n N (deref fmt4) size p1 p2 spec3 args3 Hn Hc') as Hcv.
  destruct (convert _ _ p1 _ _) as [[[q1 a1]|q1]|], (convert _ _ p2 _ _) as [[[q2 a2]|q2]|];
    simpl in *; try done.
  destruct Hcv as [Hq ->]. by apply IH.
Qed.

(** C36. Bounded output: [vsnprintf] into a buffer of [size] bytes stores a
    prefix of the text it would store into any larger buffer, followed by a
    zero byte, and never more than [size] bytes; whether the call is defined
    does not depend on the buffer size. *)
Theorem vsnprintf_truncates (size bigger : nat) fmt args :
  0 < size ≤ bigger →
  match vsnprintf bigger fmt args with
  | Some out => ∃ text, out = text ++ [0%Z] ∧
      vsnprintf size fmt args = Some (take (size - 1) text ++ [0%Z]) ∧
      length (take (size - 1) text ++ [0%Z]) ≤ size
  | None => vsnprintf size fmt args = None
  end.
Proof.
  intros Hs. destruct size as [|n]; [lia|]. destruct bigger as [|N]; [lia|]. unfold vsnprintf.
  pose proof (format_loop_cut n N (S (length fmt)) (mkOut [] n) (mkOut [] N) fmt args ltac:(lia)) as Hc.
  destruct (format_loop _ (mkOut [] N) _ _) as [o2|], (format_loop _ (mkOut [] n) _ _) as [o1|];
    cbn [mbind option_bind]; try (exfalso; apply Hc; unfold cut; simpl; rewrite take_nil; split_and!; lia || done).
  - destruct Hc as (H1 & H2 & H3); [unfold cut; simpl; rewrite take_nil; split_and!; lia || done|].
    exists (written o2). split_and!; [done| |].
    + by rewrite H3, Nat.sub_succ, Nat.sub_0_r.
    + rewrite length_app, length_take. simpl. lia.
  - done.
Qed.

Lemma vsnprintf_truncates_witness :
  0 < 5 ≤ 40 ∧
  match vsnprintf 40 (chars "%05d %s") [VInt 42; VStr (Some (chars "davix"))] with
  | Some out => ∃ text, out = text ++ [0%Z] ∧
      vsnprintf 5 (chars "%05d %s") [VInt 42; VStr (Some (chars "davix"))] =
        Some (take (5 - 1) text ++ [0%Z]) ∧
      length (take (5 - 1) text ++ [0%Z]) ≤ 5
  | None => vsnprintf 5 (chars "%05d %s") [VInt 42; VStr (Some (chars "davix"))] = None
  end.
Proof. split; [lia|apply (vsnprintf_truncates 5 40); lia]. Defined.

(** ** The fuel is enough *)

Lemma split_percent_rest fmt lit rest :
  split_percent fmt = (lit, Some rest) → length rest < length fmt.
Proof.
  revert lit. induction fmt as [|c fmt IH]; intros lit; simpl; [done|]. case_decide.
  - intros [= _ ->]. lia.
  - destruct (split_percent fmt) as [l r]. intros [= _ ->]. specialize (IH l eq_refl). lia.
Qed.

Lemma parse_flags_rest fmt fl rest fl' : parse_flags fmt fl = Some (rest, fl') → length rest ≤ length fmt.
Proof.
  revert fl. induction fmt as [|c fmt IH]; intros fl; simpl; [by intros [= <- _]|].
  repeat case_decide; simpl; [by intros [= <- _]|done|]. intros Hr%IH. lia.
Qed.

Lemma try_consume_rest fmt c rest : try_consume fmt c = Some rest → length rest < length fmt.
Proof. destruct fmt; simpl; [done|]. case_decide; [|done]. intros [= ->]. lia. Qed.

Lemma atoi_loop_rest i x fmt : length (atoi_loop i x fmt).2 ≤ length fmt.
Proof.
  revert x fmt. induction i as [|i IH]; intros x [|c fmt]; simpl; try lia.
  destruct (is_digit c); simpl; [|lia]. specialize (IH (x * 10 + (c - 48))%Z fmt). lia.
Qed.

Lemma dumb_atoi_rest fmt : length (dumb_atoi fmt).2 ≤ length fmt.
Proof.
  unfold dumb_atoi. pose proof (atoi_loop_rest 4 (deref fmt - 48) (tail fmt)).
  destruct fmt; simpl in *; lia.
Qed.

Lemma parse_width_rest fmt args spec fmt' args' spec' :
  parse_width fmt args spec = Some (Go fmt' args' spec') → length fmt' ≤ length fmt.
Proof.
  unfold parse_width. destruct (try_consume fmt 42) as [r|] eqn:Et.
  - apply try_consume_rest in Et. destruct (arg_int args) as [[w a]|]; simpl; [|done].
    repeat case_decide; intros; simplify_eq; lia.
  - destruct (is_digit1 (deref fmt)); [|intros; simplify_eq; lia].
    pose proof (dumb_atoi_rest fmt). destruct (dumb_atoi fmt) as [w r]. simpl in *.
    case_decide; intros; simplify_eq. lia.
Qed.

Lemma parse_precision_rest fmt args spec fmt' args' spec' :
  parse_precision fmt args spec = Some (Go fmt' args' spec') → length fmt' ≤ length fmt.
Proof.
  unfold parse_precision. destruct (try_consume fmt 46) as [r|] eqn:Et; [|intros; simplify_eq; lia].
  apply try_consume_rest in Et. destruct (try_consume r 42) as [r'|] eqn:Et'.
  - apply try_consume_rest in Et'. destruct (arg_int args) as [[w a]|]; simpl; [|done].
    case_decide; intros; simplify_eq; lia.
  - destruct (is_digit1 (deref r)); [|intros; simplify_eq].
    pose proof (dumb_atoi_rest r). destruct (dumb_atoi r) as [w r']. simpl in *.
    case_decide; intros; simplify_eq. lia.
Qed.

Lemma parse_size_rest fmt : length (parse_size fmt).2 ≤ length fmt.
Proof.
  unfold parse_size.
  repeat case_match;
    repeat match goal with H : try_consume _ _ = Some _ |- _ => apply try_consume_rest in H end;
    simpl; lia.
Qed.

(** The directive loop terminates: running it with any fuel above the
    length of the format string gives the same result, so the only undefined
    calls are those that fetch a missing or mistyped argument. *)
Theorem format_loop_fuel fuel fuel' o fmt args :
  length fmt < fuel → length fmt < fuel' →
  format_loop fuel o fmt args = format_loop fuel' o fmt args.
Proof.
  revert fuel' o fmt args. induction fuel as [|fuel IH]; intros [|fuel'] o fmt args H1 H2; try lia.
  simpl. destruct (split_percent fmt) as [lit [rest|]] eqn:Es; [|done].
  apply split_percent_rest in Es.
  destruct (parse_flags rest 0) as [[fmt1 fl]|] eqn:Ef; [|done]. apply parse_flags_rest in Ef.
  destruct (parse_width fmt1 args _) as [[msg|fmt2 args2 spec2]|] eqn:Ew; simpl; [done| |done].
  apply parse_width_rest in Ew.
  destruct (parse_precision fmt2 args2 spec2) as [[msg|fmt3 args3 spec3]|] eqn:Ep; simpl; [done| |done].
  apply parse_precision_rest in Ep.
  pose proof (parse_size_rest fmt3). destruct (parse_size fmt3) as [size fmt4]. simpl in *.
  destruct (convert _ _ _ _ _) as [[[q1 a1]|q1]|]; simpl; [|done|done].
  assert (length (tail fmt4) ≤ length fmt4) by (destruct fmt4; simpl; lia).
  apply IH; lia.
Qed.

Lemma format_loop_fuel_witness :
  length (chars "%x%%") < 5 ∧ length (chars "%x%%") < 9 ∧
  format_loop 5 (mkOut [] 3) (chars "%x%%") [VInt 48879] =
  format_loop 9 (mkOut [] 3) (chars "%x%%") [VInt 48879].
Proof. split_and!; [simpl; lia|simpl; lia|apply (format_loop_fuel 5 9); simpl; lia]. Defined.

End truncation.
