(* ===== verification/Fbcon.v ===== *)
(** * The framebuffer console ([drivers/fbcon/fbcon.cc]) and [printk]

    The console draws characters into a back buffer, one byte at a time, and
    copies it to the framebuffer.  Memory is a map from addresses to bytes
    ([Str]); an access to an address without one is undefined ([None]).  The
    font is a parameter, a byte for each character and row.  A framebuffer is
    registered as a console, and [printk] ([kernel/printk.cc]) formats a message
    and hands it to every registered console.  The specification
    is a text screen, a cursor with a table of colors, on which characters are
    drawn and lines are moved; [fbcon_correct] shows that the console refines
    it. *)

From S2P Require Import Prelude Str Vsnprintf.
From stdpp Require Import strings.

Section fbcon_defs.
Local Open Scope Z_scope.

Definition FONT_WIDTH : nat := 8.
Definition FONT_HEIGHT : nat := 16.
Definition SYMBOL_WIDTH : Z := 9.
Definition LINE_HEIGHT : Z := 17.

Record fbcon_format := mkFormat {
  bpp : Z; red_offset : Z; green_offset : Z; blue_offset : Z; red_bits : Z; green_bits : Z; blue_bits : Z }.

(** Shifts of 32-bit values; by 32 or more they are undefined. *)
Definition shl32 (x n : Z) : option Z := if decide (0 <= n < 32) then Some (wrap 32 (Z.shiftl x n)) else None.

(** One channel: clamped, scaled to its number of bits and moved into place. *)
Definition channel (x bits offset : Z) : option Z :=
  let x := if decide (x > 255) then 255 else x in
  x ← (if decide (bits > 8) then shl32 x (bits - 8)
       else if decide (bits < 8) then Some (Z.shiftr x (8 - bits))
       else Some x);
  shl32 x offset.

Definition get_color (fmt : fbcon_format) (r g b : Z) : option Z :=
  r ← channel r (red_bits fmt) (red_offset fmt);
  g ← channel g (green_bits fmt) (green_offset fmt);
  b ← channel b (blue_bits fmt) (blue_offset fmt);
  Some (Z.lor (Z.lor r g) b).

Definition bytes_per_pixel (fmt : fbcon_format) : option Z :=
  if decide (bpp fmt = 8) then Some 1
  else if decide (bpp fmt = 16) then Some 2
  else if decide (bpp fmt = 24) then Some 3
  else if decide (bpp fmt = 32) then Some 4
  else None.

(** The products are of 32-bit values. *)
Definition validate_format (width height pitch : Z) (fmt : fbcon_format) : option bool :=
  match bytes_per_pixel fmt with
  | None => Some false
  | Some k =>
    if decide (width < 20 ∨ height < 20) then Some false
    else if decide (pitch < wrap 32 (width * k)) then Some false
    else if decide ((bpp fmt = 16 ∨ bpp fmt = 32) ∧ Z.land pitch (k - 1) ≠ 0) then Some false
    else if decide (wrap 32 (height * pitch) > 2 ^ 32 - 1) then Some false
    else
      c0 ← get_color fmt 0 0 0;
      c1 ← get_color fmt 128 128 128;
      Some (bool_decide (c0 ≠ c1))
  end.

Record fbcon := mkFbcon {
  fmt : fbcon_format; width : Z; height : Z; pitch : Z; nbytes : Z;
  fbmem : Z; backbuf : Z; cx : Z; cy : Z;
  c_background : Z; c_info : Z; c_notice : Z; c_warn : Z; c_err : Z; c_msgtime : Z }.

Definition with_cursor (f : fbcon) (x y : Z) : fbcon :=
  mkFbcon (fmt f) (width f) (height f) (pitch f) (nbytes f) (fbmem f) (backbuf f) x y
    (c_background f) (c_info f) (c_notice f) (c_warn f) (c_err f) (c_msgtime f).

Definition fbcon_flush (f : fbcon) (m : gmap Z Z) : option (gmap Z Z) :=
  '(m, _) ← memcpy m (fbmem f) (backbuf f) (Z.to_nat (nbytes f)); Some m.

Definition get_row (f : fbcon) (row : Z) : Z := backbuf f + wrap 32 (row * pitch f).

Definition get_pixel (f : fbcon) (row column : Z) : Z := get_row f row + wrap 32 (bpp (fmt f) / 8 * column).

(** [putpixel8] to [putpixel32]: [k] times [*(ptr++) = x; x >>= 8]. *)
Fixpoint put_bytes (k : nat) (m : gmap Z Z) (ptr x : Z) : option (gmap Z Z * Z) :=
  match k with
  | O => Some (m, ptr)
  | S k => m ← store m ptr x; put_bytes k m (ptr + 1) (Z.shiftr x 8)
  end.

Definition putpixel (m : gmap Z Z) (ptr x bpp : Z) : option (gmap Z Z * Z) :=
  if decide (bpp = 8) then put_bytes 1 m ptr x
  else if decide (bpp = 16) then put_bytes 2 m ptr x
  else if decide (bpp = 24) then put_bytes 3 m ptr x
  else if decide (bpp = 32) then put_bytes 4 m ptr x
  else Some (m, ptr).

(** A loop of [n] calls of [putpixel] with the color [x]. *)
Fixpoint put_run (n : nat) (m : gmap Z Z) (ptr x bpp : Z) : option (gmap Z Z * Z) :=
  match n with
  | O => Some (m, ptr)
  | S n => '(m, ptr) ← putpixel m ptr x bpp; put_run n m ptr x bpp
  end.

(** Rows [i] to [i + n], filled with the color [c]. *)
Fixpoint fill_rows (n : nat) (f : fbcon) (m : gmap Z Z) (i c : Z) : option (gmap Z Z) :=
  match n with
  | O => Some m
  | S n => '(m, _) ← put_run (Z.to_nat (width f)) m (get_row f i) c (bpp (fmt f)); fill_rows n f m (i + 1) c
  end.

Definition fbcon_scroll (f : fbcon) (m : gmap Z Z) (scroll : Z) : option (fbcon * gmap Z Z) :=
  let n := nbytes f -ᵤ wrap 32 (scroll * pitch f) in
  '(m, _) ← memmove m (get_row f 0) (get_row f scroll) (Z.to_nat n);
  let i := wrap 32 (height f - scroll) in
  m ← fill_rows (Z.to_nat (height f - i)) f m i (c_background f);
  Some (with_cursor f (cx f) (wrap 32 (cy f - scroll)), m).

Context (default_font : Z → Z).

(** The pixels of a row of a glyph, from the bit [mask] on. *)
Fixpoint put_glyph (n : nat) (m : gmap Z Z) (ptr data mask fg bg bpp : Z) : option (gmap Z Z * Z) :=
  match n with
  | O => Some (m, ptr)
  | S n =>
    '(m, ptr) ← putpixel m ptr (if decide (Z.land data mask ≠ 0) then fg else bg) bpp;
    put_glyph n m ptr data (Z.shiftr mask 1) fg bg bpp
  end.

Fixpoint glyph_rows (n : nat) (f : fbcon) (m : gmap Z Z) (c i x y fg bg : Z) : option (gmap Z Z) :=
  match n with
  | O => Some m
  | S n =>
    let data := default_font (16 * c + i) in
    '(m, ptr) ← put_glyph FONT_WIDTH m (get_pixel f (wrap 32 (y + i)) x) data 0x80 fg bg (bpp (fmt f));
    '(m, _) ← put_run (Z.to_nat SYMBOL_WIDTH - FONT_WIDTH) m ptr bg (bpp (fmt f));
    glyph_rows n f m c (i + 1) x y fg bg
  end.

Fixpoint blank_rows (n : nat) (f : fbcon) (m : gmap Z Z) (i x y bg : Z) : option (gmap Z Z) :=
  match n with
  | O => Some m
  | S n =>
    '(m, _) ← put_run (Z.to_nat SYMBOL_WIDTH) m (get_pixel f (wrap 32 (y + i)) x) bg (bpp (fmt f));
    blank_rows n f m (i + 1) x y bg
  end.

Definition fbcon_blit_character (f : fbcon) (m : gmap Z Z) (c x y fg bg : Z) : option (gmap Z Z) :=
  m ← glyph_rows FONT_HEIGHT f m c 0 x y fg bg;
  blank_rows (Z.to_nat LINE_HEIGHT - FONT_HEIGHT) f m (Z.of_nat FONT_HEIGHT) x y bg.

Definition next_line (f : fbcon) (m : gmap Z Z) : option (fbcon * gmap Z Z) :=
  let f := with_cursor f 0 (wrap 32 (cy f + LINE_HEIGHT)) in
  if decide (wrap 32 (cy f + LINE_HEIGHT) > height f) then
    fbcon_scroll f m (wrap 32 (cy f + LINE_HEIGHT - height f))
  else Some (f, m).

(** [c] is the character as a byte. *)
Definition fbcon_putc (f : fbcon) (m : gmap Z Z) (c fg bg : Z) : option (fbcon * gmap Z Z) :=
  if decide (c = 10) then next_line f m
  else
    m ← fbcon_blit_character f m c (cx f) (cy f) fg bg;
    let f := with_cursor f (wrap 32 (cx f + SYMBOL_WIDTH)) (cy f) in
    if decide (wrap 32 (cx f + SYMBOL_WIDTH) > width f) then next_line f m
    else Some (f, m).

(** The string is the list of its characters with the terminating zero; a
    string without one is read past its end. *)
Fixpoint fbcon_print (f : fbcon) (m : gmap Z Z) (msg : list Z) (fg bg : Z) : option (fbcon * gmap Z Z) :=
  match msg with
  | [] => None
  | c :: msg =>
    if decide (c = 0) then Some (f, m)
    else '(f, m) ← fbcon_putc f m c fg bg; fbcon_print f m msg fg bg
  end.

Definition level_color (f : fbcon) (level : Z) : Z :=
  let level := if decide (level < 0) then 0 else if decide (level > 4) then 4 else level in
  if decide (level <= 1) then c_info f else if decide (level = 2) then c_notice f else if decide (level = 3) then c_warn f else c_err f.

(** The time in seconds and microseconds, [buf] of 24 characters. *)
Definition time_format : list Z := chars "[%5llu.%06llu] "%string.

Definition time_string (msg_time : Z) : option (list Z) :=
  vsnprintf 24 time_format [VInt (msg_time / 1000000); VInt (msg_time mod 1000000)].

Definition fbcon_emit_message (f : fbcon) (m : gmap Z Z) (level msg_time : Z) (msg : list Z) : option (fbcon * gmap Z Z) :=
  buf ← time_string msg_time;
  let bg := c_background f in
  let fg := level_color f level in
  '(f, m) ← fbcon_print f m buf (c_msgtime f) bg;
  '(f, m) ← fbcon_print f m msg fg bg;
  m ← fbcon_flush f m;
  Some (f, m).

(** The operations for other users of the framebuffer. *)
Definition fbcon_get_color (f : fbcon) (r g b : Z) : option Z := get_color (fmt f) r g b.

Definition fbcon_get_pixel (f : fbcon) (x y : Z) : Z := get_pixel f y x.

Definition fbcon_put_pixel (f : fbcon) (m : gmap Z Z) (pixel color : Z) : option (gmap Z Z) :=
  '(m, _) ← putpixel m pixel color (bpp (fmt f)); Some m.

(** ** Registering a framebuffer *)

Definition FBC_OWN_STRUCT : Z := 1.
Definition FBC_OWN_BACKBUFFER : Z := 2.

(** A [Console], by its [emit_message]: [fbcon_emit_message] of the struct
    [fbcon] at an address, or the function of another driver, which does not
    touch the state here. *)
Inductive console := ConFbcon (fp : Z) | ConOther (id : Z).

(** [console_list], linked from the console registered last; the structs
    [fbcon]; [last_registered_fbcon]; memory. *)
Record consoles := mkConsoles {
  console_list : list console;
  fbcons : gmap Z fbcon;
  last_registered_fbcon : option Z;
  console_mem : gmap Z Z;
}.

Definition console_register (k : consoles) (con : console) : consoles :=
  mkConsoles (con :: console_list k) (fbcons k) (last_registered_fbcon k) (console_mem k).

(** What [fbcon_add_framebuffer] did: nothing, since the format is refused or
    no struct could be allocated; released what it had, with the allocations
    given back ([release_fbcon]); or registered the console at [fp], with its
    flags. *)
Inductive added :=
| Refused
| Released (freed : list Z)
| Registered (fp flags : Z) (k : consoles).

Definition release_fbcon (f backbuf flags : Z) : list Z :=
  (if decide (Z.land flags FBC_OWN_BACKBUFFER ≠ 0) then [backbuf] else [])
  ++ (if decide (Z.land flags FBC_OWN_STRUCT ≠ 0) then [f] else []).

(** The struct [fbcon] and [backbuf] are [None] for the null pointer;
    [kmalloc_struct] and [kmalloc_backbuf] are what [kmalloc] answers, if it
    is called. *)
Definition fbcon_add_framebuffer (k : consoles) (fbcon : option Z) (width height pitch : Z) (fmt : fbcon_format)
    (fbmem : Z) (backbuf kmalloc_struct kmalloc_backbuf : option Z) : option added :=
  ok ← validate_format width height pitch fmt;
  if negb ok then Some Refused
  else
    match (match fbcon with
           | Some f => Some (f, 0)
           | None => f ← kmalloc_struct; Some (f, FBC_OWN_STRUCT)
           end) with
    | None => Some Refused
    | Some (fp, flags) =>
      let nbytes := wrap 32 (height * pitch) in
      match (match backbuf with
             | Some b => Some (b, flags)
             | None => b ← kmalloc_backbuf; Some (b, Z.lor flags FBC_OWN_BACKBUFFER)
             end) with
      | None => Some (Released (release_fbcon fp 0 flags))
      | Some (backbuf, flags) =>
        c_background ← get_color fmt 35 38 39;
        c_info ← get_color fmt 200 200 200;
        c_notice ← get_color fmt 255 255 255;
        c_warn ← get_color fmt 253 188 75;
        c_err ← get_color fmt 237 21 21;
        c_msgtime ← get_color fmt 17 209 22;
        let f := mkFbcon fmt width height pitch nbytes fbmem backbuf 0 0
                   c_background c_info c_notice c_warn c_err c_msgtime in
        m ← fill_rows (Z.to_nat height) f (console_mem k) 0 c_background;
        m ← fbcon_flush f m;
        let k := mkConsoles (console_list k) (<[fp := f]> (fbcons k)) (last_registered_fbcon k) m in
        let k := console_register k (ConFbcon fp) in
        Some (Registered fp flags (mkConsoles (console_list k) (fbcons k) (Some fp) (console_mem k)))
      end
    end.

Definition fbcon_find_one (k : consoles) : option Z := last_registered_fbcon k.

(** ** [printk] ([kernel/printk.cc]) *)

(** The loop over the consoles. *)
Fixpoint emit_to (cs : list console) (k : consoles) (level msg_time : Z) (msg : list Z) : option consoles :=
  match cs with
  | [] => Some k
  | ConOther _ :: cs => emit_to cs k level msg_time msg
  | ConFbcon fp :: cs =>
    f ← fbcons k !! fp;
    '(f, m) ← fbcon_emit_message f (console_mem k) level msg_time msg;
    emit_to cs (mkConsoles (console_list k) (<[fp := f]> (fbcons k)) (last_registered_fbcon k) m) level msg_time msg
  end.

Definition printk_emit (k : consoles) (level msg_time : Z) (msg : list Z) : option consoles :=
  emit_to (console_list k) k level msg_time msg.

(** The level in front of the message, as [\x01], a digit and [\x02], and what
    follows it; a level that is not one of 0 to 4 is 0. *)
Definition split_level (buf : list Z) : Z * list Z :=
  match buf with
  | p0 :: p1 :: p2 :: p =>
    if decide (p0 = 1 ∧ p1 ≠ 0 ∧ p2 = 2) then (if decide (0 <= p1 - 48 <= 4) then p1 - 48 else 0, p) else (0, buf)
  | _ => (0, buf)
  end.

(** [us] is the time of the call, [us_since_boot]. *)
Definition printk (k : consoles) (us : Z) (fmt : list Z) (args : list varg) : option consoles :=
  buf ← vsnprintf 768 fmt args;
  let '(level, p) := split_level buf in
  printk_emit k level us p.

End fbcon_defs.


(** ** The screen as a table of colors

    A screen gives each row and column a color; byte [j] of a pixel in memory
    is byte [j] of its color. *)

Section screens.
Local Open Scope Z_scope.

Definition screen := Z → Z → Z.

Definition color_byte (x j : Z) : Z := wrap 8 (Z.shiftr x (8 * j)).

Definition bytes_per (f : fbcon) : Z := bpp (fmt f) / 8.

(** The memory at [base] shows the screen [s]. *)
Definition shows (f : fbcon) (base : Z) (m : gmap Z Z) (s : screen) : Prop :=
  ∀ r c j, 0 <= r < height f → 0 <= c < width f → 0 <= j < bytes_per f →
    m !! (base + r * pitch f + bytes_per f * c + j) = Some (color_byte (s r c) j).

(** A region of bytes. *)
Definition bytes_block (m : gmap Z Z) (p n : Z) : Prop := ∀ a, p <= a < p + n → ∃ b, m !! a = Some b ∧ is_byte b.

(** The format and the extent of a console that was registered. *)
Record geometry (f : fbcon) : Prop := mkGeometry {
  geo_bpp : bpp (fmt f) = 8 ∨ bpp (fmt f) = 16 ∨ bpp (fmt f) = 24 ∨ bpp (fmt f) = 32;
  geo_width : 20 <= width f;
  geo_height : 20 <= height f;
  geo_pitch : bytes_per f * width f <= pitch f;
  geo_size : height f * pitch f < 2 ^ 32;
  geo_nbytes : nbytes f = height f * pitch f }.

(** The back buffer is memory that shows [s]; the framebuffer is memory apart
    from it. *)
Definition canvas (f : fbcon) (m : gmap Z Z) (s : screen) : Prop :=
  bytes_block m (backbuf f) (nbytes f) ∧ shows f (backbuf f) m s.

Definition buffers_ok (f : fbcon) (m : gmap Z Z) : Prop :=
  bytes_block m (fbmem f) (nbytes f) ∧
  (fbmem f + nbytes f <= backbuf f ∨ backbuf f + nbytes f <= fbmem f).

(** Memory outside the back buffer is as it was. *)
Definition only_backbuf (f : fbcon) (m m' : gmap Z Z) : Prop :=
  unchanged m m' (backbuf f) (backbuf f + nbytes f).

(** *** A text screen: a cursor and a screen *)

Record text := mkText { tx : Z; ty : Z; pix : screen }.

Context (default_font : Z → Z).

Definition glyph_bit (ch i j : Z) : bool :=
  (i <? 16) && (j <? 8) && Z.testbit (default_font (16 * ch + i)) (7 - j).

Definition draw_char (s : screen) (ch x y fg bg : Z) : screen := λ r c,
  if decide (y <= r < y + 17 ∧ x <= c < x + 9) then if glyph_bit ch (r - y) (c - x) then fg else bg
  else s r c.

(** The next line, at the bottom of the screen by moving it up. *)
Definition text_newline (h fill : Z) (t : text) : text :=
  let n := Z.max 0 (ty t + 34 - h) in
  mkText 0 (ty t + 17 - n) (λ r c, if decide (r + n < h) then pix t (r + n) c else fill).

Definition text_putc (w h fill fg bg : Z) (t : text) (ch : Z) : text :=
  if decide (ch = 10) then text_newline h fill t
  else
    let t := mkText (tx t + 9) (ty t) (draw_char (pix t) ch (tx t) (ty t) fg bg) in
    if decide (tx t + 9 > w) then text_newline h fill t else t.

Definition text_print (w h fill fg bg : Z) (t : text) (msg : list Z) : text :=
  foldl (text_putc w h fill fg bg) t msg.

End screens.

Section pixels.
Local Open Scope Z_scope.
Implicit Types (m : gmap Z Z) (f : fbcon) (s : screen).

(** ** Writing pixels *)

Lemma unchanged_trans m m1 m2 lo hi : unchanged m m1 lo hi → unchanged m1 m2 lo hi → unchanged m m2 lo hi.
Proof. intros H1 H2 a Ha. by rewrite H2, H1. Qed.

Lemma unchanged_wider m m' lo hi lo' hi' : unchanged m m' lo hi → lo' <= lo → hi <= hi' → unchanged m m' lo' hi'.
Proof. intros H ?? a Ha. apply H. lia. Qed.

Lemma color_byte_is_byte x j : is_byte (color_byte x j).
Proof. unfold is_byte, color_byte, wrap. apply Z.mod_pos_bound. lia. Qed.

Lemma bytes_block_insert m p n a b : is_byte b → bytes_block m p n → bytes_block (<[a := b]> m) p n.
Proof.
  intros Hb H c Hc. destruct (decide (a = c)) as [->|].
  - exists b. by rewrite lookup_insert_eq.
  - rewrite lookup_insert_ne by done. auto.
Qed.

Lemma bytes_block_sub m p n q k : bytes_block m p n → p <= q → q + k <= p + n → bytes_block m q k.
Proof. intros H ?? a Ha. apply H. lia. Qed.

(** The bytes that change are bytes again. *)
Definition keeps_bytes m m' : Prop := ∀ p n, bytes_block m p n → bytes_block m' p n.

Lemma put_bytes_spec k m ptr x :
  bytes_block m ptr (Z.of_nat k) →
  ∃ m', put_bytes k m ptr x = Some (m', ptr + Z.of_nat k) ∧
    (∀ j, 0 <= j < Z.of_nat k → m' !! (ptr + j) = Some (color_byte x j)) ∧
    unchanged m m' ptr (ptr + Z.of_nat k) ∧ keeps_bytes m m'.
Proof.
  revert m ptr x. induction k as [|k IH]; intros m ptr x Hb.
  { exists m. split_and!; [by rewrite Z.add_0_r|lia|done|by intros ??]. }
  destruct (Hb ptr) as (b & Hp & _); [lia|]. cbn [put_bytes]. rewrite store_byte by eauto. cbn [mbind option_bind].
  assert (is_byte (wrap 8 x)) as Hx by (apply Z.mod_pos_bound; lia).
  destruct (IH (<[ptr := wrap 8 x]> m) (ptr + 1) (Z.shiftr x 8)) as (m' & -> & Hj & Hu & Hk).
  { apply bytes_block_insert; [done|]. apply (bytes_block_sub m ptr (Z.of_nat (S k))); [done|lia|lia]. }
  exists m'. split_and!.
  - do 2 f_equal. lia.
  - intros j Hj'. destruct (decide (j = 0)) as [->|].
    + rewrite Hu, Z.add_0_r, lookup_insert_eq by lia. unfold color_byte. by rewrite Z.shiftr_0_r.
    + replace (ptr + j) with (ptr + 1 + (j - 1)) by lia. rewrite Hj by lia. unfold color_byte.
      rewrite Z.shiftr_shiftr by lia. do 3 f_equal. lia.
  - intros a Ha. rewrite Hu by lia. apply lookup_insert_ne. lia.
  - intros p n Hpn. apply Hk. by apply bytes_block_insert.
Qed.

(** A list of colors, one after the other. *)
Fixpoint put_colors (xs : list Z) m (ptr bpp : Z) : option (gmap Z Z * Z) :=
  match xs with
  | [] => Some (m, ptr)
  | x :: xs => '(m, ptr) ← putpixel m ptr x bpp; put_colors xs m ptr bpp
  end.

Lemma put_colors_app xs ys m ptr bpp :
  put_colors (xs ++ ys) m ptr bpp = ('(m, ptr) ← put_colors xs m ptr bpp; put_colors ys m ptr bpp).
Proof.
  revert m ptr. induction xs as [|x xs IH]; intros m ptr; [done|]. simpl.
  destruct (putpixel m ptr x bpp) as [[m' p]|]; [|done]. simpl. apply IH.
Qed.

Lemma put_run_colors n m ptr x bpp : put_run n m ptr x bpp = put_colors (replicate n x) m ptr bpp.
Proof.
  revert m ptr. induction n as [|n IH]; intros m ptr; [done|]. simpl.
  destruct (putpixel m ptr x bpp) as [[m' p]|]; [|done]. simpl. apply IH.
Qed.

(** The pixels of a glyph's row, from the highest bit down. *)
Definition glyph_row (data fg bg : Z) : list Z :=
  (λ j, if Z.testbit data (7 - Z.of_nat j) then fg else bg) <$> seq 0 8.

Lemma land_pow2 data i : 0 <= i → Z.land data (2 ^ i) ≠ 0 ↔ Z.testbit data i = true.
Proof.
  intros Hi. split.
  - intros H. apply not_false_iff_true. intros Hf. apply H. apply Z.bits_inj'. intros n Hn.
    rewrite Z.land_spec, Z.pow2_bits_eqb, Z.bits_0 by lia. destruct (Z.eqb_spec i n) as [->|]; [by rewrite Hf|apply andb_false_r].
  - intros H E. assert (Z.testbit (Z.land data (2 ^ i)) i = true) as H'.
    { by rewrite Z.land_spec, H, Z.pow2_bits_true by lia. }
    by rewrite E, Z.bits_0 in H'.
Qed.

Lemma put_glyph_colors m ptr data fg bg bpp :
  put_glyph 8 m ptr data 0x80 fg bg bpp = put_colors (glyph_row data fg bg) m ptr bpp.
Proof.
  assert (∀ i, 0 <= i → (if decide (Z.land data (2 ^ i) ≠ 0) then fg else bg) = if Z.testbit data i then fg else bg) as Hb.
  { intros i Hi. pose proof (land_pow2 data i Hi) as Hl. destruct (Z.testbit data i).
    - by rewrite decide_True by (by apply Hl).
    - rewrite decide_False; [done|]. by intros ?%Hl. }
  unfold glyph_row. cbn [seq fmap list_fmap put_glyph put_colors].
  change (Z.shiftr 0x80 1) with (2 ^ 6). change 0x80 with (2 ^ 7).
  change (Z.shiftr (2 ^ 6) 1) with (2 ^ 5). change (Z.shiftr (2 ^ 5) 1) with (2 ^ 4).
  change (Z.shiftr (2 ^ 4) 1) with (2 ^ 3). change (Z.shiftr (2 ^ 3) 1) with (2 ^ 2).
  change (Z.shiftr (2 ^ 2) 1) with (2 ^ 1). change (Z.shiftr (2 ^ 1) 1) with (2 ^ 0).
  rewrite !Hb by lia. done.
Qed.

End pixels.

Section drawing.
Local Open Scope Z_scope.
Implicit Types (m : gmap Z Z) (f : fbcon) (s : screen).

(** ** Drawing rows of pixels *)

Lemma geometry_facts f :
  geometry f → 1 <= bytes_per f <= 4 ∧ width f <= pitch f ∧ height f < 2 ^ 28 ∧ pitch f < 2 ^ 28 ∧
  bpp (fmt f) = 8 * bytes_per f.
Proof.
  intros [Hb Hw Hh Hp Hs _]. assert (1 <= bytes_per f <= 4 ∧ bpp (fmt f) = 8 * bytes_per f) as [??].
  { unfold bytes_per. destruct Hb as [-> | [-> | [-> | ->]]]; vm_compute; split; try done; split; discriminate. }
  split_and!; try lia; nia.
Qed.

Lemma putpixel_bytes f m ptr x :
  geometry f → putpixel m ptr x (bpp (fmt f)) = put_bytes (Z.to_nat (bytes_per f)) m ptr x.
Proof. intros [Hb _ _ _ _ _]. unfold bytes_per. by destruct Hb as [-> | [-> | [-> | ->]]]. Qed.

Lemma put_colors_spec f xs m ptr :
  geometry f → bytes_block m ptr (bytes_per f * Z.of_nat (length xs)) →
  ∃ m', put_colors xs m ptr (bpp (fmt f)) = Some (m', ptr + bytes_per f * Z.of_nat (length xs)) ∧
    (∀ i x j, xs !! i = Some x → 0 <= j < bytes_per f →
       m' !! (ptr + bytes_per f * Z.of_nat i + j) = Some (color_byte x j)) ∧
    unchanged m m' ptr (ptr + bytes_per f * Z.of_nat (length xs)) ∧ keeps_bytes m m'.
Proof.
  intros Hg. pose proof (geometry_facts f Hg) as (Hk & _). revert m ptr.
  induction xs as [|x xs IH]; intros m ptr Hb; simpl length in *.
  { exists m. split_and!; [by rewrite Z.mul_0_r, Z.add_0_r|done|done|by intros ??]. }
  cbn [put_colors]. rewrite putpixel_bytes by done.
  destruct (put_bytes_spec (Z.to_nat (bytes_per f)) m ptr x) as (m1 & -> & Hx1 & Hu1 & Hk1).
  { apply (bytes_block_sub m ptr (bytes_per f * Z.of_nat (S (length xs)))); [done|lia|nia]. }
  cbn [mbind option_bind]. rewrite Z2Nat.id in * by lia.
  destruct (IH m1 (ptr + bytes_per f)) as (m2 & -> & Hx2 & Hu2 & Hk2).
  { apply Hk1, (bytes_block_sub m ptr (bytes_per f * Z.of_nat (S (length xs)))); [done|lia|nia]. }
  exists m2. split_and!.
  - do 2 f_equal. nia.
  - intros [|i] y j Hi Hj; simpl in Hi.
    + simplify_eq. rewrite Hu2 by lia. rewrite Z.mul_0_r, Z.add_0_r. by apply Hx1.
    + rewrite <- (Hx2 i y j Hi Hj). f_equal. nia.
  - eapply unchanged_trans; (eapply unchanged_wider; [done| |]); nia.
  - intros p n Hp. by apply Hk2, Hk1.
Qed.

(** A row of colors written at a place of the screen. *)
Definition write_row s (row x0 : Z) (xs : list Z) : screen := λ r c,
  if decide (r = row ∧ x0 <= c < x0 + Z.of_nat (length xs)) then xs !!! Z.to_nat (c - x0) else s r c.

(** [m'] differs from [m] in the back buffer only, and shows [s]. *)
Definition drawn f m m' s : Prop := canvas f m' s ∧ only_backbuf f m m'.

Lemma drawn_trans f m m1 m2 s1 s2 : drawn f m m1 s1 → drawn f m1 m2 s2 → drawn f m m2 s2.
Proof. intros [_ H1] [H2 H3]. split; [done|]. by eapply unchanged_trans. Qed.

Lemma drawn_ext f m m' s s' :
  drawn f m m' s → (∀ r c, 0 <= r < height f → 0 <= c < width f → s r c = s' r c) → drawn f m m' s'.
Proof.
  intros [[Hb Hs] Hu] H. split; [|done]. split; [done|]. intros r c j Hr Hc Hj.
  rewrite <- H by done. by apply Hs.
Qed.

(** Pixels of different rows or columns have different bytes. *)
Lemma pixel_address p k w r c row d :
  1 <= k → k * w <= p → 0 <= c < w → 0 <= d → 0 <= r → 0 <= row →
  ∀ j n, 0 <= j < k → d + n <= w → 0 <= n →
  row * p + k * d <= r * p + k * c + j < row * p + k * d + k * n → r = row ∧ d <= c < d + n.
Proof.
  intros Hk Hw Hc Hd Hr Hrow j n Hj Hn Hn0 Ha.
  assert (k * c + j < p) by nia. assert (r = row) as -> by nia. split; [done|]. nia.
Qed.

Lemma put_colors_drawn f m s row x0 xs :
  geometry f → canvas f m s → 0 <= row < height f → 0 <= x0 → x0 + Z.of_nat (length xs) <= width f →
  ∃ m', put_colors xs m (backbuf f + row * pitch f + bytes_per f * x0) (bpp (fmt f)) =
          Some (m', backbuf f + row * pitch f + bytes_per f * x0 + bytes_per f * Z.of_nat (length xs)) ∧
    drawn f m m' (write_row s row x0 xs).
Proof.
  intros Hg [Hb Hs] Hr Hx Hl. pose proof (geometry_facts f Hg) as (Hk & Hwp & _).
  pose proof Hg as [_ _ _ Hp _ Hn].
  set (ptr := backbuf f + row * pitch f + bytes_per f * x0).
  assert (backbuf f <= ptr) by (unfold ptr; nia).
  assert (ptr + bytes_per f * Z.of_nat (length xs) <= backbuf f + nbytes f) by (rewrite Hn; unfold ptr; nia).
  destruct (put_colors_spec f xs m ptr Hg) as (m' & -> & Hxs & Hu & Hkb).
  { by apply (bytes_block_sub m (backbuf f) (nbytes f)). }
  exists m'. split; [done|]. split; [split|].
  - by apply Hkb.
  - intros r c j Hr' Hc' Hj'. unfold write_row. case_decide as Hd.
    + destruct Hd as [-> Hd]. destruct (lookup_lt_is_Some_2 xs (Z.to_nat (c - x0))) as [x Hx']; [lia|].
      rewrite (list_lookup_total_correct _ _ _ Hx'), <- (Hxs _ _ j Hx' Hj'). f_equal. unfold ptr. nia.
    + rewrite Hu; [by apply Hs|].
      destruct (decide (ptr <= backbuf f + r * pitch f + bytes_per f * c + j < ptr + bytes_per f * Z.of_nat (length xs))) as [Hin|]; [|lia].
      destruct Hd. unfold ptr in Hin. apply (pixel_address (pitch f) (bytes_per f) (width f) r c row x0) with (j := j); lia.
  - by apply (unchanged_wider m m' ptr (ptr + bytes_per f * Z.of_nat (length xs))).
Qed.

Lemma get_row_address f row : geometry f → 0 <= row <= height f → get_row f row = backbuf f + row * pitch f.
Proof.
  intros Hg Hr. pose proof Hg as [_ Hw _ Hp Hs _]. pose proof (geometry_facts f Hg) as (? & ? & _).
  unfold get_row. rewrite wrap_small; [done|]. unfold in_width. nia.
Qed.

Lemma get_pixel_address f row col :
  geometry f → 0 <= row <= height f → 0 <= col <= width f →
  get_pixel f row col = backbuf f + row * pitch f + bytes_per f * col.
Proof.
  intros Hg Hr Hc. pose proof Hg as [_ Hw _ Hp Hs _]. pose proof (geometry_facts f Hg) as (? & ? & ? & ? & ?).
  unfold get_pixel. rewrite get_row_address by done. fold (bytes_per f). rewrite wrap_small; [done|].
  unfold in_width. nia.
Qed.

Lemma fill_rows_drawn n f m s i c :
  geometry f → canvas f m s → 0 <= i → i + Z.of_nat n <= height f →
  ∃ m', fill_rows n f m i c = Some m' ∧
    drawn f m m' (λ r k, if decide (i <= r < i + Z.of_nat n) then c else s r k).
Proof.
  intros Hg. revert m s i. induction n as [|n IH]; intros m s i Hc Hi Hn.
  { exists m. split; [done|]. apply (drawn_ext f m m s); [by split|]. intros r k _ _. by rewrite decide_False by lia. }
  cbn [fill_rows]. rewrite get_row_address by (done || lia). rewrite put_run_colors.
  pose proof (geo_width f Hg).
  destruct (put_colors_drawn f m s i 0 (replicate (Z.to_nat (width f)) c)) as (m1 & E1 & H1);
    rewrite ?length_replicate; [done|done|lia|lia|lia|].
  rewrite Z.mul_0_r, Z.add_0_r in E1. rewrite E1. cbn [mbind option_bind].
  destruct (IH m1 _ (i + 1) (proj1 H1)) as (m2 & E2 & H2); [lia|lia|].
  exists m2. split; [done|]. apply (drawn_ext _ _ _ _ _ (drawn_trans _ _ _ _ _ _ H1 H2)).
  intros r k Hr Hk. unfold write_row. rewrite length_replicate.
  repeat case_decide; try lia; try done. by rewrite lookup_total_replicate_2 by lia.
Qed.

Context (default_font : Z → Z).

Lemma glyph_row_lookup data fg bg j :
  (j < 8)%nat → glyph_row data fg bg !!! j = if Z.testbit data (7 - Z.of_nat j) then fg else bg.
Proof. intros Hj. unfold glyph_row. by do 8 (destruct j as [|j]; [done|]); lia. Qed.

(** One row of a character: the glyph's bits and a pixel of background. *)
Lemma symbol_row_drawn f m s c i x y fg bg :
  geometry f → canvas f m s → 0 <= i < 16 → 0 <= x → x + 9 <= width f → 0 <= y → y + 17 <= height f →
  ∃ m' ptr, put_glyph FONT_WIDTH m (get_pixel f (wrap 32 (y + i)) x) (default_font (16 * c + i)) 0x80 fg bg (bpp (fmt f))
              ≫= (λ '(m, ptr), put_run (Z.to_nat SYMBOL_WIDTH - FONT_WIDTH) m ptr bg (bpp (fmt f))) = Some (m', ptr) ∧
    drawn f m m' (λ r k, if decide (r = y + i ∧ x <= k < x + 9)
                         then if glyph_bit default_font c i (k - x) then fg else bg else s r k).
Proof.
  intros Hg Hc Hi Hx Hxw Hy Hyh. pose proof (geometry_facts f Hg) as (_ & _ & Hh & _).
  rewrite wrap_small by (unfold in_width; lia). rewrite get_pixel_address by (done || lia).
  unfold FONT_WIDTH. rewrite put_glyph_colors. set (data := default_font (16 * c + i)).
  pose proof (put_colors_app (glyph_row data fg bg) [bg] m (backbuf f + (y + i) * pitch f + bytes_per f * x) (bpp (fmt f))) as E.
  destruct (put_colors_drawn f m s (y + i) x (glyph_row data fg bg ++ [bg])) as (m' & E' & H');
    [done|done|lia|lia|simpl; lia|].
  rewrite E' in E. eexists m', _. split.
  - etrans; [|symmetry; exact E]. destruct (put_colors _ _ _ _) as [[m1 p1]|]; [|done]. cbn [mbind option_bind].
    by rewrite put_run_colors.
  - apply (drawn_ext _ _ _ _ _ H'). intros r k _ _. unfold write_row.
    change (Z.of_nat (length (glyph_row data fg bg ++ [bg]))) with 9. case_decide as Hd; [|done].
    unfold glyph_bit. rewrite (proj2 (Z.ltb_lt i 16)) by lia. cbn [andb].
    destruct (Z.ltb_spec (k - x) 8).
    + rewrite lookup_total_app_l, glyph_row_lookup by (simpl; lia). cbn [andb]. by rewrite Z2Nat.id by lia.
    + replace (k - x) with 8 by lia. done.
Qed.

Lemma glyph_rows_drawn n f m s c i x y fg bg :
  geometry f → canvas f m s → 0 <= i → i + Z.of_nat n <= 16 → 0 <= x → x + 9 <= width f → 0 <= y → y + 17 <= height f →
  ∃ m', glyph_rows default_font n f m c i x y fg bg = Some m' ∧
    drawn f m m' (λ r k, if decide (y + i <= r < y + i + Z.of_nat n ∧ x <= k < x + 9)
                         then if glyph_bit default_font c (r - y) (k - x) then fg else bg else s r k).
Proof.
  intros Hg Hc Hi Hn Hx Hxw Hy Hyh. revert m s i Hc Hi Hn. induction n as [|n IH]; intros m s i Hc Hi Hn.
  { exists m. split; [done|]. apply (drawn_ext f m m s); [by split|]. intros r k _ _. by rewrite decide_False by lia. }
  cbn [glyph_rows].
  destruct (symbol_row_drawn f m s c i x y fg bg) as (m1 & p1 & E1 & H1); [done|done|lia|lia|lia|lia|lia|].
  destruct (put_glyph _ _ _ _ _ _ _ _) as [[m0 p0]|]; [|done]. cbn [mbind option_bind] in *. rewrite E1.
  cbn [mbind option_bind]. destruct (IH m1 _ (i + 1) (proj1 H1)) as (m2 & E2 & H2); [lia|lia|].
  exists m2. split; [done|]. apply (drawn_ext _ _ _ _ _ (drawn_trans _ _ _ _ _ _ H1 H2)).
  intros r k Hr Hk. repeat case_decide; try lia; try done. by replace (r - y) with i by lia.
Qed.

Lemma blit_drawn f m s c x y fg bg :
  geometry f → canvas f m s → 0 <= x → x + 9 <= width f → 0 <= y → y + 17 <= height f →
  ∃ m', fbcon_blit_character default_font f m c x y fg bg = Some m' ∧
    drawn f m m' (draw_char default_font s c x y fg bg).
Proof.
  intros Hg Hc Hx Hxw Hy Hyh. unfold fbcon_blit_character, FONT_HEIGHT.
  destruct (glyph_rows_drawn 16 f m s c 0 x y fg bg) as (m1 & -> & H1); [done|done|lia|lia|lia|lia|lia|lia|].
  change (Z.to_nat LINE_HEIGHT - 16)%nat with 1%nat. change (Z.of_nat 16) with 16. cbn [mbind option_bind blank_rows].
  pose proof (geometry_facts f Hg) as (_ & _ & Hh & _).
  rewrite wrap_small by (unfold in_width; lia). rewrite get_pixel_address by (done || lia).
  rewrite put_run_colors. change (Z.to_nat SYMBOL_WIDTH) with 9%nat.
  destruct (put_colors_drawn f m1 _ (y + 16) x (replicate 9 bg) Hg (proj1 H1)) as (m2 & E2 & H2);
    [lia|lia|simpl; lia|].
  rewrite E2. cbn [mbind option_bind]. exists m2. split; [done|].
  apply (drawn_ext _ _ _ _ _ (drawn_trans _ _ _ _ _ _ H1 H2)). intros r k Hr Hk.
  unfold write_row, draw_char, glyph_bit. change (Z.of_nat (length (replicate 9 bg))) with 9.
  repeat case_decide; try lia; try done. rewrite lookup_total_replicate_2 by lia.
  by rewrite (proj2 (Z.ltb_ge (r - y) 16)) by lia.
Qed.

End drawing.

Section copying.
Local Open Scope Z_scope.
Implicit Types (m : gmap Z Z) (f : fbcon) (s : screen).

(** ** Copying blocks of bytes *)

Lemma bytes_block_list m p n :
  bytes_block m p (Z.of_nat n) → ∃ l, length l = n ∧ bytes_at m p l ∧ Forall is_byte l.
Proof.
  revert p. induction n as [|n IH]; intros p Hb; [by exists []|].
  destruct (Hb p) as (b & Hp & Hbb); [lia|].
  destruct (IH (p + 1)) as (l & Hl & Ha & Hf); [intros a Ha; apply Hb; lia|].
  exists (b :: l). split_and!; [simpl; lia|done|by constructor].
Qed.

Lemma bytes_at_lookup m p l i b : bytes_at m p l → l !! i = Some b → m !! (p + Z.of_nat i) = Some b.
Proof.
  revert p i. induction l as [|c l IH]; intros p [|i] Hb Hi; simpl in *; try done.
  - rewrite Z.add_0_r. destruct Hb. congruence.
  - destruct Hb as [_ Hb]. rewrite <- (IH (p + 1) i Hb Hi). f_equal. lia.
Qed.

Lemma bytes_block_writable m p n : bytes_block m p (Z.of_nat n) → writable m p n.
Proof. intros H a Ha. destruct (H a Ha) as (b & Hb & _). eauto. Qed.

(** [m'] is [m] with the [n] bytes at [src] copied to [dst]. *)
Definition copied m m' (dst src n : Z) : Prop :=
  (∀ i, 0 <= i < n → m' !! (dst + i) = m !! (src + i)) ∧ unchanged m m' dst (dst + n).

Lemma bytes_at_copied m m' dst src l :
  bytes_at m src l → bytes_at m' dst l → unchanged m m' dst (dst + Z.of_nat (length l)) →
  copied m m' dst src (Z.of_nat (length l)).
Proof.
  intros Hs Hd Hu. split; [|done]. intros i Hi.
  destruct (lookup_lt_is_Some_2 l (Z.to_nat i)) as [b Hb]; [lia|].
  rewrite <- (Z2Nat.id i) by lia. by rewrite (bytes_at_lookup _ _ _ _ _ Hs Hb), (bytes_at_lookup _ _ _ _ _ Hd Hb).
Qed.

Lemma memmove_block m dst src n :
  0 <= n → bytes_block m src n → bytes_block m dst n →
  ∃ m', memmove m dst src (Z.to_nat n) = Some (m', dst) ∧ copied m m' dst src n.
Proof.
  intros Hn Hs Hd. rewrite <- (Z2Nat.id n) in Hs, Hd |- * by done. rewrite Nat2Z.id.
  destruct (bytes_block_list _ _ _ Hs) as (l & Hl & Hb & Hf). rewrite <- Hl in *.
  destruct (memmove_correct m dst src l) as (m' & E & Hb' & Hu); [done|done|by apply bytes_block_writable|].
  exists m'. split; [done|]. by apply bytes_at_copied.
Qed.

Lemma memcpy_block m dst src n :
  0 <= n → bytes_block m src n → bytes_block m dst n → src + n <= dst ∨ dst + n <= src →
  ∃ m', memcpy m dst src (Z.to_nat n) = Some (m', dst) ∧ copied m m' dst src n.
Proof.
  intros Hn Hs Hd Ho. rewrite <- (Z2Nat.id n) in Hs, Hd, Ho |- * by done. rewrite Nat2Z.id.
  destruct (bytes_block_list _ _ _ Hs) as (l & Hl & Hb & Hf). rewrite <- Hl in *.
  destruct (memcpy_spec m dst src l) as (m' & E & Hb' & Hu); [done|done|by apply bytes_block_writable|done|].
  exists m'. split; [done|]. by apply bytes_at_copied.
Qed.

Lemma copied_block m m' dst src n p k :
  copied m m' dst src n → bytes_block m src n → bytes_block m p k → bytes_block m' p k.
Proof.
  intros [Hc Hu] Hs Hp a Ha. destruct (decide (dst <= a < dst + n)) as [Hin|Hout].
  - replace a with (dst + (a - dst)) by lia. rewrite Hc by lia. apply Hs. lia.
  - rewrite Hu by lia. by apply Hp.
Qed.

(** ** Scrolling *)

Lemma scroll_move_drawn f m m' s n :
  geometry f → canvas f m s → 0 <= n <= height f →
  copied m m' (backbuf f) (backbuf f + n * pitch f) (nbytes f - n * pitch f) →
  drawn f m m' (λ r k, if decide (r + n < height f) then s (r + n) k else s r k).
Proof.
  intros Hg [Hb Hs] Hn Hcp. pose proof (geometry_facts f Hg) as (Hk & Hwp & _).
  pose proof Hg as [_ Hw _ Hp _ Hnb]. pose proof Hcp as [Hc Hu]. split; [split|].
  - eapply copied_block; [done| |done]. apply (bytes_block_sub _ _ _ _ _ Hb); nia.
  - intros r k j Hr Hkk Hj. case_decide as Hd.
    + rewrite <- (Hs (r + n) k j) by lia.
      replace (backbuf f + r * pitch f + bytes_per f * k + j) with (backbuf f + (r * pitch f + bytes_per f * k + j)) by lia.
      rewrite Hc by nia. f_equal. lia.
    + rewrite Hu by nia. by apply Hs.
  - apply (unchanged_wider _ _ _ _ _ _ Hu); nia.
Qed.

Lemma fbcon_scroll_drawn f m s n :
  geometry f → canvas f m s → 0 <= n <= height f → n <= cy f < 2 ^ 32 →
  ∃ m', fbcon_scroll f m n = Some (with_cursor f (cx f) (cy f - n), m') ∧
    drawn f m m' (λ r k, if decide (r + n < height f) then s (r + n) k else c_background f).
Proof.
  intros Hg Hc Hn Hcy. pose proof (geometry_facts f Hg) as (Hk & Hwp & Hh & _).
  pose proof Hg as [_ Hw _ Hp Hsz Hnb]. unfold fbcon_scroll.
  assert (0 <= n * pitch f <= nbytes f) by nia.
  rewrite (wrap_small 32 (n * pitch f)) by (unfold in_width; lia). rewrite sub64_small by lia.
  rewrite !get_row_address by (done || lia). rewrite Z.mul_0_l, Z.add_0_r.
  destruct (memmove_block m (backbuf f) (backbuf f + n * pitch f) (nbytes f - n * pitch f)) as (m1 & -> & H1);
    [lia|apply (bytes_block_sub _ _ _ _ _ (proj1 Hc)); lia..|].
  cbn [mbind option_bind]. apply scroll_move_drawn with (s := s) in H1; [|done..].
  rewrite (wrap_small 32 (height f - n)) by (unfold in_width; lia).
  destruct (fill_rows_drawn (Z.to_nat (height f - (height f - n))) f m1 _ (height f - n) (c_background f) Hg (proj1 H1))
    as (m2 & -> & H2); [lia|lia|].
  cbn [mbind option_bind]. rewrite wrap_small by (unfold in_width; lia). exists m2. split; [done|].
  apply (drawn_ext _ _ _ _ _ (drawn_trans _ _ _ _ _ _ H1 H2)). intros r k Hr Hkk. repeat case_decide; lia || done.
Qed.

End copying.

Section printing.
Local Open Scope Z_scope.
Implicit Types (m : gmap Z Z) (f : fbcon) (s : screen) (t : text).
Context (default_font : Z → Z).

(** ** Printing refines the text screen *)

(** The console [f] with its cursor where the text [t] has it. *)
Definition at_text f t : fbcon := with_cursor f (tx t) (ty t).

(** There is room for the next character at the cursor. *)
Definition text_ok f t : Prop := 0 <= tx t ∧ tx t + 9 <= width f ∧ 0 <= ty t ∧ ty t + 17 <= height f.

Lemma next_line_drawn f m x y s :
  geometry f → canvas f m s → 0 <= y → y + 17 <= height f →
  let t := text_newline (height f) (c_background f) (mkText x y s) in
  ∃ m', next_line (with_cursor f x y) m = Some (at_text f t, m') ∧ drawn f m m' (pix t) ∧ text_ok f t.
Proof.
  intros Hg Hc Hy Hyh t. pose proof (geometry_facts f Hg) as (_ & _ & Hh & _).
  pose proof (geo_width f Hg). pose proof (geo_height f Hg).
  assert (text_ok f t) by (unfold text_ok, t, text_newline; simpl; lia).
  unfold next_line, LINE_HEIGHT. cbn [with_cursor cy height].
  rewrite (wrap_small 32 (y + 17)) by (unfold in_width; lia).
  rewrite (wrap_small 32 (y + 17 + 17)) by (unfold in_width; lia). case_decide as Hd.
  - rewrite (wrap_small 32) by (unfold in_width; lia).
    destruct (fbcon_scroll_drawn (with_cursor f 0 (y + 17)) m s (y + 17 + 17 - height f)) as (m' & E & Hm');
      [by destruct Hg|done|simpl; lia|simpl; lia|].
    assert (Z.max 0 (y + 34 - height f) = y + 17 + 17 - height f) as En by lia.
    exists m'. split_and!; [|apply (drawn_ext _ _ _ _ _ Hm')|done].
    + etrans; [exact E|]. unfold at_text, t, text_newline. simpl. by rewrite En.
    + intros r k _ _. simpl. by rewrite En.
  - assert (Z.max 0 (y + 34 - height f) = 0) as En by lia.
    exists m. split_and!; [|apply (drawn_ext f m m s); [done|]|done].
    + unfold at_text, t, text_newline. simpl. by rewrite En, Z.sub_0_r.
    + intros r k Hr _. simpl. rewrite En, Z.add_0_r. by rewrite decide_True by lia.
Qed.

Lemma fbcon_putc_drawn f m t c fg bg :
  geometry f → canvas f m (pix t) → text_ok f t →
  let t' := text_putc default_font (width f) (height f) (c_background f) fg bg t c in
  ∃ m', fbcon_putc default_font (at_text f t) m c fg bg = Some (at_text f t', m') ∧ drawn f m m' (pix t') ∧ text_ok f t'.
Proof.
  intros Hg Hc (Hx & Hxw & Hy & Hyh). unfold fbcon_putc, text_putc. case_decide.
  { destruct t as [x y s]. by apply next_line_drawn. }
  destruct (blit_drawn default_font (at_text f t) m (pix t) c (tx t) (ty t) fg bg) as (m1 & E1 & H1);
    [by destruct Hg|done|done|done|done|done|].
  change (cx (at_text f t)) with (tx t). change (cy (at_text f t)) with (ty t). rewrite E1. cbn [mbind option_bind].
  pose proof (geometry_facts f Hg) as (_ & Hwp & _ & Hp & _). unfold SYMBOL_WIDTH.
  rewrite (wrap_small 32 (tx t + 9)) by (unfold in_width; lia). cbn [tx with_cursor at_text cx width].
  rewrite (wrap_small 32 (tx t + 9 + 9)) by (unfold in_width; lia). case_decide.
  - destruct (next_line_drawn f m1 (tx t + 9) (ty t) (draw_char default_font (pix t) c (tx t) (ty t) fg bg) Hg (proj1 H1) Hy Hyh)
      as (m2 & E2 & H2 & Ht). exists m2. split_and!; [exact E2|by eapply drawn_trans|done].
  - exists m1. split; [done|]. split; [done|]. unfold text_ok. simpl. lia.
Qed.

(** The characters before the terminating zero. *)
Fixpoint until_nul (l : list Z) : list Z :=
  match l with
  | [] => []
  | c :: l => if decide (c = 0) then [] else c :: until_nul l
  end.

Lemma fbcon_print_drawn f m t msg fg bg :
  geometry f → canvas f m (pix t) → text_ok f t → 0 ∈ msg →
  let t' := text_print default_font (width f) (height f) (c_background f) fg bg t (until_nul msg) in
  ∃ m', fbcon_print default_font (at_text f t) m msg fg bg = Some (at_text f t', m') ∧ drawn f m m' (pix t') ∧ text_ok f t'.
Proof.
  intros Hg. revert m t. induction msg as [|c msg IH]; intros m t Hc Ht Hin; [by apply not_elem_of_nil in Hin|].
  cbn [fbcon_print until_nul]. case_decide as Hz; [by exists m|].
  destruct (fbcon_putc_drawn f m t c fg bg Hg Hc Ht) as (m1 & -> & H1 & Ht1). cbn [mbind option_bind].
  destruct (IH m1 _ (proj1 H1) Ht1) as (m2 & E2 & H2 & Ht2).
  { apply elem_of_cons in Hin as [<-|?]; done. }
  exists m2. split_and!; [done|by eapply drawn_trans|done].
Qed.

(** ** Messages *)

Lemma digits_total v : 0 <= v < 2 ^ 64 → is_Some (digits buflen false 10 v []).
Proof.
  intros Hv. destruct (digits_spec buflen false 10 v []) as (buf & E & _); [lia|unfold buflen; simpl; lia|unfold buflen; lia|].
  rewrite E. by eexists.
Qed.

(** The time's format: two numbers, of at least five and six characters. *)
Lemma time_format_loop o a b :
  format_loop (S (length time_format)) o time_format [VInt a; VInt b] =
  (o ← do_unsigned 10 (put_string o [91]) (mkSpec 5 0 0) (wrap 64 a);
   o ← do_unsigned 10 (put_string o [46]) (mkSpec 6 0 PR_ZERO) (wrap 64 b);
   Some (put_string o [93; 32])).
Proof.
  lazy -[do_unsigned put_string wrap]. destruct (do_unsigned _ _ _ _) as [o1|]; [|done].
  by destruct (do_unsigned _ _ _ _).
Qed.

Lemma do_unsigned_total o spec v : has spec PR_UPPER = false → 0 <= v < 2 ^ 64 → is_Some (do_unsigned 10 o spec v).
Proof. intros Hs Hv. unfold do_unsigned. rewrite Hs. destruct (digits_total v Hv) as [l ->]. by eexists. Qed.

(** The time is always printed, and the buffer ends with a zero. *)
Lemma time_string_total (t : Z) : ∃ l, time_string t = Some (l ++ [0]).
Proof.
  unfold time_string, vsnprintf. rewrite time_format_loop.
  destruct (do_unsigned_total (put_string (mkOut [] 23) [91]) (mkSpec 5 0 0) (wrap 64 (t / 1000000))) as [o1 ->];
    [done|by apply wrap_range|]. cbn [mbind option_bind].
  destruct (do_unsigned_total (put_string o1 [46]) (mkSpec 6 0 PR_ZERO) (wrap 64 (t mod 1000000))) as [o2 ->];
    [done|by apply wrap_range|]. cbn [mbind option_bind]. by eexists.
Qed.

(** A message of the log: its level, its time and its characters. *)
Record message := mkMessage { msg_level : Z; msg_time : Z; msg_text : list Z }.

(** What a message adds to the screen: the time in the color of times, then
    the text in the color of its level. *)
Definition text_message f t (x : message) : text :=
  let print := text_print default_font (width f) (height f) (c_background f) in
  let time := until_nul (default [] (time_string (msg_time x))) in
  print (level_color f (msg_level x)) (c_background f)
    (print (c_msgtime f) (c_background f) t time) (until_nul (msg_text x)).

Lemma buffers_ok_drawn f m m' s : drawn f m m' s → buffers_ok f m → buffers_ok f m'.
Proof. intros [_ Hu] [Hb Hd]. split; [|done]. intros a Ha. rewrite Hu by lia. by apply Hb. Qed.

(** Flushing: the framebuffer shows what the back buffer does. *)
Lemma fbcon_flush_shows f m s :
  geometry f → canvas f m s → buffers_ok f m →
  ∃ m', fbcon_flush f m = Some m' ∧ shows f (fbmem f) m' s ∧ canvas f m' s ∧ buffers_ok f m' ∧
    unchanged m m' (fbmem f) (fbmem f + nbytes f).
Proof.
  intros Hg [Hb Hs] [Hfb Hd]. pose proof (geometry_facts f Hg) as (Hk & Hwp & _).
  pose proof Hg as [_ Hw Hh Hp _ Hn]. unfold fbcon_flush.
  destruct (memcpy_block m (fbmem f) (backbuf f) (nbytes f)) as (m' & -> & Hcp); [nia|done|done|lia|].
  pose proof Hcp as [Hc Hu]. exists m'. split; [done|]. split_and!; [| |split; [|done]|done].
  - intros r k j Hr Hkk Hj. rewrite <- (Hs r k j) by done.
    replace (fbmem f + r * pitch f + bytes_per f * k + j) with (fbmem f + (r * pitch f + bytes_per f * k + j)) by lia.
    rewrite Hc by nia. f_equal. lia.
  - split; [by eapply copied_block|]. intros r k j Hr Hkk Hj. rewrite Hu by nia. by apply Hs.
  - by eapply copied_block.
Qed.

(** A console at [t] whose back buffer and framebuffer both show it. *)
Definition console_at f m t : Prop :=
  text_ok f t ∧ canvas f m (pix t) ∧ shows f (fbmem f) m (pix t) ∧ buffers_ok f m.

(** Memory outside the two buffers is as it was. *)
Definition only_buffers f m m' : Prop :=
  ∀ a, ¬ (backbuf f <= a < backbuf f + nbytes f) → ¬ (fbmem f <= a < fbmem f + nbytes f) → m' !! a = m !! a.

Lemma fbcon_emit_message_spec f m t x :
  geometry f → console_at f m t → 0 ∈ msg_text x →
  ∃ m', fbcon_emit_message default_font (at_text f t) m (msg_level x) (msg_time x) (msg_text x) =
          Some (at_text f (text_message f t x), m') ∧
    console_at f m' (text_message f t x) ∧ only_buffers f m m'.
Proof.
  intros Hg (Ht & Hc & _ & Hb) H0. unfold fbcon_emit_message, text_message.
  destruct (time_string_total (msg_time x)) as [l El]. rewrite El. cbn [mbind option_bind default].
  destruct (fbcon_print_drawn f m t (l ++ [0]) (c_msgtime f) (c_background f)) as (m1 & E1 & H1 & Ht1);
    [done|done|done|set_solver|].
  destruct (fbcon_print_drawn f m1 _ (msg_text x) (level_color f (msg_level x)) (c_background f) Hg (proj1 H1) Ht1 H0)
    as (m2 & E2 & H2 & Ht2).
  pose proof (drawn_trans _ _ _ _ _ _ H1 H2) as H12.
  destruct (fbcon_flush_shows f m2 _ Hg (proj1 H2)) as (m3 & E3 & Hs3 & Hc3 & Hb3 & Hu3).
  { by eapply buffers_ok_drawn. }
  exists m3. split; [|split; [done|]].
  - change (c_background (at_text f t)) with (c_background f). change (c_msgtime (at_text f t)) with (c_msgtime f).
    change (level_color (at_text f t)) with (level_color f). rewrite E1. cbn [mbind option_bind].
    rewrite E2. cbn [mbind option_bind]. etrans; [|reflexivity]. by setoid_rewrite E3.
  - intros a Ha1 Ha2. rewrite Hu3 by lia. apply H12. lia.
Qed.

End printing.

Section registering.
Local Open Scope Z_scope.
Implicit Types (m : gmap Z Z) (f : fbcon) (s : screen) (t : text).
Context (default_font : Z → Z).

(** ** Registering a console, and the messages that follow *)

(** Whether a color can be computed depends on the format only. *)
Lemma shl32_total x y n : is_Some (shl32 x n) → is_Some (shl32 y n).
Proof. unfold shl32. case_decide; [by eexists|done]. Qed.

Lemma channel_total x y bits offset : is_Some (channel x bits offset) → is_Some (channel y bits offset).
Proof.
  intros [z H]. unfold channel in *. case_decide; [|case_decide].
  1: apply bind_Some in H as (v & Hv & H); destruct (shl32_total _ (if decide (y > 255) then 255 else y) _ (mk_is_Some _ _ Hv)) as [u ->].
  all: eapply shl32_total; eexists; exact H.
Qed.

Lemma get_color_total fm r g b r' g' b' : is_Some (get_color fm r g b) → is_Some (get_color fm r' g' b').
Proof.
  intros [z H]. unfold get_color in *.
  apply bind_Some in H as (x & Hx & H). apply bind_Some in H as (y & Hy & H). apply bind_Some in H as (v & Hv & _).
  destruct (channel_total _ r' _ _ (mk_is_Some _ _ Hx)) as [x' ->].
  destruct (channel_total _ g' _ _ (mk_is_Some _ _ Hy)) as [y' ->].
  destruct (channel_total _ b' _ _ (mk_is_Some _ _ Hv)) as [v' ->]. by eexists.
Qed.

(** What [validate_format] establishes where its products do not wrap. *)
Lemma validate_format_true w h p fm :
  validate_format w h p fm = Some true → 0 <= w → w * (bpp fm / 8) < 2 ^ 32 →
  (bpp fm = 8 ∨ bpp fm = 16 ∨ bpp fm = 24 ∨ bpp fm = 32) ∧ 20 <= w ∧ 20 <= h ∧ w * (bpp fm / 8) <= p ∧
  is_Some (get_color fm 0 0 0).
Proof.
  unfold validate_format. intros H Hw0 Hw.
  destruct (bytes_per_pixel fm) as [k|] eqn:Ek; [|done].
  assert ((bpp fm = 8 ∨ bpp fm = 16 ∨ bpp fm = 24 ∨ bpp fm = 32) ∧ bpp fm / 8 = k) as [Hb Hk].
  { unfold bytes_per_pixel in Ek. repeat case_decide; simplify_eq; (split; [tauto|]);
      match goal with E : bpp fm = _ |- _ => by rewrite E end. }
  rewrite Hk in *. assert (1 <= k) by (rewrite <- Hk; destruct Hb as [-> | [-> | [-> | ->]]]; done).
  rewrite (wrap_small 32 (w * k)) in H by (unfold in_width; nia).
  repeat (case_decide; [done|]). apply bind_Some in H as (c & Hc & _). split_and!; [done|lia|lia|lia|by eexists].
Qed.

(** The console that is registered. *)
Record registered_as f (w h p : Z) (fm : fbcon_format) (fbm b : Z) : Prop := {
  reg_fmt : fmt f = fm;
  reg_extent : width f = w ∧ height f = h ∧ pitch f = p ∧ nbytes f = h * p;
  reg_buffers : fbmem f = fbm ∧ backbuf f = b;
  reg_cursor : cx f = 0 ∧ cy f = 0;
  reg_colors : Some (c_background f) = get_color fm 35 38 39 ∧ Some (c_info f) = get_color fm 200 200 200 ∧
    Some (c_notice f) = get_color fm 255 255 255 ∧ Some (c_warn f) = get_color fm 253 188 75 ∧
    Some (c_err f) = get_color fm 237 21 21 ∧ Some (c_msgtime f) = get_color fm 17 209 22 }.

(** What the caller of [fbcon_add_framebuffer] answers for: the buffers are
    memory of the extent's size, apart from each other, and the products of the
    extent are 32-bit numbers. *)
Record framebuffer m (w h p : Z) (fm : fbcon_format) (fbm b : Z) : Prop := {
  fb_extent : 0 <= w ∧ w * (bpp fm / 8) < 2 ^ 32 ∧ h * p < 2 ^ 32;
  fb_memory : bytes_block m fbm (h * p);
  fb_backbuf : bytes_block m b (h * p);
  fb_apart : fbm + h * p <= b ∨ b + h * p <= fbm }.

(** The empty screen. *)
Definition blank f : text := mkText 0 0 (λ _ _, c_background f).

(** Any memory shows some screen: the colors its bytes make up. *)
Fixpoint color_at (k : nat) m (a : Z) : Z :=
  match k with
  | O => 0
  | S k => default 0 (m !! a) + 256 * color_at k m (a + 1)
  end.

Lemma color_at_byte k m a j :
  bytes_block m a (Z.of_nat k) → 0 <= j < Z.of_nat k → m !! (a + j) = Some (color_byte (color_at k m a) j).
Proof.
  revert a j. induction k as [|k IH]; intros a j Hb Hj; [lia|]. cbn [color_at].
  destruct (Hb a) as (b & Ea & Hbb); [lia|]. unfold is_byte in Hbb. rewrite Ea. change (default 0 (Some b)) with b.
  destruct (decide (j = 0)) as [->|Hj0].
  - rewrite Z.add_0_r, Ea. unfold color_byte, wrap. rewrite Z.shiftr_0_r. f_equal.
    change (2 ^ 8) with 256.
    by rewrite Z.mul_comm, Z.mod_add, Z.mod_small by lia.
  - replace (a + j) with (a + 1 + (j - 1)) by lia. rewrite IH; [|intros c Hc; apply Hb; lia|lia].
    unfold color_byte. replace (8 * j) with (8 + 8 * (j - 1)) by lia. rewrite <- Z.shiftr_shiftr by lia.
    do 3 f_equal. rewrite Z.shiftr_div_pow2 by lia. change (2 ^ 8) with 256.
    rewrite Z.mul_comm, Z.div_add, Z.div_small by lia. done.
Qed.

Lemma some_canvas f m : geometry f → bytes_block m (backbuf f) (nbytes f) → ∃ s, canvas f m s.
Proof.
  intros Hg Hb. pose proof (geometry_facts f Hg) as (Hk & Hwp & _). pose proof Hg as [_ Hw _ Hp _ Hn].
  exists (λ r c, color_at (Z.to_nat (bytes_per f)) m (backbuf f + r * pitch f + bytes_per f * c)).
  split; [done|]. intros r c j Hr Hc Hj. apply color_at_byte; [|lia]. rewrite Z2Nat.id by lia.
  apply (bytes_block_sub _ _ _ _ _ Hb); nia.
Qed.

(** The back buffer filled with the background and flushed. *)
Lemma blank_spec f m :
  geometry f → bytes_block m (backbuf f) (nbytes f) → buffers_ok f m →
  ∃ m1 m2, fill_rows (Z.to_nat (height f)) f m 0 (c_background f) = Some m1 ∧ fbcon_flush f m1 = Some m2 ∧
    console_at f m2 (blank f) ∧ only_buffers f m m2.
Proof.
  intros Hg Hb Hbuf. pose proof (geo_height f Hg). pose proof (geo_width f Hg).
  destruct (some_canvas f m Hg Hb) as [s Hc].
  destruct (fill_rows_drawn (Z.to_nat (height f)) f m s 0 (c_background f)) as (m1 & E1 & H1); [done|done|lia|lia|].
  apply (drawn_ext _ _ _ _ (pix (blank f))) in H1; [|intros r k Hr _; by rewrite decide_True by lia].
  destruct (fbcon_flush_shows f m1 _ Hg (proj1 H1)) as (m2 & E2 & Hs2 & Hc2 & Hb2 & Hu2).
  { by eapply buffers_ok_drawn. }
  exists m1, m2. split_and!; [done|done| |].
  - split_and!; [|done..]. unfold text_ok. simpl. lia.
  - intros a Ha1 Ha2. rewrite Hu2 by lia. apply H1. lia.
Qed.

(** Where the struct and the back buffer come from, and what is recorded of it. *)
Lemma add_framebuffer_spec k fb w h p fm fbm bb ks kb b :
  validate_format w h p fm = Some true → framebuffer (console_mem k) w h p fm fbm b →
  (fb ≠ None ∨ ks ≠ None) → from_option Some kb bb = Some b →
  ∃ fp f flags m, fbcon_add_framebuffer k fb w h p fm fbm bb ks kb =
      Some (Registered fp flags (mkConsoles (ConFbcon fp :: console_list k) (<[fp := f]> (fbcons k)) (Some fp) m)) ∧
    Some fp = from_option Some ks fb ∧
    registered_as f w h p fm fbm b ∧ geometry f ∧ console_at f m (blank f) ∧ only_buffers f (console_mem k) m ∧
    (Z.land flags FBC_OWN_STRUCT ≠ 0 ↔ fb = None) ∧ (Z.land flags FBC_OWN_BACKBUFFER ≠ 0 ↔ bb = None).
Proof.
  intros Hv [(Hw0 & Hwk & Hhp) Hm Hb Ha] Hs Hbb. unfold fbcon_add_framebuffer. rewrite Hv. cbn [mbind option_bind negb].
  destruct (validate_format_true _ _ _ _ Hv Hw0 Hwk) as (Hbpp & Hw & Hh & Hp & Hc).
  destruct (get_color_total _ _ _ _ 35 38 39 Hc) as [c1 E1]. destruct (get_color_total _ _ _ _ 200 200 200 Hc) as [c2 E2].
  destruct (get_color_total _ _ _ _ 255 255 255 Hc) as [c3 E3]. destruct (get_color_total _ _ _ _ 253 188 75 Hc) as [c4 E4].
  destruct (get_color_total _ _ _ _ 237 21 21 Hc) as [c5 E5]. destruct (get_color_total _ _ _ _ 17 209 22 Hc) as [c6 E6].
  assert (1 <= bpp fm / 8) as Hk by (destruct Hbpp as [-> | [-> | [-> | ->]]]; done).
  rewrite (wrap_small 32 (h * p)) by (unfold in_width; nia).
  set (f := mkFbcon fm w h p (h * p) fbm b 0 0 c1 c2 c3 c4 c5 c6).
  assert (geometry f) as Hg by (split; unfold bytes_per; simpl; lia || done).
  destruct (blank_spec f (console_mem k) Hg Hb (conj Hm Ha)) as (m1 & m2 & Ef & El & Hcon & Hu).
  change (height f) with h in Ef. change (c_background f) with c1 in Ef.
  assert (registered_as f w h p fm fbm b) as Hreg by (split; simpl; auto 10).
  destruct fb as [fp|]; [|destruct ks as [fp|]; [|by destruct Hs]];
    (destruct bb as [b'|]; simpl in Hbb; [injection Hbb as ->|rewrite Hbb]); cbn [mbind option_bind];
    rewrite E1, E2, E3, E4, E5, E6; cbn [mbind option_bind]; fold f; rewrite Ef; cbn [mbind option_bind];
    rewrite El; eexists fp, f, _, m2; (split; [reflexivity|]); do 5 (split; [done|]); by vm_compute.
Qed.

(** A call of [printk], and the message it makes. *)
Record printk_call := mkCall { call_time : Z; call_fmt : list Z; call_args : list varg }.

Definition message_of (c : printk_call) : option message :=
  buf ← vsnprintf 768 (call_fmt c) (call_args c);
  let '(level, p) := split_level buf in Some (mkMessage level (call_time c) p).

(** The calls one after the other. *)
Definition printk_all (k : consoles) (calls : list printk_call) : option consoles :=
  foldl (λ k c, k ← k; printk default_font k (call_time c) (call_fmt c) (call_args c)) (Some k) calls.

(** The message ends with a zero. *)
Lemma message_of_nul c x : message_of c = Some x → 0 ∈ msg_text x.
Proof.
  unfold message_of, vsnprintf. intros H. apply bind_Some in H as (buf & Hb & H).
  apply bind_Some in Hb as (o & _ & [= <-]).
  assert (0 ∈ (split_level (written o ++ [0])).2) as H0.
  { destruct (written o) as [|p0 [|p1 [|p2 l]]]; cbn [app split_level]; [set_solver|set_solver| |].
    - case_decide as Hd; cbn [snd]; [lia|set_solver].
    - case_decide; cbn [snd]; set_solver. }
  destruct (split_level _) as [level p]. by injection H as <-.
Qed.

(** The only framebuffer console is [f], registered at [fp]. *)
Definition only_console (k : consoles) (fp : Z) (f : fbcon) : Prop :=
  ∃ others, console_list k = ConFbcon fp :: others ∧ Forall (λ c, ∃ id, c = ConOther id) others ∧
    fbcons k !! fp = Some f.

Lemma emit_to_others others k level us msg :
  Forall (λ c, ∃ id, c = ConOther id) others → emit_to default_font others k level us msg = Some k.
Proof. induction 1 as [|c cs [id ->] _ IH]; [done|]. apply IH. Qed.

Lemma printk_spec k fp f t c x :
  only_console k fp (at_text f t) → geometry f → console_at f (console_mem k) t → message_of c = Some x →
  ∃ k', printk default_font k (call_time c) (call_fmt c) (call_args c) = Some k' ∧
    only_console k' fp (at_text f (text_message default_font f t x)) ∧
    console_at f (console_mem k') (text_message default_font f t x) ∧ only_buffers f (console_mem k) (console_mem k').
Proof.
  intros (others & Hl & Ho & Hf) Hg Hc Hx. pose proof (message_of_nul c x Hx) as H0. unfold message_of in Hx.
  unfold printk. destruct (vsnprintf _ _ _) as [buf|]; [|done]. cbn [mbind option_bind] in *.
  destruct (split_level buf) as [level p]. injection Hx as <-. unfold printk_emit. rewrite Hl. cbn [emit_to].
  rewrite Hf. cbn [mbind option_bind].
  destruct (fbcon_emit_message_spec default_font f (console_mem k) t _ Hg Hc H0) as (m' & E & Hc' & Hu).
  cbn [msg_level msg_time msg_text] in E. rewrite E. cbn [mbind option_bind]. rewrite emit_to_others by done.
  eexists. split; [done|]. split_and!; [|done|done]. exists others. split_and!; [done|done|]. simpl.
  by rewrite lookup_insert_eq.
Qed.

Lemma printk_all_spec fp f calls msgs : geometry f → mapM message_of calls = Some msgs → ∀ k t,
  only_console k fp (at_text f t) → console_at f (console_mem k) t →
  let t' := foldl (text_message default_font f) t msgs in
  ∃ k', printk_all k calls = Some k' ∧ only_console k' fp (at_text f t') ∧
    console_at f (console_mem k') t' ∧ only_buffers f (console_mem k) (console_mem k').
Proof.
  intros Hg. revert msgs. induction calls as [|c calls IH]; intros msgs Hm k t Ho Hc.
  { injection Hm as <-. by exists k. }
  simpl in Hm. apply bind_Some in Hm as (x & Hx & Hm). apply bind_Some in Hm as (xs & Hxs & [= <-]).
  destruct (printk_spec k fp f t c x Ho Hg Hc Hx) as (k1 & E1 & Ho1 & Hc1 & Hu1).
  destruct (IH xs Hxs k1 _ Ho1 Hc1) as (k2 & E2 & Ho2 & Hc2 & Hu2). exists k2. split_and!; [|done|done|].
  - unfold printk_all. cbn [foldl]. cbn [mbind option_bind]. rewrite E1. exact E2.
  - intros a Ha1 Ha2. by rewrite Hu2, Hu1.
Qed.

(** C40. Take a framebuffer whose format is accepted, whose buffers are memory of
    its extent, and whose products (bytes of a row, bytes of the framebuffer) are
    32-bit numbers, which [validate_format] does not ensure as it looks at them
    after they have wrapped.  Registered as the only framebuffer
    console, with memory for its structure, it is
    the head of the list of consoles and shows a screen of the background color.
    Whatever messages are printed with [printk] afterwards, with arguments that
    fit their formats, the framebuffer shows the text screen on which they are
    drawn in order, each as its time and its text in the color of its level, with
    the lines wrapped and moved up as the screen fills; the cursor leaves room
    for the next character, and no byte outside the two buffers changes. *)
Theorem fbcon_correct k fb w h p fm fbm bb ks kb b calls msgs :
  validate_format w h p fm = Some true → framebuffer (console_mem k) w h p fm fbm b →
  (fb ≠ None ∨ ks ≠ None) → from_option Some kb bb = Some b →
  Forall (λ c, ∃ id, c = ConOther id) (console_list k) → mapM message_of calls = Some msgs →
  ∃ fp f flags k0 k', fbcon_add_framebuffer k fb w h p fm fbm bb ks kb = Some (Registered fp flags k0) ∧
    Some fp = from_option Some ks fb ∧ fbcon_find_one k0 = Some fp ∧ fbcons k0 !! fp = Some f ∧
    console_list k0 = ConFbcon fp :: console_list k ∧ registered_as f w h p fm fbm b ∧
    (Z.land flags FBC_OWN_STRUCT ≠ 0 ↔ fb = None) ∧ (Z.land flags FBC_OWN_BACKBUFFER ≠ 0 ↔ bb = None) ∧
    shows f (fbmem f) (console_mem k0) (λ _ _, c_background f) ∧
    let t := foldl (text_message default_font f) (blank f) msgs in
    printk_all k0 calls = Some k' ∧ fbcons k' !! fp = Some (at_text f t) ∧
    shows f (fbmem f) (console_mem k') (pix t) ∧ text_ok f t ∧ only_buffers f (console_mem k) (console_mem k').
Proof.
  intros Hv Hfb Hs Hbb Hcons Hcalls.
  destruct (add_framebuffer_spec k fb w h p fm fbm bb ks kb b Hv Hfb Hs Hbb)
    as (fp & f & flags & m & E & Hfp & Hr & Hg & Hc & Hu & Hf1 & Hf2).
  assert (at_text f (blank f) = f) as Hat.
  { destruct Hr as [_ _ _ [Hx Hy] _]. destruct f. simpl in *. by subst. }
  pose (k0 := mkConsoles (ConFbcon fp :: console_list k) (<[fp := f]> (fbcons k)) (Some fp) m).
  assert (only_console k0 fp (at_text f (blank f))) as Hk0.
  { exists (console_list k). split_and!; [done|done|]. rewrite Hat. simpl. by rewrite lookup_insert_eq. }
  destruct (printk_all_spec fp f calls msgs Hg Hcalls k0 (blank f) Hk0 Hc)
    as (k' & E' & (_ & _ & _ & Hf') & (Ht & _ & Hsh & _) & Hu').
  exists fp, f, flags, k0, k'. split_and!; try done.
  - simpl. by rewrite lookup_insert_eq.
  - apply Hc.
  - intros t. split_and!; [done..|]. intros a Ha1 Ha2. rewrite Hu' by done. by apply Hu.
Qed.

(** The size check of [validate_format] sees the product of the height and the
    pitch after it has wrapped: an extent of 4 GiB and 1.25 MiB is accepted,
    with a back buffer of 1.25 MiB, which ends where row 20 starts. *)
Theorem validate_format_wraps fbm b c :
  let f := mkFbcon (mkFormat 8 5 2 0 3 3 2) 20 65556 65536 (wrap 32 (65556 * 65536)) fbm b 0 0 c c c c c c in
  validate_format (width f) (height f) (pitch f) (fmt f) = Some true ∧ 20 < height f ∧
  get_row f 20 = b + nbytes f.
Proof. simpl. split_and!; by vm_compute. Qed.

End registering.

(** ** A small framebuffer *)

Section fbcon_example.
Local Open Scope Z_scope.

Definition ex_fb_format : fbcon_format := mkFormat 8 5 2 0 3 3 2.

(** Two buffers of 400 bytes. *)
Definition ex_fb_mem : gmap Z Z := list_to_map ((λ i, (Z.of_nat i, 0)) <$> seq 0 800).

Lemma ex_fb_bytes p n : 0 <= p → p + n <= 800 → bytes_block ex_fb_mem p n.
Proof.
  intros Hp Hn a Ha. exists 0. split; [|done].
  assert (Forall (λ i, ex_fb_mem !! Z.of_nat i = Some 0) (seq 0 800)) as H.
  { apply (bool_decide_unpack _). vm_compute. exact I. }
  rewrite Forall_forall in H. specialize (H (Z.to_nat a)). rewrite Z2Nat.id in H by lia.
  apply H, elem_of_seq. lia.
Qed.

Definition ex_consoles : consoles := mkConsoles [ConOther 0] ∅ None ex_fb_mem.

(** Two calls of [printk], with the prefixes of notices and errors. *)
Definition ex_calls : list printk_call :=
  [mkCall 12345678 ([1; 50; 2] ++ chars "cpu%u"%string ++ [10]) [VInt 3];
   mkCall 12345679 ([1; 52; 2] ++ chars "bad"%string ++ [10]) []].

Definition ex_messages : list message :=
  [mkMessage 2 12345678 (chars "cpu3"%string ++ [10; 0]); mkMessage 4 12345679 (chars "bad"%string ++ [10; 0])].

Lemma fbcon_correct_witness :
  ∃ f k0 k', fbcon_add_framebuffer ex_consoles (Some 4096) 20 20 20 ex_fb_format 0 None None (Some 400) =
      Some (Registered 4096 2 k0) ∧ fbcons k0 !! 4096 = Some f ∧
    let t := foldl (text_message (λ i, i mod 256) f) (blank f) ex_messages in
    printk_all (λ i, i mod 256) k0 ex_calls = Some k' ∧
    shows f (fbmem f) (console_mem k') (pix t) ∧ only_buffers f ex_fb_mem (console_mem k').
Proof.
  destruct (fbcon_correct (λ i, i mod 256) ex_consoles (Some 4096) 20 20 20 ex_fb_format 0 None None (Some 400) 400 ex_calls ex_messages)
    as (fp & f & flags & k0 & k' & E & Hfp & _ & Hf & _ & _ & _ & _ & _ & E' & _ & Hs & _ & Hu).
  - by vm_compute.
  - split; [by vm_compute|apply ex_fb_bytes; lia|apply ex_fb_bytes; lia|lia].
  - by left.
  - done.
  - repeat constructor. by exists 0.
  - by vm_compute.
  - injection Hfp as ->. exists f, k0, k'. assert (flags = 2) as ->.
    { vm_compute in E. by injection E as <-. }
    split; [exact E|]. split; [exact Hf|]. split; [exact E'|]. split; [exact Hs|exact Hu].
Defined.

(** The time of the first message. *)
Example ex_time : time_string 12345678 = Some (chars "[   12.345678] "%string ++ [0]).
Proof. by vm_compute. Qed.

End fbcon_example.
