(* ===== verification/PageAlloc.v ===== *)
(** * Zones and the page allocator
    ([arch/x86/include/asm/zone.h], [include/davix/page.h], [mm/page_alloc.cc])

    Physical memory is split into three zones; each zone has a free list of
    [Page] objects and a counter.  An allocation tries the zone of its class
    and then the fallback zones below it.  The operations run under
    [freelist_lock], so each is one atomic step of the state. *)

From S2P Require Import Prelude.
From S2P Require Export LinkedList.

Section zone.
Local Open Scope Z_scope.

Definition ALLOC_ZERO : Z := 1.
Definition ALLOC_HIGHPRIO : Z := 4.
Definition ALLOC_KERNEL : Z := 0.
Definition ALLOC_USER : Z := ALLOC_ZERO.
Definition ALLOC_LOW4G : Z := 2 ^ 30.
Definition ALLOC_LOW1M : Z := 2 ^ 31.

Definition ZONE_DEFAULT : Z := 0.
Definition ZONE_LOW4G : Z := 1.
Definition ZONE_LOW1M : Z := 2.
Definition num_page_zones : nat := 3.

Definition allocation_zone (aclass : Z) : Z :=
  if decide (Z.land aclass ALLOC_LOW1M ≠ 0) then ZONE_LOW1M
  else if decide (Z.land aclass ALLOC_LOW4G ≠ 0) then ZONE_LOW4G
  else ZONE_DEFAULT.

Definition phys_to_zone (phys : Z) : Z :=
  if decide (phys < 1024 * 1024) then ZONE_LOW1M
  else if decide (phys < 4 * 1024 * 1024 * 1024) then ZONE_LOW4G
  else ZONE_DEFAULT.

Definition zone_minaddr (zone : Z) : Z :=
  if decide (zone = ZONE_DEFAULT) then 4 * 1024 * 1024 * 1024
  else if decide (zone = ZONE_LOW4G) then 1024 * 1024
  else 0.

Definition zone_maxaddr (zone : Z) : Z :=
  if decide (zone = ZONE_DEFAULT) then UINT64_MAX
  else if decide (zone = ZONE_LOW4G) then 4 * 1024 * 1024 * 1024 - 1
  else 1024 * 1024 - 1.

Definition zone_has_fallback (zone : Z) : bool := bool_decide (zone ≠ ZONE_LOW1M).
Definition fallback_zone (zone : Z) : Z :=
  if decide (zone = ZONE_DEFAULT) then ZONE_LOW4G else ZONE_LOW1M.

Definition is_zone (z : Z) : Prop := z = 0 ∨ z = 1 ∨ z = 2.

(** The zones partition the 64-bit address space: [phys_to_zone] inverts the
    bounds. *)
Lemma phys_to_zone_spec phys zone :
  u64 phys → is_zone zone →
  phys_to_zone phys = zone ↔ zone_minaddr zone <= phys <= zone_maxaddr zone.
Proof.
  intros Hp Hz. unfold phys_to_zone, zone_minaddr, zone_maxaddr, ZONE_DEFAULT, ZONE_LOW4G, ZONE_LOW1M.
  unfold_words. unfold is_zone in Hz. repeat case_decide; lia.
Qed.

Lemma phys_to_zone_is_zone phys : is_zone (phys_to_zone phys).
Proof. unfold phys_to_zone, is_zone. repeat case_decide; tauto. Qed.

Lemma allocation_zone_is_zone c : is_zone (allocation_zone c).
Proof. unfold allocation_zone, is_zone. repeat case_decide; tauto. Qed.

End zone.

Section pages.
Local Open Scope Z_scope.

(** [Page] objects lie in the array [page_map]; [sizeof (Page)] is 64. *)
Context (page_map HHDM_OFFSET : Z).

Definition PAGE_SIZE : Z := 4096.

Definition phys_to_pfn (phys : Z) : Z := phys / PAGE_SIZE.
Definition pfn_to_phys (pfn : Z) : Z := pfn *ᵤ PAGE_SIZE.
Definition page_to_pfn (page : loc) : Z := (Z.pos page - page_map) / 64.
Definition pfn_to_page (pfn : Z) : loc := Z.to_pos (page_map + 64 * pfn).
Definition page_to_phys (page : loc) : Z := pfn_to_phys (page_to_pfn page).
Definition phys_to_page (phys : Z) : loc := pfn_to_page (phys_to_pfn phys).
Definition phys_to_virt (x : Z) : Z := x +ᵤ HHDM_OFFSET.
Definition virt_to_phys (x : Z) : Z := x -ᵤ HHDM_OFFSET.
Definition page_to_virt (page : loc) : Z := phys_to_virt (page_to_phys page).
Definition virt_to_page (x : Z) : loc := phys_to_page (virt_to_phys x).

Definition page_zone (page : loc) : Z := phys_to_zone (page_to_phys page).

(** The address of [zone_list[i].free_list]. *)
Context (zone_head : Z → loc).

(** [contents] is what the page frames hold, by page and offset. *)
Record pgalloc := mkPg {
  pg_lists : lmem;
  zone_count : Z → Z;
  total_free_pages : Z;
  page_flags : gmap loc Z;
  contents : gmap loc (Z → Z)
}.

Definition set_count (c : Z → Z) (z v : Z) : Z → Z := λ z', if decide (z' = z) then v else c z'.

Definition pgalloc_init (st : pgalloc) : pgalloc :=
  let init_zone (s : pgalloc) (i : Z) :=
    mkPg (list_init (pg_lists s) (zone_head i)) (set_count (zone_count s) i 0)
      (total_free_pages s) (page_flags s) (contents s) in
  init_zone (init_zone (init_zone st 0) 1) 2.

(** The [for (;;)] of [alloc_page]: the zone, then its fallbacks. *)
Fixpoint alloc_loop (fuel : nat) (st : pgalloc) (zone : Z) : option (option loc * pgalloc) :=
  match fuel with
  | O => None
  | S fuel =>
    e ← list_empty (pg_lists st) (zone_head zone);
    if e : bool then
      if zone_has_fallback zone then alloc_loop fuel st (fallback_zone zone)
      else Some (None, st)
    else
      '(page, lm) ← list_pop_front (pg_lists st) (zone_head zone);
      Some (Some page, mkPg lm (set_count (zone_count st) zone (zone_count st zone -ᵤ 1))
                         (total_free_pages st -ᵤ 1) (page_flags st) (contents st))
  end.

Definition alloc_page (st : pgalloc) (aclass : Z) : option (option loc * pgalloc) :=
  '(page, st) ← alloc_loop num_page_zones st (allocation_zone aclass);
  match page with
  | None => Some (None, st)
  | Some p =>
    Some (Some p, if decide (Z.land aclass ALLOC_ZERO ≠ 0) then
                    mkPg (pg_lists st) (zone_count st) (total_free_pages st) (page_flags st)
                      (<[p := λ _, 0]> (contents st))
                  else st)
  end.

Definition free_page (st : pgalloc) (page : loc) : option pgalloc :=
  let flags := <[page := 0]> (page_flags st) in
  let zone := page_zone page in
  lm ← list_push_front (pg_lists st) (zone_head zone) page;
  Some (mkPg lm (set_count (zone_count st) zone (zone_count st zone +ᵤ 1))
          (total_free_pages st +ᵤ 1) flags (contents st)).

(** ** The invariant *)

(** [F z] is the free list of zone [z]. *)
Definition heads (F : Z → list loc) : gmap loc (list loc) :=
  <[zone_head 0 := F 0]> (<[zone_head 1 := F 1]> {[zone_head 2 := F 2]}).

Record pg_wf (st : pgalloc) (F : Z → list loc) : Prop := {
  pg_ok : lists_ok (pg_lists st) (heads F);
  pg_zone : ∀ z p, is_zone z → p ∈ F z → page_zone p = z;
  pg_count : ∀ z, is_zone z → zone_count st z = wrap64 (Z.of_nat (length (F z)));
  pg_total : total_free_pages st =
             wrap64 (Z.of_nat (length (F 0) + length (F 1) + length (F 2)))
}.

Context (Hinj : ∀ z1 z2, is_zone z1 → is_zone z2 → zone_head z1 = zone_head z2 → z1 = z2).

Definition set_list (F : Z → list loc) (z : Z) (l : list loc) : Z → list loc :=
  λ z', if decide (z' = z) then l else F z'.

Lemma heads_lookup F z : is_zone z → heads F !! zone_head z = Some (F z).
Proof.
  intros Hz. unfold heads. assert (is_zone 0 ∧ is_zone 1 ∧ is_zone 2) as (H0 & H1 & H2)
    by (unfold is_zone; lia).
  destruct Hz as [-> | [-> | ->]].
  - by rewrite lookup_insert_eq.
  - rewrite lookup_insert_ne by (intros E; apply Hinj in E; done). by rewrite lookup_insert_eq.
  - rewrite lookup_insert_ne by (intros E; apply Hinj in E; done).
    rewrite lookup_insert_ne by (intros E; apply Hinj in E; done). by rewrite lookup_singleton_eq.
Qed.

Lemma heads_insert F z l : is_zone z → <[zone_head z := l]> (heads F) = heads (set_list F z l).
Proof.
  intros Hz. assert (is_zone 0 ∧ is_zone 1 ∧ is_zone 2) as (H0 & H1 & H2) by (unfold is_zone; lia).
  apply map_eq. intros h. destruct (decide (h = zone_head z)) as [->|Hne].
  - rewrite lookup_insert_eq, heads_lookup by done. unfold set_list. by rewrite decide_True.
  - rewrite lookup_insert_ne by done. unfold heads, set_list.
    destruct (decide (h = zone_head 0)) as [->|N0]; [|destruct (decide (h = zone_head 1)) as [->|N1];
      [|destruct (decide (h = zone_head 2)) as [->|N2]]].
    + rewrite !lookup_insert_eq. rewrite decide_False; [done|]. by intros <-.
    + assert (zone_head 0 ≠ zone_head 1) by (intros E; apply Hinj in E; done).
      rewrite !(lookup_insert_ne _ (zone_head 0)) by done. rewrite !lookup_insert_eq.
      rewrite decide_False; [done|]. by intros <-.
    + rewrite !lookup_insert_ne by done. rewrite !lookup_singleton_eq.
      rewrite decide_False; [done|]. by intros <-.
    + rewrite !lookup_insert_ne by done. rewrite !lookup_singleton_ne by done. done.
Qed.

Lemma wrap64_sub1 n : (0 < n)%nat → wrap64 (Z.of_nat n) -ᵤ 1 = wrap64 (Z.of_nat (n - 1)).
Proof.
  intros. unfold sub64, wrap. rewrite Zminus_mod_idemp_l. f_equal. lia.
Qed.

Lemma wrap64_add1 n : wrap64 (Z.of_nat n) +ᵤ 1 = wrap64 (Z.of_nat (n + 1)).
Proof. unfold add64, wrap. rewrite Zplus_mod_idemp_l. f_equal. lia. Qed.

Lemma total_set_list F z l k :
  is_zone z → (length l + k = length (F z))%nat →
  (length (set_list F z l 0%Z) + length (set_list F z l 1%Z) + length (set_list F z l 2%Z) + k =
   length (F 0%Z) + length (F 1%Z) + length (F 2%Z))%nat.
Proof. intros [-> | [-> | ->]] Hl; unfold set_list; simpl; lia. Qed.

(** ** Allocation *)

Lemma pop_zone st F z p l :
  pg_wf st F → is_zone z → F z = p :: l →
  ∃ lm, list_pop_front (pg_lists st) (zone_head z) = Some (p, lm) ∧
    pg_wf (mkPg lm (set_count (zone_count st) z (zone_count st z -ᵤ 1))
             (total_free_pages st -ᵤ 1) (page_flags st) (contents st)) (set_list F z l) ∧
    ¬ on_list (heads (set_list F z l)) p ∧ is_Some (lm !! p) ∧ dom lm = dom (pg_lists st).
Proof.
  intros [Hok Hz Hc Ht] Hzone HF.
  pose proof (heads_lookup F z Hzone) as Hl. rewrite HF in Hl.
  destruct (lists_pop_front _ _ _ _ _ Hok Hl) as (lm & E & Hok' & Hd).
  rewrite heads_insert in Hok' by done.
  exists lm. split_and!; [done|split|..]; simpl.
  - done.
  - intros z' q Hz' Hq. unfold set_list in Hq. case_decide; [|by apply Hz]. subst.
    apply Hz; [done|]. rewrite HF. set_solver.
  - intros z' Hz'. unfold set_count, set_list. case_decide; [|by apply Hc].
    subst. rewrite Hc, HF, wrap64_sub1 by (done || simpl; lia). simpl. f_equal. lia.
  - pose proof (total_set_list F z l 1 Hzone ltac:(rewrite HF; simpl; lia)) as Htl.
    rewrite Ht, wrap64_sub1 by lia. f_equal. lia.
  - rewrite <- heads_insert by done. by apply (removed_off_list (pg_lists st) _ _ [] p l).
  - apply elem_of_dom. rewrite Hd. apply elem_of_dom. apply (lists_ok_alloc _ (heads F)); [done|].
    exists (zone_head z), (p :: l). set_solver.
  - done.
Qed.

(** The zones an allocation may come from, in the order they are tried. *)
Definition zone_chain (zone : Z) : list Z :=
  if decide (zone = 0) then [0; 1; 2] else if decide (zone = 1) then [1; 2] else [2].

(** The first zone of the chain with a free page. *)
Definition first_nonempty (F : Z → list loc) (chain : list Z) (z : Z) : Prop :=
  ∃ before after, chain = before ++ z :: after ∧ F z ≠ [] ∧ Forall (λ z', F z' = []) before.

Lemma alloc_loop_spec st F zone fuel :
  pg_wf st F → is_zone zone → (length (zone_chain zone) ≤ fuel)%nat →
  (Forall (λ z, F z = []) (zone_chain zone) ∧ alloc_loop fuel st zone = Some (None, st)) ∨
  (∃ z p l st', first_nonempty F (zone_chain zone) z ∧ F z = p :: l ∧
     alloc_loop fuel st zone = Some (Some p, st') ∧ pg_wf st' (set_list F z l) ∧
     ¬ on_list (heads (set_list F z l)) p ∧ is_Some (pg_lists st' !! p) ∧
     page_flags st' = page_flags st ∧ contents st' = contents st ∧
     dom (pg_lists st') = dom (pg_lists st)).
Proof.
  intros Hwf. revert zone. induction fuel as [|fuel IH]; intros zone Hz Hf.
  { exfalso. unfold zone_chain in Hf. repeat case_decide; simpl in Hf; lia. }
  simpl. pose proof Hwf as [[Hlists _] _ _ _].
  rewrite (empty_spec _ _ (F zone)) by (by apply Hlists, heads_lookup). simpl.
  destruct (F zone) as [|p l] eqn:EF; simpl.
  - unfold zone_has_fallback.
    destruct (decide (zone = ZONE_LOW1M)) as [->|Hne].
    + left. rewrite bool_decide_eq_false_2 by tauto. split; [|done]. repeat constructor. done.
    + rewrite bool_decide_eq_true_2 by done.
      assert (zone_chain zone = zone :: zone_chain (fallback_zone zone) ∧ is_zone (fallback_zone zone))
        as [Hch Hfz].
      { unfold is_zone in *. destruct Hz as [-> | [-> | ->]]; [| |done]; by split; [|tauto]. }
      rewrite Hch in *. destruct (IH (fallback_zone zone)) as [[Hall E]|(z & p & l & st' & Hfn & H)];
        [done|simpl in Hf; lia|..].
      * left. by split; [constructor|].
      * right. exists z, p, l, st'. split; [|done].
        destruct Hfn as (b & a & -> & Hne' & Hb). exists (zone :: b), a. split_and!; [done..|by constructor].
  - right.
    destruct (pop_zone st F zone p l) as (lm & E & Hwf' & Hoff & Hal & Hd); [done..|].
    rewrite E. simpl. eexists zone, p, l, _. split_and!; try done.
    exists [], (tail (zone_chain zone)). split_and!; [|by rewrite EF|constructor].
    unfold zone_chain. unfold is_zone in Hz. destruct Hz as [-> | [-> | ->]]; done.
Qed.

(** C34. [alloc_page] returns the first free page of the first non-empty zone in
    the fallback chain of the allocation class, unlinks exactly that page and
    updates the counters; it returns null exactly when every zone of the chain
    is empty.  A page of a [LOW1M] or [LOW4G] class lies below the bound of
    that zone, and with [__ALLOC_ZERO] the page is zeroed. *)
Theorem alloc_page_correct st F aclass :
  pg_wf st F →
  let chain := zone_chain (allocation_zone aclass) in
  (Forall (λ z, F z = []) chain ∧ alloc_page st aclass = Some (None, st)) ∨
  (∃ z p l st', first_nonempty F chain z ∧ F z = p :: l ∧
     alloc_page st aclass = Some (Some p, st') ∧ pg_wf st' (set_list F z l) ∧
     ¬ on_list (heads (set_list F z l)) p ∧ is_Some (pg_lists st' !! p) ∧
     0 <= page_to_phys p <= zone_maxaddr (allocation_zone aclass) ∧
     contents st' = (if decide (Z.land aclass ALLOC_ZERO ≠ 0) then <[p := λ _, 0]> (contents st)
                     else contents st)).
Proof.
  intros Hwf chain. unfold alloc_page, num_page_zones.
  pose proof (allocation_zone_is_zone aclass) as Haz.
  destruct (alloc_loop_spec st F (allocation_zone aclass) 3 Hwf Haz) as
    [[Hall E]|(z & p & l & st' & Hfn & HF & E & Hwf' & Hoff & Hal & Hfl & Hct & _)].
  { unfold zone_chain. repeat case_decide; simpl; lia. }
  - left. by rewrite E.
  - right. rewrite E. cbn [mbind option_bind].
    eexists z, p, l, _. split_and!; [done|done|done| |done| | | |].
    + destruct Hwf' as [H1 H2 H3 H4]. case_decide; split; done.
    + by case_decide.
    + unfold page_to_phys, pfn_to_phys. apply wrap_range. lia.
    + assert (is_zone z ∧ (z = allocation_zone aclass ∨ allocation_zone aclass < z)) as [Hz Hle].
      { destruct Hfn as (b & a & Hch & _).
        assert (z ∈ zone_chain (allocation_zone aclass)) as Hin by (rewrite Hch; set_solver).
        unfold zone_chain, is_zone in *. clear -Hin Haz.
        destruct Haz as [Hc|[Hc|Hc]]; rewrite Hc in Hin |- *; simpl in Hin;
          rewrite ?elem_of_cons, elem_of_nil in Hin; lia. }
      assert (page_zone p = z) as Hpz by (apply (pg_zone _ _ Hwf z p Hz); rewrite HF; set_solver).
      apply phys_to_zone_spec in Hpz; [|apply wrap_range; lia|done].
      unfold zone_maxaddr, ZONE_DEFAULT, ZONE_LOW4G, UINT64_MAX in *. unfold is_zone in *.
      repeat case_decide; lia.
    + case_decide; simpl; by rewrite Hct.
Qed.

(** The state after [free_page]. *)
Lemma free_page_wf st F page (z := page_zone page) :
  pg_wf st F → ¬ on_list (heads F) page → is_Some (pg_lists st !! page) →
  ∃ st', free_page st page = Some st' ∧ pg_wf st' (set_list F z (page :: F z)) ∧
    page_flags st' = <[page := 0]> (page_flags st) ∧ contents st' = contents st ∧
    dom (pg_lists st') = dom (pg_lists st) ∧ zone_count st' z = zone_count st z +ᵤ 1.
Proof.
  intros Hwf Hoff Hal. pose proof Hwf as [Hok Hz Hc Ht].
  pose proof (phys_to_zone_is_zone (page_to_phys page)) as Hzone. change (is_zone z) in Hzone.
  destruct (lists_push_front _ _ _ _ page Hok (heads_lookup F z Hzone) Hoff Hal)
    as (lm & E & Hok' & Hd). rewrite heads_insert in Hok' by done.
  unfold free_page. fold z. rewrite E. cbn [mbind option_bind].
  eexists. split_and!; [done|split|done|done|done|]; simpl.
  - done.
  - intros z' q Hz' Hq. unfold set_list in Hq. case_decide; [|by apply Hz]. subst z'.
    apply elem_of_cons in Hq as [->|Hq]; [done|by apply Hz].
  - intros z' Hz'. unfold set_count, set_list. case_decide; [|by apply Hc].
    subst z'. rewrite Hc, wrap64_add1 by done. simpl. f_equal. lia.
  - rewrite Ht, wrap64_add1. f_equal. f_equal. unfold set_list.
    destruct Hzone as [-> | [-> | ->]]; simpl; lia.
  - unfold set_count. by rewrite decide_True.
Qed.

(** [free_page] puts the page at the front of the free list of the zone its
    physical address belongs to, clears its flags and updates the counters;
    allocating from that zone returns the page just freed. *)
Theorem free_page_correct st F page :
  pg_wf st F → ¬ on_list (heads F) page → is_Some (pg_lists st !! page) →
  let z := page_zone page in
  ∃ st', free_page st page = Some st' ∧ pg_wf st' (set_list F z (page :: F z)) ∧
    page_flags st' !! page = Some 0 ∧ contents st' = contents st ∧
    (∃ st'', alloc_loop 1 st' z = Some (Some page, st'') ∧ zone_count st'' z = zone_count st z).
Proof.
  intros Hwf Hoff Hal z.
  pose proof (phys_to_zone_is_zone (page_to_phys page)) as Hzone. change (is_zone z) in Hzone.
  destruct (free_page_wf st F page Hwf Hoff Hal) as (st1 & E & Hwf1 & Hfl & Hct & _ & Hc). fold z in Hc, Hwf1.
  exists st1. split_and!; [done|done|by rewrite Hfl, lookup_insert_eq|done|].
  assert (set_list F z (page :: F z) z = page :: F z) as HFz by (unfold set_list; by rewrite decide_True).
  destruct (pop_zone st1 _ z page (F z) Hwf1 Hzone HFz) as (lm' & E' & _).
  cbn [alloc_loop]. rewrite (empty_spec _ _ (page :: F z)).
  2: { apply (pg_ok _ _ Hwf1). by rewrite heads_lookup, HFz. }
  cbn [mbind option_bind]. rewrite bool_decide_eq_false_2 by done. rewrite E'.
  cbn [mbind option_bind]. eexists; split; [done|]. simpl. unfold set_count.
  rewrite decide_True, Hc by done. apply add64_sub64. rewrite (pg_count _ _ Hwf) by done.
  apply wrap_range. lia.
Qed.

End pages.

(** ** An example

    [page_map] at address 1000; the pages at 4 KiB and at 1 MiB are free, the
    page at 8 KiB is in use. *)

Definition ex_head (z : Z) : loc := Z.to_pos (10 + z).
Definition ex_low : loc := pfn_to_page 1000 1.
Definition ex_used : loc := pfn_to_page 1000 2.
Definition ex_mid : loc := pfn_to_page 1000 256.

Definition ex_free (z : Z) : list loc :=
  if decide (z = 2)%Z then [ex_low] else if decide (z = 1)%Z then [ex_mid] else [].

Definition ex_pg : pgalloc :=
  mkPg (list_to_map [(ex_head 0, mkListHead (ex_head 0) (ex_head 0));
                     (ex_head 1, mkListHead ex_mid ex_mid); (ex_mid, mkListHead (ex_head 1) (ex_head 1));
                     (ex_head 2, mkListHead ex_low ex_low); (ex_low, mkListHead (ex_head 2) (ex_head 2));
                     (ex_used, mkListHead ex_used ex_used)])
       (λ z, if decide (z = 0)%Z then 0%Z else 1%Z) 2 ∅ ∅.

Lemma ex_head_inj z1 z2 : is_zone z1 → is_zone z2 → ex_head z1 = ex_head z2 → z1 = z2.
Proof. intros [-> | [-> | ->]] [-> | [-> | ->]]; vm_compute; congruence. Defined.

(** Which head a list of the example belongs to. *)
Lemma ex_heads_inv h xs :
  heads ex_head ex_free !! h = Some xs → h ∈ [10; 11; 12]%positive ∧
  (h = 10 ∧ xs = [] ∨ h = 11 ∧ xs = [ex_mid] ∨ h = 12 ∧ xs = [ex_low])%positive.
Proof.
  unfold heads. intros H. change (ex_head 0) with 10%positive in H.
  change (ex_head 1) with 11%positive in H. change (ex_head 2) with 12%positive in H.
  destruct (decide (h = 10%positive)) as [->|N0]; [|destruct (decide (h = 11%positive)) as [->|N1];
    [|destruct (decide (h = 12%positive)) as [->|N2]]].
  - rewrite lookup_insert_eq in H. injection H as <-. split; [set_solver|by left].
  - rewrite lookup_insert_ne, lookup_insert_eq in H by done. injection H as <-. split; [set_solver|auto].
  - rewrite !lookup_insert_ne, lookup_singleton_eq in H by done. injection H as <-.
    split; [set_solver|auto].
  - rewrite !lookup_insert_ne, lookup_singleton_ne in H by done. done.
Qed.

Lemma ex_pg_wf : pg_wf 1000 ex_head ex_pg ex_free.
Proof.
  split.
  - split.
    + intros h xs [_ [[-> ->]|[[-> ->]|[-> ->]]]]%ex_heads_inv;
        (split; [apply (bool_decide_unpack _); vm_compute; done|vm_compute; repeat split]).
    + intros h1 h2 xs1 xs2 x [_ H1]%ex_heads_inv [_ H2]%ex_heads_inv Hne Hx Hx2.
      change ex_mid with 17384%positive in *. change ex_low with 1064%positive in *.
      destruct H1 as [[-> ->]|[[-> ->]|[-> ->]]], H2 as [[-> ->]|[[-> ->]|[-> ->]]];
        rewrite !elem_of_cons, elem_of_nil in Hx; rewrite !elem_of_cons, elem_of_nil in Hx2; naive_solver.
  - intros z p [-> | [-> | ->]] Hp; simpl in Hp.
    + set_solver.
    + apply list_elem_of_singleton in Hp as ->. reflexivity.
    + apply list_elem_of_singleton in Hp as ->. reflexivity.
  - intros z [-> | [-> | ->]]; reflexivity.
  - reflexivity.
Qed.

Lemma alloc_page_correct_witness :
  alloc_page ex_head ex_pg ALLOC_KERNEL ≠ None ∧
  let chain := zone_chain (allocation_zone ALLOC_KERNEL) in
  (Forall (λ z, ex_free z = []) chain ∧ alloc_page ex_head ex_pg ALLOC_KERNEL = Some (None, ex_pg)) ∨
  (∃ z p l st', first_nonempty ex_free chain z ∧ ex_free z = p :: l ∧
     alloc_page ex_head ex_pg ALLOC_KERNEL = Some (Some p, st') ∧
     pg_wf 1000 ex_head st' (set_list ex_free z l) ∧
     ¬ on_list (heads ex_head (set_list ex_free z l)) p ∧ is_Some (pg_lists st' !! p) ∧
     (0 <= page_to_phys 1000 p <= zone_maxaddr (allocation_zone ALLOC_KERNEL))%Z ∧
     contents st' = (if decide (Z.land ALLOC_KERNEL ALLOC_ZERO ≠ 0)%Z
                     then <[p := λ _, 0%Z]> (contents ex_pg) else contents ex_pg)).
Proof.
  split; [vm_compute; discriminate|].
  apply (alloc_page_correct 1000 ex_head ex_head_inj ex_pg ex_free ALLOC_KERNEL), ex_pg_wf.
Defined.

Lemma ex_used_off : ¬ on_list (heads ex_head ex_free) ex_used.
Proof.
  change ex_used with 1128%positive. intros (h & xs & [_ H]%ex_heads_inv & Hx).
  change ex_mid with 17384%positive in *. change ex_low with 1064%positive in *.
  destruct H as [[-> ->]|[[-> ->]|[-> ->]]]; rewrite !elem_of_cons, elem_of_nil in Hx; naive_solver.
Qed.

Lemma free_page_correct_witness :
  let z := page_zone 1000 ex_used in
  ∃ st', free_page 1000 ex_head ex_pg ex_used = Some st' ∧
    pg_wf 1000 ex_head st' (set_list ex_free z (ex_used :: ex_free z)) ∧
    page_flags st' !! ex_used = Some 0%Z ∧ contents st' = contents ex_pg ∧
    (∃ st'', alloc_loop ex_head 1 st' z = Some (Some ex_used, st'') ∧
             zone_count st'' z = zone_count ex_pg z).
Proof.
  apply (free_page_correct 1000 ex_head ex_head_inj ex_pg ex_free ex_used ex_pg_wf ex_used_off).
  vm_compute. by eexists.
Defined.
