(* ===== verification/EarlyAlloc.v ===== *)
(** * The early memory allocator ([mm/early_alloc.cc])

    A first-fit allocator over a free list of blocks.  The list nodes live
    inside the free memory; here the list is the sequence of the blocks'
    physical addresses and sizes, in list order ([LinkedList] shows that
    [push_front] and [remove] act on that sequence). *)

From S2P Require Import Prelude Align.
From S2P Require Import PageAlloc.

Section early_defs.
Local Open Scope Z_scope.

Abbreviation block := (Z * Z)%type.

Definition minalign : Z := 32.

(** The loop of [early_alloc_phys_range] over the free list: [before] are the
    blocks already passed. *)
Fixpoint early_scan (size align low high : Z) (before blocks : list (Z * Z))
    : option (Z * list (Z * Z)) :=
  match blocks with
  | [] => None
  | (baddr, bsize) :: rest =>
    let start := baddr in
    let end_ := start +ᵤ bsize -ᵤ 1 in
    let start := max start low in
    let end_ := min end_ high in
    let continue := early_scan size align low high (before ++ [(baddr, bsize)]) rest in
    if decide (end_ < start) then continue
    else
      let start_aligned := align_up start align in
      if decide (end_ < start_aligned ∨ start_aligned < start) then continue
      else if decide (end_ -ᵤ start_aligned +ᵤ 1 < size) then continue
      else
        let fl := if decide (start_aligned = start) then before ++ rest
                  else before ++ (baddr, start_aligned -ᵤ start) :: rest in
        let alloc_end := start_aligned +ᵤ size in
        let fl := if decide (alloc_end ≠ end_) then (alloc_end, end_ -ᵤ alloc_end) :: fl else fl in
        Some (start_aligned, fl)
  end.

(** Zero is the failure value. *)
Definition early_alloc_phys_range (free_list : list (Z * Z)) (size align low high : Z)
    : Z * list (Z * Z) :=
  let low := align_up (max low minalign) minalign in
  let high := align_down (high +ᵤ 1) minalign -ᵤ 1 in
  if decide (low = 0) then (0, free_list)
  else
    let size := align_up size minalign in
    if decide (size = 0) then (0, free_list)
    else
      let align := max align minalign in
      match early_scan size align low high [] free_list with
      | Some r => r
      | None => (0, free_list)
      end.

Definition early_free_phys (free_list : list (Z * Z)) (addr size : Z) : list (Z * Z) :=
  let tmp := align_up (max addr minalign) minalign -ᵤ addr in
  if decide (tmp >= size) then free_list
  else
    let addr := addr +ᵤ tmp in
    let size := align_down (size -ᵤ tmp) minalign in
    if decide (size = 0) then free_list else (addr, size) :: free_list.

Definition early_alloc_phys_zone (free_list : list (Z * Z)) (size align zonenr : Z)
    : Z * list (Z * Z) :=
  early_alloc_phys_range free_list size align (zone_minaddr zonenr) (zone_maxaddr zonenr).

Fixpoint early_alloc_loop (fuel : nat) (free_list : list (Z * Z)) (size align zonenr : Z)
    : option (Z * list (Z * Z)) :=
  match fuel with
  | O => None
  | S fuel =>
    let '(phys, fl) := early_alloc_phys_zone free_list size align zonenr in
    if decide (phys ≠ 0) then Some (phys, fl)
    else if zone_has_fallback zonenr then early_alloc_loop fuel fl size align (fallback_zone zonenr)
    else Some (0, fl)
  end.

Definition early_alloc_phys (free_list : list (Z * Z)) (size align : Z) : option (Z * list (Z * Z)) :=
  early_alloc_loop num_page_zones free_list size align (allocation_zone ALLOC_KERNEL).

(** The virtual variants add the offset of the direct mapping; a null pointer
    is zero. *)
Definition early_alloc_virt_zone (HHDM : Z) (free_list : list (Z * Z)) (size align zonenr : Z)
    : Z * list (Z * Z) :=
  let '(phys, fl) := early_alloc_phys_zone free_list size align zonenr in
  (if decide (phys ≠ 0) then phys_to_virt HHDM phys else 0, fl).

Definition early_alloc_virt (HHDM : Z) (free_list : list (Z * Z)) (size align : Z)
    : option (Z * list (Z * Z)) :=
  '(phys, fl) ← early_alloc_phys free_list size align;
  Some (if decide (phys ≠ 0) then phys_to_virt HHDM phys else 0, fl).

Definition early_free_virt (HHDM : Z) (free_list : list (Z * Z)) (ptr size : Z) : list (Z * Z) :=
  early_free_phys free_list (virt_to_phys HHDM ptr) size.

(** [early_free_everything_to_pgalloc]: the page addresses of one block that
    are handed to [free_page]. *)
Fixpoint page_run (n : nat) (addr : Z) : list Z :=
  match n with O => [] | S n => addr :: page_run n (addr +ᵤ PAGE_SIZE) end.

Definition block_pages (b : Z * Z) : list Z :=
  let '(addr, size) := b in
  let n := align_up addr PAGE_SIZE -ᵤ addr in
  if decide (n >= size) then []
  else page_run (Z.to_nat ((size -ᵤ n) / PAGE_SIZE)) (addr +ᵤ n).

Fixpoint free_pages (page_map : Z) (zone_head : Z → loc) (st : pgalloc) (addrs : list Z)
    : option pgalloc :=
  match addrs with
  | [] => Some st
  | a :: addrs => st ← free_page page_map zone_head st (phys_to_page page_map a);
      free_pages page_map zone_head st addrs
  end.

Definition early_free_everything_to_pgalloc (page_map : Z) (zone_head : Z → loc)
    (free_list : list (Z * Z)) (st : pgalloc) : option (list (Z * Z) * pgalloc) :=
  st ← free_pages page_map zone_head st (free_list ≫= block_pages);
  Some ([], st).

End early_defs.

Section early.
Local Open Scope Z_scope.

(** A block does not wrap around the end of the address space. *)
Definition block_ok (b : Z * Z) : Prop := 0 <= b.1 ∧ 0 < b.2 ∧ b.1 + b.2 <= 2 ^ 64.

Lemma minalign_pow2 : is_pow2 minalign.
Proof. by exists 5. Qed.

(** [size] bytes at the aligned address [v] fit into the part of the block
    inside the window. *)
Definition room_at (size align low high : Z) (b : Z * Z) (v : Z) : Prop :=
  v `mod` align = 0 ∧ Z.max b.1 low <= v ∧ v + size <= Z.min (b.1 + b.2) (high + 1).

(** The tests of the loop body pass over a block exactly when it has no room;
    otherwise the aligned start is the lowest place. *)
Lemma early_tests size align start end_ :
  is_pow2 align → 0 < size → 0 < start < 2 ^ 64 → 0 <= end_ < 2 ^ 64 →
  let sa := align_up start align in
  (end_ < start ∨ (end_ < sa ∨ sa < start) ∨ end_ -ᵤ sa +ᵤ 1 < size →
   ∀ v, v `mod` align = 0 → start <= v → v + size <= end_ + 1 → False) ∧
  (¬ end_ < start → ¬ (end_ < sa ∨ sa < start) → ¬ end_ -ᵤ sa +ᵤ 1 < size →
   sa `mod` align = 0 ∧ start <= sa ∧ sa + size <= end_ + 1 ∧ ∀ v, v `mod` align = 0 → start <= v → sa <= v).
Proof.
  intros Hp2 Hsz Hst He sa. assert (u64 start) as Hu by (unfold in_width; lia). split.
  - intros Hskip v Hv Hv1 Hv2. destruct (decide (sa < start)) as [Hlt|Hge].
    { apply (align_up_overflow start align v); (done || lia). }
    destruct (align_up_least start align Hu Hp2 Hge) as [(Hle & _ & Hl) _]. fold sa in Hle, Hl.
    specialize (Hl v Hv1 Hv). destruct Hskip as [?|[?|Hr]]; [lia|lia|].
    rewrite (sub64_small end_ sa) in Hr by lia. rewrite add64_small in Hr by lia. lia.
  - intros H1 H2 H3. destruct (align_up_least start align Hu Hp2) as [(Hle & Hal & Hl) _]; [tauto|].
    fold sa in Hle, Hal, Hl. rewrite (sub64_small end_ sa) in H3 by lia. rewrite add64_small in H3 by lia.
    split_and!; [done|done|lia|]. intros v Hv Hv1. by apply Hl.
Qed.

(** The free list after the block [(baddr, bsize)], between [pre] and [post],
    was used for [size] bytes at [r]. *)
Definition split_block (r size low high baddr bsize : Z) (pre post : list (Z * Z)) : list (Z * Z) :=
  let start := Z.max baddr low in
  let end_ := Z.min (baddr + bsize - 1) high in
  (if decide (r +ᵤ size ≠ end_) then [(r +ᵤ size, end_ -ᵤ (r +ᵤ size))] else []) ++
  pre ++ (if decide (r = start) then [] else [(baddr, r -ᵤ start)]) ++ post.

(** The scan takes the first block with room, at its lowest place. *)
Lemma early_scan_spec size align low high before blocks :
  is_pow2 align → 0 < size < 2 ^ 64 → 0 < low < 2 ^ 64 → 0 <= high < 2 ^ 64 → Forall block_ok blocks →
  match early_scan size align low high before blocks with
  | Some (r, fl) => ∃ pre b post, blocks = pre ++ b :: post ∧
      Forall (λ b', ∀ v, ¬ room_at size align low high b' v) pre ∧
      room_at size align low high b r ∧ (∀ v, room_at size align low high b v → r <= v) ∧
      fl = split_block r size low high b.1 b.2 (before ++ pre) post
  | None => Forall (λ b', ∀ v, ¬ room_at size align low high b' v) blocks
  end.
Proof.
  intros Hp2 Hsz Hlow Hhigh. revert before. induction blocks as [|[baddr bsize] rest IH]; intros before; [intros _; constructor|].
  intros [(Hb1 & Hb2 & Hb3) Hrest]%Forall_cons. cbn [early_scan fst snd] in *.
  assert (baddr +ᵤ bsize -ᵤ 1 = baddr + bsize - 1) as Hend by word_lia.
  rewrite Hend, max_spec, min_spec.
  destruct (early_tests size align (Z.max baddr low) (Z.min (baddr + bsize - 1) high)) as [Hskip Htake]; [done|lia..|].
  specialize (IH (before ++ [(baddr, bsize)]) Hrest).
  set (cont := early_scan size align low high (before ++ [(baddr, bsize)]) rest) in *.
  assert ((∀ v, ¬ room_at size align low high (baddr, bsize) v) →
    match cont with
    | Some (r, fl) => ∃ pre b post, (baddr, bsize) :: rest = pre ++ b :: post ∧
        Forall (λ b', ∀ v, ¬ room_at size align low high b' v) pre ∧
        room_at size align low high b r ∧ (∀ v, room_at size align low high b v → r <= v) ∧
        fl = split_block r size low high b.1 b.2 (before ++ pre) post
    | None => Forall (λ b', ∀ v, ¬ room_at size align low high b' v) ((baddr, bsize) :: rest)
    end) as Hcont.
  { intros Hno. destruct cont as [[r fl]|]; [|by constructor].
    destruct IH as (pre & b & post & -> & H1 & H2 & H3 & ->). exists ((baddr, bsize) :: pre), b, post.
    split_and!; [done|by constructor|done|done|by rewrite <- app_assoc]. }
  assert (∀ P : Prop, P → (P → ∀ v, v `mod` align = 0 → Z.max baddr low <= v →
            v + size <= Z.min (baddr + bsize - 1) high + 1 → False) →
          ∀ v, ¬ room_at size align low high (baddr, bsize) v) as Hnone.
  { intros P HP H v (Hv1 & Hv2 & Hv3). cbn [fst snd] in *. apply (H HP v); (done || lia). }
  case_decide as D1; [apply Hcont, (Hnone _ D1); tauto|]. case_decide as D2; [apply Hcont, (Hnone _ D2); tauto|].
  case_decide as D3; [apply Hcont, (Hnone _ D3); tauto|].
  destruct (Htake D1 D2 D3) as (Hal & Hle & Hfit & Hlow').
  exists [], (baddr, bsize), rest. unfold room_at. cbn [fst snd]. split_and!; [done|done|done|lia|lia| |].
  - intros v (Hv1 & Hv2 & _). by apply Hlow'.
  - unfold split_block. rewrite app_nil_r. repeat case_decide; simpl; done.
Qed.

(** *** Blocks that do not overlap *)

Definition apart (b1 b2 : Z * Z) : Prop := b1.1 + b1.2 <= b2.1 ∨ b2.1 + b2.2 <= b1.1.

Definition inside (b1 b2 : Z * Z) : Prop := b2.1 <= b1.1 ∧ b1.1 + b1.2 <= b2.1 + b2.2.

Fixpoint blocks_apart (l : list (Z * Z)) : Prop :=
  match l with
  | [] => True
  | b :: l => Forall (apart b) l ∧ blocks_apart l
  end.

#[global] Instance blocks_apart_perm : Proper ((≡ₚ) ==> iff) blocks_apart.
Proof.
  assert (∀ l l', l ≡ₚ l' → blocks_apart l → blocks_apart l') as H.
  { induction 1 as [|b l l' Hp IH|b b' l|l1 l2 l3 _ IH1 _ IH2]; simpl; [done| | |auto].
    - intros [H1 H2]. split; [by rewrite <- Hp|auto].
    - intros (H1 & H2 & H3). apply Forall_cons in H1 as [H1 H4]. split_and!; [constructor; [|done]|done|done].
      destruct H1; [by right|by left]. }
  intros l l' Hp. split; apply H; [done|by symmetry].
Qed.

Lemma blocks_apart_app l1 l2 :
  blocks_apart (l1 ++ l2) ↔ blocks_apart l1 ∧ blocks_apart l2 ∧ Forall (λ b, Forall (apart b) l2) l1.
Proof.
  induction l1 as [|b l1 IH]; simpl; [naive_solver|]. rewrite IH, Forall_app, Forall_cons. naive_solver.
Qed.

(** Pieces of a block in its place. *)
Lemma blocks_apart_pieces b pieces pre post :
  blocks_apart (pre ++ b :: post) → Forall (λ c, inside c b) pieces → blocks_apart pieces →
  blocks_apart (pieces ++ pre ++ post).
Proof.
  intros Hb Hin Hp. rewrite <- Permutation_middle in Hb. destruct Hb as [Hb Hrest].
  apply blocks_apart_app. split_and!; [done|done|]. eapply Forall_impl; [done|]. simpl. intros c [Hc1 Hc2].
  eapply Forall_impl; [done|]. simpl. intros b' [?|?]; [left; lia|right; lia].
Qed.

(** The window and the sizes [early_alloc_phys_range] works with. *)
Lemma early_low low : u64 low →
  let low' := align_up (max low minalign) minalign in
  (low' = 0 ∧ 2 ^ 64 - 32 < low) ∨ (low <= low' < 2 ^ 64 ∧ 32 <= low').
Proof.
  intros Hl low'. unfold low', minalign. rewrite max_spec.
  destruct (align_up_spec (Z.max low 32) 32) as [(_ & (H & _) & H')|[Ho ->]];
    [unfold in_width in *; lia|apply minalign_pow2|right; lia|left; lia].
Qed.

Lemma pow2_max_mod r align : is_pow2 align → r `mod` max align minalign = 0 → r `mod` align = 0.
Proof.
  rewrite max_spec. destruct (Z.max_spec align minalign) as [[Hlt ->]|[_ ->]]; [|done].
  intros (j & Hj & ->) Hr. change minalign with (2 ^ 5) in *. apply Z.pow_lt_mono_r_iff in Hlt; [|lia|lia].
  rewrite <- (pow2_divide_mod r j 5) by lia. rewrite Hr. apply Z.mod_0_l. lia.
Qed.

(** The last address of the window [early_alloc_phys_range] works with: [high]
    rounded down, but the end of the address space where that wraps around. *)
Definition window_end (high : Z) : Z :=
  if decide (high < 31) then 2 ^ 64 - 1 else (high + 1) / 32 * 32 - 1.

Lemma early_high high : u64 high → align_down (high +ᵤ 1) minalign -ᵤ 1 = window_end high ∧ 0 <= window_end high < 2 ^ 64.
Proof.
  intros Hh. unfold window_end, in_width in *. destruct (decide (high = 2 ^ 64 - 1)) as [->|Hne]; [by vm_compute|].
  rewrite add64_small by lia.
  destruct (align_down_spec (high + 1) minalign) as [(H1 & H2 & H3) H4];
    [unfold in_width; lia|apply minalign_pow2|]. unfold minalign in *.
  assert (align_down (high + 1) 32 = (high + 1) / 32 * 32) as ->.
  { pose proof (H3 ((high + 1) / 32 * 32) ltac:(Z.div_mod_to_equations; lia) ltac:(apply Z.mod_mul; lia)).
    Z.div_mod_to_equations. lia. }
  case_decide.
  - replace ((high + 1) / 32) with 0 by (Z.div_mod_to_equations; lia). by vm_compute.
  - assert (32 <= (high + 1) / 32 * 32 <= high + 1) by (Z.div_mod_to_equations; lia).
    rewrite sub64_small by lia. lia.
Qed.

Lemma early_size size : u64 size →
  let size' := align_up size minalign in
  (size' = 0 ∧ (size = 0 ∨ 2 ^ 64 - 32 < size)) ∨
  (0 < size <= 2 ^ 64 - 32 ∧ size <= size' < size + 32 ∧ size' < 2 ^ 64).
Proof.
  intros Hs size'. unfold size', minalign, in_width in *. destruct (decide (size = 0)) as [->|]; [left; by vm_compute; auto|].
  destruct (align_up_spec size 32) as [(H1 & (H2 & H3 & H4) & H5)|[H1 ->]];
    [unfold in_width; lia|apply minalign_pow2| |left; lia].
  right. split_and!; try lia. rewrite align_up_eq in * by apply minalign_pow2. revert H5. word_lia.
Qed.

(** What is left of the free list: where the allocation ends at the clipped end
    of the block, an entry that is no block; otherwise blocks apart from each
    other and from the allocation. *)
Lemma split_block_apart r size low high b pre post :
  block_ok b → 0 < size → 0 < low → 0 <= high < 2 ^ 64 →
  Z.max b.1 low <= r → r + size <= Z.min (b.1 + b.2) (high + 1) →
  let fl' := split_block r size low high b.1 b.2 pre post in
  if decide (r + size = Z.min (b.1 + b.2) (high + 1))
  then ∃ rest, fl' = (wrap64 (r + size), 2 ^ 64 - 1) :: rest
  else ∃ pieces, fl' ≡ₚ pieces ++ pre ++ post ∧ Forall block_ok pieces ∧
    Forall (λ c, inside c b) ((r, size) :: pieces) ∧ blocks_apart ((r, size) :: pieces).
Proof.
  destruct b as [b bs]. unfold block_ok, split_block. cbn [fst snd]. intros (Hb1 & Hb2 & Hb3) Hs Hl Hh H1 H2.
  case_decide as Hex.
  - rewrite decide_True by word_lia. eexists. simpl. f_equal. f_equal. word_lia.
  - rewrite add64_small by lia. exists
      ((if decide (r + size ≠ Z.min (b + bs - 1) high) then [(r + size, Z.min (b + bs - 1) high - (r + size))] else []) ++
       (if decide (r = Z.max b low) then [] else [(b, r - Z.max b low)])).
    split; [|split; [|split]].
    + rewrite !(sub64_small) by lia. repeat case_decide; simpl; rewrite ?app_nil_r; try done;
        by rewrite <- ?Permutation_middle.
    + repeat case_decide; simpl; repeat constructor; simpl; lia.
    + repeat case_decide; simpl; repeat constructor; simpl; lia.
    + unfold apart. repeat case_decide; simpl; repeat (constructor; simpl); lia.
Qed.


(** Defect: an allocation that uses a block exactly leaves a bogus entry on
    the free list, at the first byte behind the block and with size
    [2^64 - 1]: the test compares the exclusive end of the allocation with the
    inclusive end of the block. *)
Theorem early_alloc_exact_fit_corrupts a s :
  32 <= a → 0 < s → a `mod` 32 = 0 → s `mod` 32 = 0 → a + s < 2 ^ 64 →
  early_alloc_phys_range [(a, s)] s 32 0 UINT64_MAX = (a, [(a + s, 2 ^ 64 - 1)]).
Proof.
  intros Ha Hs Ham Hsm Has. unfold early_alloc_phys_range.
  change (align_up (max 0 minalign) minalign) with 32.
  change (align_down (UINT64_MAX +ᵤ 1) minalign -ᵤ 1) with UINT64_MAX.
  rewrite decide_False by done.
  unfold minalign. rewrite (align_up_fixed s 32) by (unfold in_width; done || lia || apply minalign_pow2).
  rewrite decide_False by lia. change (max 32 32) with 32. simpl.
  assert (a +ᵤ s -ᵤ 1 = a + s - 1) as -> by word_lia.
  rewrite max_spec, Z.max_l, min_spec, Z.min_l by (unfold UINT64_MAX; lia).
  rewrite (align_up_fixed a 32) by (unfold in_width; done || lia || apply minalign_pow2).
  rewrite decide_False by lia. rewrite decide_False by lia.
  rewrite decide_False by word_lia. rewrite (decide_True (P := a = a)) by done.
  rewrite decide_True by word_lia. simpl.
  assert (a +ᵤ s = a + s) as -> by word_lia.
  assert (a + s - 1 -ᵤ (a + s) = 2 ^ 64 - 1) as -> by word_lia. done.
Qed.

Lemma early_alloc_exact_fit_corrupts_witness :
  early_alloc_phys_range [(4096, 64)] 64 32 0 UINT64_MAX = (4096, [(4096 + 64, 2 ^ 64 - 1)]).
Proof. apply (early_alloc_exact_fit_corrupts 4096 64); lia || done. Defined.

(** [early_free_phys] puts on the free list at most one block, which lies
    inside the freed range, starts at a multiple of 32 and has a size that is
    a multiple of 32; nothing is pushed when no such block is left. *)
Theorem early_free_phys_correct fl addr size :
  0 <= addr → 0 <= size → addr + size < 2 ^ 64 - 32 →
  early_free_phys fl addr size = fl ∨
  ∃ a s, early_free_phys fl addr size = (a, s) :: fl ∧
    addr <= a ∧ a + s <= addr + size ∧ 0 < s ∧ a `mod` 32 = 0 ∧ s `mod` 32 = 0.
Proof.
  intros Ha Hs Has. unfold early_free_phys, minalign. rewrite max_spec.
  destruct (align_up_spec (Z.max addr 32) 32) as [(_ & (H1 & H2 & _) & H3)|[Ho _]];
    [unfold in_width; lia|apply minalign_pow2| |lia].
  set (a := align_up (Z.max addr 32) 32) in *. rewrite (sub64_small a addr) by lia.
  case_decide as D1; [by left|].
  destruct (align_down_spec (size - (a - addr)) 32) as [(D2 & D3 & _) D4];
    [unfold in_width; lia|apply minalign_pow2|].
  rewrite (sub64_small size) by lia. case_decide as D5; [by left|]. right.
  rewrite add64_small by lia.
  exists (addr + (a - addr)), (align_down (size - (a - addr)) 32).
  split_and!; [done|lia|lia|lia|by replace (addr + (a - addr)) with a by lia|done].
Qed.

Lemma early_free_phys_correct_witness :
  early_free_phys [] 100 1000 = [] ∨
  ∃ a s, early_free_phys [] 100 1000 = [(a, s)] ∧
    100 <= a ∧ a + s <= 100 + 1000 ∧ 0 < s ∧ a `mod` 32 = 0 ∧ s `mod` 32 = 0.
Proof. apply (early_free_phys_correct [] 100 1000); lia. Defined.


(** ** Handing the memory to the page allocator *)

Lemma page_run_spec n addr :
  addr `mod` PAGE_SIZE = 0 → 0 <= addr → addr + Z.of_nat n * PAGE_SIZE <= 2 ^ 64 - PAGE_SIZE →
  page_run n addr = (λ i, addr + Z.of_nat i * PAGE_SIZE) <$> seq 0 n.
Proof.
  unfold PAGE_SIZE. revert addr. induction n as [|n IH]; intros addr Hm H0 Hl; [done|].
  simpl page_run. rewrite add64_small by (unfold PAGE_SIZE in *; lia).
  rewrite IH; [| |unfold PAGE_SIZE; lia|unfold PAGE_SIZE; lia].
  - simpl seq. simpl fmap. f_equal; [lia|]. rewrite <- fmap_S_seq, <- list_fmap_compose.
    apply list_fmap_ext. intros i x _. unfold compose, PAGE_SIZE. lia.
  - unfold PAGE_SIZE. rewrite <- Z.add_mod_idemp_r, Z.mod_same, Z.add_0_r by lia. done.
Qed.

(** When the page allocator takes over, each block contributes exactly the
    whole pages inside it: consecutive page-aligned addresses from the first
    page boundary in the block on, as many as fit. *)
Theorem block_pages_correct addr size :
  0 <= addr → 0 < size → addr + size <= 2 ^ 64 - 8192 →
  let first := align_up addr PAGE_SIZE in
  block_pages (addr, size) =
    (λ i, first + Z.of_nat i * PAGE_SIZE) <$> seq 0 (Z.to_nat ((addr + size - first) / PAGE_SIZE)) ∧
  Forall (λ p, p `mod` PAGE_SIZE = 0 ∧ addr <= p ∧ p + PAGE_SIZE <= addr + size) (block_pages (addr, size)).
Proof.
  intros Ha Hs Has first. unfold block_pages.
  assert (is_pow2 PAGE_SIZE) as Hp by (by exists 12).
  destruct (align_up_spec addr PAGE_SIZE) as [(_ & (H1 & H2 & _) & H3)|[Ho _]];
    [unfold in_width; lia|done| |unfold PAGE_SIZE in Ho; lia].
  fold first in H1, H2, H3 |- *. rewrite (sub64_small first) by lia.
  case_decide as D1.
  - assert ((addr + size - first) / PAGE_SIZE <= 0).
    { unfold PAGE_SIZE. apply Z.div_le_upper_bound; lia. }
    replace (Z.to_nat _) with 0%nat by lia. by split; [|constructor].
  - rewrite (sub64_small size) by lia. rewrite add64_small by lia.
    replace (addr + (first - addr)) with first by lia.
    replace (size - (first - addr)) with (addr + size - first) by lia.
    assert (0 <= (addr + size - first) / PAGE_SIZE) as Hn0 by (apply Z.div_pos; unfold PAGE_SIZE; lia).
    pose proof (Z.mul_div_le (addr + size - first) PAGE_SIZE ltac:(unfold PAGE_SIZE; lia)) as Hn.
    rewrite page_run_spec; [|done|lia|rewrite Z2Nat.id by done; unfold PAGE_SIZE in *; lia].
    split; [done|]. apply Forall_fmap, Forall_forall. intros i [_ Hi]%elem_of_seq. simpl.
    assert (Z.of_nat i + 1 <= (addr + size - first) / PAGE_SIZE) as Hi' by lia.
    split_and!.
    + rewrite Z.mod_add by (unfold PAGE_SIZE; lia). done.
    + unfold PAGE_SIZE. lia.
    + unfold PAGE_SIZE in *. nia.
Qed.

Lemma block_pages_correct_witness :
  let first := align_up 5000 PAGE_SIZE in
  block_pages (5000, 20000) =
    (λ i, first + Z.of_nat i * PAGE_SIZE) <$> seq 0 (Z.to_nat ((5000 + 20000 - first) / PAGE_SIZE)) ∧
  Forall (λ p, p `mod` PAGE_SIZE = 0 ∧ 5000 <= p ∧ p + PAGE_SIZE <= 5000 + 20000) (block_pages (5000, 20000)).
Proof. apply (block_pages_correct 5000 20000); lia. Defined.

End early.
