(* ===== verification/BootMem.v ===== *)
(** * Memory during boot ([arch/x86/boot/setup.cc])

    Before the allocators run, the boot code takes memory from the top of the
    firmware's memory map, below a watermark that only goes down, and around the
    few regions it must not touch ("blockers").  [setup_free_memory] then gives
    what is left to the early allocator. *)

From S2P Require Import Prelude Align PageAlloc EarlyAlloc.

Section boot_defs.
Local Open Scope Z_scope.

Inductive memory_type :=
  | MEM_USABLE | MEM_ACPI_RECLAIM | MEM_BOOT_SERVICES | MEM_RUNTIME_SERVICES
  | MEM_PERSISTENT_RAM | MEM_SPECIAL_PURPOSE | MEM_ACPI_NVS | MEM_RESERVED.

#[export] Instance memory_type_eq_dec : EqDecision memory_type.
Proof. solve_decision. Defined.

Definition should_allocate (type : memory_type) : bool := bool_decide (type = MEM_USABLE).

(** [efi_memory_descriptor] or [multiboot_memmap_entry]. *)
Inductive memmap_entry :=
  | EfiDescriptor (type phys_start num_pages attribute : Z)
  | MultibootEntry (start size type : Z).

Definition EFI_MEMORY_NV : Z := 2 ^ 15.
Definition EFI_MEMORY_SP : Z := 2 ^ 18.

Definition memmap_entry_start (e : memmap_entry) : Z :=
  match e with EfiDescriptor _ phys_start _ _ => phys_start | MultibootEntry start _ _ => start end.

Definition memmap_entry_size (e : memmap_entry) : Z :=
  match e with EfiDescriptor _ _ num_pages _ => num_pages *ᵤ PAGE_SIZE | MultibootEntry _ size _ => size end.

Definition efi_type (type attribute : Z) : memory_type :=
  if decide (type = 1 ∨ type = 2) then MEM_USABLE                 (* loader code and data *)
  else if decide (type = 3 ∨ type = 4) then MEM_BOOT_SERVICES
  else if decide (type = 5 ∨ type = 6) then MEM_RUNTIME_SERVICES
  else if decide (type = 9) then MEM_ACPI_RECLAIM
  else if decide (type = 7) then                                  (* conventional memory *)
    (if decide (Z.land attribute EFI_MEMORY_SP ≠ 0) then MEM_SPECIAL_PURPOSE
     else if decide (Z.land attribute EFI_MEMORY_NV ≠ 0) then MEM_PERSISTENT_RAM
     else MEM_USABLE)
  else if decide (type = 10) then MEM_ACPI_NVS
  else if decide (type = 14) then MEM_PERSISTENT_RAM
  else MEM_RESERVED.

Definition multiboot_type (type : Z) : memory_type :=
  if decide (type = 1) then MEM_USABLE
  else if decide (type = 3) then MEM_ACPI_RECLAIM
  else if decide (type = 4) then MEM_ACPI_NVS
  else MEM_RESERVED.

Definition memmap_entry_type (e : memmap_entry) : memory_type :=
  match e with
  | EfiDescriptor type _ _ attribute => efi_type type attribute
  | MultibootEntry _ _ type => multiboot_type type
  end.

Definition max_blockers : nat := 3.
Definition min_alloc_addr : Z := 0x1000000.

Record boot := mkBoot {
  memmap : list memmap_entry;
  blockers : list (Z * Z);          (* start, end *)
  memmap_alloc_idx : nat;
  memmap_alloc_wmark : Z;
  use_early_alloc : bool;
  early_list : list (Z * Z);        (* the free list of the early allocator *)
}.

(** [None] is the panic. *)
Definition block_memory (b : boot) (start size : Z) : option boot :=
  if decide (max_blockers <= length (blockers b))%nat then None
  else Some (mkBoot (memmap b) (blockers b ++ [(start, start +ᵤ size)]) (memmap_alloc_idx b)
               (memmap_alloc_wmark b) (use_early_alloc b) (early_list b)).

Definition blocked (blocker : Z * Z) (x size : Z) : bool :=
  bool_decide (blocker.1 < x +ᵤ size) && bool_decide (blocker.2 > x).

Definition with_position (b : boot) (idx : nat) (wmark : Z) : boot :=
  mkBoot (memmap b) (blockers b) idx wmark (use_early_alloc b) (early_list b).

(** The [for (;;)] of [alloc_from_memmap]: an address, or [None] for the
    panic. *)
Fixpoint alloc_loop (fuel : nat) (b : boot) (size : Z) : option (option Z * boot) :=
  match fuel with
  | O => None
  | S fuel =>
    e ← memmap b !! memmap_alloc_idx b;
    let previous (b : boot) :=
      match memmap_alloc_idx b with
      | O => Some (None, b)
      | S idx => alloc_loop fuel (with_position b idx (memmap_alloc_wmark b)) size
      end in
    if negb (should_allocate (memmap_entry_type e)) then previous b
    else
      let estart := memmap_entry_start e in
      let eend := estart +ᵤ memmap_entry_size e in
      let wmark := if decide (memmap_alloc_wmark b > eend) then eend else memmap_alloc_wmark b in
      let b := with_position b (memmap_alloc_idx b) wmark in
      if decide (wmark < min_alloc_addr +ᵤ size) then Some (None, b)
      else
        let x := align_down (wmark -ᵤ size) size in
        if decide (x < estart) then previous b
        else
          match list_find (λ bl, blocked bl x size = true) (blockers b) with
          | Some (_, bl) => alloc_loop fuel (with_position b (memmap_alloc_idx b) bl.1) size
          | None => Some (Some x, with_position b (memmap_alloc_idx b) x)
          end
  end.

Definition alloc_from_memmap (b : boot) (size : Z) : option (option Z * boot) :=
  if use_early_alloc b then
    '(phys, fl) ← early_alloc_phys (early_list b) size size;
    Some (if decide (phys = 0) then None else Some phys,
          mkBoot (memmap b) (blockers b) (memmap_alloc_idx b) (memmap_alloc_wmark b) true fl)
  else alloc_loop (memmap_alloc_idx b + length (blockers b) + 1) b size.

(** In [setup_free_memory]: the blocker that ends highest below [eend], as the
    end and the start of it. *)
Definition top_blocker (bls : list (Z * Z)) (estart eend : Z) : Z * Z :=
  foldl (λ '(x, e) bl, if decide (bl.1 >= eend) then (x, e)
                       else if decide (bl.2 > x) then (bl.2, bl.1) else (x, e)) (estart, estart) bls.

Fixpoint free_entry (fuel : nat) (bls : list (Z * Z)) (estart eend : Z) (fl : list (Z * Z)) : option (list (Z * Z)) :=
  if decide (estart < eend) then
    match fuel with
    | O => None
    | S fuel =>
      let '(x, e) := top_blocker bls estart eend in
      let x := align_up x PAGE_SIZE in
      let eend := align_down eend PAGE_SIZE in
      free_entry fuel bls estart e (early_free_phys fl x (eend -ᵤ x))
    end
  else Some fl.

(** The body of the loop over the entries. *)
Definition free_memmap_entry (b : boot) (e : memmap_entry) (fl : list (Z * Z)) : option (list (Z * Z)) :=
  if negb (should_allocate (memmap_entry_type e)) then Some fl
  else
    let estart := memmap_entry_start e in
    let eend := estart +ᵤ memmap_entry_size e in
    let eend := if decide (memmap_alloc_wmark b < eend) then memmap_alloc_wmark b else eend in
    free_entry (length (blockers b) + 1) (blockers b) estart eend fl.

(** The loop over the entries, from [idx] down. *)
Fixpoint free_entries (b : boot) (idx : nat) (fl : list (Z * Z)) : option (list (Z * Z)) :=
  e ← memmap b !! idx;
  fl ← free_memmap_entry b e fl;
  match idx with
  | O => Some fl
  | S idx => free_entries b idx fl
  end.

Definition setup_free_memory (b : boot) : option boot :=
  fl ← free_entries b (memmap_alloc_idx b) (early_list b);
  Some (mkBoot (memmap b) (blockers b) 0 (memmap_alloc_wmark b) true fl).

End boot_defs.

(** ** Allocation *)

Section boot_alloc.
Local Open Scope Z_scope.
Implicit Types (b : boot).

Definition entry_end (e : memmap_entry) : Z := memmap_entry_start e + memmap_entry_size e.

(** The entries the kernel allocates from do not wrap around and are in the
    order of their addresses. *)
Record boot_ok b : Prop := {
  bo_idx : (memmap_alloc_idx b < length (memmap b))%nat;
  bo_entry e : e ∈ memmap b → should_allocate (memmap_entry_type e) = true →
    0 <= memmap_entry_start e ∧ 0 <= memmap_entry_size e ∧ entry_end e < 2 ^ 64;
  bo_sorted i j e e' : memmap b !! i = Some e → memmap b !! j = Some e' → (i < j)%nat →
    should_allocate (memmap_entry_type e) = true → should_allocate (memmap_entry_type e') = true →
    entry_end e <= memmap_entry_start e';
  bo_wmark : u64 (memmap_alloc_wmark b);
  bo_blocker bl : bl ∈ blockers b → u64 bl.1;
}.

(** The blocks that may be handed out: aligned, above the first 16 MiB, below
    the watermark, inside a usable entry and clear of the blockers. *)
Definition candidate b (size x : Z) : Prop :=
  x mod size = 0 ∧ min_alloc_addr <= x ∧ x + size <= memmap_alloc_wmark b ∧
  (∃ i e, memmap b !! i = Some e ∧ (i <= memmap_alloc_idx b)%nat ∧ should_allocate (memmap_entry_type e) = true ∧
     memmap_entry_start e <= x ∧ x + size <= entry_end e) ∧
  ∀ bl, bl ∈ blockers b → bl.2 <= x ∨ x + size <= bl.1.

(** The allocator's answer: the highest candidate, and a panic only when there
    is none. *)
Definition highest_candidate b (size : Z) (r : option Z) : Prop :=
  match r with
  | Some x => candidate b size x ∧ ∀ y, candidate b size y → y <= x
  | None => ∀ y, ¬ candidate b size y
  end.

(** Only the position moves, and it moves down. *)
Definition moves_down b b' : Prop :=
  memmap b' = memmap b ∧ blockers b' = blockers b ∧ use_early_alloc b' = use_early_alloc b ∧ early_list b' = early_list b ∧
  (memmap_alloc_idx b' ≤ memmap_alloc_idx b)%nat ∧ memmap_alloc_wmark b' <= memmap_alloc_wmark b.

#[export] Instance moves_down_preorder : PreOrder moves_down.
Proof.
  split; [by intros b|]. intros b1 b2 b3 (?&?&?&?&?&?) (?&?&?&?&?&?). unfold moves_down. split_and!; try congruence; lia.
Qed.

Lemma candidate_mono b b' size x : moves_down b b' → candidate b' size x → candidate b size x.
Proof.
  intros (Hm & Hb & _ & _ & Hi & Hw) (H1 & H2 & H3 & (i & e & H4 & H5 & H6 & H8 & H9) & H7). rewrite Hm in H4. rewrite Hb in H7.
  split_and!; try done; [lia|]. exists i, e. split_and!; try done; lia.
Qed.

Lemma highest_candidate_moves b b' size r :
  moves_down b b' → (∀ y, candidate b size y → candidate b' size y) → highest_candidate b' size r → highest_candidate b size r.
Proof.
  intros Hm Hc. destruct r as [x|]; simpl; [|naive_solver]. intros [H1 H2]. split; [by eapply candidate_mono|naive_solver].
Qed.

(** The blockers that begin below the watermark. *)
Definition below_mark (w : Z) (bls : list (Z * Z)) : nat := length (filter (λ bl, bl.1 < w) bls).

Lemma below_mark_le w w' bls : w' <= w → (below_mark w' bls ≤ below_mark w bls)%nat.
Proof.
  intros Hw. unfold below_mark. induction bls as [|bl bls IH]; [done|]. rewrite !filter_cons. repeat case_decide; simpl; lia.
Qed.

Lemma below_mark_lt w bl bls : bl ∈ bls → bl.1 < w → (below_mark bl.1 bls < below_mark w bls)%nat.
Proof.
  intros Hin Hw. apply list_elem_of_split in Hin as (l1 & l2 & ->). unfold below_mark. rewrite !filter_app, !filter_cons, !length_app.
  rewrite (decide_False (P := bl.1 < bl.1)), (decide_True (P := bl.1 < w)) by lia. simpl.
  pose proof (below_mark_le w bl.1 l1 ltac:(lia)). pose proof (below_mark_le w bl.1 l2 ltac:(lia)). unfold below_mark in *. lia.
Qed.

Lemma below_mark_length w bls : (below_mark w bls ≤ length bls)%nat.
Proof. apply length_filter. Qed.

Lemma with_position_ok b idx w :
  boot_ok b → (idx ≤ memmap_alloc_idx b)%nat → u64 w → w <= memmap_alloc_wmark b →
  boot_ok (with_position b idx w) ∧ moves_down b (with_position b idx w).
Proof. intros [H1 H2 H3 H4 H5] Hi Hu Hw. split; [split; simpl; try done; lia|]. by unfold moves_down. Qed.

Lemma blocked_spec bl x size : 0 <= x + size < 2 ^ 64 → blocked bl x size = true ↔ bl.1 < x + size ∧ x < bl.2.
Proof. intros H. unfold blocked. rewrite add64_small by done. rewrite andb_true_iff, !bool_decide_eq_true. lia. Qed.

(** What a call of the loop returns. *)
Definition alloc_answer b (size : Z) (out : option (option Z * boot)) : Prop :=
  ∃ r b', out = Some (r, b') ∧ boot_ok b' ∧ moves_down b b' ∧ highest_candidate b size r ∧
    ∀ x, r = Some x → memmap_alloc_wmark b' = x.

(** Going on from a lower position loses nothing when it keeps the
    candidates. *)
Lemma alloc_answer_moves b b' size out :
  moves_down b b' → (∀ y, candidate b size y → candidate b' size y) → alloc_answer b' size out → alloc_answer b size out.
Proof.
  intros Hm Hc (r & b'' & -> & Hok & Hm' & Hh & Hw). exists r, b''. split_and!; try done; [by etrans|].
  by eapply highest_candidate_moves.
Qed.

(** Taking the watermark down to the end of the current entry. *)
Lemma clamp_candidates b size e :
  boot_ok b → memmap b !! memmap_alloc_idx b = Some e → should_allocate (memmap_entry_type e) = true →
  ∀ y, candidate b size y → y + size <= entry_end e.
Proof.
  intros Hok He Hu y (_ & _ & _ & (i & e' & Hi & Hle & Hu' & H1 & H2) & _).
  destruct (decide (i = memmap_alloc_idx b)) as [->|Hne]; [by simplify_eq|].
  pose proof (bo_sorted _ Hok _ _ _ _ Hi He ltac:(lia) Hu' Hu) as Hs.
  destruct (bo_entry _ Hok e (list_elem_of_lookup_2 _ _ _ He) Hu). unfold entry_end in *. lia.
Qed.

(** The current entry holds no candidate: the previous one is next. *)
Lemma skip_entry b size idx w e :
  memmap_alloc_idx b = S idx → memmap b !! S idx = Some e → w = memmap_alloc_wmark b →
  (∀ y, candidate b size y → should_allocate (memmap_entry_type e) = true → y < memmap_entry_start e) →
  ∀ y, candidate b size y → candidate (with_position b idx w) size y.
Proof.
  intros Ei He -> Hno y Hc. pose proof (Hno y Hc) as Hny. destruct Hc as (H1 & H2 & H3 & (i & e' & H4 & H5 & H6 & H7) & H8).
  split_and!; try done. exists i, e'. split_and!; try done; try apply H7. simpl.
  destruct (decide (i = S idx)) as [->|]; [|lia]. simplify_eq. specialize (Hny H6). lia.
Qed.

Lemma last_entry b size e :
  memmap_alloc_idx b = O → memmap b !! O = Some e →
  (∀ y, candidate b size y → should_allocate (memmap_entry_type e) = true → y < memmap_entry_start e) →
  ∀ y, ¬ candidate b size y.
Proof.
  intros Ei He Hno y Hc. pose proof (Hno y Hc) as Hny. destruct Hc as (H1 & H2 & H3 & (i & e' & H4 & H5 & H6 & H7) & H8).
  assert (i = O) as -> by lia. simplify_eq. specialize (Hny H6). lia.
Qed.

(** [previous] of [alloc_loop]: the answer when the current entry is of no
    use. *)
Lemma previous_answer fuel b size e :
  boot_ok b → memmap b !! memmap_alloc_idx b = Some e →
  (∀ y, candidate b size y → should_allocate (memmap_entry_type e) = true → y < memmap_entry_start e) →
  (∀ idx, memmap_alloc_idx b = S idx →
    boot_ok (with_position b idx (memmap_alloc_wmark b)) →
    alloc_answer (with_position b idx (memmap_alloc_wmark b)) size (alloc_loop fuel (with_position b idx (memmap_alloc_wmark b)) size)) →
  alloc_answer b size
    match memmap_alloc_idx b with
    | O => Some (None, b)
    | S idx => alloc_loop fuel (with_position b idx (memmap_alloc_wmark b)) size
    end.
Proof.
  intros Hok He Hno IH. destruct (memmap_alloc_idx b) as [|idx] eqn:Ei.
  - exists None, b. split_and!; try done. exact (last_entry b size e Ei He Hno).
  - destruct (with_position_ok b idx (memmap_alloc_wmark b) Hok ltac:(lia) (bo_wmark _ Hok) ltac:(lia)) as [Hok' Hm].
    eapply alloc_answer_moves; [done| |by apply IH]. by eapply skip_entry.
Qed.

(** The address the loop tries: the highest aligned one below the watermark. *)
Lemma try_address w size :
  is_pow2 size → size <= min_alloc_addr → min_alloc_addr + size <= w < 2 ^ 64 →
  let x := align_down (w -ᵤ size) size in
  x mod size = 0 ∧ min_alloc_addr <= x ∧ x + size <= w ∧ ∀ y, y mod size = 0 → y + size <= w → y <= x.
Proof.
  intros Hp Hmin Hw x. pose proof (is_pow2_range _ Hp). assert (0 < min_alloc_addr) by done. subst x. rewrite sub64_small by lia.
  destruct (align_down_spec (w - size) size) as [(H1 & H2 & H3) _]; [split; lia|done|].
  split_and!; [done| |lia|intros y Hy Hle; apply H3; [lia|done]].
  apply H3; [lia|]. apply Z.mod_divide; [lia|]. apply pow2_divide; [done|by exists 24|done].
Qed.

Lemma memmap_loop_spec size : is_pow2 size → size <= min_alloc_addr → ∀ fuel b,
  boot_ok b → (memmap_alloc_idx b + below_mark (memmap_alloc_wmark b) (blockers b) < fuel)%nat →
  alloc_answer b size (alloc_loop fuel b size).
Proof.
  intros Hp Hmin fuel. pose proof (is_pow2_range _ Hp) as Hsz. assert (min_alloc_addr < 2 ^ 62) as Hma by done.
  induction fuel as [|fuel IH]; intros b Hok Hfuel; [lia|]. cbn [alloc_loop].
  destruct (lookup_lt_is_Some_2 _ _ (bo_idx _ Hok)) as [e He]. rewrite He. cbn [mbind option_bind].
  destruct (should_allocate (memmap_entry_type e)) eqn:Eu; cbn [negb].
  2:{ eapply previous_answer; [done..|by rewrite Eu|]. intros idx Ei Hok'. apply IH; [done|]. simpl. lia. }
  destruct (bo_entry _ Hok e (list_elem_of_lookup_2 _ _ _ He) Eu) as (Hs1 & Hs2 & Hs3). unfold entry_end in Hs3.
  rewrite (add64_small (memmap_entry_start e)) by lia. fold (entry_end e) in *.
  set (w := if decide (memmap_alloc_wmark b > entry_end e) then entry_end e else memmap_alloc_wmark b).
  pose proof (bo_wmark _ Hok) as [Hw0 Hw1].
  assert (0 <= w < 2 ^ 64 ∧ w <= memmap_alloc_wmark b ∧ w <= entry_end e) as (Hu & Hw & Hwe) by (unfold w; case_decide; unfold entry_end in *; lia).
  destruct (with_position_ok b (memmap_alloc_idx b) w Hok ltac:(lia) Hu Hw) as [Hok1 Hm1].
  set (b1 := with_position b (memmap_alloc_idx b) w) in *.
  eapply (alloc_answer_moves b b1); [done|..].
  { intros y Hc. pose proof (clamp_candidates _ _ _ Hok He Eu _ Hc). destruct Hc as (H1 & H2 & H3 & H4).
    split_and!; try done; try apply H4. simpl. unfold w. case_decide; lia. }
  assert (below_mark w (blockers b1) <= below_mark (memmap_alloc_wmark b) (blockers b))%nat as Hbm by by apply below_mark_le.
  rewrite (add64_small min_alloc_addr size) by (unfold min_alloc_addr in *; lia).
  destruct (decide (w < min_alloc_addr + size)) as [Hlow|Hge].
  { exists None, b1. split_and!; try done. intros y (_ & H2 & H3 & _). simpl in H3. lia. }
  destruct (try_address w size Hp Hmin ltac:(lia)) as (Hx1 & Hx2 & Hx3 & Hx4).
  set (x := align_down (w -ᵤ size) size) in *.
  destruct (decide (x < memmap_entry_start e)) as [Hbelow|Hin].
  { apply (previous_answer fuel b1 size e); [done..| |].
    - intros y (H1 & _ & H3 & _) _. specialize (Hx4 y H1 H3). lia.
    - intros idx Ei Hok'. apply IH; [done|]. simpl in *. lia. }
  destruct (list_find (λ bl, blocked bl x size = true) (blockers b1)) as [[i bl]|] eqn:Ef.
  - apply list_find_Some in Ef as (Hi%list_elem_of_lookup_2 & Hb & _). apply blocked_spec in Hb as [Hb1 Hb2]; [|lia].
    destruct (with_position_ok b1 (memmap_alloc_idx b1) bl.1 Hok1 ltac:(lia) (bo_blocker _ Hok1 _ Hi) ltac:(simpl; lia)) as [Hok2 Hm2].
    eapply alloc_answer_moves; [done| |apply IH; [done|]].
    + intros y (H1 & H2 & H3 & H4 & H5). split_and!; try done. simpl.
      specialize (Hx4 y H1 H3). destruct (H5 bl Hi); lia.
    + simpl. pose proof (below_mark_lt w bl (blockers b1) Hi ltac:(lia)). simpl in *. lia.
  - apply list_find_None in Ef. rewrite Forall_forall in Ef.
    destruct (with_position_ok b1 (memmap_alloc_idx b1) x Hok1 ltac:(lia) ltac:(split; lia) ltac:(simpl; lia)) as [Hok2 Hm2].
    eexists _, _. split; [done|]. split_and!; [done..| |by intros ? [= ->]]. split.
    + split_and!; try done; [exists (memmap_alloc_idx b), e; split_and!; try done; simpl; lia|].
      intros bl Hi. specialize (Ef bl Hi). rewrite blocked_spec in Ef by lia. lia.
    + intros y (H1 & _ & H3 & _). by apply Hx4.
Qed.

(** A sequence of allocations; the boot stops at the first that panics. *)
Fixpoint allocs_from_memmap (b : boot) (sizes : list Z) : option (list Z * boot) :=
  match sizes with
  | [] => Some ([], b)
  | size :: sizes =>
    '(r, b) ← alloc_from_memmap b size;
    match r with
    | None => Some ([], b)
    | Some x => '(xs, b) ← allocs_from_memmap b sizes; Some (x :: xs, b)
    end
  end.

Lemma alloc_from_memmap_spec b size :
  boot_ok b → use_early_alloc b = false → is_pow2 size → size <= min_alloc_addr →
  alloc_answer b size (alloc_from_memmap b size).
Proof.
  intros Hok Hea Hp Hs. unfold alloc_from_memmap. rewrite Hea. apply memmap_loop_spec; try done.
  pose proof (below_mark_length (memmap_alloc_wmark b) (blockers b)). lia.
Qed.

Lemma allocs_from_memmap_spec sizes : ∀ b,
  boot_ok b → use_early_alloc b = false → Forall (λ size, is_pow2 size ∧ size <= min_alloc_addr) sizes →
  ∃ xs b', allocs_from_memmap b sizes = Some (xs, b') ∧ boot_ok b' ∧ moves_down b b' ∧ (length xs ≤ length sizes)%nat ∧
    (∀ i x size, xs !! i = Some x → sizes !! i = Some size → candidate b size x ∧ memmap_alloc_wmark b' <= x) ∧
    (∀ i j x y size, xs !! i = Some x → xs !! j = Some y → sizes !! j = Some size → (i < j)%nat → y + size <= x) ∧
    (∀ size, sizes !! length xs = Some size → ∀ y, ¬ candidate b' size y).
Proof.
  induction sizes as [|size sizes IH]; intros b Hok Hea Hall; [by exists [], b|].
  apply Forall_cons in Hall as [[Hp Hs] Hall].
  destruct (alloc_from_memmap_spec b size Hok Hea Hp Hs) as (r & b1 & E & Hok1 & Hm1 & Hh & Hw). cbn [allocs_from_memmap]. rewrite E. cbn [mbind option_bind].
  destruct r as [x|].
  2:{ exists [], b1. split_and!; try done; [simpl; lia|]. intros ? [= <-] y Hc. by eapply Hh, candidate_mono. }
  specialize (Hw x eq_refl). destruct Hh as [Hx _].
  destruct (IH b1 Hok1) as (xs & b' & E' & Hok' & Hm' & Hlen & Hxs & Hdis & Hstop); [by destruct Hm1 as (_&_&->&_)|done|].
  rewrite E'. cbn [mbind option_bind]. exists (x :: xs), b'. split_and!; try done; [by etrans|simpl; lia|..].
  - intros [|i] y sz; simpl; [intros [= <-] [= <-]|]; [split; [done|destruct Hm' as (_&_&_&_&_&?); lia]|].
    intros H1 H2. destruct (Hxs i y sz H1 H2) as [Hc ?]. split; [by eapply candidate_mono|done].
  - intros [|i] [|j] x' y sz; simpl; [lia| |lia|].
    + intros [= <-] H2 H3 _. destruct (Hxs j y sz H2 H3) as [(_ & _ & Hc & _) _]. lia.
    + intros H1 H2 H3 Hij. eapply Hdis; [done..|lia].
Qed.

End boot_alloc.

(** ** What is left, given to the early allocator *)

Section boot_free.
Local Open Scope Z_scope.
Implicit Types (bl : Z * Z) (bls fl : list (Z * Z)).

Definition page_up (a : Z) : Z := align_up a PAGE_SIZE.
Definition page_down (a : Z) : Z := align_down a PAGE_SIZE.

(** The pages a blocker touches. *)
Definition in_hull bl (a : Z) : Prop := page_down bl.1 <= a < page_up bl.2.

(** An address on the free list, and a free list in the order of its
    addresses, without overlaps, from [lo] up. *)
Definition on_list fl (a : Z) : Prop := ∃ b, b ∈ fl ∧ b.1 <= a < b.1 + b.2.
Fixpoint ascending (lo : Z) fl : Prop :=
  match fl with
  | [] => True
  | (addr, size) :: fl => lo <= addr ∧ 0 < size ∧ ascending (addr + size) fl
  end.

(** Where a part of memory can be cut: both ends fit in 64 bits after
    rounding. *)
Definition cut_ok (a : Z) : Prop := 0 <= a <= 2 ^ 64 - 8192.

(** At least one page boundary lies between the end of a piece and the start
    of the next one. *)
Definition apart (lo hi : Z) : Prop := page_up lo <= page_down hi.

(** The pieces of an entry: its blockers lie outside it, or inside and apart
    from its ends and from each other. *)
Record entry_pieces bls (estart eend : Z) : Prop := {
  ep_start : cut_ok estart;
  ep_end : cut_ok eend;
  ep_apart : apart estart eend;
  ep_blockers bl : bl ∈ bls → cut_ok bl.1 ∧ cut_ok bl.2 ∧
    (bl.2 <= estart ∨ eend <= bl.1 ∨ (apart estart bl.1 ∧ bl.1 < bl.2 ∧ apart bl.2 eend));
  ep_disjoint bl bl' : bl ∈ bls → bl' ∈ bls → bl = bl' ∨ apart bl.2 bl'.1 ∨ apart bl'.2 bl.1;
}.

Lemma page_pow2 : is_pow2 PAGE_SIZE.
Proof. by exists 12. Qed.

Lemma page_down_bounds a : cut_ok a → 0 <= page_down a <= a ∧ page_down a mod 4096 = 0.
Proof.
  intros [H1 H2]. destruct (align_down_spec a PAGE_SIZE) as [(H3 & H4 & _) H5]; [split; lia|apply page_pow2|]. unfold page_down. done.
Qed.

Lemma page_up_bounds a : cut_ok a → a <= page_up a < a + 4096 ∧ page_up a mod 4096 = 0.
Proof.
  intros [H1 H2]. unfold page_up. rewrite align_up_eq by apply page_pow2. change (PAGE_SIZE - 1) with 4095. change PAGE_SIZE with 4096.
  rewrite add64_small by lia. pose proof (Z.mod_pos_bound (a + 4095) 4096 ltac:(lia)). split; [lia|].
  rewrite Zminus_mod_idemp_r, Z.sub_diag. done.
Qed.

Lemma page_up_mono a b : cut_ok a → cut_ok b → a <= b → page_up a <= page_up b.
Proof.
  intros Ha Hb Hab. pose proof (page_up_bounds _ Ha). pose proof (page_up_bounds _ Hb). Z.div_mod_to_equations; lia.
Qed.

Lemma page_down_mono a b : cut_ok a → cut_ok b → a <= b → page_down a <= page_down b.
Proof.
  intros [Ha1 Ha2] [Hb1 Hb2] Hab. unfold page_down. rewrite !align_down_eq by (apply page_pow2 || (split; lia)).
  change PAGE_SIZE with 4096. Z.div_mod_to_equations; lia.
Qed.

(** What [setup_free_memory] looks for: the blocker that begins below [eend]
    and ends highest, if one ends above [x]. *)
Lemma top_blocker_fold bls eend : ∀ x e,
  let r := foldl (λ '(x, e) bl, if decide (bl.1 >= eend) then (x, e)
                       else if decide (bl.2 > x) then (bl.2, bl.1) else (x, e)) (x, e) bls in
  (r = (x, e) ∨ ∃ bl, bl ∈ bls ∧ r = (bl.2, bl.1) ∧ bl.1 < eend ∧ x < bl.2) ∧
  x <= r.1 ∧ ∀ bl, bl ∈ bls → bl.1 < eend → bl.2 <= r.1.
Proof.
  induction bls as [|bl bls IH]; intros x e; cbn [foldl].
  { split_and!; [by left|simpl; lia|]. intros bl Hin. by apply not_elem_of_nil in Hin. }
  case_decide as D1; [|case_decide as D2].
  1,3: destruct (IH x e) as (H1 & H2 & H3); split_and!; [destruct H1 as [?|(bl' & ? & ?)]; [by left|right; exists bl'; set_solver]|done|];
       intros bl' [->|Hin]%elem_of_cons; [lia|by apply H3].
  destruct (IH bl.2 bl.1) as (H1 & H2 & H3). split_and!; [|lia|].
  - right. destruct H1 as [H1|(bl' & Hin & H1 & ? & ?)]; [exists bl; split_and!; [set_solver|done|lia|lia]|].
    exists bl'. split_and!; [set_solver|done|lia|lia].
  - intros bl' [->|Hin]%elem_of_cons; [done|by apply H3].
Qed.

Lemma top_blocker_spec bls estart eend :
  let r := top_blocker bls estart eend in
  (r = (estart, estart) ∨ ∃ bl, bl ∈ bls ∧ r = (bl.2, bl.1) ∧ bl.1 < eend ∧ estart < bl.2) ∧
  ∀ bl, bl ∈ bls → bl.1 < eend → bl.2 <= r.1.
Proof. destruct (top_blocker_fold bls eend estart estart) as (H1 & _ & H2). done. Qed.

Lemma ascending_mono lo lo' fl : lo' <= lo → ascending lo fl → ascending lo' fl.
Proof. destruct fl as [|[a s] fl]; [done|]. simpl. intros ? (? & ? & ?). split_and!; [lia|done|done]. Qed.

Lemma on_list_cons a0 s0 fl a : on_list ((a0, s0) :: fl) a ↔ a0 <= a < a0 + s0 ∨ on_list fl a.
Proof.
  split.
  - intros (b & [->|Hin]%elem_of_cons & Hb); [by left|right; by exists b].
  - intros [Hb|(b & Hin & Hb)]; [exists (a0, s0)|exists b]; split; try done; set_solver.
Qed.

Lemma early_free_phys_pages fl lo hi :
  0 <= lo < hi → hi <= 2 ^ 64 - 4096 → lo mod 4096 = 0 → hi mod 4096 = 0 →
  early_free_phys fl lo (hi -ᵤ lo) = (Z.max lo 32, hi - Z.max lo 32) :: fl.
Proof.
  intros Hlo Hhi Ml Mh. unfold early_free_phys, minalign. rewrite max_spec, (sub64_small hi lo) by lia.
  set (s := Z.max lo 32). assert (is_pow2 32) as H32 by by exists 5.
  assert (s mod 32 = 0 ∧ lo <= s < hi) as [Ms Hs].
  { unfold s. destruct (Z.max_spec lo 32) as [[? ->]|[? ->]]; split; try done; Z.div_mod_to_equations; lia. }
  rewrite align_up_fixed by (done || (split; lia)). rewrite (sub64_small s lo), decide_False by lia.
  rewrite (sub64_small (hi - lo) (s - lo)) by lia. rewrite align_down_eq by (done || (split; lia)).
  replace ((hi - lo - (s - lo)) mod 32) with 0 by (Z.div_mod_to_equations; lia).
  rewrite decide_False by lia. rewrite add64_small by lia. f_equal; f_equal; lia.
Qed.

(** Freeing whole pages puts them on the list, the first 32 bytes of memory
    apart. *)
Lemma early_free_pages fl lo hi : ascending hi fl →
  0 <= lo <= hi → hi <= 2 ^ 64 - 4096 → lo mod 4096 = 0 → hi mod 4096 = 0 →
  ascending lo (early_free_phys fl lo (hi -ᵤ lo)) ∧
  ∀ a, on_list (early_free_phys fl lo (hi -ᵤ lo)) a ↔ (32 <= a ∧ lo <= a < hi) ∨ on_list fl a.
Proof.
  intros Ha Hlo Hhi Ml Mh. destruct (decide (lo = hi)) as [<-|Hne].
  - assert (early_free_phys fl lo (lo -ᵤ lo) = fl) as ->.
    { unfold early_free_phys. rewrite (sub64_small lo lo), decide_True; [done| |lia]. unfold sub64, wrap.
      pose proof (Z.mod_pos_bound (align_up (max lo minalign) minalign - lo) (2 ^ 64) ltac:(lia)). lia. }
    split; [done|]. intros a. split; [by right|]. intros [?|?]; [lia|done].
  - rewrite early_free_phys_pages by (done || lia). split.
    + simpl. split_and!; [lia|Z.div_mod_to_equations; lia|by replace (Z.max lo 32 + (hi - Z.max lo 32)) with hi by lia].
    + intros a. rewrite on_list_cons. apply or_iff_compat_r. lia.
Qed.

(** One entry: the part of its pages that no blocker touches. *)
Definition entry_free bls (estart eend a : Z) : Prop :=
  32 <= a ∧ page_up estart <= a < page_down eend ∧ ∀ bl, bl ∈ bls → ¬ in_hull bl a.

(** The entry cut at the blocker that ends highest. *)
Lemma entry_pieces_cut bls estart eend bl :
  entry_pieces bls estart eend → bl ∈ bls → bl.1 < eend → estart < bl.2 →
  (∀ bl', bl' ∈ bls → bl'.1 < eend → bl'.2 <= bl.2) →
  apart estart bl.1 ∧ bl.1 < bl.2 ∧ apart bl.2 eend ∧ entry_pieces bls estart bl.1.
Proof.
  intros Hep Hin Hlt Hgt Htop. destruct (ep_blockers _ _ _ Hep bl Hin) as (Hc1 & Hc2 & [?|[?|(Ha1 & Hb & Ha2)]]); [lia..|].
  split_and!; try done. split; try apply Hep; try done. intros bl' Hin'.
  destruct (ep_blockers _ _ _ Hep bl' Hin') as (Hd1 & Hd2 & Hcase). split_and!; try done.
  destruct (decide (bl = bl')) as [<-|Hne]; [lia|]. destruct Hcase as [?|[?|(Hb1 & Hb2 & Hb3)]]; [by left|lia|].
  destruct (ep_disjoint _ _ _ Hep bl bl' Hin Hin') as [?|[H|H]]; [done|..].
  - pose proof (page_up_bounds _ Hc2). pose proof (page_down_bounds _ Hd1). pose proof (page_down_bounds _ Hc1). right; left.
    unfold apart in H. lia.
  - right; right. done.
Qed.

(** Pages above the end of every blocker that begins below [eend]. *)
Lemma above_hulls bls estart eend x a :
  entry_pieces bls estart eend → cut_ok x → (∀ bl, bl ∈ bls → bl.1 < eend → bl.2 <= x) →
  page_up x <= a < page_down eend → ∀ bl, bl ∈ bls → ¬ in_hull bl a.
Proof.
  intros Hep Hx Htop Ha bl Hin [Hh1 Hh2]. destruct (ep_blockers _ _ _ Hep bl Hin) as (Hc1 & Hc2 & _). pose proof (ep_end _ _ _ Hep) as Hce.
  destruct (decide (bl.1 < eend)) as [Hlt|Hge].
  - pose proof (page_up_mono _ _ Hc2 Hx (Htop bl Hin Hlt)). lia.
  - pose proof (page_down_mono _ _ Hce Hc1 ltac:(lia)). lia.
Qed.

Lemma free_entry_done fuel bls x fl : free_entry fuel bls x x fl = Some fl.
Proof. destruct fuel; cbn [free_entry]; by rewrite decide_False by lia. Qed.

(** An iteration that found the blocker [bl] splits what is to be freed. *)
Lemma entry_free_split bls estart eend bl a :
  entry_pieces bls estart eend → bl ∈ bls → bl.1 < eend → estart < bl.2 →
  (∀ bl', bl' ∈ bls → bl'.1 < eend → bl'.2 <= bl.2) →
  (32 <= a ∧ page_up bl.2 <= a < page_down eend) ∨ (estart < bl.1 ∧ entry_free bls estart bl.1 a) ↔ entry_free bls estart eend a.
Proof.
  intros Hep Hin Hlt Hgt Htop. destruct (entry_pieces_cut _ _ _ _ Hep Hin Hlt Hgt Htop) as (Ha1 & Hb & Ha2 & _).
  pose proof (ep_start _ _ _ Hep) as Hcs. pose proof (ep_end _ _ _ Hep) as Hce. destruct (ep_blockers _ _ _ Hep bl Hin) as (Hc1 & Hc2 & _).
  pose proof (page_up_mono _ _ Hcs Hc2 ltac:(lia)). pose proof (page_down_mono _ _ Hc1 Hce ltac:(lia)).
  pose proof (page_up_bounds _ Hcs). pose proof (page_down_bounds _ Hc1). split.
  - intros [[J1 J2]|[_ (J1 & J2 & J3)]]; (split_and!; [lia..|]); [|done]. by eapply above_hulls.
  - intros (J1 & J2 & J3). destruct (decide (a < page_down bl.1)).
    + right. split; [lia|]. split_and!; [lia..|done].
    + left. specialize (J3 bl Hin). unfold in_hull in J3. lia.
Qed.

Lemma free_entry_spec bls : ∀ fuel estart eend fl,
  (below_mark eend bls < fuel)%nat → (estart < eend → entry_pieces bls estart eend) → ascending (Z.max estart eend) fl →
  ∃ fl', free_entry fuel bls estart eend fl = Some fl' ∧ ascending estart fl' ∧
    ∀ a, on_list fl' a ↔ (estart < eend ∧ entry_free bls estart eend a) ∨ on_list fl a.
Proof.
  induction fuel as [|fuel IH]; intros estart eend fl Hf Hep Ha; [lia|]. cbn [free_entry].
  destruct (decide (estart < eend)) as [Hlt|Hge].
  2:{ exists fl. split_and!; [done|by eapply ascending_mono; [|done]; lia|]. intros a. naive_solver. }
  specialize (Hep Hlt). pose proof (ep_start _ _ _ Hep) as Hcs. pose proof (ep_end _ _ _ Hep) as Hce.
  pose proof (page_up_bounds _ Hcs) as [Hsu Hsm]. pose proof (page_down_bounds _ Hce) as [Hed Hem].
  destruct (top_blocker_spec bls estart eend) as [Htop Hmax]. destruct (top_blocker bls estart eend) as [x e].
  fold (page_up x) (page_down eend). rewrite Z.max_r in Ha by lia. apply (ascending_mono _ (page_down eend)) in Ha; [|lia].
  assert (page_down eend <= 2 ^ 64 - 4096) as Htopmost by (destruct Hce; lia). pose proof Hcs as [Hs0 Hs1].
  destruct Htop as [[= -> ->]|(bl & Hin & [= -> ->] & Hb1 & Hb2)]; simpl in Hmax.
  - pose proof (ep_apart _ _ _ Hep) as Hap. unfold apart in Hap.
    destruct (early_free_pages fl (page_up estart) (page_down eend) Ha ltac:(lia) Htopmost Hsm Hem) as [Hasc Hon].
    rewrite free_entry_done. eexists. split; [done|]. split; [exact (ascending_mono _ _ _ (proj1 Hsu) Hasc)|]. intros a. rewrite Hon. apply or_iff_compat_r. split; [|by intros [_ (?&?&?)]].
    intros [H1 H2]. split; [done|]. split_and!; [lia..|]. by apply (above_hulls bls estart eend estart).
  - destruct (entry_pieces_cut _ _ _ _ Hep Hin Hb1 Hb2 Hmax) as (Ha1 & Hb & Ha2 & Hep'). unfold apart in Ha1, Ha2.
    destruct (ep_blockers _ _ _ Hep bl Hin) as (Hc1 & Hc2 & _). pose proof (page_up_bounds _ Hc2) as [Hbu Hbm]. pose proof (page_down_bounds _ Hc1) as [Hbd _].
    destruct (early_free_pages fl (page_up bl.2) (page_down eend) Ha ltac:(lia) Htopmost Hbm Hem) as [Hasc Hon].
    apply (ascending_mono _ (Z.max estart bl.1)) in Hasc; [|lia].
    destruct (IH estart bl.1 _ ltac:(pose proof (below_mark_lt eend bl bls Hin Hb1); lia) ltac:(done) Hasc) as (fl' & E & Hasc' & Hon').
    exists fl'. split_and!; [done..|]. intros a. rewrite Hon', Hon, <-(entry_free_split bls estart eend bl a) by done. tauto.
Qed.

(** The entries from [idx] down: what they give to the list. *)
Definition entry_limit (b : boot) (e : memmap_entry) : Z := Z.min (entry_end e) (memmap_alloc_wmark b).

Definition memmap_free (b : boot) (idx : nat) (a : Z) : Prop :=
  ∃ i e, memmap b !! i = Some e ∧ (i <= idx)%nat ∧ should_allocate (memmap_entry_type e) = true ∧
    memmap_entry_start e < entry_limit b e ∧ entry_free (blockers b) (memmap_entry_start e) (entry_limit b e) a.

(** Every usable entry below the watermark is cut at page boundaries. *)
Definition pieces_ok (b : boot) : Prop := ∀ e, e ∈ memmap b → should_allocate (memmap_entry_type e) = true →
  memmap_entry_start e < entry_limit b e → entry_pieces (blockers b) (memmap_entry_start e) (entry_limit b e).

Lemma memmap_free_step b idx e a : memmap b !! idx = Some e →
  memmap_free b idx a ↔
  (should_allocate (memmap_entry_type e) = true ∧ memmap_entry_start e < entry_limit b e ∧ entry_free (blockers b) (memmap_entry_start e) (entry_limit b e) a) ∨
  ∃ idx', idx = S idx' ∧ memmap_free b idx' a.
Proof.
  intros He. split.
  - intros (i & e' & Hi & Hle & Hr). destruct (decide (i = idx)) as [->|Hne]; [left; by simplify_eq|right].
    destruct idx as [|idx]; [lia|]. exists idx. split; [done|]. exists i, e'. split_and!; try apply Hr; [done|lia].
  - intros [Hr|(idx' & -> & i & e' & Hi & Hle & Hr)]; [by exists idx, e|]. exists i, e'. split_and!; try apply Hr; [done|lia].
Qed.

(** The usable entries from [idx] down end at or below [hi]. *)
Definition ends_below (b : boot) (idx : nat) (hi : Z) : Prop :=
  ∀ i e, memmap b !! i = Some e → (i <= idx)%nat → should_allocate (memmap_entry_type e) = true → entry_end e <= hi.

Lemma free_one_entry b idx e fl hi :
  boot_ok b → pieces_ok b → memmap b !! idx = Some e → ends_below b idx hi → ascending hi fl →
  ∃ fl' lo, free_memmap_entry b e fl = Some fl' ∧
    ascending lo fl' ∧ (∀ idx', idx = S idx' → ends_below b idx' lo) ∧
    ∀ a, on_list fl' a ↔ (should_allocate (memmap_entry_type e) = true ∧ memmap_entry_start e < entry_limit b e ∧
                           entry_free (blockers b) (memmap_entry_start e) (entry_limit b e) a) ∨ on_list fl a.
Proof.
  intros Hok Hpc He Hends Ha. unfold free_memmap_entry. destruct (should_allocate (memmap_entry_type e)) eqn:Eu; cbn [negb].
  2:{ exists fl, hi. split_and!; [done..| |naive_solver]. intros idx' -> i e' Hi Hle Hu'. by apply (Hends i e' Hi); [lia|]. }
  pose proof (list_elem_of_lookup_2 _ _ _ He) as Hin. destruct (bo_entry _ Hok e Hin Eu) as (Hs1 & Hs2 & Hs3). unfold entry_end in Hs3.
  cbv zeta. rewrite (add64_small (memmap_entry_start e)) by lia. fold (entry_end e) in *.
  replace (if decide (memmap_alloc_wmark b < entry_end e) then memmap_alloc_wmark b else entry_end e) with (entry_limit b e)
    by (unfold entry_limit; case_decide; lia).
  assert (Z.max (memmap_entry_start e) (entry_limit b e) <= hi) as Hhi.
  { specialize (Hends _ _ He ltac:(lia) Eu). unfold entry_limit, entry_end in *. lia. }
  destruct (free_entry_spec (blockers b) (length (blockers b) + 1) (memmap_entry_start e) (entry_limit b e) fl) as (fl' & E & Hasc & Hon).
  { pose proof (below_mark_length (entry_limit b e) (blockers b)). lia. }
  { by apply Hpc. }
  { by eapply ascending_mono. }
  exists fl', (memmap_entry_start e). split_and!; [done..| |].
  - intros idx' -> i e' Hi Hle Hu'. eapply (bo_sorted _ Hok); [done..|lia|done|done].
  - intros a. rewrite Hon. naive_solver.
Qed.

Lemma free_entries_spec b : boot_ok b → pieces_ok b → ∀ idx fl hi,
  (idx < length (memmap b))%nat → ends_below b idx hi → ascending hi fl →
  ∃ fl' lo, free_entries b idx fl = Some fl' ∧ ascending lo fl' ∧ ∀ a, on_list fl' a ↔ memmap_free b idx a ∨ on_list fl a.
Proof.
  intros Hok Hpc. induction idx as [|idx IH]; intros fl hi Hidx Hends Ha; destruct (lookup_lt_is_Some_2 _ _ Hidx) as [e He];
    destruct (free_one_entry b _ e fl hi Hok Hpc He Hends Ha) as (fl1 & lo & E & Hasc & Hlow & Hon);
    cbn [free_entries]; rewrite He; cbn [mbind option_bind]; rewrite E; cbn [option_bind].
  - exists fl1, lo. split_and!; [done..|]. intros a. rewrite Hon, (memmap_free_step _ _ _ a He). naive_solver.
  - destruct (IH fl1 lo ltac:(lia) (Hlow _ eq_refl) Hasc) as (fl' & lo' & E' & Hasc' & Hon').
    exists fl', lo'. split_and!; [done..|]. intros a. rewrite Hon', Hon, (memmap_free_step _ _ _ a He). naive_solver.
Qed.

Lemma on_list_nil a : ¬ on_list [] a.
Proof. intros (b & Hb & _). by apply not_elem_of_nil in Hb. Qed.

End boot_free.

(** ** The claims *)

Section boot_claims.
Local Open Scope Z_scope.

(** C21. A sequence of boot-time allocations of powers of two, up to 16 MiB
    each, always terminates.  Every block it hands out is a candidate - aligned to its size,
    at or above 16 MiB, below the watermark the sequence starts with, inside one usable entry of the memory map, clear of every blocker
    -, the blocks lie below one another in the order of the calls, and so never overlap, the watermark
    ends at or below all of them, and the sequence is cut short only by a panic, when no candidate is left
    for the size that is asked. *)
Theorem allocs_from_memmap_correct (b : boot) (sizes : list Z) :
  boot_ok b → use_early_alloc b = false → Forall (λ size, is_pow2 size ∧ size <= min_alloc_addr) sizes →
  ∃ xs b', allocs_from_memmap b sizes = Some (xs, b') ∧ boot_ok b' ∧ moves_down b b' ∧ (length xs ≤ length sizes)%nat ∧
    (∀ i x size, xs !! i = Some x → sizes !! i = Some size → candidate b size x ∧ memmap_alloc_wmark b' <= x) ∧
    (∀ i j x y size, xs !! i = Some x → xs !! j = Some y → sizes !! j = Some size → (i < j)%nat → y + size <= x) ∧
    (∀ size, sizes !! length xs = Some size → ∀ y, ¬ candidate b' size y).
Proof. apply allocs_from_memmap_spec. Qed.

(** C22. [setup_free_memory] terminates and gives to the early allocator exactly
    the memory that is left: the whole pages of the usable entries, below the
    watermark, of which no blocker touches a byte (the first 32 bytes of memory
    excepted).  The blocks it puts on the free list do not overlap.  This holds
    when the usable entries and the blockers have page boundaries between
    them. *)
Theorem setup_free_memory_correct (b : boot) :
  boot_ok b → pieces_ok b → early_list b = [] →
  ∃ b' lo, setup_free_memory b = Some b' ∧ use_early_alloc b' = true ∧ memmap b' = memmap b ∧ blockers b' = blockers b ∧
    ascending lo (early_list b') ∧
    ∀ a, on_list (early_list b') a ↔ memmap_free b (memmap_alloc_idx b) a.
Proof.
  intros Hok Hpc Hl. destruct (free_entries_spec b Hok Hpc (memmap_alloc_idx b) [] (2 ^ 64)) as (fl & lo & E & Ha & Hon).
  - apply Hok.
  - intros i e Hi _ Hu. destruct (bo_entry _ Hok e (list_elem_of_lookup_2 _ _ _ Hi) Hu) as (_ & _ & ?). lia.
  - done.
  - unfold setup_free_memory. rewrite Hl, E. eexists _, lo. split; [done|]. split_and!; [done..|].
    intros a. simpl. rewrite Hon. pose proof (on_list_nil a). tauto.
Qed.

End boot_claims.

(** ** A machine with 64 MiB *)

Section boot_example.
Local Open Scope Z_scope.

(** Low memory, a reserved region, and the rest; the blockers are the kernel,
    the boot information and the first page. *)
Definition example_boot (low_start low_size : Z) : boot :=
  mkBoot [MultibootEntry low_start low_size 1; MultibootEntry 0xf0000 0x10000 2; MultibootEntry 0x100000 0x3f00000 1]
    [(0x200000, 0x400000); (0x3000100, 0x3000f00); (0, 4096)] 2 (2 ^ 52) false [].

Lemma example_boot_ok low_start low_size :
  0 <= low_start → 0 <= low_size → low_start + low_size <= 0xf0000 → boot_ok (example_boot low_start low_size).
Proof.
  intros H1 H2 H3. split; simpl.
  - lia.
  - unfold entry_end. intros e [->|[->|[->|[]%not_elem_of_nil]%elem_of_cons]%elem_of_cons]%elem_of_cons _; simpl; lia.
  - intros [|[|[|i]]] [|[|[|j]]] e e' L1 L2 Hij U1 U2; simpl in *; simplify_eq; try done; unfold entry_end; simpl; lia.
  - by split.
  - intros bl [->|[->|[->|[]%not_elem_of_nil]%elem_of_cons]%elem_of_cons]%elem_of_cons; split; simpl; lia.
Qed.

Lemma allocs_from_memmap_correct_witness :
  ∃ xs b', allocs_from_memmap (example_boot 0 0x9f000) [4096; 0x200000; 4096] = Some (xs, b') ∧
    ∀ i x size, xs !! i = Some x → [4096; 0x200000; 4096] !! i = Some size → memmap_alloc_wmark b' <= x.
Proof.
  destruct (allocs_from_memmap_correct (example_boot 0 0x9f000) [4096; 0x200000; 4096])
    as (xs & b' & E & _ & _ & _ & Hxs & _).
  - apply example_boot_ok; lia.
  - done.
  - repeat constructor; (by exists 12) || (by exists 21) || done.
  - exists xs, b'. split; [done|]. intros i x size H1 H2. by destruct (Hxs i x size H1 H2).
Defined.

Example example_allocs :
  option_map fst (allocs_from_memmap (example_boot 0 0x9f000) [4096; 0x200000; 4096; 0x1000000; 4096])
  = Some [0x3fff000; 0x3c00000; 0x3bff000; 0x2000000; 0x1fff000].
Proof. vm_compute. reflexivity. Qed.

(** Whether a page boundary lies between two addresses can be computed. *)
Ltac solve_pieces := unfold apart, cut_ok; first [lia | vm_compute; split; discriminate | vm_compute; discriminate].

Lemma example_pieces_ok : pieces_ok (example_boot 0 0x9f000).
Proof.
  assert (∀ bl, bl ∈ blockers (example_boot 0 0x9f000) → bl = (0x200000, 0x400000) ∨ bl = (0x3000100, 0x3000f00) ∨ bl = (0, 4096)) as Hbls.
  { intros bl [->|[->|[->|[]%not_elem_of_nil]%elem_of_cons]%elem_of_cons]%elem_of_cons; auto. }
  intros e He Hu Hlt.
  assert ((memmap_entry_start e, entry_limit (example_boot 0 0x9f000) e) = (0, 0x9f000) ∨
          (memmap_entry_start e, entry_limit (example_boot 0 0x9f000) e) = (0x100000, 0x4000000)) as Hcases.
  { clear Hlt. revert e He Hu. intros e [->|[->|[->|[]%not_elem_of_nil]%elem_of_cons]%elem_of_cons]%elem_of_cons Hu; auto; done. }
  destruct Hcases as [Hc|Hc]; injection Hc as -> ->; (split; [solve_pieces..| |]).
  1,3: intros bl [->|[->| ->]]%Hbls; (split; [solve_pieces|split; [solve_pieces|]]);
    first [left; solve_pieces | right; left; solve_pieces | right; right; split; [|split]; solve_pieces].
  all: intros bl bl' [->|[->| ->]]%Hbls [->|[->| ->]]%Hbls; first [by left | right; left; solve_pieces | right; right; solve_pieces].
Qed.

Lemma setup_free_memory_correct_witness :
  ∃ b' lo, setup_free_memory (example_boot 0 0x9f000) = Some b' ∧ ascending lo (early_list b') ∧
    (on_list (early_list b') 0x301000 ↔ memmap_free (example_boot 0 0x9f000) 2 0x301000).
Proof.
  destruct (setup_free_memory_correct (example_boot 0 0x9f000)) as (b' & lo & E & _ & _ & _ & Ha & Hon).
  - apply example_boot_ok; lia.
  - apply example_pieces_ok.
  - done.
  - exists b', lo. split_and!; [done..|apply Hon].
Defined.

Example example_free :
  option_map early_list (setup_free_memory (example_boot 0 0x9f000))
  = Some [(0x1000, 0x9e000); (0x100000, 0x100000); (0x400000, 0x2c00000); (0x3001000, 0xfff000)].
Proof. vm_compute. reflexivity. Qed.

(** The page boundaries are needed: a usable entry that lies inside one page
    makes [eend - x] wrap around, and the early allocator is given nearly all
    of the address space, memory that does not exist included. *)
Theorem small_entry_frees_everything :
  boot_ok (example_boot 0x9f400 0x800) ∧
  ∃ b', setup_free_memory (example_boot 0x9f400 0x800) = Some b' ∧
    (0xa0000, 2 ^ 64 - 0x1000) ∈ early_list b' ∧ on_list (early_list b') (2 ^ 52).
Proof.
  split; [apply example_boot_ok; lia|]. eexists. split; [vm_compute; reflexivity|]. split; [left|].
  exists (0xa0000, 2 ^ 64 - 0x1000). split; [left|simpl; lia].
Qed.

End boot_example.
