(* ===== verification/AvlTree.v ===== *)
(** * AVL trees ([include/dsl/avltree.h], [dsl/avlfixup.cc])

    The intrusive AVL tree behind the typed tree with a comparator.  Nodes live
    in a memory of [PtrTree] nodes whose payload is the stored height; the
    containing object is identified with its node. *)

From S2P Require Import Prelude.
From S2P Require Export PtrTree.

Module Avl.
Section avl_defs.
Local Open Scope Z_scope.

Abbreviation amem := (gmap loc (node Z)).

Record AVLTree := mkAVL { nodes : gmap loc (node Z); m_root : ptr }.

Definition init (t : AVLTree) : AVLTree := mkAVL (nodes t) None.
Definition empty (t : AVLTree) : bool := bool_decide (m_root t = None).

(** ** Rebalancing *)

Definition node_height (m : gmap loc (node Z)) (p : ptr) : option Z :=
  match p with Some x => n ← m !! x; Some (aux n) | None => Some 0 end.

Definition new_height (m : gmap loc (node Z)) (x : loc) : option Z :=
  n ← m !! x;
  left ← node_height m (child n LEFT);
  right ← node_height m (child n RIGHT);
  Some (1 + (if decide (left > right) then left else right)).

Definition node_balance (m : gmap loc (node Z)) (x : loc) : option Z :=
  n ← m !! x;
  r ← node_height m (child n RIGHT);
  l ← node_height m (child n LEFT);
  Some (r - l).

Definition update_height (m : gmap loc (node Z)) (x : loc) : option (gmap loc (node Z)) :=
  h ← new_height m x; set_aux m x h.

Definition rotate (m : gmap loc (node Z)) (node : loc) (dir : Dir) : option (gmap loc (PtrTree.node Z) * loc) :=
  let oth := opposite dir in
  n ← m !! node;
  Z ← child n oth;
  z ← m !! Z;
  let tmp := child z dir in
  m ← set_parent_opt m tmp (Some node);
  m ← set_child m node oth tmp;
  m ← update_height m node;
  m ← set_parent m node (Some Z);
  m ← set_child m Z dir (Some node);
  m ← update_height m Z;
  Some (m, Z).

Fixpoint fixup (fuel : nat) (m : gmap loc (node Z)) (root node : ptr)
    : option (gmap loc (PtrTree.node Z) * ptr) :=
  match fuel with
  | O => None
  | S fuel =>
    match node with
    | None => Some (m, root)
    | Some x =>
      balance ← node_balance m x;
      n ← m !! x;
      if decide (-1 <= balance ∧ balance <= 1) then
        h ← new_height m x;
        if decide (h = aux n) then Some (m, root)
        else m ← set_aux m x h; fixup fuel m root (parent n)
      else
        let par := parent n in
        me ← side_of m par x;
        let '(dir, oth) := if decide (balance >= 0) then (RIGHT, LEFT) else (LEFT, RIGHT) in
        Z ← child n dir;
        zb ← node_balance m Z;
        m ← (if decide (dir = LEFT ∧ zb > 0) then
               '(m, Z) ← rotate m Z LEFT;
               m ← set_parent m Z (Some x);
               set_child m x LEFT (Some Z)
             else if decide (dir = RIGHT ∧ zb < 0) then
               '(m, Z) ← rotate m Z RIGHT;
               m ← set_parent m Z (Some x);
               set_child m x RIGHT (Some Z)
             else Some m);
        '(m, x') ← rotate m x oth;
        m ← set_parent m x' par;
        '(m, root) ← link m root par me (Some x');
        fixup fuel m root par
    end
  end.

Definition run_fixup (m : gmap loc (node Z)) (root start : ptr) : option AVLTree :=
  '(m, rt) ← fixup (S (S (size m))) m root start; Some (mkAVL m rt).

(** ** Insertion and removal *)

Definition insert_at (t : AVLTree) (par : ptr) (dir : Dir) (x : loc) : option AVLTree :=
  m ← set_child (nodes t) x LEFT None;
  m ← set_child m x RIGHT None;
  m ← set_parent m x par;
  m ← set_aux m x 1;
  match par with
  | None => Some (mkAVL m (Some x))
  | Some p => m ← set_child m p dir (Some x); run_fixup m (m_root t) (Some p)
  end.

(** [do Z = Z->child[LEFT]; while (Z->child[LEFT] != nullptr);] and the loops
    of [first] and [last]: the end of the chain of [d] children. *)
Fixpoint chain_end (fuel : nat) (m : gmap loc (node Z)) (d : Dir) (x : loc) : option loc :=
  match fuel with
  | O => None
  | S fuel => n ← m !! x;
      match child n d with Some y => chain_end fuel m d y | None => Some x end
  end.

Definition remove_easy (t : AVLTree) (par : ptr) (me : Dir) (n : node Z) : option AVLTree :=
  let Z := match child n LEFT with Some z => Some z | None => child n RIGHT end in
  m ← set_parent_opt (nodes t) Z par;
  match par with
  | Some p => m ← set_child m p me Z; run_fixup m (m_root t) (Some p)
  | None => Some (mkAVL m Z)
  end.

Definition remove (t : AVLTree) (x : loc) : option AVLTree :=
  let m := nodes t in
  n ← m !! x;
  let par := parent n in
  me ← side_of m par x;
  match child n LEFT, child n RIGHT with
  | None, _ | _, None => remove_easy t par me n
  | Some l, Some Z =>
    zn ← m !! Z;
    match child zn LEFT with
    | None =>
      m ← set_parent m Z par;
      m ← set_child m Z LEFT (Some l);
      m ← set_parent m l (Some Z);
      '(m, rt) ← link m (m_root t) par me (Some Z);
      run_fixup m rt (Some Z)
    | Some z1 =>
      Z ← chain_end (S (size m)) m LEFT z1;
      zn ← m !! Z;
      Y ← parent zn;
      m ← set_child m Y LEFT (child zn RIGHT);
      m ← set_parent_opt m (child zn RIGHT) (Some Y);
      m ← set_parent m Z par;
      '(m, rt) ← link m (m_root t) par me (Some Z);
      m ← set_child m Z LEFT (Some l);
      m ← set_parent m l (Some Z);
      m ← set_child m Z RIGHT (child n RIGHT);
      m ← set_parent_opt m (child n RIGHT) (Some Z);
      run_fixup m rt (Some Y)
    end
  end.

(** ** The typed interface *)

Section typed.
Context (m_cmp : loc → loc → bool).

Fixpoint descend (fuel : nat) (m : gmap loc (node Z)) (x : loc) (par : ptr) (dir : Dir) (cur : ptr)
    : option (ptr * Dir) :=
  match fuel with
  | O => None
  | S fuel =>
    match cur with
    | None => Some (par, dir)
    | Some y =>
      n ← m !! y;
      let dir := if m_cmp x y then LEFT else RIGHT in
      descend fuel m x (Some y) dir (child n dir)
    end
  end.

Definition insert (t : AVLTree) (x : loc) : option AVLTree :=
  '(par, dir) ← descend (S (size (nodes t))) (nodes t) x None LEFT (m_root t);
  insert_at t par dir x.

End typed.

Definition first (t : AVLTree) : option ptr :=
  match m_root t with
  | None => Some None
  | Some x => y ← chain_end (S (size (nodes t))) (nodes t) LEFT x; Some (Some y)
  end.

Definition last (t : AVLTree) : option ptr :=
  match m_root t with
  | None => Some None
  | Some x => y ← chain_end (S (size (nodes t))) (nodes t) RIGHT x; Some (Some y)
  end.

(** ** What a balanced tree is *)

Fixpoint height (t : tree Z) : Z :=
  match t with E => 0 | T l _ _ r => 1 + Z.max (height l) (height r) end.

(** Stored heights are right and every node is balanced. *)
Fixpoint balanced (t : tree Z) : bool :=
  match t with
  | E => true
  | T l _ h r =>
    bool_decide (h = 1 + Z.max (height l) (height r)) &&
    bool_decide (-1 <= height r - height l ∧ height r - height l <= 1) &&
    balanced l && balanced r
  end.

(** Read the tree below [p] out of a memory. *)
Fixpoint read (fuel : nat) (m : gmap loc (node Z)) (p : ptr) : option (tree Z) :=
  match fuel with
  | O => None
  | S fuel =>
    match p with
    | None => Some E
    | Some x => n ← m !! x; l ← read fuel m (child n LEFT); r ← read fuel m (child n RIGHT);
        Some (T l x (aux n) r)
    end
  end.

Definition read_tree (t : AVLTree) : option (tree Z) := read (S (size (nodes t))) (nodes t) (m_root t).

End avl_defs.

(** ** First and last *)

Section avl.
Local Open Scope Z_scope.
Implicit Types (m : gmap loc (node Z)) (t l r : tree Z).

Lemma chain_end_rep m par t x d fuel :
  rep m par t → root_of t = Some x → (length (keys t) < fuel)%nat →
  chain_end fuel m d x = (match d with LEFT => head (keys t) | RIGHT => list.last (keys t) end).
Proof.
  revert par x fuel. induction t as [|l IHl y a r IHr]; intros par x [|fuel] Hrep Hx Hf; try done; try lia.
  injection Hx as <-. rewrite keys_T in Hf |- *. rewrite length_app in Hf. simpl in Hf.
  destruct Hrep as (Hy & Hl & Hr). simpl. rewrite Hy. simpl. destruct d; simpl.
  - destruct l as [|ll lx la lr]; [done|]. cbn [root_of]. rewrite (IHl (Some y)); [|done|done|lia].
    rewrite keys_T. by destruct (keys ll).
  - destruct r as [|rl rx ra rr]; [by rewrite last_app_cons|]. cbn [root_of].
    rewrite (IHr (Some y)); [|done|done|simpl in *; lia].
    rewrite last_app_cons, keys_T. by destruct (keys rl).
Qed.

Lemma rep_keys_size m par t : rep m par t → NoDup (keys t) → (length (keys t) ≤ size m)%nat.
Proof.
  intros Hr Hnd. rewrite <- size_dom, <- (size_list_to_set (C := gset loc) (keys t)) by done.
  apply subseteq_size. intros y Hy%elem_of_list_to_set. apply elem_of_dom. by eapply rep_lookup.
Qed.

(** [TypedAVLTree::first] and [last] terminate and return the first and the
    last object in the order of the tree, or null for the empty tree. *)
Theorem first_last_correct (s : AVLTree) t :
  rep (nodes s) None t → m_root s = root_of t → NoDup (keys t) →
  first s = Some (head (keys t)) ∧ last s = Some (list.last (keys t)).
Proof.
  intros Hrep Hrt Hnd. pose proof (rep_keys_size _ _ _ Hrep Hnd). unfold first, last. rewrite Hrt.
  destruct (root_of t) as [x|] eqn:Ex; [|by destruct t].
  rewrite !(chain_end_rep _ None t x) by (done || lia).
  assert (is_Some (head (keys t)) ∧ is_Some (list.last (keys t))) as [[h Hh] [z Hz]].
  { destruct t as [|l y a r]; [done|]. rewrite keys_T. split.
    - destruct (keys l); simpl; by eexists.
    - apply last_is_Some. by destruct (keys l). }
  rewrite Hh, Hz. done.
Qed.

End avl.

(** ** Removal does not keep the tree balanced *)

Section defect.
Local Open Scope Z_scope.

Definition blank (n : nat) : gmap loc (node Z) :=
  list_to_map ((λ i, (Pos.of_nat i, mkNode None None None 0)) <$> seq 1 n).

Definition by_address (x y : loc) : bool := bool_decide (x < y)%positive.

Fixpoint insert_all (t : option AVLTree) (l : list positive) : option AVLTree :=
  match l with
  | [] => t
  | x :: l => insert_all (t ← t; insert by_address t x) l
  end.

Definition balanced_tree (o : option AVLTree) : bool :=
  match o with
  | Some t => match read_tree t with Some s => balanced s | None => false end
  | None => false
  end.

(** Nine insertions that give a balanced tree of height four with root 4; the
    successor of the root, 5, is two levels below the root's right child. *)
Definition ex_avl : option AVLTree :=
  insert_all (Some (mkAVL (blank 9) None)) [4; 2; 7; 1; 3; 6; 8; 5; 9]%positive.

Definition remove_opt (o : option AVLTree) (x : loc) : option AVLTree := t ← o; remove t x.

(** Defect: [AVLTree::remove] does not keep stored heights right.  The
    successor that replaces a removed node with two children keeps its own old
    height, and [fixup], started below it, returns before reaching it: here the
    root ends up with stored height 1 although the tree has height 4. *)
Theorem remove_leaves_stale_height :
  balanced_tree ex_avl = true ∧ balanced_tree (remove_opt ex_avl 4%positive) = false ∧
  match (t ← remove_opt ex_avl 4%positive; read_tree t) with
  | Some (T l x h r) => x = 5%positive ∧ h = 1 ∧ height (T l x h r) = 4
  | _ => False
  end.
Proof. vm_compute. repeat split. Qed.

Definition ex_two : AVLTree :=
  mkAVL (list_to_map [(1, mkNode None (Some 2) None 2%Z); (2, mkNode None None (Some 1) 1%Z)]%positive)
    (Some 1%positive).

Lemma first_last_correct_witness :
  first ex_two = Some (head (keys (T E 1%positive 2 (T E 2%positive 1 E)))) ∧
  last ex_two = Some (list.last (keys (T E 1%positive 2 (T E 2%positive 1 E)))).
Proof.
  apply (first_last_correct ex_two).
  - vm_compute. repeat split.
  - reflexivity.
  - apply (bool_decide_unpack _). vm_compute. done.
Defined.

End defect.
End Avl.
