(* ===== verification/AvlFixup.v ===== *)
(** * AVL trees: rotation and [fixup] ([dsl/avlfixup.cc])

    [fixup], run on a memory that holds a tree, keeps the in-order sequence,
    never dereferences a null pointer and terminates, whatever heights are
    stored, as long as they are positive. *)

From S2P Require Import Prelude.
From S2P Require Export AvlTree.
Import Avl.

Section avl_fixup.
Local Open Scope Z_scope.
Implicit Types (m : gmap loc (node Z)) (t l r s o : tree Z) (c : list (frame Z)).

(** The stored height. *)
Definition ht t : Z := match t with E => 0 | T _ _ h _ => h end.

Fixpoint heights_pos t : Prop :=
  match t with E => True | T l _ h r => 1 <= h ∧ heights_pos l ∧ heights_pos r end.

Definition frames_pos c : Prop := Forall (λ f, 1 <= fr_aux f ∧ heights_pos (fr_sib f)) c.

(** A node with its height recomputed. *)
Definition hbin (d : Dir) s (x : loc) o : tree Z := bin d s x (1 + Z.max (ht s) (ht o)) o.

Lemma heights_pos_ht t : heights_pos t → 0 <= ht t.
Proof. destruct t; simpl; lia. Qed.

Lemma ht_nonempty d t : 0 < ht t → ∃ p x h q, t = bin d p x h q.
Proof. destruct t as [|l x h r]; simpl; [lia|]. intros _. destruct d; [by exists l, x, h, r|by exists r, x, h, l]. Qed.

Lemma ht_bin d s x h o : ht (bin d s x h o) = h.
Proof. by destruct d. Qed.

Lemma heights_pos_bin d s x h o : heights_pos (bin d s x h o) ↔ 1 <= h ∧ heights_pos s ∧ heights_pos o.
Proof. destruct d; simpl; tauto. Qed.

Lemma heights_pos_hbin d s x o : heights_pos s → heights_pos o → heights_pos (hbin d s x o).
Proof.
  intros Hs Ho. unfold hbin. rewrite heights_pos_bin. pose proof (heights_pos_ht s Hs).
  pose proof (heights_pos_ht o Ho). split_and!; [lia|done..].
Qed.

Lemma heights_pos_plug c t : heights_pos (plug c t) ↔ heights_pos t ∧ frames_pos c.
Proof.
  unfold frames_pos. revert t. induction c as [|[d x a s] c IH]; intros t; simpl.
  - rewrite Forall_nil. tauto.
  - rewrite IH, heights_pos_bin, Forall_cons. simpl. tauto.
Qed.

(** ** Keys in order *)

(** The keys of a node whose subtree on side [d] is first. *)
Definition side_keys (d : Dir) (s : list loc) (x : loc) (o : list loc) : list loc :=
  match d with LEFT => s ++ x :: o | RIGHT => o ++ x :: s end.

Lemma keys_bin_eq d s x h o : keys (bin d s x h o) = side_keys d (keys s) x (keys o).
Proof. destruct d; apply keys_T. Qed.

(** Rotating keeps the order. *)
Lemma keys_rotate d p z hz q x hx o h1 h2 :
  keys (bin d p z h1 (bin d q x h2 o)) = keys (bin d (bin d p z hz q) x hx o).
Proof. rewrite !keys_bin_eq. destruct d; simpl; by rewrite <-?app_assoc. Qed.

Lemma keys_plug_eq c t t' : keys t' = keys t → keys (plug c t') = keys (plug c t).
Proof.
  revert t t'. induction c as [|[d x a s] c IH]; intros t t' H; simpl; [done|].
  apply IH. rewrite !keys_bin_eq. by rewrite H.
Qed.

(** ** Heights in memory *)

Lemma avl_node_height_rep m par t : rep m par t → node_height m (root_of t) = Some (ht t).
Proof. destruct t; simpl; [done|]. by intros [-> _]. Qed.

Lemma avl_balance_rep m par d s x a o :
  rep m par (bin d s x a o) →
  node_balance m x = Some (match d with LEFT => ht o - ht s | RIGHT => ht s - ht o end).
Proof.
  rewrite rep_bin. intros (Hx & Hs & Ho). unfold node_balance. rewrite Hx. cbn [mbind option_bind].
  destruct d; simpl; by rewrite (avl_node_height_rep _ _ _ Hs), (avl_node_height_rep _ _ _ Ho).
Qed.

Lemma avl_new_height_rep m par d s x a o :
  rep m par (bin d s x a o) → new_height m x = Some (1 + Z.max (ht s) (ht o)).
Proof.
  rewrite rep_bin. intros (Hx & Hs & Ho). unfold new_height. rewrite Hx. cbn [mbind option_bind].
  destruct d; simpl; rewrite (avl_node_height_rep _ _ _ Hs), (avl_node_height_rep _ _ _ Ho);
    simpl; f_equal; case_decide; lia.
Qed.

Lemma avl_set_height_rep m par d s x a o h :
  rep m par (bin d s x a o) → NoDup (keys (bin d s x a o)) →
  ∃ m', set_aux m x h = Some m' ∧ rep m' par (bin d s x h o) ∧ untouched [x] m m'.
Proof.
  rewrite !rep_bin, keys_bin. intros (Hx & Hs & Ho) Hnd. unfold set_aux. rewrite Hx. simpl.
  eexists. split; [done|]. apply NoDup_cons in Hnd as [Hxn Hnd].
  split; [|intros y Hy; rewrite lookup_insert_ne; [done|set_solver]].
  rewrite rep_bin. split_and!; [rewrite lookup_insert_eq; by destruct d|..]; (eapply rep_ext; [|done]);
    intros z Hz; (rewrite lookup_insert_ne; [done|]); set_solver.
Qed.

Lemma avl_update_height_rep m par d s x a o :
  rep m par (bin d s x a o) → NoDup (keys (bin d s x a o)) →
  ∃ m', update_height m x = Some m' ∧ rep m' par (hbin d s x o) ∧ untouched [x] m m'.
Proof.
  intros Hr Hnd. unfold update_height. rewrite (avl_new_height_rep _ _ _ _ _ _ _ Hr).
  cbn [mbind option_bind]. by apply (avl_set_height_rep m par d s x a o).
Qed.

(** ** Rotation *)

Lemma keys_hbin d s x a o : keys (hbin d s x o) = keys (bin d s x a o).
Proof. unfold hbin. by rewrite !keys_bin_eq. Qed.

(** The parent pointer of the new root is left to the caller. *)
Lemma avl_rotate_rep m par dir s x ax b z az w :
  rep m par (bin dir s x ax (bin dir b z az w)) →
  NoDup (keys (bin dir s x ax (bin dir b z az w))) →
  ∃ m', rotate m x dir = Some (m', z) ∧
    rep m' (Some x) (hbin dir (hbin dir s x b) z w) ∧
    untouched (x :: z :: keys b) m m'.
Proof.
  intros Hr Hnd. rewrite !keys_bin in Hnd. cbn [app] in Hnd.
  rewrite !rep_bin, root_of_bin in Hr. destruct Hr as (Hx & Hs & Hz & Hb & Hw).
  apply NoDup_cons in Hnd as [Hxn Hnd]. apply NoDup_app in Hnd as (Hns & Hsd & Hnd).
  apply NoDup_cons in Hnd as [Hzn Hnd]. apply NoDup_app in Hnd as (Hnb & Hbd & Hnw).
  unfold rotate. rewrite Hx. cbn [mbind option_bind]. rewrite child_mk_opp.
  cbn [mbind option_bind]. rewrite Hz. cbn [mbind option_bind]. rewrite child_mk.
  destruct (set_parent_opt_rep m (Some z) (Some x) b Hb Hnb) as (m1 & -> & Hb1 & U1).
  cbn [mbind option_bind].
  assert (m1 !! x = Some (mk_child_node dir (root_of s) (Some z) par ax)) as Hx1
    by (rewrite U1; [done|set_solver]).
  rewrite (set_child_opp_lookup _ _ _ _ _ _ _ _ Hx1). cbn [mbind option_bind].
  set (m2 := <[x := _]> m1).
  assert (untouched (x :: keys b) m m2) as U2.
  { intros y Hy. unfold m2. rewrite lookup_insert_ne by set_solver. apply U1. set_solver. }
  assert (rep m2 par (bin dir s x ax b)) as R2.
  { apply rep_bin. split_and!.
    - unfold m2. by rewrite lookup_insert_eq.
    - eapply (rep_untouched (x :: keys b)); [done| |done]. set_solver.
    - eapply rep_ext; [|exact Hb1]. intros y Hy. apply lookup_insert_ne. set_solver. }
  assert (NoDup (keys (bin dir s x ax b))) as N2.
  { rewrite keys_bin. apply NoDup_cons. rewrite NoDup_app. set_solver. }
  destruct (avl_update_height_rep m2 par dir s x ax b R2 N2) as (m3 & -> & R3 & U3).
  cbn [mbind option_bind].
  destruct (rep_set_parent m3 par (Some z) (hbin dir s x b) x) as (m4 & -> & R4 & U4);
    [done|by rewrite (keys_hbin dir s x ax b)|apply root_of_bin|]. cbn [mbind option_bind].
  assert (untouched (x :: keys b) m m4) as U5.
  { intros y Hy. rewrite U4 by set_solver. rewrite U3 by set_solver. by apply U2. }
  assert (m4 !! z = Some (mk_child_node dir (root_of b) (root_of w) (Some x) az)) as Hz4
    by (rewrite U5; [done|set_solver]).
  rewrite (set_child_lookup _ _ _ _ _ _ _ _ Hz4). cbn [mbind option_bind].
  set (m5 := <[z := _]> m4).
  assert (rep m5 (Some x) (bin dir (hbin dir s x b) z az w)) as R5.
  { apply rep_bin. split_and!.
    - unfold m5. rewrite lookup_insert_eq. unfold hbin. by rewrite root_of_bin.
    - eapply rep_ext; [|exact R4]. intros y Hy. apply lookup_insert_ne. intros <-.
      rewrite (keys_hbin dir s x ax b), keys_bin in Hy. set_solver.
    - eapply rep_ext; [|exact Hw]. intros y Hy. unfold m5. rewrite lookup_insert_ne by set_solver.
      apply U5. set_solver. }
  destruct (avl_update_height_rep m5 (Some x) dir (hbin dir s x b) z az w R5) as (m6 & -> & R6 & U6).
  { rewrite keys_bin, (keys_hbin dir s x ax b), keys_bin. apply NoDup_cons.
    rewrite NoDup_app, NoDup_cons, NoDup_app. set_solver. }
  exists m6. split_and!; [done|done|]. intros y Hy. rewrite U6 by set_solver. unfold m5.
  rewrite lookup_insert_ne by set_solver. apply U5. set_solver.
Qed.

(** ** The loop of [fixup] *)

(** The rotation of the heavy child that precedes a double rotation. *)
Definition avl_inner m (x z : loc) (d : Dir) : option (gmap loc (node Z)) :=
  '(m, Z) ← rotate m z d; m ← set_parent m Z (Some x); set_child m x d (Some Z).

Lemma avl_inner_rep m par d p z az q1 y ay q2 x a o :
  rep m par (bin d (bin d p z az (bin d q1 y ay q2)) x a o) →
  NoDup (keys (bin d (bin d p z az (bin d q1 y ay q2)) x a o)) →
  ∃ m', avl_inner m x z d = Some m' ∧
    rep m' par (bin d (hbin d (hbin d p z q1) y q2) x a o) ∧
    untouched (keys (bin d (bin d p z az (bin d q1 y ay q2)) x a o)) m m'.
Proof.
  intros Hr Hnd. apply rep_bin in Hr as (Hx & Hh & Ho).
  rewrite keys_bin in Hnd. apply NoDup_cons in Hnd as [Hxn Hnd].
  apply NoDup_app in Hnd as (Hnh & Hd & Hno).
  set (h := bin d p z az (bin d q1 y ay q2)) in *.
  set (h' := hbin d (hbin d p z q1) y q2).
  assert (keys h' = keys h) as Hk by (unfold h, h', hbin; symmetry; apply keys_rotate).
  destruct (avl_rotate_rep m (Some x) d p z az q1 y ay q2 Hh Hnh) as (m1 & E1 & R1 & U1).
  unfold avl_inner. rewrite E1. cbn [mbind option_bind].
  destruct (rep_set_parent m1 (Some z) (Some x) h' y) as (m2 & -> & R2 & U2);
    [done|by rewrite Hk|apply root_of_bin|]. cbn [mbind option_bind].
  assert (y ∈ keys h) as Hyh by (unfold h; rewrite !keys_bin; set_solver).
  assert (untouched (keys h) m m2) as U.
  { intros v Hv. rewrite U2 by set_solver. apply U1. intros Hin. apply Hv. unfold h.
    rewrite !keys_bin. set_solver. }
  assert (m2 !! x = Some (mk_child_node d (root_of h) (root_of o) par a)) as Hx2
    by (rewrite U; [done|set_solver]).
  rewrite (set_child_lookup _ _ _ _ _ _ _ _ Hx2). eexists. split; [done|]. split.
  - apply rep_bin. split_and!.
    + rewrite lookup_insert_eq. unfold h', hbin. by rewrite root_of_bin.
    + eapply rep_ext; [|exact R2]. intros v Hv. apply lookup_insert_ne.
      intros <-. rewrite Hk in Hv. set_solver.
    + eapply rep_ext; [|exact Ho]. intros v Hv. rewrite lookup_insert_ne by set_solver.
      apply U. set_solver.
  - intros v Hv. rewrite keys_bin in Hv. rewrite lookup_insert_ne by set_solver.
    apply U. set_solver.
Qed.

(** The heavy child before the final rotation. *)
Lemma avl_heavy_child m par d p z az q x a o (h := bin d p z az q) (t := bin d h x a o) :
  rep m par t → NoDup (keys t) → heights_pos h →
  ∃ m1 p' z' az' q',
    (if decide (ht p < ht q) then avl_inner m x z d else Some m) = Some m1 ∧
    rep m1 par (bin d (bin d p' z' az' q') x a o) ∧ heights_pos (bin d p' z' az' q') ∧
    keys (bin d p' z' az' q') = keys h ∧ untouched (keys t) m m1.
Proof.
  intros Hr Hnd Hh. case_decide as Hpq; [|by exists m, p, z, az, q].
  apply heights_pos_bin in Hh as (_ & Hp & Hq). pose proof (heights_pos_ht p Hp).
  destruct (ht_nonempty d q ltac:(lia)) as (q1 & y & ay & q2 & ->).
  apply heights_pos_bin in Hq as (_ & Hq1 & Hq2).
  destruct (avl_inner_rep m par d p z az q1 y ay q2 x a o Hr Hnd) as (m1 & E1 & R1 & U1).
  exists m1, (hbin d p z q1), y. eexists _, q2. split_and!; [done|exact R1| | |done].
  - by repeat apply heights_pos_hbin.
  - unfold h, hbin. symmetry. apply keys_rotate.
Qed.

(** What one iteration leaves: another tree in the same context. *)
Definition avl_moved m c t m' (rt' : ptr) t' : Prop :=
  crep m' rt' (root_of t') c ∧ rep m' (cparent c) t' ∧ root_of t' ≠ None ∧ heights_pos t' ∧
  keys t' = keys t ∧ untouched (keys t ++ ckeys c) m m'.

(** The iteration for an unbalanced node with heavy side [d]. *)
Lemma avl_fixup_rotate m rt c d p z az q x a o fuel balance (t := bin d (bin d p z az q) x a o) :
  crep m rt (Some x) c → rep m (cparent c) t → NoDup (keys t ++ ckeys c) → heights_pos t →
  node_balance m x = Some balance → ¬ (-1 <= balance ∧ balance <= 1) →
  d = (if decide (balance >= 0) then RIGHT else LEFT) →
  ∃ m' rt' t', fixup (S fuel) m rt (Some x) = fixup fuel m' rt' (cparent c) ∧
    avl_moved m c t m' rt' t'.
Proof.
  intros Hc Hr Hnd Hpos Hbal Hub Hd. pose proof Hnd as (Hnt & Htc & Hnc)%NoDup_app.
  assert (keys t ≡ₚ x :: keys (bin d p z az q) ++ keys o) as Hkt by apply keys_bin.
  apply heights_pos_bin in Hpos as (_ & Hh & Ho).
  destruct (avl_heavy_child m (cparent c) d p z az q x a o Hr Hnt Hh)
    as (m1 & p' & z' & az' & q' & E1 & R1 & Hh' & Hk & U1).
  apply heights_pos_bin in Hh' as (_ & Hp' & Hq').
  rewrite (bin_opposite d), (bin_opposite d p') in R1.
  destruct (avl_rotate_rep m1 (cparent c) (opposite d) o x a q' z' az' p' R1) as (m2 & E2 & R2 & U2).
  { by rewrite <-!bin_opposite, keys_bin, Hk, <-Hkt. }
  set (t' := hbin (opposite d) (hbin (opposite d) o x q') z' p') in *.
  assert (keys t' = keys t) as Hkt'.
  { unfold t', t, hbin. rewrite <-!bin_opposite, (keys_rotate d p' z' az' q' x a o).
    rewrite !(keys_bin_eq d _ x). by rewrite Hk. }
  destruct (rep_set_parent m2 (Some x) (cparent c) t' z') as (m3 & E3 & R3 & U3);
    [done|by rewrite Hkt'|apply root_of_bin|].
  assert (untouched (keys t) m m3) as U.
  { assert (z' ∈ keys t) by (rewrite <-Hkt'; unfold t', hbin; rewrite keys_bin; set_solver).
    intros y Hy. rewrite U3 by set_solver. rewrite U2; [by apply U1|].
    rewrite Hkt, <-Hk, keys_bin in Hy. set_solver. }
  destruct (link_crep m3 rt (Some x) c (Some z')) as (m4 & rt4 & E4 & C4 & U4);
    [by eapply crep_untouched; [done|set_solver|done]|done|].
  exists m4, rt4, t'. split.
  - cbn [fixup]. rewrite Hbal. cbn [mbind option_bind].
    pose proof Hr as Hr'. apply rep_bin in Hr' as (Hx & Hhr & _). rewrite Hx. cbn [mbind option_bind].
    rewrite decide_False by done. rewrite parent_mk.
    rewrite (side_of_crep m rt x c Hc)
      by (apply NoDup_cons; split; [apply Htc; rewrite Hkt; set_solver|done]).
    cbn [mbind option_bind].
    replace (if decide (balance >= 0) then (RIGHT, LEFT) else (LEFT, RIGHT))
      with (d, opposite d) by (rewrite Hd; by destruct (decide (balance >= 0))).
    rewrite child_mk, root_of_bin. cbn [mbind option_bind].
    rewrite (avl_balance_rep _ _ _ _ _ _ _ Hhr). cbn [mbind option_bind].
    match goal with |- context [if decide (d = LEFT ∧ _) then ?u else ?v] =>
      assert ((if decide (d = LEFT ∧ match d with LEFT => ht q - ht p | RIGHT => ht p - ht q end > 0)
               then u else v) = Some m1) as -> end.
    { rewrite <-E1. unfold avl_inner. destruct d; destruct (decide (ht p < ht q)).
      - rewrite decide_True by (split; [done|lia]). done.
      - rewrite decide_False, decide_False by (intros [? ?]; (done || lia)). done.
      - rewrite decide_False, decide_True by (done || naive_solver lia). done.
      - rewrite decide_False, decide_False by (intros [? ?]; (done || lia)). done. }
    cbn [mbind option_bind]. rewrite E2. cbn [mbind option_bind]. rewrite E3. cbn [mbind option_bind].
    rewrite E4. done.
  - assert (root_of t' = Some z') as Hrt by apply root_of_bin.
    split_and!.
    + by rewrite Hrt.
    + eapply rep_untouched; [exact U4| |done]. intros y Hy. rewrite Hkt' in Hy. set_solver.
    + by rewrite Hrt.
    + by repeat apply heights_pos_hbin.
    + done.
    + intros y Hy. rewrite U4 by set_solver. apply U. set_solver.
Qed.

(** One iteration of [fixup]: it stops, or moves one level up. *)
Lemma avl_fixup_step m rt c l x a r fuel (t := T l x a r) :
  crep m rt (Some x) c → rep m (cparent c) t → NoDup (keys t ++ ckeys c) → heights_pos t →
  fixup (S fuel) m rt (Some x) = Some (m, rt) ∨
  ∃ m' rt' t', fixup (S fuel) m rt (Some x) = fixup fuel m' rt' (cparent c) ∧
    avl_moved m c t m' rt' t'.
Proof.
  intros Hc Hr Hnd Hpos. pose proof Hnd as (Hnt & Htc & Hnc)%NoDup_app.
  pose proof (avl_balance_rep m (cparent c) LEFT l x a r Hr) as Hbal. simpl in Hbal.
  set (b := ht r - ht l) in *. destruct (decide (-1 <= b ∧ b <= 1)) as [Hb|Hb].
  - cbn [fixup]. rewrite Hbal. cbn [mbind option_bind]. pose proof Hr as (Hx & _ & _).
    rewrite Hx. cbn [mbind option_bind]. rewrite decide_True by done.
    rewrite (avl_new_height_rep m (cparent c) LEFT l x a r Hr). cbn [mbind option_bind aux parent].
    case_decide as Heq; [by left|]. right.
    destruct (avl_set_height_rep m (cparent c) LEFT l x a r (1 + Z.max (ht l) (ht r)) Hr Hnt)
      as (m' & -> & R' & U').
    cbn [mbind option_bind]. exists m', rt, (hbin LEFT l x r).
    assert (x ∈ keys t) by (unfold t; rewrite keys_T; set_solver).
    split; [done|]. split_and!; try done.
    + eapply crep_untouched; [done|set_solver|done].
    + destruct Hpos as (_ & Hl & Hr'). by apply heights_pos_hbin.
    + apply (keys_hbin LEFT l x a r).
    + eapply untouched_weaken; [|done]. set_solver.
  - right. pose proof (proj2 Hpos) as [Hl%heights_pos_ht Hr'%heights_pos_ht].
    destruct (decide (b >= 0)) as [Hs|Hs].
    + destruct (ht_nonempty RIGHT r ltac:(lia)) as (p & z & az & q & ->).
      apply (avl_fixup_rotate m rt c RIGHT p z az q x a l fuel b); try done. by rewrite decide_True.
    + destruct (ht_nonempty LEFT l ltac:(lia)) as (p & z & az & q & ->).
      apply (avl_fixup_rotate m rt c LEFT p z az q x a r fuel b); try done. by rewrite decide_False.
Qed.

(** What the operations leave in memory: a tree with the keys [ks], in order. *)
Definition avl_holds m (rt : ptr) (ks : list loc) : Prop :=
  ∃ t, rep m None t ∧ rt = root_of t ∧ keys t = ks ∧ heights_pos t.

Lemma avl_fixup_rep c t x m rt fuel :
  root_of t = Some x → crep m rt (Some x) c → rep m (cparent c) t →
  NoDup (keys t ++ ckeys c) → heights_pos t → frames_pos c → (length c + 1 < fuel)%nat →
  ∃ m' rt', fixup fuel m rt (Some x) = Some (m', rt') ∧
    avl_holds m' rt' (keys (plug c t)) ∧ untouched (keys t ++ ckeys c) m m'.
Proof.
  revert t x m rt fuel. induction c as [|[d y b s] c IH];
    intros [|l x' a r] x m rt fuel [= <-] Hc Hr Hnd Hpos Hcp Hf;
    (destruct fuel as [|fuel]; [lia|]);
    (edestruct avl_fixup_step as [E|(m1 & rt1 & t1 & E & C1 & R1 & N1 & P1 & K1 & U1)]; [done..| |];
     rewrite E; clear E).
  - exists m, rt. split; [done|]. split; [|done]. by exists (T l x' a r).
  - destruct fuel as [|fuel]; [simpl in *; lia|]. exists m1, rt1. split; [done|].
    split; [by exists t1|done].
  - exists m, rt. split; [done|]. split; [|done]. exists (plug (Fr d y b s :: c) (T l x' a r)).
    destruct (proj2 (rep_plug m rt (Fr d y b s :: c) (T l x' a r)) (conj Hc Hr)).
    split_and!; [done..|by apply heights_pos_plug].
  - set (t := T l x' a r) in *. simpl in C1. destruct C1 as (Hy & Hs & C1).
    apply Forall_cons in Hcp as [[? ?] Hcp]. cbn [fr_aux fr_sib] in *.
    assert (keys (bin d t1 y b s) ++ ckeys c ≡ₚ keys t ++ ckeys (Fr d y b s :: c)) as HK.
    { rewrite keys_bin, K1. simpl. by rewrite <-app_assoc, Permutation_middle. }
    destruct (IH (bin d t1 y b s) y m1 rt1 fuel) as (m' & rt' & E' & H' & U').
    + apply root_of_bin.
    + done.
    + apply rep_bin. split_and!; done.
    + by rewrite HK.
    + apply heights_pos_bin. split_and!; done.
    + done.
    + simpl in Hf. lia.
    + exists m', rt'. split; [done|]. split.
      * simpl. rewrite (keys_plug_eq c (bin d t1 y b s)); [done|]. by rewrite !keys_bin_eq, K1.
      * eapply untouched_trans; [exact U1|]. eapply untouched_weaken; [|exact U']. by rewrite HK.
Qed.

(** With the fuel the operations use. *)
Lemma avl_run_fixup c t x m rt :
  root_of t = Some x → crep m rt (Some x) c → rep m (cparent c) t →
  NoDup (keys t ++ ckeys c) → heights_pos t → frames_pos c →
  ∃ m' rt', run_fixup m rt (Some x) = Some (mkAVL m' rt') ∧
    avl_holds m' rt' (keys (plug c t)) ∧ untouched (keys t ++ ckeys c) m m'.
Proof.
  intros Ht Hc Hr Hnd Hp Hcp. pose proof (crep_size m rt (Some x) c Hc) as Hs.
  apply NoDup_app in Hnd as Hnd'. destruct Hnd' as (_ & _ & Hnc). specialize (Hs Hnc).
  destruct (avl_fixup_rep c t x m rt (S (S (size m)))) as (m' & rt' & E & H & U); try done; [lia|].
  exists m', rt'. unfold run_fixup. rewrite E. done.
Qed.

(** [fixup] from the parent of a changed subtree, or the subtree is the tree. *)
Lemma avl_fixup_parent m rt c t :
  crep m rt (root_of t) c → rep m (cparent c) t → NoDup (keys t ++ ckeys c) →
  heights_pos t → frames_pos c →
  ∃ m' rt', match cparent c with
            | Some p => run_fixup m rt (Some p)
            | None => Some (mkAVL m rt)
            end = Some (mkAVL m' rt') ∧
    avl_holds m' rt' (keys (plug c t)) ∧ untouched (keys t ++ ckeys c) m m'.
Proof.
  intros Hc Hr Hnd Hp Hcp. destruct c as [|[d y b s] c]; simpl in *.
  - exists m, rt. split; [done|]. split; [by exists t|done].
  - destruct Hc as (Hy & Hs & Hc). apply Forall_cons in Hcp as [[H1 H2] Hcp]. simpl in *.
    destruct (avl_run_fixup c (bin d t y b s) y m rt) as (m' & rt' & E & H & U).
    + apply root_of_bin.
    + done.
    + by apply rep_bin.
    + rewrite keys_bin. simpl. by rewrite <-app_assoc, Permutation_middle.
    + by apply heights_pos_bin.
    + done.
    + exists m', rt'. split_and!; [done..|]. eapply untouched_weaken; [|exact U].
      rewrite keys_bin. set_solver.
Qed.

End avl_fixup.
