(* ===== verification/AvlOps.v ===== *)
(** * AVL trees: insertion and removal keep the order

    [fixup], [insert] and [remove] of [dsl/avlfixup.cc] and
    [include/dsl/avltree.h] change the in-order sequence exactly as insertion
    and deletion in a sequence do, never dereference a null pointer and
    terminate, whatever heights are stored, as long as they are positive: so
    also on the trees with stale heights that removal leaves behind. *)

From Stdlib Require Import Sorting.Sorted.
From S2P Require Import Prelude.
From S2P Require Export AvlFixup.
Import Avl.

Section avl_ops.
Local Open Scope Z_scope.
Implicit Types (m : gmap loc (node Z)) (t l r s o : tree Z) (c : list (frame Z)).

(** ** Insertion *)

Definition kleft c : list loc := (cleft c).*1.
Definition kright c : list loc := (cright c).*1.

Lemma keys_plug_split c t : keys (plug c t) = kleft c ++ keys t ++ kright c.
Proof. unfold keys. by rewrite inorder_plug, !fmap_app. Qed.

Lemma kleft_cons d y a s c :
  kleft (Fr d y a s :: c) = match d with LEFT => kleft c | RIGHT => kleft c ++ keys s ++ [y] end.
Proof. unfold kleft. destruct d; simpl; by rewrite ?fmap_app. Qed.

Lemma kright_cons d y a s c :
  kright (Fr d y a s :: c) = match d with LEFT => y :: keys s ++ kright c | RIGHT => kright c end.
Proof. unfold kright. destruct d; simpl; by rewrite ?fmap_app. Qed.

(** Where a sequence that [f] splits into false and true is split by one of its
    elements. *)
Lemma split_at_pivot (f : loc → bool) kl y kr k1 k2 :
  kl ++ y :: kr = k1 ++ k2 → Forall (λ z, f z = false) k1 → Forall (λ z, f z = true) k2 →
  if f y then ∃ k, kl = k1 ++ k ∧ k2 = k ++ y :: kr else ∃ k, k1 = kl ++ y :: k ∧ kr = k ++ k2.
Proof.
  intros [(k & -> & ->)|(k & -> & Hk)]%app_eq_inv H1 H2.
  - apply Forall_app in H2 as [_ [-> _]%Forall_cons]. by exists k.
  - apply Forall_app in H1 as [_ H1]. destruct k as [|z k]; simplify_eq/=.
    + apply Forall_cons in H2 as [-> _]. exists []. by rewrite !app_nil_r.
    + apply Forall_cons in H1 as [-> _]. by exists k.
Qed.

(** The descent ends at the hole where the comparator changes. *)
Lemma avl_descend_rep m_cmp m x t : ∀ c fuel k1 k2,
  rep m (cparent c) t → (length (keys t) < fuel)%nat → keys t = k1 ++ k2 →
  Forall (λ y, m_cmp x y = false) k1 → Forall (λ y, m_cmp x y = true) k2 →
  ∃ c', descend m_cmp fuel m x (cparent c) (cdir c) (root_of t) = Some (cparent c', cdir c') ∧
    plug c' E = plug c t ∧ kleft c' = kleft c ++ k1 ∧ kright c' = k2 ++ kright c.
Proof.
  induction t as [|l IHl y a r IHr]; intros c [|fuel] k1 k2 Hr Hf Hk H1 H2; try lia.
  - symmetry in Hk. apply app_nil in Hk as [-> ->]. exists c. by rewrite app_nil_r.
  - destruct Hr as (Hy & Hl & Hr). cbn [descend root_of]. rewrite Hy. cbn [mbind option_bind].
    rewrite keys_T in Hk, Hf. rewrite length_app in Hf. cbn [length] in Hf.
    pose proof (split_at_pivot (m_cmp x) _ _ _ _ _ Hk H1 H2) as Hp.
    destruct (m_cmp x y) eqn:Ec; cbn [child child_l child_r]; destruct Hp as (k & E1 & E2).
    + subst k2. apply Forall_app in H2 as [H2 _].
      destruct (IHl (Fr LEFT y a r :: c) fuel k1 k) as (c' & E & H3 & H4 & H5); [done|lia|done..|].
      exists c'. rewrite kleft_cons in H4. rewrite kright_cons in H5. split_and!; try done.
      by rewrite H5, <-app_assoc.
    + subst k1. apply Forall_app in H1 as [_ [_ H1]%Forall_cons].
      destruct (IHr (Fr RIGHT y a l :: c) fuel k k2) as (c' & E & H3 & H4 & H5); [done|lia|done..|].
      exists c'. rewrite kleft_cons in H4. rewrite kright_cons in H5. split_and!; try done.
      by rewrite H4, <-!app_assoc.
Qed.

Lemma set_child_eq m x d p n : m !! x = Some n → set_child m x d p = Some (<[x := with_child n d p]> m).
Proof. intros H. unfold set_child. by rewrite H. Qed.

Lemma set_parent_eq m x p n :
  m !! x = Some n → set_parent m x p = Some (<[x := mkNode (child_l n) (child_r n) p (aux n)]> m).
Proof. intros H. unfold set_parent. by rewrite H. Qed.

Lemma set_aux_eq m x h n :
  m !! x = Some n → set_aux m x h = Some (<[x := mkNode (child_l n) (child_r n) (parent n) h]> m).
Proof. intros H. unfold set_aux. by rewrite H. Qed.

(** [insert_at] at a hole of the tree. *)
Lemma insert_at_rep (s : AVLTree) c x :
  crep (nodes s) (m_root s) None c → NoDup (x :: ckeys c) → is_Some (nodes s !! x) → frames_pos c →
  ∃ m' rt', insert_at s (cparent c) (cdir c) x = Some (mkAVL m' rt') ∧
    avl_holds m' rt' (kleft c ++ x :: kright c) ∧ untouched (x :: ckeys c) (nodes s) m'.
Proof.
  intros Hc Hnd [n Hn] Hcp. unfold insert_at.
  pose proof Hnd as [Hx Hnc]%NoDup_cons.
  rewrite (set_child_eq _ _ _ _ _ Hn). cbn [mbind option_bind with_child].
  rewrite (set_child_eq _ x _ _ _ (lookup_insert_eq _ _ _)). cbn [mbind option_bind with_child child_l parent aux].
  rewrite (set_parent_eq _ x _ _ (lookup_insert_eq _ _ _)). cbn [mbind option_bind child_l child_r aux].
  rewrite (set_aux_eq _ x _ _ (lookup_insert_eq _ _ _)). cbn [mbind option_bind child_l child_r parent].
  set (m1 := <[x := mkNode None None (cparent c) 1]> _).
  assert (untouched [x] (nodes s) m1) as U1.
  { intros y Hy. unfold m1. rewrite !lookup_insert_ne by set_solver. done. }
  destruct (link_crep m1 (m_root s) None c (Some x)) as (m2 & rt2 & E2 & C2 & U2);
    [by eapply crep_untouched; [done|set_solver|done]|done|].
  assert (rep m2 (cparent c) (T E x 1 E)) as R2.
  { simpl. split_and!; try done. rewrite U2 by done. unfold m1. by rewrite lookup_insert_eq. }
  destruct (avl_fixup_parent m2 rt2 c (T E x 1 E)) as (m' & rt' & E' & H' & U'); try done.
  exists m', rt'. split_and!.
  - rewrite <-E'. destruct c as [|[d p b o] c]; simpl in *; [by simplify_eq|].
    unfold set_child in E2 |- *. destruct (m1 !! p); [|done]. simpl in *. by simplify_eq.
  - by rewrite keys_plug_split in H'.
  - intros y Hy. rewrite U' by done. rewrite U2 by set_solver. apply U1. set_solver.
Qed.

(** ** Removal *)

(** A node with at most one child: the child takes its place. *)
Lemma remove_easy_rep (s : AVLTree) c l x a r :
  crep (nodes s) (m_root s) (Some x) c → rep (nodes s) (cparent c) (T l x a r) →
  NoDup (keys (T l x a r) ++ ckeys c) → heights_pos (T l x a r) → frames_pos c → l = E ∨ r = E →
  ∃ m' rt', remove_easy s (cparent c) (cdir c) (mkNode (root_of l) (root_of r) (cparent c) a) =
      Some (mkAVL m' rt') ∧
    avl_holds m' rt' (kleft c ++ (keys l ++ keys r) ++ kright c) ∧
    untouched (keys (T l x a r) ++ ckeys c) (nodes s) m'.
Proof.
  intros Hc Hr Hnd Hp Hcp He. destruct Hr as (Hx & Hl & Hr). rewrite keys_T in Hnd |- *.
  assert (∃ t, match root_of l with Some z => Some z | None => root_of r end = root_of t ∧
            rep (nodes s) (Some x) t ∧ keys t = keys l ++ keys r ∧ heights_pos t) as (t & Et & Rt & Kt & Pt).
  { destruct Hp as (_ & Hpl & Hpr). destruct l as [|ll lx la lr]; [by exists r|].
    destruct He as [He|He]; [done|subst r]. exists (T ll lx la lr). rewrite app_nil_r. done. }
  unfold remove_easy. cbn [child child_l child_r]. rewrite Et.
  assert (NoDup (keys t ++ ckeys c) ∧ x ∉ keys t ++ ckeys c) as [Hnt Hxt].
  { rewrite Kt. rewrite <-Permutation_middle in Hnd. cbn [app] in Hnd. apply NoDup_cons in Hnd. tauto. }
  pose proof Hnt as (Hn1 & Hd & Hn2)%NoDup_app.
  destruct (set_parent_opt_rep (nodes s) (Some x) (cparent c) t Rt Hn1) as (m1 & -> & R1 & U1).
  cbn [mbind option_bind].
  destruct (link_crep m1 (m_root s) (Some x) c (root_of t)) as (m2 & rt2 & E2 & C2 & U2);
    [by eapply crep_untouched; [done|set_solver|done]|done|].
  destruct (avl_fixup_parent m2 rt2 c t) as (m' & rt' & E' & H' & U'); try done.
  { eapply rep_untouched; [exact U2|done|done]. }
  exists m', rt'. split_and!.
  - rewrite <-E'. destruct c as [|[d p b o] c]; simpl in *; [by simplify_eq|].
    unfold set_child in E2 |- *. destruct (m1 !! p); [|done]. simpl in *. by simplify_eq.
  - by rewrite keys_plug_split, Kt in H'.
  - intros y Hy. assert (y ∉ keys t ∧ y ∉ ckeys c) as [Hy1 Hy2].
    { rewrite Kt. clear -Hy. rewrite !elem_of_app, elem_of_cons in *. tauto. }
    rewrite U', U2 by (done || (rewrite elem_of_app; tauto)). by apply U1.
Qed.

(** What [remove] did to the node [x] in the context [c]. *)
Definition avl_removed m c l x a r (res : option AVLTree) : Prop :=
  ∃ m' rt', res = Some (mkAVL m' rt') ∧
    avl_holds m' rt' (kleft c ++ (keys l ++ keys r) ++ kright c) ∧
    untouched (keys (T l x a r) ++ ckeys c) m m'.

Section two_children.
Context (s : AVLTree) (c : list (frame Z)) (l r : tree Z) (x : loc) (a : Z).
Context (Hc : crep (nodes s) (m_root s) (Some x) c) (Ht : rep (nodes s) (cparent c) (T l x a r)).
Context (Hnd : NoDup (keys (T l x a r) ++ ckeys c)).
Context (Hp : heights_pos (T l x a r)) (Hcp : frames_pos c).
Context (lx : loc) (Hlx : root_of l = Some lx).

(** The names of the tree are different. *)
Lemma two_nodup : NoDup (keys l) ∧ NoDup (keys r) ∧ NoDup (ckeys c) ∧ x ∉ keys l ∧ x ∉ keys r ∧ x ∉ ckeys c ∧
  (∀ y, y ∈ keys l → y ∉ keys r ∧ y ∉ ckeys c) ∧ (∀ y, y ∈ keys r → y ∉ keys l ∧ y ∉ ckeys c).
Proof.
  clear -Hnd. rewrite keys_T, <-app_assoc in Hnd. cbn [app] in Hnd.
  apply NoDup_app in Hnd as (H1 & H2 & H3). apply NoDup_cons in H3 as [H3 H4].
  apply NoDup_app in H4 as (H4 & H5 & H6). split_and!; try done; set_solver.
Qed.

(** The successor is the right child. *)
Lemma remove_special z az zr :
  r = T E z az zr →
  avl_removed (nodes s) c l x a r
    (m ← set_parent (nodes s) z (cparent c);
     m ← set_child m z LEFT (Some lx);
     m ← set_parent m lx (Some z);
     '(m, rt) ← link m (m_root s) (cparent c) (cdir c) (Some z);
     run_fixup m rt (Some z)).
Proof.
  intros Er. destruct two_nodup as (Hnl & Hnr & Hnc & Hxl & Hxr & Hxc & Hdl & Hdr).
  destruct Ht as (Hx & Hl & Hr). rewrite Er in *. destruct Hr as (Hz & _ & Hzr).
  rewrite keys_T in Hnr, Hxr, Hdr. simpl in Hnr, Hxr, Hdr. apply NoDup_cons in Hnr as [Hzz Hnz].
  assert (z ∉ keys l ∧ z ∉ ckeys c) as [Hzl Hzc] by (apply Hdr; set_solver).
  rewrite (set_parent_eq _ _ _ _ Hz). cbn [mbind option_bind child_l child_r aux root_of].
  set (m1 := <[z := _]> (nodes s)).
  destruct (adopt_child m1 LEFT z None (root_of zr) (cparent c) az l (Some x))
    as (m2 & m3 & E2 & E3 & Hz3 & L3 & U3).
  { unfold m1. by rewrite lookup_insert_eq. }
  { eapply rep_ext; [|exact Hl]. intros y Hy. apply lookup_insert_ne. by intros <-. }
  { done. } { done. }
  rewrite Hlx in E2, E3. rewrite E2. cbn [mbind option_bind].
  simpl in E3. rewrite E3. cbn [mbind option_bind].
  assert (untouched (z :: keys l) (nodes s) m3) as U.
  { intros y Hy. rewrite U3 by done. apply lookup_insert_ne. set_solver. }
  destruct (link_crep m3 (m_root s) (Some x) c (Some z)) as (m4 & rt4 & -> & C4 & U4); [|done|].
  { eapply crep_untouched; [exact U| |done]. set_solver. }
  cbn [mbind option_bind].
  destruct (avl_run_fixup c (T l z az zr) z m4 rt4) as (m' & rt' & E' & H' & U'); try done.
  - simpl. rewrite !U4 by done. split_and!.
    + exact Hz3.
    + eapply rep_untouched; [exact U4| |exact L3]. set_solver.
    + eapply rep_untouched; [exact U4| |]; [set_solver|].
      eapply rep_untouched; [exact U| |exact Hzr]. set_solver.
  - rewrite keys_T. apply NoDup_app. rewrite NoDup_app, NoDup_cons. set_solver.
  - simpl in Hp. simpl. tauto.
  - exists m', rt'. split; [done|]. split.
    + rewrite keys_plug_split, keys_T in H'. rewrite (keys_T E). simpl. done.
    + intros y Hy. rewrite !keys_T in Hy. rewrite U', U4, U; [done|..]; rewrite ?keys_T; set_solver.
Qed.

(** The successor [z] is further down. *)
Lemma remove_deep y ay sy bs z az zr :
  r = plug (Fr LEFT y ay sy :: bs) (T E z az zr) → kleft (Fr LEFT y ay sy :: bs) = [] →
  avl_removed (nodes s) c l x a r
    (m ← set_child (nodes s) y LEFT (root_of zr);
     m ← set_parent_opt m (root_of zr) (Some y);
     m ← set_parent m z (cparent c);
     '(m, rt) ← link m (m_root s) (cparent c) (cdir c) (Some z);
     m ← set_child m z LEFT (Some lx);
     m ← set_parent m lx (Some z);
     m ← set_child m z RIGHT (root_of r);
     m ← set_parent_opt m (root_of r) (Some z);
     run_fixup m rt (Some y)).
Proof.
  intros Er Hkl. destruct two_nodup as (Hnl & Hnr & Hnc & Hxl & Hxr & Hxc & Hdl & Hdr).
  destruct Ht as (Hx & Hl & Hr). set (r' := plug (Fr LEFT y ay sy :: bs) zr).
  assert (root_of r = root_of r') as Hrt by (rewrite Er; apply root_of_plug_cons).
  assert (keys r = z :: keys r') as Hk.
  { rewrite Er. unfold r'. rewrite !keys_plug_split, Hkl, keys_T. done. }
  rewrite Hk in Hnr, Hdr, Hxr. apply NoDup_cons in Hnr as [Hzr Hnr].
  assert (z ∉ keys l ∧ z ∉ ckeys c) as [Hzl Hzc] by (apply Hdr; set_solver).
  assert (y ∈ keys r' ∧ ∀ v, v ∈ keys zr → v ∈ keys r') as [Hyr Hzrr].
  { unfold r'. setoid_rewrite keys_plug. simpl. split; set_solver. }
  destruct (leftmost_leaves (nodes s) (Some x) bs y ay sy z az zr) as (m1 & m2 & -> & E2 & R2 & Hz2 & U2).
  { by rewrite <-Er. } { rewrite <-Er, Hk. by apply NoDup_cons. }
  cbn [mbind option_bind]. rewrite E2. cbn [mbind option_bind].
  rewrite (set_parent_eq _ _ _ _ Hz2). cbn [mbind option_bind child_l child_r aux].
  set (m3 := <[z := _]> m2).
  assert (untouched (z :: keys r') (nodes s) m3) as U3.
  { intros v Hv. unfold m3. rewrite lookup_insert_ne by set_solver. apply U2. set_solver. }
  destruct (link_crep m3 (m_root s) (Some x) c (Some z)) as (m4 & rt4 & -> & C4 & U4); [|done|].
  { eapply crep_untouched; [exact U3| |done]. set_solver. }
  cbn [mbind option_bind].
  assert (m4 !! z = Some (mk_child_node LEFT None (root_of zr) (cparent c) az)) as Hz4.
  { rewrite U4 by done. unfold m3. by rewrite lookup_insert_eq. }
  destruct (adopt_child m4 LEFT z None (root_of zr) (cparent c) az l (Some x))
    as (m5 & m6 & E5 & E6 & Hz6 & L6 & U6); [done| |done|done|].
  { eapply rep_untouched; [exact U4|set_solver|]. eapply rep_untouched; [exact U3| |done]. set_solver. }
  rewrite Hlx in E5, E6. rewrite E5. cbn [mbind option_bind]. simpl in E6. rewrite E6. cbn [mbind option_bind].
  destruct (adopt_child m6 RIGHT z (root_of zr) (root_of l) (cparent c) az r' (Some x))
    as (m7 & m8 & E7 & E8 & Hz8 & R8 & U8); [exact Hz6| |done|done|].
  { eapply rep_untouched; [exact U6|set_solver|]. eapply rep_untouched; [exact U4|set_solver|].
    eapply rep_ext; [|exact R2]. intros v Hv. apply lookup_insert_ne. by intros <-. }
  rewrite Hrt, E7. cbn [mbind option_bind]. rewrite E8. cbn [mbind option_bind].
  assert (crep m8 rt4 (Some z) c) as C8.
  { eapply crep_untouched; [exact U8|set_solver|]. eapply crep_untouched; [exact U6|set_solver|done]. }
  assert (rep m8 (cparent c) (T l z az r')) as R.
  { simpl. split_and!; [exact Hz8| |exact R8]. eapply rep_untouched; [exact U8|set_solver|done]. }
  set (c2 := bs ++ Fr RIGHT z az l :: c). set (ty := T zr y ay sy).
  assert (plug c2 ty = plug c (T l z az r')) as Epl by (unfold c2; by rewrite plug_app).
  destruct (proj1 (rep_plug m8 rt4 c2 ty)) as [C9 R9].
  { rewrite Epl. by apply rep_plug. }
  assert (heights_pos ty ∧ frames_pos c2) as [Hpty Hpc2].
  { apply heights_pos_plug. rewrite Epl, heights_pos_plug. simpl in Hp. rewrite Er in Hp.
    simpl plug in Hp. rewrite heights_pos_plug in Hp. unfold r'. simpl. rewrite heights_pos_plug. simpl in *.
    split; [|done]. destruct Hp as (? & ? & (? & (? & ? & ?) & ?) & ?). split_and!; done. }
  assert (NoDup (keys (plug c2 ty))) as Hnd2.
  { rewrite Epl, keys_plug, keys_T. apply NoDup_app. rewrite NoDup_app, NoDup_cons. set_solver. }
  rewrite keys_plug in Hnd2.
  destruct (avl_run_fixup c2 ty y m8 rt4) as (m' & rt' & E' & H' & U'); try done.
  exists m', rt'. split; [done|]. split.
  - rewrite Epl, keys_plug_split, keys_T in H'. by rewrite Hk.
  - intros v Hv. rewrite keys_T, Hk in Hv. rewrite U', U8, U6, U4, U3; [done|set_solver..|].
    rewrite <-keys_plug, Epl, keys_plug, keys_T. set_solver.
Qed.

End two_children.

Lemma remove_rep (s : AVLTree) c l x a r :
  crep (nodes s) (m_root s) (Some x) c → rep (nodes s) (cparent c) (T l x a r) →
  NoDup (keys (T l x a r) ++ ckeys c) → heights_pos (T l x a r) → frames_pos c →
  avl_removed (nodes s) c l x a r (remove s x).
Proof.
  intros Hc Ht Hnd Hp Hcp. pose proof Ht as (Hx & Hl & Hr).
  pose proof Hnd as (_ & Hd & Hnc)%NoDup_app.
  unfold remove. rewrite Hx. cbn [mbind option_bind parent child child_l child_r].
  rewrite (side_of_crep _ _ x c Hc) by (apply NoDup_cons; split; [apply Hd; rewrite keys_T; set_solver|done]).
  cbn [mbind option_bind].
  destruct (root_of l) as [lx|] eqn:El; [destruct (root_of r) as [rx|] eqn:Erx|].
  - destruct r as [|rl rx' ra rr]; [done|]. injection Erx as ->. pose proof Hr as (-> & Hrl & Hrr).
    cbn [mbind option_bind child child_l].
    destruct rl as [|rll z1 rla rlr] eqn:Erl.
    + cbn [root_of]. by eapply remove_special.
    + cbn [root_of]. rewrite <-Erl in *.
      destruct (plug_leftmost (T rl rx ra rr)) as (c1 & z & az & zr & Epl & Hc1 & Hcl); [done|].
      assert (kleft c1 = []) as Hkl by (unfold kleft; by rewrite Hcl).
      assert (head (keys rl) = Some z) as Hhead.
      { assert (keys (T rl rx ra rr) = z :: keys zr ++ kright c1) as Hk
          by (by rewrite Epl, keys_plug_split, Hkl, keys_T).
        rewrite keys_T in Hk. destruct (keys rl) eqn:Ek; [|by injection Hk as ->].
        rewrite Erl, keys_T in Ek. by destruct (keys rll). }
      assert (NoDup (keys rl)) as Hnrl.
      { destruct (two_nodup c l (T rl rx ra rr) x a Hnd) as (_ & Hnr & _). rewrite keys_T in Hnr.
        by apply NoDup_app in Hnr as (? & _). }
      rewrite (chain_end_rep _ (Some rx) rl z1); [|done|by rewrite Erl|];
        [|pose proof (rep_keys_size _ _ _ Hrl Hnrl); lia].
      rewrite Hhead. cbn [mbind option_bind].
      destruct c1 as [|[d y ay sy] bs]; [simpl in Epl; congruence|].
      apply Forall_cons in Hc1 as [Hd1 _]. simpl in Hd1. subst d.
      pose proof Hr as Hr'. rewrite Epl in Hr'. apply rep_plug_sub in Hr' as (-> & _ & _).
      cbn [mbind option_bind parent child child_r cparent_or fr_key].
      by eapply (remove_deep s c l (T rl rx ra rr)).
  - rewrite <-El, <-Erx. apply remove_easy_rep; try done. right. by destruct r.
  - rewrite <-El. apply remove_easy_rep; try done. left. by destruct l.
Qed.

(** ** The tree as a sequence *)

(** The tree holds the objects [ks], in this order. *)
Definition avl_seq (s : AVLTree) (ks : list loc) : Prop :=
  avl_holds (nodes s) (m_root s) ks ∧ NoDup ks.

Lemma avl_insert_seq (s : AVLTree) m_cmp x k1 k2 :
  avl_seq s (k1 ++ k2) → x ∉ k1 ++ k2 → is_Some (nodes s !! x) →
  Forall (λ y, m_cmp x y = false) k1 → Forall (λ y, m_cmp x y = true) k2 →
  ∃ s' : AVLTree, insert m_cmp s x = Some s' ∧ avl_seq s' (k1 ++ x :: k2) ∧
    untouched (x :: k1 ++ k2) (nodes s) (nodes s').
Proof.
  intros [(t & Hr & Hrt & Hk & Hp) Hnd] Hx Hal H1 H2. rewrite <-Hk in Hnd.
  pose proof (rep_keys_size _ _ _ Hr Hnd) as Hsz.
  destruct (avl_descend_rep m_cmp (nodes s) x t [] (S (size (nodes s))) k1 k2)
    as (c & Ed & Hpl & Hkl & Hkr); [done|lia|done..|].
  cbn [cparent cdir] in Ed. unfold insert. rewrite Hrt, Ed. cbn [mbind option_bind].
  simpl in Hpl, Hkl, Hkr. rewrite app_nil_r in Hkr.
  assert (ckeys c ≡ₚ k1 ++ k2) as Hck by (rewrite <-Hk, <-Hpl, keys_plug; done).
  destruct (insert_at_rep s c x) as (m' & rt' & E' & H' & U').
  - apply (rep_plug (nodes s) (m_root s) c PtrTree.E). by rewrite Hpl.
  - rewrite Hck. apply NoDup_cons. split; [done|by rewrite <-Hk].
  - done.
  - rewrite <-Hpl in Hp. apply heights_pos_plug in Hp. apply Hp.
  - exists (mkAVL m' rt'). split; [done|]. split.
    + split; [by rewrite Hkl, Hkr in H'|]. rewrite <-Permutation_middle.
      apply NoDup_cons. split; [done|by rewrite <-Hk].
    + eapply untouched_weaken; [|exact U']. rewrite Hck. done.
Qed.

Lemma avl_remove_seq (s : AVLTree) x k1 k2 :
  avl_seq s (k1 ++ x :: k2) →
  ∃ s' : AVLTree, remove s x = Some s' ∧ avl_seq s' (k1 ++ k2) ∧ untouched (k1 ++ x :: k2) (nodes s) (nodes s').
Proof.
  intros [(t & Hr & Hrt & Hk & Hp) Hnd].
  destruct (plug_find t x) as (c & l & a & r & ->); [rewrite Hk; set_solver|].
  destruct (proj1 (rep_plug (nodes s) (m_root s) c (T l x a r)) (conj Hr Hrt)) as [Hc Ht].
  apply heights_pos_plug in Hp as [Hp Hcp].
  destruct (remove_rep s c l x a r) as (m' & rt' & Er & H' & U'); try done.
  { rewrite <-keys_plug. by rewrite Hk. }
  rewrite keys_plug_split, keys_T, <-app_assoc in Hk. cbn [app] in Hk. rewrite app_assoc in Hk.
  assert (∀ k k' : list loc, NoDup (k ++ x :: k') → x ∉ k) as Hmid.
  { intros k k' (_ & H & _)%NoDup_app Hin. by apply (H x Hin); left. }
  destruct (not_elem_of_app_cons_inv_l x x (kleft c ++ keys l) (keys r ++ kright c) k1 k2) as (<- & _ & <-);
    [by eapply Hmid|by eapply Hmid; rewrite Hk|done|].
  exists (mkAVL m' rt'). split; [done|]. split.
  - split; [by rewrite <-!app_assoc in *|]. rewrite <-Permutation_middle in Hnd. by apply NoDup_cons in Hnd as [_ ?].
  - eapply untouched_weaken; [|exact U']. rewrite keys_T. intros y Hy.
    assert (y ∈ ckeys c ↔ y ∈ kleft c ++ kright c) as Hyc.
    { pose proof (keys_plug c (@PtrTree.E Z)) as Hpl. rewrite keys_plug_split in Hpl. simpl in Hpl. by rewrite Hpl. }
    rewrite elem_of_app, Hyc in Hy. set_solver.
Qed.

(** ** No object appears or disappears *)

Lemma set_child_dom m x d p m' : set_child m x d p = Some m' → dom m' = dom m.
Proof.
  unfold set_child. intros (n & Hn & [= <-])%bind_Some. apply dom_insert_lookup_L. by eexists.
Qed.

Lemma set_parent_dom m x p m' : set_parent m x p = Some m' → dom m' = dom m.
Proof.
  unfold set_parent. intros (n & Hn & [= <-])%bind_Some. apply dom_insert_lookup_L. by eexists.
Qed.

Lemma set_aux_dom m x h m' : set_aux m x h = Some m' → dom m' = dom m.
Proof.
  unfold set_aux. intros (n & Hn & [= <-])%bind_Some. apply dom_insert_lookup_L. by eexists.
Qed.

Lemma set_parent_opt_dom m p q m' : set_parent_opt m p q = Some m' → dom m' = dom m.
Proof. destruct p; simpl; [apply set_parent_dom|by intros [= ->]]. Qed.

Lemma update_height_dom m x m' : update_height m x = Some m' → dom m' = dom m.
Proof. unfold update_height. intros (h & _ & H)%bind_Some. by eapply set_aux_dom. Qed.

Lemma link_dom m rt par me p m' rt' : link m rt par me p = Some (m', rt') → dom m' = dom m.
Proof.
  destruct par as [q|]; simpl; [|by intros [= -> ->]].
  intros (m1 & H & [= <- <-])%bind_Some. by eapply set_child_dom.
Qed.

Lemma rotate_dom m x d m' z : rotate m x d = Some (m', z) → dom m' = dom m.
Proof.
  unfold rotate. intros (n & _ & H)%bind_Some. apply bind_Some in H as (y & _ & H).
  apply bind_Some in H as (yn & _ & H). apply bind_Some in H as (m1 & H1%set_parent_opt_dom & H).
  apply bind_Some in H as (m2 & H2%set_child_dom & H). apply bind_Some in H as (m3 & H3%update_height_dom & H).
  apply bind_Some in H as (m4 & H4%set_parent_dom & H). apply bind_Some in H as (m5 & H5%set_child_dom & H).
  apply bind_Some in H as (m6 & H6%update_height_dom & [= <- <-]). congruence.
Qed.

Lemma fixup_dom fuel : ∀ m rt p m' rt', fixup fuel m rt p = Some (m', rt') → dom m' = dom m.
Proof.
  induction fuel as [|fuel IH]; intros m rt p m' rt' H; [done|]. cbn [fixup] in H.
  destruct p as [x|]; [|by injection H as <- <-].
  apply bind_Some in H as (b & _ & H). apply bind_Some in H as (n & _ & H).
  destruct (decide (-1 <= b ∧ b <= 1)).
  - apply bind_Some in H as (h & _ & H). destruct (decide (h = aux n)); [by injection H as <- <-|].
    apply bind_Some in H as (m1 & H1%set_aux_dom & H%IH). congruence.
  - apply bind_Some in H as (me & _ & H).
    destruct (if decide (b >= 0) then _ else _) as [d o].
    apply bind_Some in H as (z & _ & H). apply bind_Some in H as (zb & _ & H).
    apply bind_Some in H as (m1 & H1 & H). apply bind_Some in H as ([m2 y] & H2%rotate_dom & H).
    apply bind_Some in H as (m3 & H3%set_parent_dom & H).
    apply bind_Some in H as ([m4 rt4] & H4%link_dom & H%IH).
    enough (dom m1 = dom m) by congruence. clear -H1.
    repeat case_decide; [| |by injection H1 as <-];
      apply bind_Some in H1 as ([m5 y] & H5%rotate_dom & H1); apply bind_Some in H1 as (m6 & H6%set_parent_dom & H1%set_child_dom);
      congruence.
Qed.

Lemma run_fixup_dom m rt p (s : AVLTree) : run_fixup m rt p = Some s → dom (nodes s) = dom m.
Proof. unfold run_fixup. intros ([m' rt'] & H%fixup_dom & [= <-])%bind_Some. done. Qed.

Lemma avl_insert_dom (s s' : AVLTree) m_cmp x : insert m_cmp s x = Some s' → dom (nodes s') = dom (nodes s).
Proof.
  unfold insert, insert_at. intros ([par dir] & _ & H)%bind_Some.
  apply bind_Some in H as (m0 & H0%set_child_dom & H). apply bind_Some in H as (m1 & H1%set_child_dom & H).
  apply bind_Some in H as (m2 & H2%set_parent_dom & H). apply bind_Some in H as (m3 & H3%set_aux_dom & H).
  destruct par as [p|]; [|injection H as <-; simpl; congruence].
  apply bind_Some in H as (m & H4%set_child_dom & H5%run_fixup_dom). congruence.
Qed.

Lemma avl_remove_dom (s s' : AVLTree) x : remove s x = Some s' → dom (nodes s') = dom (nodes s).
Proof.
  assert (∀ par me n, remove_easy s par me n = Some s' → dom (nodes s') = dom (nodes s)) as Heasy.
  { intros par me n. unfold remove_easy. intros (m & H%set_parent_opt_dom & H2)%bind_Some.
    destruct par as [p|]; [|by injection H2 as <-].
    apply bind_Some in H2 as (m1 & H1%set_child_dom & H3%run_fixup_dom). congruence. }
  unfold remove. intros (n & _ & H)%bind_Some. apply bind_Some in H as (me & _ & H).
  destruct (child n LEFT) as [l|]; [destruct (child n RIGHT) as [z|]|]; [|by eapply Heasy..].
  apply bind_Some in H as (zn & _ & H). destruct (child zn LEFT) as [z1|].
  - apply bind_Some in H as (z' & _ & H). apply bind_Some in H as (zn' & _ & H). apply bind_Some in H as (y & _ & H).
    apply bind_Some in H as (m1 & H1%set_child_dom & H). apply bind_Some in H as (m2 & H2%set_parent_opt_dom & H).
    apply bind_Some in H as (m3 & H3%set_parent_dom & H). apply bind_Some in H as ([m4 rt4] & H4%link_dom & H).
    apply bind_Some in H as (m5 & H5%set_child_dom & H). apply bind_Some in H as (m6 & H6%set_parent_dom & H).
    apply bind_Some in H as (m7 & H7%set_child_dom & H). apply bind_Some in H as (m8 & H8%set_parent_opt_dom & H%run_fixup_dom).
    congruence.
  - apply bind_Some in H as (m1 & H1%set_parent_dom & H). apply bind_Some in H as (m2 & H2%set_child_dom & H).
    apply bind_Some in H as (m3 & H3%set_parent_dom & H). apply bind_Some in H as ([m4 rt4] & H4%link_dom & H%run_fixup_dom).
    congruence.
Qed.

Lemma avl_first_seq (s : AVLTree) ks : avl_seq s ks → first s = Some (head ks).
Proof.
  intros [(t & Hr & Hrt & Hk & _) Hnd]. rewrite <-Hk in *. by apply first_last_correct.
Qed.

Lemma avl_empty_seq (s : AVLTree) ks : avl_seq s ks → empty s = bool_decide (ks = []).
Proof.
  intros [(t & _ & Hrt & Hk & _) _]. unfold empty. rewrite Hrt. apply bool_decide_ext. rewrite <-Hk.
  destruct t as [|l x a r]; [done|]. rewrite keys_T. simpl. split; [done|]. by destruct (keys l).
Qed.

Lemma avl_init_seq (s : AVLTree) : avl_seq (init s) [].
Proof. split; [by exists E|constructor]. Qed.

End avl_ops.

(** ** The typed tree as a sorted sequence *)

(** What [TypedAVLTree] asks of its comparator: a strict weak order. *)
Class StrictWeakOrder (m_cmp : loc → loc → bool) := {
  cmp_asym x y : m_cmp x y = true → m_cmp y x = false;
  cmp_negtrans x y z : m_cmp x z = true → m_cmp y z = false → m_cmp x y = true;
}.

(** Comparing a number stored with each object. *)
#[export] Instance key_order (key : loc → Z) :
  StrictWeakOrder (λ x y, bool_decide (key x < key y)%Z).
Proof.
  split.
  - intros x y H%bool_decide_eq_true. apply bool_decide_eq_false. lia.
  - intros x y z H%bool_decide_eq_true H2%bool_decide_eq_false. apply bool_decide_eq_true. lia.
Qed.

Section sorted.
Context (m_cmp : loc → loc → bool) `{!StrictWeakOrder m_cmp}.

Definition cmp_le (y z : loc) : Prop := m_cmp z y = false.

(** Insertion behind the objects that do not come after [x]. *)
Fixpoint seq_insert (x : loc) (ks : list loc) : list loc :=
  match ks with
  | [] => [x]
  | y :: ks => if m_cmp x y then x :: y :: ks else y :: seq_insert x ks
  end.

Lemma seq_insert_split x ks :
  StronglySorted cmp_le ks →
  ∃ k1 k2, ks = k1 ++ k2 ∧ seq_insert x ks = k1 ++ x :: k2 ∧
    Forall (λ y, m_cmp x y = false) k1 ∧ Forall (λ y, m_cmp x y = true) k2.
Proof.
  induction 1 as [|y ks Hs IH Hy]; [by exists [], []|]. simpl. destruct (m_cmp x y) eqn:E.
  - exists [], (y :: ks). split_and!; try done. constructor; [done|].
    eapply Forall_impl; [exact Hy|]. intros z Hz. unfold cmp_le in Hz.
    destruct (m_cmp x z) eqn:E2; [done|]. by rewrite (cmp_negtrans x z y E Hz) in E2.
  - destruct IH as (k1 & k2 & -> & E1 & H1 & H2). exists (y :: k1), k2. rewrite E1. split_and!; try done.
    by constructor.
Qed.

Lemma cmp_le_trans x y z : cmp_le x y → cmp_le y z → cmp_le x z.
Proof.
  unfold cmp_le. intros H1 H2. destruct (m_cmp z x) eqn:E; [|done].
  by rewrite (cmp_negtrans z y x E H1) in H2.
Qed.

Lemma seq_insert_sorted x ks : StronglySorted cmp_le ks → StronglySorted cmp_le (seq_insert x ks).
Proof.
  induction 1 as [|y ks Hs IH Hy]; simpl; [by repeat constructor|].
  destruct (m_cmp x y) eqn:E.
  - assert (cmp_le x y) by by apply cmp_asym. constructor; [by constructor|]. constructor; [done|].
    eapply Forall_impl; [exact Hy|]. intros z. by apply cmp_le_trans.
  - constructor; [done|]. destruct (seq_insert_split x ks Hs) as (k1 & k2 & -> & -> & _).
    apply Forall_app in Hy as [Hy1 Hy2]. apply Forall_app. split; [done|]. by constructor.
Qed.

(** C29. [TypedAVLTree::insert] refines insertion into a sorted sequence: on a
    tree that holds [ks] in the comparator's order, whatever the stored
    heights, it terminates without touching a null pointer and leaves a tree
    that holds [ks] with the new object behind the ones it does not precede; no
    object outside the tree is touched. *)
Theorem avl_insert_correct (s : Avl.AVLTree) x ks :
  avl_seq s ks → StronglySorted cmp_le ks → x ∉ ks → is_Some (Avl.nodes s !! x) →
  ∃ s', Avl.insert m_cmp s x = Some s' ∧ avl_seq s' (seq_insert x ks) ∧
    StronglySorted cmp_le (seq_insert x ks) ∧
    untouched (x :: ks) (Avl.nodes s) (Avl.nodes s').
Proof.
  intros Hs Hsort Hx Hal. pose proof (seq_insert_sorted x ks Hsort).
  destruct (seq_insert_split x ks Hsort) as (k1 & k2 & -> & E & H1 & H2). rewrite E in *.
  destruct (avl_insert_seq s m_cmp x k1 k2 Hs Hx Hal H1 H2) as (s' & E' & H' & U').
  by exists s'.
Qed.

(** C30. [TypedAVLTree::remove] refines deletion from the sequence: it takes
    exactly the given object out, keeps the order of the others, terminates
    without touching a null pointer, and touches no object outside the tree;
    this holds also for trees with the wrong heights an earlier removal left. *)
Theorem avl_remove_correct (s : Avl.AVLTree) x ks :
  avl_seq s ks → x ∈ ks →
  ∃ s', Avl.remove s x = Some s' ∧ avl_seq s' (filter (λ y, y ≠ x) ks) ∧
    untouched ks (Avl.nodes s) (Avl.nodes s').
Proof.
  intros Hs (k1 & k2 & ->)%list_elem_of_split.
  destruct (avl_remove_seq s x k1 k2 Hs) as (s' & E & H & U). exists s'. split_and!; try done.
  enough (filter (λ y, y ≠ x) (k1 ++ x :: k2) = k1 ++ k2) as -> by done.
  destruct Hs as [_ Hnd]. by apply filter_ne_mid.
Qed.

End sorted.

(** ** Trees ordered by a number stored with each object *)

Section keyed.
Local Open Scope Z_scope.
Implicit Types (key : loc → Z) (ks : list loc).

Definition key_le key (x y : loc) : Prop := key x <= key y.

Lemma sorted_impl (R R' : loc → loc → Prop) ks :
  (∀ x y, x ∈ ks → y ∈ ks → R x y → R' x y) → StronglySorted R ks → StronglySorted R' ks.
Proof.
  intros HR Hs. induction Hs as [|x ks Hs IH Hx]; constructor.
  - apply IH. intros y z Hy Hz. apply HR; set_solver.
  - apply Forall_forall. intros y Hy. rewrite Forall_forall in Hx. apply HR; [set_solver..|]. by apply Hx.
Qed.

Lemma sorted_remove (R : loc → loc → Prop) k1 x k2 :
  StronglySorted R (k1 ++ x :: k2) → StronglySorted R (k1 ++ k2).
Proof.
  induction k1 as [|y k1 IH]; simpl; intros [Hs Hf]%StronglySorted_inv; [done|].
  constructor; [by apply IH|]. apply Forall_app in Hf as [H1 H2]. apply Forall_app. split; [done|].
  by apply Forall_cons in H2 as [_ ?].
Qed.

Lemma sorted_key_ext key key' ks :
  (∀ x, x ∈ ks → key' x = key x) → StronglySorted (key_le key) ks → StronglySorted (key_le key') ks.
Proof. intros H. apply sorted_impl. intros x y Hx Hy. unfold key_le. by rewrite !H. Qed.

Lemma sorted_head key x ks y : StronglySorted (key_le key) (x :: ks) → y ∈ x :: ks → key x <= key y.
Proof.
  intros [_ Hx]%StronglySorted_inv [->|Hy]%elem_of_cons; [lia|].
  rewrite Forall_forall in Hx. by apply Hx.
Qed.

(** Insertion keeps the order of the keys, behind equal ones. *)
Lemma avl_insert_keyed key (s : Avl.AVLTree) x ks :
  avl_seq s ks → StronglySorted (key_le key) ks → x ∉ ks → is_Some (Avl.nodes s !! x) →
  ∃ s' k1 k2, Avl.insert (λ y z, bool_decide (key y < key z)) s x = Some s' ∧ ks = k1 ++ k2 ∧
    avl_seq s' (k1 ++ x :: k2) ∧ StronglySorted (key_le key) (k1 ++ x :: k2) ∧
    Forall (λ y, key y <= key x) k1 ∧ Forall (λ y, key x < key y) k2 ∧
    dom (Avl.nodes s') = dom (Avl.nodes s).
Proof.
  intros Hs Hsort Hx Hal. set (cmp := λ y z, bool_decide (key y < key z)).
  assert (∀ y z, key_le key y z ↔ cmp_le cmp y z) as Hle.
  { intros y z. unfold key_le, cmp_le, cmp. rewrite bool_decide_eq_false. lia. }
  assert (StronglySorted (cmp_le cmp) ks) as Hsort' by (eapply sorted_impl; [intros; by apply Hle|done]).
  pose proof (seq_insert_sorted cmp x ks Hsort') as Hs2.
  destruct (seq_insert_split cmp x ks Hsort') as (k1 & k2 & -> & Eins & H1 & H2). rewrite Eins in Hs2.
  destruct (avl_insert_seq s cmp x k1 k2 Hs Hx Hal H1 H2) as (s' & E & Hs' & _).
  exists s', k1, k2. split_and!; try done.
  - eapply sorted_impl; [intros; by apply Hle|done].
  - eapply Forall_impl; [exact H1|]. intros y. unfold cmp. simpl. rewrite bool_decide_eq_false. lia.
  - eapply Forall_impl; [exact H2|]. intros y. unfold cmp. simpl. by rewrite bool_decide_eq_true.
  - by eapply avl_insert_dom.
Qed.

Lemma avl_remove_keyed key (s : Avl.AVLTree) k1 x k2 :
  avl_seq s (k1 ++ x :: k2) → StronglySorted (key_le key) (k1 ++ x :: k2) →
  ∃ s', Avl.remove s x = Some s' ∧ avl_seq s' (k1 ++ k2) ∧ StronglySorted (key_le key) (k1 ++ k2) ∧
    x ∉ k1 ++ k2 ∧ dom (Avl.nodes s') = dom (Avl.nodes s).
Proof.
  intros Hs Hsort. destruct (avl_remove_seq s x k1 k2 Hs) as (s' & E & Hs' & _). exists s'. split_and!; try done.
  - by eapply sorted_remove.
  - destruct Hs as [_ Hnd]. rewrite <-Permutation_middle in Hnd. by apply NoDup_cons in Hnd as [? _].
  - by eapply avl_remove_dom.
Qed.

(** The tree does not depend on the nodes outside. *)
Lemma avl_seq_frame (s : Avl.AVLTree) ks m :
  avl_seq s ks → (∀ x, x ∈ ks → m !! x = Avl.nodes s !! x) → avl_seq (Avl.mkAVL m (Avl.m_root s)) ks.
Proof.
  intros [(t & Hr & Hrt & Hk & Hp) Hnd] Hm. split; [|done]. exists t. split_and!; try done.
  eapply rep_ext; [|exact Hr]. intros x Hx. apply Hm. by rewrite <-Hk.
Qed.

End keyed.

(** ** An example: two objects in the tree, a third one outside *)

Definition ex_avl_tree : tree Z := T E 1%positive 2%Z (T E 2%positive 1%Z E).

Definition ex_three : Avl.AVLTree :=
  Avl.mkAVL (list_to_map [(1, mkNode None (Some 2) None 2%Z); (2, mkNode None None (Some 1) 1%Z);
                          (3, mkNode None None None 0%Z)]%positive) (Some 1%positive).

Lemma ex_three_seq : avl_seq ex_three [1; 2]%positive.
Proof.
  split; [|by apply (bool_decide_unpack _)]. exists ex_avl_tree. split_and!; try done; vm_compute; repeat split; done.
Qed.

Definition by_number (x y : loc) : bool := bool_decide (Z.pos x < Z.pos y)%Z.

Lemma avl_insert_correct_witness :
  ∃ s', Avl.insert by_number ex_three 3%positive = Some s' ∧ avl_seq s' [1; 2; 3]%positive.
Proof.
  destruct (avl_insert_correct by_number (StrictWeakOrder0 := key_order Z.pos) ex_three 3%positive
    [1; 2]%positive) as (s' & E1 & H & _).
  - exact ex_three_seq.
  - repeat constructor.
  - apply (bool_decide_unpack _). reflexivity.
  - vm_compute. by eexists.
  - exists s'. split; [exact E1|exact H].
Defined.

Lemma avl_remove_correct_witness :
  ∃ s', Avl.remove ex_three 1%positive = Some s' ∧ avl_seq s' [2]%positive.
Proof.
  destruct (avl_remove_correct ex_three 1%positive [1; 2]%positive) as (s' & E1 & H & _).
  - exact ex_three_seq.
  - apply (bool_decide_unpack _). reflexivity.
  - exists s'. split; [exact E1|exact H].
Defined.
