(* ===== verification/Dpc.v ===== *)
(** * Deferred procedure calls ([kernel/dpc.cc], [include/davix/dpc.h])

    Each CPU has a list of DPCs to run when the interrupt level drops.  The
    operations run with interrupts disabled on one CPU, so each is one step.  A
    routine acts on the DPC state and on a state [U] of its own; [schedule] is
    the scheduler's entry point.  Interrupts arrive only while a routine runs:
    what they do to the DPC state is part of what happens during that run. *)

From S2P Require Import Prelude.
From S2P Require Export LinkedList.

Record dpcs := mkDpcs {
  dpc_lists : lmem;                    (* the list head and the [m_listHead]s *)
  m_is_enqueued : gmap loc bool;
  irql_pending : bool;                 (* [irql_set_pending_dpc] *)
  pending_reschedule : bool;
}.

Section dpc_defs.
Context (globalDpcList : loc).
Context {U : Type} (m_routine : loc → dpcs * U → option (dpcs * U)).
Context (schedule : dpcs * U → option (dpcs * U)).

(** [DPC::init]; the routine and its arguments are the parameter [m_routine]. *)
Definition DPC_init (s : dpcs) (d : loc) : dpcs :=
  mkDpcs (dpc_lists s) (<[d := false]> (m_is_enqueued s)) (irql_pending s) (pending_reschedule s).

Definition kernel_dpc (s : dpcs) : dpcs :=
  mkDpcs (list_init (dpc_lists s) globalDpcList) (m_is_enqueued s) (irql_pending s) false.

Definition DPC_enqueue (s : dpcs) (d : loc) : option (bool * dpcs) :=
  e ← m_is_enqueued s !! d;
  if e : bool then Some (false, s)
  else
    lm ← list_push_back (dpc_lists s) globalDpcList d;
    Some (true, mkDpcs lm (m_is_enqueued s) true (pending_reschedule s)).

Definition set_pending_reschedule (s : dpcs) : dpcs :=
  mkDpcs (dpc_lists s) (m_is_enqueued s) true true.

Definition clear_pending_reschedule (s : dpcs) : dpcs :=
  mkDpcs (dpc_lists s) (m_is_enqueued s) (irql_pending s) false.

(** The [while] loop. *)
Fixpoint dispatch_loop (fuel : nat) (s : dpcs) (u : U) : option (dpcs * U) :=
  match fuel with
  | O => None
  | S fuel =>
    e ← list_empty (dpc_lists s) globalDpcList;
    if e : bool then Some (s, u)
    else
      '(d, lm) ← list_pop_front (dpc_lists s) globalDpcList;
      let s := mkDpcs lm (<[d := false]> (m_is_enqueued s)) (irql_pending s) (pending_reschedule s) in
      '(s, u) ← m_routine d (s, u);
      dispatch_loop fuel s u
  end.

Definition dispatch_DPCs (fuel : nat) (s : dpcs) (u : U) : option (dpcs * U) :=
  '(s, u) ← dispatch_loop fuel s u;
  if pending_reschedule s then schedule (s, u) else Some (s, u).

End dpc_defs.

(** ** First in, first out *)

Section dpc.
Context (globalDpcList : loc).
Implicit Types (s : dpcs) (ds : list loc).

(** The DPCs [ds] are queued, in this order. *)
Definition queued s ds : Prop := is_list (dpc_lists s) globalDpcList ds.

(** [d] is ready to be queued. *)
Definition dpc_idle s ds (d : loc) : Prop :=
  d ∉ globalDpcList :: ds ∧ is_Some (dpc_lists s !! d) ∧ m_is_enqueued s !! d = Some false.

Lemma DPC_enqueue_spec s ds d :
  queued s ds → dpc_idle s ds d →
  ∃ s', DPC_enqueue globalDpcList s d = Some (true, s') ∧ queued s' (ds ++ [d]) ∧
    irql_pending s' = true ∧ m_is_enqueued s' = m_is_enqueued s ∧
    pending_reschedule s' = pending_reschedule s ∧ dom (dpc_lists s') = dom (dpc_lists s).
Proof.
  intros Hq (Hd & Hal & He). unfold DPC_enqueue. rewrite He. cbn [mbind option_bind].
  destruct (push_back_spec (dpc_lists s) globalDpcList ds d Hq) as (lm & -> & Hl & [_ Hdom]); [done..|].
  eexists. split; [done|]. by split_and!.
Qed.

(** *** What happens while routines run

    A routine, and an interrupt that arrives during its run, enqueues DPCs and
    asks for a reschedule. *)
Inductive dpc_action := Enqueue (d : loc) | Reschedule.

Fixpoint perform s (acts : list dpc_action) : option dpcs :=
  match acts with
  | [] => Some s
  | Enqueue d :: acts => '(_, s) ← DPC_enqueue globalDpcList s d; perform s acts
  | Reschedule :: acts => perform (set_pending_reschedule s) acts
  end.

Context {U : Type} (f : loc → U → U * list dpc_action).

(** The routine of [d] in the state [u], with the interrupts during its run. *)
Definition routine_of (d : loc) (x : dpcs * U) : option (dpcs * U) :=
  let '(u, acts) := f d x.2 in s ← perform x.1 acts; Some (s, u).

(** *** The abstract queue *)

Definition enqueues (acts : list dpc_action) : list loc :=
  acts ≫= (λ a, match a with Enqueue d => [d] | Reschedule => [] end).

Definition reschedules (acts : list dpc_action) : bool :=
  existsb (λ a, match a with Enqueue _ => false | Reschedule => true end) acts.

(** The routines run one after the other: the final state, the DPCs enqueued
    meanwhile in order, and whether a reschedule was asked for. *)
Fixpoint run_all (ds : list loc) (u : U) : U * list loc * bool :=
  match ds with
  | [] => (u, [], false)
  | d :: ds =>
    let '(u, acts) := f d u in
    let '(u, es, r) := run_all ds u in
    (u, enqueues acts ++ es, reschedules acts || r)
  end.

(** [drains ds u order]: with [ds] queued, the routines run in the [order] and
    the queue is empty then.  A DPC is enqueued only while it is not queued. *)
Inductive drains : list loc → U → list loc → Prop :=
| drains_nil u : drains [] u []
| drains_cons d ds u u' acts order :
    f d u = (u', acts) → NoDup (ds ++ enqueues acts) →
    drains (ds ++ enqueues acts) u' order → drains (d :: ds) u (d :: order).

(** The order is that of the queue: what was queued, then what was enqueued. *)
Lemma drains_order ds u order : drains ds u order → order = ds ++ (run_all order u).1.2.
Proof.
  induction 1 as [|d ds u u' acts order Hf _ _ IH]; [done|]. cbn [run_all]. rewrite Hf.
  destruct (run_all order u') as [[u'' es] r]. simpl in *. by rewrite IH, <- app_assoc at 1.
Qed.

(** A DPC that was initialised. *)
Definition dpc_known s (d : loc) : Prop :=
  d ≠ globalDpcList ∧ is_Some (dpc_lists s !! d) ∧ m_is_enqueued s !! d = Some false.

Lemma perform_spec acts : ∀ s ds,
  queued s ds → NoDup (ds ++ enqueues acts) → (∀ d, d ∈ enqueues acts → dpc_known s d) →
  ∃ s', perform s acts = Some s' ∧ queued s' (ds ++ enqueues acts) ∧
    pending_reschedule s' = pending_reschedule s || reschedules acts ∧ (∀ d, dpc_known s d → dpc_known s' d).
Proof.
  induction acts as [|[d|] acts IH]; intros s ds Hq Hnd Hk; cbn [perform].
  - exists s. cbn. by rewrite app_nil_r, orb_false_r.
  - change (enqueues (Enqueue d :: acts)) with (d :: enqueues acts) in *.
    destruct (Hk d) as (Hh & Hal & He); [set_solver|].
    apply NoDup_app in Hnd as Hnd'. destruct Hnd' as (_ & Hdisj & _).
    destruct (DPC_enqueue_spec s ds d Hq) as (s1 & -> & Hq1 & _ & Hm1 & Hp1 & Hdom1).
    { split_and!; [|done|done]. intros [->|Hin]%elem_of_cons; [done|]. by apply (Hdisj d Hin); left. }
    cbn [mbind option_bind].
    assert (∀ d', dpc_known s d' → dpc_known s1 d') as Hk1.
    { intros d' (? & ? & ?). split_and!; [done| |by rewrite Hm1]. apply elem_of_dom. rewrite Hdom1. by apply elem_of_dom. }
    destruct (IH s1 (ds ++ [d])) as (s2 & -> & Hq2 & Hp2 & Hk2); [done|by rewrite <- app_assoc| |].
    { intros d' Hd'. apply Hk1, Hk. by right. }
    exists s2. split_and!; [done|by rewrite <- app_assoc in Hq2|by rewrite Hp2, Hp1|auto].
  - change (enqueues (Reschedule :: acts)) with (enqueues acts) in *.
    destruct (IH (set_pending_reschedule s) ds) as (s2 & -> & Hq2 & Hp2 & Hk2); [done..|].
    exists s2. split_and!; [done|done| |auto]. rewrite Hp2. simpl. by rewrite orb_true_r.
Qed.

Lemma dispatch_loop_spec ds u order : drains ds u order → ∀ s,
  queued s ds → (∀ d u d', d' ∈ enqueues (f d u).2 → dpc_known s d') →
  ∃ s', dispatch_loop globalDpcList routine_of (S (length order)) s u = Some (s', (run_all order u).1.1) ∧
    queued s' [] ∧ pending_reschedule s' = pending_reschedule s || (run_all order u).2.
Proof.
  induction 1 as [u|d ds u u' acts order Hf Hnd _ IH]; intros s Hq Hk; cbn [dispatch_loop length];
    rewrite (empty_spec _ _ _ Hq); cbn [mbind option_bind].
  - rewrite bool_decide_eq_true_2 by done. exists s. by rewrite orb_false_r.
  - rewrite bool_decide_eq_false_2 by done.
    destruct (pop_front_spec _ _ _ _ Hq) as (lm & -> & Hl & Hlm). cbn [mbind option_bind].
    set (s1 := mkDpcs lm (<[d := false]> (m_is_enqueued s)) (irql_pending s) (pending_reschedule s)).
    assert (∀ d', dpc_known s d' → dpc_known s1 d') as Hk1.
    { intros d' (? & ? & ?). destruct Hlm as [_ Hdom]. split_and!; [done| |].
      - apply elem_of_dom. simpl. rewrite Hdom. by apply elem_of_dom.
      - simpl. destruct (decide (d' = d)) as [->|]; [by rewrite lookup_insert_eq|by rewrite lookup_insert_ne]. }
    assert (∀ d', d' ∈ enqueues acts → dpc_known s1 d') as Hka.
    { intros d' Hd'. apply Hk1, (Hk d u). by rewrite Hf. }
    destruct (perform_spec acts s1 ds Hl Hnd Hka) as (s2 & E2 & Hq2 & Hp2 & Hk2).
    assert (routine_of d (s1, u) = Some (s2, u')) as -> by (unfold routine_of; simpl; by rewrite Hf, E2).
    cbn [mbind option_bind].
    destruct (IH s2 Hq2) as (s3 & E3 & Hq3 & Hp3); [eauto|].
    exists s3. cbn [run_all]. rewrite Hf. destruct (run_all order u') as [[u'' es] r]. split_and!; [exact E3|done|].
    rewrite Hp3, Hp2. simpl. by rewrite orb_assoc.
Qed.

End dpc.

(** C33. An initialised DPC that is not queued is put at the end of the list and
    the interrupt level is told.  [dispatch_DPCs] then runs the DPCs that are
    queued, followed by those that routines and interrupts enqueue meanwhile, in
    the order in which they were enqueued and once for each time they were; the
    list is empty afterwards, and the scheduler is entered exactly if a
    reschedule was pending or is asked for meanwhile.  This holds for routines
    and interrupts that stop enqueueing and that enqueue no DPC while it is still
    queued (as nothing sets [m_is_enqueued], that would corrupt the list). *)
Theorem dispatch_DPCs_fifo (globalDpcList : loc) {U : Type} (f : loc → U → U * list dpc_action)
    (schedule : dpcs * U → option (dpcs * U)) s ds u order :
  queued globalDpcList s ds → (∀ d u d', d' ∈ enqueues (f d u).2 → dpc_known globalDpcList s d') →
  drains f ds u order →
  let '(u', es, r) := run_all f order u in
  (∀ d, dpc_known globalDpcList s d → d ∉ ds →
   ∃ s', DPC_enqueue globalDpcList s d = Some (true, s') ∧ queued globalDpcList s' (ds ++ [d]) ∧
     irql_pending s' = true) ∧
  order = ds ++ es ∧
  ∃ s', queued globalDpcList s' [] ∧
    dispatch_DPCs globalDpcList (routine_of globalDpcList f) schedule (S (length order)) s u =
      if pending_reschedule s || r then schedule (s', u') else Some (s', u').
Proof.
  intros Hq Hk Hd. pose proof (drains_order f ds u order Hd) as Ho.
  destruct (dispatch_loop_spec globalDpcList f ds u order Hd s Hq Hk) as (s' & E & Hq' & Hp).
  destruct (run_all f order u) as [[u' es] r]. cbn [fst snd] in *. split_and!; [|done|].
  - intros d (Hh & Hal & He) Hin. destruct (DPC_enqueue_spec globalDpcList s ds d Hq) as (s1 & ? & ? & ? & _); [|eauto].
    split_and!; [|done|done]. by rewrite not_elem_of_cons.
  - exists s'. split; [done|]. unfold dispatch_DPCs. rewrite E. cbn [mbind option_bind]. by rewrite Hp.
Qed.

(** Evaluate list operations on the cells of a memory. *)
Ltac cell_simpl :=
  repeat (cbn [mbind option_bind fmap option_fmap option_map next prev dpc_lists m_is_enqueued];
          first [rewrite lookup_insert_eq | rewrite lookup_insert_ne by congruence
                | match goal with H : ?m !! ?k = _ |- context [?m !! ?k] => rewrite H end]);
  cbn [mbind option_bind fmap option_fmap option_map next prev dpc_lists m_is_enqueued].

(** Defect: nothing ever sets [m_is_enqueued], so [DPC::enqueue] of a DPC that
    is already queued does not return false: it returns true and pushes the
    list node a second time.  The dispatch loop then runs the routine and, the
    list still leading to the removed node, follows the poisoned links. *)
Theorem dpc_double_enqueue (globalDpcList : loc) {U : Type}
    (m_routine : loc → dpcs * U → option (dpcs * U)) (f : loc → U → U) s d u fuel :
  (∀ d s u, m_routine d (s, u) = Some (s, f d u)) →
  queued globalDpcList s [] → dpc_idle globalDpcList s [] d →
  dpc_lists s !! POISON_NEXT = None →
  ∃ s1 s2, DPC_enqueue globalDpcList s d = Some (true, s1) ∧
    DPC_enqueue globalDpcList s1 d = Some (true, s2) ∧
    dispatch_loop globalDpcList m_routine fuel s2 u = None.
Proof.
  intros Hr [_ Hq] (Hd & [n Hn] & He) Hpoison. apply not_elem_of_cons in Hd as [Hdh _].
  set (h := globalDpcList) in *. set (m := dpc_lists s) in *.
  assert (m !! h = Some (mkListHead h h)) as Hh.
  { simpl in Hq. unfold get_next, get_prev in Hq. destruct (m !! h) as [[nx pv]|]; simpl in Hq; [|naive_solver].
    destruct Hq as ([= ->] & [= ->] & _). done. }
  assert (POISON_NEXT ≠ h ∧ POISON_NEXT ≠ d) as [Hp1 Hp2] by (split; intros <-; congruence).
  assert (∃ s1 s2, DPC_enqueue h s d = Some (true, s1) ∧ DPC_enqueue h s1 d = Some (true, s2) ∧
            dpc_lists s2 !! h = Some (mkListHead d d) ∧ dpc_lists s2 !! d = Some (mkListHead d d) ∧
            dpc_lists s2 !! POISON_NEXT = None) as (s1 & s2 & E1 & E2 & Mh & Md & Mp).
  { unfold DPC_enqueue, list_push_back, get_prev, set_prev, set_next. fold m. rewrite He, Hh.
    cell_simpl. eexists _, _. split; [done|]. cell_simpl.
    split; [done|]. cell_simpl. done. }
  exists s1, s2. split; [done|]. split; [done|]. clear E1 E2.
  destruct fuel as [|fuel]; [done|]. cbn [dispatch_loop]. unfold list_empty, get_next.
  cell_simpl. rewrite bool_decide_eq_false_2 by congruence.
  assert (∃ m3, list_pop_front (dpc_lists s2) h = Some (d, m3) ∧ m3 !! h = Some (mkListHead d d) ∧
            m3 !! d = Some (mkListHead POISON_NEXT POISON_PREV) ∧ m3 !! POISON_NEXT = None)
    as (m3 & -> & Nh & Nd & Np).
  { unfold list_pop_front, list_remove, get_next, get_prev, set_prev, set_next. cell_simpl. eexists. split; [done|]. cell_simpl. done. }
  cell_simpl. rewrite Hr. cell_simpl.
  destruct fuel as [|fuel]; [done|]. cbn [dispatch_loop dpc_lists]. unfold list_empty, get_next.
  cell_simpl. rewrite bool_decide_eq_false_2 by congruence.
  assert (list_pop_front m3 h = None) as ->; [|done].
  unfold list_pop_front, list_remove, get_next, get_prev, set_prev. by cell_simpl.
Qed.

(** ** An example: the list head at 1, the DPCs 2 (queued) and 3; then both
    idle *)

Definition ex_dpcs : dpcs :=
  mkDpcs (list_to_map [(1, mkListHead 2 2); (2, mkListHead 1 1); (3, mkListHead 3 3)]%positive)
    (list_to_map [(2, false); (3, false)]%positive) false false.

Definition ex_dpcs_idle : dpcs :=
  mkDpcs (list_to_map [(1, mkListHead 1 1); (2, mkListHead 2 2)]%positive)
    (list_to_map [(2, false)]%positive) false false.

Definition log_routine (d : loc) (x : dpcs * list loc) : option (dpcs * list loc) :=
  Some (x.1, x.2 ++ [d]).

(** DPC 2 enqueues DPC 3 and asks for a reschedule; DPC 3, the first time it
    runs, enqueues itself again. *)
Definition ex_routine (d : loc) (u : list loc) : list loc * list dpc_action :=
  (u ++ [d],
   if decide (d = 2%positive) then [Enqueue 3; Reschedule]
   else if decide (3%positive ∈ u) then [] else [Enqueue 3]).

Lemma dispatch_DPCs_fifo_witness :
  ∃ s', queued 1 s' [] ∧
    dispatch_DPCs 1 (routine_of 1 ex_routine) Some 4 ex_dpcs [] = Some (s', [2; 3; 3]%positive).
Proof.
  destruct (dispatch_DPCs_fifo 1 ex_routine Some ex_dpcs [2]%positive [] [2; 3; 3]%positive)
    as (_ & _ & s' & Hq & E).
  - split; [apply (bool_decide_unpack _); reflexivity|]. vm_compute. repeat split.
  - intros d u d' Hin. assert (d' = 3%positive) as ->.
    { unfold ex_routine in Hin. simpl in Hin. repeat case_decide; simpl in Hin; set_solver. }
    split; [done|]. split; [by eexists|done].
  - repeat (eapply drains_cons; [reflexivity|apply (bool_decide_unpack _); reflexivity|cbn]). apply drains_nil.
  - exists s'. split; [exact Hq|exact E].
Defined.

Lemma dpc_double_enqueue_witness :
  ∃ s1 s2, DPC_enqueue 1 ex_dpcs_idle 2 = Some (true, s1) ∧ DPC_enqueue 1 s1 2 = Some (true, s2) ∧
    dispatch_loop 1 log_routine 10 s2 [] = None.
Proof.
  apply (dpc_double_enqueue 1 log_routine (λ d u, u ++ [d])).
  - reflexivity.
  - split; [apply (bool_decide_unpack _); reflexivity|]. vm_compute. repeat split.
  - split; [apply (bool_decide_unpack _); reflexivity|]. split; [vm_compute; by eexists|reflexivity].
  - reflexivity.
Defined.
