(* ===== verification/KTimer.v ===== *)
(** * Kernel timers ([kernel/ktimer.cc], [include/davix/ktimer.h])

    The timers of one CPU: an AVL tree ordered by expiry, the time
    [next_expiry] from which the timer interrupt queues the timer DPC, and the
    DPC itself, which fires the timers that are due. *)

From Stdlib Require Import Sorting.Sorted.
From S2P Require Import Prelude Dpc.
From S2P Require Export AvlOps.

Section ktimer_defs.
Local Open Scope Z_scope.

Definition expire_never : Z := 2 ^ 64 - 1.

(** The fields of a [KTimer] besides its tree node and its callback. *)
Record KTimer := mkKTimer { on_queue : bool; expiry_ns : Z }.

(** The queue of a CPU.  [reads] counts the readings of the clock; [fired]
    records the timers fired, with their expiry and the time, for the
    specification. *)
Record KTimerQueue := mkKtq {
  kt_tree : Avl.AVLTree;
  next_expiry : Z;
  timers : gmap loc KTimer;
  reads : nat;
  fired : list (loc * Z * Z);
}.

Context (globalDpcList timer_dpc : loc).
(** [ns_since_boot]: the value of each reading. *)
Context (ns_since_boot : nat → Z).
(** [timer->callback_fn (timer, timer->callback_arg)] *)
Context (callback_fn : loc → dpcs * KTimerQueue → option (dpcs * KTimerQueue)).

Definition with_tree (q : KTimerQueue) (t : Avl.AVLTree) : KTimerQueue :=
  mkKtq t (next_expiry q) (timers q) (reads q) (fired q).
Definition with_next (q : KTimerQueue) (e : Z) : KTimerQueue :=
  mkKtq (kt_tree q) e (timers q) (reads q) (fired q).
Definition with_timer (q : KTimerQueue) (x : loc) (t : KTimer) : KTimerQueue :=
  mkKtq (kt_tree q) (next_expiry q) (<[x := t]> (timers q)) (reads q) (fired q).
Definition clock_read (q : KTimerQueue) : Z * KTimerQueue :=
  (ns_since_boot (reads q),
   mkKtq (kt_tree q) (next_expiry q) (timers q) (S (reads q)) (fired q)).
Definition record_fired (q : KTimerQueue) (x : loc) (e now : Z) : KTimerQueue :=
  mkKtq (kt_tree q) (next_expiry q) (timers q) (reads q) (fired q ++ [(x, e, now)]).

Definition expiry_of (q : KTimerQueue) (x : loc) : Z := default 0 (expiry_ns <$> timers q !! x).

Definition KTimerCmp (q : KTimerQueue) (lhs rhs : loc) : bool :=
  bool_decide (expiry_of q lhs < expiry_of q rhs).

Definition kernel_ktimer (s : dpcs) (q : KTimerQueue) : dpcs * KTimerQueue :=
  (DPC_init s timer_dpc, mkKtq (Avl.init (kt_tree q)) expire_never (timers q) (reads q) (fired q)).

Definition ktimer_handle_timer_interrupt (s : dpcs) (q : KTimerQueue) : option (dpcs * KTimerQueue) :=
  let next := next_expiry q in
  let '(now, q) := clock_read q in
  if decide (now >= next) then
    '(_, s) ← DPC_enqueue globalDpcList s timer_dpc;
    Some (s, with_next q expire_never)
  else Some (s, q).

(** [if (t < queue->next_expiry) queue->next_expiry = t;] *)
Definition lower_next (q : KTimerQueue) (t : Z) : KTimerQueue :=
  if decide (t < next_expiry q) then with_next q t else q.

Fixpoint timer_dpc_loop (fuel : nat) (now : Z) (s : dpcs) (q : KTimerQueue)
    : option (dpcs * KTimerQueue) :=
  match fuel with
  | O => None
  | S fuel =>
    timer ← Avl.first (kt_tree q);
    match timer with
    | None => Some (s, q)
    | Some x =>
      tm ← timers q !! x;
      let t := expiry_ns tm in
      let '(now, q) := if decide (now < t) then clock_read q else (now, q) in
      if decide (now < t) then Some (s, lower_next q t)
      else
        tree ← Avl.remove (kt_tree q) x;
        let q := with_timer (with_tree q tree) x (mkKTimer false t) in
        '(s, q) ← callback_fn x (s, record_fired q x t now);
        timer_dpc_loop fuel now s q
    end
  end.

Definition timer_dpc_func (fuel : nat) (s : dpcs) (q : KTimerQueue) : option (dpcs * KTimerQueue) :=
  let '(now, q) := clock_read q in timer_dpc_loop fuel now s q.

(** The callback and its argument are the parameter [callback_fn]. *)
Definition KTimer_init (q : KTimerQueue) (x : loc) : KTimerQueue :=
  with_timer q x (mkKTimer false (expiry_of q x)).

Definition KTimer_enqueue (q : KTimerQueue) (x : loc) (t : Z) : option (bool * KTimerQueue) :=
  tm ← timers q !! x;
  if on_queue tm then Some (false, q)
  else
    let q := with_timer q x (mkKTimer true t) in
    let q := lower_next q t in
    tree ← Avl.insert (KTimerCmp q) (kt_tree q) x;
    Some (true, with_tree q tree).

Definition KTimer_remove (q : KTimerQueue) (x : loc) : option (bool * KTimerQueue) :=
  tm ← timers q !! x;
  if negb (on_queue tm) then Some (false, q)
  else
    let q := with_timer q x (mkKTimer false (expiry_ns tm)) in
    tree ← Avl.remove (kt_tree q) x;
    let q := with_tree q tree in
    if decide (expiry_ns tm = next_expiry q) then
      first ← Avl.first (kt_tree q);
      match first with
      | Some f => fm ← timers q !! f; Some (true, with_next q (expiry_ns fm))
      | None => Some (true, with_next q expire_never)
      end
    else Some (true, q).

End ktimer_defs.

(** ** The invariant *)

Section ktimer.
Local Open Scope Z_scope.
Implicit Types (q : KTimerQueue) (ks : list loc).

Abbreviation earlier q := (key_le (expiry_of q)).

(** [ks] are the timers on the queue, in the order in which they fire. *)
Record kq_inv q ks : Prop := {
  ki_seq : avl_seq (kt_tree q) ks;
  ki_sorted : StronglySorted (earlier q) ks;
  ki_timer x tm : timers q !! x = Some tm →
    (on_queue tm = true ↔ x ∈ ks) ∧ x ∈ dom (Avl.nodes (kt_tree q));
  ki_known x : x ∈ ks → is_Some (timers q !! x);
}.

(** The next interrupt from the first expiry on queues the DPC. *)
Definition armed q ks : Prop := ∀ x, x ∈ ks → next_expiry q <= expiry_of q x.

Lemma expiry_with_timer q x tm y :
  expiry_of (with_timer q x tm) y = if decide (y = x) then expiry_ns tm else expiry_of q y.
Proof.
  unfold expiry_of. simpl. case_decide as H; [by rewrite H, lookup_insert_eq|]. by rewrite lookup_insert_ne.
Qed.

Lemma lower_next_spec q t :
  next_expiry (lower_next q t) = Z.min (next_expiry q) t ∧ timers (lower_next q t) = timers q ∧
  kt_tree (lower_next q t) = kt_tree q ∧ fired (lower_next q t) = fired q ∧ reads (lower_next q t) = reads q.
Proof. unfold lower_next. case_decide; simpl; split_and!; done || lia. Qed.

Lemma expiry_timers q q' : timers q' = timers q → ∀ x, expiry_of q' x = expiry_of q x.
Proof. intros H x. unfold expiry_of. by rewrite H. Qed.

(** [KTimer::enqueue]. *)
Lemma KTimer_enqueue_spec q ks x tm t :
  kq_inv q ks → timers q !! x = Some tm →
  (on_queue tm = true → KTimer_enqueue q x t = Some (false, q)) ∧
  (on_queue tm = false →
   ∃ q' k1 k2, KTimer_enqueue q x t = Some (true, q') ∧ ks = k1 ++ k2 ∧ kq_inv q' (k1 ++ x :: k2) ∧
     Forall (λ y, expiry_of q y <= t) k1 ∧ Forall (λ y, t < expiry_of q y) k2 ∧
     (∀ y, expiry_of q' y = if decide (y = x) then t else expiry_of q y) ∧
     next_expiry q' = Z.min (next_expiry q) t ∧ (armed q ks → armed q' (k1 ++ x :: k2)) ∧
     timers q' = <[x := mkKTimer true t]> (timers q)).
Proof.
  intros [Hseq Hsort Htm Hkn] Hx. unfold KTimer_enqueue. rewrite Hx. cbn [mbind option_bind].
  split; intros Hq; rewrite Hq; [done|]. destruct (Htm x tm Hx) as [Hon Hdom].
  assert (x ∉ ks) as Hxk by (rewrite <-Hon, Hq; done).
  set (q1 := lower_next (with_timer q x (mkKTimer true t)) t).
  destruct (lower_next_spec (with_timer q x (mkKTimer true t)) t) as (Hn1 & Ht1 & Htr1 & _). fold q1 in Hn1, Ht1, Htr1.
  assert (∀ y, expiry_of q1 y = if decide (y = x) then t else expiry_of q y) as He1.
  { intros y. rewrite (expiry_timers _ _ Ht1), expiry_with_timer. done. }
  destruct (avl_insert_keyed (expiry_of q1) (kt_tree q1) x ks) as (tr & k1 & k2 & E & -> & Hseq' & Hs2 & H1 & H2 & Hd).
  { by rewrite Htr1. }
  { eapply sorted_key_ext; [|exact Hsort]. intros y Hy. by rewrite He1, decide_False by congruence. }
  { done. } { rewrite Htr1. by apply elem_of_dom. }
  unfold KTimerCmp. rewrite E. cbn [mbind option_bind].
  exists (with_tree q1 tr), k1, k2. split_and!; try done.
  - split; simpl; try done.
    + intros y tm'. rewrite Ht1. simpl. intros [[<- <-]|[Hne Hy]]%lookup_insert_Some.
      * simpl. rewrite Hd, Htr1. split; [|done]. split; [set_solver|done].
      * rewrite Hd, Htr1. destruct (Htm y tm' Hy) as [Hy1 Hy2]. split; [|done]. rewrite Hy1. set_solver.
    + intros y Hy. rewrite Ht1. simpl. destruct (decide (y = x)) as [->|]; [by rewrite lookup_insert_eq|].
      rewrite lookup_insert_ne by done. apply Hkn. set_solver.
  - apply Forall_forall. intros y Hy. rewrite Forall_forall in H1. specialize (H1 y Hy).
    simpl in H1. by rewrite !He1, (decide_True (P := x = x)), (decide_False (P := y = x)) in H1 by set_solver.
  - apply Forall_forall. intros y Hy. rewrite Forall_forall in H2. specialize (H2 y Hy).
    simpl in H2. by rewrite !He1, (decide_True (P := x = x)), (decide_False (P := y = x)) in H2 by set_solver.
  - intros Harm y Hy. change (expiry_of (with_tree q1 tr) y) with (expiry_of q1 y). rewrite He1. simpl. rewrite Hn1.
    simpl. case_decide; [lia|]. assert (y ∈ k1 ++ k2) as Hy' by set_solver. specialize (Harm y Hy'). lia.
Qed.

(** Taking a timer out of the queue. *)
Lemma kq_take q k1 x k2 e :
  kq_inv q (k1 ++ x :: k2) →
  ∃ tr, Avl.remove (kt_tree q) x = Some tr ∧
    kq_inv (with_timer (with_tree q tr) x (mkKTimer false e)) (k1 ++ k2).
Proof.
  intros [Hseq Hsort Htm Hkn].
  destruct (avl_remove_keyed (expiry_of q) (kt_tree q) k1 x k2 Hseq Hsort) as (tr & E & Hseq' & Hs & Hx & Hd).
  exists tr. split; [done|]. split; simpl; try done.
  - eapply sorted_key_ext; [|exact Hs]. intros y Hy. rewrite expiry_with_timer, decide_False by congruence. done.
  - intros y tm'. intros [[<- <-]|[Hne Hy]]%lookup_insert_Some; simpl; rewrite Hd.
    + destruct (Hkn x) as [tm Hxtm]; [set_solver|]. split; [|apply (Htm x tm Hxtm)]. split; [done|]. done.
    + destruct (Htm y tm' Hy) as [Hy1 Hy2]. split; [|done]. rewrite Hy1. set_solver.
  - intros y Hy. rewrite lookup_insert_ne by congruence. apply Hkn. set_solver.
Qed.

(** [KTimer::remove]. *)
Lemma KTimer_remove_spec q ks x tm :
  kq_inv q ks → timers q !! x = Some tm →
  (on_queue tm = false → KTimer_remove q x = Some (false, q)) ∧
  (on_queue tm = true →
   ∃ q', KTimer_remove q x = Some (true, q') ∧ kq_inv q' (filter (λ y, y ≠ x) ks) ∧
     (∀ y, expiry_of q' y = expiry_of q y) ∧
     (armed q ks → armed q' (filter (λ y, y ≠ x) ks)) ∧
     timers q' = <[x := mkKTimer false (expiry_ns tm)]> (timers q)).
Proof.
  intros Hinv Hx. unfold KTimer_remove. rewrite Hx. cbn [mbind option_bind].
  split; intros Hq; rewrite Hq; [done|]. cbn [negb].
  assert (x ∈ ks) as (k1 & k2 & ->)%list_elem_of_split by by apply (ki_timer _ _ Hinv x tm Hx).
  destruct (kq_take q k1 x k2 (expiry_ns tm) Hinv) as (tr & E & Hinv').
  cbn [kt_tree with_timer]. rewrite E. cbn [mbind option_bind].
  set (q1 := with_timer (with_tree q tr) x (mkKTimer false (expiry_ns tm))) in *.
  change (with_tree (with_timer q x (mkKTimer false (expiry_ns tm))) tr) with q1.
  rewrite (filter_ne_mid x k1 k2) by apply (ki_seq _ _ Hinv).
  assert (∀ y, expiry_of q1 y = expiry_of q y) as He.
  { intros y. unfold q1. rewrite expiry_with_timer. case_decide; [|done]. subst y. unfold expiry_of. by rewrite Hx. }
  assert (∀ e, kq_inv (with_next q1 e) (k1 ++ k2)) as Hnext by (intros e; destruct Hinv'; by split).
  destruct (decide (expiry_ns tm = next_expiry q1)) as [Heq|Hne].
  - rewrite (avl_first_seq _ _ (ki_seq _ _ Hinv')). cbn [mbind option_bind].
    destruct (head (k1 ++ k2)) as [f|] eqn:Eh.
    + destruct (k1 ++ k2) as [|f' ks] eqn:Eks; [done|]. injection Eh as ->.
      destruct (ki_known _ _ Hinv' f) as [fm Hf]; [set_solver|]. rewrite Hf. cbn [mbind option_bind].
      eexists. split_and!; [done|by apply Hnext|done| |done]. intros _ y Hy. simpl.
      pose proof (sorted_head (expiry_of q1) f ks y (ki_sorted _ _ Hinv') Hy) as Hle.
      assert (expiry_of q1 f = expiry_ns fm) as Hfe by (unfold expiry_of; by rewrite Hf).
      change (expiry_of (with_next q1 (expiry_ns fm)) y) with (expiry_of q1 y). lia.
    + destruct (k1 ++ k2) as [|f ks]; [|done]. eexists. split_and!; [done|by apply Hnext|done| |done].
      intros _ y Hy. by apply elem_of_nil in Hy.
  - eexists. split_and!; [done|done|done| |done]. intros Harm y Hy. rewrite He. apply Harm. set_solver.
Qed.

(** C32. [KTimer::enqueue] returns false and does nothing if the timer is queued;
    otherwise it stores the expiry, puts the timer into the queue behind all
    timers that expire no later, lowers [next_expiry] to the new expiry, and
    keeps the queue armed.  [KTimer::remove] returns false and does nothing if
    the timer is not queued; otherwise it takes exactly that timer out, leaves
    the expiry of the others, and keeps the queue armed. *)
Theorem KTimer_queue_correct q ks x tm t :
  kq_inv q ks → timers q !! x = Some tm →
  (if on_queue tm then
     KTimer_enqueue q x t = Some (false, q) ∧
     ∃ q', KTimer_remove q x = Some (true, q') ∧ kq_inv q' (filter (λ y, y ≠ x) ks) ∧
       (∀ y, expiry_of q' y = expiry_of q y) ∧ (armed q ks → armed q' (filter (λ y, y ≠ x) ks))
   else
     KTimer_remove q x = Some (false, q) ∧
     ∃ q' k1 k2, KTimer_enqueue q x t = Some (true, q') ∧ ks = k1 ++ k2 ∧ kq_inv q' (k1 ++ x :: k2) ∧
       Forall (λ y, expiry_of q y <= t) k1 ∧ Forall (λ y, t < expiry_of q y) k2 ∧
       (∀ y, expiry_of q' y = if decide (y = x) then t else expiry_of q y) ∧
       next_expiry q' = Z.min (next_expiry q) t ∧ (armed q ks → armed q' (k1 ++ x :: k2))).
Proof.
  intros Hinv Hx. destruct (KTimer_enqueue_spec q ks x tm t Hinv Hx) as [He1 He2].
  destruct (KTimer_remove_spec q ks x tm Hinv Hx) as [Hr1 Hr2].
  destruct (on_queue tm); split; [by apply He1|..|by apply Hr1|].
  - destruct (Hr2 eq_refl) as (q' & H). exists q'. naive_solver.
  - destruct (He2 eq_refl) as (q' & k1 & k2 & H). exists q', k1, k2. naive_solver.
Qed.

(** The timer interrupt never misses a timer: with the queue armed and the
    DPC idle, it queues the timer DPC whenever some queued timer is due at the
    time it reads, and otherwise changes nothing but, at most, queue the DPC
    early. *)
Theorem ktimer_interrupt_correct (globalDpcList timer_dpc : loc) ns_since_boot s ds q ks :
  kq_inv q ks → armed q ks → queued globalDpcList s ds → dpc_idle globalDpcList s ds timer_dpc →
  let now := ns_since_boot (reads q) in
  ∃ s' q', ktimer_handle_timer_interrupt globalDpcList timer_dpc ns_since_boot s q = Some (s', q') ∧
    kq_inv q' ks ∧
    ((queued globalDpcList s' (ds ++ [timer_dpc]) ∧ irql_pending s' = true) ∨
     (s' = s ∧ armed q' ks ∧ ∀ x, x ∈ ks → now < expiry_of q x)).
Proof.
  intros Hinv Harm Hq Hd now. unfold ktimer_handle_timer_interrupt. cbn [clock_read]. fold now.
  assert (∀ e r, kq_inv (mkKtq (kt_tree q) e (timers q) r (fired q)) ks) as Hsame
    by (intros e r; destruct Hinv; by split).
  case_decide as Hnow.
  - destruct (DPC_enqueue_spec _ s ds timer_dpc Hq Hd) as (s' & -> & Hq' & Hi & _). cbn [mbind option_bind].
    eexists s', _. split; [done|]. split; [by apply Hsame|]. left. done.
  - eexists s, _. split; [done|]. split; [by apply Hsame|]. right. split_and!; [done|exact Harm|].
    intros x Hx. specialize (Harm x Hx). lia.
Qed.

(** ** The timer DPC *)

Section dpc_func.
Context (ns_since_boot : nat → Z) (callback_fn : loc → dpcs * KTimerQueue → option (dpcs * KTimerQueue)).
(** The clock stays below [T] while the DPC runs. *)
Context (T : Z) (Hclock : ∀ i, ns_since_boot i <= T).

(** The number of queued timers due before [T]. *)
Definition due q ks : nat := length (filter (λ x, expiry_of q x <= T) ks).

(** A callback may change the queue, but queues no timer that is due before
    [T] in place of those it finds. *)
Context (Hcallback : ∀ x s q ks, kq_inv q ks → ∃ s' q' ks', callback_fn x (s, q) = Some (s', q') ∧
  kq_inv q' ks' ∧ (due q' ks' ≤ due q ks)%nat ∧ fired q' = fired q ∧ (reads q ≤ reads q')%nat).

Lemma clock_read_inv q ks : kq_inv q ks → kq_inv (clock_read ns_since_boot q).2 ks.
Proof. intros []. by split. Qed.

(** What the DPC leaves: the queue armed, every due timer fired. *)
Definition dpc_done q0 (q : KTimerQueue) ks : Prop :=
  kq_inv q ks ∧ armed q ks ∧
  (∃ l, fired q = fired q0 ++ l ∧ Forall (λ '(x, e, now), e <= now) l) ∧
  (ks = [] ∨ ∃ i, (reads q0 ≤ i)%nat ∧ ∀ x, x ∈ ks → ns_since_boot i < expiry_of q x).

Lemma timer_dpc_loop_correct fuel : ∀ now s q ks,
  kq_inv q ks → now <= T → (due q ks < fuel)%nat →
  ∃ s' q' ks', timer_dpc_loop ns_since_boot callback_fn fuel now s q = Some (s', q') ∧ dpc_done q q' ks'.
Proof.
  induction fuel as [|fuel IH]; intros now s q ks Hinv Hnow Hf; [lia|]. cbn [timer_dpc_loop].
  rewrite (avl_first_seq _ _ (ki_seq _ _ Hinv)). cbn [mbind option_bind].
  destruct ks as [|x ks]; cbn [head].
  { exists s, q, []. split; [done|]. split_and!; [done| | |by left].
    - intros x Hx. by apply elem_of_nil in Hx.
    - exists []. by rewrite app_nil_r. }
  destruct (ki_known _ _ Hinv x) as [tm Hx]; [set_solver|]. rewrite Hx. cbn [mbind option_bind].
  assert (expiry_of q x = expiry_ns tm) as He by (unfold expiry_of; by rewrite Hx).
  set (p := if decide (now < expiry_ns tm) then clock_read ns_since_boot q else (now, q)).
  assert (p.1 <= T ∧ kq_inv p.2 (x :: ks) ∧ timers p.2 = timers q ∧ fired p.2 = fired q ∧
          next_expiry p.2 = next_expiry q ∧ kt_tree p.2 = kt_tree q ∧ (reads q ≤ reads p.2)%nat ∧
          (p.1 < expiry_ns tm → p.1 = ns_since_boot (reads q)))
    as (Hp1 & Hp2 & Hp3 & Hp4 & Hp5 & Hp6 & Hp7 & Hp8).
  { unfold p. case_decide; simpl; split_and!; try done; try lia. by apply clock_read_inv. }
  destruct p as [now' q1]. simpl in *. destruct (decide (now' < expiry_ns tm)) as [Hlt|Hge].
  - destruct (lower_next_spec q1 (expiry_ns tm)) as (Hn & Ht & Htr & Hfi & Hre).
    exists s, (lower_next q1 (expiry_ns tm)), (x :: ks). split; [done|].
    assert (∀ y, expiry_of (lower_next q1 (expiry_ns tm)) y = expiry_of q y) as Hex.
    { intros y. apply expiry_timers. congruence. }
    assert (∀ y, y ∈ x :: ks → expiry_ns tm <= expiry_of q y) as Hmin.
    { intros y Hy. rewrite <-He. apply (sorted_head (expiry_of q) x ks y (ki_sorted _ _ Hinv) Hy). }
    split_and!.
    + destruct Hp2 as [H1 H2 H3 H4]. split; rewrite ?Ht, ?Htr; try done.
      eapply sorted_key_ext; [|exact H2]. intros y _. by rewrite Hex, (expiry_timers _ _ Hp3).
    + intros y Hy. rewrite Hex, Hn. specialize (Hmin y Hy). lia.
    + exists []. rewrite app_nil_r. split; [congruence|done].
    + right. exists (reads q). split; [done|]. intros y Hy. rewrite Hex. specialize (Hmin y Hy). specialize (Hp8 Hlt). lia.
  - destruct (kq_take q1 [] x ks (expiry_ns tm) Hp2) as (tr & Hrem & Hinv').
    rewrite Hrem. cbn [mbind option_bind].
    set (q2 := with_timer (with_tree q1 tr) x (mkKTimer false (expiry_ns tm))) in *.
    assert (kq_inv (record_fired q2 x (expiry_ns tm) now') ks) as Hinv2 by (destruct Hinv'; by split).
    destruct (Hcallback x s _ ks Hinv2) as (s3 & q3 & ks3 & -> & Hinv3 & Hdue3 & Hfired3 & Hreads3).
    cbn [mbind option_bind].
    assert (due q (x :: ks) = S (due (record_fired q2 x (expiry_ns tm) now') ks)) as Hdue.
    { unfold due. rewrite filter_cons, decide_True by lia. cbn [length]. f_equal. f_equal.
      apply list_filter_iff. intros y. unfold q2.
      change (expiry_of (record_fired (with_timer (with_tree q1 tr) x (mkKTimer false (expiry_ns tm))) x (expiry_ns tm) now') y)
        with (expiry_of (with_timer q1 x (mkKTimer false (expiry_ns tm))) y).
      rewrite expiry_with_timer. case_decide as Hy; [subst y; by rewrite He|]. by rewrite (expiry_timers _ _ Hp3). }
    destruct (IH now' s3 q3 ks3 Hinv3 Hp1 ltac:(lia)) as (s' & q' & ks' & E & Hd1 & Hd2 & (l & Hl1 & Hl2) & Hd4).
    exists s', q', ks'. split; [done|]. split_and!; try done.
    + exists ((x, expiry_ns tm, now') :: l). rewrite Hl1, Hfired3. simpl. rewrite Hp4, <-app_assoc. split; [done|].
      constructor; [lia|done].
    + destruct Hd4 as [|(i & Hi & H)]; [by left|right]. exists i. split; [simpl in Hreads3; lia|done].
Qed.

(** C31. The timer DPC terminates, fires only timers that are due, fires all of
    them (every timer left expires after the last reading of the clock), and
    leaves the queue armed; whatever the callbacks do to the queue, as long as
    they queue no further due timer. *)
Theorem timer_dpc_correct s q ks :
  kq_inv q ks →
  ∃ s' q' ks', timer_dpc_func ns_since_boot callback_fn (S (due q ks)) s q = Some (s', q') ∧
    kq_inv q' ks' ∧ armed q' ks' ∧
    (∃ l, fired q' = fired q ++ l ∧ Forall (λ '(x, e, now), e <= now) l) ∧
    (ks' = [] ∨ ∃ i, (reads q ≤ i)%nat ∧ ∀ x, x ∈ ks' → ns_since_boot i < expiry_of q' x).
Proof.
  intros Hinv. unfold timer_dpc_func. cbn [clock_read].
  destruct (timer_dpc_loop_correct (S (due q ks)) (ns_since_boot (reads q)) s
    (clock_read ns_since_boot q).2 ks) as (s' & q' & ks' & E & H1 & H2 & H3 & H4).
  - by apply clock_read_inv.
  - apply Hclock.
  - change (due (clock_read ns_since_boot q).2 ks) with (due q ks). lia.
  - exists s', q', ks'. split_and!; try done. destruct H4 as [|(i & Hi & H)]; [by left|right].
    exists i. split; [simpl in Hi; lia|done].
Qed.

End dpc_func.

End ktimer.

(** ** An example

    Timers 1 and 2 are queued for the times 5 and 9, timer 3 is not; the DPC
    list is at 10 and the timer DPC at 11; the clock stands at 7. *)

Local Open Scope Z_scope.

Definition ex_queue : KTimerQueue :=
  mkKtq ex_three 5
    (list_to_map [(1%positive, mkKTimer true 5); (2%positive, mkKTimer true 9); (3%positive, mkKTimer false 0)])
    0 [].

Definition ex_kt_dpcs : dpcs :=
  mkDpcs (list_to_map [(10, mkListHead 10 10); (11, mkListHead 11 11)]%positive)
    (list_to_map [(11%positive, false)]) false false.

Lemma ex_queue_inv : kq_inv ex_queue [1; 2]%positive.
Proof.
  split.
  - exact ex_three_seq.
  - repeat constructor; vm_compute; discriminate.
  - intros x tm Hx. unfold ex_queue in Hx. cbn [timers list_to_map foldr uncurry fst snd] in Hx.
    apply lookup_insert_Some in Hx as [[<- <-]|[N1 Hx]];
      [|apply lookup_insert_Some in Hx as [[<- <-]|[N2 Hx]];
        [|apply lookup_insert_Some in Hx as [[<- <-]|[N3 Hx]]; [|by rewrite lookup_empty in Hx]]];
      (split; [cbn [on_queue]; rewrite !elem_of_cons, elem_of_nil; naive_solver|];
       apply elem_of_dom; vm_compute; by eexists).
  - intros x Hx. rewrite !elem_of_cons, elem_of_nil in Hx.
    destruct Hx as [->|[->|[]]]; vm_compute; by eexists.
Qed.

Lemma ex_queue_armed : armed ex_queue [1; 2]%positive.
Proof.
  intros x Hx. rewrite !elem_of_cons, elem_of_nil in Hx.
  destruct Hx as [->|[->|[]]]; vm_compute; discriminate.
Qed.

Lemma KTimer_queue_correct_witness :
  (KTimer_enqueue ex_queue 1 3 = Some (false, ex_queue) ∧
   ∃ q', KTimer_remove ex_queue 1 = Some (true, q') ∧ kq_inv q' [2]%positive ∧ armed q' [2]%positive) ∧
  KTimer_remove ex_queue 3 = Some (false, ex_queue) ∧
  ∃ q' k1 k2, KTimer_enqueue ex_queue 3 6 = Some (true, q') ∧ k1 ++ k2 = [1; 2]%positive ∧
    kq_inv q' (k1 ++ 3%positive :: k2) ∧ next_expiry q' = 5 ∧ armed q' (k1 ++ 3%positive :: k2).
Proof.
  split.
  - destruct (KTimer_queue_correct ex_queue [1; 2]%positive 1 (mkKTimer true 5) 3 ex_queue_inv
      ltac:(reflexivity)) as (E1 & q' & E & H1 & _ & H3).
    split; [exact E1|]. exists q'. split; [exact E|]. split; [exact H1|]. apply H3. exact ex_queue_armed.
  - destruct (KTimer_queue_correct ex_queue [1; 2]%positive 3 (mkKTimer false 0) 6 ex_queue_inv
      ltac:(reflexivity)) as (E1 & q' & k1 & k2 & E & Ek & H1 & _ & _ & _ & H2 & H3).
    split; [exact E1|]. exists q', k1, k2. split; [exact E|]. split; [symmetry; exact Ek|].
    split; [exact H1|]. split; [exact H2|]. apply H3. exact ex_queue_armed.
Defined.

Lemma ktimer_interrupt_correct_witness :
  ∃ s' q', ktimer_handle_timer_interrupt 10 11 (λ _, 7) ex_kt_dpcs ex_queue = Some (s', q') ∧
    queued 10 s' [11]%positive.
Proof.
  destruct (ktimer_interrupt_correct 10 11 (λ _, 7) ex_kt_dpcs [] ex_queue [1; 2]%positive)
    as (s' & q' & E & _ & [[H _]|(_ & _ & H)]).
  - exact ex_queue_inv.
  - exact ex_queue_armed.
  - split; [apply (bool_decide_unpack _); reflexivity|]. vm_compute. repeat split.
  - split; [apply (bool_decide_unpack _); reflexivity|]. split; [vm_compute; by eexists|reflexivity].
  - exists s', q'. split; [exact E|exact H].
  - exfalso. assert (1%positive ∈ [1; 2]%positive) as H1 by set_solver.
    specialize (H 1%positive H1). vm_compute in H. discriminate H.
Defined.

Lemma timer_dpc_correct_witness :
  ∃ s' q' ks', timer_dpc_func (λ _, 7) (λ _ x, Some x) 2 ex_kt_dpcs ex_queue = Some (s', q') ∧
    kq_inv q' ks' ∧ armed q' ks' ∧ fired q' = [(1%positive, 5, 7)].
Proof.
  destruct (timer_dpc_correct (λ _, 7) (λ _ x, Some x) 7) with (s := ex_kt_dpcs) (q := ex_queue)
    (ks := [1; 2]%positive) as (s' & q' & ks' & E & H1 & H2 & _).
  - intros _. lia.
  - intros x s q ks Hinv. exists s, q, ks. split_and!; [reflexivity|exact Hinv|lia|reflexivity|lia].
  - exact ex_queue_inv.
  - exists s', q', ks'. split; [exact E|]. split; [exact H1|]. split; [exact H2|].
    vm_compute in E. injection E as _ <-. reflexivity.
Defined.

(** What follows from the defect of [DPC::enqueue]: the DPC is queued at time 7
    for timer 1; before it runs, timer 3 is queued for the time 6; the next
    interrupt queues the DPC again and dispatching follows poisoned links. *)
Example late_timer_breaks_dispatch :
  ('(s1, q1) ← ktimer_handle_timer_interrupt 10 11 (λ _, 7) ex_kt_dpcs ex_queue;
   '(_, q2) ← KTimer_enqueue q1 3 6;
   '(s3, q3) ← ktimer_handle_timer_interrupt 10 11 (λ _, 7) s1 q2;
   Some (dispatch_loop 10 (λ _ x, timer_dpc_func (λ _, 7) (λ _ x, Some x) 5 x.1 x.2) 5 s3 q3)) = Some None.
Proof. vm_compute. reflexivity. Qed.
