(* ===== verification/Timeout.v ===== *)
(** * Sleeping with a time-out ([kernel/sched/timeout.cc])

    A task that sleeps puts an entry on its stack into a tree of its CPU,
    ordered by expiry; one kernel timer of the CPU is set for the first entry
    and its callback wakes the tasks whose entries are due.  An entry is taken
    out by the callback, which then sets [removed], or by its owner when it is
    woken by something else, perhaps on another CPU.

    The stack frames are explicit, so that a pointer to the entry of a function
    that has returned is an error ([None]).  One step of the callback is one of
    its critical sections, cut where it publishes [removed], which the owner
    reads without the lock. *)

From Stdlib Require Import Sorting.Sorted.
From S2P Require Import Prelude.
From S2P Require Export KTimer.

Section timeout_defs.
Local Open Scope Z_scope.

Record sched_timeout_struct := mkEntry {
  expiry : Z; sleeper : positive; ticket : Z; removed : bool }.

(** Where the owner of an entry is: in [schedule], or behind the look at
    [removed] that found it false. *)
Inductive owner_pc := OAsleep | OLock.

Record frame := mkFrame { entry : sched_timeout_struct; owner_at : owner_pc }.

(** Where the callback is: not running; called; at the top of its loop again;
    past the store to [removed] with the lock held; before [sched_wake]. *)
Inductive handler_pc :=
| HIdle
| HEnter
| HAgain
| HRemoved (x : loc)
| HWake (tsk : positive) (tk : Z).

(** [timeout_cpu_data] of a CPU with the kernel timers of the CPU and the stack
    frames; [woken] lists the calls of [sched_wake]; [expired] records the
    entries the callback took, with their expiry and the clock. *)
Record timeout_cpu_data := mkTd {
  td_tree : Avl.AVLTree;
  timer_expiry : Z;
  ktimers : KTimerQueue;
  frames : gmap loc frame;
  handler : handler_pc;
  task_states : gmap positive Z;
  woken : list (positive * Z);
  expired : list (loc * Z * Z);
}.

Context (timer : loc) (ns_since_boot : nat → Z).

Definition set_tree (s : timeout_cpu_data) (t : Avl.AVLTree) : timeout_cpu_data :=
  mkTd t (timer_expiry s) (ktimers s) (frames s) (handler s) (task_states s) (woken s) (expired s).
Definition set_timer_expiry (s : timeout_cpu_data) (e : Z) : timeout_cpu_data :=
  mkTd (td_tree s) e (ktimers s) (frames s) (handler s) (task_states s) (woken s) (expired s).
Definition set_ktimers (s : timeout_cpu_data) (q : KTimerQueue) : timeout_cpu_data :=
  mkTd (td_tree s) (timer_expiry s) q (frames s) (handler s) (task_states s) (woken s) (expired s).
Definition set_frame (s : timeout_cpu_data) (x : loc) (f : frame) : timeout_cpu_data :=
  mkTd (td_tree s) (timer_expiry s) (ktimers s) (<[x := f]> (frames s)) (handler s) (task_states s)
    (woken s) (expired s).
Definition set_handler (s : timeout_cpu_data) (h : handler_pc) : timeout_cpu_data :=
  mkTd (td_tree s) (timer_expiry s) (ktimers s) (frames s) h (task_states s) (woken s) (expired s).
Definition set_current_state (s : timeout_cpu_data) (me : positive) (state : Z) : timeout_cpu_data :=
  mkTd (td_tree s) (timer_expiry s) (ktimers s) (frames s) (handler s) (<[me := state]> (task_states s))
    (woken s) (expired s).
Definition record_wake (s : timeout_cpu_data) (tsk : positive) (tk : Z) : timeout_cpu_data :=
  mkTd (td_tree s) (timer_expiry s) (ktimers s) (frames s) (handler s) (task_states s)
    (woken s ++ [(tsk, tk)]) (expired s).
Definition record_expired (s : timeout_cpu_data) (x : loc) (e now : Z) : timeout_cpu_data :=
  mkTd (td_tree s) (timer_expiry s) (ktimers s) (frames s) (handler s) (task_states s) (woken s)
    (expired s ++ [(x, e, now)]).

(** Entering and leaving a function with an entry at [x]; the node of a new
    entry holds whatever was on the stack. *)
Definition push_frame (s : timeout_cpu_data) (x : loc) (n : node Z) (e : sched_timeout_struct)
    : timeout_cpu_data :=
  set_frame (set_tree s (Avl.mkAVL (<[x := n]> (Avl.nodes (td_tree s))) (Avl.m_root (td_tree s)))) x
    (mkFrame e OAsleep).
Definition pop_frame (s : timeout_cpu_data) (x : loc) : timeout_cpu_data :=
  mkTd (Avl.mkAVL (delete x (Avl.nodes (td_tree s))) (Avl.m_root (td_tree s))) (timer_expiry s)
    (ktimers s) (delete x (frames s)) (handler s) (task_states s) (woken s) (expired s).

Definition expiry_at (fs : gmap loc frame) (x : loc) : Z := default 0 (expiry ∘ entry <$> fs !! x).

Definition sched_timer_comparator (fs : gmap loc frame) (lhs rhs : loc) : bool :=
  bool_decide (expiry_at fs lhs < expiry_at fs rhs).

Definition timeout_init (s : timeout_cpu_data) : timeout_cpu_data :=
  set_timer_expiry
    (set_tree (set_ktimers s (KTimer_init (ktimers s) timer)) (Avl.init (td_tree s)))
    expire_never.

(** The body of the callback's loop, with the lock held. *)
Definition handler_iterate (s : timeout_cpu_data) : option timeout_cpu_data :=
  if Avl.empty (td_tree s) then Some (set_handler (set_timer_expiry s expire_never) HIdle)
  else
    first ← Avl.first (td_tree s);
    x ← first;
    f ← frames s !! x;
    let e := expiry (entry f) in
    let '(now, q) := clock_read ns_since_boot (ktimers s) in
    let s := set_ktimers s q in
    if decide (e > now) then
      s ← (if decide (e < expire_never) then
             '(_, q) ← KTimer_enqueue (ktimers s) timer e; Some (set_ktimers s q)
           else Some s);
      Some (set_handler (set_timer_expiry s e) HIdle)
    else
      tree ← Avl.remove (td_tree s) x;
      let entry' := mkEntry e (sleeper (entry f)) (ticket (entry f)) true in
      let s := set_frame (set_tree s tree) x (mkFrame entry' (owner_at f)) in
      Some (set_handler (record_expired s x e now) (HRemoved x)).

Definition handler_step (s : timeout_cpu_data) : option timeout_cpu_data :=
  match handler s with
  | HIdle => Some s
  | HEnter => handler_iterate (set_timer_expiry s 0)
  | HAgain => handler_iterate s
  | HRemoved x =>
    f ← frames s !! x;
    Some (set_handler s (HWake (sleeper (entry f)) (ticket (entry f))))
  | HWake tsk tk => Some (set_handler (record_wake s tsk tk) HAgain)
  end.

(** The callback run to its end, with nothing in between. *)
Fixpoint handle_timer_event (fuel : nat) (s : timeout_cpu_data) : option timeout_cpu_data :=
  match fuel with
  | O => None
  | S fuel =>
    match handler s with
    | HIdle => Some s
    | _ => s ← handler_step s; handle_timer_event fuel s
    end
  end.

(** [if (expiry < td->timer_expiry)] in [sched_timeout_ticket]. *)
Definition sched_timeout_arm (s : timeout_cpu_data) (expiry : Z) : option timeout_cpu_data :=
  if decide (expiry < timer_expiry s) then
    s ← (if decide (timer_expiry s ≠ expire_never) then
           '(_, q) ← KTimer_remove (ktimers s) timer; Some (set_ktimers s q)
         else Some s);
    '(_, q) ← KTimer_enqueue (ktimers s) timer expiry;
    Some (set_timer_expiry (set_ktimers s q) expiry)
  else Some s.

(** [sched_timeout_ticket] up to the call of [schedule]. *)
Definition sched_timeout_enter (s : timeout_cpu_data) (x : loc) (n : node Z) (me : positive)
    (expiry state ticket : Z) : option timeout_cpu_data :=
  let s := push_frame s x n (mkEntry expiry me ticket false) in
  tree ← Avl.insert (sched_timer_comparator (frames s)) (td_tree s) x;
  let s := set_tree s tree in
  s ← sched_timeout_arm s expiry;
  Some (if decide (state ≠ 0) then set_current_state s me state else s).

(** After [schedule]: the look at [removed] without the lock. *)
Definition sched_timeout_load (s : timeout_cpu_data) (x : loc) : option timeout_cpu_data :=
  f ← frames s !! x;
  if removed (entry f) then Some (pop_frame s x)
  else Some (set_frame s x (mkFrame (entry f) OLock)).

(** The rest of [sched_timeout_ticket]. *)
Definition sched_timeout_tail (s : timeout_cpu_data) (x : loc) : option timeout_cpu_data :=
  f ← frames s !! x;
  s ← (if negb (removed (entry f)) then
         tree ← Avl.remove (td_tree s) x; Some (set_tree s tree)
       else Some s);
  Some (pop_frame s x).

(** The timer DPC takes the timer off the queue and calls the callback. *)
Definition timer_fires (s : timeout_cpu_data) : option timeout_cpu_data :=
  tm ← timers (ktimers s) !! timer;
  if on_queue tm then
    tree ← Avl.remove (kt_tree (ktimers s)) timer;
    let q := with_timer (with_tree (ktimers s) tree) timer (mkKTimer false (expiry_ns tm)) in
    Some (set_handler (set_ktimers s q) HEnter)
  else None.

End timeout_defs.

(** ** The invariant *)

Section timeout.
Local Open Scope Z_scope.
Context (timer : loc) (ns_since_boot : nat → Z).
Implicit Types (s : timeout_cpu_data) (ks : list loc) (fs : gmap loc frame) (t : Avl.AVLTree).

(** The tree holds exactly the entries of live frames that are not marked
    removed, in the order of their expiry. *)
Record sleepers_inv t fs ks : Prop := {
  sl_seq : avl_seq t ks;
  sl_dom : dom (Avl.nodes t) = dom fs;
  sl_sorted : StronglySorted (key_le (expiry_at fs)) ks;
  sl_removed x f : fs !! x = Some f → (removed (entry f) = false ↔ x ∈ ks);
  sl_known x : x ∈ ks → is_Some (fs !! x);
}.

Lemma expiry_at_lookup fs x f : fs !! x = Some f → expiry_at fs x = expiry (entry f).
Proof. intros H. unfold expiry_at. by rewrite H. Qed.

Lemma expiry_at_insert fs x f y :
  expiry_at (<[x := f]> fs) y = if decide (y = x) then expiry (entry f) else expiry_at fs y.
Proof.
  unfold expiry_at. case_decide as H; [by rewrite H, lookup_insert_eq|]. by rewrite lookup_insert_ne.
Qed.

Lemma expiry_at_same fs x f f' y :
  fs !! x = Some f → expiry (entry f') = expiry (entry f) → expiry_at (<[x := f']> fs) y = expiry_at fs y.
Proof.
  intros Hx Hf. rewrite expiry_at_insert. case_decide; [|done]. subst y. by rewrite Hf, (expiry_at_lookup _ _ _ Hx).
Qed.

Lemma sleepers_push t fs ks x n e :
  sleepers_inv t fs ks → fs !! x = None → removed e = false →
  let fs' := <[x := mkFrame e OAsleep]> fs in
  ∃ t' k1 k2, Avl.insert (sched_timer_comparator fs') (Avl.mkAVL (<[x := n]> (Avl.nodes t)) (Avl.m_root t)) x = Some t' ∧
    ks = k1 ++ k2 ∧ sleepers_inv t' fs' (k1 ++ x :: k2) ∧
    Forall (λ y, expiry_at fs y <= expiry e) k1 ∧ Forall (λ y, expiry e < expiry_at fs y) k2.
Proof.
  intros [Hseq Hdom Hsort Hrem Hkn] Hx He fs'.
  assert (x ∉ ks) as Hxk by (intros [f Hf]%Hkn; congruence).
  assert (∀ y, y ∈ ks → expiry_at fs' y = expiry_at fs y) as Hexp.
  { intros y Hy. unfold fs'. rewrite expiry_at_insert, decide_False by congruence. done. }
  destruct (avl_insert_keyed (expiry_at fs') (Avl.mkAVL (<[x := n]> (Avl.nodes t)) (Avl.m_root t)) x ks)
    as (t' & k1 & k2 & E & -> & Hseq' & Hs' & H1 & H2 & Hd).
  { apply (avl_seq_frame t); [done|]. intros y Hy. rewrite lookup_insert_ne by congruence. done. }
  { eapply sorted_key_ext; [exact Hexp|done]. }
  { done. } { simpl. by rewrite lookup_insert_eq. }
  assert (expiry_at fs' x = expiry e) as Hex by (unfold fs'; by rewrite expiry_at_insert, decide_True).
  exists t', k1, k2. split_and!; try done.
  - split; try done.
    + rewrite Hd. simpl. unfold fs'. rewrite !dom_insert_L. by rewrite Hdom.
    + intros y f. unfold fs'. intros [[<- <-]|[Hne Hy]]%lookup_insert_Some; [set_solver|].
      rewrite (Hrem y f Hy). set_solver.
    + intros y Hy. unfold fs'. destruct (decide (y = x)) as [->|]; [by rewrite lookup_insert_eq|].
      rewrite lookup_insert_ne by done. apply Hkn. set_solver.
  - apply Forall_forall. intros y Hy. rewrite Forall_forall in H1. specialize (H1 y Hy). simpl in H1.
    rewrite Hex, Hexp in H1 by set_solver. done.
  - apply Forall_forall. intros y Hy. rewrite Forall_forall in H2. specialize (H2 y Hy). simpl in H2.
    rewrite Hex, Hexp in H2 by set_solver. done.
Qed.

Lemma sleepers_take t fs k1 x k2 f :
  sleepers_inv t fs (k1 ++ x :: k2) → fs !! x = Some f →
  ∃ t', Avl.remove t x = Some t' ∧ x ∉ k1 ++ k2 ∧
    ∀ f', expiry (entry f') = expiry (entry f) → removed (entry f') = true →
      sleepers_inv t' (<[x := f']> fs) (k1 ++ k2).
Proof.
  intros [Hseq Hdom Hsort Hrem Hkn] Hf.
  destruct (avl_remove_keyed (expiry_at fs) t k1 x k2 Hseq Hsort) as (t' & E & Hseq' & Hs' & Hx & Hd).
  exists t'. split_and!; try done. intros f' He Hr. split; try done.
  - rewrite Hd, dom_insert_lookup_L by (by eexists). done.
  - eapply sorted_key_ext; [|exact Hs']. intros y _. by eapply expiry_at_same.
  - intros y g [[<- <-]|[Hne Hy]]%lookup_insert_Some; [rewrite Hr; naive_solver|].
    rewrite (Hrem y g Hy). set_solver.
  - intros y Hy. rewrite lookup_insert_ne by congruence. apply Hkn. set_solver.
Qed.

Lemma sleepers_pop t fs ks x :
  sleepers_inv t fs ks → x ∉ ks →
  sleepers_inv (Avl.mkAVL (delete x (Avl.nodes t)) (Avl.m_root t)) (delete x fs) ks.
Proof.
  intros [Hseq Hdom Hsort Hrem Hkn] Hx. split.
  - apply avl_seq_frame; [done|]. intros y Hy. rewrite lookup_delete_ne by congruence. done.
  - simpl. rewrite !dom_delete_L. by rewrite Hdom.
  - eapply sorted_key_ext; [|exact Hsort]. intros y Hy. unfold expiry_at.
    rewrite lookup_delete_ne by congruence. done.
  - intros y f [Hne Hy]%lookup_delete_Some. by apply Hrem.
  - intros y Hy. rewrite lookup_delete_ne by congruence. by apply Hkn.
Qed.

(** [expire_never] stands for no timer. *)
Definition timer_set_for (tm : KTimer) (e : Z) : Prop :=
  on_queue tm = bool_decide (e ≠ expire_never) ∧ (on_queue tm = true → expiry_ns tm = e).

(** The kernel timer is set for the earliest entry, or earlier, unless the
    callback runs. *)
Definition timer_ok (h : handler_pc) (e : Z) (q : KTimerQueue) fs ks : Prop :=
  (∃ kks, kq_inv q kks) ∧ ∃ tm, timers q !! timer = Some tm ∧
  match h with
  | HIdle => timer_set_for tm e ∧ e <= expire_never ∧ ∀ x, x ∈ ks → e <= expiry_at fs x
  | _ => on_queue tm = false
  end.

(** A removed entry's task is about to be woken, or was woken. *)
Definition wake_issued (h : handler_pc) (w : list (positive * Z)) (x : loc) (e : sched_timeout_struct) : Prop :=
  h = HRemoved x ∨ h = HWake (sleeper e) (ticket e) ∨ (sleeper e, ticket e) ∈ w.

Record td_inv s ks : Prop := {
  tv_sleepers : sleepers_inv (td_tree s) (frames s) ks;
  tv_timer : timer_ok (handler s) (timer_expiry s) (ktimers s) (frames s) ks;
  tv_width x f : frames s !! x = Some f → expiry (entry f) <= expire_never;
  tv_wake x f : frames s !! x = Some f → removed (entry f) = true →
    wake_issued (handler s) (woken s) x (entry f);
  tv_due : Forall (λ '(x, e, now), e <= now) (expired s);
}.

Lemma timer_set q tm e :
  (∃ kks, kq_inv q kks) → timers q !! timer = Some tm → on_queue tm = false →
  ∃ b q', KTimer_enqueue q timer e = Some (b, q') ∧ (∃ kks, kq_inv q' kks) ∧
    timers q' !! timer = Some (mkKTimer true e).
Proof.
  intros [kks Hk] Htm Hq. destruct (proj2 (KTimer_enqueue_spec q kks timer tm e Hk Htm) Hq)
    as (q' & k1 & k2 & E & _ & Hk' & _ & _ & _ & _ & _ & Ht).
  exists true, q'. split_and!; [done|by eexists|]. by rewrite Ht, lookup_insert_eq.
Qed.

Lemma timer_clear q tm :
  (∃ kks, kq_inv q kks) → timers q !! timer = Some tm → on_queue tm = true →
  ∃ b q', KTimer_remove q timer = Some (b, q') ∧ (∃ kks, kq_inv q' kks) ∧
    timers q' !! timer = Some (mkKTimer false (expiry_ns tm)).
Proof.
  intros [kks Hk] Htm Hq. destruct (proj2 (KTimer_remove_spec q kks timer tm Hk Htm) Hq)
    as (q' & E & Hk' & _ & _ & Ht).
  exists true, q'. split_and!; [done|by eexists|]. by rewrite Ht, lookup_insert_eq.
Qed.

(** ** The operations keep it *)

Definition new_frame (e tk : Z) (me : positive) : frame := mkFrame (mkEntry e me tk false) OAsleep.

Lemma arm_spec s tm e :
  (∃ kks, kq_inv (ktimers s) kks) → timers (ktimers s) !! timer = Some tm →
  timer_set_for tm (timer_expiry s) → timer_expiry s <= expire_never →
  ∃ q' tm', sched_timeout_arm timer s e =
      Some (set_timer_expiry (set_ktimers s q') (Z.min (timer_expiry s) e)) ∧
    (∃ kks, kq_inv q' kks) ∧ timers q' !! timer = Some tm' ∧ timer_set_for tm' (Z.min (timer_expiry s) e).
Proof.
  intros Hk Htm [Hon Hexp] Hmax. unfold sched_timeout_arm. destruct (decide (e < timer_expiry s)) as [Hlt|Hlt].
  2:{ rewrite Z.min_l by lia. exists (ktimers s), tm. split; [by destruct s|]. done. }
  rewrite Z.min_r by lia.
  assert (∃ q1 tm1, (if decide (timer_expiry s ≠ expire_never) then
         '(_, q) ← KTimer_remove (ktimers s) timer; Some (set_ktimers s q) else Some s) = Some (set_ktimers s q1) ∧
      (∃ kks, kq_inv q1 kks) ∧ timers q1 !! timer = Some tm1 ∧ on_queue tm1 = false)
    as (q1 & tm1 & -> & Hk1 & Htm1 & Hon1).
  { destruct (decide (timer_expiry s ≠ expire_never)) as [Hne|Hne].
    - rewrite bool_decide_true in Hon by done.
      destruct (timer_clear (ktimers s) tm Hk Htm Hon) as (b & q1 & -> & Hk1 & Htm1).
      exists q1, (mkKTimer false (expiry_ns tm)). done.
    - rewrite bool_decide_false in Hon by done. exists (ktimers s), tm. split; [by destruct s|done]. }
  cbn [mbind option_bind]. destruct (timer_set q1 tm1 e Hk1 Htm1 Hon1) as (b & q2 & E2 & Hk2 & Htm2).
  change (ktimers (set_ktimers s q1)) with q1. rewrite E2. cbn [mbind option_bind].
  exists q2, (mkKTimer true e). split_and!; try done. split; [|done]. simpl. by rewrite bool_decide_true by (intros ->; lia).
Qed.

Lemma enter_spec s ks x n me e state tk :
  td_inv s ks → handler s = HIdle → frames s !! x = None → e <= expire_never →
  ∃ s' k1 k2, sched_timeout_enter timer s x n me e state tk = Some s' ∧ ks = k1 ++ k2 ∧
    td_inv s' (k1 ++ x :: k2) ∧ handler s' = HIdle ∧ timer_expiry s' = Z.min (timer_expiry s) e ∧
    frames s' = <[x := new_frame e tk me]> (frames s).
Proof.
  intros [Hsl Hti Hw Hwake Hdue] Hh Hx He. rewrite Hh in Hti, Hwake.
  destruct Hti as (Hk & tm & Htm & Hset & Hmax & Hmin).
  destruct (sleepers_push _ _ _ x n (mkEntry e me tk false) Hsl Hx eq_refl) as (t' & k1 & k2 & E & -> & Hsl' & _).
  unfold sched_timeout_enter. cbn [frames td_tree push_frame set_frame set_tree]. rewrite E. cbn [mbind option_bind].
  set (s1 := set_tree (push_frame s x n (mkEntry e me tk false)) t').
  destruct (arm_spec s1 tm e Hk Htm Hset Hmax) as (q' & tm' & -> & Hk' & Htm' & Hset').
  change (timer_expiry s1) with (timer_expiry s) in *. cbn [mbind option_bind].
  assert (∀ ts, td_inv (mkTd t' (Z.min (timer_expiry s) e) q' (frames s1) (handler s) ts (woken s) (expired s))
    (k1 ++ x :: k2)) as Hfin.
  { intros ts. split; simpl; rewrite ?Hh; try done.
    - split; [done|]. exists tm'. split_and!; try done; [lia|]. intros y Hy. rewrite expiry_at_insert.
      case_decide; [simpl; lia|]. assert (y ∈ k1 ++ k2) as Hy' by set_solver. specialize (Hmin y Hy'). lia.
    - intros y f [[<- <-]|[_ Hy]]%lookup_insert_Some; [done|by eapply Hw].
    - intros y f [[<- <-]|[_ Hy]]%lookup_insert_Some Hr; [done|by eapply Hwake]. }
  eexists _, k1, k2. split; [done|]. split; [done|]. case_decide; (split; [apply Hfin|done]).
Qed.

Lemma load_spec s ks x f :
  td_inv s ks → frames s !! x = Some f →
  ∃ s', sched_timeout_load s x = Some s' ∧ td_inv s' ks ∧ handler s' = handler s ∧
    frames s' = if removed (entry f) then delete x (frames s)
                else <[x := mkFrame (entry f) OLock]> (frames s).
Proof.
  intros [Hsl (Hk & tm & Htm & Hti) Hw Hwake Hdue] Hx. unfold sched_timeout_load. rewrite Hx. cbn [mbind option_bind].
  destruct (removed (entry f)) eqn:Hr; (eexists; split; [done|]; split; [|done]); split; simpl; try done.
  - apply sleepers_pop; [done|]. rewrite <-(sl_removed _ _ _ Hsl x f Hx), Hr. done.
  - split; [done|]. exists tm. split; [done|]. destruct (handler s); try done. destruct Hti as (H1 & H2 & H3).
    split_and!; try done. intros y Hy. unfold expiry_at. rewrite lookup_delete_ne; [by apply H3|].
    intros <-. apply (sl_removed _ _ _ Hsl x f Hx) in Hy. congruence.
  - intros y g [_ Hy]%lookup_delete_Some. by eapply Hw.
  - intros y g [_ Hy]%lookup_delete_Some. by eapply Hwake.
  - destruct Hsl as [H1 H2 H3 H4 H5]. split; try done.
    + rewrite dom_insert_lookup_L by (by eexists). done.
    + eapply sorted_key_ext; [|exact H3]. intros y _. by eapply expiry_at_same.
    + intros y g [[<- <-]|[_ Hy]]%lookup_insert_Some; [by apply (H4 x f)|by apply H4].
    + intros y Hy. destruct (decide (y = x)) as [->|]; [by rewrite lookup_insert_eq|].
      rewrite lookup_insert_ne by done. by apply H5.
  - split; [done|]. exists tm. split; [done|]. destruct (handler s); try done. destruct Hti as (H1 & H2 & H3).
    split_and!; try done. intros y Hy. erewrite expiry_at_same by done. by apply H3.
  - intros y g [[<- <-]|[_ Hy]]%lookup_insert_Some; [by apply (Hw x f)|by eapply Hw].
  - intros y g [[<- <-]|[_ Hy]]%lookup_insert_Some; [by apply (Hwake x f)|by apply Hwake].
Qed.

Lemma tail_spec s ks x f :
  td_inv s ks → frames s !! x = Some f →
  ∃ s', sched_timeout_tail s x = Some s' ∧ td_inv s' (filter (λ y, y ≠ x) ks) ∧ handler s' = handler s ∧
    frames s' = delete x (frames s).
Proof.
  intros [Hsl (Hk & tm & Htm & Hti) Hw Hwake Hdue] Hx. unfold sched_timeout_tail. rewrite Hx. cbn [mbind option_bind].
  assert (∃ t', (if negb (removed (entry f)) then tree ← Avl.remove (td_tree s) x; Some (set_tree s tree) else Some s) =
      Some (set_tree s t') ∧
    sleepers_inv (Avl.mkAVL (delete x (Avl.nodes t')) (Avl.m_root t')) (delete x (frames s)) (filter (λ y, y ≠ x) ks))
    as (t' & -> & Hsl').
  { destruct (removed (entry f)) eqn:Hr; simpl.
    - assert (x ∉ ks) as Hxk by (rewrite <-(sl_removed _ _ _ Hsl x f Hx), Hr; done).
      exists (td_tree s). split; [by destruct s|]. rewrite filter_ne_id by done. by apply sleepers_pop.
    - apply (sl_removed _ _ _ Hsl x f Hx) in Hr as (k1 & k2 & ->)%list_elem_of_split.
      destruct (sleepers_take _ _ k1 x k2 f Hsl Hx) as (t' & -> & Hn & Hsl'). exists t'. split; [done|].
      rewrite filter_ne_mid by apply (sl_seq _ _ _ Hsl).
      specialize (Hsl' (mkFrame (mkEntry (expiry (entry f)) (sleeper (entry f)) (ticket (entry f)) true) OLock)
        eq_refl eq_refl). pose proof (sleepers_pop _ _ _ x Hsl' Hn) as H. by rewrite delete_insert_eq in H. }
  cbn [mbind option_bind]. eexists. split; [done|]. split; [|done]. split; simpl; try done.
  - split; [done|]. exists tm. split; [done|]. destruct (handler s); try done. destruct Hti as (H1 & H2 & H3).
    split_and!; try done. intros y [Hne Hy]%list_elem_of_filter. unfold expiry_at.
    rewrite lookup_delete_ne by done. by apply H3.
  - intros y g [_ Hy]%lookup_delete_Some. by eapply Hw.
  - intros y g [_ Hy]%lookup_delete_Some. by eapply Hwake.
Qed.

Lemma fires_spec s ks tm :
  td_inv s ks → handler s = HIdle → timers (ktimers s) !! timer = Some tm → on_queue tm = true →
  ∃ s', timer_fires timer s = Some s' ∧ td_inv s' ks ∧ handler s' = HEnter ∧ frames s' = frames s.
Proof.
  intros [Hsl ((kks & Hk) & tm' & Htm' & Hti) Hw Hwake Hdue] Hh Htm Hon. rewrite Hh in *.
  unfold timer_fires. rewrite Htm. cbn [mbind option_bind]. rewrite Hon.
  assert (timer ∈ kks) as (k1 & k2 & ->)%list_elem_of_split by by apply (ki_timer _ _ Hk timer tm Htm).
  destruct (kq_take _ k1 timer k2 (expiry_ns tm) Hk) as (tr & -> & Hk'). cbn [mbind option_bind].
  eexists. split; [done|]. split; [|done]. split; simpl; try done.
  - split; [by eexists|]. eexists. split; [apply lookup_insert_eq|done].
  - intros x f Hx Hr. destruct (Hwake x f Hx Hr) as [|[|]]; try done. by right; right.
Qed.

(** The callback sets the timer for the first entry that is not due. *)
Lemma rearm_spec s tm e :
  (∃ kks, kq_inv (ktimers s) kks) → timers (ktimers s) !! timer = Some tm → on_queue tm = false →
  e <= expire_never →
  ∃ q' tm', (if decide (e < expire_never) then
      '(_, q) ← KTimer_enqueue (ktimers s) timer e; Some (set_ktimers s q) else Some s) = Some (set_ktimers s q') ∧
    (∃ kks, kq_inv q' kks) ∧ timers q' !! timer = Some tm' ∧ timer_set_for tm' e.
Proof.
  intros Hk Htm Hon He. destruct (decide (e < expire_never)) as [Hlt|Hge].
  - destruct (timer_set (ktimers s) tm e Hk Htm Hon) as (b & q' & -> & Hk' & Htm').
    exists q', (mkKTimer true e). split_and!; try done. split; [|done]. simpl. by rewrite bool_decide_true by lia.
  - exists (ktimers s), tm. split; [by destruct s|]. split_and!; try done.
    split; [|congruence]. rewrite Hon, bool_decide_false; [done|]. lia.
Qed.

(** One turn of the callback's loop: nothing left; the first entry not due yet;
    or the first entry taken. *)
Lemma iterate_spec s ks :
  td_inv s ks → handler s = HEnter ∨ handler s = HAgain →
  let now := ns_since_boot (reads (ktimers s)) in
  ∃ s', handler_iterate timer ns_since_boot s = Some s' ∧ woken s' = woken s ∧
  match ks with
  | [] => td_inv s' [] ∧ handler s' = HIdle ∧ frames s' = frames s ∧ expired s' = expired s
  | x :: ks =>
    if decide (expiry_at (frames s) x > now) then
      td_inv s' (x :: ks) ∧ handler s' = HIdle ∧ frames s' = frames s ∧ expired s' = expired s
    else
      td_inv s' ks ∧ handler s' = HRemoved x ∧ expired s' = expired s ++ [(x, expiry_at (frames s) x, now)] ∧
      ∃ f, frames s !! x = Some f ∧ frames s' = <[x := mkFrame
        (mkEntry (expiry (entry f)) (sleeper (entry f)) (ticket (entry f)) true) (owner_at f)]> (frames s)
  end.
Proof.
  intros [Hsl (Hk & tm & Htm & Hti) Hw Hwake Hdue] Hh now. unfold handler_iterate.
  assert (on_queue tm = false) as Hon by (destruct Hh as [E|E]; rewrite E in Hti; done). clear Hti.
  assert (∀ x f, frames s !! x = Some f → removed (entry f) = true → (sleeper (entry f), ticket (entry f)) ∈ woken s)
    as Hwoken.
  { intros x f Hx Hr. specialize (Hwake x f Hx Hr). destruct Hh as [E|E]; rewrite E in Hwake;
      destruct Hwake as [|[|]]; done. }
  rewrite (avl_empty_seq _ _ (sl_seq _ _ _ Hsl)). destruct ks as [|x ks].
  { rewrite bool_decide_true by done. eexists. split; [done|]. split; [done|]. split; [|done].
    split; simpl; try done.
    - split; [done|]. exists tm. unfold timer_set_for. rewrite Hon. split_and!; try done.
      intros x Hx. by apply elem_of_nil in Hx.
    - intros x f Hx Hr. right; right. by eapply Hwoken. }
  rewrite bool_decide_false by done. rewrite (avl_first_seq _ _ (sl_seq _ _ _ Hsl)). cbn [mbind option_bind head].
  destruct (sl_known _ _ _ Hsl x) as [f Hx]; [set_solver|]. rewrite Hx. cbn [mbind option_bind clock_read]. fold now.
  rewrite (expiry_at_lookup _ _ _ Hx). set (e := expiry (entry f)).
  set (s1 := set_ktimers s (clock_read ns_since_boot (ktimers s)).2).
  change (set_ktimers s _) with s1.
  assert (∃ kks, kq_inv (ktimers s1) kks) as Hk1 by (destruct Hk as [kks []]; exists kks; by split).
  destruct (decide (e > now)) as [Hgt|Hle].
  - destruct (rearm_spec s1 tm e Hk1 Htm Hon (Hw x f Hx)) as (q' & tm' & -> & Hk' & Htm' & Hset).
    cbn [mbind option_bind]. eexists. split; [done|]. split; [done|]. split; [|done]. split; simpl; try done.
    + split; [done|]. exists tm'. split_and!; try done; [by apply (Hw x f)|]. intros y Hy.
      unfold e. rewrite <-(expiry_at_lookup _ _ _ Hx). by apply (sorted_head _ x ks y (sl_sorted _ _ _ Hsl)).
    + intros y g Hy Hr. right; right. by eapply Hwoken.
  - destruct (sleepers_take (td_tree s) (frames s) [] x ks f Hsl Hx) as (t' & Et & Hn & Hsl').
    change (td_tree s1) with (td_tree s). rewrite Et. cbn [mbind option_bind].
    eexists. split; [done|]. split; [done|]. split; [|split; [done|]; split; [done|by exists f]]. split; simpl.
    + by apply Hsl'.
    + split; [done|]. by exists tm.
    + intros y g [[<- <-]|[_ Hy]]%lookup_insert_Some; [by apply (Hw x f)|by eapply Hw].
    + intros y g [[<- <-]|[_ Hy]]%lookup_insert_Some Hr; [by left|]. right; right. by eapply Hwoken.
    + apply Forall_app. split; [done|]. constructor; [lia|done].
Qed.

(** ** The callback alone *)

Definition wake_of fs (x : loc) : positive * Z :=
  match fs !! x with Some f => (sleeper (entry f), ticket (entry f)) | None => (1%positive, 0) end.

Lemma wake_of_removed fs x f y :
  fs !! x = Some f →
  wake_of (<[x := mkFrame (mkEntry (expiry (entry f)) (sleeper (entry f)) (ticket (entry f)) true) (owner_at f)]> fs) y =
  wake_of fs y.
Proof.
  intros Hx. unfold wake_of. destruct (decide (y = x)) as [->|]; [by rewrite lookup_insert_eq, Hx|].
  by rewrite lookup_insert_ne.
Qed.

(** Reading the entry and waking its task. *)
Lemma wake_spec s ks x f :
  td_inv s ks → handler s = HRemoved x → frames s !! x = Some f →
  ∃ s', (s1 ← handler_step timer ns_since_boot s; handler_step timer ns_since_boot s1) = Some s' ∧ td_inv s' ks ∧
    handler s' = HAgain ∧ frames s' = frames s ∧ expired s' = expired s ∧
    woken s' = woken s ++ [wake_of (frames s) x].
Proof.
  intros [Hsl (Hk & tm & Htm & Hti) Hw Hwake Hdue] Hh Hx. rewrite Hh in Hti, Hwake. unfold handler_step. rewrite Hh, Hx.
  eexists. split; [done|]. split; [|simpl; unfold wake_of; by rewrite Hx]. split; simpl; try done.
  - split; [done|]. by exists tm.
  - intros y g Hy Hr. right; right. apply elem_of_app. destruct (Hwake y g Hy Hr) as [[= ->]|[|]]; [|done|by left].
    right. rewrite Hx in Hy. injection Hy as ->. by apply list_elem_of_singleton.
Qed.

Lemma td_inv_expiry s ks e : handler s ≠ HIdle → td_inv s ks → td_inv (set_timer_expiry s e) ks.
Proof.
  intros Hh [Hsl (Hk & tm & Htm & Hti) Hw Hwake Hdue]. split; try done. split; [done|]. exists tm.
  split; [done|]. simpl. by destruct (handler s).
Qed.

Definition handler_done s0 s ks : Prop :=
  ∃ l ks' log i, ks = l ++ ks' ∧ td_inv s ks' ∧ handler s = HIdle ∧
    woken s = woken s0 ++ (wake_of (frames s0) <$> l) ∧
    expired s = expired s0 ++ log ∧ log.*1.*1 = l ∧ Forall (λ '(x, e, now), e <= now) log ∧
    ∀ x, x ∈ ks' → ns_since_boot i < expiry_at (frames s) x.

Definition turning s : Prop := handler s = HEnter ∨ handler s = HAgain.

(** A turn of the loop, from its start or after a wake-up. *)
Lemma turn_spec s ks :
  td_inv s ks → turning s →
  ∃ s1, (∀ n, handle_timer_event timer ns_since_boot (S n) s = handle_timer_event timer ns_since_boot n s1) ∧
    woken s1 = woken s ∧
    match ks with
    | [] => td_inv s1 [] ∧ handler s1 = HIdle ∧ expired s1 = expired s
    | x :: ks =>
      let now := ns_since_boot (reads (ktimers s)) in
      if decide (expiry_at (frames s) x > now) then
        td_inv s1 (x :: ks) ∧ handler s1 = HIdle ∧ expired s1 = expired s ∧ frames s1 = frames s
      else
        td_inv s1 ks ∧ handler s1 = HRemoved x ∧ expired s1 = expired s ++ [(x, expiry_at (frames s) x, now)] ∧
        is_Some (frames s1 !! x) ∧ (∀ y, wake_of (frames s1) y = wake_of (frames s) y)
    end.
Proof.
  intros Hinv Hh. set (s0 := match handler s with HEnter => set_timer_expiry s 0 | _ => s end).
  assert (td_inv s0 ks) as Hinv0.
  { unfold s0. destruct Hh as [E|E]; rewrite E; [|done]. apply td_inv_expiry; [by rewrite E|done]. }
  assert (handler_step timer ns_since_boot s = handler_iterate timer ns_since_boot s0 ∧ handler s0 = handler s ∧
      frames s0 = frames s ∧ woken s0 = woken s ∧ expired s0 = expired s ∧ ktimers s0 = ktimers s ∧ handler s ≠ HIdle)
    as (Estep & Hh0 & Hf0 & Hw0 & He0 & Hk0 & Hne).
  { unfold s0, handler_step. destruct Hh as [E|E]; rewrite E; simpl; split_and!; done. }
  destruct (iterate_spec s0 ks Hinv0 ltac:(by rewrite Hh0)) as (s1 & E1 & Hw1 & H1).
  rewrite ?Hk0, ?Hf0, ?He0 in H1. exists s1. split; [|split; [congruence|]].
  - intros n. cbn [handle_timer_event]. rewrite Estep, E1. by destruct (handler s).
  - destruct ks as [|x ks]; [naive_solver|]. cbn zeta in *. destruct (decide _); [naive_solver|].
    destruct H1 as (H1 & H2 & H3 & f & Hf & H4). split_and!; try done; rewrite H4.
    + by rewrite lookup_insert_eq.
    + intros y. by apply wake_of_removed.
Qed.

Lemma handler_loop_correct ks : ∀ s,
  td_inv s ks → turning s →
  ∃ s', handle_timer_event timer ns_since_boot (3 * length ks + 2) s = Some s' ∧ handler_done s s' ks.
Proof.
  induction ks as [|x ks IH]; intros s Hinv Hh; destruct (turn_spec s _ Hinv Hh) as (s1 & Ego & Hw1 & H1).
  - destruct H1 as (H1 & H2 & H3). exists s1. split; [change (3 * length [] + 2)%nat with 2%nat; rewrite Ego; simpl; by rewrite H2|].
    exists [], [], [], 0%nat. rewrite !app_nil_r. split_and!; try done. intros y Hy. by apply elem_of_nil in Hy.
  - replace (3 * length (x :: ks) + 2)%nat with (S (S (S (3 * length ks + 2)))) by (simpl; lia). rewrite Ego.
    cbn zeta in H1. destruct (decide (expiry_at (frames s) x > _)) as [Hgt|Hle].
    + destruct H1 as (H1 & H2 & H3 & H4). exists s1. split; [simpl; by rewrite H2|].
      exists [], (x :: ks), [], (reads (ktimers s)). rewrite !app_nil_r. split_and!; try done.
      intros y Hy. pose proof (sorted_head _ x ks y (sl_sorted _ _ _ (tv_sleepers _ _ H1)) Hy) as Hs. rewrite H4 in *. lia.
    + destruct H1 as (H1 & H2 & H3 & [f Hf] & H4).
      destruct (wake_spec s1 ks x f H1 H2 Hf) as (s2 & E2 & H5 & H6 & H7 & H8 & H9).
      assert (∀ n, handle_timer_event timer ns_since_boot (S (S n)) s1 = handle_timer_event timer ns_since_boot n s2) as ->.
      { intros n. assert (handler_step timer ns_since_boot s1 =
          Some (set_handler s1 (HWake (sleeper (entry f)) (ticket (entry f))))) as Ea
          by (unfold handler_step; by rewrite H2, Hf).
        rewrite Ea in E2. cbn [handle_timer_event]. rewrite H2, Ea. by injection E2 as <-. }
      destruct (IH s2 H5 ltac:(by right)) as (s' & -> & l & ks' & log & i & -> & Hl1 & Hl2 & Hl3 & Hl4 & Hl5 & Hl6 & Hl7).
      exists s'. split; [done|]. exists (x :: l), ks', ((x, expiry_at (frames s) x, ns_since_boot (reads (ktimers s))) :: log), i.
      split_and!; try done.
      * rewrite Hl3, H9, H7, Hw1, <-app_assoc. simpl. rewrite H4. do 2 f_equal. apply list_fmap_ext. intros ? y _. apply H4.
      * by rewrite Hl4, H8, H3, <-app_assoc.
      * rewrite !fmap_cons. by rewrite Hl5.
      * constructor; [lia|done].
Qed.

(** C25. [handle_timer_event] terminates (in three steps for each entry) and
    wakes, in the order of expiry and with their own tickets, exactly the
    sleepers at the front of the tree that are due when it looks at them; the
    ones it leaves expire after its last look at the clock, and the kernel timer
    is set again for the first of them. *)
Theorem handle_timer_event_correct s ks :
  td_inv s ks → handler s = HEnter →
  ∃ s' l ks' log i, handle_timer_event timer ns_since_boot (3 * length ks + 2) s = Some s' ∧
    ks = l ++ ks' ∧ td_inv s' ks' ∧ handler s' = HIdle ∧
    woken s' = woken s ++ (wake_of (frames s) <$> l) ∧
    expired s' = expired s ++ log ∧ log.*1.*1 = l ∧ Forall (λ '(x, e, now), e <= now) log ∧
    ∀ x, x ∈ ks' → ns_since_boot i < expiry_at (frames s') x.
Proof.
  intros Hinv Hh. destruct (handler_loop_correct ks s Hinv ltac:(by left)) as (s' & E & l & ks' & log & i & H).
  by exists s', l, ks', log, i.
Qed.

(** ** All interleavings *)

Definition lock_held s : bool := match handler s with HRemoved _ => true | _ => false end.

(** [migrates] tells whether the owner of an entry may run on another CPU than
    the callback.  On the callback's CPU it runs with DPCs disabled, so only
    while the callback does not.  Other code may use the kernel timers. *)
Inductive tstep (migrates : bool) : timeout_cpu_data → timeout_cpu_data → Prop :=
| t_enter s s' x n me e state tk :
    handler s = HIdle → frames s !! x = None → e <= expire_never →
    sched_timeout_enter timer s x n me e state tk = Some s' → tstep migrates s s'
| t_load s s' x f :
    frames s !! x = Some f → owner_at f = OAsleep → migrates = true ∨ handler s = HIdle →
    sched_timeout_load s x = Some s' → tstep migrates s s'
| t_tail s s' x f :
    frames s !! x = Some f → owner_at f = OLock → migrates = true ∨ handler s = HIdle →
    lock_held s = false → sched_timeout_tail s x = Some s' → tstep migrates s s'
| t_fires s s' : handler s = HIdle → timer_fires timer s = Some s' → tstep migrates s s'
| t_handler s s' : handler s ≠ HIdle → handler_step timer ns_since_boot s = Some s' → tstep migrates s s'
| t_others s q kks :
    kq_inv q kks → timers q !! timer = timers (ktimers s) !! timer → tstep migrates s (set_ktimers s q).

(** The state when the CPU is set up. *)
Definition td_fresh s : Prop :=
  (∃ kks, kq_inv (ktimers s) kks) ∧ (∃ tm, timers (ktimers s) !! timer = Some tm ∧ on_queue tm = false) ∧
  frames s = ∅ ∧ Avl.nodes (td_tree s) = ∅ ∧ handler s = HIdle ∧ woken s = [] ∧ expired s = [].

Inductive treach (migrates : bool) : timeout_cpu_data → Prop :=
| tr_init s : td_fresh s → treach migrates (timeout_init timer s)
| tr_step s s' : treach migrates s → tstep migrates s s' → treach migrates s'.

Lemma init_inv s : td_fresh s → td_inv (timeout_init timer s) [] ∧ handler (timeout_init timer s) = HIdle.
Proof.
  intros ([kks [K1 K2 K3 K4]] & (tm & Htm & Hon) & Hf & Hn & Hh & Hw & He). split; [|done]. split; simpl; rewrite ?Hf, ?He; try done.
  - split; simpl; rewrite ?Hn; [apply avl_init_seq|done|constructor|done|]. intros x Hx. by apply elem_of_nil in Hx.
  - rewrite Hh. split.
    + exists kks. split; simpl; try done.
      * eapply sorted_key_ext; [|exact K2]. intros y _. unfold KTimer_init. rewrite expiry_with_timer. by case_decide; [subst|].
      * intros y tm' [[<- <-]|[_ Hy]]%lookup_insert_Some; [|by apply K3]. simpl.
        destruct (K3 timer tm Htm) as [H1 H2]. rewrite <-H1, Hon. done.
      * intros y Hy. destruct (decide (y = timer)) as [->|]; [by rewrite lookup_insert_eq|].
        rewrite lookup_insert_ne by done. by apply K4.
    + eexists. split; [apply lookup_insert_eq|]. split_and!; try done. intros x Hx. by apply elem_of_nil in Hx.
Qed.

(** The callback never loses the entry it is about to read, if its owner cannot
    run in between. *)
Definition reads_ok (migrates : bool) s : Prop :=
  migrates = false → ∀ x, handler s = HRemoved x → is_Some (frames s !! x).

Lemma iterate_step s ks :
  td_inv s ks → turning s →
  ∃ s' ks', handler_iterate timer ns_since_boot s = Some s' ∧ td_inv s' ks' ∧
    ∀ x, handler s' = HRemoved x → is_Some (frames s' !! x).
Proof.
  intros Hinv Hh. destruct (iterate_spec s ks Hinv Hh) as (s' & E & _ & H). exists s'.
  destruct ks as [|x ks].
  - destruct H as (H1 & H2 & _). exists []. by rewrite H2.
  - destruct (decide _).
    + destruct H as (H1 & H2 & _). exists (x :: ks). by rewrite H2.
    + destruct H as (H1 & H2 & _ & f & _ & H3). exists ks. split_and!; try done.
      intros y. rewrite H2, H3. intros [= <-]. by rewrite lookup_insert_eq.
Qed.

Lemma handler_step_spec s ks :
  td_inv s ks → (∀ x, handler s = HRemoved x → is_Some (frames s !! x)) →
  ∃ s' ks', handler_step timer ns_since_boot s = Some s' ∧ td_inv s' ks' ∧
    ∀ x, handler s' = HRemoved x → is_Some (frames s' !! x).
Proof.
  intros Hinv Hrd. unfold handler_step. destruct (handler s) as [| | |x|tsk tk] eqn:Hh.
  - exists s, ks. rewrite Hh. done.
  - apply (iterate_step _ ks); [|by left]. apply td_inv_expiry; [by rewrite Hh|done].
  - apply (iterate_step _ ks); [done|by right].
  - destruct (Hrd x eq_refl) as [f Hf]. rewrite Hf. eexists _, ks. split; [done|]. split; [|done].
    destruct Hinv as [Hsl (Hk & tm & Htm & Hti) Hw Hwake Hdue]. rewrite Hh in *. split; simpl; try done.
    + split; [done|]. by exists tm.
    + intros y g Hy Hr. destruct (Hwake y g Hy Hr) as [[= ->]|[|]]; [|done|by right; right].
      right; left. by simplify_eq.
  - eexists _, ks. split; [done|]. split; [|done].
    destruct Hinv as [Hsl (Hk & tm & Htm & Hti) Hw Hwake Hdue]. rewrite Hh in *. split; simpl; try done.
    + split; [done|]. by exists tm.
    + intros y g Hy Hr. right; right. apply elem_of_app. destruct (Hwake y g Hy Hr) as [|[[= -> ->]|]]; [done| |by left].
      right. by apply list_elem_of_singleton.
Qed.

Lemma tstep_inv migrates s s' ks :
  td_inv s ks → reads_ok migrates s → tstep migrates s s' → ∃ ks', td_inv s' ks' ∧ reads_ok migrates s'.
Proof.
  intros Hinv Hrd Hstep. inversion_clear Hstep.
  - destruct (enter_spec s ks x n me e state tk Hinv) as (s1 & k1 & k2 & E & _ & H3 & H4 & _); [done..|].
    simplify_eq. eexists. split; [done|]. intros _ y. by rewrite H4.
  - destruct (load_spec s ks x f Hinv) as (s1 & E & H3 & H4 & H5); [done|]. simplify_eq. eexists. split; [done|].
    intros -> y. rewrite H4. destruct H1 as [|Hi]; [done|]. by rewrite Hi.
  - destruct (tail_spec s ks x f Hinv) as (s1 & E & H4' & H5 & H6); [done|]. simplify_eq. eexists. split; [done|].
    intros -> y. rewrite H5. destruct H1 as [|Hi]; [done|]. by rewrite Hi.
  - destruct (tv_timer _ _ Hinv) as (_ & tm & Htm & _). destruct (on_queue tm) eqn:Hon.
    + destruct (fires_spec s ks tm Hinv) as (s1 & E & H3 & H4 & _); [done..|]. simplify_eq. eexists. split; [done|].
      intros _ y. by rewrite H4.
    + unfold timer_fires in H0. rewrite Htm in H0. simpl in H0. by rewrite Hon in H0.
  - destruct (handler_step_spec s ks Hinv) as (s1 & ks' & E & H1 & H2).
    + intros x Hx. unfold handler_step in H0. rewrite Hx in H0. apply bind_Some in H0 as (f & -> & _). by eexists.
    + simplify_eq. exists ks'. split; [done|]. intros _. exact H2.
  - exists ks. split; [|done]. destruct Hinv as [Hsl (Hk & tm & Htm & Hti) Hw Hwake Hdue]. split; try done.
    split; [by eexists|]. exists tm. split; [by rewrite <-Htm|done].
Qed.

Lemma treach_inv migrates s : treach migrates s → ∃ ks, td_inv s ks ∧ reads_ok migrates s.
Proof.
  induction 1 as [s Hs|s s' _ (ks & Hinv & Hrd) Hstep].
  - destruct (init_inv s Hs) as [H1 H2]. exists []. split; [done|]. intros _ x. by rewrite H2.
  - by eapply tstep_inv.
Qed.

(** C24. However the callback, the tasks that go to sleep and the tasks that wake
    up interleave, also when tasks wake up on other CPUs: the tree holds
    exactly the entries of tasks still inside [sched_timeout_ticket] that are
    not marked removed, in the order of expiry, so no entry of a function that
    returned is left behind; while the callback does not run, the kernel timer
    is queued no later than any of them expires, so no sleeper is forgotten; a
    task whose entry is marked removed has been woken with its ticket or is the
    one the callback is about to wake; and only due entries were removed. *)
Theorem timeout_no_lost_sleeper migrates s :
  treach migrates s →
  ∃ ks, avl_seq (td_tree s) ks ∧ StronglySorted (key_le (expiry_at (frames s))) ks ∧
    (∀ x, x ∈ ks ↔ ∃ f, frames s !! x = Some f ∧ removed (entry f) = false) ∧
    (handler s = HIdle → ∀ x, x ∈ ks → expiry_at (frames s) x < expire_never →
      ∃ tm, timers (ktimers s) !! timer = Some tm ∧ on_queue tm = true ∧ expiry_ns tm <= expiry_at (frames s) x) ∧
    (∀ x f, frames s !! x = Some f → removed (entry f) = true →
      wake_issued (handler s) (woken s) x (entry f)) ∧
    Forall (λ '(x, e, now), e <= now) (expired s).
Proof.
  intros (ks & [Hsl (_ & tm & Htm & Hti) _ Hwake Hdue] & _)%treach_inv. exists ks.
  destruct Hsl as [Hseq _ Hsort Hrem Hkn]. split_and!; try done.
  - intros x. split; [|by intros (f & Hf & Hr); apply (Hrem x f Hf)].
    intros Hx. destruct (Hkn x Hx) as [f Hf]. exists f. split; [done|]. by apply (Hrem x f Hf).
  - intros Hh x Hx Hlt. rewrite Hh in Hti. destruct Hti as ([Hon Hexp] & _ & Hmin). specialize (Hmin x Hx).
    rewrite bool_decide_true in Hon by lia. exists tm. split_and!; [done..|]. rewrite Hexp by done. done.
Qed.

(** C26. No step of the time-out code fails (follows a pointer to a frame that is
    gone, or a broken tree): not the callback as long as tasks stay on their
    CPU, nor, also when they migrate, anything but its reading of the entry
    after the store to [removed]. *)
Theorem timeout_no_fault migrates s :
  treach migrates s →
  (migrates = false ∨ lock_held s = false → is_Some (handler_step timer ns_since_boot s)) ∧
  (∀ x f, frames s !! x = Some f →
     is_Some (sched_timeout_load s x) ∧ is_Some (sched_timeout_tail s x)) ∧
  (∀ x n me e state tk, handler s = HIdle → frames s !! x = None → e <= expire_never →
     is_Some (sched_timeout_enter timer s x n me e state tk)).
Proof.
  intros (ks & Hinv & Hrd)%treach_inv. split_and!.
  - intros Hc. destruct (handler_step_spec s ks Hinv) as (s' & ks' & -> & _); [|by eexists].
    intros x Hx. destruct Hc as [->|Hl]; [by apply Hrd|]. unfold lock_held in Hl. by rewrite Hx in Hl.
  - intros x f Hf. destruct (load_spec s ks x f Hinv Hf) as (? & -> & _).
    destruct (tail_spec s ks x f Hinv Hf) as (? & -> & _). split; by eexists.
  - intros x n me e state tk H1 H2 H3.
    destruct (enter_spec s ks x n me e state tk Hinv H1 H2 H3) as (s1 & k1 & k2 & -> & _). by eexists.
Qed.

End timeout.

(** ** Examples

    The timer is at 1, the clock stands at 7; task 9 sleeps until the time 5
    with the ticket 3 and an entry at 20. *)

Local Open Scope Z_scope.

Definition ex_td0 : timeout_cpu_data :=
  mkTd (Avl.mkAVL ∅ None) 0
    (mkKtq (Avl.mkAVL {[1%positive := mkNode None None None 0]} None) expire_never
      {[1%positive := mkKTimer false 0]} 0 [])
    ∅ HIdle ∅ [] [].

Definition ex_garbage : node Z := mkNode None None None 0.

(** The state after an operation. *)
Definition after (o : option timeout_cpu_data) : timeout_cpu_data := default ex_td0 o.

Definition ex_td1 := timeout_init 1 ex_td0.
Definition ex_asleep := after (sched_timeout_enter 1 ex_td1 20 ex_garbage 9 5 1 3).
Definition ex_called := after (timer_fires 1 ex_asleep).
Definition ex_removed := after (handler_step 1 (λ _, 7) ex_called).
Definition ex_gone := after (sched_timeout_load ex_removed 20).

Lemma ex_td0_fresh : td_fresh 1 ex_td0.
Proof.
  split; [|split; [by exists (mkKTimer false 0)|done]]. exists []. split.
  - split; [by exists E|constructor].
  - constructor.
  - intros x tm Hx. unfold ex_td0 in Hx. cbn [ktimers timers] in Hx. apply lookup_singleton_Some in Hx as [<- <-]. split; [|set_solver]. simpl. set_solver.
  - intros x Hx. by apply elem_of_nil in Hx.
Qed.

Lemma ex_td1_reach b : treach 1 (λ _, 7) b ex_td1.
Proof. apply tr_init, ex_td0_fresh. Qed.

Lemma ex_asleep_reach b : treach 1 (λ _, 7) b ex_asleep.
Proof.
  eapply tr_step; [apply ex_td1_reach|]. apply (t_enter _ _ _ _ _ 20 ex_garbage 9 5 1 3);
    [reflexivity|reflexivity|unfold expire_never; lia|vm_compute; reflexivity].
Qed.

Lemma ex_called_reach b : treach 1 (λ _, 7) b ex_called.
Proof. eapply tr_step; [apply ex_asleep_reach|]. apply t_fires; vm_compute; reflexivity. Qed.

Lemma ex_removed_reach b : treach 1 (λ _, 7) b ex_removed.
Proof. eapply tr_step; [apply ex_called_reach|]. apply t_handler; [discriminate|vm_compute; reflexivity]. Qed.

(** When tasks migrate, the callback can read an entry that no longer
    exists: it stores [removed] before it reads [task] and [ticket], and the
    owner, woken by something else on another CPU, looks at [removed] without
    the lock and returns. *)
Theorem timeout_use_after_return :
  ∃ s x, treach 1 (λ _, 7) true s ∧ handler s = HRemoved x ∧ frames s !! x = None ∧
    handler_step 1 (λ _, 7) s = None.
Proof.
  exists ex_gone, 20%positive. split_and!; [|vm_compute; reflexivity..].
  eapply tr_step; [apply ex_removed_reach|].
  eapply (t_load _ _ _ _ _ 20%positive); [vm_compute; reflexivity|reflexivity|by left|vm_compute; reflexivity].
Qed.

Lemma timeout_no_lost_sleeper_witness :
  ∃ ks, avl_seq (td_tree ex_asleep) ks ∧ 20%positive ∈ ks ∧
    ∃ tm, timers (ktimers ex_asleep) !! 1%positive = Some tm ∧ on_queue tm = true ∧ expiry_ns tm <= 5.
Proof.
  destruct (timeout_no_lost_sleeper 1 (λ _, 7) true ex_asleep (ex_asleep_reach true))
    as (ks & H1 & _ & H2 & H3 & _).
  assert (20%positive ∈ ks) as Hx.
  { apply H2. exists (mkFrame (mkEntry 5 9 3 false) OAsleep). split; vm_compute; reflexivity. }
  exists ks. split; [exact H1|]. split; [exact Hx|]. exact (H3 ltac:(reflexivity) 20%positive Hx ltac:(reflexivity)).
Defined.

Lemma timeout_no_fault_witness :
  is_Some (handler_step 1 (λ _, 7) ex_removed) ∧ is_Some (sched_timeout_tail ex_removed 20).
Proof.
  destruct (timeout_no_fault 1 (λ _, 7) false ex_removed (ex_removed_reach false)) as (H1 & H2 & _).
  split; [apply H1; by left|].
  eapply (H2 20%positive (mkFrame (mkEntry 5 9 3 true) OAsleep)). vm_compute. reflexivity.
Defined.

Lemma ex_called_inv : td_inv 1 ex_called [20%positive].
Proof.
  destruct (init_inv 1 ex_td0 ex_td0_fresh) as [H0 _].
  destruct (enter_spec 1 ex_td1 [] 20 ex_garbage 9 5 1 3 H0) as (s1 & k1 & k2 & E & Ek & H1 & _);
    [reflexivity|reflexivity|unfold expire_never; lia|].
  symmetry in Ek. apply app_nil in Ek as [-> ->].
  assert (sched_timeout_enter 1 ex_td1 20 ex_garbage 9 5 1 3 = Some ex_asleep) as E' by (vm_compute; reflexivity).
  rewrite E' in E. injection E as <-.
  destruct (fires_spec 1 ex_asleep [20%positive] (mkKTimer true 5) H1) as (s2 & E2 & H2 & _); [reflexivity..|].
  assert (timer_fires 1 ex_asleep = Some ex_called) as E3 by (vm_compute; reflexivity).
  rewrite E3 in E2. injection E2 as <-. exact H2.
Qed.

Lemma handle_timer_event_correct_witness :
  ∃ s', handle_timer_event 1 (λ _, 7) 5 ex_called = Some s' ∧ handler s' = HIdle ∧ woken s' = [(9%positive, 3)].
Proof.
  destruct (handle_timer_event_correct 1 (λ _, 7) ex_called [20%positive] ex_called_inv ltac:(reflexivity))
    as (s' & l & ks' & log & i & E & _ & _ & H1 & _).
  exists s'. split; [exact E|]. split; [exact H1|]. vm_compute in E. injection E as <-. reflexivity.
Defined.
