(* ===== verification/Mutex.v ===== *)
(** * Kernel mutexes ([kernel/mutex.cc])

    A mutex is one word, the owner's task pointer with two flag bits, and a
    list of waiters.  Threads run the lock and unlock paths concurrently; one
    transition is one atomic access of the word (or one access of the waiter
    list, which is protected by the lock bit).  [atomic_cmpxchg_weak] may fail
    spuriously, sleeping may end at any time, and time-outs and signals may
    arrive at any time a path looks for them, so the transition system has at
    least the behaviours of the code. *)

From S2P Require Import Prelude.

(** ** The word *)

Section word.
Local Open Scope Z_scope.

Definition MUTEX_WAITER : Z := 1.
Definition MUTEX_LOCK : Z := 2.
Definition MUTEX_PTR : Z := not64 (Z.lor MUTEX_WAITER MUTEX_LOCK).

(** [m_owner_and_flags], decoded.  Task pointers are non-null and aligned to
    four bytes. *)
Record word := mkWord { w_ptr : option positive; w_waiter : bool; w_lock : bool }.

#[global] Instance word_eq_dec : EqDecision word.
Proof. solve_decision. Defined.

Definition task_addr (t : positive) : Z := 4 * Z.pos t.

Definition encode (w : word) : Z :=
  Z.lor (match w_ptr w with Some t => task_addr t | None => 0 end)
    (Z.lor (if w_waiter w then MUTEX_WAITER else 0) (if w_lock w then MUTEX_LOCK else 0)).

Definition decode (v : Z) : word :=
  mkWord (match Z.land v MUTEX_PTR / 4 with Z.pos t => Some t | _ => None end)
    (negb (Z.land v MUTEX_WAITER =? 0)) (negb (Z.land v MUTEX_LOCK =? 0)).

Lemma encode_sum w :
  encode w = 4 * (match w_ptr w with Some t => Z.pos t | None => 0 end) +
             2 * Z.b2z (w_lock w) + Z.b2z (w_waiter w).
Proof. destruct w as [[t|] [] []]; done. Qed.

Lemma encode_range w :
  (∀ t, w_ptr w = Some t → task_addr t < 2 ^ 62) → u64 (encode w).
Proof.
  intros Hp. unfold in_width. rewrite encode_sum. destruct w as [[t|] [] []]; simpl in *;
    try (specialize (Hp t eq_refl); unfold task_addr in Hp); lia.
Qed.

Lemma encode_ptr w :
  (∀ t, w_ptr w = Some t → task_addr t < 2 ^ 62) →
  Z.land (encode w) MUTEX_PTR = 4 * (match w_ptr w with Some t => Z.pos t | None => 0 end).
Proof.
  intros Hp. change MUTEX_PTR with (not64 (2 ^ 2 - 1)).
  rewrite land_not64_pow2 by (by apply encode_range || lia).
  rewrite encode_sum. set (p := match w_ptr w with Some t => Z.pos t | None => 0 end).
  destruct w as [q [] []]; simpl Z.b2z; change (2 ^ 2) with 4; Z.div_mod_to_equations; lia.
Qed.

(** The bit tests of the code read the fields of the word. *)
Lemma decode_encode w :
  (∀ t, w_ptr w = Some t → task_addr t < 2 ^ 62) → decode (encode w) = w.
Proof.
  intros Hp. unfold decode. rewrite encode_ptr by done.
  rewrite Z.mul_comm, Z.div_mul by done. by destruct w as [[t|] [] []].
Qed.

Definition with_lock (w : word) (b : bool) : word := mkWord (w_ptr w) (w_waiter w) b.
Definition with_waiter (w : word) (b : bool) : word := mkWord (w_ptr w) b (w_lock w).
Definition free_word : word := mkWord None false false.

End word.

(** ** Threads *)

(** The arguments of [lock_slowpath]; [None] is [NO_TIMEOUT], [Some 0] the
    zero time-out of [trylock]. *)
Record op := mkOp { interruptible : bool; ns : option Z }.

Definition op_trylock : op := mkOp false (Some 0%Z).
Definition op_lock : op := mkOp false None.
Definition op_lock_interruptible : op := mkOp true None.
Definition op_lock_timeout (n : Z) : op := mkOp false (Some n).
Definition op_lock_timeout_interruptible (n : Z) : op := mkOp true (Some n).

Inductive err := ETIME | EINTR.

(** Control points of [lock_slowpath] (and of the fast path before it), with
    the local [state.lockval] or [desired]. *)
Inductive lpc :=
| LFast                    (* lock_fastpath *)
| LRetry (lockval : word)  (* retry *)
| LSpin                    (* spin_on_lock_bit *)
| LCheck (lockval : word)  (* the lock bit was clear *)
| LAcquire (lockval : word) (* no owner: install ourselves *)
| LSetLock (lockval : word) (* set the lock bit *)
| LPush (desired : word)   (* m_waiters.push_back *)
| LSleepy (desired : word) (* retry_sleep: release the lock bit *)
| LAsleep                  (* sched_timeout_ticket *)
| LNoSleep (lockval : word) (* retry_nosleep: the first do-while loop *)
| LNoSleepSpin
| LWon                     (* got the mutex: remove the waiter *)
| LWonStore
| LRaced (lockval : word)  (* the second do-while loop *)
| LRacedSpin
| LRacedLock (desired : word) (* set the lock bit after losing the race *)
| LGiveUp (desired : word) (e : err) (* remove the waiter and fail *)
| LGiveUpStore (desired : word) (e : err).

Inductive upc :=
| UFast                    (* unlock_fastpath *)
| URetry (lockval : word)
| USpin
| UCheck (lockval : word)
| UWake.                   (* the lock bit is ours: wake the first waiter *)

Inductive pc :=
| Idle
| Locking (o : op) (p : lpc)
| Failed (o : op) (e : err)
| Held
| Unlocking (p : upc).

Record state := mkState { owner : word; waiters : list positive; pcs : positive → pc }.

Definition goto (f : positive → pc) (t : positive) (p : pc) : positive → pc :=
  λ t', if decide (t' = t) then p else f t'.

(** A check of the clock or of pending signals that makes the path give up. *)
Inductive gives_up : op → err → Prop :=
| gives_up_time o n : ns o = Some n → gives_up o ETIME
| gives_up_signal o : interruptible o = true → gives_up o EINTR.

(** One step of thread [t] on the way to the mutex or to sleep: [lock_fastpath],
    [spin_on_lock_bit] and [lock_slowpath] as far as [sched_timeout_ticket].  The
    word and the waiters before, the control point, and all three after. *)
Inductive enter_step (t : positive) (o : op) : word → list positive → lpc →
    word → list positive → pc → Prop :=
| ls_fast ws :
    enter_step t o free_word ws LFast (mkWord (Some t) false false) ws Held
| ls_fast_fail w ws :
    enter_step t o w ws LFast w ws (Locking o (LRetry w))
| ls_retry_etime w ws lv :
    w_lock lv = true → ns o = Some 0%Z → enter_step t o w ws (LRetry lv) w ws (Failed o ETIME)
| ls_retry_spin w ws lv :
    w_lock lv = true → ns o ≠ Some 0%Z → enter_step t o w ws (LRetry lv) w ws (Locking o LSpin)
| ls_retry_check w ws lv :
    w_lock lv = false → enter_step t o w ws (LRetry lv) w ws (Locking o (LCheck lv))
| ls_spin w ws :
    w_lock w = true → enter_step t o w ws LSpin w ws (Locking o LSpin)
| ls_spin_done w ws :
    w_lock w = false → enter_step t o w ws LSpin w ws (Locking o (LCheck w))
| ls_check_free w ws lv :
    w_ptr lv = None → enter_step t o w ws (LCheck lv) w ws (Locking o (LAcquire lv))
| ls_acquire ws lv :
    enter_step t o lv ws (LAcquire lv) (mkWord (Some t) (w_waiter lv) false) ws Held
| ls_acquire_fail w ws lv :
    enter_step t o w ws (LAcquire lv) w ws (Locking o (LRetry w))
| ls_check_etime w ws lv :
    w_ptr lv ≠ None → ns o = Some 0%Z → enter_step t o w ws (LCheck lv) w ws (Failed o ETIME)
| ls_check_give_up w ws lv e :
    w_ptr lv ≠ None → gives_up o e → enter_step t o w ws (LCheck lv) w ws (Failed o e)
| ls_check_wait w ws lv :
    w_ptr lv ≠ None → ns o ≠ Some 0%Z → enter_step t o w ws (LCheck lv) w ws (Locking o (LSetLock lv))
| ls_set_lock ws lv :
    enter_step t o lv ws (LSetLock lv) (with_lock lv true) ws (Locking o (LPush (with_lock lv true)))
| ls_set_lock_fail w ws lv :
    enter_step t o w ws (LSetLock lv) w ws (Locking o (LRetry w))
| ls_push w ws d :
    enter_step t o w ws (LPush d) w (ws ++ [t]) (Locking o (LSleepy d))
| ls_sleep w ws d :
    enter_step t o w ws (LSleepy d) (mkWord (w_ptr d) true false) ws (Locking o LAsleep).

(** The rest of [lock_slowpath], from the return of [sched_timeout_ticket] on. *)
Inductive woken_step (t : positive) (o : op) : word → list positive → lpc →
    word → list positive → pc → Prop :=
| ls_wake w ws :
    woken_step t o w ws LAsleep w ws (Locking o (LNoSleep (mkWord None true false)))
| ls_won ws lv :
    woken_step t o lv ws (LNoSleep lv) (mkWord (Some t) true true) ws (Locking o LWon)
| ls_nosleep_spin w ws lv :
    w_lock w = true → woken_step t o w ws (LNoSleep lv) w ws (Locking o LNoSleepSpin)
| ls_nosleep_again w ws lv :
    w_lock w = false → w_ptr w = None → woken_step t o w ws (LNoSleep lv) w ws (Locking o (LNoSleep w))
| ls_nosleep_raced w ws lv :
    w_lock w = false → w_ptr w ≠ None → woken_step t o w ws (LNoSleep lv) w ws (Locking o (LRaced w))
| ls_nospin w ws :
    w_lock w = true → woken_step t o w ws LNoSleepSpin w ws (Locking o LNoSleepSpin)
| ls_nospin_again w ws :
    w_lock w = false → w_ptr w = None → woken_step t o w ws LNoSleepSpin w ws (Locking o (LNoSleep w))
| ls_nospin_raced w ws :
    w_lock w = false → w_ptr w ≠ None → woken_step t o w ws LNoSleepSpin w ws (Locking o (LRaced w))
| ls_won_remove w ws1 ws2 :
    woken_step t o w (ws1 ++ t :: ws2) LWon w (ws1 ++ ws2) (Locking o LWonStore)
| ls_won_store w ws :
    woken_step t o w ws LWonStore
      (mkWord (Some t) (bool_decide (ws ≠ [])) false) ws Held
| ls_raced_lock ws lv :
    woken_step t o lv ws (LRaced lv) (with_lock lv true) ws (Locking o (LRacedLock (with_lock lv true)))
| ls_raced_spin w ws lv :
    w_lock w = true → woken_step t o w ws (LRaced lv) w ws (Locking o LRacedSpin)
| ls_raced_again w ws lv :
    w_lock w = false → w_ptr w ≠ None → woken_step t o w ws (LRaced lv) w ws (Locking o (LRaced w))
| ls_raced_free w ws lv :
    w_lock w = false → w_ptr w = None → woken_step t o w ws (LRaced lv) w ws (Locking o (LNoSleep w))
| ls_rspin w ws :
    w_lock w = true → woken_step t o w ws LRacedSpin w ws (Locking o LRacedSpin)
| ls_rspin_again w ws :
    w_lock w = false → w_ptr w ≠ None → woken_step t o w ws LRacedSpin w ws (Locking o (LRaced w))
| ls_rspin_free w ws :
    w_lock w = false → w_ptr w = None → woken_step t o w ws LRacedSpin w ws (Locking o (LNoSleep w))
| ls_raced_sleep w ws d :
    woken_step t o w ws (LRacedLock d) w ws (Locking o (LSleepy d))
| ls_raced_give_up w ws d e :
    gives_up o e → woken_step t o w ws (LRacedLock d) w ws (Locking o (LGiveUp d e))
| ls_give_up w ws1 ws2 d e :
    woken_step t o w (ws1 ++ t :: ws2) (LGiveUp d e) w (ws1 ++ ws2) (Locking o (LGiveUpStore d e))
| ls_give_up_store w ws d e :
    woken_step t o w ws (LGiveUpStore d e)
      (mkWord (w_ptr d) (w_waiter d && bool_decide (ws ≠ [])) false) ws (Failed o e).

Inductive lock_step (t : positive) (o : op) : word → list positive → lpc →
    word → list positive → pc → Prop :=
| ls_enter w ws p w' ws' q : enter_step t o w ws p w' ws' q → lock_step t o w ws p w' ws' q
| ls_woken w ws p w' ws' q : woken_step t o w ws p w' ws' q → lock_step t o w ws p w' ws' q.

Inductive unlock_step (t : positive) : word → list positive → upc → word → list positive → pc → Prop :=
| us_fast ws :
    unlock_step t (mkWord (Some t) false false) ws UFast free_word ws Idle
| us_fast_fail w ws :
    unlock_step t w ws UFast w ws (Unlocking (URetry w))
| us_retry_spin w ws lv :
    w_lock lv = true → unlock_step t w ws (URetry lv) w ws (Unlocking USpin)
| us_retry_check w ws lv :
    w_lock lv = false → unlock_step t w ws (URetry lv) w ws (Unlocking (UCheck lv))
| us_spin w ws :
    w_lock w = true → unlock_step t w ws USpin w ws (Unlocking USpin)
| us_spin_done w ws :
    w_lock w = false → unlock_step t w ws USpin w ws (Unlocking (UCheck w))
| us_release ws lv :
    w_waiter lv = false → unlock_step t lv ws (UCheck lv) free_word ws Idle
| us_release_fail w ws lv :
    unlock_step t w ws (UCheck lv) w ws (Unlocking (URetry w))
| us_take_lock ws lv :
    w_waiter lv = true →
    unlock_step t lv ws (UCheck lv) (mkWord None true true) ws (Unlocking UWake)
| us_wake w x ws :
    unlock_step t w (x :: ws) UWake (mkWord None true false) (x :: ws) Idle.

Inductive step : state → state → Prop :=
| step_lock_call t o s :
    pcs s t = Idle → step s (mkState (owner s) (waiters s) (goto (pcs s) t (Locking o LFast)))
| step_lock t o p w ws q s :
    pcs s t = Locking o p → lock_step t o (owner s) (waiters s) p w ws q →
    step s (mkState w ws (goto (pcs s) t q))
| step_error_return t o e s :
    pcs s t = Failed o e → step s (mkState (owner s) (waiters s) (goto (pcs s) t Idle))
| step_unlock_call t s :
    pcs s t = Held → step s (mkState (owner s) (waiters s) (goto (pcs s) t (Unlocking UFast)))
| step_unlock t p w ws q s :
    pcs s t = Unlocking p → unlock_step t (owner s) (waiters s) p w ws q →
    step s (mkState w ws (goto (pcs s) t q)).

Definition initial : state := mkState free_word [] (λ _, Idle).

Definition reachable (s : state) : Prop := rtc step initial s.

(** ** The invariant *)

(** The control points between setting and clearing the lock bit. *)
Definition holds_bit (p : pc) : bool :=
  match p with
  | Locking _ (LPush _ | LSleepy _ | LWon | LWonStore | LRacedLock _
              | LGiveUp _ _ | LGiveUpStore _ _) => true
  | Unlocking UWake => true
  | _ => false
  end.

(** The control points at which the thread is the owner in the word. *)
Definition owns (p : pc) : bool :=
  match p with
  | Held | Unlocking (UFast | URetry _ | USpin | UCheck _) => true
  | Locking _ (LWon | LWonStore) => true
  | _ => false
  end.

(** The control points at which the thread's waiter is on the list. *)
Definition waits (p : pc) : bool :=
  match p with
  | Locking _ (LSleepy _ | LAsleep | LNoSleep _ | LNoSleepSpin | LWon | LRaced _
              | LRacedSpin | LRacedLock _ | LGiveUp _ _) => true
  | _ => false
  end.

(** What each control point knows of its local variables and, when it holds the
    lock bit, of the word. *)
Definition local_ok (w : word) (ws : list positive) (p : pc) : Prop :=
  match p with
  | Locking _ (LCheck lv) | Unlocking (UCheck lv) => w_lock lv = false
  | Locking _ (LAcquire lv) | Locking _ (LNoSleep lv) => w_lock lv = false ∧ w_ptr lv = None
  | Locking _ (LSetLock lv) | Locking _ (LRaced lv) => w_lock lv = false ∧ w_ptr lv ≠ None
  | Locking _ (LPush d) | Locking _ (LSleepy d) => w_ptr w = w_ptr d
  | Locking _ (LRacedLock d) | Locking _ (LGiveUp d _) | Locking _ (LGiveUpStore d _) =>
      w_ptr w = w_ptr d ∧ w_waiter d = true
  | Unlocking UWake => w_ptr w = None ∧ ws ≠ []
  | _ => True
  end.

(** An error is one the operation can return. *)
Definition fails_ok (p : pc) : Prop :=
  match p with
  | Locking o (LGiveUp _ e) | Locking o (LGiveUpStore _ e) | Failed o e => gives_up o e
  | _ => True
  end.

Record thread_ok (w : word) (ws : list positive) (t : positive) (p : pc) : Prop := {
  to_local : local_ok w ws p;
  to_fails : fails_ok p;
  to_owns : owns p = true ↔ w_ptr w = Some t;
  to_waits : waits p = true ↔ t ∈ ws;
  to_bit : holds_bit p = true → w_lock w = true;
}.

Record shared_ok (w : word) (ws : list positive) : Prop := {
  so_nodup : NoDup ws;
  so_flag : w_lock w = false → (w_waiter w = true ↔ ws ≠ []);
}.

Record inv (s : state) : Prop := {
  inv_shared : shared_ok (owner s) (waiters s);
  inv_thread t : thread_ok (owner s) (waiters s) t (pcs s t);
  inv_unique t t' :
    holds_bit (pcs s t) = true → holds_bit (pcs s t') = true → t = t';
  inv_holder : w_lock (owner s) = true → ∃ t, holds_bit (pcs s t) = true;
}.

(** ** One thread's step *)

(** The transitions of thread [t] alone. *)
Inductive tstep (t : positive) : word → list positive → pc → word → list positive → pc → Prop :=
| ts_call o w ws : tstep t w ws Idle w ws (Locking o LFast)
| ts_lock o p w ws w' ws' q :
    lock_step t o w ws p w' ws' q → tstep t w ws (Locking o p) w' ws' q
| ts_return o e w ws : tstep t w ws (Failed o e) w ws Idle
| ts_release w ws : tstep t w ws Held w ws (Unlocking UFast)
| ts_unlock p w ws w' ws' q :
    unlock_step t w ws p w' ws' q → tstep t w ws (Unlocking p) w' ws' q.

Lemma step_tstep s s' :
  step s s' ↔ ∃ t w ws q, tstep t (owner s) (waiters s) (pcs s t) w ws q ∧
                          s' = mkState w ws (goto (pcs s) t q).
Proof.
  split.
  - intros [t o s1 Hp|t o p w ws q s1 Hp Hs|t o e s1 Hp|t s1 Hp|t p w ws q s1 Hp Hs];
      exists t; do 3 eexists; (split; [|reflexivity]); rewrite Hp; by econstructor.
  - intros (t & w & ws & q & Hs & ->).
    inversion Hs; subst; by econstructor.
Qed.

(** What a step promises to the other threads: their ownership and their
    waiters are untouched, and the shared state changes only in the hands of
    the thread that has, or takes, the lock bit. *)
Record guarantee (t : positive) (w : word) (ws : list positive) (p : pc)
    (w' : word) (ws' : list positive) (q : pc) : Prop := {
  g_ptr t' : t' ≠ t → (w_ptr w' = Some t' ↔ w_ptr w = Some t');
  g_ws t' : t' ≠ t → (t' ∈ ws' ↔ t' ∈ ws);
  g_quiet : w_lock w = true → holds_bit p = false →
    w' = w ∧ ws' = ws ∧ holds_bit q = false;
  g_bit : w_lock w = false ∨ holds_bit p = true → w_lock w' = holds_bit q;
}.

Ltac mutex_solve :=
  cbn in *; destruct_and?; simplify_eq/=;
  repeat match goal with
  | H : true = true → _ |- _ => specialize (H eq_refl)
  | H : ?w = ?w → _ |- _ => specialize (H eq_refl)
  end;
  rewrite ?elem_of_app, ?elem_of_cons, ?elem_of_nil in *;
  try solve [done | intuition congruence | naive_solver].

Ltac mutex_quick :=
  cbn in *; destruct_and?; simplify_eq/=;
  rewrite ?elem_of_app, ?elem_of_cons, ?elem_of_nil in *;
  try solve [done | intuition congruence].

(** Every transition of a thread. *)
Ltac step_cases Hs :=
  let Hs' := fresh in let Hs'' := fresh in
  inversion Hs as [|? ? ? ? ? ? ? Hs'| | |? ? ? ? ? ? Hs']; subst;
  try (first [ inversion Hs' as [? ? ? ? ? ? Hs''|? ? ? ? ? ? Hs'']; subst; clear Hs';
               inversion Hs''; subst; clear Hs''
             | inversion Hs'; subst; clear Hs' ]).

Lemma tstep_guarantee t w ws p w' ws' q :
  shared_ok w ws → thread_ok w ws t p → tstep t w ws p w' ws' q →
  guarantee t w ws p w' ws' q.
Proof.
  intros [Hn Hf] [Hl He Ho Hw Hb] Hs.
  step_cases Hs;
    split; intros; mutex_solve.
Qed.

Lemma remove_mid (t : positive) ws1 ws2 :
  NoDup (ws1 ++ t :: ws2) → NoDup (ws1 ++ ws2) ∧ t ∉ ws1 ++ ws2.
Proof. rewrite !NoDup_app, NoDup_cons. set_solver. Qed.

Lemma tstep_shared t w ws p w' ws' q :
  shared_ok w ws → thread_ok w ws t p → tstep t w ws p w' ws' q → shared_ok w' ws'.
Proof.
  intros [Hn Hf] [Hl He Ho Hw Hb] Hs.
  step_cases Hs;
    split; intros; try (apply remove_mid in Hn as [??]); mutex_quick.
  - apply NoDup_app. split_and!; [done|set_solver|apply NoDup_singleton].
  - match goal with |- _ ↔ ?l ≠ [] => assert (l ≠ []) by (intros ->; set_solver) end. done.
  - by rewrite bool_decide_eq_true.
  - rewrite andb_true_iff, bool_decide_eq_true. intuition.
Qed.

Lemma tstep_thread t w ws p w' ws' q :
  shared_ok w ws → thread_ok w ws t p → tstep t w ws p w' ws' q → thread_ok w' ws' t q.
Proof.
  intros [Hn Hf] [Hl He Ho Hw Hb] Hs.
  step_cases Hs;
    split; intros; try (apply remove_mid in Hn as [??]); mutex_quick.
  - by econstructor.
  - by econstructor.
  - congruence.
  - split; [done|]. apply Hf; [done|]. intros E. rewrite E in Hw. set_solver.
  - congruence.
Qed.

(** ** Preservation and reachability *)

Lemma goto_eq f t q : goto f t q t = q.
Proof. unfold goto. by rewrite decide_True. Qed.

Lemma goto_ne f t q t' : t' ≠ t → goto f t q t' = f t'.
Proof. intros. unfold goto. by rewrite decide_False. Qed.

(** Without the lock bit, a thread's knowledge does not depend on the word. *)
Lemma local_frame w ws w' ws' p :
  holds_bit p = false → local_ok w ws p → local_ok w' ws' p.
Proof. by destruct p as [|o []|o e| |[]]. Qed.

Lemma thread_frame t w ws p w' ws' q t' p' :
  guarantee t w ws p w' ws' q → t' ≠ t → thread_ok w ws t' p' →
  (holds_bit p = true → holds_bit p' = false) →
  thread_ok w' ws' t' p'.
Proof.
  intros [Hgp Hgw Hgq Hgb] Hne [Hl He Ho Hw Hb] Hexcl.
  destruct (decide (w_lock w = true ∧ holds_bit p = false)) as [[Hlk Hp]|Hd].
  { destruct (Hgq Hlk Hp) as (-> & -> & _). done. }
  assert (holds_bit p' = false) as Hp'.
  { destruct (holds_bit p) eqn:E; [auto|]. destruct (holds_bit p') eqn:E'; [|done].
    exfalso. apply Hd. auto. }
  split.
  - eauto using local_frame.
  - done.
  - rewrite Hgp by done. done.
  - rewrite Hgw by done. done.
  - by rewrite Hp'.
Qed.

Lemma step_inv s s' : inv s → step s s' → inv s'.
Proof.
  intros [Hs Ht Hu Hh] (t & w & ws & q & Hstep & ->)%step_tstep.
  pose proof (tstep_guarantee _ _ _ _ _ _ _ Hs (Ht t) Hstep) as G.
  pose proof (tstep_thread _ _ _ _ _ _ _ Hs (Ht t) Hstep) as Ht'.
  split; simpl.
  - eauto using tstep_shared.
  - intros t'. destruct (decide (t' = t)) as [->|Hne]; [by rewrite goto_eq|].
    rewrite goto_ne by done. eapply thread_frame; [done..|].
    intros Hb. apply not_true_is_false. intros Hb'. apply Hne. by apply Hu.
  - assert (∀ t', t' ≠ t → holds_bit q = true → holds_bit (pcs s t') = false) as Hex.
    { intros t' Hne Hq. apply not_true_is_false. intros Hb'.
      destruct (holds_bit (pcs s t)) eqn:E; [apply Hne; by apply Hu|].
      pose proof (to_bit _ _ _ _ (Ht t') Hb') as Hl.
      destruct (g_quiet _ _ _ _ _ _ _ G Hl E) as (_ & _ & ?). congruence. }
    intros t1 t2. unfold goto. repeat case_decide; subst; intros H1 H2; try done;
      [by rewrite Hex in H2|by rewrite Hex in H1|by apply Hu].
  - intros Hl. destruct (holds_bit q) eqn:Hq; [exists t; by rewrite goto_eq|].
    destruct (decide (w_lock (owner s) = false ∨ holds_bit (pcs s t) = true)) as [Hd|Hd].
    { rewrite (g_bit _ _ _ _ _ _ _ G Hd) in Hl. congruence. }
    destruct (w_lock (owner s)) eqn:Hlk; [|tauto].
    destruct Hh as [t' Ht1]; [done|]. exists t'. rewrite goto_ne; [done|].
    intros ->. tauto.
Qed.

Lemma initial_inv : inv initial.
Proof. split; simpl; [split|intros t; split| |]; simpl; try done; [constructor|set_solver]. Qed.

Lemma reachable_inv s : reachable s → inv s.
Proof.
  unfold reachable. intros H.
  remember initial as s0 eqn:E. assert (inv s0) as Hi by (subst; apply initial_inv). clear E.
  induction H as [s|s s1 s2 Hs _ IH]; [done|]. eauto using step_inv.
Qed.

(** ** What the mutex promises *)

(** C4. Mutual exclusion: in every reachable state a thread that has returned
    successfully from a lock operation and has not begun to unlock is the owner
    in the mutex word, and no other thread holds the mutex or is on a path that
    owns it. *)
Theorem mutex_exclusion s t :
  reachable s → pcs s t = Held →
  w_ptr (owner s) = Some t ∧ ∀ t', owns (pcs s t') = true → t' = t.
Proof.
  intros [_ Ht _ _]%reachable_inv Hp.
  pose proof (to_owns _ _ _ _ (Ht t)) as Ho. rewrite Hp in Ho.
  destruct Ho as [Ho _]. specialize (Ho eq_refl). split; [done|].
  intros t' Ho'. apply (to_owns _ _ _ _ (Ht t')) in Ho'. congruence.
Qed.

(** C5. No waiter is lost: a thread that finishes an unlock while some thread is
    queued leaves through the slow path's wake-up, which finds the list
    non-empty, reads the waiter at its front, and leaves the waiter flag set
    for it. *)
Theorem mutex_no_lost_waiter s t p w ws t' :
  reachable s → pcs s t = Unlocking p →
  unlock_step t (owner s) (waiters s) p w ws Idle →
  waits (pcs s t') = true →
  p = UWake ∧ w = mkWord None true false ∧
  ∃ x rest, waiters s = x :: rest ∧ waits (pcs s x) = true.
Proof.
  intros [[Hn Hf] Ht _ _]%reachable_inv Hp Hs Hw.
  apply (to_waits _ _ _ _ (Ht t')) in Hw.
  assert (waiters s ≠ []) as Hne by (intros E; rewrite E in Hw; set_solver).
  pose proof (to_local _ _ _ _ (Ht t)) as Hl. rewrite Hp in Hl.
  inversion Hs; subst; cbn in *.
  - exfalso. match goal with H : _ = owner s |- _ => rewrite <-H in Hf end.
    destruct (Hf eq_refl) as [_ Hf']. discriminate (Hf' Hne).
  - exfalso. destruct (Hf Hl) as [_ Hf']. rewrite Hf' in *; done.
  - split_and!; [done..|]. do 2 eexists. split; [done|].
    apply (to_waits _ _ _ _ (Ht _)).
    match goal with H : _ = waiters s |- _ => rewrite <-H end. set_solver.
Qed.

(** The waiter flag is exact whenever the lock bit is clear: it is set if and
    only if some thread is queued, so the unlock fast path succeeds only when
    there is nobody to wake. *)
Theorem mutex_waiter_flag s :
  reachable s → w_lock (owner s) = false →
  (w_waiter (owner s) = true ↔ ∃ t, waits (pcs s t) = true).
Proof.
  intros [[Hn Hf] Ht _ _]%reachable_inv Hlk. rewrite (Hf Hlk). split.
  - destruct (waiters s) as [|x l] eqn:E; [done|]. intros _. exists x.
    apply (to_waits _ _ _ _ (Ht x)). set_solver.
  - intros [t Hw] E. apply (to_waits _ _ _ _ (Ht t)) in Hw. rewrite E in Hw. set_solver.
Qed.

(** C35. No path is ever stuck: in every reachable state every thread has a
    transition.  In particular the removal of the own waiter finds it on the
    list and the unlock path finds a waiter to wake. *)
Theorem mutex_never_stuck s t :
  reachable s → ∃ w ws q, tstep t (owner s) (waiters s) (pcs s t) w ws q.
Proof.
  intros [_ Ht _ _]%reachable_inv. destruct (Ht t) as [Hl He Ho Hw Hb].
  destruct (pcs s t) as [|o p|o e| |p] eqn:E.
  - do 3 eexists. apply (ts_call t op_lock).
  - assert (waits (Locking o p) = true → ∃ l1 l2, waiters s = l1 ++ t :: l2) as Hin.
    { intros H%Hw. by apply list_elem_of_split. }
    assert (∀ lv : word, w_lock lv = true ∨ w_lock lv = false) as Hb2
      by (intros lv; destruct (w_lock lv); auto).
    destruct p as [| lv | | lv | lv | lv | d | d | | lv | | | | lv | | d | d e | d e ];
      try (destruct (Hin eq_refl) as (l1 & l2 & ->));
      try by (do 3 eexists; constructor; constructor; eauto).
    all: try (destruct (Hb2 (owner s)), (decide (w_ptr (owner s) = None));
      do 3 eexists; constructor; by eauto using lock_step, enter_step, woken_step).
    + destruct (Hb2 lv), (decide (ns o = Some 0%Z));
        do 3 eexists; constructor; eauto using lock_step, enter_step, woken_step.
    + destruct (decide (w_ptr lv = None)), (decide (ns o = Some 0%Z));
        do 3 eexists; constructor; eauto using lock_step, enter_step, woken_step.
  - do 3 eexists. constructor.
  - do 3 eexists. constructor.
  - destruct p as [|lv| |lv|]; try by (do 3 eexists; constructor; constructor).
    + destruct (w_lock lv) eqn:?; do 3 eexists; constructor; eauto using unlock_step.
    + destruct (w_lock (owner s)) eqn:?; do 3 eexists; constructor; eauto using unlock_step.
    + destruct (waiters s) as [|x l]; [by destruct Hl|].
      do 3 eexists; constructor; constructor.
Qed.

(** Errors are the ones the operation documents: a lock operation fails with
    [ETIME] only when it has a time-out and with [EINTR] only when it is
    interruptible; [Mutex::lock] never fails, so its panic is unreachable. *)
Theorem mutex_errors s t o e :
  reachable s → pcs s t = Failed o e → gives_up o e ∧ o ≠ op_lock.
Proof.
  intros [_ Ht _ _]%reachable_inv Hp. pose proof (to_fails _ _ _ _ (Ht t)) as Hf.
  rewrite Hp in Hf. simpl in Hf. split; [done|]. intros ->. inversion Hf; done.
Qed.

(** The decoded word is faithful to the machine word: every test and update
    of the source ([lockval & MUTEX_LOCK], [lockval & MUTEX_WAITER],
    [lockval & MUTEX_PTR], [lockval | MUTEX_LOCK], [desired &= ~MUTEX_LOCK],
    [desired |= MUTEX_WAITER], [desired &= ~MUTEX_WAITER]) on the 64-bit value is
    the corresponding operation on the decoded fields, and different decoded
    words have different values, so a compare-and-exchange compares the fields. *)
Theorem mutex_word_faithful w :
  (∀ t, w_ptr w = Some t → (task_addr t < 2 ^ 62)%Z) →
  decode (encode w) = w ∧ u64 (encode w) ∧
  Z.lor (encode w) MUTEX_LOCK = encode (with_lock w true) ∧
  Z.land (encode w) (not64 MUTEX_LOCK) = encode (with_lock w false) ∧
  Z.lor (encode w) MUTEX_WAITER = encode (with_waiter w true) ∧
  Z.land (encode w) (not64 MUTEX_WAITER) = encode (with_waiter w false) ∧
  (Z.land (encode w) MUTEX_LOCK = 0 ↔ w_lock w = false)%Z ∧
  (Z.land (encode w) MUTEX_WAITER = 0 ↔ w_waiter w = false)%Z ∧
  (Z.land (encode w) MUTEX_PTR = 0 ↔ w_ptr w = None)%Z.
Proof.
  intros Hp. pose proof (encode_range w Hp) as Hr. rewrite !land_not64 by done.
  split_and!; [by apply decode_encode|done|..];
    try by destruct w as [[t|] [] []].
  - rewrite encode_ptr by done. destruct (w_ptr w); split; (done || lia).
Qed.

Lemma mutex_word_faithful_witness :
  decode (encode (mkWord (Some 5%positive) true false)) = mkWord (Some 5%positive) true false.
Proof. apply (mutex_word_faithful (mkWord (Some 5%positive) true false)). by intros t [= <-]. Defined.

(** ** A contended lock *)

Section contended.
Local Open Scope positive_scope.

(** Thread 1 holds the mutex. *)
Definition s_held : state :=
  mkState (mkWord (Some 1) false false) []
    (goto (goto (λ _, Idle) 1 (Locking op_lock LFast)) 1 Held).

Lemma s_held_reachable : reachable s_held.
Proof.
  eapply rtc_l; [by apply (step_lock_call 1 op_lock)|].
  eapply rtc_l; [eapply (step_lock 1 op_lock LFast); [reflexivity|apply ls_enter; by apply ls_fast]|].
  apply rtc_refl.
Qed.

(** Thread 2 then goes to sleep on it. *)
Definition s_asleep : state :=
  mkState (mkWord (Some 1) true false) [2]
    (fold_left (λ f p, goto f 2 (Locking op_lock p))
      [LFast; LRetry (mkWord (Some 1) false false); LCheck (mkWord (Some 1) false false);
       LSetLock (mkWord (Some 1) false false); LPush (mkWord (Some 1) false true);
       LSleepy (mkWord (Some 1) false true); LAsleep] (pcs s_held)).

Lemma s_asleep_reachable : reachable s_asleep.
Proof.
  unfold reachable. etrans; [apply s_held_reachable|].
  eapply rtc_l; [by apply (step_lock_call 2 op_lock)|].
  eapply rtc_l; [eapply (step_lock 2 op_lock); [reflexivity|apply ls_enter; by apply ls_fast_fail]|].
  eapply rtc_l; [eapply (step_lock 2 op_lock); [reflexivity|apply ls_enter; by apply ls_retry_check]|].
  eapply rtc_l; [eapply (step_lock 2 op_lock); [reflexivity|apply ls_enter; by apply ls_check_wait]|].
  eapply rtc_l; [eapply (step_lock 2 op_lock); [reflexivity|apply ls_enter; by apply ls_set_lock]|].
  eapply rtc_l; [eapply (step_lock 2 op_lock); [reflexivity|apply ls_enter; by apply ls_push]|].
  eapply rtc_l; [eapply (step_lock 2 op_lock); [reflexivity|apply ls_enter; by apply ls_sleep]|].
  apply rtc_refl.
Qed.

(** Thread 1 unlocks it, as far as the wake-up. *)
Definition s_waking : state :=
  mkState (mkWord None true true) [2]
    (fold_left (λ f p, goto f 1 (Unlocking p))
      [UFast; URetry (mkWord (Some 1) true false); UCheck (mkWord (Some 1) true false); UWake]
      (pcs s_asleep)).

Lemma s_waking_reachable : reachable s_waking.
Proof.
  unfold reachable. etrans; [apply s_asleep_reachable|].
  eapply rtc_l; [by apply (step_unlock_call 1)|].
  eapply rtc_l; [eapply (step_unlock 1); [reflexivity|by apply us_fast_fail]|].
  eapply rtc_l; [eapply (step_unlock 1); [reflexivity|by apply us_retry_check]|].
  eapply rtc_l; [eapply (step_unlock 1); [reflexivity|by apply us_take_lock]|].
  apply rtc_refl.
Qed.

(** A [trylock] of thread 2 in [s_held] fails. *)
Definition s_failed : state :=
  mkState (mkWord (Some 1) false false) []
    (goto (fold_left (λ f p, goto f 2 (Locking op_trylock p))
      [LFast; LRetry (mkWord (Some 1) false false); LCheck (mkWord (Some 1) false false)]
      (pcs s_held)) 2 (Failed op_trylock ETIME)).

Lemma s_failed_reachable : reachable s_failed.
Proof.
  unfold reachable. etrans; [apply s_held_reachable|].
  eapply rtc_l; [by apply (step_lock_call 2 op_trylock)|].
  eapply rtc_l; [eapply (step_lock 2 op_trylock); [reflexivity|apply ls_enter; by apply ls_fast_fail]|].
  eapply rtc_l; [eapply (step_lock 2 op_trylock); [reflexivity|apply ls_enter; by apply ls_retry_check]|].
  eapply rtc_l; [eapply (step_lock 2 op_trylock); [reflexivity|apply ls_enter; by apply ls_check_etime]|].
  apply rtc_refl.
Qed.

Lemma mutex_exclusion_witness :
  pcs s_asleep 1 = Held ∧ ∀ t', owns (pcs s_asleep t') = true → t' = 1.
Proof.
  split; [reflexivity|]. apply (mutex_exclusion s_asleep 1); [apply s_asleep_reachable|reflexivity].
Defined.

Lemma mutex_no_lost_waiter_witness :
  ∃ x rest, waiters s_waking = x :: rest ∧ waits (pcs s_waking x) = true.
Proof.
  apply (mutex_no_lost_waiter s_waking 1 UWake (mkWord None true false) [2] 2);
    [apply s_waking_reachable|reflexivity|apply us_wake|reflexivity].
Defined.

Lemma mutex_waiter_flag_witness :
  w_waiter (owner s_asleep) = true ↔ ∃ t, waits (pcs s_asleep t) = true.
Proof. apply (mutex_waiter_flag s_asleep); [apply s_asleep_reachable|reflexivity]. Defined.

Lemma mutex_never_stuck_witness :
  ∃ w ws q, tstep 1 (owner s_waking) (waiters s_waking) (pcs s_waking 1) w ws q.
Proof. apply (mutex_never_stuck s_waking 1). apply s_waking_reachable. Defined.

Lemma mutex_errors_witness : gives_up op_trylock ETIME.
Proof. apply (mutex_errors s_failed 2); [apply s_failed_reachable|reflexivity]. Defined.

End contended.
