(* ===== verification/RWMutex.v ===== *)
(** * Reader-writer mutexes ([kernel/rwmutex.cc], [include/davix/rwmutex.h])

    The reader-writer mutex is a client of the mutex: it is proved against the
    interface [Lock], which the mutex implements ([mutex_lock] below).  One
    transition is one atomic access of [reader_count] or one completed operation
    on one of the two mutexes. *)

From S2P Require Import Prelude Mutex.

(** ** What a reader-writer mutex needs of a mutex *)

Class Lock (M : Type) := {
  locked : M → bool;
  acquire : M → M → Prop;
  release : M → M → Prop;
  internal : M → M → Prop;
  acquire_ok m m' : acquire m m' → locked m = false ∧ locked m' = true;
  release_ok m m' : release m m' → locked m = true ∧ locked m' = false;
  internal_ok m m' : internal m m' → locked m' = locked m;
}.

(** ** The mutex implements it *)

Section mutex_lock.

Definition mutex_locked (s : Mutex.state) : bool := bool_decide (w_ptr (Mutex.owner s) ≠ None).

(** A transition of one thread that takes [owns] from [before] to [after]. *)
Definition mutex_move (before after : bool) (s s' : Mutex.state) : Prop :=
  Mutex.reachable s ∧ ∃ t w ws q,
    tstep t (Mutex.owner s) (Mutex.waiters s) (Mutex.pcs s t) w ws q ∧
    s' = Mutex.mkState w ws (goto (Mutex.pcs s) t q) ∧
    owns (Mutex.pcs s t) = before ∧ owns q = after.

Lemma mutex_move_ptr b a s s' :
  mutex_move b a s s' → ∃ t,
    (b = true ↔ w_ptr (Mutex.owner s) = Some t) ∧
    (a = true ↔ w_ptr (Mutex.owner s') = Some t) ∧
    ∀ t', t' ≠ t → (w_ptr (Mutex.owner s') = Some t' ↔ w_ptr (Mutex.owner s) = Some t').
Proof.
  intros (Hr & t & w & ws & q & Hs & -> & <- & <-). exists t. simpl.
  apply reachable_inv in Hr as [Hsh Ht _ _]. split_and!.
  - apply (to_owns _ _ _ _ (Ht t)).
  - apply (to_owns _ _ _ _ (tstep_thread _ _ _ _ _ _ _ Hsh (Ht t) Hs)).
  - apply (g_ptr _ _ _ _ _ _ _ (tstep_guarantee _ _ _ _ _ _ _ Hsh (Ht t) Hs)).
Qed.

(** A thread that does not own the mutex becomes its owner only when it is
    free. *)
Lemma acquire_free t w ws p w' ws' q :
  shared_ok w ws → thread_ok w ws t p → tstep t w ws p w' ws' q →
  owns p = false → owns q = true → w_ptr w = None.
Proof.
  intros Hsh [Hl _ _ _ _] Hs Hp Hq.
  step_cases Hs;
    simpl in *; try done; naive_solver.
Qed.

(** Letting go of the mutex leaves it free. *)
Lemma release_free t w ws p w' ws' q :
  tstep t w ws p w' ws' q → owns p = true → owns q = false → w_ptr w' = None.
Proof.
  intros Hs Hp Hq.
  step_cases Hs;
    simpl in *; done.
Qed.

#[global, program] Instance mutex_lock : Lock Mutex.state := {|
  locked := mutex_locked;
  acquire := mutex_move false true;
  release := mutex_move true false;
  internal s s' := mutex_move true true s s' ∨ mutex_move false false s s';
|}.
Next Obligation.
  intros s s' Hm. pose proof (mutex_move_ptr _ _ _ _ Hm) as (t & _ & Ha & _).
  destruct Hm as (Hr & t1 & w & ws & q & Hs & -> & Hb & Hq).
  apply reachable_inv in Hr as [Hsh Ht _ _]. unfold mutex_locked.
  rewrite (acquire_free _ _ _ _ _ _ _ Hsh (Ht t1) Hs Hb Hq).
  split; [done|]. apply bool_decide_eq_true. rewrite (proj1 Ha eq_refl). done.
Qed.
Next Obligation.
  intros s s' Hm. pose proof (mutex_move_ptr _ _ _ _ Hm) as (t & Hb & _).
  destruct Hm as (Hr & t1 & w & ws & q & Hs & -> & Hp & Hq). unfold mutex_locked.
  simpl. rewrite (release_free _ _ _ _ _ _ _ Hs Hp Hq).
  split; [|done]. apply bool_decide_eq_true. rewrite (proj1 Hb eq_refl). done.
Qed.
Next Obligation.
  intros s s' H. apply bool_decide_ext. apply not_iff_compat.
  destruct H as [H|H]; apply mutex_move_ptr in H as (t & Hb & Ha & Ho).
  - rewrite (proj1 Hb eq_refl), (proj1 Ha eq_refl). done.
  - assert (∀ x, w_ptr (Mutex.owner s') = Some x ↔ w_ptr (Mutex.owner s) = Some x) as Hx.
    { intros x. destruct (decide (x = t)) as [->|]; [by rewrite <-Ha, <-Hb|auto]. }
    destruct (w_ptr (Mutex.owner s')) as [x|] eqn:E1, (w_ptr (Mutex.owner s)) as [y|] eqn:E2;
      naive_solver.
Qed.

End mutex_lock.

(** The atomic lock, the simplest implementation. *)
#[global, program] Instance atomic_lock : Lock bool := {|
  locked b := b;
  acquire b b' := b = false ∧ b' = true;
  release b b' := b = true ∧ b' = false;
  internal b b' := b' = b;
|}.
Solve All Obligations with naive_solver.

(** ** The paths *)

(** Control points; a reading path carries the local [val] of
    [inc_unless_zero]. *)
Inductive rpc :=
| RIdle
| RLoad (o : op)            (* inc_unless_zero: the load *)
| RInc (o : op) (val : Z)   (* inc_unless_zero: the loop *)
| RLockReader (o : op)      (* reader_mutex.lock* () *)
| RLoad2 (o : op)
| RInc2 (o : op) (val : Z)
| RLockCommon (o : op)      (* common_mutex.lock* () *)
| RStore                    (* reader_count = 1 *)
| RUnlockReader (e : option (op * err)) (* reader_mutex.unlock () *)
| RHeld
| RRelease                  (* the last reader: common_mutex.unlock () *)
| RFailed (o : op) (e : err)
| WLock (o : op)
| WHeld.

Section rwmutex.
Context {M : Type} `{!Lock M}.

Record rwstate := mkRW {
  common_mutex : M;
  reader_count : Z;
  reader_mutex : M;
  threads : list rpc;
}.

(** What a reader returns with once the reader mutex is unlocked. *)
Definition after_unlock (e : option (op * err)) : rpc :=
  match e with Some (o, e) => RFailed o e | None => RHeld end.

(** One step of a thread: common mutex, reader count, reader mutex, control
    point, before and after. *)
Inductive rwstep : M → Z → M → rpc → M → Z → M → rpc → Prop :=
| rs_call o c n r : rwstep c n r RIdle c n r (RLoad o)
| rs_load o c n r : rwstep c n r (RLoad o) c n r (RInc o n)
| rs_inc o c n r : n ≠ 0%Z → rwstep c n r (RInc o n) c (n +ᵤ 1) r RHeld
| rs_inc_fail o c n r v : v ≠ 0%Z → rwstep c n r (RInc o v) c n r (RInc o n)
| rs_inc_zero o c n r : rwstep c n r (RInc o 0) c n r (RLockReader o)
| rs_lockr o c n r r' : acquire r r' → rwstep c n r (RLockReader o) c n r' (RLoad2 o)
| rs_lockr_fail o e c n r : gives_up o e → rwstep c n r (RLockReader o) c n r (RFailed o e)
| rs_load2 o c n r : rwstep c n r (RLoad2 o) c n r (RInc2 o n)
| rs_inc2 o c n r : n ≠ 0%Z → rwstep c n r (RInc2 o n) c (n +ᵤ 1) r (RUnlockReader None)
| rs_inc2_fail o c n r v : v ≠ 0%Z → rwstep c n r (RInc2 o v) c n r (RInc2 o n)
| rs_inc2_zero o c n r : rwstep c n r (RInc2 o 0) c n r (RLockCommon o)
| rs_lockc o c c' n r : acquire c c' → rwstep c n r (RLockCommon o) c' n r RStore
| rs_lockc_fail o e c n r :
    gives_up o e → rwstep c n r (RLockCommon o) c n r (RUnlockReader (Some (o, e)))
| rs_store c n r : rwstep c n r RStore c 1%Z r (RUnlockReader None)
| rs_unlockr e c n r r' : release r r' → rwstep c n r (RUnlockReader e) c n r' (after_unlock e)
| rs_return o e c n r : rwstep c n r (RFailed o e) c n r RIdle
| rs_dec_last c n r : n -ᵤ 1 = 0%Z → rwstep c n r RHeld c (n -ᵤ 1) r RRelease
| rs_dec c n r : n -ᵤ 1 ≠ 0%Z → rwstep c n r RHeld c (n -ᵤ 1) r RIdle
| rs_release c c' n r : release c c' → rwstep c n r RRelease c' n r RIdle
| ws_call o c n r : rwstep c n r RIdle c n r (WLock o)
| ws_lock o c c' n r : acquire c c' → rwstep c n r (WLock o) c' n r WHeld
| ws_lock_fail o e c n r : gives_up o e → rwstep c n r (WLock o) c n r (RFailed o e)
| ws_unlock c c' n r : release c c' → rwstep c n r WHeld c' n r RIdle.

Inductive rw_step : rwstate → rwstate → Prop :=
| rw_thread i p c n r q s :
    threads s !! i = Some p →
    rwstep (common_mutex s) (reader_count s) (reader_mutex s) p c n r q →
    rw_step s (mkRW c n r (<[i:=q]> (threads s)))
| rw_common c s :
    internal (common_mutex s) c →
    rw_step s (mkRW c (reader_count s) (reader_mutex s) (threads s))
| rw_reader r s :
    internal (reader_mutex s) r →
    rw_step s (mkRW (common_mutex s) (reader_count s) r (threads s)).

(** After [RWMutex::init], with [n] threads. *)
Inductive rw_init (n : nat) : rwstate → Prop :=
| rw_init_intro c r :
    locked c = false → locked r = false → rw_init n (mkRW c 0 r (replicate n RIdle)).

Definition rw_reachable (n : nat) (s : rwstate) : Prop := ∃ s0, rw_init n s0 ∧ rtc rw_step s0 s.

(** ** The invariant *)

(** Threads counted in [reader_count]. *)
Definition reads (p : rpc) : bool :=
  match p with RHeld | RUnlockReader None => true | _ => false end.

(** Threads that have the common mutex for themselves. *)
Definition has_common (p : rpc) : bool :=
  match p with WHeld | RStore | RRelease => true | _ => false end.

(** Threads that have the reader mutex. *)
Definition has_reader (p : rpc) : bool :=
  match p with
  | RLoad2 _ | RInc2 _ _ | RLockCommon _ | RStore | RUnlockReader _ => true
  | _ => false
  end.

(** An error is one the operation can return. *)
Definition rfails_ok (p : rpc) : Prop :=
  match p with RFailed o e | RUnlockReader (Some (o, e)) => gives_up o e | _ => True end.

Record rw_inv (n : nat) (s : rwstate) : Prop := {
  ri_length : length (threads s) = n;
  ri_count : reader_count s = cnt reads (threads s);
  ri_common : (cnt has_common (threads s) + Z.b2z (bool_decide (reader_count s ≠ 0)) =
               Z.b2z (locked (common_mutex s)))%Z;
  ri_reader : cnt has_reader (threads s) = Z.b2z (locked (reader_mutex s));
  ri_fails : Forall rfails_ok (threads s);
}.

Lemma rw_init_inv n s : rw_init n s → rw_inv n s.
Proof.
  intros [c r Hc Hr]. split; simpl; rewrite ?length_replicate, ?cnt_replicate, ?Hc, ?Hr by done; try done.
  by apply Forall_replicate.
Qed.

Ltac lock_facts :=
  repeat match goal with
  | H : acquire _ _ |- _ => apply acquire_ok in H as [??]
  | H : release _ _ |- _ => apply release_ok in H as [??]
  | H : internal _ _ |- _ => apply internal_ok in H
  | H : locked _ = _ |- _ => rewrite H in *; clear H
  end.

Lemma rw_step_inv n s s' :
  (Z.of_nat n < 2 ^ 64)%Z → rw_inv n s → rw_step s s' → rw_inv n s'.
Proof.
  intros Hn [Hl Hc Hm Hr Hf] Hs.
  inversion Hs as [i p c k r q s1 Hi Hp| |]; subst; [|split; simpl; lock_facts; done..].
  pose proof (cnt_le reads (<[i:=q]> (threads s))) as Hle.
  pose proof (cnt_le has_common (<[i:=q]> (threads s))) as Hle'.
  pose proof (cnt_pos reads _ _ _ Hi) as Hpos.
  pose proof (cnt_pos has_common _ _ _ Hi) as Hpos'.
  rewrite length_insert, (cnt_insert _ _ _ _ _ Hi) in Hle.
  rewrite length_insert, (cnt_insert _ _ _ _ _ Hi) in Hle'.
  assert (Forall rfails_ok (<[i:=q]> (threads s))) as Hf'.
  { apply Forall_insert; [done|]. pose proof (Forall_lookup_1 _ _ _ _ Hf Hi) as Hfi.
    inversion Hp; subst; simpl in *; try done. by destruct e as [[]|]. }
  assert (Z.b2z (locked (common_mutex s)) ≤ 1)%Z as Hb by (destruct locked; simpl; lia).
  assert (0 ≤ cnt reads (threads s))%Z as Hge by (by apply cnt_le).
  rewrite Hc in *. clear Hc Hs Hf.
  split; simpl; rewrite ?length_insert, ?(cnt_insert _ _ _ _ _ Hi); try done;
    clear Hf'; generalize dependent (cnt reads (threads s));
    generalize dependent (cnt has_common (threads s));
    generalize dependent (cnt has_reader (threads s)); intros;
    inversion Hp; subst; simpl in *; lock_facts; repeat case_bool_decide; simpl in *;
    try word_lia.
  all: try destruct e as [[]|]; simpl in *; try word_lia.
  all: try specialize (Hpos eq_refl); try specialize (Hpos' eq_refl); try word_lia.
Qed.

Lemma rw_reachable_inv n s :
  (Z.of_nat n < 2 ^ 64)%Z → rw_reachable n s → rw_inv n s.
Proof.
  intros Hn (s0 & H0%rw_init_inv & Hs).
  induction Hs as [|s1 s2 s3 H1 _ IH]; eauto using rw_step_inv.
Qed.

(** ** What the reader-writer mutex promises *)

(** C9. Reader-writer exclusion, over any lock that satisfies the interface:
    with fewer than 2^64 threads, while a writer holds the mutex no other thread
    holds it for writing or for reading, and [reader_count] is zero. *)
Theorem rwmutex_exclusion n s i j p :
  (Z.of_nat n < 2 ^ 64)%Z → rw_reachable n s →
  threads s !! i = Some WHeld → i ≠ j → threads s !! j = Some p →
  p ≠ WHeld ∧ p ≠ RHeld ∧ reader_count s = 0%Z.
Proof.
  intros Hn Hr Hi Hij Hj. destruct (rw_reachable_inv n s Hn Hr) as [_ Hc Hm _ _].
  pose proof (cnt_pos has_common _ _ _ Hi eq_refl) as Hp.
  assert (Z.b2z (locked (common_mutex s)) ≤ 1)%Z as Hb by (destruct locked; simpl; lia).
  split_and!.
  - intros ->. pose proof (cnt_two has_common RIdle _ i j _ _ eq_refl Hij Hi Hj eq_refl eq_refl).
    destruct (bool_decide (reader_count s ≠ 0%Z)); simpl in *; lia.
  - intros ->. pose proof (cnt_pos reads _ _ _ Hj eq_refl).
    rewrite bool_decide_eq_true_2 in Hm by lia. simpl in *. lia.
  - destruct (decide (reader_count s = 0%Z)); [done|].
    rewrite bool_decide_eq_true_2 in Hm by done. simpl in *. lia.
Qed.

(** The reader count is exact: it equals the number of threads that hold the
    mutex for reading (the one about to drop the reader mutex included), so the
    64-bit increments and decrements never wrap; whenever there is a reader the
    common mutex is locked; and nothing is leaked: when no thread is inside an
    operation or holds the mutex, whatever errors and races happened before,
    both mutexes are unlocked and the count is zero. *)
Theorem rwmutex_reader_count n s :
  (Z.of_nat n < 2 ^ 64)%Z → rw_reachable n s →
  reader_count s = cnt reads (threads s) ∧ (0 ≤ reader_count s ≤ Z.of_nat n)%Z ∧
  (reader_count s ≠ 0%Z → locked (common_mutex s) = true) ∧
  (threads s = replicate n RIdle →
   locked (common_mutex s) = false ∧ locked (reader_mutex s) = false ∧ reader_count s = 0%Z).
Proof.
  intros Hn Hr. destruct (rw_reachable_inv n s Hn Hr) as [Hl Hc Hm Hk _].
  pose proof (cnt_le reads (threads s)). split_and!; [done|lia..| |].
  - intros Hne. rewrite bool_decide_eq_true_2 in Hm by done.
    pose proof (cnt_le has_common (threads s)).
    destruct (locked (common_mutex s)); [done|]. simpl in Hm. lia.
  - intros Hidle. rewrite Hidle in Hc, Hm, Hk. rewrite cnt_replicate in Hc, Hm, Hk by done. rewrite Hc in Hm.
    destruct (locked (common_mutex s)), (locked (reader_mutex s)); done.
Qed.

End rwmutex.

(** ** A run with two threads, over the atomic lock *)

Definition rw_start : rwstate (M := bool) := mkRW false 0 false [RIdle; RIdle].

Definition rw_writing : rwstate (M := bool) := mkRW true 0 true [WHeld; RLockCommon op_lock].

Ltac rw_go i rule :=
  eapply rtc_l; [eapply (rw_thread i); [reflexivity|by apply rule]|]; cbn.

Lemma rw_writing_reachable : rw_reachable 2 rw_writing.
Proof.
  exists rw_start. split; [by constructor|].
  rw_go 0 (ws_call op_lock). rw_go 0 (ws_lock op_lock false true).
  rw_go 1 (rs_call op_lock). rw_go 1 (rs_load op_lock). rw_go 1 (rs_inc_zero op_lock).
  rw_go 1 (rs_lockr op_lock true 0%Z false true). rw_go 1 (rs_load2 op_lock).
  rw_go 1 (rs_inc2_zero op_lock). apply rtc_refl.
Qed.

(** Both threads reading, the second through the fast path. *)
Definition rw_reading : rwstate (M := bool) := mkRW true 2 false [RHeld; RHeld].

Lemma rw_reading_reachable : rw_reachable 2 rw_reading.
Proof.
  exists rw_start. split; [by constructor|].
  rw_go 0 (rs_call op_lock). rw_go 0 (rs_load op_lock). rw_go 0 (rs_inc_zero op_lock).
  rw_go 0 (rs_lockr op_lock false 0%Z false true). rw_go 0 (rs_load2 op_lock).
  rw_go 0 (rs_inc2_zero op_lock). rw_go 0 (rs_lockc op_lock false true).
  rw_go 0 @rs_store. rw_go 0 (rs_unlockr None true 1%Z true false).
  rw_go 1 (rs_call op_lock). rw_go 1 (rs_load op_lock). rw_go 1 (rs_inc op_lock).
  apply rtc_refl.
Qed.

(** A reader that tries while the other thread writes, times out and leaves. *)
Lemma rw_quiet_reachable : rw_reachable 2 rw_start.
Proof.
  exists rw_start. split; [by constructor|].
  rw_go 0 (ws_call op_lock). rw_go 0 (ws_lock op_lock false true).
  rw_go 1 (rs_call op_trylock). rw_go 1 (rs_load op_trylock). rw_go 1 (rs_inc_zero op_trylock).
  rw_go 1 (rs_lockr op_trylock true 0%Z false true). rw_go 1 (rs_load2 op_trylock).
  rw_go 1 (rs_inc2_zero op_trylock).
  rw_go 1 (rs_lockc_fail op_trylock ETIME true 0%Z true (gives_up_time op_trylock 0%Z eq_refl)).
  rw_go 1 (rs_unlockr (Some (op_trylock, ETIME)) true 0%Z true false).
  rw_go 1 (rs_return op_trylock ETIME).
  rw_go 0 (ws_unlock true false). apply rtc_refl.
Qed.

Lemma rwmutex_exclusion_witness : RLockCommon op_lock ≠ RHeld.
Proof.
  apply (rwmutex_exclusion 2 rw_writing 0 1);
    [done|apply rw_writing_reachable|reflexivity|done|reflexivity].
Defined.

Lemma rwmutex_reader_count_witness :
  locked (common_mutex rw_reading) = true ∧ locked (reader_mutex rw_start) = false.
Proof.
  split.
  - by apply (rwmutex_reader_count 2 rw_reading); [|apply rw_reading_reachable|].
  - by apply (rwmutex_reader_count 2 rw_start); [|apply rw_quiet_reachable|].
Defined.
