(* ===== verification/Rcu.v ===== *)
(** * Segment Tree RCU ([kernel/rcu.cc])

    The segment tree keeps, for every CPU (a leaf) and every inner node, the
    generation it has reached and whether anything below it is active.  The
    three operations climb from the CPU's leaf to the root, one critical section
    per node; here each operation runs alone, from its load of the generation to
    its end.  [RcuSmp] interleaves them.  Generations are 64-bit. *)

From S2P Require Import Prelude LinkedList.

Section rcu_defs.
Local Open Scope Z_scope.

(** [CONFIG_MAX_NR_CPUS], a parameter of the build. *)
Context (NR_CPUS : nat).

Record rcu_st_node := mkSt { generation : Z; active : bool }.

Definition segtree : Type := nat → rcu_st_node.

Definition upd_node (t : segtree) (i : nat) (n : rcu_st_node) : segtree :=
  λ j, if decide (j = i) then n else t j.

Definition set_generation (t : segtree) (i : nat) (g : Z) : segtree :=
  upd_node t i (mkSt g (active (t i))).

Definition set_active (t : segtree) (i : nat) (b : bool) : segtree :=
  upd_node t i (mkSt (generation (t i)) b).

Definition parent (i : nat) : nat := Nat.div2 i.
Definition buddy (i : nat) : nat := if Nat.even i then S i else pred i.
Definition leaf (cpu : nat) : nat := (NR_CPUS + cpu)%nat.

(** One iteration of each climb, the critical section under the parent's lock:
    the tree and whether the climb goes on to the parent. *)
Definition quiesce_node (t : segtree) (g : Z) (index : nat) : segtree * bool :=
  if decide (generation (t index) = g) then (t, false) else
  let t := set_generation t index g in
  if active (t (buddy index)) && bool_decide (generation (t (buddy index)) ≠ g)
  then (t, false) else (t, true).

Definition enable_node (t : segtree) (g : Z) (index : nat) : segtree * bool :=
  if active (t index) then (t, false) else
  let t := set_active (set_generation t index g) index true in
  if active (t (buddy index)) then (t, false) else (t, true).

Definition disable_node (t : segtree) (index : nat) : segtree * bool :=
  if negb (active (t index)) then (t, false) else
  let t := set_active t index false in
  if active (t (buddy index)) then (t, false) else (t, true).

(** The climbs.  The result is the tree and whether the root was reached;
    [None] is running out of fuel. *)
Fixpoint climb_loop (body : segtree → nat → segtree * bool) (fuel : nat) (t : segtree)
    (index : nat) : option (segtree * bool) :=
  match fuel with
  | O => None
  | S fuel =>
    if decide (1 < index)%nat then
      let '(t, up) := body t index in
      if up : bool then climb_loop body fuel t (parent index) else Some (t, false)
    else Some (t, true)
  end.

Definition quiesce_loop (fuel : nat) (t : segtree) (g : Z) (index : nat) : option (segtree * bool) :=
  climb_loop (λ t, quiesce_node t g) fuel t index.

Definition enable_loop (fuel : nat) (t : segtree) (g : Z) (index : nat) : option (segtree * bool) :=
  climb_loop (λ t, enable_node t g) fuel t index.

Definition disable_loop (fuel : nat) (t : segtree) (index : nat) : option (segtree * bool) :=
  climb_loop disable_node fuel t index.

(** ** The whole state *)

(** [next] of every [RCUHead]; [callback_list]; the per-CPU
    [rcu_cb_dispatch_ptr]. *)
Record rcu := mkRcu {
  tree : segtree;
  global_current_generation : Z;
  callback_list : Z → option loc;
  head_next : gmap loc (option loc);
  dispatch_ptr : nat → option loc;
}.

Definition slot (generation : Z) : Z := Z.land generation 3.

Definition set_slot (f : Z → option loc) (s : Z) (h : option loc) : Z → option loc :=
  λ s', if decide (s' = s) then h else f s'.

(** The new head is published with its [next] field as it was. *)
Definition rcu_call (r : rcu) (head : loc) : rcu :=
  let gen := global_current_generation r +ᵤ 1 in
  mkRcu (tree r) (global_current_generation r)
    (set_slot (callback_list r) (slot gen) (Some head)) (head_next r) (dispatch_ptr r).

(** The list walked by the DPC: the callbacks it calls, in order. *)
Fixpoint chain (fuel : nat) (next : gmap loc (option loc)) (head : option loc) : option (list loc) :=
  match head with
  | None => Some []
  | Some h =>
    match fuel with
    | O => None
    | S fuel => n ← next !! h; rest ← chain fuel next n; Some (h :: rest)
    end
  end.

Definition rcu_dispatch_dpc_func (r : rcu) (cpu : nat) : option (rcu * list loc) :=
  called ← chain (S (size (head_next r))) (head_next r) (dispatch_ptr r cpu);
  Some (mkRcu (tree r) (global_current_generation r) (callback_list r) (head_next r)
          (λ c, if decide (c = cpu) then None else dispatch_ptr r c), called).

(** [None] is the panic. *)
Definition dispatch_callbacks (r : rcu) (cpu : nat) (generation : Z) : option rcu :=
  let list' := set_slot (callback_list r) (slot generation) None in
  match callback_list r (slot generation) with
  | None => Some (mkRcu (tree r) (global_current_generation r) list' (head_next r) (dispatch_ptr r))
  | Some head =>
    match dispatch_ptr r cpu with
    | Some _ => None
    | None =>
      Some (mkRcu (tree r) (global_current_generation r) list' (head_next r)
              (λ c, if decide (c = cpu) then Some head else dispatch_ptr r c))
    end
  end.

Definition rcu_begin_next_generation (r : rcu) (cpu : nat) (old_generation : Z) : option rcu :=
  dispatch_callbacks
    (mkRcu (tree r) (old_generation +ᵤ 1) (callback_list r) (head_next r) (dispatch_ptr r))
    cpu old_generation.

(** What the three operations do with the end of their climb. *)
Definition finish (r : rcu) (cpu : nat) (res : option (segtree * bool)) : option rcu :=
  '(t, top) ← res;
  let r' := mkRcu t (global_current_generation r) (callback_list r) (head_next r) (dispatch_ptr r) in
  if top : bool then rcu_begin_next_generation r' cpu (global_current_generation r) else Some r'.

Definition rcu_quiesce (r : rcu) (cpu : nat) : option rcu :=
  finish r cpu
    (quiesce_loop (S (leaf cpu)) (tree r) (global_current_generation r) (leaf cpu)).

Definition rcu_enable (r : rcu) (cpu : nat) : option rcu :=
  finish r cpu
    (enable_loop (S (leaf cpu)) (tree r) (global_current_generation r) (leaf cpu)).

Definition rcu_disable (r : rcu) (cpu : nat) : option rcu :=
  finish r cpu (disable_loop (S (leaf cpu)) (tree r) (leaf cpu)).

(** ** The invariant *)

(** Inner nodes other than the root. *)
Definition inner (i : nat) : Prop := (2 <= i < NR_CPUS)%nat.
Definition node (i : nat) : Prop := (2 <= i < 2 * NR_CPUS)%nat.

(** An active node makes its inner parent active, and an inner node that has
    reached the current generation has no active child that lags. *)
Record seg_inv (g : Z) (t : segtree) : Prop := {
  si_up c : node c → inner (parent c) → active (t c) = true → active (t (parent c)) = true;
  si_gen c : node c → inner (parent c) → active (t c) = true →
    generation (t (parent c)) = g → generation (t c) = g;
  si_le c : node c → generation (t c) <= g;
}.

End rcu_defs.

Section rcu.
Local Open Scope Z_scope.
Context (NR_CPUS : nat).
Implicit Types (t : segtree) (g : Z).

Abbreviation node := (node NR_CPUS).
Abbreviation inner := (inner NR_CPUS).
Abbreviation seg_inv := (seg_inv NR_CPUS).

(** ** The shape of the tree *)

(** Every index is [2 k] or [2 k + 1]; then both functions are arithmetic. *)
Lemma index_cases i : ∃ k, (i = 2 * k ∧ buddy i = S i ∨ i = S (2 * k) ∧ buddy i = 2 * k)%nat ∧
  parent i = k.
Proof.
  unfold buddy, parent. destruct (Nat.even i) eqn:E.
  - apply Nat.even_spec in E as [k ->]. exists k. rewrite Nat.div2_double. auto.
  - assert (Nat.odd i = true) as [k ->]%Nat.odd_spec by (by rewrite <-Nat.negb_even, E).
    exists k. rewrite Nat.add_1_r, Nat.div2_succ_double. auto.
Qed.

Ltac index_lia :=
  unfold Rcu.node, Rcu.inner in *;
  repeat match goal with
  | |- context [parent ?i] =>
      let k := fresh in let H := fresh in let E := fresh in
      destruct (index_cases i) as (k & H & E); rewrite E in *; clear E
  | _ : context [parent ?i] |- _ =>
      let k := fresh in let H := fresh in let E := fresh in
      destruct (index_cases i) as (k & H & E); rewrite E in *; clear E
  | |- context [buddy ?i] =>
      lazymatch goal with
      | _ : context [buddy i = _] |- _ => fail
      | _ => destruct (index_cases i) as (? & ? & _)
      end
  end; lia.

Lemma parent_buddy i : (2 <= i)%nat → parent (buddy i) = parent i.
Proof. intros. index_lia. Qed.

Lemma siblings c i : parent c = parent i → c = i ∨ c = buddy i.
Proof. intros. index_lia. Qed.

Lemma buddy_ne i : (2 <= i)%nat → buddy i ≠ i.
Proof. intros. index_lia. Qed.

Lemma parent_lt i : (2 <= i)%nat → (1 <= parent i < i)%nat.
Proof. intros. index_lia. Qed.

Lemma node_buddy i : node i → node (buddy i).
Proof. intros. index_lia. Qed.

Lemma node_parent i : node i → parent i = 1%nat ∨ (inner (parent i) ∧ node (parent i)).
Proof. intros. index_lia. Qed.

Lemma leaf_no_child i c : (NR_CPUS <= i)%nat → node c → parent c ≠ i.
Proof. intros. index_lia. Qed.

Lemma upd_node_eq t i n : upd_node t i n i = n.
Proof. unfold upd_node. by rewrite decide_True. Qed.

Lemma upd_node_ne t i n j : j ≠ i → upd_node t i n j = t j.
Proof. intros. unfold upd_node. by rewrite decide_False. Qed.

(** ** Everybody has reached the generation *)

Definition children_current g t (i : nat) : Prop :=
  ∀ c, node c → parent c = i → active (t c) = true → generation (t c) = g.

Definition all_current g t : Prop :=
  ∀ c, node c → active (t c) = true → generation (t c) = g.

Lemma root_current g t : seg_inv g t → children_current g t 1 → all_current g t.
Proof.
  intros [Hup Hgen _] Hroot c. induction (lt_wf c) as [c _ IH]. intros Hc Ha.
  destruct (node_parent c Hc) as [Hp|[Hi Hn]]; [by apply Hroot|].
  apply Hgen; [done..|]. apply IH; [|done|by apply Hup].
  apply parent_lt. destruct Hc. lia.
Qed.

(** What the operations of RCU preserve and when they may end a generation. *)
Definition climbed g (res : option (segtree * bool)) : Prop :=
  ∃ t top, res = Some (t, top) ∧ seg_inv g t ∧ (top = true → all_current g t).

Lemma quiesce_step g t i :
  node i → seg_inv g t → children_current g t i → seg_inv g (set_generation t i g).
Proof.
  intros Hi [Hup Hgen Hle] Hc. unfold set_generation. split.
  - intros c. unfold upd_node. repeat case_decide; simpl; subst; eauto.
  - intros c. unfold upd_node. repeat case_decide; simpl; subst; eauto.
  - intros c. unfold upd_node. case_decide; simpl; [lia|eauto].
Qed.

(** A generic climb: [Q] is what holds at the node the climb has reached. *)
Lemma climb_loop_ok g (Q : segtree → nat → Prop) body fuel : ∀ t i,
  (∀ t i, node i → Q t i →
    match body t i with
    | (t', true) => Q t' (parent i)
    | (t', false) => seg_inv g t'
    end) →
  (∀ t, Q t 1%nat → seg_inv g t ∧ all_current g t) →
  (i < fuel)%nat → node i ∨ i = 1%nat → Q t i →
  climbed g (climb_loop body fuel t i).
Proof.
  induction fuel as [|fuel IH]; intros t i Hb Htop Hf Hi HQ; [lia|]. simpl.
  destruct (decide (1 < i)%nat) as [Hlt|Hge].
  2: { assert (i = 1%nat) as -> by (destruct Hi as [[]|]; lia).
       exists t, true. destruct (Htop t HQ). naive_solver. }
  destruct Hi as [Hi|Hi]; [|lia]. specialize (Hb t i Hi HQ) as Hbi.
  destruct (body t i) as [t' [|]]; [|by exists t', false].
  apply IH; [done..| | |done].
  - pose proof (parent_lt i). lia.
  - destruct (node_parent i Hi); naive_solver.
Qed.

Lemma quiesce_node_ok g t i :
  node i → seg_inv g t → children_current g t i →
  match quiesce_node t g i with
  | (t', true) => seg_inv g t' ∧ children_current g t' (parent i)
  | (t', false) => seg_inv g t'
  end.
Proof.
  intros Hi Hinv Hc. unfold quiesce_node. case_decide as Hg; [done|].
  pose proof (quiesce_step g t i Hi Hinv Hc) as Hinv'.
  destruct (active _ && _) eqn:E; [done|]. split; [done|].
  intros c Hn [->| ->]%siblings Ha.
  - unfold set_generation. by rewrite upd_node_eq.
  - rewrite Ha in E. simpl in E. by apply bool_decide_eq_false, dec_stable in E.
Qed.

(** While [rcu_enable] climbs, the parent of the node just made active may still
    be inactive. *)
Record enabling g t (i : nat) : Prop := {
  en_up c : node c → inner (parent c) → parent c ≠ i → active (t c) = true →
    active (t (parent c)) = true;
  en_gen c : node c → inner (parent c) → active (t c) = true →
    generation (t (parent c)) = g → generation (t c) = g;
  en_le c : node c → generation (t c) <= g;
  en_children : children_current g t i;
}.

Lemma enable_step g t i (t' := set_active (set_generation t i g) i true) :
  node i → enabling g t i →
  (∀ c, node c → inner (parent c) → parent c ≠ parent i → active (t' c) = true →
    active (t' (parent c)) = true) ∧
  (∀ c, node c → inner (parent c) → active (t' c) = true →
    generation (t' (parent c)) = g → generation (t' c) = g) ∧
  (∀ c, node c → generation (t' c) <= g).
Proof.
  intros Hi [Hup Hgen Hle Hc]. subst t'. unfold set_active, set_generation.
  split_and!; intros c Hn; unfold upd_node; repeat case_decide; simpl; subst;
    try (intros; by eauto); lia || naive_solver.
Qed.

Lemma enabling_done g t i :
  enabling g t i → (inner i → active (t i) = true) → seg_inv g t.
Proof.
  intros [Hup Hgen Hle Hc] Hact. split; [|done..].
  intros c Hn Hin Ha. destruct (decide (parent c = i)) as [<-|]; auto.
Qed.

Lemma enable_node_ok g t i :
  node i → enabling g t i →
  match enable_node t g i with
  | (t', true) => enabling g t' (parent i)
  | (t', false) => seg_inv g t'
  end.
Proof.
  intros Hi Hinv. unfold enable_node.
  destruct (active (t i)) eqn:Hact; [by eapply enabling_done|].
  destruct (enable_step g t i Hi Hinv) as (Hup & Hgen & Hle).
  set (t' := set_active (set_generation t i g) i true) in *.
  assert (active (t' i) = true ∧ generation (t' i) = g) as [Ha Hg].
  { unfold t', set_active, set_generation. by rewrite !upd_node_eq. }
  assert (∀ j, j ≠ i → t' j = t j) as Hne.
  { intros j Hj. unfold t', set_active, set_generation. by rewrite !upd_node_ne. }
  assert (2 <= i)%nat as Hi2 by (destruct Hi; lia).
  pose proof (parent_lt i Hi2) as Hlt. pose proof (parent_buddy i Hi2) as Hpb.
  destruct (active (t' (buddy i))) eqn:Hb.
  - split; [|done..].
    intros c Hn Hin. destruct (decide (parent c = parent i)) as [E|]; [|auto]. intros _.
    rewrite E in Hin |- *. rewrite Hne in Hb by by apply buddy_ne. rewrite Hne by lia. rewrite <-Hpb.
    apply (en_up _ _ _ Hinv); [by apply node_buddy|by rewrite Hpb|lia|done].
  - split; [done..|]. intros c Hn [->| ->]%siblings; [done|congruence].
Qed.

Definition no_active_child t (i : nat) : Prop :=
  ∀ c, node c → parent c = i → active (t c) = false.

Lemma disable_node_ok g t i :
  node i → seg_inv g t → no_active_child t i →
  match disable_node t i with
  | (t', true) => seg_inv g t' ∧ no_active_child t' (parent i)
  | (t', false) => seg_inv g t'
  end.
Proof.
  intros Hi Hinv Hc. unfold disable_node.
  destruct (active (t i)) eqn:Hact; simpl; [|done].
  assert (seg_inv g (set_active t i false)) as Hinv'.
  { destruct Hinv as [Hup Hgen Hle]. unfold set_active.
    split; intros c Hn; unfold upd_node; repeat case_decide; simpl; subst; eauto; try done.
    intros _ Ha. rewrite Hc in Ha; done. }
  destruct (active (set_active t i false (buddy i))) eqn:Hb; [done|]. split; [done|].
  intros c Hn [->| ->]%siblings; [|done]. unfold set_active. by rewrite upd_node_eq.
Qed.

Lemma no_active_root g t : seg_inv g t → no_active_child t 1 → all_current g t.
Proof. intros Hinv Hc. apply root_current; [done|]. intros c Hn Hp Ha. by rewrite Hc in Ha. Qed.

Lemma enabling_root g t : enabling g t 1 → seg_inv g t ∧ all_current g t.
Proof.
  intros Hen. assert (seg_inv g t) as Hinv.
  { eapply enabling_done; [done|]. intros []. lia. }
  split; [done|]. apply root_current; [done|]. apply Hen.
Qed.

(** ** The operations *)

Inductive rcu_op := Quiesce | Enable | Disable.

Definition run_op (r : rcu) (o : rcu_op) (cpu : nat) : option rcu :=
  match o with
  | Quiesce => rcu_quiesce NR_CPUS r cpu
  | Enable => rcu_enable NR_CPUS r cpu
  | Disable => rcu_disable NR_CPUS r cpu
  end.

Definition rcu_inv (r : rcu) : Prop := seg_inv (global_current_generation r) (tree r).

Definition run_climb (r : rcu) (o : rcu_op) (cpu : nat) : option (segtree * bool) :=
  let i := leaf NR_CPUS cpu in
  match o with
  | Quiesce => quiesce_loop (S i) (tree r) (global_current_generation r) i
  | Enable => enable_loop (S i) (tree r) (global_current_generation r) i
  | Disable => disable_loop (S i) (tree r) i
  end.

Lemma enabling_leaf g t i : (∀ c, node c → parent c ≠ i) → seg_inv g t → enabling g t i.
Proof.
  intros Hleaf [Hup Hgen Hle]. split; eauto. intros c Hn Hp. by destruct (Hleaf c).
Qed.

Lemma run_op_finish r o cpu : run_op r o cpu = finish r cpu (run_climb r o cpu).
Proof. by destruct o. Qed.

Lemma run_climb_ok r o cpu :
  (cpu < NR_CPUS)%nat → rcu_inv r → climbed (global_current_generation r) (run_climb r o cpu).
Proof.
  intros Hcpu Hinv. set (i := leaf NR_CPUS cpu).
  assert (node i ∨ i = 1%nat) as Hi by (unfold i, leaf, Rcu.node; lia).
  assert (∀ c, node c → parent c ≠ i) as Hleaf.
  { intros c. apply leaf_no_child. unfold i, leaf. lia. }
  unfold run_climb. fold i. destruct o.
  - apply (climb_loop_ok _ (λ t i, seg_inv (global_current_generation r) t ∧
      children_current (global_current_generation r) t i)); [| |lia|done|].
    + intros t j Hj []. by apply quiesce_node_ok.
    + intros t []. eauto using root_current.
    + split; [done|]. intros c Hn Hp. by destruct (Hleaf c).
  - apply (climb_loop_ok _ (enabling (global_current_generation r))); [| |lia|done|].
    + intros t j Hj. by apply enable_node_ok.
    + intros t. apply enabling_root.
    + by apply enabling_leaf.
  - apply (climb_loop_ok _ (λ t i, seg_inv (global_current_generation r) t ∧
      no_active_child t i)); [| |lia|done|].
    + intros t j Hj []. by apply disable_node_ok.
    + intros t []. eauto using no_active_root.
    + split; [done|]. intros c Hn Hp. by destruct (Hleaf c).
Qed.

Lemma advance_inv g t : seg_inv g t → seg_inv (g + 1) t.
Proof.
  intros [Hup Hgen Hle]. split; [done| |].
  - intros c Hn Hi _ Hp. destruct (node_parent c Hn) as [E|[_ Hp']].
    + rewrite E in Hi. destruct Hi. lia.
    + specialize (Hle _ Hp'). lia.
  - intros c Hn. specialize (Hle c Hn). lia.
Qed.

Lemma slot_succ g : 0 <= g → slot (g + 1) ≠ slot g.
Proof.
  unfold slot. intros. change 3 with (Z.ones 2). rewrite !Z.land_ones by lia.
  change (2 ^ 2) with 4. Z.div_mod_to_equations; lia.
Qed.

(** An operation that runs alone finishes and preserves the segment tree's
    invariant; and it either leaves the generation alone or moves
    it on by one, in which case every active CPU has announced the generation
    that ends, exactly the callbacks queued for that generation are handed to
    the dispatching DPC, and the callbacks queued since it began stay where they
    are. *)
Lemma rcu_generation_safe r o cpu (g := global_current_generation r) :
  (cpu < NR_CPUS)%nat → rcu_inv r → 0 <= g < 2 ^ 64 - 1 → dispatch_ptr r cpu = None →
  ∃ r', run_op r o cpu = Some r' ∧ rcu_inv r' ∧
    ((global_current_generation r' = g ∧ callback_list r' = callback_list r ∧
      dispatch_ptr r' = dispatch_ptr r) ∨
     (global_current_generation r' = g + 1 ∧
      (∀ c, (c < NR_CPUS)%nat → (1 < NR_CPUS)%nat → active (tree r' (leaf NR_CPUS c)) = true →
        generation (tree r' (leaf NR_CPUS c)) = g) ∧
      dispatch_ptr r' cpu = callback_list r (slot g) ∧
      callback_list r' (slot g) = None ∧
      callback_list r' (slot (g + 1)) = callback_list r (slot (g + 1)))).
Proof.
  intros Hcpu Hinv Hg Hd. rewrite run_op_finish.
  destruct (run_climb_ok r o cpu Hcpu Hinv) as (t & top & -> & Ht & Htop).
  unfold finish. cbn [mbind option_bind]. destruct top.
  2: { eexists. split; [done|]. split; [done|]. by left. }
  specialize (Htop eq_refl). unfold rcu_begin_next_generation, dispatch_callbacks. simpl.
  rewrite Hd. fold g. rewrite (add64_small g 1) by lia.
  assert (∀ c, (c < NR_CPUS)%nat → (1 < NR_CPUS)%nat → active (t (leaf NR_CPUS c)) = true →
            generation (t (leaf NR_CPUS c)) = g) as Hall.
  { intros c Hc HN Ha. apply Htop; [|done]. unfold Rcu.node, leaf. lia. }
  pose proof (advance_inv _ _ Ht) as Ht'.
  pose proof (slot_succ g ltac:(lia)) as Hslot. unfold set_slot.
  destruct (callback_list r (slot g)) eqn:Hcb; eexists; (split; [done|]); (split; [done|]); right;
    simpl; rewrite ?(decide_True (P := cpu = cpu)), ?(decide_True (P := slot g = slot g)) by done;
    rewrite decide_False by done; done.
Qed.

End rcu.

(** ** A grace period that never ends *)

Section stall.
Local Open Scope Z_scope.

(** Two CPUs; no callback. *)
Definition rcu_boot : rcu := mkRcu (λ _, mkSt 0 false) 1 (λ _, None) ∅ (λ _, None).

(** The discipline of the callers: a CPU enables RCU when it is not
    participating, and quiesces or disables it when it is. *)
Definition run_legal (r : rcu) (o : rcu_op) (cpu : nat) : option rcu :=
  let a := active (tree r (leaf 2 cpu)) in
  match o with
  | Enable => if a then None else run_op 2 r o cpu
  | _ => if a then run_op 2 r o cpu else None
  end.

Fixpoint run_ops (r : rcu) (l : list (rcu_op * nat)) : option rcu :=
  match l with
  | [] => Some r
  | (o, cpu) :: l => r ← run_legal r o cpu; run_ops r l
  end.

(** CPU 0 quiesces; then CPU 1, which has not, goes idle. *)
Definition stall_prefix : list (rcu_op * nat) :=
  [(Enable, 0%nat); (Enable, 1%nat); (Quiesce, 0%nat); (Quiesce, 0%nat); (Disable, 1%nat)].

Record stalled (r : rcu) : Prop := {
  st_gen : global_current_generation r = 3;
  st_cpu0 : tree r 2%nat = mkSt 3 true;
  st_cpu1 : tree r 3%nat = mkSt 2 false ∨ tree r 3%nat = mkSt 3 true ∨ tree r 3%nat = mkSt 3 false;
}.

Lemma stalled_prefix : ∃ r, run_ops rcu_boot stall_prefix = Some r ∧ stalled r.
Proof.
  unfold stall_prefix.
  destruct (run_ops rcu_boot _) as [r|] eqn:E; [|by vm_compute in E].
  exists r. split; [done|]. vm_compute in E. injection E as <-. by repeat constructor.
Qed.

Lemma stalled_step r o cpu r' :
  stalled r → cpu = 0%nat ∧ o = Quiesce ∨ cpu = 1%nat → run_legal r o cpu = Some r' → stalled r'.
Proof.
  intros [Hg H0 H1] Hop. unfold run_legal, run_op, rcu_quiesce, rcu_enable, rcu_disable.
  destruct r as [t g cl hn dp]. cbn in Hg, H0, H1. subst g.
  destruct Hop as [[-> ->]| ->]; [|destruct o]; destruct H1 as [H1|[H1|H1]];
    cbn -[decide]; rewrite ?H0, ?H1; cbn -[decide]; try done;
    repeat first [ rewrite decide_True by (lia || congruence)
                 | rewrite decide_False by (lia || congruence)
                 | rewrite H0 | rewrite H1
                 | progress unfold quiesce_loop, enable_loop, disable_loop, quiesce_node, enable_node,
                     disable_node, set_active, set_generation, upd_node
                 | progress cbn -[decide] ]; rewrite ?H0, ?H1; cbn -[decide];
    intros [= <-]; split; cbn -[decide]; auto;
    repeat first [ rewrite decide_True by done | rewrite decide_False by done
                 | rewrite H0 | rewrite H1 | progress cbn -[decide] ]; auto.
Qed.

(** Defect: a grace period can stall.  After CPU 0 has quiesced in a
    generation that CPU 1 has not reached, let CPU 1 go idle ([rcu_disable]).
    Then, however often CPU 0 quiesces and CPU 1 wakes up, quiesces and goes
    idle again, as long as CPU 0 does not itself go idle the generation does not
    advance, although every active CPU has announced it. *)
Theorem rcu_grace_period_stalls l r :
  Forall (λ '(o, cpu), cpu = 0%nat ∧ o = Quiesce ∨ cpu = 1%nat) l →
  run_ops rcu_boot (stall_prefix ++ l) = Some r →
  global_current_generation r = 3 ∧ generation (tree r (leaf 2 0)) = 3 ∧
  (active (tree r (leaf 2 1)) = true → generation (tree r (leaf 2 1)) = 3).
Proof.
  intros Hl Hr.
  assert (∀ l1 l2 r0, run_ops r0 (l1 ++ l2) = (r1 ← run_ops r0 l1; run_ops r1 l2)) as Happ.
  { induction l1 as [|[o c] l1 IH]; intros l2 r0; [done|]. cbn [app run_ops].
    destruct (run_legal r0 o c); [apply IH|done]. }
  rewrite Happ in Hr. destruct stalled_prefix as (r1 & E1 & Hs). rewrite E1 in Hr. cbn [mbind option_bind] in Hr.
  clear E1. revert r1 Hs Hr. induction Hl as [|[o c] l Ho _ IH]; intros r1 Hs Hr.
  - injection Hr as <-. destruct Hs as [Hg H0 H1]. unfold leaf. simpl.
    split_and!; [done|by rewrite H0|]. destruct H1 as [H1|[H1|H1]]; by rewrite H1.
  - cbn [run_ops] in Hr. destruct (run_legal r1 o c) as [r2|] eqn:E; [|done].
    eapply IH; [|done]. by eapply stalled_step.
Qed.

Lemma rcu_grace_period_stalls_witness :
  ∃ r, run_ops rcu_boot (stall_prefix ++
         [(Quiesce, 0%nat); (Enable, 1%nat); (Quiesce, 1%nat); (Quiesce, 0%nat)]) = Some r ∧
       global_current_generation r = 3.
Proof.
  destruct (run_ops rcu_boot _) as [r|] eqn:E; [|by vm_compute in E].
  exists r. split; [done|].
  eapply (rcu_grace_period_stalls
    [(Quiesce, 0%nat); (Enable, 1%nat); (Quiesce, 1%nat); (Quiesce, 0%nat)]); [|exact E].
  repeat (apply Forall_cons_2; [auto|]). apply Forall_nil_2.
Defined.

(** A callback queued while another waits for the same generation replaces it:
    [rcu_call] does not link the new head to the old one. *)
Example rcu_call_drops_callbacks :
  let heads := {[7%positive := None; 8%positive := None]} in
  let r := mkRcu (tree rcu_boot) 1 (λ _, None) heads (λ _, None) in
  let r := rcu_call (rcu_call r 7%positive) 8%positive in
  (r ← run_ops r [(Enable, 0%nat); (Enable, 1%nat); (Quiesce, 0%nat)];
   snd <$> rcu_dispatch_dpc_func r 0%nat) = Some [8%positive].
Proof. vm_compute. reflexivity. Qed.

End stall.
