(* ===== verification/RcuSmp.v ===== *)
(** * RCU on several CPUs ([kernel/rcu.cc])

    The operations of [Rcu] interleaved: a transition is one load of the
    generation, one critical section under a node's spinlock, the store of the
    next generation, the exchange of a callback list, or the exchange that
    publishes an [RCUHead].  Between two of its transitions a CPU keeps what its
    local variables hold ([pending]); an operation that is not interrupted is the
    function of [Rcu] ([alone_is_sequential]).  Grace periods are long enough in every
    run in which [rcu_enable] and [rcu_disable] do not overlap with another
    operation on the segment tree; [rcu_quiesce], [rcu_call] and the dispatching
    DPC interleave freely.  Two overlapping calls of [rcu_enable] are enough to
    end a grace period early ([rcu_enable_race]). *)

From S2P Require Import Prelude LinkedList Rcu.

Section smp_defs.
Local Open Scope Z_scope.
Context (NR_CPUS : nat).

#[global] Instance rcu_op_eq_dec : EqDecision rcu_op.
Proof. solve_decision. Defined.

(** What a CPU is doing: climbing with the generation it loaded, about to take
    the callbacks of the generation it ended, or about to publish a head. *)
Inductive pending :=
| Climbing (o : rcu_op) (g : Z) (index : nat)
| Ending (o : rcu_op) (g : Z)
| Calling (head : loc) (g : Z).

Record smp := mkSmp { rst : rcu; ops : gmap nat pending }.

Inductive label :=
| LBegin (o : rcu_op) (cpu : nat)
| LCall (head : loc) (cpu : nat)
| LStep (cpu : nat)
| LDpc (cpu : nat).

Definition node_body (o : rcu_op) (t : segtree) (g : Z) (i : nat) : segtree * bool :=
  match o with
  | Quiesce => quiesce_node t g i
  | Enable => enable_node t g i
  | Disable => disable_node t i
  end.

Definition with_tree (r : rcu) (t : segtree) : rcu :=
  mkRcu t (global_current_generation r) (callback_list r) (head_next r) (dispatch_ptr r).

(** The two halves of [rcu_begin_next_generation] and of [rcu_call]. *)
Definition store_generation (r : rcu) (old_generation : Z) : rcu :=
  mkRcu (tree r) (old_generation +ᵤ 1) (callback_list r) (head_next r) (dispatch_ptr r).

Definition publish (r : rcu) (g : Z) (head : loc) : rcu :=
  mkRcu (tree r) (global_current_generation r)
    (set_slot (callback_list r) (slot (g +ᵤ 1)) (Some head)) (head_next r) (dispatch_ptr r).

Definition step_pending (s : smp) (cpu : nat) : option smp :=
  p ← ops s !! cpu;
  match p with
  | Climbing o g i =>
    if decide (1 < i)%nat then
      let '(t, up) := node_body o (tree (rst s)) g i in
      Some (mkSmp (with_tree (rst s) t)
              (if up : bool then <[cpu := Climbing o g (parent i)]> (ops s) else delete cpu (ops s)))
    else Some (mkSmp (store_generation (rst s) g) (<[cpu := Ending o g]> (ops s)))
  | Ending o g => r ← dispatch_callbacks (rst s) cpu g; Some (mkSmp r (delete cpu (ops s)))
  | Calling head g => Some (mkSmp (publish (rst s) g head) (delete cpu (ops s)))
  end.

Definition cpu_active (s : smp) (cpu : nat) : bool := active (tree (rst s) (leaf NR_CPUS cpu)).

(** A CPU enables RCU when it is not participating, and otherwise uses it only
    when it is. *)
Definition may_begin (s : smp) (cpu : nat) (a : bool) : Prop :=
  (cpu < NR_CPUS)%nat ∧ ops s !! cpu = None ∧ cpu_active s cpu = a.

#[global] Instance may_begin_dec s cpu a : Decision (may_begin s cpu a).
Proof. unfold may_begin. apply _. Defined.

Definition wants_active (o : rcu_op) : bool := match o with Enable => false | _ => true end.

Definition exec (s : smp) (l : label) : option smp :=
  match l with
  | LBegin o cpu =>
    if decide (may_begin s cpu (wants_active o)) then
      Some (mkSmp (rst s)
              (<[cpu := Climbing o (global_current_generation (rst s)) (leaf NR_CPUS cpu)]> (ops s)))
    else None
  | LCall head cpu =>
    if decide (may_begin s cpu true) then
      Some (mkSmp (rst s) (<[cpu := Calling head (global_current_generation (rst s))]> (ops s)))
    else None
  | LStep cpu => step_pending s cpu
  | LDpc cpu => '(r, _) ← rcu_dispatch_dpc_func (rst s) cpu; Some (mkSmp r (ops s))
  end.

Fixpoint exec_all (s : smp) (l : list label) : option smp :=
  match l with
  | [] => Some s
  | lbl :: l => s ← exec s lbl; exec_all s l
  end.

(** ** Runs *)

(** Only calls of [rcu_quiesce] overlap on the segment tree. *)
Definition overlaps (o : rcu_op) (p : pending) : Prop :=
  match p with
  | Climbing o' _ _ | Ending o' _ => o = Quiesce ∧ o' = Quiesce
  | Calling _ _ => True
  end.

(** The condition on each transition; the 64-bit generation does not wrap. *)
Definition disciplined (s : smp) (l : label) : Prop :=
  global_current_generation (rst s) + 1 < 2 ^ 64 ∧
  match l with
  | LBegin o _ => ∀ c p, ops s !! c = Some p → overlaps o p
  | _ => True
  end.

Inductive rcu_run (s : smp) : list label → smp → Prop :=
| run_nil : rcu_run s [] s
| run_snoc l s1 lbl s2 :
    rcu_run s l s1 → disciplined s1 lbl → exec s1 lbl = Some s2 → rcu_run s (l ++ [lbl]) s2.

Definition smp_boot (heads : gmap loc (option loc)) : smp :=
  mkSmp (mkRcu (λ _, mkSt 0 false) 1 (λ _, None) heads (λ _, None)) ∅.

Definition rcu_reachable (s : smp) : Prop := ∃ heads l, rcu_run (smp_boot heads) l s.

(** [cpu] announces itself: it begins an operation that stores the generation
    it loads. *)
Definition announces (cpu : nat) (l : label) : Prop :=
  l = LBegin Quiesce cpu ∨ l = LBegin Enable cpu.

#[global] Instance label_eq_dec : EqDecision label.
Proof. solve_decision. Defined.

#[global] Instance announces_dec cpu l : Decision (announces cpu l).
Proof. unfold announces. apply _. Defined.

(** ** The invariant *)

Definition lagging (g : Z) (t : segtree) (i : nat) : Prop :=
  i = 1%nat ∨ node NR_CPUS i ∧ active (t i) = true ∧ generation (t i) ≠ g.

Definition own_index (cpu i : nat) : Prop := i = leaf NR_CPUS cpu ∨ (i < NR_CPUS)%nat.

Definition pend_ok (g : Z) (t : segtree) (cpu : nat) (p : pending) : Prop :=
  let i0 := leaf NR_CPUS cpu in
  match p with
  | Climbing Quiesce γ i =>
      active (t i0) = true ∧ own_index cpu i ∧
      (i = i0 ∧ generation (t i) = γ ∧ γ <= g ∨ γ = g ∧ children_current NR_CPUS g t i ∧ lagging g t i)
  | Climbing Enable γ i =>
      γ = g ∧ own_index cpu i ∧ (i = 1%nat ∨ node NR_CPUS i) ∧ enabling NR_CPUS g t i
  | Climbing Disable γ i =>
      γ = g ∧ own_index cpu i ∧ (i = 1%nat ∨ node NR_CPUS i) ∧ no_active_child NR_CPUS t i
  | Ending o γ => γ + 1 = g ∧ (o = Quiesce → active (t i0) = true ∧ generation (t i0) = γ)
  | Calling _ γ => active (t i0) = true ∧ generation (t i0) <= γ <= g ∧ g <= γ + 1
  end.

Definition is_enabling (p : pending) : Prop :=
  match p with Climbing Enable _ _ => True | _ => False end.

Definition tree_op (p : pending) : option rcu_op :=
  match p with Climbing o _ _ | Ending o _ => Some o | Calling _ _ => None end.

Record smp_inv (s : smp) (g := global_current_generation (rst s)) (t := tree (rst s)) : Prop := {
  iv_pos : 0 <= g;
  iv_cpu c p : ops s !! c = Some p → (c < NR_CPUS)%nat;
  iv_seg : (∀ c p, ops s !! c = Some p → ¬ is_enabling p) → seg_inv NR_CPUS g t;
  iv_lag c : (c < NR_CPUS)%nat → generation (t (leaf NR_CPUS c)) <= g ∧
    (active (t (leaf NR_CPUS c)) = true → g - 1 <= generation (t (leaf NR_CPUS c)));
  iv_pend c p : ops s !! c = Some p → pend_ok g t c p;
  iv_excl c p c' p' o : c ≠ c' → ops s !! c = Some p → ops s !! c' = Some p' →
    tree_op p = Some o → overlaps o p';
  iv_unique c o γ i c' o' γ' i' : c ≠ c' → ops s !! c = Some (Climbing o γ i) →
    ops s !! c' = Some (Climbing o' γ' i') → i ≠ i';
}.

End smp_defs.

Section smp.
Local Open Scope Z_scope.
Context (NR_CPUS : nat) (HN : (2 <= NR_CPUS)%nat).
Implicit Types (s : smp) (t : segtree) (g : Z).

Abbreviation leaf := (leaf NR_CPUS).
Abbreviation node := (node NR_CPUS).
Abbreviation pend_ok := (pend_ok NR_CPUS).
Abbreviation smp_inv := (smp_inv NR_CPUS).
Abbreviation exec := (exec NR_CPUS).

(** ** Leaves *)

Lemma leaf_node c : (c < NR_CPUS)%nat → node (leaf c).
Proof. unfold Rcu.node, Rcu.leaf. lia. Qed.

Lemma own_ne_leaf c cpu i : c ≠ cpu → own_index NR_CPUS cpu i → leaf c ≠ i.
Proof. unfold own_index, Rcu.leaf. lia. Qed.

Lemma own_index_parent cpu i : (2 <= i)%nat → (cpu < NR_CPUS)%nat → own_index NR_CPUS cpu i →
  own_index NR_CPUS cpu (parent i).
Proof.
  intros Hi Hc [->|Hlt]; right; [|pose proof (parent_lt i); lia].
  destruct (index_cases (leaf cpu)) as (k & Hk & ->). unfold Rcu.leaf in *. lia.
Qed.

Lemma parent_or_root i : node i → parent i = 1%nat ∨ node (parent i).
Proof. intros Hi. destruct (node_parent _ _ Hi); naive_solver. Qed.

(** ** Transitions that leave the tree and the generation alone *)

(** [s'] only differs in the callbacks, and [cpu]'s pending operation is gone. *)
Lemma inv_retire s s' cpu :
  smp_inv s → tree (rst s') = tree (rst s) →
  global_current_generation (rst s') = global_current_generation (rst s) →
  ops s' = ops s ∨ ops s' = delete cpu (ops s) ∧ (∀ p, ops s !! cpu = Some p → ¬ is_enabling p) →
  smp_inv s'.
Proof.
  intros [Hpos Hcpu Hseg Hlag Hp Hex Hun] Et Eg Ho.
  assert (∀ c p, ops s' !! c = Some p → ops s !! c = Some p) as Hsub.
  { intros c p. destruct Ho as [->|[-> _]]; [done|]. intros H. by apply lookup_delete_Some in H as [_ ?]. }
  split; rewrite ?Et, ?Eg; eauto.
  intros Hne. apply Hseg. intros c p Hc. destruct Ho as [Ho|[Ho Hcp]]; [apply (Hne c); by rewrite Ho|].
  destruct (decide (c = cpu)) as [->|Hd]; [by apply Hcp|].
  apply (Hne c). by rewrite Ho, lookup_delete_ne.
Qed.

(** [cpu] begins [p]. *)
Lemma inv_begin s cpu p :
  smp_inv s → (cpu < NR_CPUS)%nat → ops s !! cpu = None →
  pend_ok (global_current_generation (rst s)) (tree (rst s)) cpu p →
  (∀ o c p', tree_op p = Some o → ops s !! c = Some p' → overlaps o p') →
  (∀ o γ i, p = Climbing o γ i → i = leaf cpu) →
  smp_inv (mkSmp (rst s) (<[cpu := p]> (ops s))).
Proof.
  intros [Hpos Hcpu Hseg Hlag Hp Hex Hun] Hc Hnone Hpend Hover Hleaf. split; simpl; try done.
  - intros c q [[<- <-]|[? ?]]%lookup_insert_Some; eauto.
  - intros Hne. apply Hseg. intros c q Hq. apply (Hne c).
    rewrite lookup_insert_ne; [done|]. intros ->. congruence.
  - intros c q [[<- <-]|[? ?]]%lookup_insert_Some; eauto.
  - intros c q c' q' o Hne [[<- <-]|[Hc1 Hq]]%lookup_insert_Some [[<- <-]|[Hc2 Hq']]%lookup_insert_Some Ho;
      [done|eauto| |eauto].
    destruct (tree_op p) as [o'|] eqn:Ho'; [|by destruct p].
    specialize (Hover o' c q eq_refl Hq). destruct p as [? ? ?|? ?|]; simplify_eq/=;
      destruct q as [? ? ?|? ?|]; simplify_eq/=; naive_solver.
  - intros c o γ i c' o' γ' i' Hne [[<- Hq]|[Hc1 Hq]]%lookup_insert_Some [[<- Hq']|[Hc2 Hq']]%lookup_insert_Some;
      [done| | |eauto].
    + rewrite (Hleaf _ _ _ Hq). specialize (Hp _ _ Hq'). intros <-.
      destruct (own_ne_leaf cpu c' (leaf cpu)); [done| |done].
      destruct o'; naive_solver.
    + rewrite (Hleaf _ _ _ Hq'). specialize (Hp _ _ Hq). intros ->.
      destruct (own_ne_leaf cpu c (leaf cpu)); [done| |done].
      destruct o; naive_solver.
Qed.

Lemma inv_no_overlap s o : smp_inv s → o ≠ Quiesce →
  (∀ c p, ops s !! c = Some p → overlaps o p) →
  seg_inv NR_CPUS (global_current_generation (rst s)) (tree (rst s)).
Proof.
  intros Hinv Ho Hall. apply (iv_seg _ _ Hinv). intros c p Hp. specialize (Hall c p Hp).
  destruct p as [[] ? ?|? ?|]; naive_solver.
Qed.

Lemma exec_begin s o cpu s' :
  smp_inv s → disciplined s (LBegin o cpu) → exec s (LBegin o cpu) = Some s' → smp_inv s'.
Proof.
  intros Hinv [_ Hdis]. simpl. destruct (decide _) as [(Hc & Hnone & Ha)|]; [|done]. intros [= <-].
  assert (∀ c, node c → parent c ≠ leaf cpu) as Hleaf.
  { intros c. apply leaf_no_child. unfold Rcu.leaf. lia. }
  apply inv_begin; try done.
  2: { intros o' c p' [= <-]. eauto. }
  2: { by intros o' γ i [= <- <- <-]. }
  pose proof (leaf_node cpu Hc) as Hn. destruct o; simpl.
  - split_and!; [done|by left|].
    destruct (decide (generation (tree (rst s) (leaf cpu)) = global_current_generation (rst s))) as [E|E].
    + left. split_and!; [done|done|lia].
    + right. split_and!; [done| |by right]. intros c Hc' Hp. by destruct (Hleaf c).
  - split_and!; [done|by left|by right|]. apply enabling_leaf; [done|]. by eapply (inv_no_overlap s Enable).
  - split_and!; [done|by left|by right|]. intros c Hc' Hp. by destruct (Hleaf c).
Qed.

Lemma exec_call s head cpu s' :
  smp_inv s → exec s (LCall head cpu) = Some s' → smp_inv s'.
Proof.
  intros Hinv. simpl. destruct (decide _) as [(Hc & Hnone & Ha)|]; [|done]. intros [= <-].
  apply inv_begin; try done. simpl. destruct (iv_lag _ _ Hinv cpu Hc). split_and!; [done|lia..].
Qed.

Lemma exec_dpc s cpu s' : smp_inv s → exec s (LDpc cpu) = Some s' → smp_inv s'.
Proof.
  intros Hinv. simpl. unfold rcu_dispatch_dpc_func. destruct (chain _ _ _); [|done]. intros [= <-].
  eapply (inv_retire s _ cpu); eauto.
Qed.

Lemma dispatch_same r cpu g r' : dispatch_callbacks r cpu g = Some r' →
  tree r' = tree r ∧ global_current_generation r' = global_current_generation r.
Proof.
  unfold dispatch_callbacks. destruct (callback_list r _); [destruct (dispatch_ptr r cpu)|];
    intros E; by simplify_eq.
Qed.

(** ** One critical section *)

Lemma node_body_frame o t γ i t' up j : node_body o t γ i = (t', up) → j ≠ i → t' j = t j.
Proof.
  intros E Hj. destruct o; simpl in E; unfold quiesce_node, enable_node, disable_node in E;
    repeat case_match; simplify_eq; try done; unfold set_active, set_generation; by rewrite ?upd_node_ne.
Qed.

(** Only the CPU's own leaf matters to an operation that is not climbing. *)
Lemma pend_leaf g t t' c p :
  t' (leaf c) = t (leaf c) → match p with Climbing _ _ _ => False | _ => True end →
  pend_ok g t c p → pend_ok g t' c p.
Proof. intros E Hp. destruct p; simpl; [done|by rewrite E..]. Qed.

(** The node a climb works on, alone in its critical section. *)
Definition climbs s (cpu : nat) (o : rcu_op) (i : nat) : Prop :=
  ops s !! cpu = Some (Climbing o (global_current_generation (rst s)) i) ∧ node i.

Record climb_ok s (cpu : nat) (o : rcu_op) (i : nat) (t' : segtree) (up : bool)
    (g := global_current_generation (rst s)) : Prop := {
  ck_seg : (up = true → o ≠ Enable) → seg_inv NR_CPUS g t';
  ck_up : up = true → pend_ok g t' cpu (Climbing o g (parent i));
  ck_others c p : c ≠ cpu → ops s !! c = Some p → pend_ok g t' c p;
  ck_leaf : i = leaf cpu → generation (t' i) <= g ∧ (active (t' i) = true → g - 1 <= generation (t' i));
  ck_alone c o' γ i' : up = true → c ≠ cpu → ops s !! c = Some (Climbing o' γ i') → i' ≠ parent i;
}.

Lemma inv_climb s cpu o i t' up (g := global_current_generation (rst s)) :
  smp_inv s → climbs s cpu o i → node_body o (tree (rst s)) g i = (t', up) →
  climb_ok s cpu o i t' up →
  smp_inv (mkSmp (with_tree (rst s) t')
    (if up then <[cpu := Climbing o g (parent i)]> (ops s) else delete cpu (ops s))).
Proof.
  intros Hinv [Hop Hi] Hb [Kseg Kup Koth Kleaf Kalone].
  pose proof Hinv as [Hpos Hcpu Hseg Hlag Hp Hex Hun].
  set (ops' := if up then _ else _).
  assert (∀ c p, ops' !! c = Some p → c = cpu ∧ up = true ∧ p = Climbing o g (parent i) ∨
            c ≠ cpu ∧ ops s !! c = Some p) as Hops.
  { intros c p. unfold ops'. destruct up.
    - intros [[<- <-]|[? ?]]%lookup_insert_Some; auto.
    - intros [? ?]%lookup_delete_Some; auto. }
  split; simpl; try done.
  - intros c p [(-> & _)|[_ H]]%Hops; eauto.
  - intros Hne. apply Kseg. intros -> ->. apply (Hne cpu (Climbing Enable g (parent i))); [|done].
    unfold ops'. by rewrite lookup_insert_eq.
  - intros c Hc. destruct (decide (leaf c = i)) as [E|E]; [|rewrite (node_body_frame _ _ _ _ _ _ _ Hb E); by apply Hlag].
    destruct (decide (c = cpu)) as [->|Hne]; [rewrite E; by apply Kleaf|].
    destruct (own_ne_leaf c cpu i Hne); [|done]. specialize (Hp _ _ Hop). destruct o; naive_solver.
  - intros c p [(-> & Hup & ->)|[Hne H]]%Hops; eauto.
  - intros c p c' p' o0 Hne [(-> & Hup & ->)|[Hne1 H1]]%Hops [(-> & Hup' & ->)|[Hne2 H2]]%Hops; [done| | |by eauto].
    + intros [= <-]. by eapply (Hex cpu _ c' p').
    + intros Ho. by apply (Hex c p cpu _ o0 Hne1 H1 Hop Ho).
  - intros c o1 γ1 i1 c' o2 γ2 i2 Hne [(-> & Hup & E1)|[Hne1 H1]]%Hops [(-> & Hup' & E2)|[Hne2 H2]]%Hops.
    + done.
    + injection E1 as -> -> ->. intros Hi'. by apply (Kalone c' o2 γ2 i2).
    + injection E2 as -> -> ->. by apply (Kalone c o1 γ1 i1).
    + by apply (Hun c o1 γ1 i1 c' o2 γ2 i2).
Qed.

(** Nothing but [rcu_call] overlaps with [rcu_enable] and [rcu_disable]. *)
Lemma alone_calling s cpu p o c q :
  smp_inv s → ops s !! cpu = Some p → tree_op p = Some o → o ≠ Quiesce → c ≠ cpu → ops s !! c = Some q →
  ∃ head γ, q = Calling head γ.
Proof.
  intros Hinv Hp Ho Hq Hne Hc. pose proof (iv_excl _ _ Hinv cpu p c q o (not_eq_sym Hne) Hp Hc Ho) as H.
  destruct q as [? ? ?|? ?|]; [naive_solver..|eauto].
Qed.

Lemma alone_climb s cpu o i t' up :
  smp_inv s → climbs s cpu o i → o ≠ Quiesce →
  node_body o (tree (rst s)) (global_current_generation (rst s)) i = (t', up) →
  (∀ c p, c ≠ cpu → ops s !! c = Some p → pend_ok (global_current_generation (rst s)) t' c p) ∧
  (∀ c o' γ i', c ≠ cpu → ops s !! c ≠ Some (Climbing o' γ i')).
Proof.
  intros Hinv [Hop Hi] Ho Hb. split.
  - intros c p Hne Hc. destruct (alone_calling s cpu _ o c p Hinv Hop eq_refl Ho Hne Hc) as (h & γ & ->).
    apply (pend_leaf _ (tree (rst s))); [|done|by eapply iv_pend].
    eapply node_body_frame; [done|]. apply (own_ne_leaf c cpu); [done|].
    pose proof (iv_pend _ _ Hinv _ _ Hop). destruct o; naive_solver.
  - intros c o' γ i' Hne Hc. by destruct (alone_calling s cpu _ o c _ Hinv Hop eq_refl Ho Hne Hc) as (h & ? & ?).
Qed.

Lemma enable_climb s cpu i t' up :
  smp_inv s → climbs s cpu Enable i →
  node_body Enable (tree (rst s)) (global_current_generation (rst s)) i = (t', up) →
  climb_ok s cpu Enable i t' up.
Proof.
  intros Hinv Hcl Hb. pose proof (alone_climb s cpu _ i t' up Hinv Hcl ltac:(done) Hb) as [Hoth Hno].
  destruct Hcl as [Hop Hi]. destruct (iv_pend _ _ Hinv _ _ Hop) as (_ & Hown & _ & Hen).
  pose proof (enable_node_ok _ _ _ _ Hi Hen) as Hok. simpl in Hb. rewrite Hb in Hok.
  assert (2 <= i)%nat by (destruct Hi; lia). pose proof (iv_cpu _ _ Hinv _ _ Hop).
  split; try done.
  - intros Hu. destruct up; [by destruct Hu|done].
  - intros ->. simpl. split_and!; [done|by apply own_index_parent|by apply parent_or_root|done].
  - intros ->. clear Hok. unfold enable_node in Hb.
    destruct (active (tree (rst s) (leaf cpu))) eqn:Ha.
    + simplify_eq. by apply (iv_lag _ _ Hinv).
    + repeat case_match; simplify_eq; unfold set_active, set_generation; rewrite !upd_node_eq; simpl; lia.
  - intros c o' γ i' _ Hne Hc. by apply Hno in Hc.
Qed.

Lemma disable_climb s cpu i t' up :
  smp_inv s → climbs s cpu Disable i →
  node_body Disable (tree (rst s)) (global_current_generation (rst s)) i = (t', up) →
  climb_ok s cpu Disable i t' up.
Proof.
  intros Hinv Hcl Hb. pose proof (alone_climb s cpu _ i t' up Hinv Hcl ltac:(done) Hb) as [Hoth Hno].
  destruct Hcl as [Hop Hi]. destruct (iv_pend _ _ Hinv _ _ Hop) as (_ & Hown & _ & Hna).
  assert (seg_inv NR_CPUS (global_current_generation (rst s)) (tree (rst s))) as Hseg.
  { apply (iv_seg _ _ Hinv). intros c p Hc. destruct (decide (c = cpu)) as [->|Hne].
    { rewrite Hop in Hc. injection Hc as <-. by intros []. }
    destruct (alone_calling s cpu _ Disable c p Hinv Hop eq_refl ltac:(done) Hne Hc) as (h & γ & ->). auto. }
  pose proof (disable_node_ok _ _ _ _ Hi Hseg Hna) as Hok. simpl in Hb. rewrite Hb in Hok.
  assert (2 <= i)%nat by (destruct Hi; lia). pose proof (iv_cpu _ _ Hinv _ _ Hop).
  split; try done.
  - intros _. destruct up; [by destruct Hok|done].
  - intros ->. simpl. split_and!; [done|by apply own_index_parent|by apply parent_or_root|by destruct Hok].
  - intros ->. clear Hok. pose proof (iv_lag _ _ Hinv cpu ltac:(done)) as [? ?]. unfold disable_node in Hb.
    repeat case_match; simplify_eq; unfold set_active; rewrite ?upd_node_eq; simpl; naive_solver.
  - intros c o' γ i' _ Hne Hc. by apply Hno in Hc.
Qed.

(** Everyone else on the tree is quiescing too. *)
Lemma quiesce_others s cpu γ i c q :
  smp_inv s → ops s !! cpu = Some (Climbing Quiesce γ i) → c ≠ cpu → ops s !! c = Some q →
  match tree_op q with Some o => o = Quiesce | None => True end.
Proof.
  intros Hinv Hp Hne Hc.
  pose proof (iv_excl _ _ Hinv cpu _ c q Quiesce (not_eq_sym Hne) Hp Hc eq_refl) as H.
  destruct q as [? ? ?|? ?|]; naive_solver.
Qed.

Lemma quiesce_seg s cpu γ i :
  smp_inv s → ops s !! cpu = Some (Climbing Quiesce γ i) →
  seg_inv NR_CPUS (global_current_generation (rst s)) (tree (rst s)).
Proof.
  intros Hinv Hp. apply (iv_seg _ _ Hinv). intros c q Hc. destruct (decide (c = cpu)) as [->|Hne].
  { rewrite Hp in Hc. injection Hc as <-. by intros []. }
  pose proof (quiesce_others s cpu γ i c q Hinv Hp Hne Hc). destruct q as [[] ? ?|? ?|]; naive_solver.
Qed.

(** Announcing the generation at a lagging node. *)
Lemma announce_others g t cpu i c p :
  own_index NR_CPUS cpu i → c ≠ cpu → match tree_op p with Some o => o = Quiesce | None => True end →
  (∀ o γ i', p = Climbing o γ i' → i' ≠ i) →
  pend_ok g t c p → pend_ok g (set_generation t i g) c p.
Proof.
  intros Hown Hne Hq Hi Hp. pose proof (own_ne_leaf c cpu i Hne Hown) as Hl.
  assert (∀ j, j ≠ i → set_generation t i g j = t j) as Hframe.
  { intros j Hj. unfold set_generation. by rewrite upd_node_ne. }
  destruct p as [o γ i'|o γ|h γ]; [|by apply (pend_leaf _ t); auto..].
  simpl in Hq. subst o. specialize (Hi _ _ _ eq_refl). destruct Hp as (Ha & Hown' & Hcase). simpl.
  rewrite (Hframe _ Hl). split_and!; [done..|]. rewrite (Hframe _ Hi). destruct Hcase as [|(-> & Hcc & Hlag)]; [by left|right].
  split_and!; [done| |].
  - intros d Hd Hpd. unfold set_generation, upd_node. case_decide; [done|by apply Hcc].
  - unfold lagging. by rewrite (Hframe _ Hi).
Qed.

Lemma quiesce_climb s cpu i t' up (g := global_current_generation (rst s)) :
  smp_inv s → climbs s cpu Quiesce i → node_body Quiesce (tree (rst s)) g i = (t', up) →
  climb_ok s cpu Quiesce i t' up.
Proof.
  intros Hinv [Hop Hi] Hb. simpl in Hb. pose proof (quiesce_seg _ _ _ _ Hinv Hop) as Hseg.
  destruct (iv_pend _ _ Hinv _ _ Hop) as (Ha & Hown & Hcase).
  assert (2 <= i)%nat as Hi2 by (destruct Hi; lia). pose proof (iv_cpu _ _ Hinv _ _ Hop) as Hcpu.
  destruct (decide (generation (tree (rst s) i) = g)) as [Hg|Hg].
  { unfold quiesce_node in Hb. rewrite decide_True in Hb by done. injection Hb as <- <-.
    split; try done; [by eauto using iv_pend|intros ->; by apply (iv_lag _ _ Hinv)]. }
  destruct Hcase as [(_ & ? & _)|(_ & Hcc & [->|(_ & Hai & _)])]; [done|lia|].
  pose proof (quiesce_node_ok _ _ _ _ Hi Hseg Hcc) as Hok. fold g in Hok. rewrite Hb in Hok.
  assert (t' = set_generation (tree (rst s)) i g) as ->.
  { unfold quiesce_node in Hb. rewrite decide_False in Hb by done. by destruct (_ && _); injection Hb. }
  pose proof (parent_lt i Hi2) as Hlt.
  assert (set_generation (tree (rst s)) i g (parent i) = tree (rst s) (parent i)) as Hpar.
  { unfold set_generation. rewrite upd_node_ne; [done|lia]. }
  split; try done.
  - intros _. by destruct up; [destruct Hok|].
  - intros ->. destruct Hok as [_ Hcc']. simpl. split_and!.
    + unfold set_generation, upd_node. by case_decide.
    + by apply own_index_parent.
    + right. split_and!; [done..|]. unfold lagging. rewrite Hpar.
      destruct (node_parent _ _ Hi) as [?|[Hin Hn]]; [by left|right]. split_and!; [done| |].
      * by apply (si_up _ _ _ Hseg).
      * intros E. apply Hg. by apply (si_gen _ _ _ Hseg).
  - intros c p Hne Hc. apply (announce_others _ _ cpu); [done|done| | |by eapply iv_pend].
    + by eapply quiesce_others.
    + intros o γ i' ->. by apply (iv_unique _ _ Hinv c o γ i' cpu Quiesce g i).
  - intros ->. unfold set_generation. rewrite upd_node_eq. simpl. fold g. lia.
  - intros c o γ i' _ Hne Hc ->. pose proof (quiesce_others _ _ _ _ _ _ Hinv Hop Hne Hc) as Ho. simpl in Ho. subst o.
    destruct (iv_pend _ _ Hinv _ _ Hc) as (_ & _ & [(E & _)|(_ & Hcc' & _)]).
    + eapply (leaf_no_child NR_CPUS (leaf c) i); [unfold Rcu.leaf; lia|done|done].
    + by apply Hg, Hcc'.
Qed.

(** ** The end of a generation *)

Lemma store_current s cpu o i (g := global_current_generation (rst s)) :
  smp_inv s → ops s !! cpu = Some (Climbing o g i) → ¬ (1 < i)%nat →
  seg_inv NR_CPUS g (tree (rst s)) ∧ all_current NR_CPUS g (tree (rst s)).
Proof.
  intros Hinv Hop Hi. pose proof (iv_cpu _ _ Hinv _ _ Hop). pose proof (iv_pend _ _ Hinv _ _ Hop) as Hp.
  assert (∀ j, node j → (1 < j)%nat) as Hn by (intros j []; lia).
  destruct o; simpl in Hp.
  - destruct Hp as (_ & _ & [(-> & _)|(_ & Hcc & [->|[Hni _]])]).
    + unfold Rcu.leaf in Hi. lia.
    + pose proof (quiesce_seg _ _ _ _ Hinv Hop). eauto using root_current.
    + by specialize (Hn _ Hni).
  - destruct Hp as (_ & _ & [->|Hni] & Hen); [by apply enabling_root|by specialize (Hn _ Hni)].
  - destruct Hp as (_ & _ & [->|Hni] & Hna); [|by specialize (Hn _ Hni)].
    assert (seg_inv NR_CPUS g (tree (rst s))) as Hseg; [|eauto using no_active_root].
    apply (iv_seg _ _ Hinv). intros c p Hc. destruct (decide (c = cpu)) as [->|Hne].
    { rewrite Hop in Hc. injection Hc as <-. by intros []. }
    destruct (alone_calling s cpu _ Disable c p Hinv Hop eq_refl ltac:(done) Hne Hc) as (h & γ & ->). auto.
Qed.

Lemma store_others s cpu o i c p (g := global_current_generation (rst s)) :
  smp_inv s → ops s !! cpu = Some (Climbing o g i) → ¬ (1 < i)%nat →
  c ≠ cpu → ops s !! c = Some p → pend_ok (g + 1) (tree (rst s)) c p.
Proof.
  intros Hinv Hop Hi Hne Hc. destruct (store_current s cpu o i Hinv Hop Hi) as [_ Hall].
  pose proof (leaf_node c (iv_cpu _ _ Hinv _ _ Hc)) as Hn. pose proof (iv_pend _ _ Hinv _ _ Hc) as Hp.
  destruct p as [o' γ i'|o' γ|h γ]; simpl in Hp |- *.
  - destruct (decide (o = Quiesce)) as [->|Ho].
    2: { by destruct (alone_calling s cpu _ o c _ Hinv Hop eq_refl Ho Hne Hc) as (? & ? & ?). }
    pose proof (quiesce_others _ _ _ _ _ _ Hinv Hop Hne Hc) as Ho'. simpl in Ho'. subst o'.
    destruct Hp as (Ha & Hown & [(-> & Hg & Hle)|(-> & _ & [->|(Hn' & Ha' & Hg)])]).
    + split_and!; [done|by left|left]. split_and!; [done..|lia].
    + destruct (iv_unique _ _ Hinv c Quiesce g 1%nat cpu Quiesce g i); [done..|].
      destruct (iv_pend _ _ Hinv _ _ Hop) as (_ & _ & [(-> & _)|(_ & _ & [->|[[? ?] _]])]); [|done|lia].
      unfold Rcu.leaf in Hi. lia.
    + by destruct Hg; apply Hall.
  - destruct Hp as [Hγ Hq]. destruct (decide (o = Quiesce)) as [->|Ho].
    2: { by destruct (alone_calling s cpu _ o c _ Hinv Hop eq_refl Ho Hne Hc) as (? & ? & ?). }
    pose proof (quiesce_others _ _ _ _ _ _ Hinv Hop Hne Hc) as Ho'. simpl in Ho'. subst o'.
    destruct (Hq eq_refl) as [Ha Hg]. specialize (Hall _ Hn Ha). lia.
  - destruct Hp as (Ha & Hγ & ?). specialize (Hall _ Hn Ha). split_and!; [done|fold g in Hγ; lia..].
Qed.

Lemma inv_store s cpu o i (g := global_current_generation (rst s)) :
  smp_inv s → g + 1 < 2 ^ 64 → ops s !! cpu = Some (Climbing o g i) → ¬ (1 < i)%nat →
  smp_inv (mkSmp (store_generation (rst s) g) (<[cpu := Ending o g]> (ops s))).
Proof.
  intros Hinv Hlt Hop Hi. destruct (store_current s cpu o i Hinv Hop Hi) as [Hseg Hall].
  pose proof (store_others s cpu o i) as Hoth. fold g in Hoth.
  pose proof Hinv as [Hpos Hcpu _ Hlag Hp Hex Hun]. fold g in Hpos, Hlag.
  split; simpl; rewrite ?(add64_small g 1) by lia.
  - lia.
  - intros c q [[<- _]|[_ ?]]%lookup_insert_Some; eauto.
  - intros _. by apply advance_inv.
  - intros c Hc. destruct (Hlag c Hc). split; [lia|]. intros Ha. rewrite (Hall _ (leaf_node c Hc) Ha). lia.
  - intros c q [[<- <-]|[? ?]]%lookup_insert_Some; [|by eauto]. simpl. split; [done|]. intros ->.
    destruct (Hp _ _ Hop) as [Ha _]. split; [done|]. apply Hall; [|done]. eauto using leaf_node.
  - intros c q c' q' o' Hne [[<- <-]|[? H1]]%lookup_insert_Some [[<- <-]|[? H2]]%lookup_insert_Some Ho; [done| | |eauto].
    + by apply (Hex cpu _ c' q' o' Hne Hop H2).
    + by apply (Hex c q cpu _ o' Hne H1 Hop Ho).
  - intros c o1 γ1 i1 c' o2 γ2 i2 Hne [[_ ?]|[? H1]]%lookup_insert_Some [[_ ?]|[? H2]]%lookup_insert_Some; [done..|].
    by apply (Hun c o1 γ1 i1 c' o2 γ2 i2).
Qed.

(** ** Every transition *)

(** A climb that still writes has the current generation. *)
Lemma climb_gen s cpu o γ i :
  smp_inv s → ops s !! cpu = Some (Climbing o γ i) →
  γ = global_current_generation (rst s) ∨
  o = Quiesce ∧ i = leaf cpu ∧ node i ∧ generation (tree (rst s) i) = γ.
Proof.
  intros Hinv Hop. pose proof (iv_pend _ _ Hinv _ _ Hop) as Hp. pose proof (leaf_node cpu (iv_cpu _ _ Hinv _ _ Hop)).
  destruct o; simpl in Hp; naive_solver.
Qed.

Lemma exec_step s cpu s' :
  smp_inv s → global_current_generation (rst s) + 1 < 2 ^ 64 → exec s (LStep cpu) = Some s' → smp_inv s'.
Proof.
  intros Hinv Hlt. simpl. unfold step_pending.
  destruct (ops s !! cpu) as [[o γ i|o γ|head γ]|] eqn:Hop; [| | |done]; cbn [mbind option_bind].
  - destruct (climb_gen s cpu o γ i Hinv Hop) as [->|(-> & -> & Hn & Hg)].
    + destruct (decide (1 < i)%nat) as [Hi|Hi]; [|intros [= <-]; by eapply inv_store].
      assert (climbs s cpu o i) as Hcl.
      { split; [done|]. pose proof (iv_pend _ _ Hinv _ _ Hop) as Hp. pose proof (leaf_node cpu (iv_cpu _ _ Hinv _ _ Hop)).
        destruct o; simpl in Hp; unfold lagging in Hp; naive_solver lia. }
      destruct (node_body _ _ _ _) as [t' up] eqn:Hb. intros [= <-]. apply (inv_climb _ _ _ _ _ _ Hinv Hcl Hb).
      destruct o; [by apply quiesce_climb|by apply enable_climb|by apply disable_climb].
    + rewrite decide_True by (destruct Hn; lia). simpl. unfold quiesce_node. rewrite decide_True by done.
      intros [= <-]. apply (inv_retire s _ cpu); [done..|]. right. split; [done|]. intros p Hp.
      rewrite Hop in Hp. injection Hp as <-. by intros [].
  - destruct (dispatch_callbacks _ _ _) as [r'|] eqn:Hd; [|done]. intros [= <-].
    apply dispatch_same in Hd as [Ht Hg]. apply (inv_retire s _ cpu); [done..|]. right. split; [done|].
    intros p Hp. rewrite Hop in Hp. injection Hp as <-. by intros [].
  - intros [= <-]. apply (inv_retire s _ cpu); [done..|]. right. split; [done|].
    intros p Hp. rewrite Hop in Hp. injection Hp as <-. by intros [].
Qed.

Lemma exec_inv s l s' : smp_inv s → disciplined s l → exec s l = Some s' → smp_inv s'.
Proof.
  intros Hinv Hd. destruct l; [by apply exec_begin|by apply exec_call| |by apply exec_dpc].
  apply exec_step; [done|]. apply Hd.
Qed.

Lemma run_inv s l s' : smp_inv s → rcu_run NR_CPUS s l s' → smp_inv s'.
Proof. intros Hinv. induction 1; [done|]. by eapply exec_inv. Qed.

Lemma boot_inv heads : smp_inv (smp_boot heads).
Proof.
  split; simpl; try (by intros; simplify_map_eq); try lia.
Qed.

Lemma rcu_reachable_inv s : rcu_reachable NR_CPUS s → smp_inv s.
Proof. intros (heads & l & H). eapply run_inv; [apply boot_inv|done]. Qed.

(** ** Grace periods *)

(** The generations [cpu] has stored or will store are at most [b]. *)
Definition at_most (b : Z) s (cpu : nat) : Prop :=
  generation (tree (rst s) (leaf cpu)) <= b ∧
  ∀ o γ i, ops s !! cpu = Some (Climbing o γ i) → o ≠ Disable → γ <= b.

Lemma node_body_gen o t γ i t' up b :
  node_body o t γ i = (t', up) → generation (t i) <= b → (o ≠ Disable → γ <= b) → generation (t' i) <= b.
Proof.
  intros E Hb Hγ. destruct o; simpl in E; unfold quiesce_node, enable_node, disable_node in E;
    repeat case_match; simplify_eq; try done; unfold set_active, set_generation;
    rewrite !upd_node_eq; simpl; auto.
Qed.

Lemma step_at_most b s cpu s' c :
  smp_inv s → step_pending s cpu = Some s' → at_most b s c → at_most b s' c.
Proof.
  intros Hinv Hs [Hg Hp]. unfold step_pending in Hs.
  destruct (ops s !! cpu) as [[o γ i|o γ|head γ]|] eqn:Hop; [| | |done]; cbn [mbind option_bind] in Hs.
  - destruct (decide (1 < i)%nat).
    + destruct (node_body _ _ _ _) as [t' up] eqn:Hb. injection Hs as <-. split; simpl.
      * destruct (decide (leaf c = i)) as [E|E]; [|by rewrite (node_body_frame _ _ _ _ _ _ _ Hb E)].
        destruct (decide (c = cpu)) as [->|Hne].
        { rewrite E. rewrite E in Hg. eapply node_body_gen; eauto. }
        destruct (own_ne_leaf c cpu i Hne); [|done]. pose proof (iv_pend _ _ Hinv _ _ Hop). destruct o; naive_solver.
      * intros o' γ' i'. destruct up; [intros [[<- E]|[? E]]%lookup_insert_Some|intros [? E]%lookup_delete_Some]; [|eauto..].
        injection E as <- <- <-. eauto.
    + injection Hs as <-. split; simpl; [done|]. intros o' γ' i' [[_ ?]|[? ?]]%lookup_insert_Some; [done|eauto].
  - destruct (dispatch_callbacks _ _ _) as [r'|] eqn:Hd; [|done]. injection Hs as <-.
    apply dispatch_same in Hd as [Ht _]. split; simpl; [by rewrite Ht|]. intros o' γ' i' [? E]%lookup_delete_Some. eauto.
  - injection Hs as <-. split; simpl; [done|]. intros o' γ' i' [? E]%lookup_delete_Some. eauto.
Qed.

Lemma exec_at_most b s l s' c :
  smp_inv s → exec s l = Some s' → ¬ announces c l → at_most b s c → at_most b s' c.
Proof.
  intros Hinv He Hn Hb. destruct l as [o cpu|head cpu|cpu|cpu]; simpl in He.
  - destruct (decide _); [|done]. injection He as <-. destruct Hb as [Hg Hp]. split; simpl; [done|].
    intros o' γ i [[-> E]|[? E]]%lookup_insert_Some Ho; [|by eauto]. injection E as <- <- <-.
    destruct Hn. destruct o; [by left|by right|done].
  - destruct (decide _); [|done]. injection He as <-. destruct Hb as [Hg Hp]. split; simpl; [done|].
    intros o' γ i [[_ E]|[? E]]%lookup_insert_Some; [done|eauto].
  - by eapply step_at_most.
  - unfold rcu_dispatch_dpc_func in He. destruct (chain _ _ _); [|done]. by injection He as <-.
Qed.

Lemma run_at_most b s l s' c :
  smp_inv s → rcu_run NR_CPUS s l s' → ¬ Exists (announces c) l → at_most b s c → at_most b s' c.
Proof.
  intros Hinv Hr. induction Hr as [|l s1 lbl s2 Hr IH Hd He]; intros Hn Hb; [done|].
  rewrite Exists_app in Hn. eapply exec_at_most; [by eapply run_inv|done| |].
  - intros Ha. apply Hn. right. by constructor.
  - apply IH; [|done]. tauto.
Qed.

(** Two generations later, every active CPU has announced itself. *)
Lemma two_generations s1 l s2 c :
  smp_inv s1 → rcu_run NR_CPUS s1 l s2 → (c < NR_CPUS)%nat → cpu_active NR_CPUS s2 c = true →
  global_current_generation (rst s1) + 2 <= global_current_generation (rst s2) →
  Exists (announces c) l.
Proof.
  intros Hinv Hr Hc Ha Hg. destruct (decide (Exists (announces c) l)) as [|Hn]; [done|exfalso].
  pose proof (run_inv _ _ _ Hinv Hr) as Hinv2.
  destruct (iv_lag _ _ Hinv2 c Hc) as [_ Hlag]. specialize (Hlag Ha).
  destruct (run_at_most (global_current_generation (rst s1)) s1 l s2 c) as [Hle _]; [done..| |lia].
  split; [by apply (iv_lag _ _ Hinv)|]. intros o γ i Hop Ho. pose proof (iv_pend _ _ Hinv _ _ Hop) as Hp.
  destruct o; naive_solver lia.
Qed.

Lemma exec_generation s l s' (g := global_current_generation (rst s)) :
  smp_inv s → g + 1 < 2 ^ 64 → exec s l = Some s' →
  global_current_generation (rst s') = g ∨
  global_current_generation (rst s') = g + 1 ∧
    ∀ c, (c < NR_CPUS)%nat → cpu_active NR_CPUS s c = true → generation (tree (rst s) (leaf c)) = g.
Proof.
  intros Hinv Hlt He. destruct l as [o cpu|head cpu|cpu|cpu]; simpl in He.
  - left. destruct (decide _); [|done]. by injection He as <-.
  - left. destruct (decide _); [|done]. by injection He as <-.
  - unfold step_pending in He.
    destruct (ops s !! cpu) as [[o γ i|o γ|head γ]|] eqn:Hop; [| | |done]; cbn [mbind option_bind] in He.
    + destruct (decide (1 < i)%nat) as [Hi|Hi].
      { left. destruct (node_body _ _ _ _) as [t' up]. by injection He as <-. }
      right. injection He as <-. simpl.
      destruct (climb_gen s cpu o γ i Hinv Hop) as [->|(-> & -> & [? ?] & Hg)]; [|lia].
      fold g. rewrite (add64_small g 1) by (pose proof (iv_pos _ _ Hinv); lia). split; [done|].
      destruct (store_current s cpu o i Hinv Hop Hi) as [_ Hall]. intros c Hc. by apply Hall, leaf_node.
    + left. destruct (dispatch_callbacks _ _ _) as [r'|] eqn:Hd; [|done]. injection He as <-.
      by apply dispatch_same in Hd as [_ ?].
    + left. by injection He as <-.
  - left. unfold rcu_dispatch_dpc_func in He. destruct (chain _ _ _); [|done]. by injection He as <-.
Qed.

Lemma run_generation s l s' :
  smp_inv s → rcu_run NR_CPUS s l s' →
  global_current_generation (rst s) <= global_current_generation (rst s').
Proof.
  intros Hinv. induction 1 as [|l s1 lbl s2 Hr IH [Hd _] He]; [lia|].
  destruct (exec_generation s1 lbl s2) as [|[? _]]; [by eapply run_inv|done|done|lia..].
Qed.

Lemma slot_later g γ : slot γ = slot (g + 1) → g <= γ + 1 → g + 1 <= γ.
Proof.
  unfold slot. change 3 with (Z.ones 2). rewrite !Z.land_ones by lia. change (2 ^ 2) with 4.
  intros. Z.div_mod_to_equations; lia.
Qed.


End smp.

(** ** Operations that run alone *)

Section alone.
Context (NR_CPUS : nat).

Lemma climb_alone o cpu fuel : ∀ s i (g := global_current_generation (rst s)),
  ops s !! cpu = Some (Climbing o g i) → i < fuel →
  ∃ n, exec_all NR_CPUS s (replicate n (LStep cpu)) =
    (λ r, mkSmp r (delete cpu (ops s))) <$>
      finish (rst s) cpu (climb_loop (λ t, node_body o t g) fuel (tree (rst s)) i).
Proof.
  induction fuel as [|fuel IH]; intros s i g Hop Hi; [lia|]. simpl.
  destruct (decide (1 < i)) as [Hlt|Hge].
  - destruct (node_body o (tree (rst s)) g i) as [t up] eqn:Hb.
    assert (step_pending s cpu = Some (mkSmp (with_tree (rst s) t)
      (if up then <[cpu := Climbing o g (parent i)]> (ops s) else delete cpu (ops s)))) as Hs.
    { unfold step_pending. rewrite Hop. cbn [mbind option_bind]. rewrite decide_True by done. fold g. by rewrite Hb. }
    destruct up; [|by exists 1; simpl; rewrite Hs].
    destruct (IH (mkSmp (with_tree (rst s) t) (<[cpu := Climbing o g (parent i)]> (ops s))) (parent i)) as [n Hn].
    { apply lookup_insert_eq. } { pose proof (parent_lt i). lia. }
    exists (S n). simpl. rewrite Hs. cbn [mbind option_bind]. rewrite Hn. simpl. by rewrite delete_insert_eq.
  - assert (step_pending s cpu = Some (mkSmp (store_generation (rst s) g) (<[cpu := Ending o g]> (ops s)))) as Hs.
    { unfold step_pending. rewrite Hop. cbn [mbind option_bind]. by rewrite decide_False. }
    exists 2. simpl. rewrite Hs. cbn [mbind option_bind]. unfold step_pending. simpl. rewrite lookup_insert_eq.
    cbn [mbind option_bind]. unfold rcu_begin_next_generation, store_generation. simpl. fold g.
    rewrite delete_insert_eq. by destruct (dispatch_callbacks _ _ _).
Qed.

(** An operation whose transitions no other CPU interrupts is the function of
    [Rcu]. *)
Theorem alone_is_sequential s o cpu :
  may_begin NR_CPUS s cpu (wants_active o) →
  ∃ n, exec_all NR_CPUS s (LBegin o cpu :: replicate n (LStep cpu)) =
    (λ r, mkSmp r (ops s)) <$> run_op NR_CPUS (rst s) o cpu.
Proof.
  intros Hb. pose proof Hb as (_ & Hnone & _). cbn [exec_all exec]. rewrite decide_True by done.
  cbn [mbind option_bind]. rewrite run_op_finish.
  destruct (climb_alone o cpu (S (leaf NR_CPUS cpu))
    (mkSmp (rst s) (<[cpu := Climbing o (global_current_generation (rst s)) (leaf NR_CPUS cpu)]> (ops s)))
    (leaf NR_CPUS cpu)) as [n Hn]; [apply lookup_insert_eq|lia|].
  exists n. rewrite Hn. simpl. rewrite delete_insert_id by done. by destruct o.
Qed.

End alone.

(** ** Concrete runs *)

Section examples.
Context (NR_CPUS : nat).

#[local] Instance overlaps_dec o p : Decision (overlaps o p).
Proof. destruct p; simpl; apply _. Defined.

#[local] Instance disciplined_dec s l : Decision (disciplined s l).
Proof.
  apply and_dec; [apply _|]. destruct l as [o ?| | |];
    [exact (map_Forall_dec (λ _ p, overlaps o p) (ops s))|apply _..].
Defined.

Fixpoint checked_run (s : smp) (l : list label) : option smp :=
  match l with
  | [] => Some s
  | lbl :: l => if decide (disciplined s lbl) then s ← exec NR_CPUS s lbl; checked_run s l else None
  end.

Lemma checked_run_sound l : ∀ s0 l0 s s', rcu_run NR_CPUS s0 l0 s → checked_run s l = Some s' →
  rcu_run NR_CPUS s0 (l0 ++ l) s'.
Proof.
  induction l as [|lbl l IH]; intros s0 l0 s s' Hr; simpl.
  - intros [= <-]. by rewrite app_nil_r.
  - case_decide; [|done]. destruct (exec NR_CPUS s lbl) as [s1|] eqn:E; [|done]. intros Hc.
    rewrite cons_middle, app_assoc. eapply IH; [|done]. by econstructor.
Qed.

End examples.

(** An operation on [cpu] with [n] transitions after its load. *)
Definition operation (o : rcu_op) (cpu n : nat) : list label := LBegin o cpu :: replicate n (LStep cpu).

(** CPUs 0 and 1 of four participate. *)
Definition ex_prefix : list label := operation Enable 0 4 ++ operation Enable 1 1.

(** CPU 0 publishes the head and ends generation 2; then both CPUs quiesce at
    once, and CPU 1 ends generation 3. *)
Definition ex_quiesces : list label :=
  [LStep 0] ++ operation Quiesce 0 4 ++
  [LBegin Quiesce 0; LBegin Quiesce 1; LStep 0; LStep 1; LStep 1; LStep 1].


(** Defect: two overlapping calls of [rcu_enable] can end a grace period early.
    CPUs 0 and 1 share a parent node.  CPU 0 has marked its leaf active and let
    go of the parent's lock; CPU 1 then finds its buddy active and returns from
    [rcu_enable], although the node above them is still inactive.  From then on
    CPU 1 may be inside a reader.  CPU 2 queues a callback and quiesces twice:
    it ends two generations and takes the callback, and CPU 1 has neither
    quiesced nor left. *)
Example rcu_enable_race :
  let enables := operation Enable 2 4 ++ [LBegin Enable 0; LStep 0] ++ operation Enable 1 1 in
  let later := [LStep 2] ++ operation Quiesce 2 4 ++ operation Quiesce 2 3 in
  (s ← exec_all 4 (smp_boot {[7%positive := None]}) enables;
   s2 ← exec_all 4 s (LCall 7%positive 2 :: later);
   Some (ops s !! 1, cpu_active 4 s 1, cpu_active 4 s2 1, ops s2 !! 2,
         callback_list (rst s2) (slot 3), bool_decide (Exists (announces 1) later))) =
  Some (None, true, true, Some (Ending Quiesce 3), Some 7%positive, false).
Proof. vm_compute. reflexivity. Qed.
