(* ===== verification/Cmdline.v ===== *)
(** * The kernel command line ([kernel/main.cc])

    The command line is its characters without the terminating NUL; a pointer
    into it is an index.  Reading beyond the NUL is outside the object and makes
    the result [None]. *)

From S2P Require Import Prelude.

Section cmdline_defs.
Local Open Scope Z_scope.

Definition c_bslash : Z := 92.
Definition c_squote : Z := 39.
Definition c_dquote : Z := 34.
Definition c_equals : Z := 61.
Definition c_sp : Z := 32.

Definition isspace (c : Z) : bool :=
  (c =? 32) || (c =? 9) || (c =? 10) || (c =? 11) || (c =? 13).

(** [match_param], on the characters from [begin] to [end]: the offset of the
    pointer returned, if any. *)
Fixpoint match_loop (param w : list Z) (off : nat) (squote dquote backslash : bool) : option nat :=
  match w with
  | [] => if param is [] then Some off else None
  | c :: w =>
    let compare :=
      match param with
      | p :: ps => if p =? c then match_loop ps w (S off) squote dquote false else None
      | [] => None
      end in
    if backslash then compare
    else if (c =? c_bslash) && negb squote then match_loop param w (S off) squote dquote true
    else if (c =? c_squote) && negb dquote then match_loop param w (S off) (negb squote) dquote false
    else if (c =? c_dquote) && negb squote then match_loop param w (S off) squote (negb dquote) false
    else if (c =? c_equals) && negb squote && negb dquote then
      if param is [] then Some off else None
    else compare
  end.

Definition match_param (param w : list Z) : option nat :=
  match w with [] => None | _ => match_loop param w 0 false false false end.

(** The loop of [get_early_param]: [rest] is the command line from [end] on,
    [w] the characters from [begin] to [end]. *)
Fixpoint early_loop (param rest : list Z) (begin : nat) (w : list Z) (idx : nat)
    (squote dquote : bool) : option (option nat) :=
  let last w :=
    match match_param param w, idx with
    | Some off, O => Some (Some (begin + off)%nat)
    | _, _ => Some None
    end in
  match rest with
  | [] => last w
  | c :: rest =>
    if isspace c then
      if squote || dquote then early_loop param rest begin (w ++ [c]) idx squote dquote
      else
        let next idx :=
          match rest with
          | [] => None
          | c' :: rest' => early_loop param rest' (begin + length w + 1) [c'] idx squote dquote
          end in
        match match_param param w, idx with
        | Some off, O => Some (Some (begin + off)%nat)
        | Some _, S idx => next idx
        | None, _ => next idx
        end
    else if (c =? c_squote) && negb dquote then
      early_loop param rest begin (w ++ [c]) idx (negb squote) dquote
    else if (c =? c_dquote) && negb squote then
      early_loop param rest begin (w ++ [c]) idx squote (negb dquote)
    else if (c =? c_bslash) && negb squote then
      match rest with
      | [] => last (w ++ [c])
      | c' :: rest' => early_loop param rest' begin (w ++ [c; c']) idx squote dquote
      end
    else early_loop param rest begin (w ++ [c]) idx squote dquote
  end.

(** [None] is a null [param]. *)
Definition get_early_param (kernel_cmdline : list Z) (param : option (list Z)) (idx : Z)
    : option (option nat) :=
  match param with
  | None | Some [] => Some None
  | Some p => if idx <? 0 then Some None
              else early_loop p kernel_cmdline 0 [] (Z.to_nat idx) false false
  end.

(** The loop of [early_param_matches] from the character after ['=']. *)
Fixpoint matches_loop (expected value : list Z) (squote dquote backslash : bool) : bool :=
  match value with
  | [] => bool_decide (expected = [])
  | c :: value =>
    let compare :=
      match expected with
      | e :: es => if e =? c then matches_loop es value squote dquote false else false
      | [] => false
      end in
    if backslash then compare
    else if (c =? c_bslash) && negb squote then matches_loop expected value squote dquote true
    else if (c =? c_squote) && negb dquote then matches_loop expected value (negb squote) dquote false
    else if (c =? c_dquote) && negb squote then matches_loop expected value squote (negb dquote) false
    else compare
  end.

Definition early_param_matches (expected : option (list Z)) (value : list Z) : bool :=
  let expected := default [] expected in
  match value with
  | c :: value' => if c =? c_equals then matches_loop expected value' false false false
                   else bool_decide (expected = [])
  | [] => bool_decide (expected = [])
  end.

(** ** Plain command lines *)

(** A character with no meaning to the parser (['='] may be one). *)
Definition plain (c : Z) : bool :=
  negb (isspace c) && negb (c =? c_squote) && negb (c =? c_dquote) && negb (c =? c_bslash) &&
  negb (c =? 0).

Definition plain_word (w : list Z) : Prop := w ≠ [] ∧ Forall (λ c, plain c = true) w.

(** A parameter name. *)
Definition plain_param (p : list Z) : Prop :=
  plain_word p ∧ Forall (λ c, c ≠ c_equals) p.

(** Words separated by single spaces. *)
Fixpoint join (ws : list (list Z)) : list Z :=
  match ws with
  | [] => []
  | [w] => w
  | w :: ws => w ++ c_sp :: join ws
  end.

(** The word is the parameter, alone or followed by ["=..."]. *)
Definition word_hit (p w : list Z) : bool :=
  bool_decide (take (length p) w = p) &&
  match drop (length p) w with [] => true | c :: _ => c =? c_equals end.

(** Where the parameter of the [idx]-th matching word ends. *)
Fixpoint find_word (p : list Z) (ws : list (list Z)) (idx start : nat) : option nat :=
  match ws with
  | [] => None
  | w :: ws =>
    if word_hit p w then
      match idx with
      | O => Some (start + length p)%nat
      | S idx => find_word p ws idx (start + length w + 1)
      end
    else find_word p ws idx (start + length w + 1)
  end.

End cmdline_defs.

Section cmdline.
Local Open Scope Z_scope.

Lemma plain_facts c :
  plain c = true →
  isspace c = false ∧ (c =? c_squote) = false ∧ (c =? c_dquote) = false ∧ (c =? c_bslash) = false.
Proof. unfold plain. rewrite !andb_true_iff, !negb_true_iff. naive_solver. Qed.

Lemma match_loop_plain w : ∀ p off,
  Forall (λ c, plain c = true) w → Forall (λ c, c ≠ c_equals) p →
  match_loop p w off false false false = if word_hit p w then Some (off + length p)%nat else None.
Proof.
  unfold word_hit. induction w as [|c w IH]; intros p off Hw Hp; simpl.
  { destruct p as [|e p]; simpl; [f_equal; lia|done]. }
  apply Forall_cons in Hw as [Hc Hw]. destruct (plain_facts c Hc) as (_ & -> & -> & ->).
  simpl. destruct (c =? c_equals) eqn:Heq; simpl.
  - destruct p as [|e p]; simpl; [rewrite Heq; f_equal; lia|].
    apply Forall_cons in Hp as [He _]. apply Z.eqb_eq in Heq.
    rewrite bool_decide_eq_false_2 by congruence. done.
  - destruct p as [|e p]; simpl; [by rewrite Heq|]. apply Forall_cons in Hp as [_ Hp].
    destruct (e =? c) eqn:Hec.
    + apply Z.eqb_eq in Hec as ->. rewrite IH by done.
      rewrite (bool_decide_ext (c :: take (length p) w = c :: p) (take (length p) w = p)) by (split; congruence).
      case_match; [f_equal; lia|done].
    + apply Z.eqb_neq in Hec. by rewrite bool_decide_eq_false_2 by congruence.
Qed.

Lemma match_param_plain p w :
  plain_word w → plain_param p →
  match_param p w = if word_hit p w then Some (length p) else None.
Proof.
  intros [Hne Hw] [_ Hp]. unfold match_param. destruct w; [done|]. by rewrite match_loop_plain.
Qed.

(** Scanning the rest of a word. *)
Lemma early_loop_word p u : ∀ rest begin w idx,
  Forall (λ c, plain c = true) u →
  early_loop p (u ++ rest) begin w idx false false =
  early_loop p rest begin (w ++ u) idx false false.
Proof.
  induction u as [|c u IH]; intros rest begin w idx Hu; simpl; [by rewrite app_nil_r|].
  apply Forall_cons in Hu as [Hc Hu]. destruct (plain_facts c Hc) as (-> & -> & -> & ->). simpl.
  rewrite IH by done. by rewrite <-app_assoc.
Qed.

Lemma join_cons c u ws : join ((c :: u) :: ws) = c :: join (u :: ws).
Proof. by destruct ws. Qed.

(** A space or nothing behind the last word. *)
Definition trailing (b : bool) : list Z := if b then [c_sp] else [].

Definition scan_result (b : bool) (found : option nat) : option (option nat) :=
  match found with Some pos => Some (Some pos) | None => if b then None else Some None end.

Lemma early_loop_words p b ws : ∀ c u begin idx,
  plain_param p → Forall (λ c, plain c = true) (c :: u) → Forall plain_word ws →
  early_loop p (join (u :: ws) ++ trailing b) begin [c] idx false false =
  scan_result b (find_word p ((c :: u) :: ws) idx begin).
Proof.
  induction ws as [|w ws IH]; intros c u begin idx Hp Hu Hws;
    pose proof (proj2 (proj1 (Forall_cons _ _ _) Hu)) as Hu';
    assert (plain_word (c :: u)) as Hw by done; cbn [find_word].
  - cbn [join]. rewrite early_loop_word by done.
    destruct b; cbn -[match_param word_hit]; rewrite match_param_plain by done;
      by destruct (word_hit p (c :: u)), idx.
  - apply Forall_cons in Hws as [Hw1 Hws]. destruct w as [|c1 u1]; [by destruct Hw1|].
    replace (join (u :: (c1 :: u1) :: ws)) with (u ++ c_sp :: c1 :: join (u1 :: ws))
      by (by rewrite <-join_cons).
    rewrite <-app_assoc, early_loop_word by done. cbn [app early_loop].
    change (isspace c_sp) with true.
    cbn [orb]. change (c :: u) with ([c] ++ u) in *. rewrite match_param_plain by done.
    destruct Hw1 as [_ Hu1].
    destruct (word_hit p ([c] ++ u)); [destruct idx as [|idx]; [done|]|]; by apply IH.
Qed.

Lemma early_words p b ws idx :
  plain_param p → ws ≠ [] → Forall plain_word ws →
  early_loop p (join ws ++ trailing b) 0 [] idx false false =
  scan_result b (find_word p ws idx 0).
Proof.
  intros Hp Hne Hws. destruct ws as [|w ws]; [done|]. apply Forall_cons in Hws as [[Hw Hc] Hws].
  destruct w as [|c u]; [done|]. rewrite join_cons.
  change ((c :: join (u :: ws)) ++ trailing b) with ([c] ++ (join (u :: ws) ++ trailing b)).
  rewrite early_loop_word; [by apply early_loop_words|].
  apply Forall_cons in Hc as [? _]. by constructor.
Qed.

Lemma get_early_param_loop cmd p idx :
  plain_param p → 0 <= idx →
  get_early_param cmd (Some p) idx = early_loop p cmd 0 [] (Z.to_nat idx) false false.
Proof.
  intros [[Hne _] _] Hi. unfold get_early_param. destruct p; [done|].
  by replace (idx <? 0) with false by (symmetry; by apply Z.ltb_ge).
Qed.

(** On a command line of plain words separated by single spaces,
    [get_early_param] returns the position just behind the parameter in the
    [idx]-th word that is the parameter or the parameter followed by ['='], and
    null when there are not that many. *)
Theorem get_early_param_plain ws p idx :
  plain_param p → 0 <= idx → Forall plain_word ws →
  get_early_param (join ws) (Some p) idx = Some (find_word p ws (Z.to_nat idx) 0).
Proof.
  intros Hp Hi Hws. rewrite get_early_param_loop by done.
  destruct (decide (ws = [])) as [->|Hne].
  { simpl. by destruct (Z.to_nat idx). }
  pose proof (early_words p false ws (Z.to_nat idx) Hp Hne Hws) as H.
  unfold trailing in H. rewrite app_nil_r in H. rewrite H. by destruct (find_word p ws _ _).
Qed.

(** Defect: when the command line ends in a space and the parameter is not
    found, the scan steps over the terminating NUL and reads beyond the string
    ([begin = ++end] followed by the loop's own [end++]). *)
Theorem get_early_param_trailing_space ws p idx :
  plain_param p → 0 <= idx → ws ≠ [] → Forall plain_word ws →
  find_word p ws (Z.to_nat idx) 0 = None →
  get_early_param (join ws ++ [c_sp]) (Some p) idx = None.
Proof.
  intros Hp Hi Hne Hws Hf. rewrite get_early_param_loop by done.
  change [c_sp] with (trailing true). rewrite early_words by done. by rewrite Hf.
Qed.

Lemma matches_loop_plain v : ∀ e,
  Forall (λ c, plain c = true ∨ c = c_sp) v → matches_loop e v false false false = bool_decide (e = v).
Proof.
  induction v as [|c v IH]; intros e Hv; [by apply bool_decide_ext|]. apply Forall_cons in Hv as [Hc Hv].
  assert ((c =? c_squote) = false ∧ (c =? c_dquote) = false ∧ (c =? c_bslash) = false)
    as (H1 & H2 & H3) by (destruct Hc as [Hc| ->]; [by apply plain_facts in Hc as (_ & ?)|done]).
  simpl. rewrite H1, H2, H3. simpl.
  destruct e as [|x e]; [by rewrite bool_decide_eq_false_2|].
  destruct (x =? c) eqn:E.
  - apply Z.eqb_eq in E as ->. rewrite IH by done. apply bool_decide_ext. split; congruence.
  - apply Z.eqb_neq in E. rewrite bool_decide_eq_false_2 by congruence. done.
Qed.

(** [early_param_matches] compares the expected value with everything up to
    the end of the command line.  So it is right for the last word (and for a
    parameter without a value), and, a defect, it never matches the value of a
    parameter that is followed by another word. *)
Theorem early_param_matches_last e v rest :
  Forall (λ c, plain c = true) v → Forall (λ c, plain c = true ∨ c = c_sp) rest →
  early_param_matches (Some e) (c_equals :: v) = bool_decide (e = v) ∧
  early_param_matches None (c_equals :: v) = bool_decide (v = []) ∧
  early_param_matches (Some v) (c_equals :: v ++ c_sp :: rest) = false.
Proof.
  intros Hv Hr. assert (Forall (λ c, plain c = true ∨ c = c_sp) v) as Hv'
    by (eapply Forall_impl; [done|auto]).
  unfold early_param_matches. cbn [default]. change (c_equals =? c_equals) with true.
  rewrite !matches_loop_plain; [|by apply Forall_app; auto using Forall_cons_2|done..].
  split_and!; [done|apply bool_decide_ext; split; congruence|].
  apply bool_decide_eq_false. intros H%(f_equal length). rewrite length_app in H. simpl in H. lia.
Qed.

(** "foo=bar baz" *)
Definition ex_words : list (list Z) := [[102; 111; 111; 61; 98; 97; 114]; [98; 97; 122]].

Lemma ex_words_plain : Forall plain_word ex_words.
Proof. repeat constructor; done. Qed.

Lemma get_early_param_plain_witness :
  get_early_param (join ex_words) (Some [98; 97; 122]) 0 = Some (Some 11%nat).
Proof.
  rewrite (get_early_param_plain ex_words [98; 97; 122] 0);
    [reflexivity|by repeat constructor|done|apply ex_words_plain].
Defined.

Lemma get_early_param_trailing_space_witness :
  get_early_param (join ex_words ++ [c_sp]) (Some [120]) 0 = None.
Proof.
  apply (get_early_param_trailing_space ex_words [120] 0);
    [by repeat constructor|done|done|apply ex_words_plain|reflexivity].
Defined.

Lemma early_param_matches_last_witness :
  early_param_matches (Some [98; 97; 114]) (c_equals :: [98; 97; 114] ++ c_sp :: [98; 97; 122]) = false.
Proof.
  apply (early_param_matches_last [98; 97; 114] [98; 97; 114] [98; 97; 122]).
  - by repeat constructor.
  - repeat (apply Forall_cons_2; [by left|]). apply Forall_nil_2.
Defined.

End cmdline.
