(* ===== verification/Wake.v ===== *)
(** * Blocking and waking ([kernel/sched/main.cc])

    One task, the threads that wake it, and the threads that finish a context
    switch away from it.  A transition is one access to the task's
    [unblock_ticket], [pending_wakeup], [on_cpu] or [task_state], or the
    insertion into a runqueue.  The task can be preempted before it hands out a
    ticket: it goes back to its runqueue before the CPU has left it.  A ticket is
    handed to wakers with DPCs disabled ([mutex.cc], [timeout.cc]), so the task
    is not preempted between publishing a ticket and switching away; it takes
    another ticket only before it has handed out the last one.  Tickets do not
    wrap: the 64-bit counter advances by at most two every time the task blocks.
    The exit of a task is not part of the protocol. *)

From S2P Require Import Prelude.

Section wake_defs.
Local Open Scope Z_scope.

(** What the task is doing. *)
Inductive tpc :=
| TRunning                  (* no ticket out *)
| TTicket (k : Z)           (* sched_get_blocking_ticket returned [k] *)
| TPublished (k : Z)        (* wakers can see [k] *)
| TBlocking (k : Z)         (* set_current_state done; schedule called *)
| TOff (k : Z)              (* switched away from *)
| TReady (k : option Z).    (* preempted, with the ticket it had taken *)

(** Where a preempted task goes on. *)
Definition resumed (k : option Z) : tpc := match k with None => TRunning | Some k => TTicket k end.

(** A call of [sched_wake], or of [finish_context_switch] for the task. *)
Inductive apc :=
| AIdle
| WCall (k : Z)             (* sched_wake (task, k) *)
| WStore                    (* the ticket was ours: pending_wakeup = 1 *)
| WLoad                     (* look at on_cpu *)
| WCas                      (* saw on_cpu == -1U *)
| WEnqueue                  (* won pending_wakeup *)
| FState                    (* finish_context_switch: look at task_state *)
| FCas                      (* stored on_cpu = -1U; look at pending_wakeup *)
| FEnqueue.                 (* won pending_wakeup *)

Record wake := mkWake {
  unblock_ticket : Z;
  pending_wakeup : bool;
  on_cpu : bool;             (* on_cpu != -1U *)
  runnable : bool;           (* task_state == TASK_RUNNABLE *)
  queued : Z;                (* entries on runqueues *)
  published : list Z;
  task : tpc;
  actors : list apc;
}.

(** [enqueue_on_this_processor] and [enqueue_on_remote_processor], as far as the
    task is concerned. *)
Definition enqueue (s : wake) : wake :=
  mkWake (unblock_ticket s) (pending_wakeup s) (on_cpu s) true (queued s + 1) (published s)
    (task s) (actors s).

Definition set_task (s : wake) (t : tpc) : wake :=
  mkWake (unblock_ticket s) (pending_wakeup s) (on_cpu s) (runnable s) (queued s) (published s)
    t (actors s).

Definition set_actor (s : wake) (i : nat) (a : apc) : wake :=
  mkWake (unblock_ticket s) (pending_wakeup s) (on_cpu s) (runnable s) (queued s) (published s)
    (task s) (<[i:=a]> (actors s)).

Definition set_pending (s : wake) (b : bool) : wake :=
  mkWake (unblock_ticket s) b (on_cpu s) (runnable s) (queued s) (published s) (task s) (actors s).

Definition set_ticket (s : wake) (k : Z) : wake :=
  mkWake k (pending_wakeup s) (on_cpu s) (runnable s) (queued s) (published s) (task s) (actors s).

Definition set_off_cpu (s : wake) : wake :=
  mkWake (unblock_ticket s) (pending_wakeup s) false (runnable s) (queued s) (published s) (task s)
    (actors s).

(** An actor that is not between its accesses to [pending_wakeup] and
    [on_cpu]. *)
Definition quiet (a : apc) : bool := match a with AIdle | WCall _ => true | _ => false end.

(** Steps of the actors: [sched_wake], [__sched_wake], [finish_context_switch]. *)
Inductive actor_step (s : wake) : apc → wake → apc → Prop :=
| w_call k : k ∈ published s → actor_step s AIdle s (WCall k)
| w_ticket k : unblock_ticket s = k → actor_step s (WCall k) (set_ticket s (k + 1)) WStore
| w_ticket_fail k : unblock_ticket s ≠ k → actor_step s (WCall k) s AIdle
| w_store : actor_step s WStore (set_pending s true) WLoad
| w_on_cpu : on_cpu s = true → actor_step s WLoad s AIdle
| w_off_cpu : on_cpu s = false → actor_step s WLoad s WCas
| w_cas : pending_wakeup s = true → actor_step s WCas (set_pending s false) WEnqueue
| w_cas_fail : pending_wakeup s = false → actor_step s WCas s AIdle
| w_enqueue : actor_step s WEnqueue (enqueue s) AIdle
| f_runnable : runnable s = true → actor_step s FState (set_off_cpu s) AIdle
| f_blocked : runnable s = false → actor_step s FState (set_off_cpu s) FCas
| f_cas : pending_wakeup s = true → actor_step s FCas (set_pending s false) FEnqueue
| f_cas_fail : pending_wakeup s = false → actor_step s FCas s AIdle
| f_enqueue : actor_step s FEnqueue (enqueue s) AIdle.

(** [schedule] when it chooses another task: a runnable task is put back on its
    runqueue ([enqueue_task]), and the thread [i] is the next task, which finishes
    the switch.  When it chooses the task itself nothing changes. *)
Definition switch_away (s : wake) (t : tpc) (i : nat) : wake :=
  set_actor (set_task (if runnable s then enqueue s else s) t) i FState.

(** The steps of the system.  With [prompt], no waker or finisher is delayed,
    between two of its accesses, until the task that blocked runs again.  A
    preempted task is on the runqueue of the CPU it was preempted on, which takes
    it from there only after it has finished the switch. *)
Inductive wake_step (prompt : bool) : wake → wake → Prop :=
| t_ticket s (k := unblock_ticket s + 1) :
    task s = TRunning ∨ (∃ k, task s = TTicket k) →
    wake_step prompt s (set_task (set_ticket s k) (TTicket k))
| t_publish s k :
    task s = TTicket k →
    wake_step prompt s
      (mkWake (unblock_ticket s) (pending_wakeup s) (on_cpu s) (runnable s) (queued s)
        (k :: published s) (TPublished k) (actors s))
| t_block s k :
    task s = TPublished k →
    wake_step prompt s
      (mkWake (unblock_ticket s) (pending_wakeup s) (on_cpu s) false (queued s) (published s)
        (TBlocking k) (actors s))
| t_schedule s k i :
    task s = TBlocking k → actors s !! i = Some AIdle →
    wake_step prompt s (switch_away s (TOff k) i)
| t_preempt s k i :
    task s = resumed k → actors s !! i = Some AIdle →
    wake_step prompt s (switch_away s (TReady k) i)
| t_resume s k :
    task s = TReady k → 0 < queued s → on_cpu s = false →
    wake_step prompt s
      (mkWake (unblock_ticket s) (pending_wakeup s) true (runnable s) (queued s - 1) (published s)
        (resumed k) (actors s))
| t_run s k :
    task s = TOff k → 0 < queued s →
    (prompt = true → Forall (λ a, quiet a = true) (actors s)) →
    wake_step prompt s
      (mkWake (unblock_ticket s) (pending_wakeup s) true (runnable s) (queued s - 1) (published s)
        TRunning (actors s))
| t_actor s s' i p q :
    actors s !! i = Some p → actor_step s p s' q → wake_step prompt s (set_actor s' i q).

(** A running task, woken once to start it, and [n] threads. *)
Definition wake_initial (n : nat) : wake :=
  mkWake 1 false true true 0 [] TRunning (replicate n AIdle).

Definition wake_reachable (prompt : bool) (n : nat) (s : wake) : Prop :=
  rtc (wake_step prompt) (wake_initial n) s.

End wake_defs.

(** ** The invariant *)

Section wake.
Local Open Scope Z_scope.

Definition is_call (a : apc) : bool := match a with WCall _ => true | _ => false end.
Definition is_store (a : apc) : bool := match a with WStore => true | _ => false end.
Definition is_load (a : apc) : bool := match a with WLoad => true | _ => false end.
Definition is_cas (a : apc) : bool := match a with WCas => true | _ => false end.
Definition is_enqueue (a : apc) : bool := match a with WEnqueue | FEnqueue => true | _ => false end.
Definition is_state (a : apc) : bool := match a with FState => true | _ => false end.
Definition is_fcas (a : apc) : bool := match a with FCas => true | _ => false end.

(** The wake-ups on their way to the runqueue, or in it. *)
Definition tokens (s : wake) : Z :=
  cnt is_store (actors s) + Z.b2z (pending_wakeup s) + cnt is_enqueue (actors s) + queued s.

(** The wakers past their ticket. *)
Definition waking (s : wake) : Z :=
  cnt is_store (actors s) + cnt is_load (actors s) + cnt is_cas (actors s).

(** The ticket [k] is untouched, or it was used and there is one wake-up. *)
Definition ticket_ok (s : wake) (k : Z) : Prop :=
  (unblock_ticket s = k ∧ tokens s = 0 ∧ waking s = 0) ∨
  (unblock_ticket s = k + 1 ∧ tokens s = 1 ∧ waking s <= 1).

Definition phase_ok (s : wake) : Prop :=
  let no_finisher := cnt is_state (actors s) = 0 ∧ cnt is_fcas (actors s) = 0 in
  let not_queued := queued s = 0 ∧ cnt is_enqueue (actors s) = 0 in
  match task s with
  | TRunning =>
      on_cpu s = true ∧ runnable s = true ∧ tokens s = 0 ∧ waking s = 0 ∧ no_finisher ∧
      not_queued ∧ Forall (λ k, k < unblock_ticket s) (published s)
  | TTicket k =>
      on_cpu s = true ∧ runnable s = true ∧ tokens s = 0 ∧ waking s = 0 ∧ no_finisher ∧
      not_queued ∧ Forall (λ k, k < unblock_ticket s) (published s) ∧ unblock_ticket s = k
  | TPublished k =>
      on_cpu s = true ∧ runnable s = true ∧ no_finisher ∧ not_queued ∧
      cnt is_cas (actors s) = 0 ∧ ticket_ok s k ∧ Forall (λ j, j <= k) (published s)
  | TBlocking k =>
      on_cpu s = true ∧ runnable s = false ∧ no_finisher ∧ not_queued ∧
      cnt is_cas (actors s) = 0 ∧ ticket_ok s k ∧ Forall (λ j, j <= k) (published s)
  | TOff k =>
      cnt is_state (actors s) + cnt is_fcas (actors s) <= 1 ∧
      on_cpu s = bool_decide (cnt is_state (actors s) = 1) ∧
      runnable s = bool_decide (queued s ≠ 0) ∧
      (cnt is_state (actors s) = 1 → not_queued ∧ cnt is_cas (actors s) = 0) ∧
      (pending_wakeup s = true →
        1 <= cnt is_state (actors s) + cnt is_fcas (actors s) + cnt is_cas (actors s) +
             cnt is_load (actors s)) ∧
      0 <= queued s ∧ ticket_ok s k ∧ Forall (λ j, j <= k) (published s)
  | TReady r =>
      cnt is_state (actors s) <= 1 ∧ cnt is_fcas (actors s) = 0 ∧
      on_cpu s = bool_decide (cnt is_state (actors s) = 1) ∧ runnable s = true ∧
      queued s = 1 ∧ tokens s = 1 ∧ waking s = 0 ∧ cnt is_enqueue (actors s) = 0 ∧
      Forall (λ k, k < unblock_ticket s) (published s) ∧ from_option (eq (unblock_ticket s)) True r
  end.

Record wake_inv (s : wake) : Prop := {
  wi_calls : Forall (λ a, ∀ k, a = WCall k → k ∈ published s) (actors s);
  wi_phase : phase_ok s;
}.

Lemma wake_initial_inv n : wake_inv (wake_initial n).
Proof.
  split; [by apply Forall_replicate|]. unfold phase_ok, tokens, waking, wake_initial. simpl.
  rewrite !cnt_replicate by done. naive_solver.
Qed.

(** Every counter is non-negative. *)
Lemma cnt_nonneg (P : apc → bool) l : 0 <= cnt P l.
Proof. by apply cnt_le. Qed.

(** Split the goal into its clauses and let arithmetic decide them. *)
Ltac wake_solve :=
  simpl in *; destruct_and?; simplify_eq/=; repeat case_bool_decide; simplify_eq/=;
  repeat match goal with
  | H : true = true → _ |- _ => specialize (H eq_refl)
  | H : 1 = 1 → _ |- _ => specialize (H eq_refl)
  | H : ?z = 1 → _, H' : ?z = 1 |- _ => specialize (H H')
  | H : _ ∨ _ |- _ => destruct H
  end; destruct_and?; split_and?; intros; simplify_eq/=;
  try solve [done | lia | left; split_and!; lia | right; split_and!; lia].

Lemma actor_phase s s' i p q :
  actors s !! i = Some p → actor_step s p s' q → wake_inv s → phase_ok (set_actor s' i q).
Proof.
  intros Hi Hs [Hc Hp].
  assert (∀ k, p = WCall k → k ∈ published s) as Hpub by (by apply (Forall_lookup_1 _ _ _ _ Hc Hi)).
  assert (∀ P : apc → bool, 0 <= cnt P (actors s) - Z.b2z (P p)) as Hpos.
  { intros P. destruct (P p) eqn:E; simpl; [|pose proof (cnt_nonneg P (actors s)); lia].
    pose proof (cnt_pos P _ _ _ Hi E). lia. }
  pose proof (Hpos is_store) as H1. pose proof (Hpos is_load) as H2. pose proof (Hpos is_cas) as H3.
  pose proof (Hpos is_enqueue) as H4. pose proof (Hpos is_state) as H5. pose proof (Hpos is_fcas) as H6.
  clear Hpos Hc. destruct s as [u pw oc r qd pub t acts]. simpl in *.
  unfold phase_ok, ticket_ok, tokens, waking in *; simpl in *.
  inversion Hs; subst; simpl in *; rewrite !(cnt_insert _ _ _ _ _ Hi); simpl;
    generalize dependent (cnt is_store acts); generalize dependent (cnt is_load acts);
    generalize dependent (cnt is_cas acts); generalize dependent (cnt is_enqueue acts);
    generalize dependent (cnt is_state acts); generalize dependent (cnt is_fcas acts); intros.
  all: destruct t; simpl in *; destruct_and?.
  all: try match goal with
    | H : ∀ k, WCall ?k0 = WCall k → _, F : Forall _ _ |- _ =>
        pose proof (proj1 (Forall_forall _ _) F _ (H _ eq_refl)); simpl in *
    end.
  all: wake_solve.
  all: destruct pw; wake_solve.
Qed.

Lemma actor_calls s s' i p q :
  actor_step s p s' q → wake_inv s →
  Forall (λ a, ∀ k, a = WCall k → k ∈ published s') (<[i:=q]> (actors s')).
Proof.
  intros Hs [Hc _]. assert (published s' = published s ∧ actors s' = actors s) as [-> ->]
    by (by inversion Hs).
  apply Forall_insert; [done|]. inversion Hs; subst; naive_solver.
Qed.

(** Preempting the task and running it again. *)
Lemma preempt_inv s k i :
  task s = resumed k → actors s !! i = Some AIdle → wake_inv s → wake_inv (switch_away s (TReady k) i).
Proof.
  intros Ht Hi [Hc Hp]. split.
  { unfold switch_away. apply Forall_insert; [by destruct (runnable s)|done]. }
  pose proof (cnt_nonneg is_load (actors s)). pose proof (cnt_nonneg is_store (actors s)).
  pose proof (cnt_nonneg is_cas (actors s)).
  unfold switch_away, phase_ok, ticket_ok, tokens, waking in *. rewrite Ht in Hp.
  destruct k as [k|]; simpl in *; destruct_and?; destruct (runnable s) eqn:Er; [|done| |done]; simpl;
    rewrite !(cnt_insert _ _ _ _ _ Hi); simpl; split_and!; try done; try lia;
    rewrite bool_decide_eq_true_2; (done || lia).
Qed.

Lemma resume_inv s k :
  task s = TReady k → on_cpu s = false → wake_inv s →
  wake_inv (mkWake (unblock_ticket s) (pending_wakeup s) true (runnable s) (queued s - 1) (published s)
              (resumed k) (actors s)).
Proof.
  intros Ht Hoff [Hc Hp]. split; [done|].
  pose proof (cnt_nonneg is_state (actors s)).
  unfold phase_ok, ticket_ok, tokens, waking in *. rewrite Ht in Hp. destruct_and?.
  assert (cnt is_state (actors s) ≠ 1) by (intros E; rewrite bool_decide_eq_true_2 in * by done; congruence).
  destruct k as [k|]; simpl in *; split_and!; (done || lia).
Qed.

Lemma wake_step_inv s s' : wake_step true s s' → wake_inv s → wake_inv s'.
Proof.
  intros Hs Hinv. pose proof Hinv as [Hc Hp].
  destruct Hs as [s k Ht|s k Ht|s k Ht|s k i Ht Hi|s k i Ht Hi|s k Ht Hq Hoff|s k Ht Hq Hquiet|s s' i p q Hi Hs].
  - split; [done|]. unfold phase_ok, ticket_ok, tokens, waking in *. simpl in *.
    destruct Ht as [Ht|[k' Ht]]; rewrite Ht in Hp; destruct_and?; split_and!; try done;
      (eapply Forall_impl; [done|simpl; intros; subst k; lia]).
  - split; simpl.
    { eapply Forall_impl; [done|]. simpl. set_solver. }
    unfold phase_ok, ticket_ok, tokens, waking in *. rewrite Ht in Hp. simpl in *.
    destruct_and?. split_and!; try done.
    + pose proof (cnt_nonneg is_cas (actors s)). pose proof (cnt_nonneg is_load (actors s)).
      pose proof (cnt_nonneg is_store (actors s)). lia.
    + left. split_and!; done.
    + apply Forall_cons_2; [lia|]. eapply Forall_impl; [done|]. simpl. lia.
  - split; [done|]. unfold phase_ok, ticket_ok, tokens, waking in *. rewrite Ht in Hp. simpl in *.
    naive_solver.
  - split.
    { unfold switch_away. apply Forall_insert; [by destruct (runnable s)|done]. }
    unfold switch_away, phase_ok, ticket_ok, tokens, waking in *. rewrite Ht in Hp. simpl in *.
    destruct_and?. destruct (runnable s) eqn:Er; [done|]. simpl. rewrite Er.
    pose proof (cnt_nonneg is_load (actors s)).
    rewrite !(cnt_insert _ _ _ _ _ Hi). simpl. wake_solve.
  - by apply (preempt_inv s k i).
  - by apply (resume_inv s k).
  - split; [done|]. specialize (Hquiet eq_refl).
    assert (∀ P : apc → bool, (∀ a, quiet a = true → P a = false) → cnt P (actors s) = 0) as Hz.
    { intros P HP. apply cnt_zero. intros a Ha. apply HP.
      by apply (proj1 (Forall_forall _ _) Hquiet). }
    unfold phase_ok, ticket_ok, tokens, waking in *. rewrite Ht in Hp. simpl in *.
    rewrite !Hz in Hp by (by intros []). rewrite !Hz by (by intros []). destruct_and?.
    destruct (pending_wakeup s); wake_solve;
      try (eapply Forall_impl; [done|simpl; lia]).
  - split; [by apply (actor_calls s s' i p q)|by eapply actor_phase].
Qed.

Lemma wake_reachable_inv n s : wake_reachable true n s → wake_inv s.
Proof.
  intros Hr. unfold wake_reachable in Hr.
  remember (wake_initial n) as s0 eqn:E. assert (wake_inv s0) as Hi by (subst; apply wake_initial_inv).
  clear E. induction Hr as [|s1 s2 s3 H1 _ IH]; eauto using wake_step_inv.
Qed.

(** ** What the protocol promises *)

(** The CPU executes the task. *)
Definition has_cpu (s : wake) : bool :=
  match task s with TOff _ | TReady _ => false | _ => true end.


Tactic Notation "go" uconstr(rule) :=
  eapply rtc_l; [eapply rule; try done; try by constructor|]; cbn.
Tactic Notation "act" constr(i) uconstr(rule) :=
  eapply rtc_l; [eapply (t_actor _ _ _ i); [done|eapply rule; try done; try set_solver]|]; cbn.

(** Defect: the proviso of exactly-once delivery is needed.  A finisher that
    is delayed between storing [on_cpu] and its compare-and-swap of
    [pending_wakeup], while a waker enqueues the task, the task runs on another
    CPU and publishes its next ticket, consumes the wake-up of that next ticket
    and inserts the task into a runqueue while it is running. *)
Theorem wake_delayed_finisher :
  ∃ s, wake_reachable false 2 s ∧ task s = TPublished 4 ∧ on_cpu s = true ∧ queued s = 1.
Proof.
  eexists. split; [unfold wake_reachable, wake_initial; cbn|].
  - go t_ticket. go t_publish. go t_block. go (t_schedule _ _ _ 1%nat).
    act 1%nat f_blocked. act 0%nat (w_call _ 2). act 0%nat w_ticket. act 0%nat w_store.
    act 0%nat w_off_cpu. act 0%nat w_cas. act 0%nat w_enqueue.
    go t_run. go t_ticket. go t_publish.
    act 0%nat (w_call _ 4). act 0%nat w_ticket. act 0%nat w_store. act 0%nat w_on_cpu.
    act 1%nat f_cas. act 1%nat f_enqueue. apply rtc_refl.
  - done.
Qed.

(** A task that was preempted with its ticket and resumed, and is woken between
    publishing the ticket and switching away. *)
Definition ex_woken : wake := mkWake 3 false false true 1 [2] (TOff 2) [AIdle; AIdle].

Lemma ex_woken_reachable : wake_reachable true 2 ex_woken.
Proof.
  unfold wake_reachable, wake_initial; cbn.
  go t_ticket. go (t_preempt _ _ (Some 2) 1%nat). act 1%nat f_runnable. go t_resume. go t_publish.
  act 0%nat (w_call _ 2). act 0%nat w_ticket. act 0%nat w_store. act 0%nat w_on_cpu.
  go t_block. go (t_schedule _ _ _ 1%nat).
  act 1%nat f_blocked. act 1%nat f_cas. act 1%nat f_enqueue. apply rtc_refl.
Qed.


End wake.
