(* ===== verification/CondWait.v ===== *)
(** * Waiting for a condition ([kernel/condwait.cc])

    Tasks that wait for a condition on an object sleep on one of 256 lists,
    chosen by the object's address; whoever changes the object wakes the tasks
    of its list.  A waiter lives in the stack frame of [__cond_wait_on]: the
    frames are explicit, so that reading the waiter of a call that has returned
    is an error ([None]).  One step is one critical section under the list's
    lock, cut where [__condwait_touch] publishes [on_list], which the waiter
    reads without the lock; the condition, the clock and signals may answer
    anything at any time. *)

From S2P Require Import Prelude.
From S2P Require Export HList.

Section condwait_defs.
Local Open Scope Z_scope.

Definition condwait_hash_bits : Z := 255.
Definition NO_TIMEOUT : Z := 2 ^ 64 - 1.

(** The address of the list of a bucket. *)
Definition get_bucket (key : Z) : loc := Z.to_pos (Z.land key condwait_hash_bits + 1).

Definition condwait_obj_key (obj : Z) : Z :=
  let x := obj in
  let x := Z.lxor x (Z.shiftl x 7 mod 2 ^ 64) in
  Z.lxor x (Z.shiftr x 9).

Record condwait_waiter := mkCondWaiter { cw_task : positive; cw_ticket : Z; on_list : bool }.

(** Where [__cond_wait_on] is: at [retry]; before [sched_timeout]; in it; before
    the lock it takes to leave the list; behind that. *)
Inductive wpc := WRetry | WPushed | WAsleep | WUnlink | WAfter.

Record wframe := mkWframe {
  waiter : condwait_waiter; wkey : Z; interruptible_ : bool; wtimeout : Z; wat : wpc }.

(** Where a call of [__condwait_touch] is: not running; at the top of the loop;
    past the store to [on_list]. *)
Inductive cpc := CIdle | CLoop (b : loc) | CRead (b x : loc).

Inductive wresult := WOk | WETIME | WEINTR.

(** [unblock_ticket]s of the tasks; [wakes] lists what [sched_wake] returned. *)
Record condwaits := mkCw {
  cw_lists : hmem;
  wframes : gmap loc wframe;
  tickets : positive → Z;
  touchers : list cpc;
  wakes : list (loc * bool);
  results : list (loc * wresult);
}.

Definition set_wframe (s : condwaits) (x : loc) (f : wframe) : condwaits :=
  mkCw (cw_lists s) (<[x := f]> (wframes s)) (tickets s) (touchers s) (wakes s) (results s).
Definition set_lists (s : condwaits) (m : hmem) : condwaits :=
  mkCw m (wframes s) (tickets s) (touchers s) (wakes s) (results s).
Definition set_tickets (s : condwaits) (t : positive → Z) : condwaits :=
  mkCw (cw_lists s) (wframes s) t (touchers s) (wakes s) (results s).
Definition set_toucher (s : condwaits) (i : nat) (c : cpc) : condwaits :=
  mkCw (cw_lists s) (wframes s) (tickets s) (<[i := c]> (touchers s)) (wakes s) (results s).
Definition record_woke (s : condwaits) (x : loc) (b : bool) : condwaits :=
  mkCw (cw_lists s) (wframes s) (tickets s) (touchers s) (wakes s ++ [(x, b)]) (results s).
Definition at_pc (f : wframe) (p : wpc) : wframe :=
  mkWframe (waiter f) (wkey f) (interruptible_ f) (wtimeout f) p.
Definition with_waiter (f : wframe) (w : condwait_waiter) (p : wpc) : wframe :=
  mkWframe w (wkey f) (interruptible_ f) (wtimeout f) p.

(** Leaving [__cond_wait_on]. *)
Definition wreturn (s : condwaits) (x : loc) (r : wresult) : condwaits :=
  mkCw (mkHmem (hl_heads (cw_lists s)) (delete x (hl_nodes (cw_lists s)))) (delete x (wframes s))
    (tickets s) (touchers s) (wakes s) (results s ++ [(x, r)]).

(** [sched_get_blocking_ticket] and [sched_wake], as far as tickets go. *)
Definition get_blocking_ticket (t : positive → Z) (me : positive) : Z * (positive → Z) :=
  (t me + 1, λ j, if decide (j = me) then t me + 1 else t j).
Definition wake_ticket (t : positive → Z) (tsk : positive) (k : Z) : bool * (positive → Z) :=
  if decide (t tsk = k) then (true, λ j, if decide (j = tsk) then k + 1 else t j) else (false, t).

(** Entering [__cond_wait_on], up to [retry]; [w] and [n] are what was on the
    stack. *)
Definition cond_wait_start (s : condwaits) (x : loc) (n : HListHead) (w : condwait_waiter)
    (me : positive) (key : Z) (interruptible : bool) (timeout now : Z) : condwaits :=
  let timeout := if decide (timeout ≠ NO_TIMEOUT) then (timeout + now) mod 2 ^ 64 else timeout in
  set_wframe (set_lists s (set_hnode (cw_lists s) x n)) x
    (mkWframe (mkCondWaiter me (cw_ticket w) (on_list w)) key interruptible timeout WRetry).

(** From [retry] to the call of [sched_timeout]. *)
Definition cond_wait_enter (s : condwaits) (x : loc) (cond : bool) : option condwaits :=
  f ← wframes s !! x;
  if cond then Some (wreturn s x WOk)
  else
    let me := cw_task (waiter f) in
    let '(k, t) := get_blocking_ticket (tickets s) me in
    let f := with_waiter f (mkCondWaiter me k true) WPushed in
    lists ← hlist_push (cw_lists s) (get_bucket (wkey f)) x;
    Some (set_lists (set_tickets (set_wframe s x f) t) lists).

(** [sched_timeout] takes a ticket of its own and sleeps. *)
Definition cond_wait_sleep (s : condwaits) (x : loc) : option condwaits :=
  f ← wframes s !! x;
  let '(_, t) := get_blocking_ticket (tickets s) (cw_task (waiter f)) in
  Some (set_tickets (set_wframe s x (at_pc f WAsleep)) t).

(** After [sched_timeout] returned. *)
Definition cond_wait_load (s : condwaits) (x : loc) : option condwaits :=
  f ← wframes s !! x;
  Some (set_wframe s x (at_pc f (if on_list (waiter f) then WUnlink else WAfter))).

Definition cond_wait_unlink (s : condwaits) (x : loc) : option condwaits :=
  f ← wframes s !! x;
  lists ← (if on_list (waiter f) then hlist_remove (cw_lists s) x else Some (cw_lists s));
  Some (set_wframe (set_lists s lists) x (at_pc f WAfter)).

Definition cond_wait_after (s : condwaits) (x : loc) (cond : bool) (now : Z) (signal : bool) : option condwaits :=
  f ← wframes s !! x;
  Some (if cond then wreturn s x WOk
        else if decide (now >= wtimeout f) then wreturn s x WETIME
        else if signal then wreturn s x WEINTR
        else set_wframe s x (at_pc f WRetry)).

(** A step of the [i]-th call of [__condwait_touch]. *)
Definition condwait_touch_step (s : condwaits) (i : nat) : option condwaits :=
  c ← touchers s !! i;
  match c with
  | CIdle => Some s
  | CLoop b =>
    e ← hlist_empty (cw_lists s) b;
    if e : bool then Some (set_toucher s i CIdle)
    else
      '(x, lists) ← hlist_pop (cw_lists s) b;
      f ← wframes s !! x;
      let w := mkCondWaiter (cw_task (waiter f)) (cw_ticket (waiter f)) false in
      Some (set_toucher (set_wframe (set_lists s lists) x (with_waiter f w (wat f))) i (CRead b x))
  | CRead b x =>
    f ← wframes s !! x;
    let '(woke, t) := wake_ticket (tickets s) (cw_task (waiter f)) (cw_ticket (waiter f)) in
    Some (set_toucher (record_woke (set_tickets s t) x woke) i (CLoop b))
  end.

(** ** All interleavings *)

(** The list's lock is free. *)
Definition bucket_free (s : condwaits) (b : loc) : Prop :=
  ∀ i c, touchers s !! i = Some c → c ≠ CLoop b ∧ ∀ x, c ≠ CRead b x.

Inductive cstep : condwaits → condwaits → Prop :=
| c_start s x n w me key intr timeout now :
    wframes s !! x = None → cstep s (cond_wait_start s x n w me key intr timeout now)
| c_enter s s' x f cond :
    wframes s !! x = Some f → wat f = WRetry → bucket_free s (get_bucket (wkey f)) →
    cond_wait_enter s x cond = Some s' → cstep s s'
| c_sleep s s' x f :
    wframes s !! x = Some f → wat f = WPushed → cond_wait_sleep s x = Some s' → cstep s s'
| c_load s s' x f :
    wframes s !! x = Some f → wat f = WAsleep → cond_wait_load s x = Some s' → cstep s s'
| c_unlink s s' x f :
    wframes s !! x = Some f → wat f = WUnlink → bucket_free s (get_bucket (wkey f)) →
    cond_wait_unlink s x = Some s' → cstep s s'
| c_after s s' x f cond now signal :
    wframes s !! x = Some f → wat f = WAfter → cond_wait_after s x cond now signal = Some s' → cstep s s'
| c_ticket s me : cstep s (set_tickets s (get_blocking_ticket (tickets s) me).2)
| c_wake s tsk k : cstep s (set_tickets s (wake_ticket (tickets s) tsk k).2)
| c_call s i key :
    touchers s !! i = Some CIdle → bucket_free s (get_bucket key) →
    cstep s (set_toucher s i (CLoop (get_bucket key)))
| c_touch s s' i c :
    touchers s !! i = Some c → c ≠ CIdle → condwait_touch_step s i = Some s' → cstep s s'.

(** [static_condwait_buckets], of size [k]. *)
Definition empty_buckets (k : nat) : gmap loc (option loc) :=
  list_to_map ((λ b : nat, (Pos.of_succ_nat b, None)) <$> seq 0 k).

(** All lists empty, no call running. *)
Definition cw_initial (n : nat) (t : positive → Z) : condwaits :=
  mkCw (mkHmem (empty_buckets (Z.to_nat (condwait_hash_bits + 1))) ∅) ∅ t
    (replicate n CIdle) [] [].

Inductive creach : condwaits → Prop :=
| cr_init n t : creach (cw_initial n t)
| cr_step s s' : creach s → cstep s s' → creach s'.

End condwait_defs.

(** ** The invariant *)

Section condwait.
Local Open Scope Z_scope.
Implicit Types (s : condwaits) (f : wframe) (m : hmem).

(** The waiter is on its list. *)
Definition linked f : bool :=
  on_list (waiter f) && match wat f with WPushed | WAsleep | WUnlink => true | _ => false end.

(** Every list holds exactly the linked waiters of live calls with its key. *)
Definition lists_ok m (fs : gmap loc wframe) : Prop :=
  dom (hl_nodes m) = dom fs ∧ (∀ key, get_bucket key ∈ dom (hl_heads m)) ∧
  ∀ b, b ∈ dom (hl_heads m) → ∃ xs, is_hlist m b xs ∧
    ∀ x, x ∈ xs ↔ ∃ f, fs !! x = Some f ∧ linked f = true ∧ get_bucket (wkey f) = b.

(** The ticket a sleeping waiter is listed with is out of date. *)
Definition tickets_ok (t : positive → Z) (fs : gmap loc wframe) : Prop :=
  ∀ x f, fs !! x = Some f →
    match wat f with
    | WPushed => cw_ticket (waiter f) <= t (cw_task (waiter f))
    | WAsleep | WUnlink => cw_ticket (waiter f) < t (cw_task (waiter f))
    | _ => True
    end.

Definition cw_inv s : Prop :=
  lists_ok (cw_lists s) (wframes s) ∧ tickets_ok (tickets s) (wframes s) ∧
  ∀ i b, touchers s !! i = Some (CLoop b) ∨ (∃ x, touchers s !! i = Some (CRead b x)) →
    b ∈ dom (hl_heads (cw_lists s)).

(** Changing a frame that stays linked or unlinked. *)
Lemma lists_ok_frame m fs x f f' :
  lists_ok m fs → fs !! x = Some f → linked f' = linked f → wkey f' = wkey f → lists_ok m (<[x := f']> fs).
Proof.
  intros (Hd & Hk & Hl) Hx Hlk Hkey. split_and!; [|done|].
  - rewrite dom_insert_lookup_L by (by eexists). done.
  - intros b Hb. destruct (Hl b Hb) as (xs & Hxs & Hiff). exists xs. split; [done|]. intros y. rewrite Hiff.
    destruct (decide (y = x)) as [->|]; [|by rewrite lookup_insert_ne].
    rewrite lookup_insert_eq. split; intros (g & Hg & H); simplify_eq; eexists; (split; [done|]).
    + by rewrite Hlk, Hkey.
    + by rewrite <-Hlk, <-Hkey.
Qed.

(** A change of one list [b] and of the waiter [x] of that list. *)
Lemma lists_ok_change m m' fs x f f' xs xs' :
  lists_ok m fs → fs !! x = Some f → is_hlist m (get_bucket (wkey f)) xs →
  (∀ y, y ∈ xs ↔ ∃ g, fs !! y = Some g ∧ linked g = true ∧ get_bucket (wkey g) = get_bucket (wkey f)) →
  is_hlist m' (get_bucket (wkey f)) xs' → only_touched (Some (get_bucket (wkey f))) (x :: xs) m m' →
  wkey f' = wkey f → (∀ y, y ≠ x → y ∈ xs' ↔ y ∈ xs) → (x ∈ xs' ↔ linked f' = true) →
  lists_ok m' (<[x := f']> fs).
Proof.
  intros (Hd & Hk & Hl) Hx Hxs Hiff Hxs' Hu Hkey Hother Hself. pose proof Hu as (_ & _ & Hdh & Hdn). split_and!.
  - rewrite Hdn, dom_insert_lookup_L by (by eexists). done.
  - by rewrite Hdh.
  - intros b. rewrite Hdh. intros Hb. destruct (decide (b = get_bucket (wkey f))) as [->|Hne].
    + exists xs'. split; [done|]. intros y. destruct (decide (y = x)) as [->|Hy].
      * rewrite Hself, lookup_insert_eq. split; [|by intros (g & [= <-] & H & _)].
        intros H. exists f'. by rewrite Hkey.
      * by rewrite Hother, Hiff, lookup_insert_ne.
    + destruct (Hl b Hb) as (ys & Hys & Hi). exists ys. split.
      * eapply is_hlist_other; [exact Hu|done|done|]. intros y (g & Hg & _ & Hgb)%Hi [->|Hy]%elem_of_cons; [congruence|].
        apply Hiff in Hy as (g' & Hg' & _ & Hgb'). congruence.
      * intros y. rewrite Hi. destruct (decide (y = x)) as [->|]; [|by rewrite lookup_insert_ne].
        rewrite lookup_insert_eq. split; intros (g & Hg & _ & Hgb); simplify_eq; congruence.
Qed.

(** Entering and leaving a call. *)
Lemma lists_ok_new m fs x n f :
  lists_ok m fs → fs !! x = None → linked f = false → lists_ok (set_hnode m x n) (<[x := f]> fs).
Proof.
  intros (Hd & Hk & Hl) Hx Hf. split_and!; [|done|].
  - simpl. by rewrite !dom_insert_L, Hd.
  - simpl. intros b Hb. destruct (Hl b Hb) as (xs & [Hnd Hxs] & Hi).
    assert (x ∉ xs) as Hn by (intros (g & Hg & _)%Hi; congruence). exists xs. split.
    + split; [done|]. eapply hseg_ext; [exact Hxs|done|]. intros y Hy. simpl. rewrite lookup_insert_ne by congruence. done.
    + intros y. rewrite Hi. destruct (decide (y = x)) as [->|]; [|by rewrite lookup_insert_ne].
      rewrite lookup_insert_eq, Hx. split; intros (g & Hg & H & _); simplify_eq. congruence.
Qed.

Lemma lists_ok_return m fs x f :
  lists_ok m fs → fs !! x = Some f → linked f = false →
  lists_ok (mkHmem (hl_heads m) (delete x (hl_nodes m))) (delete x fs).
Proof.
  intros (Hd & Hk & Hl) Hx Hf. split_and!; [|done|].
  - simpl. by rewrite !dom_delete_L, Hd.
  - simpl. intros b Hb. destruct (Hl b Hb) as (xs & [Hnd Hxs] & Hi).
    assert (x ∉ xs) as Hn by (intros (g & Hg & Hlk & _)%Hi; congruence). exists xs. split.
    + split; [done|]. eapply hseg_ext; [exact Hxs|done|]. intros y Hy. simpl. rewrite lookup_delete_ne by congruence. done.
    + intros y. rewrite Hi. destruct (decide (y = x)) as [->|]; [|by rewrite lookup_delete_ne].
      rewrite lookup_delete_eq. split; intros (g & Hg & H & _); simplify_eq. congruence.
Qed.

Lemma tickets_mono t t' fs : (∀ j, t j <= t' j) → tickets_ok t fs → tickets_ok t' fs.
Proof.
  intros Ht H x f Hx. specialize (H x f Hx). specialize (Ht (cw_task (waiter f))). destruct (wat f); (done || lia).
Qed.

Lemma blocking_mono t me j : t j <= (get_blocking_ticket t me).2 j.
Proof. simpl. case_decide; [subst|]; lia. Qed.

Lemma wake_mono t tsk k j : t j <= (wake_ticket t tsk k).2 j.
Proof. unfold wake_ticket. destruct (decide (t tsk = k)); simpl; [|lia]. case_decide; [subst|]; lia. Qed.

Lemma tickets_insert t fs x f :
  tickets_ok t fs → tickets_ok t {[x := f]} → tickets_ok t (<[x := f]> fs).
Proof.
  intros H H1 y g [[<- <-]|[_ Hy]]%lookup_insert_Some; [|by apply (H y g)]. apply (H1 x f). by rewrite lookup_singleton_eq.
Qed.

Lemma tickets_delete t fs x : tickets_ok t fs → tickets_ok t (delete x fs).
Proof. intros H y g [_ Hy]%lookup_delete_Some. by apply (H y g). Qed.

Lemma tickets_one t x f :
  match wat f with
  | WPushed => cw_ticket (waiter f) <= t (cw_task (waiter f))
  | WAsleep | WUnlink => cw_ticket (waiter f) < t (cw_task (waiter f))
  | _ => True
  end → tickets_ok t {[x := f]}.
Proof. intros H y g [<- <-]%lookup_singleton_Some. exact H. Qed.

Lemma not_linked f : wat f = WRetry ∨ wat f = WAfter → linked f = false.
Proof. unfold linked. intros [-> | ->]; by rewrite andb_false_r. Qed.

Lemma return_inv s x f r : cw_inv s → wframes s !! x = Some f → linked f = false → cw_inv (wreturn s x r).
Proof.
  intros (Hl & Ht & Hc) Hx Hf. split_and!; simpl; [by eapply lists_ok_return|by apply tickets_delete|done].
Qed.

Lemma wait_enter_spec s x f cond :
  cw_inv s → wframes s !! x = Some f → wat f = WRetry →
  ∃ s', cond_wait_enter s x cond = Some s' ∧ cw_inv s'.
Proof.
  intros Hinv Hx Hp. unfold cond_wait_enter. rewrite Hx. cbn [mbind option_bind]. destruct cond.
  { eexists. split; [done|]. eapply return_inv; [done..|]. apply not_linked. by left. }
  destruct Hinv as (Hl & Ht & Hc). pose proof Hl as (Hd & Hk & Hls).
  destruct (Hls (get_bucket (wkey f)) (Hk _)) as (xs & Hxs & Hi).
  assert (linked f = false) as Hlf by (apply not_linked; by left).
  assert (x ∉ xs) as Hn by (intros (g & Hg & Hlg & _)%Hi; congruence).
  destruct (hlist_push_spec (cw_lists s) (get_bucket (wkey f)) xs x Hxs Hn) as (m' & E & Hxs' & Hu).
  { apply elem_of_dom. rewrite Hd. apply elem_of_dom. by eexists. }
  cbn [get_blocking_ticket wkey with_waiter]. rewrite E. cbn [mbind option_bind].
  eexists. split; [done|]. split_and!; simpl.
  - apply (lists_ok_change (cw_lists s) _ _ _ f _ xs (x :: xs)); try done; set_solver.
  - apply tickets_insert; [by eapply tickets_mono; [apply blocking_mono|]|]. apply tickets_one. simpl.
    rewrite decide_True by done. lia.
  - intros i b Hib. destruct Hu as (_ & _ & -> & _). by eapply Hc.
Qed.

Lemma wait_sleep_spec s x f :
  cw_inv s → wframes s !! x = Some f → wat f = WPushed →
  ∃ s', cond_wait_sleep s x = Some s' ∧ cw_inv s'.
Proof.
  intros (Hl & Ht & Hc) Hx Hp. unfold cond_wait_sleep. rewrite Hx. eexists. split; [done|]. split_and!; simpl; [| |done].
  - eapply lists_ok_frame; [done..| |done]. unfold linked. by rewrite Hp.
  - apply tickets_insert; [by eapply tickets_mono; [apply blocking_mono|]|]. apply tickets_one. simpl.
    rewrite decide_True by done. specialize (Ht x f Hx). rewrite Hp in Ht. lia.
Qed.

Lemma wait_load_spec s x f :
  cw_inv s → wframes s !! x = Some f → wat f = WAsleep →
  ∃ s', cond_wait_load s x = Some s' ∧ cw_inv s'.
Proof.
  intros (Hl & Ht & Hc) Hx Hp. unfold cond_wait_load. rewrite Hx. eexists. split; [done|].
  specialize (Ht x f Hx) as Hf. rewrite Hp in Hf. split_and!; simpl; [| |done].
  - eapply lists_ok_frame; [done..| |done]. unfold linked. rewrite Hp. simpl. by destruct (on_list (waiter f)).
  - apply tickets_insert; [done|]. apply tickets_one. by destruct (on_list (waiter f)).
Qed.

Lemma wait_unlink_spec s x f :
  cw_inv s → wframes s !! x = Some f → wat f = WUnlink →
  ∃ s', cond_wait_unlink s x = Some s' ∧ cw_inv s'.
Proof.
  intros (Hl & Ht & Hc) Hx Hp. unfold cond_wait_unlink. rewrite Hx. cbn [mbind option_bind].
  pose proof Hl as (Hd & Hk & Hls). destruct (on_list (waiter f)) eqn:Ho.
  - destruct (Hls (get_bucket (wkey f)) (Hk _)) as (xs & Hxs & Hi).
    assert (x ∈ xs) as (l1 & l2 & ->)%list_elem_of_split.
    { apply Hi. exists f. unfold linked. by rewrite Hp, Ho. }
    destruct (hlist_remove_spec _ _ l1 x l2 Hxs) as (m' & -> & Hxs' & Hu). cbn [mbind option_bind].
    eexists. split; [done|]. split_and!; simpl.
    + apply (lists_ok_change (cw_lists s) _ _ _ f _ (l1 ++ x :: l2) (l1 ++ l2)); try done.
      * destruct Hu as (U1 & U2 & U3 & U4). split_and!; try done. intros y Hy. apply U2. set_solver.
      * set_solver.
      * rewrite not_linked by by right. split; [|done]. intros Hin. destruct Hxs as [Hnd _].
        rewrite <-Permutation_middle in Hnd. apply NoDup_cons in Hnd as [? _]. done.
    + apply tickets_insert; [done|]. by apply tickets_one.
    + intros i b Hib. destruct Hu as (_ & _ & -> & _). by eapply Hc.
  - eexists. split; [done|]. split_and!; simpl; [| |done].
    + eapply lists_ok_frame; [done..| |done]. unfold linked. simpl. by rewrite Ho.
    + apply tickets_insert; [done|]. by apply tickets_one.
Qed.

Lemma wait_after_spec s x f cond now signal :
  cw_inv s → wframes s !! x = Some f → wat f = WAfter →
  ∃ s', cond_wait_after s x cond now signal = Some s' ∧ cw_inv s'.
Proof.
  intros Hinv Hx Hp. unfold cond_wait_after. rewrite Hx. eexists. split; [done|].
  assert (linked f = false) as Hf by (apply not_linked; by right).
  destruct cond; [by eapply return_inv|]. case_decide; [by eapply return_inv|].
  destruct signal; [by eapply return_inv|]. destruct Hinv as (Hl & Ht & Hc). split_and!; simpl; [| |done].
  - eapply lists_ok_frame; [done..| |done]. rewrite Hf. apply not_linked. by left.
  - apply tickets_insert; [done|]. by apply tickets_one.
Qed.

(** Taking the first waiter, or stopping. *)
Lemma touch_loop_spec s i b :
  cw_inv s → touchers s !! i = Some (CLoop b) →
  ∃ s', condwait_touch_step s i = Some s' ∧ cw_inv s'.
Proof.
  intros (Hl & Ht & Hc) Hi. unfold condwait_touch_step. rewrite Hi. cbn [mbind option_bind].
  assert (b ∈ dom (hl_heads (cw_lists s))) as Hb by (apply (Hc i b); by left).
  assert (∀ c i' b', <[i:=c]> (touchers s) !! i' = Some (CLoop b') ∨ (∃ x, <[i:=c]> (touchers s) !! i' = Some (CRead b' x)) →
    c = CIdle ∨ (∃ x, c = CRead b x) → b' ∈ dom (hl_heads (cw_lists s))) as Hc'.
  { intros c i' b' H Hcase. destruct (decide (i' = i)) as [->|]; [|rewrite list_lookup_insert_ne in H by done; by eapply Hc].
    rewrite list_lookup_insert_eq in H by (by eapply lookup_lt_Some). naive_solver. }
  pose proof Hl as (Hd & Hk & Hls). destruct (Hls b Hb) as (xs & Hxs & Hiff).
  rewrite (hlist_empty_spec _ _ _ Hxs). cbn [mbind option_bind]. destruct xs as [|x xs].
  - rewrite bool_decide_true by done. eexists. split; [done|]. split_and!; [done..|]. intros i' b' H. eapply Hc'; [exact H|by left].
  - rewrite bool_decide_false by done. destruct (hlist_pop_spec _ _ _ _ Hxs) as (m' & -> & Hxs' & Hu). cbn [mbind option_bind].
    destruct (proj1 (Hiff x)) as (f & Hf & Hlf & Hfb); [set_solver|]. rewrite Hf. cbn [mbind option_bind].
    eexists. split; [done|]. split_and!; simpl.
    + subst b. apply (lists_ok_change (cw_lists s) _ _ _ f _ (x :: xs) xs); try done.
      * destruct Hu as (U1 & U2 & U3 & U4). split_and!; try done. intros y Hy. apply U2. set_solver.
      * set_solver.
      * destruct Hxs as [[? _]%NoDup_cons _]. split; [done|]. unfold linked. simpl. done.
    + apply tickets_insert; [done|]. apply tickets_one. exact (Ht x f Hf).
    + intros i' b' H. destruct Hu as (_ & _ & -> & _). eapply Hc'; [exact H|right; by eexists].
Qed.

(** Waking the waiter taken, if its call has not returned. *)
Lemma touch_read_spec s i b x f :
  cw_inv s → touchers s !! i = Some (CRead b x) → wframes s !! x = Some f →
  ∃ s', condwait_touch_step s i = Some s' ∧ cw_inv s'.
Proof.
  intros (Hl & Ht & Hc) Hi Hf. unfold condwait_touch_step. rewrite Hi. cbn [mbind option_bind]. rewrite Hf.
  cbn [mbind option_bind]. destruct (wake_ticket _ _ _) as [w t'] eqn:E. eexists. split; [done|]. split_and!; simpl; [done| |].
  - eapply tickets_mono; [|done]. intros j.
    pose proof (wake_mono (tickets s) (cw_task (waiter f)) (cw_ticket (waiter f)) j) as H. by rewrite E in H.
  - intros i' b' H. destruct (decide (i' = i)) as [->|]; [|rewrite list_lookup_insert_ne in H by done; by eapply Hc].
    rewrite list_lookup_insert_eq in H by (by eapply lookup_lt_Some).
    apply (Hc i b'). right. exists x. rewrite Hi. naive_solver.
Qed.

Lemma empty_buckets_lookup k b v : empty_buckets k !! b = Some v → v = None.
Proof. intros Hb%elem_of_list_to_map_2. apply list_elem_of_fmap in Hb as (a & [= _ ->] & _). done. Qed.

Lemma empty_buckets_dom k (i : nat) : (i < k)%nat → Pos.of_succ_nat i ∈ dom (empty_buckets k).
Proof.
  intros Hi. apply elem_of_dom. exists None. apply elem_of_list_to_map_1.
  - rewrite <-list_fmap_compose. apply NoDup_fmap_2; [|apply NoDup_seq]. intros a b. simpl. lia.
  - apply list_elem_of_fmap. exists i. split; [done|]. apply elem_of_seq. lia.
Qed.

Lemma get_bucket_index key :
  ∃ i : nat, (i < Z.to_nat (condwait_hash_bits + 1))%nat ∧ get_bucket key = Pos.of_succ_nat i.
Proof.
  assert (0 <= Z.land key condwait_hash_bits < 256) as Hr.
  { unfold condwait_hash_bits. change 255 with (Z.ones 8). rewrite Z.land_ones by lia. apply Z.mod_pos_bound. lia. }
  exists (Z.to_nat (Z.land key condwait_hash_bits)). split; [unfold condwait_hash_bits at 2; lia|]. unfold get_bucket. lia.
Qed.

Lemma initial_cw_inv n t : cw_inv (cw_initial n t).
Proof.
  split_and!; [split_and!|done|].
  - done.
  - intros key. destruct (get_bucket_index key) as (i & Hi & ->). by apply empty_buckets_dom.
  - intros b [v Hb]%elem_of_dom. exists []. split; [|by intros x; split; [intros ?%elem_of_nil|intros (f & Hf & _)]].
    split; [constructor|]. cbn [hseg load_cell]. by rewrite <-(empty_buckets_lookup _ _ _ Hb).
  - intros i b H. cbn [touchers cw_initial] in H. exfalso.
    destruct H as [H|[x H]]; apply lookup_replicate in H as [H _]; discriminate H.
Qed.

Lemma cstep_inv s s' : cw_inv s → cstep s s' → cw_inv s'.
Proof.
  intros Hinv Hstep. pose proof Hinv as (Hl & Ht & Hc). inversion_clear Hstep.
  - split_and!; simpl; [|by apply tickets_insert, tickets_one|done].
    apply lists_ok_new; [done..|]. apply not_linked. by left.
  - destruct (wait_enter_spec s x f cond Hinv) as (s1 & E & H1'); [done..|]. by simplify_eq.
  - destruct (wait_sleep_spec s x f Hinv) as (s1 & E & H1'); [done..|]. by simplify_eq.
  - destruct (wait_load_spec s x f Hinv) as (s1 & E & H1'); [done..|]. by simplify_eq.
  - destruct (wait_unlink_spec s x f Hinv) as (s1 & E & H1'); [done..|]. by simplify_eq.
  - destruct (wait_after_spec s x f cond now signal Hinv) as (s1 & E & H1'); [done..|]. by simplify_eq.
  - split_and!; [done| |done]. eapply tickets_mono; [apply blocking_mono|done].
  - split_and!; [done| |done]. eapply tickets_mono; [apply wake_mono|done].
  - split_and!; [done..|]. simpl. intros i' b' H'.
    destruct (decide (i' = i)) as [->|]; [|rewrite list_lookup_insert_ne in H' by done; by eapply Hc].
    rewrite list_lookup_insert_eq in H' by (by eapply lookup_lt_Some). destruct Hl as (_ & Hk & _). naive_solver.
  - destruct c as [|b|b x]; [done| |].
    + destruct (touch_loop_spec s i b Hinv) as (s1 & E & H1'); [done|]. by simplify_eq.
    + pose proof H1 as H1'. unfold condwait_touch_step in H1'. rewrite H in H1'.
      apply bind_Some in H1' as (? & [= <-] & (f & Hf & _)%bind_Some).
      destruct (touch_read_spec s i b x f Hinv) as (s1 & E & H2); [done..|]. by simplify_eq.
Qed.

Lemma creach_inv s : creach s → cw_inv s.
Proof. induction 1; [apply initial_cw_inv|by eapply cstep_inv]. Qed.

(** C27. However waiters and touchers interleave, every list of the hash table is
    well formed and holds exactly the waiters with its key that are waiting and
    were not taken, so no waiter of a call that returned is on a list; and no
    step of the code fails but, possibly, the reading of a waiter after the
    store to its [on_list]. *)
Theorem condwait_lists_sound s :
  creach s →
  (∀ key, ∃ xs, is_hlist (cw_lists s) (get_bucket key) xs ∧
     ∀ x, x ∈ xs ↔ ∃ f, wframes s !! x = Some f ∧ linked f = true ∧ get_bucket (wkey f) = get_bucket key) ∧
  (∀ x f, wframes s !! x = Some f →
     match wat f with
     | WRetry => ∀ cond, is_Some (cond_wait_enter s x cond)
     | WPushed => is_Some (cond_wait_sleep s x)
     | WAsleep => is_Some (cond_wait_load s x)
     | WUnlink => is_Some (cond_wait_unlink s x)
     | WAfter => ∀ cond now signal, is_Some (cond_wait_after s x cond now signal)
     end) ∧
  (∀ i b, touchers s !! i = Some (CLoop b) → is_Some (condwait_touch_step s i)).
Proof.
  intros Hinv%creach_inv. split_and!.
  - intros key. destruct Hinv as ((_ & Hk & Hl) & _). by apply Hl.
  - intros x f Hx. destruct (wat f) eqn:Hp.
    + intros cond. destruct (wait_enter_spec s x f cond Hinv Hx Hp) as (s' & -> & _). by eexists.
    + destruct (wait_sleep_spec s x f Hinv Hx Hp) as (s' & -> & _). by eexists.
    + destruct (wait_load_spec s x f Hinv Hx Hp) as (s' & -> & _). by eexists.
    + destruct (wait_unlink_spec s x f Hinv Hx Hp) as (s' & -> & _). by eexists.
    + intros cond now signal. destruct (wait_after_spec s x f cond now signal Hinv Hx Hp) as (s' & -> & _). by eexists.
  - intros i b Hi. destruct (touch_loop_spec s i b Hinv Hi) as (s' & -> & _). by eexists.
Qed.

(** [condwait_touch] never wakes a sleeping waiter: [__cond_wait_on] lists the
    waiter with a ticket of its own and then calls [sched_timeout], which takes
    another ticket and so makes the listed one invalid.  Whenever a waiter is
    asleep, [sched_wake] with the ticket it is listed with does nothing and
    returns false, and the call that took the waiter off its list goes on
    without waking anyone. *)
Theorem condwait_touch_never_wakes s x f :
  creach s → wframes s !! x = Some f → wat f = WAsleep →
  wake_ticket (tickets s) (cw_task (waiter f)) (cw_ticket (waiter f)) = (false, tickets s) ∧
  ∀ i b, touchers s !! i = Some (CRead b x) →
    condwait_touch_step s i = Some (set_toucher (record_woke s x false) i (CLoop b)).
Proof.
  intros (_ & Ht & _)%creach_inv Hx Hp. specialize (Ht x f Hx). rewrite Hp in Ht.
  assert (wake_ticket (tickets s) (cw_task (waiter f)) (cw_ticket (waiter f)) = (false, tickets s)) as E.
  { unfold wake_ticket. by rewrite decide_False by lia. }
  split; [done|]. intros i b Hi. unfold condwait_touch_step. rewrite Hi. cbn [mbind option_bind]. rewrite Hx.
  cbn [mbind option_bind]. rewrite E. by destruct s.
Qed.

End condwait.

(** ** Examples

    Task 9 waits on key 0 with its waiter at 300; the list of key 0 is at 1. *)

Local Open Scope Z_scope.

Definition ex_cw0 : condwaits := cw_initial 1 (λ _, 1).
Definition cw_after (o : option condwaits) : condwaits := default ex_cw0 o.
Definition ex_cw1 := cond_wait_start ex_cw0 300 (mkHListHead None CWild) (mkCondWaiter 1 0 false) 9 0 false NO_TIMEOUT 0.
Definition ex_cw2 := cw_after (cond_wait_enter ex_cw1 300 false).
Definition ex_cw3 := cw_after (cond_wait_sleep ex_cw2 300).
Definition ex_cw4 := set_toucher ex_cw3 0 (CLoop (get_bucket 0)).
Definition ex_cw5 := cw_after (condwait_touch_step ex_cw4 0).
Definition ex_cw6 := cw_after (cond_wait_load ex_cw5 300).
Definition ex_cw7 := cw_after (cond_wait_after ex_cw6 300 true 0 false).

Lemma idle_bucket_free s b : touchers s = [CIdle] → bucket_free s b.
Proof. intros H i c. rewrite H. destruct i; intros Hc; [|done]. by injection Hc as <-. Qed.

Lemma ex_cw4_reach : creach ex_cw4.
Proof.
  apply (cr_step ex_cw3).
  - apply (cr_step ex_cw2); [apply (cr_step ex_cw1); [apply (cr_step ex_cw0); [apply cr_init|]|]|].
    + apply c_start. reflexivity.
    + eapply (c_enter _ _ 300 _ false); [reflexivity|reflexivity|by apply idle_bucket_free|vm_compute; reflexivity].
    + eapply (c_sleep _ _ 300); [vm_compute; reflexivity|reflexivity|vm_compute; reflexivity].
  - apply c_call; [reflexivity|by apply idle_bucket_free].
Qed.

Lemma ex_cw5_reach : creach ex_cw5.
Proof.
  eapply (cr_step ex_cw4); [exact ex_cw4_reach|].
  eapply (c_touch _ _ 0%nat); [reflexivity|discriminate|vm_compute; reflexivity].
Qed.

(** [__condwait_touch] can read a waiter that no longer exists: it stores
    [on_list] before it reads [task] and [ticket], and a waiter that wakes up for
    another reason in between looks at [on_list] without the lock, finds its
    condition true and returns. *)
Theorem condwait_use_after_return :
  ∃ s i b x, creach s ∧ touchers s !! i = Some (CRead b x) ∧ wframes s !! x = None ∧
    condwait_touch_step s i = None.
Proof.
  exists ex_cw7, 0%nat, 1%positive, 300%positive. split_and!; [|vm_compute; reflexivity..].
  apply (cr_step ex_cw6); [apply (cr_step ex_cw5); [exact ex_cw5_reach|]|].
  - eapply (c_load _ _ 300); [vm_compute; reflexivity|reflexivity|vm_compute; reflexivity].
  - eapply (c_after _ _ 300 _ true 0 false); [vm_compute; reflexivity|reflexivity|vm_compute; reflexivity].
Qed.

Lemma condwait_lists_sound_witness :
  is_Some (condwait_touch_step ex_cw4 0) ∧ is_Some (cond_wait_load ex_cw4 300).
Proof.
  destruct (condwait_lists_sound ex_cw4 ex_cw4_reach) as (_ & H1 & H2). split.
  - apply (H2 0%nat (get_bucket 0)). reflexivity.
  - refine (H1 300%positive (mkWframe (mkCondWaiter 9 2 true) 0 false NO_TIMEOUT WAsleep) _). vm_compute. reflexivity.
Defined.

Lemma condwait_touch_never_wakes_witness :
  (wake_ticket (tickets ex_cw5) 9 2).1 = false ∧
  condwait_touch_step ex_cw5 0 = Some (set_toucher (record_woke ex_cw5 300 false) 0 (CLoop 1)).
Proof.
  destruct (condwait_touch_never_wakes ex_cw5 300%positive
    (mkWframe (mkCondWaiter 9 2 false) 0 false NO_TIMEOUT WAsleep) ex_cw5_reach) as [H1 H2].
  - vm_compute. reflexivity.
  - reflexivity.
  - split; [exact (f_equal fst H1)|]. apply (H2 0%nat 1%positive). reflexivity.
Defined.
