(* ===== verification/Sched.v ===== *)
(** * Runqueues ([kernel/sched/main.cc], [include/davix/task.h], [include/davix/cpuset.h])

    The per-CPU runqueue, a FIFO per priority, and the choice of the CPU a woken
    task goes to.  A queue is the list of its tasks (a [TypedList], see
    [LinkedList]).  Indexing a queue outside the array makes the result
    [None]. *)

From S2P Require Import Prelude.

Section sched_defs.
Local Open Scope Z_scope.

Definition MIN_TASK_PRIORITY : Z := 0.
Definition MAX_TASK_PRIORITY : Z := 20.
Definition nr_queues : nat := 21.
Definition TF_IDLE : Z := 1.
Definition TF_NOMIGRATE : Z := 2.

Record Task := mkTask {
  task_runnable : bool;      (* task_state == TASK_RUNNABLE *)
  task_flags : Z;
  task_priority : Z;         (* current_priority *)
  task_last_cpu : Z;
}.

Definition is_idle (t : Task) : bool := negb (Z.land (task_flags t) TF_IDLE =? 0).

Record sched_runqueue := mkRq {
  queues : list (list positive);
  current_priority : Z;
  current_task : positive;
  idle_task : positive;
  rq_load : Z;
}.

Definition queue_at (qs : list (list positive)) (idx : Z) : option (list positive) :=
  if decide (0 <= idx) then qs !! Z.to_nat idx else None.

Definition set_queue (qs : list (list positive)) (idx : Z) (q : list positive) : list (list positive) :=
  <[Z.to_nat idx:=q]> qs.

Definition with_queues (rq : sched_runqueue) (qs : list (list positive)) (load : Z) : sched_runqueue :=
  mkRq qs (current_priority rq) (current_task rq) (idle_task rq) load.

(** The constructor of a CPU's runqueue, with the idle task [sched_init] puts
    there. *)
Definition sched_pcpu (idle : positive) : sched_runqueue :=
  mkRq (replicate nr_queues []) MIN_TASK_PRIORITY idle idle 0.

(** What an insertion asks the target CPU to do. *)
Inductive kick := KNone | KReschedule | KTimer.

(** [enqueue_on_this_processor] and, with an IPI for either kick,
    [enqueue_on_remote_processor]. *)
Definition enqueue_on (remote : bool) (rq : sched_runqueue) (t : positive) (prio : Z)
    : option (sched_runqueue * kick) :=
  let idx := prio - MIN_TASK_PRIORITY in
  q ← queue_at (queues rq) idx;
  let was_empty := bool_decide (q = []) in
  let rq' := with_queues rq (set_queue (queues rq) idx (q ++ [t])) (wrap32 (rq_load rq + 1)) in
  Some (rq',
    if decide (prio > current_priority rq) then KReschedule
    else if decide (prio = current_priority rq ∧ was_empty = true)
         then (if remote then KReschedule else KTimer)
    else KNone).

(** [pick_next_task]: [n] priorities are left to look at, the highest first. *)
Fixpoint pick_from (qs : list (list positive)) (n : nat) : option (positive * list (list positive)) :=
  match n with
  | O => None
  | S n =>
    match qs !! n with
    | Some (t :: q) => Some (t, <[n:=q]> qs)
    | _ => pick_from qs n
    end
  end.

Definition pick_next_task (rq : sched_runqueue) : positive * sched_runqueue :=
  match pick_from (queues rq) nr_queues with
  | Some (t, qs) => (t, with_queues rq qs (rq_load rq))
  | None => (idle_task rq, rq)
  end.

(** The index is the priority itself. *)
Definition enqueue_task (rq : sched_runqueue) (t : positive) (prio : Z) : option sched_runqueue :=
  q ← queue_at (queues rq) prio;
  Some (with_queues rq (set_queue (queues rq) prio (q ++ [t])) (rq_load rq)).

(** The part of [context_switch] before the switch: the new runqueue and
    whether the time-slice timer is armed. *)
Definition context_switch (tasks : gmap positive Task) (rq : sched_runqueue) (next : positive)
    : option (sched_runqueue * bool) :=
  n ← tasks !! next;
  let prio := task_priority n in
  q ← queue_at (queues rq) prio;
  Some (mkRq (queues rq) prio next (idle_task rq) (rq_load rq), bool_decide (q ≠ [])).

(** [schedule] on the task [me]: the runqueue, the task that runs next, and
    whether the timer is armed. *)
Definition schedule (tasks : gmap positive Task) (rq : sched_runqueue) (me : positive)
    : option (sched_runqueue * positive * bool) :=
  m ← tasks !! me;
  rq ← (if task_runnable m && negb (is_idle m) then enqueue_task rq me (task_priority m)
        else Some (with_queues rq (queues rq)
                     (if is_idle m then rq_load rq else wrap32 (rq_load rq - 1))));
  let '(next, rq) := pick_next_task rq in
  if decide (me ≠ next) then
    '(rq, timer) ← context_switch tasks rq next;
    Some (rq, next, timer)
  else Some (rq, next, false).

(** [find_least_loaded_cpu], over the CPUs of [cpu_online]. *)
Fixpoint least_loaded (load : Z → Z) (cpus : list Z) (best_cpu best_cpu_load : Z) : Z :=
  match cpus with
  | [] => best_cpu
  | cpu :: cpus =>
    if decide (load cpu < best_cpu_load) then least_loaded load cpus cpu (load cpu)
    else least_loaded load cpus best_cpu best_cpu_load
  end.

Definition find_least_loaded_cpu (load : Z → Z) (cpu_online : list Z) : Z :=
  least_loaded load cpu_online 0 (2 ^ 32 - 1).

(** Where [__sched_wake] and [finish_context_switch] put a task: the CPU, and
    the task's new [last_cpu]. *)
Definition wake_target (load : Z → Z) (cpu_online : list Z) (t : Task) : Z * Task :=
  if negb (Z.land (task_flags t) TF_NOMIGRATE =? 0) then (task_last_cpu t, t)
  else
    let target := find_least_loaded_cpu load cpu_online in
    (target, mkTask (task_runnable t) (task_flags t) (task_priority t) target).

(** ** The abstract runqueue *)

(** The tasks in the order in which they run, each with its priority. *)
Fixpoint ready_from (qs : list (list positive)) (n : nat) : list (nat * positive) :=
  match n with
  | O => []
  | S n => ((λ t, (n, t)) <$> default [] (qs !! n)) ++ ready_from qs n
  end.

Definition ready (rq : sched_runqueue) : list (nat * positive) := ready_from (queues rq) nr_queues.

(** Behind the tasks of at least its priority. *)
Fixpoint insert_by_priority (e : nat * positive) (l : list (nat * positive)) : list (nat * positive) :=
  match l with
  | [] => [e]
  | e' :: l' => if decide (e.1 <= e'.1)%nat then e' :: insert_by_priority e l' else e :: l
  end.

(** The runqueue of a CPU: the load counts the queued tasks and the running one,
    unless that is the idle task. *)
Record rq_wf (tasks : gmap positive Task) (rq : sched_runqueue) : Prop := {
  rw_queues : length (queues rq) = nr_queues;
  rw_prio p t : (p, t) ∈ ready rq → ∃ k, tasks !! t = Some k ∧ task_priority k = Z.of_nat p ∧
    is_idle k = false ∧ t ≠ idle_task rq;
  rw_idle : ∃ k, tasks !! idle_task rq = Some k ∧ is_idle k = true ∧ task_priority k = -1;
  rw_load : rq_load rq = Z.of_nat (length (ready rq)) +
    (if decide (current_task rq = idle_task rq) then 0 else 1);
  rw_small : rq_load rq < 2 ^ 32 - 1;
}.

End sched_defs.

Section sched.
Implicit Types (qs : list (list positive)) (l : list (nat * positive)).

(** ** The queues and their abstraction *)

Lemma ready_from_lt qs n p t : (p, t) ∈ ready_from qs n → p < n.
Proof.
  induction n as [|n IH]; simpl; [set_solver|].
  rewrite elem_of_app, list_elem_of_fmap. intros [(x & [= -> ->] & _)|H]; [lia|].
  specialize (IH H). lia.
Qed.

Lemma ready_from_insert_ge qs n i q : n ≤ i → ready_from (<[i:=q]> qs) n = ready_from qs n.
Proof.
  induction n as [|n IH]; intros Hn; simpl; [done|].
  rewrite list_lookup_insert_ne by lia. rewrite IH by lia. done.
Qed.

Lemma insert_by_priority_app e l1 l2 :
  (∀ e', e' ∈ l1 → e.1 ≤ e'.1) → insert_by_priority e (l1 ++ l2) = l1 ++ insert_by_priority e l2.
Proof.
  induction l1 as [|e' l1 IH]; intros H; simpl; [done|].
  rewrite decide_True by (apply H; set_solver). rewrite IH; [done|]. set_solver.
Qed.

Lemma insert_by_priority_low e l :
  (∀ e', e' ∈ l → e'.1 < e.1) → insert_by_priority e l = e :: l.
Proof.
  destruct l as [|e' l]; intros H; simpl; [done|].
  specialize (H e' ltac:(set_solver)). rewrite decide_False by lia. done.
Qed.

(** Appending to a queue is the insertion of the abstract runqueue. *)
Lemma ready_push qs n i q t :
  i < n → qs !! i = Some q →
  ready_from (<[i:=q ++ [t]]> qs) n = insert_by_priority (i, t) (ready_from qs n).
Proof.
  induction n as [|n IH]; intros Hi Hq; [lia|]. simpl.
  destruct (decide (i = n)) as [->|Hne].
  - rewrite list_lookup_insert_eq by (by eapply lookup_lt_Some).
    rewrite ready_from_insert_ge by lia. rewrite Hq. simpl.
    rewrite insert_by_priority_app.
    2: { intros e' (x & -> & _)%list_elem_of_fmap. simpl. lia. }
    rewrite insert_by_priority_low, fmap_app, <-app_assoc; [done|].
    intros [p x] H%ready_from_lt. simpl. lia.
  - rewrite list_lookup_insert_ne by done. rewrite IH by (done || lia).
    rewrite insert_by_priority_app; [done|].
    intros e' (x & -> & _)%list_elem_of_fmap. simpl. lia.
Qed.

(** Picking takes the head of the abstract runqueue. *)
Lemma ready_pick qs n :
  match pick_from qs n with
  | Some (t, qs') => ∃ p q, ready_from qs n = (p, t) :: ready_from qs' n ∧ p < n ∧
      qs !! p = Some (t :: q) ∧ qs' = <[p:=q]> qs
  | None => ready_from qs n = []
  end.
Proof.
  induction n as [|n IH]; simpl; [done|].
  destruct (qs !! n) as [[|t q]|] eqn:Hq; simpl.
  - destruct (pick_from qs n) as [[t qs']|]; [|done].
    destruct IH as (p & q & Hr & Hp & Hqp & ->). exists p, q.
    rewrite list_lookup_insert_ne by lia. rewrite Hq. simpl. auto with lia.
  - exists n, q. rewrite list_lookup_insert_eq by (by eapply lookup_lt_Some).
    rewrite ready_from_insert_ge by lia. auto with lia.
  - destruct (pick_from qs n) as [[t qs']|]; [|done].
    destruct IH as (p & q & Hr & Hp & Hqp & ->). exists p, q.
    rewrite list_lookup_insert_ne by lia. rewrite Hq. simpl. auto with lia.
Qed.

Lemma insert_by_priority_perm e l : insert_by_priority e l ≡ₚ e :: l.
Proof.
  induction l as [|e' l IH]; simpl; [done|]. case_decide; [|done].
  rewrite IH. by apply Permutation_swap.
Qed.

Lemma enqueue_task_ready rq t i :
  length (queues rq) = nr_queues → i < nr_queues →
  ∃ rq', enqueue_task rq t (Z.of_nat i) = Some rq' ∧
    ready rq' = insert_by_priority (i, t) (ready rq) ∧
    length (queues rq') = nr_queues ∧ current_task rq' = current_task rq ∧
    idle_task rq' = idle_task rq ∧ rq_load rq' = rq_load rq.
Proof.
  intros Hl Hi. destruct (lookup_lt_is_Some_2 (queues rq) i) as [q Hq]; [lia|].
  unfold enqueue_task, queue_at. rewrite decide_True by lia. rewrite Nat2Z.id, Hq.
  eexists. split; [done|]. unfold ready, set_queue. cbn [queues with_queues current_task idle_task rq_load].
  rewrite Nat2Z.id, length_insert.
  by rewrite ready_push.
Qed.

Lemma elem_of_ready qs n p t :
  (p, t) ∈ ready_from qs n ↔ p < n ∧ ∃ q, qs !! p = Some q ∧ t ∈ q.
Proof.
  induction n as [|n IH]; simpl; [rewrite elem_of_nil; lia|].
  rewrite elem_of_app, IH, list_elem_of_fmap. split.
  - intros [(x & [= -> ->] & Hx)|(? & ?)]; [|auto with lia].
    destruct (qs !! n) as [q|]; simpl in Hx; [eauto|set_solver].
  - intros (Hp & q & Hq & Ht). destruct (decide (p = n)) as [->|]; [|right; eauto with lia].
    left. rewrite Hq. eauto.
Qed.

Lemma pick_next_ready rq :
  match ready rq with
  | [] => pick_next_task rq = (idle_task rq, rq)
  | (p, t) :: rest =>
    ∃ qs, pick_next_task rq = (t, with_queues rq qs (rq_load rq)) ∧
      ready_from qs nr_queues = rest ∧ p < nr_queues ∧ length qs = length (queues rq)
  end.
Proof.
  unfold ready, pick_next_task. pose proof (ready_pick (queues rq) nr_queues) as H.
  destruct (pick_from (queues rq) nr_queues) as [[t qs']|].
  - destruct H as (p & q & -> & Hp & Hq & ->). eexists. split_and!; [done..|].
    by rewrite length_insert.
  - by rewrite H.
Qed.

(** The time-slice timer is armed exactly when another task of the same
    priority waits. *)
Lemma context_switch_ready tasks qs rq next k p :
  tasks !! next = Some k → task_priority k = Z.of_nat p → p < nr_queues →
  length qs = nr_queues →
  ∃ timer, context_switch tasks (with_queues rq qs (rq_load rq)) next =
      Some (mkRq qs (Z.of_nat p) next (idle_task rq) (rq_load rq), timer) ∧
    (timer = true ↔ ∃ t', (p, t') ∈ ready_from qs nr_queues).
Proof.
  intros Hk Hp Hlt Hl. destruct (lookup_lt_is_Some_2 qs p) as [q Hq]; [lia|].
  unfold context_switch. rewrite Hk. cbn [mbind option_bind]. rewrite Hp.
  unfold queue_at. rewrite decide_True by lia. rewrite Nat2Z.id. cbn [queues with_queues].
  rewrite Hq. cbn [mbind option_bind]. eexists. split; [done|]. rewrite bool_decide_eq_true. split.
  - destruct q as [|x q]; [done|]. intros _. exists x. apply elem_of_ready. split; [done|].
    eexists. split; [done|set_solver].
  - intros [t' (_ & q' & Hq' & Ht)%elem_of_ready] ->. set_solver.
Qed.

(** The runqueue [schedule] picks from: the running task has been put back, or
    taken out of the load. *)
Lemma schedule_reinsert tasks rq me m :
  rq_wf tasks rq → current_task rq = me → tasks !! me = Some m →
  (is_idle m = true ↔ me = idle_task rq) →
  (is_idle m = false → 0 ≤ task_priority m ≤ 20)%Z →
  let back := task_runnable m && negb (is_idle m) in
  ∃ rq1, (if back then enqueue_task rq me (task_priority m)
          else Some (with_queues rq (queues rq)
                 (if is_idle m then rq_load rq else wrap32 (rq_load rq - 1)))) = Some rq1 ∧
    ready rq1 = (if back then insert_by_priority (Z.to_nat (task_priority m), me) (ready rq)
                 else ready rq) ∧
    length (queues rq1) = nr_queues ∧ current_task rq1 = me ∧ idle_task rq1 = idle_task rq ∧
    rq_load rq1 = Z.of_nat (length (ready rq1)).
Proof.
  intros [Hlen _ _ Hload Hs] Hcur Hm Hidle Hprio back. subst back.
  destruct (is_idle m) eqn:Ei; simpl.
  - rewrite andb_false_r. eexists. split; [done|]. split; [done|]. split_and!; try done.
    unfold ready in *. cbn [queues with_queues rq_load].
    rewrite Hload, Hcur, (proj1 Hidle eq_refl), decide_True by done. lia.
  - rewrite andb_true_r. specialize (Hprio eq_refl).
    assert (current_task rq ≠ idle_task rq) as Hne by (intros E; rewrite Hcur in E; naive_solver).
    rewrite decide_False in Hload by done. destruct (task_runnable m).
    + destruct (enqueue_task_ready rq me (Z.to_nat (task_priority m))) as (rq1 & He & Hr & Hl & Hc & Hi & Hld);
        [done|unfold nr_queues; lia|].
      rewrite Z2Nat.id in He by lia. exists rq1. split_and!; try done; [congruence|].
      rewrite Hld, Hr, Hload, (insert_by_priority_perm _ _). simpl. lia.
    + eexists. split; [done|]. split; [done|]. split_and!; try done.
      unfold ready in *. cbn [queues with_queues rq_load].
      rewrite wrap_small; unfold in_width; lia.
Qed.

(** The tasks [schedule] chooses from. *)
Definition candidates (rq : sched_runqueue) (me : positive) (m : Task) : list (nat * positive) :=
  if task_runnable m && negb (is_idle m)
  then insert_by_priority (Z.to_nat (task_priority m), me) (ready rq)
  else ready rq.

(** The running task and its runqueue. *)
Record running (tasks : gmap positive Task) (rq : sched_runqueue) (me : positive) (m : Task) : Prop := {
  ru_wf : rq_wf tasks rq;
  ru_current : current_task rq = me;
  ru_task : tasks !! me = Some m;
  ru_idle : is_idle m = true ↔ me = idle_task rq;
  ru_prio : is_idle m = false → (0 ≤ task_priority m ≤ 20)%Z;
}.

Lemma candidates_prio tasks rq me m p t :
  running tasks rq me m → (p, t) ∈ candidates rq me m →
  ∃ k, tasks !! t = Some k ∧ task_priority k = Z.of_nat p ∧ is_idle k = false ∧ t ≠ idle_task rq.
Proof.
  intros [Hwf _ Hm Hi Hp]. unfold candidates.
  destruct (task_runnable m && negb (is_idle m)) eqn:E; [|apply (rw_prio _ _ Hwf)].
  apply andb_true_iff in E as [_ E]. apply negb_true_iff in E.
  rewrite (insert_by_priority_perm _ _), elem_of_cons. intros [[= -> ->]|H]; [|by apply (rw_prio _ _ Hwf)].
  specialize (Hp E). exists m. split_and!; [done|lia|done|]. intros Heq. apply Hi in Heq. congruence.
Qed.

(** The runqueue after the choice. *)
Lemma picked_wf tasks rq me m p t rest rq' :
  running tasks rq me m → candidates rq me m = (p, t) :: rest →
  length (queues rq') = nr_queues → ready rq' = rest → current_task rq' = t →
  idle_task rq' = idle_task rq → rq_load rq' = Z.of_nat (length (candidates rq me m)) →
  rq_wf tasks rq'.
Proof.
  intros Hrun Hc Hq' Hr' Hc' Hi' Hl'. pose proof Hrun as [Hwf Hcur Hm Hi Hp].
  destruct (candidates_prio tasks rq me m p t Hrun) as (k & Hk & Hkp & _ & Hne);
    [rewrite Hc, elem_of_cons; by left|].
  destruct Hwf as [_ _ Hidle Hload Hsmall]. split.
  - done.
  - intros p' t' Ht'. rewrite Hi'. apply (candidates_prio tasks rq me m); [done|].
    rewrite Hc, <-Hr', elem_of_cons. by right.
  - by rewrite Hi'.
  - rewrite Hc', Hi', decide_False by done. rewrite Hl', Hc, Hr'. simpl. lia.
  - rewrite Hl'. unfold candidates. destruct (task_runnable m && negb (is_idle m)) eqn:E.
    + rewrite (insert_by_priority_perm _ _). simpl. rewrite decide_False in Hload; [lia|].
      apply andb_true_iff in E as [_ E]. apply negb_true_iff in E. rewrite Hcur.
      intros Heq. apply Hi in Heq. congruence.
    + case_decide; lia.
Qed.

(** Some task is runnable. *)
Lemma schedule_picks tasks rq me m p t rest :
  running tasks rq me m → candidates rq me m = (p, t) :: rest →
  ∃ rq' timer, schedule tasks rq me = Some (rq', t, timer) ∧ ready rq' = rest ∧
    current_task rq' = t ∧ rq_wf tasks rq' ∧
    (t ≠ me → timer = true ↔ ∃ t', (p, t') ∈ rest).
Proof.
  intros Hrun Hc. pose proof Hrun as [Hwf Hcur Hm Hi Hp].
  destruct (schedule_reinsert tasks rq me m Hwf Hcur Hm Hi Hp)
    as (rq1 & He & Hr & Hl & Hc1 & Hi1 & Hld).
  fold (candidates rq me m) in Hr. rewrite Hc in Hr.
  pose proof (pick_next_ready rq1) as Hpick. rewrite Hr in Hpick.
  destruct Hpick as (qs & Hpick & Hqs & Hlt & Hlq).
  destruct (candidates_prio tasks rq me m p t Hrun) as (k & Hk & Hkp & _ & Hne);
    [rewrite Hc, elem_of_cons; by left|].
  unfold schedule. rewrite Hm. cbn [mbind option_bind]. rewrite He. cbn [mbind option_bind].
  rewrite Hpick.
  pose proof (λ rq', picked_wf tasks rq me m p t rest rq' Hrun Hc) as Hwf'.
  destruct (decide (me ≠ t)) as [Hmt|Hmt].
  - destruct (context_switch_ready tasks qs rq1 t k p Hk Hkp Hlt ltac:(congruence))
      as (timer & Hcs & Htimer).
    rewrite Hcs. cbn [mbind option_bind]. eexists _, timer. split; [done|].
    split_and!; [done|done| |intros _; by rewrite <-Hqs].
    apply Hwf'; [by rewrite <-Hl|done|done|done|by rewrite Hc, <-Hr].
  - apply dec_stable in Hmt as ->. eexists _, false. split; [done|].
    split_and!; [done|done| |done]. apply Hwf'; [by rewrite <-Hl|done|done|done|by rewrite Hc, <-Hr].
Qed.

(** No task is runnable: the CPU stays idle, or has to switch to the idle task,
    whose priority is not an index of the array. *)
Lemma schedule_idles tasks rq me m :
  running tasks rq me m → candidates rq me m = [] →
  (is_idle m = false → schedule tasks rq me = None) ∧
  (is_idle m = true → schedule tasks rq me = Some (rq, me, false)).
Proof.
  intros Hrun Hc. pose proof Hrun as [Hwf Hcur Hm Hi Hp].
  destruct (schedule_reinsert tasks rq me m Hwf Hcur Hm Hi Hp)
    as (rq1 & He & Hr & Hl & Hc1 & Hi1 & Hld).
  fold (candidates rq me m) in Hr. rewrite Hc in Hr.
  pose proof (pick_next_ready rq1) as Hpick. rewrite Hr in Hpick.
  unfold schedule. rewrite Hm. cbn [mbind option_bind]. rewrite He. cbn [mbind option_bind].
  rewrite Hpick, Hi1. split; intros Hidle.
  - rewrite decide_True by (intros Heq; apply Hi in Heq; congruence).
    destruct (rw_idle _ _ Hwf) as (k & Hk & _ & Hkp). unfold context_switch.
    rewrite Hk. cbn [mbind option_bind]. unfold queue_at. by rewrite Hkp.
  - rewrite Hidle, andb_false_r in He. simpl in He. injection He as <-.
    rewrite (proj1 Hi Hidle). rewrite decide_False by (by intros []). by destruct rq.
Qed.

(** C7. Scheduling is a stable priority queue.  The runnable task that calls
    [schedule] goes behind the waiting tasks of its priority.  If any task is
    runnable, the task chosen is the one that has waited longest among those of
    the highest priority, the others keep their order, the load stays the number
    of runnable tasks, and if the task is another one the time-slice timer is
    armed exactly when a further task of that priority waits.  If none is
    runnable, an idle CPU stays idle and nothing changes; and where the last task
    of a CPU blocks, the behaviour is undefined, as [context_switch] indexes the
    array of queues with the idle task's priority, -1. *)
Theorem schedule_correct tasks rq me m :
  running tasks rq me m →
  match candidates rq me m with
  | (p, t) :: rest =>
    ∃ rq' timer, schedule tasks rq me = Some (rq', t, timer) ∧ ready rq' = rest ∧
      current_task rq' = t ∧ rq_wf tasks rq' ∧
      (t ≠ me → timer = true ↔ ∃ t', (p, t') ∈ rest)
  | [] => schedule tasks rq me = if is_idle m then Some (rq, me, false) else None
  end.
Proof.
  intros Hrun. destruct (candidates rq me m) as [|[p t] rest] eqn:Hc.
  - destruct (schedule_idles tasks rq me m Hrun Hc). destruct (is_idle m); auto.
  - by apply (schedule_picks tasks rq me m).
Qed.

(** Making a task runnable.  It goes behind the waiting tasks of its
    priority, the load grows by one, and the target CPU is told to reschedule
    when the task outranks the running one; when it has the same priority and is
    the first to wait there, the time slice is started (on the CPU itself by its
    timer, from another CPU by an interrupt); otherwise nothing is needed. *)
Theorem enqueue_on_correct tasks rq remote t p :
  rq_wf tasks rq → p < nr_queues →
  ∃ rq' k, enqueue_on remote rq t (Z.of_nat p) = Some (rq', k) ∧
    ready rq' = insert_by_priority (p, t) (ready rq) ∧
    rq_load rq' = (rq_load rq + 1)%Z ∧ current_task rq' = current_task rq ∧
    (k = KNone ↔ (Z.of_nat p < current_priority rq)%Z ∨
       Z.of_nat p = current_priority rq ∧ ∃ t', (p, t') ∈ ready rq) ∧
    (k = KTimer → remote = false ∧ Z.of_nat p = current_priority rq).
Proof.
  intros [Hl _ _ Hload Hsmall] Hp. destruct (lookup_lt_is_Some_2 (queues rq) p) as [q Hq]; [lia|].
  assert (0 ≤ rq_load rq)%Z by (rewrite Hload; case_decide; lia).
  assert ((∃ t', (p, t') ∈ ready rq) ↔ q ≠ []) as Hne.
  { unfold ready. setoid_rewrite elem_of_ready. split.
    - intros (t' & _ & q' & Hq' & Ht') ->. simplify_eq. set_solver.
    - destruct q as [|x q]; [done|]. intros _. exists x. split; [done|].
      eexists. split; [done|]. set_solver. }
  unfold enqueue_on, queue_at, MIN_TASK_PRIORITY. rewrite Z.sub_0_r, decide_True by lia.
  rewrite Nat2Z.id, Hq. cbn [mbind option_bind]. do 2 eexists. split; [done|].
  unfold ready, set_queue. cbn [queues with_queues current_task rq_load].
  rewrite Nat2Z.id, ready_push by done. fold (ready rq). rewrite Hne.
  rewrite wrap_small by (unfold in_width; lia).
  pose proof (bool_decide_eq_true (q = [])) as Hb.
  split_and!; [done|done|done| |].
  - destruct (decide (Z.of_nat p > current_priority rq)%Z) as [Hgt|Hle]; [split; [done|lia]|].
    destruct (decide (Z.of_nat p = current_priority rq ∧ bool_decide (q = []) = true)) as [Hd|Hd].
    + destruct Hd as [Hcp He%Hb]. destruct remote; (split; [done|]); intros [?|[_ ?]]; (lia || congruence).
    + split; [intros _|done]. destruct (decide (Z.of_nat p = current_priority rq)) as [He|];
        [right; split; [done|]; intros Hq0; apply Hd; split; [done|by apply Hb]|left; lia].
  - destruct (decide (Z.of_nat p > current_priority rq)%Z) as [Hgt|Hle]; [done|].
    destruct (decide (Z.of_nat p = current_priority rq ∧ bool_decide (q = []) = true)) as [[He _]|];
      [by destruct remote|done].
Qed.

Lemma least_loaded_spec load cpus : ∀ c b,
  let r := least_loaded load cpus c b in
  (r = c ∧ ∀ x, x ∈ cpus → (b ≤ load x)%Z) ∨
  (r ∈ cpus ∧ (load r < b)%Z ∧ ∀ x, x ∈ cpus → (load r ≤ load x)%Z).
Proof.
  induction cpus as [|y cpus IH]; intros c b; simpl; [left; split; [done|set_solver]|].
  case_decide as Hy.
  - right. destruct (IH y (load y)) as [[-> Hx]|(Hin & Hlt & Hx)];
      (split_and!; [set_solver|lia|]); intros x [->|Hin']%elem_of_cons; auto; lia.
  - destruct (IH c b) as [[-> Hx]|(Hin & Hlt & Hx)].
    + left. split; [done|]. intros x [->|Hin']%elem_of_cons; auto; lia.
    + right. split_and!; [set_solver|done|]. intros x [->|Hin']%elem_of_cons; auto; lia.
Qed.

(** Where a woken task goes.  A task that must not migrate goes to the CPU it
    last ran on; any other goes to an online CPU no online CPU has a smaller
    load than, and remembers it. *)
Theorem wake_target_correct load online t :
  (∃ c, c ∈ online ∧ (load c < 2 ^ 32 - 1)%Z) →
  (Z.land (task_flags t) TF_NOMIGRATE ≠ 0%Z → wake_target load online t = (task_last_cpu t, t)) ∧
  (Z.land (task_flags t) TF_NOMIGRATE = 0%Z →
   ∃ cpu, cpu ∈ online ∧ (∀ c, c ∈ online → (load cpu ≤ load c)%Z) ∧
     wake_target load online t =
       (cpu, mkTask (task_runnable t) (task_flags t) (task_priority t) cpu)).
Proof.
  intros (c & Hc & Hlt). unfold wake_target. split; intros Hf.
  - apply Z.eqb_neq in Hf. by rewrite Hf.
  - rewrite Hf. simpl. unfold find_least_loaded_cpu.
    destruct (least_loaded_spec load online 0 (2 ^ 32 - 1)) as [[_ Hx]|(Hin & _ & Hx)].
    + specialize (Hx c Hc). lia.
    + eauto.
Qed.

End sched.

(** ** A runqueue with two waiting tasks *)

Section example.
Local Open Scope Z_scope.

(** The idle task 1, and tasks 2 and 3 of priority 10, 2 running; 4 has
    priority 12. *)
Definition ex_tasks : gmap positive Task :=
  {[ 1%positive := mkTask true 3 (-1) 0; 2%positive := mkTask true 0 10 0;
     3%positive := mkTask true 0 10 0; 4%positive := mkTask true 0 12 0 ]}.

Definition ex_rq : sched_runqueue :=
  mkRq (<[10%nat:=[3%positive]]> (replicate nr_queues [])) 10 2 1 2.

Definition ex_alone : sched_runqueue := mkRq (replicate nr_queues []) 10 2 1 1.

Lemma ex_rq_running : running ex_tasks ex_rq 2 (mkTask true 0 10 0).
Proof.
  split; try done.
  split; try done.
  - intros p t H. vm_compute in H. apply list_elem_of_singleton in H as [= -> ->].
    eexists. split_and!; [done|done|done|done].
  - eexists. split_and!; done.
Qed.

Lemma schedule_correct_witness :
  ∃ rq' timer, schedule ex_tasks ex_rq 2 = Some (rq', 3%positive, timer) ∧ ready rq' = [(10%nat, 2%positive)].
Proof.
  destruct (schedule_correct ex_tasks ex_rq 2 (mkTask true 0 10 0) ex_rq_running)
    as (rq' & timer & H & Hr & _).
  by exists rq', timer.
Defined.

(** Task 2 blocks, and no other task is runnable. *)
Definition ex_blocking : gmap positive Task := <[2%positive := mkTask false 0 10 0]> ex_tasks.

Example ex_last_task_blocks : schedule ex_blocking ex_alone 2 = None.
Proof. done. Qed.

Lemma enqueue_on_correct_witness :
  ∃ rq' k, enqueue_on true ex_rq 4 12 = Some (rq', k) ∧
    ready rq' = [(12%nat, 4%positive); (10%nat, 3%positive)].
Proof.
  destruct (enqueue_on_correct ex_tasks ex_rq true 4 12) as (rq' & k & H & Hr & _);
    [apply ex_rq_running|unfold nr_queues; lia|].
  by exists rq', k.
Defined.

Lemma wake_target_correct_witness :
  ∃ cpu, cpu ∈ [0; 1] ∧ ∀ c, c ∈ [0; 1] → 7 - cpu <= 7 - c.
Proof.
  destruct (wake_target_correct (λ c, 7 - c) [0; 1] (mkTask true 0 10 0)) as [_ H].
  - exists 1. split; [set_solver|lia].
  - destruct (H eq_refl) as (cpu & Hin & Hmin & _). by exists cpu.
Defined.

End example.
