(* ===== verification/Slab.v ===== *)
(** * The slab allocator ([mm/slab.cc], [include/davix/slab.h])

    Fixed-size objects carved out of pages.  A page's free objects form a chain
    through their first words ([page->slab.pobj]); pages with some free objects
    are on [page_partial], pages with only free objects on [page_full], pages
    with none on no list.  The lists are the sequences of their pages (see
    [LinkedList]); [words] is the memory, by the address of each 8-byte word.

    The page allocator is used through the interface [PageSource], which
    [PageAlloc] implements. *)

From S2P Require Import Prelude Align LinkedList PageAlloc.

(** ** What the slab allocator needs of the page allocator *)

Class PageSource (S : Type) := {
  ps_ok : S → Prop;
  ps_page : loc → Prop;                (* the page frames there are *)
  ps_free : S → loc → Prop;            (* the page is in the allocator *)
  ps_alloc : S → Z → option (option loc * S);
  ps_release : S → loc → option S;
  ps_flags : S → loc → Z;              (* [page->flags] *)
  ps_set_flags : S → loc → Z → S;
  ps_alloc_ok s c : ps_ok s →
    ps_alloc s c = Some (None, s) ∨
    ∃ p s', ps_alloc s c = Some (Some p, s') ∧ ps_ok s' ∧ ps_page p ∧ ps_free s p ∧
      (∀ q, ps_free s' q ↔ ps_free s q ∧ q ≠ p) ∧ ∀ q, ps_flags s' q = ps_flags s q;
  ps_release_ok s p : ps_ok s → ps_page p → ¬ ps_free s p →
    ∃ s', ps_release s p = Some s' ∧ ps_ok s' ∧ (∀ q, ps_free s' q ↔ ps_free s q ∨ q = p) ∧
      ∀ q, q ≠ p → ps_flags s' q = ps_flags s q;
  ps_set_flags_ok s p v : ps_ok s → ps_page p → ¬ ps_free s p →
    ps_ok (ps_set_flags s p v) ∧ (∀ q, ps_free (ps_set_flags s p v) q ↔ ps_free s q) ∧
    ∀ q, ps_flags (ps_set_flags s p v) q = if decide (q = p) then v else ps_flags s q;
}.

Definition PAGE_SLAB : Z := 1.

Section slab_defs.
Local Open Scope Z_scope.
Context (page_map HHDM_OFFSET : Z).
Context {S : Type} `{!PageSource S}.

Record SlabAllocator := mkSlab {
  nr_full : Z;
  nr_partial : Z;
  page_full : list loc;
  page_partial : list loc;
  nr_empty : Z;
  nfree : Z;
  inp_obj_size : Z;
  inp_obj_align : Z;
  real_obj_size : Z;
  objs_per_page : Z;
}.

(** The [slab] member of [struct Page]; the flags are part of the page
    allocator's state. *)
Record slab_page := mkSlabPage { sp_nfree : Z; sp_pobj : Z; sp_allocator : loc }.

Record heap := mkHeap {
  hp_source : S;
  hp_pages : gmap loc slab_page;
  hp_words : Z → Z;
  hp_slabs : gmap loc SlabAllocator;
}.

Definition ptr_is_slab (h : heap) (ptr : Z) : bool :=
  bool_decide (Z.land (ps_flags (hp_source h) (virt_to_page page_map HHDM_OFFSET ptr)) PAGE_SLAB
               = PAGE_SLAB).

Definition set_word (w : Z → Z) (a v : Z) : Z → Z := λ x, if decide (x = a) then v else w x.

(** [memset (ptr, 0, n)]: the words that begin in the object. *)
Definition zero_words (w : Z → Z) (ptr n : Z) : Z → Z :=
  λ x, if decide (ptr <= x < ptr + n) then 0 else w x.

(** The static function [wrap]. *)
Definition wrap_object (h : heap) (A : SlabAllocator) (aclass ptr : Z) : heap :=
  if decide (Z.land aclass ALLOC_ZERO ≠ 0) then
    mkHeap (hp_source h) (hp_pages h) (zero_words (hp_words h) ptr (inp_obj_size A)) (hp_slabs h)
  else h.

(** The page to take an object from, and the allocator without it on its list;
    popping an empty list is undefined. *)
Definition take_page (A : SlabAllocator) : option (option loc * SlabAllocator) :=
  if decide (nr_partial A ≠ 0) then
    match page_partial A with
    | p :: l => Some (Some p, mkSlab (nr_full A) (nr_partial A -ᵤ 1) (page_full A) l (nr_empty A) (nfree A)
                   (inp_obj_size A) (inp_obj_align A) (real_obj_size A) (objs_per_page A))
    | [] => None
    end
  else if decide (nr_full A ≠ 0) then
    match page_full A with
    | p :: l => Some (Some p, mkSlab (nr_full A -ᵤ 1) (nr_partial A) l (page_partial A) (nr_empty A) (nfree A)
                   (inp_obj_size A) (inp_obj_align A) (real_obj_size A) (objs_per_page A))
    | [] => None
    end
  else Some (None, A).

(** [nr_partial++; page_partial.push_front (page)] with the free count
    [nf]. *)
Definition push_partial (A : SlabAllocator) (p : loc) (nf : Z) : SlabAllocator :=
  mkSlab (nr_full A) (nr_partial A +ᵤ 1) (page_full A) (p :: page_partial A) (nr_empty A) nf
    (inp_obj_size A) (inp_obj_align A) (real_obj_size A) (objs_per_page A).

Definition with_empty (A : SlabAllocator) (ne nf : Z) : SlabAllocator :=
  mkSlab (nr_full A) (nr_partial A) (page_full A) (page_partial A) ne nf
    (inp_obj_size A) (inp_obj_align A) (real_obj_size A) (objs_per_page A).

(** [head]: [&page->slab.pobj] or an object. *)
Inductive link := InPage | InObj (a : Z).

Definition store_link (hd : link) (v : Z) (st : Z * (Z → Z)) : Z * (Z → Z) :=
  match hd with InPage => (v, st.2) | InObj a => (st.1, set_word st.2 a v) end.

(** The loop that chains the objects from number [i] on; [k] are left. *)
Fixpoint chain_objects (k : nat) (i size addr : Z) (hd : link) (st : Z * (Z → Z)) : Z * (Z → Z) :=
  match k with
  | O => store_link hd 0 st
  | Datatypes.S k =>
    let obj := addr +ᵤ i *ᵤ size in
    chain_objects k (i + 1) size addr (InObj obj) (store_link hd obj st)
  end.

Definition slab_alloc (h : heap) (a : loc) (aclass : Z) : option (option Z * heap) :=
  let aclass := Z.lor ALLOC_KERNEL (Z.land aclass (Z.lor ALLOC_HIGHPRIO ALLOC_ZERO)) in
  A ← hp_slabs h !! a;
  '(taken, A) ← take_page A;
  match taken with
  | Some page =>
    sp ← hp_pages h !! page;
    let obj := sp_pobj sp in
    if decide (obj = 0) then None else
    let sp := mkSlabPage (wrap32 (sp_nfree sp - 1)) (hp_words h obj) (sp_allocator sp) in
    let A := if decide (sp_nfree sp = 0) then with_empty A (nr_empty A +ᵤ 1) (nfree A -ᵤ 1)
             else push_partial A page (nfree A -ᵤ 1) in
    let h := mkHeap (hp_source h) (<[page := sp]> (hp_pages h)) (hp_words h) (<[a := A]> (hp_slabs h)) in
    Some (Some obj, wrap_object h A aclass obj)
  | None =>
    '(page, src) ← ps_alloc (hp_source h) aclass;
    match page with
    | None => Some (None, mkHeap src (hp_pages h) (hp_words h) (hp_slabs h))
    | Some page =>
      let src := ps_set_flags src page PAGE_SLAB in
      let addr := page_to_virt page_map HHDM_OFFSET page in
      let words := if decide (Z.land aclass ALLOC_ZERO ≠ 0)
                   then zero_words (hp_words h) addr PAGE_SIZE else hp_words h in
      let '(pobj, words) :=
        chain_objects (Z.to_nat (objs_per_page A - 1)) 1 (real_obj_size A) addr InPage (0, words) in
      let sp := mkSlabPage (wrap32 (objs_per_page A - 1)) pobj a in
      let A := push_partial A page (nfree A +ᵤ (objs_per_page A -ᵤ 1)) in
      let h := mkHeap src (<[page := sp]> (hp_pages h)) words (<[a := A]> (hp_slabs h)) in
      Some (Some addr, wrap_object h A aclass addr)
    end
  end.

(** [page->node.remove ()]: off whichever list the page is on. *)
Definition unlink_page (A : SlabAllocator) (p : loc) (np nf : Z) : SlabAllocator :=
  mkSlab (nr_full A) np (filter (λ q, q ≠ p) (page_full A)) (filter (λ q, q ≠ p) (page_partial A))
    (nr_empty A) nf (inp_obj_size A) (inp_obj_align A) (real_obj_size A) (objs_per_page A).

Definition push_full (A : SlabAllocator) (p : loc) : SlabAllocator :=
  mkSlab (nr_full A +ᵤ 1) (nr_partial A) (p :: page_full A) (page_partial A) (nr_empty A) (nfree A)
    (inp_obj_size A) (inp_obj_align A) (real_obj_size A) (objs_per_page A).

Definition slab_free (h : heap) (ptr : Z) : option heap :=
  let page := virt_to_page page_map HHDM_OFFSET ptr in
  sp ← hp_pages h !! page;
  let a := sp_allocator sp in
  A ← hp_slabs h !! a;
  let nf := nfree A +ᵤ 1 in
  let words := set_word (hp_words h) ptr (sp_pobj sp) in
  let sp := mkSlabPage (wrap32 (sp_nfree sp + 1)) ptr a in
  let pages := <[page := sp]> (hp_pages h) in
  if decide (sp_nfree sp = 1) then
    let A := push_partial (with_empty A (nr_empty A -ᵤ 1) (nfree A)) page nf in
    Some (mkHeap (hp_source h) pages words (<[a := A]> (hp_slabs h)))
  else if decide (sp_nfree sp ≠ objs_per_page A) then
    Some (mkHeap (hp_source h) pages words (<[a := with_empty A (nr_empty A) nf]> (hp_slabs h)))
  else
    let A := unlink_page A page (nr_partial A -ᵤ 1) nf in
    if decide (nr_full A < 1) then
      Some (mkHeap (hp_source h) pages words (<[a := push_full A page]> (hp_slabs h)))
    else
      let A := with_empty A (nr_empty A) (nfree A -ᵤ objs_per_page A) in
      src ← ps_release (hp_source h) page;
      Some (mkHeap src pages words (<[a := A]> (hp_slabs h))).

(** ** Creating allocators *)

Definition init_new_allocator (inp_size inp_align real_size : Z) : SlabAllocator :=
  mkSlab 0 0 [] [] 0 0 inp_size inp_align real_size (PAGE_SIZE / real_size).

(** [slab_allocator] is the allocator of the allocators, [globals] the list
    [globalSlabList]; the name of an allocator is left out. *)
Definition slab_create (h : heap) (globals : list loc) (slab_allocator : loc) (size align : Z)
    : option (option loc * heap * list loc) :=
  if decide (Z.land align (align -ᵤ 1) ≠ 0) then Some (None, h, globals)
  else if decide (size > PAGE_SIZE / 2 ∨ align > PAGE_SIZE / 2) then Some (None, h, globals)
  else if decide (size = 0) then Some (None, h, globals)
  else
    let align := if decide (8 > align) then 8 else align in
    let realsize := align_up size align in
    '(obj, h) ← slab_alloc h slab_allocator ALLOC_KERNEL;
    match obj with
    | None => Some (None, h, globals)
    | Some obj =>
      let a := Z.to_pos obj in
      let h := mkHeap (hp_source h) (hp_pages h) (hp_words h)
                 (<[a := init_new_allocator size align realsize]> (hp_slabs h)) in
      Some (Some a, h, globals ++ [a])
    end.

Definition kmalloc_sizes : list Z := [8; 16; 32; 64; 128; 256; 512; 1024; 2048].

(** The index of the size class. *)
Fixpoint size_class (i : nat) (sizes : list Z) (size : Z) : option nat :=
  match sizes with
  | [] => None
  | s :: sizes => if decide (s >= size) then Some i else size_class (Datatypes.S i) sizes size
  end.

Definition kmalloc (h : heap) (kmalloc_slabs : nat → loc) (size aclass : Z)
    : option (option Z * heap) :=
  match size_class 0 kmalloc_sizes size with
  | Some i => slab_alloc h (kmalloc_slabs i) aclass
  | None => Some (None, h)
  end.

Definition kfree (h : heap) (ptr : Z) : option heap :=
  if decide (ptr = 0) then Some h else slab_free h ptr.

(** The loop of [kmalloc_init] over the sizes; [None] in the result is the
    panic. *)
Fixpoint create_slabs (h : heap) (globals : list loc) (slab_allocator : loc) (sizes : list Z)
    : option (option (list loc) * heap * list loc) :=
  match sizes with
  | [] => Some (Some [], h, globals)
  | size :: sizes =>
    '(a, h, globals) ← slab_create h globals slab_allocator size size;
    match a with
    | None => Some (None, h, globals)
    | Some a =>
      '(l, h, globals) ← create_slabs h globals slab_allocator sizes;
      Some (option_map (cons a) l, h, globals)
    end
  end.

(** [sizeof (SlabAllocator)]: the lock, the fields and the name. *)
Definition sizeof_SlabAllocator : Z := 8 + 2 * 8 + 2 * 16 + 6 * 8 + 16 + 32.

Definition kmalloc_init (h : heap) (globals : list loc) (slab_allocator : loc)
    : option (option (list loc) * heap * list loc) :=
  let A := init_new_allocator sizeof_SlabAllocator 8 (align_up sizeof_SlabAllocator 64) in
  let h := mkHeap (hp_source h) (hp_pages h) (hp_words h) (<[slab_allocator := A]> (hp_slabs h)) in
  create_slabs h globals slab_allocator kmalloc_sizes.

End slab_defs.
