(* ===== verification/SlabOps.v ===== *)
(** * The slab allocator: invariant and operations

    The allocator's invariant, its preservation by [slab_alloc] and
    [slab_free], and what each does to the objects handed out; proved against
    the interface [PageSource], for every page allocator that implements it. *)

From S2P Require Import Prelude Align LinkedList PageAlloc Slab.

Section slab.
Local Open Scope Z_scope.
Context (page_map HHDM_OFFSET : Z).
Context {S : Type} `{!PageSource S}.

Abbreviation page_addr := (page_to_virt page_map HHDM_OFFSET).
Abbreviation addr_page := (virt_to_page page_map HHDM_OFFSET).

(** ** Page frames and slots *)

(** A page frame whose addresses do not wrap. *)
Definition frame_ok (p : loc) : Prop :=
  ∃ pfn, 0 <= pfn ∧ p = pfn_to_page page_map pfn ∧ 0 < page_map + 64 * pfn ∧
    0 < HHDM_OFFSET ∧ HHDM_OFFSET + (pfn + 1) * PAGE_SIZE <= 2 ^ 64.

Lemma page_addr_pfn pfn :
  0 <= pfn → 0 < page_map + 64 * pfn → 0 < HHDM_OFFSET → HHDM_OFFSET + (pfn + 1) * PAGE_SIZE <= 2 ^ 64 →
  page_addr (pfn_to_page page_map pfn) = HHDM_OFFSET + pfn * PAGE_SIZE.
Proof.
  intros H0 Hm HH Hle. unfold PageAlloc.page_to_virt, page_to_phys, page_to_pfn, pfn_to_page.
  rewrite Z2Pos.id by lia.
  replace (page_map + 64 * pfn - page_map) with (pfn * 64) by lia. rewrite Z.div_mul by done.
  unfold pfn_to_phys, phys_to_virt, PAGE_SIZE in *. word_lia.
Qed.

(** The page of every address in the page is the page. *)
Lemma addr_page_addr p off :
  frame_ok p → 0 <= off < PAGE_SIZE → addr_page (page_addr p + off) = p.
Proof.
  intros (pfn & H0 & -> & Hm & HH & Hle) Hoff. rewrite page_addr_pfn by done.
  unfold PageAlloc.virt_to_page, phys_to_page, virt_to_phys, phys_to_pfn. f_equal.
  unfold PAGE_SIZE in *. word_lia.
Qed.

Lemma page_addr_range p : frame_ok p → 0 < page_addr p ∧ page_addr p + PAGE_SIZE <= 2 ^ 64.
Proof.
  intros (pfn & H0 & -> & Hm & HH & Hle). rewrite page_addr_pfn by done. unfold PAGE_SIZE in *. lia.
Qed.

(** The geometry [slab_create] establishes. *)
Record geometry (A : SlabAllocator) : Prop := {
  ge_objs : 2 <= objs_per_page A;
  ge_size : 8 <= real_obj_size A;
  ge_inp : inp_obj_size A <= real_obj_size A;
  ge_fit : objs_per_page A * real_obj_size A <= PAGE_SIZE;
}.

Definition is_slot (A : SlabAllocator) (p : loc) (x : Z) : Prop :=
  ∃ i, 0 <= i < objs_per_page A ∧ x = page_addr p + i * real_obj_size A.

Lemma slot_page A p x w :
  geometry A → frame_ok p → is_slot A p x → x <= w < x + real_obj_size A → addr_page w = p.
Proof.
  intros [H1 H2 H3 H4] Hf (i & Hi & ->) Hw.
  replace w with (page_addr p + (w - page_addr p)) by lia.
  apply addr_page_addr; [done|]. nia.
Qed.

Lemma slot_nonnull A p x : geometry A → frame_ok p → is_slot A p x → 0 < x < 2 ^ 64.
Proof.
  intros [H1 H2 H3 H4] Hf (i & Hi & ->). pose proof (page_addr_range p Hf). nia.
Qed.

Lemma slot_unique A p q x :
  geometry A → frame_ok p → frame_ok q → is_slot A p x → is_slot A q x → p = q.
Proof.
  intros Hg Hp Hq Hx Hx'. transitivity (addr_page x); [symmetry|];
    apply (slot_page A _ x x); try done; destruct Hg; lia.
Qed.

(** Different objects do not overlap. *)
Lemma slot_disjoint A p q x y w :
  geometry A → frame_ok p → frame_ok q → is_slot A p x → is_slot A q y → x ≠ y →
  x <= w < x + real_obj_size A → ¬ y <= w < y + real_obj_size A.
Proof.
  intros Hg Hp Hq Hx Hy Hne Hw Hw'.
  pose proof (slot_page A p x w Hg Hp Hx Hw) as E1.
  pose proof (slot_page A q y w Hg Hq Hy Hw') as E2. assert (q = p) as -> by congruence.
  destruct Hx as (i & Hi & ->), Hy as (j & Hj & ->).
  assert (i ≠ j) by (intros ->; done). nia.
Qed.

(** ** Free chains *)

Fixpoint chain_of (w : Z → Z) (x : Z) (l : list Z) : Prop :=
  match l with
  | [] => x = 0
  | y :: l => x = y ∧ y ≠ 0 ∧ chain_of w (w y) l
  end.

Lemma chain_of_ext w w' x l :
  (∀ y, y ∈ l → w' y = w y) → chain_of w x l → chain_of w' x l.
Proof.
  revert x. induction l as [|y l IH]; intros x Hw; simpl; [done|].
  intros (-> & Hy & Hc). split_and!; [done..|]. rewrite Hw by set_solver.
  apply IH; [|done]. set_solver.
Qed.

(** The chain the loop over a new page builds. *)
Lemma chain_objects_spec size addr : ∀ (k : nat) (i : Z) (hd : link) pobj w,
  0 <= i → 8 <= size → 0 < addr → addr + (i + Z.of_nat k) * size <= 2 ^ 64 →
  (match hd with InPage => True | InObj a => a < addr + i * size end) →
  let objs := (λ j, addr + j * size) <$> seqZ i (Z.of_nat k) in
  let '(pobj', w') := chain_objects k i size addr hd (pobj, w) in
  match hd with
  | InPage => chain_of w' pobj' objs
  | InObj a => pobj' = pobj ∧ chain_of w' (w' a) objs
  end ∧
  (∀ x, x < addr + i * size ∨ addr + (i + Z.of_nat k) * size <= x →
     (match hd with InPage => True | InObj a => x ≠ a end) → w' x = w x).
Proof.
  induction k as [|k IH]; intros i hd pobj w Hi Hs Ha Hle Hhd objs.
  { subst objs. rewrite seqZ_nil by lia. simpl. destruct hd as [|a]; simpl; [done|].
    unfold set_word. rewrite decide_True by done. split; [done|].
    intros x _ Hx. by rewrite decide_False. }
  subst objs. rewrite seqZ_cons by lia. cbn [fmap list_fmap chain_objects].
  replace (Z.pred (Z.of_nat (Datatypes.S k))) with (Z.of_nat k) by lia.
  replace (Z.succ i) with (i + 1) by lia.
  assert (addr +ᵤ i *ᵤ size = addr + i * size) as ->.
  { unfold mul64. rewrite wrap_small by (unfold in_width; nia). apply add64_small. nia. }
  set (obj := addr + i * size) in *.
  assert (obj ≠ 0) as Hne by (unfold obj; nia).
  specialize (IH (i + 1) (InObj obj) (store_link hd obj (pobj, w)).1 (store_link hd obj (pobj, w)).2
    ltac:(lia) Hs Ha ltac:(lia) ltac:(unfold obj; lia)).
  rewrite <-surjective_pairing in IH.
  destruct (chain_objects k (i + 1) size addr (InObj obj) _) as [pobj' w'].
  destruct IH as [[Hp Hc] Hfr].
  assert (∀ x, x < obj ∨ addr + (i + Z.of_nat (Datatypes.S k)) * size <= x →
            w' x = (store_link hd obj (pobj, w)).2 x) as Hfr'.
  { intros x Hx. apply Hfr; [|unfold obj in *; nia]. unfold obj in *; nia. }
  destruct hd as [|a]; simpl in *.
  - split; [by subst|]. auto.
  - rewrite (Hfr' a) by auto. unfold set_word at 1. rewrite decide_True by done.
    split; [done|]. intros x Hx Hxa. rewrite Hfr' by done. unfold set_word. by rewrite decide_False.
Qed.

(** ** Counting over the pages *)

Definition sumG (f : list Z → Z) (G : gmap loc (list Z)) : Z := map_fold (λ _ l n, f l + n) 0 G.

Lemma sumG_insert f G p l : G !! p = None → sumG f (<[p := l]> G) = f l + sumG f G.
Proof. intros Hp. unfold sumG. rewrite map_fold_insert_L; [done|intros; lia|done]. Qed.

Lemma sumG_delete f G p l : G !! p = Some l → sumG f G = f l + sumG f (delete p G).
Proof.
  intros Hp. rewrite <-(insert_delete_id G p l Hp) at 1. apply sumG_insert. apply lookup_delete_eq.
Qed.

Lemma sumG_update f G p l l' :
  G !! p = Some l → sumG f (<[p := l']> G) = sumG f G - f l + f l'.
Proof.
  intros Hp. rewrite (sumG_delete f G p l Hp).
  rewrite <-(insert_delete_eq G p l'). rewrite sumG_insert by apply lookup_delete_eq. lia.
Qed.

Lemma sumG_bound f G c : 0 <= c → (∀ p l, G !! p = Some l → 0 <= f l <= c) → 0 <= sumG f G <= c * Z.of_nat (size G).
Proof.
  intros Hc. induction G as [|p l G Hp IH] using map_ind; intros Hf.
  - unfold sumG. rewrite map_fold_empty, map_size_empty. lia.
  - rewrite sumG_insert, map_size_insert_None by done.
    specialize (Hf p l (lookup_insert_eq _ _ _)) as Hl.
    assert (0 <= sumG f G <= c * Z.of_nat (size G)); [|lia].
    apply IH. intros q l' Hq. apply (Hf q). rewrite lookup_insert_ne; [done|congruence].
Qed.

Definition is_empty (l : list Z) : Z := if decide (l = []) then 1 else 0.
Definition zlen (l : list Z) : Z := Z.of_nat (length l).

(** ** The invariant

    [G] gives the pages of the allocator, each with its free objects in the
    order of the chain. *)

Record lists_inv (A : SlabAllocator) (G : gmap loc (list Z)) : Prop := {
  li_partial p : p ∈ page_partial A ↔ ∃ l, G !! p = Some l ∧ 0 < zlen l < objs_per_page A;
  li_full p : p ∈ page_full A ↔ ∃ l, G !! p = Some l ∧ zlen l = objs_per_page A;
  li_nodup_partial : NoDup (page_partial A);
  li_nodup_full : NoDup (page_full A);
  li_nr_partial : nr_partial A = Z.of_nat (length (page_partial A));
  li_nr_full : nr_full A = Z.of_nat (length (page_full A));
  li_nr_empty : nr_empty A = sumG is_empty G;
  li_nfree : nfree A = sumG zlen G;
}.

Record page_inv (h : heap) (A : SlabAllocator) (a : loc) (p : loc) (l : list Z) : Prop := {
  pi_page : ∃ pobj, hp_pages h !! p = Some (mkSlabPage (zlen l) pobj a) ∧ chain_of (hp_words h) pobj l;
  pi_nodup : NoDup l;
  pi_slots x : x ∈ l → is_slot A p x;
  pi_frame : frame_ok p;
  pi_owned : ps_page p ∧ ¬ ps_free (hp_source h) p;
  pi_flags : ps_flags (hp_source h) p = PAGE_SLAB;
}.

Record slab_inv (h : heap) (a : loc) (A : SlabAllocator) (G : gmap loc (list Z)) : Prop := {
  sv_alloc : hp_slabs h !! a = Some A;
  sv_geometry : geometry A;
  sv_source : ps_ok (hp_source h);
  sv_frames p : ps_page p → frame_ok p;
  sv_pages p l : G !! p = Some l → page_inv h A a p l;
  sv_lists : lists_inv A G;
}.

(** The objects that are handed out. *)
Definition allocated (A : SlabAllocator) (G : gmap loc (list Z)) (x : Z) : Prop :=
  ∃ p l, G !! p = Some l ∧ is_slot A p x ∧ x ∉ l.

Definition same_geometry (A A' : SlabAllocator) : Prop :=
  inp_obj_size A' = inp_obj_size A ∧ real_obj_size A' = real_obj_size A ∧
  objs_per_page A' = objs_per_page A.

Lemma is_slot_geometry A A' p x : same_geometry A A' → is_slot A p x → is_slot A' p x.
Proof. intros (_ & Hr & Ho) (i & Hi & ->). exists i. by rewrite Hr, Ho. Qed.

Lemma geometry_same A A' : same_geometry A A' → geometry A → geometry A'.
Proof. intros (H1 & H2 & H3) []. split; rewrite ?H1, ?H2, ?H3; done. Qed.

(** No more free objects than slots; if as many, all slots are free. *)
Lemma slots_bound A p l :
  geometry A → NoDup l → (∀ x, x ∈ l → is_slot A p x) →
  zlen l <= objs_per_page A ∧ (zlen l = objs_per_page A → ∀ x, is_slot A p x → x ∈ l).
Proof.
  intros [H1 H2 H3 H4] Hnd Hl.
  set (slots := (λ i, page_addr p + i * real_obj_size A) <$> seqZ 0 (objs_per_page A)).
  assert (l ⊆+ slots) as Hsub.
  { apply NoDup_submseteq; [done|]. intros x (i & Hi & ->)%Hl. apply list_elem_of_fmap.
    exists i. split; [done|]. apply elem_of_seqZ. lia. }
  pose proof (submseteq_length _ _ Hsub) as Hlen. unfold slots in Hlen.
  rewrite length_fmap, length_seqZ in Hlen. unfold zlen. split; [lia|].
  intros E x (i & Hi & ->). rewrite (submseteq_length_Permutation _ _ Hsub).
  - apply list_elem_of_fmap. exists i. split; [done|]. apply elem_of_seqZ. lia.
  - unfold slots. rewrite length_fmap, length_seqZ. lia.
Qed.

Lemma page_len h A a p l : geometry A → page_inv h A a p l → 0 <= zlen l <= objs_per_page A.
Proof. intros Hg [_ Hn Hs _ _ _]. split; [unfold zlen; lia|]. by apply (slots_bound A p). Qed.

Lemma objs_small A : geometry A → objs_per_page A <= 512.
Proof. intros [H1 H2 H3 H4]. unfold PAGE_SIZE in *. nia. Qed.

Lemma size_list_to_set_le (xs : list loc) : (size (list_to_set (C := gset loc) xs) ≤ length xs)%nat.
Proof.
  induction xs as [|x xs IH]; [by rewrite list_to_set_nil, size_empty|].
  rewrite list_to_set_cons, size_union_alt, size_singleton.
  assert (list_to_set xs ∖ {[x]} ⊆@{gset loc} list_to_set xs) as Hs%subseteq_size by set_solver.
  cbn [length]. lia.
Qed.

(** There are fewer page frames than [2 ^ 52]. *)
Lemma frames_bound (G : gmap loc (list Z)) :
  (∀ p l, G !! p = Some l → frame_ok p) → Z.of_nat (size G) <= 2 ^ 52 - 1.
Proof.
  intros HG. remember (2 ^ 52 - 1) as n eqn:Hn.
  assert (dom G ⊆ list_to_set (C := gset loc) (pfn_to_page page_map <$> seqZ 0 n)) as Hsub.
  { intros p [l Hl]%elem_of_dom. destruct (HG p l Hl) as (pfn & H0 & -> & _ & HH & Hle).
    apply elem_of_list_to_set, list_elem_of_fmap. exists pfn. split; [done|].
    apply elem_of_seqZ. unfold PAGE_SIZE in *. lia. }
  apply subseteq_size in Hsub. rewrite size_dom in Hsub.
  pose proof (size_list_to_set_le (pfn_to_page page_map <$> seqZ 0 n)) as Hls. rewrite length_fmap, length_seqZ in Hls. lia.
Qed.

(** The counters are far from wrapping. *)
Lemma counts_small h a A G :
  slab_inv h a A G →
  0 <= nfree A <= 512 * (2 ^ 52 - 1) ∧ 0 <= nr_empty A < 2 ^ 52 ∧
  0 <= nr_partial A < 2 ^ 52 ∧ 0 <= nr_full A < 2 ^ 52.
Proof.
  intros [_ Hg _ _ Hp [Hpa Hfu Hnp Hnf -> -> -> ->]].
  pose proof (frames_bound G (λ p l Hl, pi_frame _ _ _ _ _ (Hp p l Hl))) as Hs.
  assert (∀ l : list loc, NoDup l → (∀ p, p ∈ l → ∃ x, G !! p = Some x) →
            Z.of_nat (length l) <= Z.of_nat (size G)) as Hlen.
  { intros l Hnd Hl. apply inj_le. rewrite <-(size_dom G), <-(size_list_to_set (C := gset loc) l Hnd).
    apply subseteq_size. intros p Hpl%elem_of_list_to_set. apply elem_of_dom.
    destruct (Hl p Hpl) as [x Hx]. by exists x. }
  pose proof (sumG_bound is_empty G 1 ltac:(lia)) as He.
  pose proof (sumG_bound zlen G 512 ltac:(lia)) as Hz.
  pose proof (objs_small A Hg).
  destruct He; [intros; unfold is_empty; case_decide; lia|].
  destruct Hz; [intros p l Hl; pose proof (page_len _ _ _ _ _ Hg (Hp p l Hl)); lia|].
  pose proof (Hlen (page_partial A) Hnp ltac:(naive_solver)).
  pose proof (Hlen (page_full A) Hnf ltac:(naive_solver)). lia.
Qed.

(** ** Steps of the invariant *)

(** One page changes its free objects; everything else is as before. *)
Lemma slab_update h a A G p l' sp w src A' (h' := mkHeap src (<[p := sp]> (hp_pages h)) w (<[a := A']> (hp_slabs h))) :
  slab_inv h a A G → same_geometry A A' → lists_inv A' (<[p := l']> G) → page_inv h' A' a p l' →
  (∀ q l x, q ≠ p → G !! q = Some l → x ∈ l → w x = hp_words h x) →
  (∀ q, q ≠ p → is_Some (G !! q) → ¬ ps_free (hp_source h) q →
     ¬ ps_free src q ∧ ps_flags src q = ps_flags (hp_source h) q) → ps_ok src →
  slab_inv h' a A' (<[p := l']> G).
Proof.
  intros [_ Hg _ Hfr Hp _] Hsame Hl Hpi Hw Hsrc Hok. split; simpl; try done.
  - by rewrite lookup_insert_eq.
  - by eapply geometry_same.
  - intros q l Hq. destruct (decide (q = p)) as [->|Hne].
    { rewrite lookup_insert_eq in Hq. by injection Hq as <-. }
    rewrite lookup_insert_ne in Hq by done. destruct (Hp q l Hq) as [(pobj & Hpo & Hc) Hn Hs Hf [Ho1 Ho2] Hfl].
    split; try done.
    + exists pobj. simpl. rewrite lookup_insert_ne by done. split; [done|].
      eapply chain_of_ext; [|done]. naive_solver.
    + intros x Hx. eapply is_slot_geometry; eauto.
    + split; [done|]. apply Hsrc; eauto.
    + simpl. rewrite <-Hfl. apply Hsrc; eauto.
Qed.

Lemma lists_update A G A' p l' :
  lists_inv A G → objs_per_page A' = objs_per_page A →
  (∀ q, q ∈ page_partial A' ↔
     (q ≠ p ∧ q ∈ page_partial A) ∨ (q = p ∧ 0 < zlen l' < objs_per_page A)) →
  (∀ q, q ∈ page_full A' ↔ (q ≠ p ∧ q ∈ page_full A) ∨ (q = p ∧ zlen l' = objs_per_page A)) →
  NoDup (page_partial A') → NoDup (page_full A') →
  nr_partial A' = Z.of_nat (length (page_partial A')) → nr_full A' = Z.of_nat (length (page_full A')) →
  nr_empty A' = sumG is_empty (<[p := l']> G) → nfree A' = sumG zlen (<[p := l']> G) →
  lists_inv A' (<[p := l']> G).
Proof.
  intros [Hpa Hfu _ _ _ _ _ _] Ho Hpa' Hfu' ? ? ? ? ? ?. split; try done; rewrite Ho.
  - intros q. rewrite Hpa', Hpa. destruct (decide (q = p)) as [->|Hne].
    + rewrite lookup_insert_eq. naive_solver.
    + rewrite lookup_insert_ne by done. naive_solver.
  - intros q. rewrite Hfu', Hfu. destruct (decide (q = p)) as [->|Hne].
    + rewrite lookup_insert_eq. naive_solver.
    + rewrite lookup_insert_ne by done. naive_solver.
Qed.

(** From [h] to [h'] only the page [p] and the allocator [a] changed. *)
Record touches (h h' : heap (S := S)) (a p : loc) : Prop := {
  tc_owner : ps_free (hp_source h) p ∨ ∃ sp, hp_pages h !! p = Some sp ∧ sp_allocator sp = a;
  tc_pages q : q ≠ p → hp_pages h' !! q = hp_pages h !! q;
  tc_words v : addr_page v ≠ p → hp_words h' v = hp_words h v;
  tc_slabs b : b ≠ a → hp_slabs h' !! b = hp_slabs h !! b;
  tc_source : ps_ok (hp_source h');
  tc_free q : q ≠ p → ¬ ps_free (hp_source h) q →
    ¬ ps_free (hp_source h') q ∧ ps_flags (hp_source h') q = ps_flags (hp_source h) q;
}.

(** The other allocators and their objects are as before. *)
Definition others_kept (h h' : heap (S := S)) (a : loc) : Prop :=
  ∀ b B K, b ≠ a → slab_inv h b B K →
    slab_inv h' b B K ∧
    ∀ y v, allocated B K y → y <= v < y + real_obj_size B → hp_words h' v = hp_words h v.

Lemma touches_others h h' a p : touches h h' a p → others_kept h h' a.
Proof.
  intros [Hown Hpages Hwords Hslabs Hok Hfree] b B K Hb [H1 H2 H3 H4 H5 H6].
  assert (∀ q l, K !! q = Some l → q ≠ p) as Hne.
  { intros q l Hq ->. destruct (H5 p l Hq) as [(pobj & Hpo & _) _ _ _ [_ Hnf] _].
    destruct Hown as [|(sp & Hsp & Ha)]; [done|]. rewrite Hpo in Hsp. injection Hsp as <-. by apply Hb. }
  assert (∀ q l y v, K !! q = Some l → is_slot B q y → y <= v < y + real_obj_size B →
            hp_words h' v = hp_words h v) as Hw.
  { intros q l y v Hq Hy Hv. apply Hwords. rewrite (slot_page B q y v); eauto.
    by eapply pi_frame, H5. }
  split; [split; try done|].
  - by rewrite Hslabs.
  - intros q l Hq. destruct (H5 q l Hq) as [(pobj & Hpo & Hc) Hn Hs Hf [Ho1 Ho2] Hfl].
    destruct (Hfree q (Hne q l Hq) Ho2) as [Ho3 Hfl3]. split; try done; [|congruence].
    exists pobj. rewrite Hpages by eauto. split; [done|].
    eapply chain_of_ext; [|done]. intros y Hy. apply (Hw q l y); auto. destruct H2; lia.
  - intros y v (q & l & Hq & Hy & _) Hv. by apply (Hw q l y).
Qed.

(** Zeroing a handed-out object disturbs nothing. *)
Lemma wrap_object_inv h a A G B c x :
  slab_inv h a A G → allocated A G x → inp_obj_size B = inp_obj_size A →
  slab_inv (wrap_object h B c x) a A G ∧
  (∀ w, ¬ x <= w < x + real_obj_size A → hp_words (wrap_object h B c x) w = hp_words h w) ∧
  (Z.land c ALLOC_ZERO ≠ 0 → ∀ w, x <= w < x + inp_obj_size A → hp_words (wrap_object h B c x) w = 0).
Proof.
  intros Hinv (p & l & Hp & Hslot & Hx) HB. unfold wrap_object. case_decide as Hc.
  2: { split_and!; [done|done|]. intros Hc'. by destruct Hc. }
  pose proof (sv_geometry _ _ _ _ Hinv) as Hg.
  pose proof (pi_frame _ _ _ _ _ (sv_pages _ _ _ _ Hinv p l Hp)) as Hf.
  rewrite HB. unfold zero_words. split_and!.
  - destruct Hinv as [H1 H2 H3 H4 H5 H6]. split; simpl; try done.
    intros q l' Hq. destruct (H5 q l' Hq) as [(pobj & Hpo & Hch) Hn Hs Hfq Ho Hfl]. split; try done.
    exists pobj. split; [done|]. eapply chain_of_ext; [|done]. intros y Hy. simpl.
    rewrite decide_False; [done|]. intros Hr.
    assert (x ≠ y).
    { intros ->. pose proof (Hs y Hy) as Hsy.
      assert (q = p) as -> by by apply (slot_unique A q p y).
      rewrite Hp in Hq. by injection Hq as ->. }
    apply (slot_disjoint A p q x y y); auto; destruct Hg; lia.
  - intros w Hw. simpl. rewrite decide_False; [done|]. destruct Hg. lia.
  - intros _ w Hw. simpl. by rewrite decide_True.
Qed.

(** ** Allocation *)

(** [B] is [A] with the page [p] off its list. *)
Record off_lists (A B : SlabAllocator) (p : loc) : Prop := {
  ol_partial q : q ∈ page_partial B ↔ q ≠ p ∧ q ∈ page_partial A;
  ol_full q : q ∈ page_full B ↔ q ≠ p ∧ q ∈ page_full A;
  ol_nodup_partial : NoDup (page_partial B);
  ol_nodup_full : NoDup (page_full B);
  ol_nr_partial : nr_partial B = Z.of_nat (length (page_partial B));
  ol_nr_full : nr_full B = Z.of_nat (length (page_full B));
  ol_counts : nr_empty B = nr_empty A ∧ nfree B = nfree A;
  ol_geometry : same_geometry A B;
}.

Lemma take_page_spec h a A G :
  slab_inv h a A G →
  (take_page A = Some (None, A) ∧ page_partial A = [] ∧ page_full A = []) ∨
  ∃ p x l B, take_page A = Some (Some p, B) ∧ G !! p = Some (x :: l) ∧ off_lists A B p.
Proof.
  intros Hinv. pose proof (counts_small _ _ _ _ Hinv) as (_ & _ & Hb1 & Hb2).
  destruct Hinv as [_ [Hobjs _ _ _] _ _ Hp [Hpa Hfu Hn1 Hn2 Hc1 Hc2 _ _]]. unfold take_page.
  destruct (page_partial A) as [|p ps] eqn:Ep.
  - rewrite Hc1. simpl. destruct (page_full A) as [|p fs] eqn:Ef; rewrite Hc2; simpl; [by left|].
    right. destruct (proj1 (Hfu p)) as (l & Hl & Hlen); [set_solver|].
    destruct l as [|x l]; [unfold zlen in *; simpl in *; lia|].
    apply NoDup_cons in Hn2 as [Hnp Hn2]. exists p, x, l. eexists. split_and!; [done..|].
    split; simpl; rewrite ?Ep, ?Ef; [set_solver|set_solver|constructor|done|done| |done|by split_and!].
    cbn [length] in *. rewrite ?Hc2, sub64_small; rewrite ?Hc2; lia.
  - right. destruct (proj1 (Hpa p)) as (l & Hl & Hlen); [set_solver|].
    destruct l as [|x l]; [unfold zlen in *; simpl in *; lia|].
    apply NoDup_cons in Hn1 as [Hnp Hn1]. exists p, x, l. eexists.
    assert (p ∉ page_full A).
    { rewrite Hfu. intros (l2 & Hl2 & Hlen2). rewrite Hl in Hl2. injection Hl2 as <-. lia. }
    rewrite decide_True by (rewrite Hc1; simpl; lia). split_and!; [done..|].
    split; simpl; rewrite ?Ep; [set_solver|set_solver|done|done| |done|done|by split_and!].
    cbn [length] in *. rewrite sub64_small; rewrite Hc1; lia.
Qed.

(** The allocator after an object of [p] was handed out. *)
Lemma taken_lists h a A G B p x l :
  slab_inv h a A G → G !! p = Some (x :: l) → off_lists A B p →
  let B' := if decide (zlen l = 0) then with_empty B (nr_empty B +ᵤ 1) (nfree B -ᵤ 1)
            else push_partial B p (nfree B -ᵤ 1) in
  lists_inv B' (<[p := l]> G) ∧ same_geometry A B'.
Proof.
  intros Hinv Hp [H1 H2 H3 H4 H5 H6 [H7 H8] (Hg1 & Hg2 & Hg3)] B'.
  pose proof (counts_small _ _ _ _ Hinv) as (Hb1 & Hb2 & Hb3 & Hb4).
  pose proof (sv_lists _ _ _ _ Hinv) as Hli. pose proof (page_len _ _ _ _ _ (sv_geometry _ _ _ _ Hinv) (sv_pages _ _ _ _ Hinv p _ Hp)) as Hlen.
  assert (0 < zlen (x :: l) ∧ zlen (x :: l) = zlen l + 1 ∧ 0 <= zlen l) as (Hz1 & Hz2 & Hz3)
    by (unfold zlen; simpl; lia).
  assert (nfree A - 1 = sumG zlen (<[p := l]> G)) as Hnf.
  { rewrite (sumG_update _ _ _ _ _ Hp), (li_nfree _ _ Hli). lia. }
  assert (0 <= sumG zlen (<[p := l]> G)) as Hnf0.
  { rewrite (sumG_update _ _ _ _ _ Hp). rewrite (sumG_delete _ _ _ _ Hp).
    pose proof (sumG_bound zlen (delete p G) 512 ltac:(lia)) as [? _]; [|lia].
    intros q l' [_ Hq]%lookup_delete_Some. pose proof (objs_small A (sv_geometry _ _ _ _ Hinv)).
    pose proof (page_len _ _ _ _ _ (sv_geometry _ _ _ _ Hinv) (sv_pages _ _ _ _ Hinv q _ Hq)). lia. }
  assert (nr_partial B < 2 ^ 64 - 1) as Hnp.
  { rewrite H5. assert (page_partial B ⊆+ page_partial A) as Hs%submseteq_length.
    { apply NoDup_submseteq; [done|]. intros q Hq. by apply H1 in Hq as [_ ?]. }
    pose proof (li_nr_partial _ _ Hli). lia. }
  assert (is_empty (x :: l) = 0) as Hne by done.
  subst B'. case_decide as Hl0.
  - split; [|done]. assert (l = []) as -> by (destruct l; [done|]; unfold zlen in *; simpl in *; lia).
    apply (lists_update A G); simpl; try done.
    + intros q. rewrite H1. naive_solver lia.
    + intros q. rewrite H2. destruct (sv_geometry _ _ _ _ Hinv). naive_solver lia.
    + rewrite H7, (sumG_update _ _ _ _ _ Hp), add64_small, (li_nr_empty _ _ Hli), Hne by lia.
      change (is_empty []) with 1. lia.
    + rewrite H8, sub64_small by lia. done.
  - split; [|done]. apply (lists_update A G); simpl; try done.
    + intros q. rewrite elem_of_cons, H1. naive_solver lia.
    + intros q. rewrite H2. naive_solver lia.
    + apply NoDup_cons. split; [|done]. rewrite H1. naive_solver.
    + rewrite add64_small; rewrite H5 in *; lia.
    + rewrite H7, (sumG_update _ _ _ _ _ Hp), (li_nr_empty _ _ Hli), Hne.
      assert (is_empty l = 0) as ->; [|lia]. unfold is_empty. rewrite decide_False; [done|].
      intros ->. done.
    + rewrite H8, sub64_small by lia. done.
Qed.

(** The pages that are in the page allocator or belong to the allocator. *)
Definition held (h : heap (S := S)) (G : gmap loc (list Z)) (q : loc) : Prop :=
  ps_free (hp_source h) q ∨ is_Some (G !! q).

Lemma held_update h G p l l' :
  G !! p = Some l → ∀ q, (ps_free (hp_source h) q ∨ is_Some (<[p := l']> G !! q)) ↔ held h G q.
Proof.
  intros Hp q. unfold held. destruct (decide (q = p)) as [->|Hne].
  - rewrite lookup_insert_eq, Hp. naive_solver.
  - by rewrite lookup_insert_ne.
Qed.

(** What a successful allocation of [x] does. *)
Definition handed_out (h : heap (S := S)) (a : loc) (A : SlabAllocator) (G : gmap loc (list Z)) (aclass x : Z)
    (h' : heap (S := S)) : Prop :=
  ∃ A' G', slab_inv h' a A' G' ∧ same_geometry A A' ∧
    ¬ allocated A G x ∧ (∀ y, allocated A' G' y ↔ allocated A G y ∨ y = x) ∧
    (∀ y w, allocated A G y → y <= w < y + real_obj_size A → hp_words h' w = hp_words h w) ∧
    (Z.land aclass ALLOC_ZERO ≠ 0 → ∀ w, x <= w < x + inp_obj_size A → hp_words h' w = 0) ∧
    others_kept h h' a ∧ ∀ q, held h' G' q ↔ held h G q.

(** An object that is not handed out does not overlap one that is. *)
Lemma allocated_disjoint h a A G p x y w :
  slab_inv h a A G → frame_ok p → is_slot A p x → allocated A G y → x ≠ y →
  y <= w < y + real_obj_size A → ¬ x <= w < x + real_obj_size A.
Proof.
  intros Hinv Hp Hx (q & l & Hq & Hy & _) Hne Hw Hw'.
  apply (slot_disjoint A p q x y w); try done; [apply Hinv|].
  apply (pi_frame _ _ _ _ _ (sv_pages _ _ _ _ Hinv q l Hq)).
Qed.

(** From the invariant with [x] handed out to the result of [wrap]. *)
Lemma hand_out h a A G h1 A1 G1 B aclass p x :
  slab_inv h a A G → slab_inv h1 a A1 G1 → same_geometry A A1 → inp_obj_size B = inp_obj_size A →
  frame_ok p → is_slot A p x → ¬ allocated A G x →
  (∀ y, allocated A1 G1 y ↔ allocated A G y ∨ y = x) →
  (∀ y w, allocated A G y → y <= w < y + real_obj_size A → hp_words h1 w = hp_words h w) →
  touches h h1 a p → (∀ q, held h1 G1 q ↔ held h G q) →
  handed_out h a A G aclass x (wrap_object h1 B aclass x).
Proof.
  intros Hinv Hinv1 (Hs1 & Hs2 & Hs3) HB Hp Hx Hna Hall Hw Htc Hheld.
  destruct (wrap_object_inv h1 a A1 G1 B aclass x) as (Hinv2 & Hfr & Hz); [done|apply Hall; auto|congruence|].
  exists A1, G1. split_and!; try done.
  - intros y w Hy Hyw. rewrite Hfr.
    + by apply (Hw y).
    + rewrite Hs2. eapply allocated_disjoint; try done. congruence.
  - intros Hc w Hwx. apply Hz; [done|]. by rewrite Hs1.
  - apply (touches_others _ _ _ p). destruct Htc as [H1 H2 H3 H4 H5 H6].
    assert (∀ v, addr_page v ≠ p → hp_words (wrap_object h1 B aclass x) v = hp_words h v) as Hv.
    { intros v Hv. rewrite Hfr; [by apply H3|]. rewrite Hs2. intros Hr. apply Hv.
      apply (slot_page A p x v); try done. apply Hinv. }
    unfold wrap_object in *. case_decide; split; done.
  - intros q. rewrite <-Hheld. unfold wrap_object. by case_decide.
Qed.

(** A free object, or one of a page the allocator does not own, is not handed
    out. *)
Lemma not_allocated h a A G p x :
  slab_inv h a A G → frame_ok p → is_slot A p x →
  (∀ l, G !! p = Some l → x ∈ l) → ¬ allocated A G x.
Proof.
  intros Hinv Hf Hx Hl (q & l & Hq & Hs & Hxl). pose proof (sv_geometry _ _ _ _ Hinv) as Hg.
  pose proof (pi_frame _ _ _ _ _ (sv_pages _ _ _ _ Hinv q l Hq)) as Hfq.
  assert (q = p) as ->; [by apply (slot_unique A q p x)|]. by apply Hxl, Hl.
Qed.

(** What is handed out after the free objects of [p] became [l']. *)
Lemma allocated_update A A' G p l' y :
  same_geometry A A' →
  allocated A' (<[p := l']> G) y ↔
  (∃ q l, q ≠ p ∧ G !! q = Some l ∧ is_slot A q y ∧ y ∉ l) ∨ (is_slot A p y ∧ y ∉ l').
Proof.
  intros Hsame. assert (∀ q, is_slot A' q y ↔ is_slot A q y) as Hs.
  { destruct Hsame as (_ & E1 & E2). unfold is_slot. by rewrite E1, E2. }
  unfold allocated. setoid_rewrite Hs. split.
  - intros (q & l & Hq & Hy & Hl). destruct (decide (q = p)) as [->|Hne].
    + rewrite lookup_insert_eq in Hq. injection Hq as <-. by right.
    + rewrite lookup_insert_ne in Hq by done. left. by exists q, l.
  - intros [(q & l & Hne & Hq & Hy)|Hy].
    + exists q, l. by rewrite lookup_insert_ne.
    + exists p, l'. by rewrite lookup_insert_eq.
Qed.

Lemma alloc_existing h a A G B p x l aclass (c := Z.lor ALLOC_KERNEL (Z.land aclass (Z.lor ALLOC_HIGHPRIO ALLOC_ZERO))) :
  slab_inv h a A G → take_page A = Some (Some p, B) → G !! p = Some (x :: l) → off_lists A B p →
  ∃ h', slab_alloc page_map HHDM_OFFSET h a aclass = Some (Some x, h') ∧ handed_out h a A G c x h'.
Proof.
  intros Hinv Ht Hp Hoff.
  destruct (sv_pages _ _ _ _ Hinv p _ Hp) as [(pobj & Hpo & Hch) Hnd Hsl Hf Hown Hfl].
  destruct Hch as (-> & Hx0 & Hch). apply NoDup_cons in Hnd as [Hxl Hnd].
  pose proof (page_len _ _ _ _ _ (sv_geometry _ _ _ _ Hinv) (sv_pages _ _ _ _ Hinv p _ Hp)) as Hlen.
  pose proof (objs_small A (sv_geometry _ _ _ _ Hinv)) as Hsm.
  destruct (taken_lists h a A G B p x l Hinv Hp Hoff) as [Hli Hsame].
  unfold slab_alloc. rewrite (sv_alloc _ _ _ _ Hinv). cbn [mbind option_bind]. rewrite Ht.
  cbn [mbind option_bind]. rewrite Hpo. cbn [mbind option_bind sp_pobj sp_nfree sp_allocator].
  rewrite decide_False by done.
  assert (wrap32 (zlen (x :: l) - 1) = zlen l) as ->.
  { rewrite wrap_small; unfold zlen, in_width in *; cbn [length] in *; lia. }
  set (B' := if decide (zlen l = 0) then _ else _) in *. eexists. split; [done|].
  eapply (hand_out h a A G _ B' (<[p := l]> G) _ _ p); try done.
  - eapply slab_update; try done.
    + split; try done.
      * simpl. rewrite lookup_insert_eq. eauto.
      * intros y Hy. eapply is_slot_geometry; [done|]. apply Hsl. set_solver.
    + apply Hinv.
  - apply Hsame.
  - apply Hsl. set_solver.
  - eapply not_allocated; try done; [apply Hsl; set_solver|].
    intros l' Hl'. rewrite Hp in Hl'. injection Hl' as <-. set_solver.
  - intros y. rewrite (allocated_update A) by done. split.
    + intros [(q & l' & _ & Hq & Hy)|[Hy Hyl]]; [left; by exists q, l'|].
      destruct (decide (y = x)) as [->|]; [by right|]. left. exists p, (x :: l). set_solver.
    + intros [(q & l' & Hq & Hy & Hyl)| ->].
      * destruct (decide (q = p)) as [->|Hne]; [right|left; by exists q, l'].
        rewrite Hp in Hq. injection Hq as <-. set_solver.
      * right. split; [|done]. apply Hsl. set_solver.
  - split; simpl; try done.
    + right. eauto.
    + intros q Hne. by rewrite lookup_insert_ne.
    + intros b Hb. by rewrite lookup_insert_ne.
    + apply Hinv.
  - intros q. by apply (held_update h G p (x :: l)).
Qed.

(** The objects of a new page that go on its chain. *)
Definition new_slots (A : SlabAllocator) (p : loc) : list Z :=
  (λ i, page_addr p + i * real_obj_size A) <$> seqZ 1 (objs_per_page A - 1).

Lemma elem_of_new_slots A p x :
  geometry A → is_slot A p x → x ∈ new_slots A p ↔ x ≠ page_addr p.
Proof.
  intros [H1 H2 H3 H4] (i & Hi & ->). unfold new_slots. rewrite list_elem_of_fmap.
  setoid_rewrite elem_of_seqZ. split.
  - intros (j & E & Hj). nia.
  - intros Hne. exists i. split; [done|]. assert (i ≠ 0) by (intros ->; lia). lia.
Qed.

Lemma new_slots_slots A p x : x ∈ new_slots A p → is_slot A p x.
Proof.
  unfold new_slots. rewrite list_elem_of_fmap. setoid_rewrite elem_of_seqZ.
  intros (i & -> & Hi). exists i. split; [lia|done].
Qed.

Lemma new_slots_nodup A p : geometry A → NoDup (new_slots A p).
Proof.
  intros [H1 H2 H3 H4]. unfold new_slots. apply NoDup_fmap_2; [|apply NoDup_seqZ].
  intros i j E. cbv beta in E. apply (Z.mul_reg_r i j (real_obj_size A)); lia.
Qed.

Lemma new_slots_len A p : geometry A → zlen (new_slots A p) = objs_per_page A - 1.
Proof. intros [H1 _ _ _]. unfold zlen, new_slots. rewrite length_fmap, length_seqZ. lia. Qed.

(** The chain of a new page, and what building it leaves alone. *)
Lemma new_chain A p w :
  geometry A → frame_ok p →
  let '(pobj, w') := chain_objects (Z.to_nat (objs_per_page A - 1)) 1 (real_obj_size A) (page_addr p)
                       InPage (0, w) in
  chain_of w' pobj (new_slots A p) ∧
  ∀ x, ¬ page_addr p <= x < page_addr p + PAGE_SIZE → w' x = w x.
Proof.
  intros Hg Hf. pose proof (page_addr_range p Hf) as [Ha1 Ha2]. destruct Hg as [H1 H2 H3 H4].
  pose proof (chain_objects_spec (real_obj_size A) (page_addr p) (Z.to_nat (objs_per_page A - 1)) 1
    InPage 0 w ltac:(lia) H2 Ha1 ltac:(nia) I) as Hc.
  destruct (chain_objects _ _ _ _ _ _) as [pobj w']. destruct Hc as [Hc Hfr]. split.
  - unfold new_slots. by rewrite Z2Nat.id in Hc by lia.
  - intros x Hx. apply Hfr; [|done]. nia.
Qed.

(** The allocator after it took a new page. *)
Lemma new_lists h a A G p :
  slab_inv h a A G → page_partial A = [] → page_full A = [] → G !! p = None →
  let A' := push_partial A p (nfree A +ᵤ (objs_per_page A -ᵤ 1)) in
  lists_inv A' (<[p := new_slots A p]> G) ∧ same_geometry A A'.
Proof.
  intros Hinv Hep Hef Hp A'. split; [|done].
  pose proof (counts_small _ _ _ _ Hinv) as (Hb1 & Hb2 & Hb3 & Hb4).
  pose proof (sv_lists _ _ _ _ Hinv) as Hli. pose proof (sv_geometry _ _ _ _ Hinv) as Hg.
  pose proof (new_slots_len A p Hg) as Hlen. pose proof (objs_small A Hg) as Hsm.
  pose proof (ge_objs A Hg) as Ho.
  assert (new_slots A p ≠ []) as Hne by (intros E; rewrite E in Hlen; unfold zlen in Hlen; simpl in Hlen; lia).
  apply (lists_update A G); simpl; rewrite ?Hep, ?Hef, ?Hlen; try done.
  - intros q. rewrite elem_of_cons, elem_of_nil. naive_solver lia.
  - intros q. rewrite elem_of_nil. naive_solver lia.
  - apply NoDup_singleton.
  - constructor.
  - rewrite (li_nr_partial _ _ Hli), Hep. done.
  - by rewrite (li_nr_full _ _ Hli), Hef.
  - rewrite sumG_insert, (li_nr_empty _ _ Hli) by done. unfold is_empty at 2. rewrite decide_False by done. lia.
  - rewrite sumG_insert, Hlen by done. rewrite <-(li_nfree _ _ Hli).
    rewrite (sub64_small (objs_per_page A)) by lia. rewrite add64_small by lia. lia.
Qed.

(** With both lists empty every page is used up. *)
Lemma no_free_objects h a A G :
  slab_inv h a A G → page_partial A = [] → page_full A = [] → sumG zlen G = 0.
Proof.
  intros Hinv Hep Hef. pose proof (sv_lists _ _ _ _ Hinv) as Hli.
  pose proof (sumG_bound zlen G 0 ltac:(lia)) as Hb. destruct Hb as [? ?]; [|lia].
  intros p l Hl. pose proof (page_len _ _ _ _ _ (sv_geometry _ _ _ _ Hinv) (sv_pages _ _ _ _ Hinv p l Hl)).
  assert (p ∉ page_partial A ∧ p ∉ page_full A) as [H1 H2] by (rewrite Hep, Hef; set_solver).
  rewrite (li_partial _ _ Hli) in H1. rewrite (li_full _ _ Hli) in H2.
  destruct (decide (zlen l = 0)); [lia|]. exfalso.
  destruct (decide (zlen l = objs_per_page A)); [apply H2|apply H1]; exists l; (split; [done|lia]).
Qed.

Lemma alloc_new h a A G aclass (c := Z.lor ALLOC_KERNEL (Z.land aclass (Z.lor ALLOC_HIGHPRIO ALLOC_ZERO))) :
  slab_inv h a A G → take_page A = Some (None, A) → page_partial A = [] → page_full A = [] →
  slab_alloc page_map HHDM_OFFSET h a aclass = Some (None, h) ∨
  ∃ x h', slab_alloc page_map HHDM_OFFSET h a aclass = Some (Some x, h') ∧ handed_out h a A G c x h'.
Proof.
  intros Hinv Ht Hep Hef. pose proof (sv_geometry _ _ _ _ Hinv) as Hg.
  unfold slab_alloc. rewrite (sv_alloc _ _ _ _ Hinv). cbn [mbind option_bind]. rewrite Ht.
  cbn [mbind option_bind]. fold c.
  destruct (ps_alloc_ok _ c (sv_source _ _ _ _ Hinv)) as
    [->|(p & src & -> & Hok & Hpp & Hfp & Hfree & Hflags)]; cbn [mbind option_bind].
  { left. by destruct h. }
  right. pose proof (sv_frames _ _ _ _ Hinv p Hpp) as Hf.
  assert (G !! p = None) as Hp.
  { destruct (G !! p) as [l|] eqn:E; [|done].
    by destruct (pi_owned _ _ _ _ _ (sv_pages _ _ _ _ Hinv p l E)). }
  set (w := if decide (Z.land c ALLOC_ZERO ≠ 0) then _ else _).
  assert (∀ x, ¬ page_addr p <= x < page_addr p + PAGE_SIZE → w x = hp_words h x) as Hw.
  { intros x Hx. unfold w, zero_words. case_decide; [|done]. by rewrite decide_False. }
  pose proof (new_chain A p w Hg Hf) as Hnc.
  destruct (chain_objects _ _ _ _ _ _) as [pobj w']. destruct Hnc as [Hch Hw'].
  destruct (new_lists h a A G p Hinv Hep Hef Hp) as [Hli Hsame].
  destruct (ps_set_flags_ok src p PAGE_SLAB Hok Hpp) as (Hok2 & Hfree2 & Hflags2); [rewrite Hfree; tauto|].
  assert (∀ q l x v, q ≠ p → G !! q = Some l → is_slot A q x → x <= v < x + real_obj_size A →
            w' v = hp_words h v) as Hother.
  { intros q l x v Hne Hq Hx Hv.
    assert (¬ page_addr p <= v < page_addr p + PAGE_SIZE) as Hout; [|by rewrite Hw', Hw].
    intros Hin. apply Hne. rewrite <-(slot_page A q x v); try done.
    - replace v with (page_addr p + (v - page_addr p)) by lia. apply addr_page_addr; [done|lia].
    - apply (pi_frame _ _ _ _ _ (sv_pages _ _ _ _ Hinv q l Hq)). }
  assert (is_slot A p (page_addr p)) as Hs0 by (exists 0; destruct Hg; lia).
  pose proof (objs_small A Hg). pose proof (ge_objs A Hg). pose proof (ge_size A Hg).
  eexists _, _. split; [done|].
  eapply (hand_out h a A G _ _ (<[p := new_slots A p]> G) _ _ p); try done.
  - eapply slab_update; try done.
    + split; simpl.
      * rewrite lookup_insert_eq. exists pobj. split; [|done]. f_equal. f_equal.
        rewrite new_slots_len, wrap_small; [done|unfold in_width; lia|done].
      * by apply new_slots_nodup.
      * intros x Hx. eapply is_slot_geometry; [done|]. by apply new_slots_slots.
      * done.
      * split; [done|]. rewrite Hfree2, Hfree. tauto.
      * rewrite Hflags2. by rewrite decide_True.
    + intros q l x Hne Hq Hx. apply (Hother q l x); try done; [|lia].
      by apply (pi_slots _ _ _ _ _ (sv_pages _ _ _ _ Hinv q l Hq)).
    + intros q Hne _ Hnf. rewrite Hfree2, Hfree, Hflags2, decide_False, Hflags by done. tauto.
  - eapply not_allocated; try done. intros l Hl. congruence.
  - intros y. rewrite (allocated_update A) by done. split.
    + intros [(q & l' & _ & Hq & Hy)|[Hy Hyl]]; [left; by exists q, l'|].
      right. destruct (decide (y = page_addr p)) as [|Hne]; [done|].
      by apply (elem_of_new_slots A p y Hg Hy) in Hne.
    + intros [(q & l' & Hq & Hy & Hyl)| ->].
      * left. exists q, l'. split_and!; try done. congruence.
      * right. split; [done|]. rewrite elem_of_new_slots by done. tauto.
  - intros y v (q & l & Hq & Hy & _) Hv. apply (Hother q l y); try done. congruence.
  - split; simpl; try done.
    + by left.
    + intros q Hne. by rewrite lookup_insert_ne.
    + intros v Hv. assert (¬ page_addr p <= v < page_addr p + PAGE_SIZE) as Hout; [|by rewrite Hw', Hw].
      intros Hin. apply Hv. replace v with (page_addr p + (v - page_addr p)) by lia.
      apply addr_page_addr; [done|lia].
    + intros b Hb. by rewrite lookup_insert_ne.
    + intros q Hne Hnf. rewrite Hfree2, Hfree, Hflags2, decide_False, Hflags by done. tauto.
  - intros q. unfold held. simpl. rewrite Hfree2, Hfree. destruct (decide (q = p)) as [->|Hne].
    + rewrite lookup_insert_eq. naive_solver.
    + rewrite lookup_insert_ne by done. naive_solver.
Qed.

Lemma slab_alloc_cases h a A G aclass :
  slab_inv h a A G →
  (slab_alloc page_map HHDM_OFFSET h a aclass = Some (None, h) ∧ nfree A = 0) ∨
  ∃ x h', slab_alloc page_map HHDM_OFFSET h a aclass = Some (Some x, h') ∧ handed_out h a A G aclass x h'.
Proof.
  intros Hinv.
  assert (Z.land (Z.lor ALLOC_KERNEL (Z.land aclass (Z.lor ALLOC_HIGHPRIO ALLOC_ZERO))) ALLOC_ZERO =
          Z.land aclass ALLOC_ZERO) as Hc.
  { unfold ALLOC_KERNEL, ALLOC_HIGHPRIO, ALLOC_ZERO. by rewrite Z.lor_0_l, <-Z.land_assoc. }
  destruct (take_page_spec h a A G Hinv) as [(Ht & Hep & Hef)|(p & x & l & B & Ht & Hp & Hoff)].
  - destruct (alloc_new h a A G aclass Hinv Ht Hep Hef) as [E|(x & h' & E & H)].
    + left. split; [done|]. rewrite (li_nfree _ _ (sv_lists _ _ _ _ Hinv)). by eapply no_free_objects.
    + right. exists x, h'. unfold handed_out in *. by rewrite Hc in H.
  - right. destruct (alloc_existing h a A G B p x l aclass Hinv Ht Hp Hoff) as (h' & E & H).
    exists x, h'. unfold handed_out in *. by rewrite Hc in H.
Qed.

(** C11. [slab_alloc] under the allocator's invariant (every page of the allocator
    on the list its free count says, the free objects of each page chained
    through their first words, the four counters exact): it returns null, with
    the state unchanged, only when the allocator has no free object; otherwise
    it returns an object that was not handed out, keeps the invariant, adds
    exactly that object to the ones handed out, leaves the memory of every
    other handed-out object and every other allocator alone, zeroes the
    object if asked to, and loses no page: each stays with the page allocator or
    this allocator. *)
Theorem slab_alloc_correct h a A G aclass :
  slab_inv h a A G →
  (slab_alloc page_map HHDM_OFFSET h a aclass = Some (None, h) ∧ nfree A = 0) ∨
  ∃ x h' A' G', slab_alloc page_map HHDM_OFFSET h a aclass = Some (Some x, h') ∧
    slab_inv h' a A' G' ∧ same_geometry A A' ∧
    ¬ allocated A G x ∧ (∀ y, allocated A' G' y ↔ allocated A G y ∨ y = x) ∧
    (∀ y w, allocated A G y → y <= w < y + real_obj_size A → hp_words h' w = hp_words h w) ∧
    (Z.land aclass ALLOC_ZERO ≠ 0 → ∀ w, x <= w < x + inp_obj_size A → hp_words h' w = 0) ∧
    others_kept h h' a ∧ ∀ q, held h' G' q ↔ held h G q.
Proof.
  intros [?|(x & h' & E & A' & G' & H)]%(slab_alloc_cases _ _ _ _ aclass); [by left|].
  right. by exists x, h', A', G'.
Qed.

(** ** Freeing *)

(** The allocator without a page it owned. *)
Lemma lists_without A G A' p :
  lists_inv A G → objs_per_page A' = objs_per_page A →
  (∀ q, q ∈ page_partial A' ↔ q ≠ p ∧ q ∈ page_partial A) →
  (∀ q, q ∈ page_full A' ↔ q ≠ p ∧ q ∈ page_full A) →
  NoDup (page_partial A') → NoDup (page_full A') →
  nr_partial A' = Z.of_nat (length (page_partial A')) → nr_full A' = Z.of_nat (length (page_full A')) →
  nr_empty A' = sumG is_empty (delete p G) → nfree A' = sumG zlen (delete p G) →
  lists_inv A' (delete p G).
Proof.
  intros [Hpa Hfu _ _ _ _ _ _] Ho Hpa' Hfu' ? ? ? ? ? ?. split; try done; rewrite Ho.
  - intros q. rewrite Hpa', Hpa. setoid_rewrite lookup_delete_Some. naive_solver.
  - intros q. rewrite Hfu', Hfu. setoid_rewrite lookup_delete_Some. naive_solver.
Qed.

Lemma slab_remove h a A G p sp w src A' (h' := mkHeap src (<[p := sp]> (hp_pages h)) w (<[a := A']> (hp_slabs h))) :
  slab_inv h a A G → same_geometry A A' → lists_inv A' (delete p G) →
  (∀ q l x, q ≠ p → G !! q = Some l → x ∈ l → w x = hp_words h x) →
  (∀ q, q ≠ p → ¬ ps_free (hp_source h) q →
     ¬ ps_free src q ∧ ps_flags src q = ps_flags (hp_source h) q) → ps_ok src →
  slab_inv h' a A' (delete p G).
Proof.
  intros [_ Hg _ Hfr Hp _] Hsame Hl Hw Hsrc Hok. split; simpl; try done.
  - by rewrite lookup_insert_eq.
  - by eapply geometry_same.
  - intros q l [Hne Hq]%lookup_delete_Some.
    destruct (Hp q l Hq) as [(pobj & Hpo & Hc) Hn Hs Hf [Ho1 Ho2] Hfl].
    destruct (Hsrc q ltac:(done) Ho2) as [Ho3 Hfl3].
    split; try done.
    + exists pobj. simpl. rewrite lookup_insert_ne by done. split; [done|].
      eapply chain_of_ext; [|done]. naive_solver.
    + intros x Hx. eapply is_slot_geometry; eauto.
    + simpl. congruence.
Qed.

(** The counters of the allocator when a page gains one free object. *)
Lemma free_counts h a A G p l x :
  slab_inv h a A G → G !! p = Some l →
  nfree A +ᵤ 1 = sumG zlen (<[p := x :: l]> G) ∧
  sumG is_empty (<[p := x :: l]> G) = nr_empty A - is_empty l ∧
  is_empty l <= nr_empty A ∧ zlen l <= nfree A.
Proof.
  intros Hinv Hp. pose proof (counts_small _ _ _ _ Hinv) as (Hb1 & Hb2 & Hb3 & Hb4).
  pose proof (sv_lists _ _ _ _ Hinv) as Hli.
  rewrite !(sumG_update _ _ _ _ _ Hp), add64_small by lia.
  assert (0 <= sumG is_empty (delete p G) <= 1 * Z.of_nat (size (delete p G))) as Hd.
  { apply sumG_bound; [lia|]. intros q l' _. unfold is_empty. case_decide; lia. }
  assert (0 <= sumG zlen (delete p G) <= 512 * Z.of_nat (size (delete p G))) as He.
  { apply sumG_bound; [lia|]. intros q l' [_ Hq]%lookup_delete_Some.
    pose proof (page_len _ _ _ _ _ (sv_geometry _ _ _ _ Hinv) (sv_pages _ _ _ _ Hinv q _ Hq)).
    pose proof (objs_small _ (sv_geometry _ _ _ _ Hinv)). lia. }
  pose proof (sumG_delete is_empty G p l Hp) as Hd'. pose proof (sumG_delete zlen G p l Hp) as He'.
  rewrite <-(li_nfree _ _ Hli), <-(li_nr_empty _ _ Hli) in *.
  assert (zlen (x :: l) = zlen l + 1) by (unfold zlen; cbn [length]; lia).
  change (is_empty (x :: l)) with 0. lia.
Qed.

(** What freeing does to the allocator, in each of the cases of the code:
    the page had no free object, it still has objects in use, or it is now
    all free and is kept or given back. *)
Lemma freed_lists h a A G p l x (nf := nfree A +ᵤ 1) :
  slab_inv h a A G → G !! p = Some l → zlen l < objs_per_page A →
  let G' := <[p := x :: l]> G in
  (zlen l = 0 → lists_inv (push_partial (with_empty A (nr_empty A -ᵤ 1) (nfree A)) p nf) G') ∧
  (zlen l ≠ 0 → zlen l + 1 ≠ objs_per_page A → lists_inv (with_empty A (nr_empty A) nf) G') ∧
  (zlen l + 1 = objs_per_page A →
   let B := unlink_page A p (nr_partial A -ᵤ 1) nf in
   lists_inv (push_full B p) G' ∧
   lists_inv (with_empty B (nr_empty B) (nfree B -ᵤ objs_per_page B)) (delete p G)).
Proof.
  intros Hinv Hp Hlt G'. pose proof (counts_small _ _ _ _ Hinv) as (Hb1 & Hb2 & Hb3 & Hb4).
  destruct (free_counts h a A G p l x Hinv Hp) as (Hnf & Hne & Hle & Hle').
  pose proof (sv_lists _ _ _ _ Hinv) as Hli. pose proof (ge_objs _ (sv_geometry _ _ _ _ Hinv)) as Ho.
  pose proof (objs_small _ (sv_geometry _ _ _ _ Hinv)) as Hsm.
  assert (zlen (x :: l) = zlen l + 1 ∧ 0 <= zlen l) as [Hx Hl0] by (unfold zlen; cbn [length]; lia).
  assert (p ∉ page_full A) as Hpf.
  { rewrite (li_full _ _ Hli). intros (l' & Hl' & E). rewrite Hp in Hl'. injection Hl' as <-. lia. }
  assert (p ∈ page_partial A ↔ 0 < zlen l) as Hpp.
  { rewrite (li_partial _ _ Hli), Hp. naive_solver lia. }
  assert (is_empty l = if decide (zlen l = 0) then 1 else 0) as He.
  { unfold is_empty, zlen. destruct l; [done|]. rewrite !decide_False; [done|simpl; lia|done]. }
  split_and!.
  - intros H0. rewrite decide_True in He by done. apply (lists_update A G); simpl; try done; rewrite ?Hx.
    + intros q. rewrite elem_of_cons. destruct (decide (q = p)) as [->|]; naive_solver lia.
    + intros q. destruct (decide (q = p)) as [->|]; naive_solver lia.
    + apply NoDup_cons. split; [|apply Hli]. rewrite Hpp. lia.
    + apply Hli.
    + rewrite add64_small by lia. rewrite (li_nr_partial _ _ Hli). lia.
    + apply Hli.
    + rewrite sub64_small by lia. lia.
  - intros H0 H1. rewrite decide_False in He by done. apply (lists_update A G); simpl; try done; rewrite ?Hx.
    + intros q. destruct (decide (q = p)) as [->|]; naive_solver lia.
    + intros q. destruct (decide (q = p)) as [->|]; naive_solver lia.
    + apply Hli.
    + apply Hli.
    + apply Hli.
    + apply Hli.
    + lia.
  - intros H1 B. rewrite decide_False in He by lia.
    assert (p ∈ page_partial A) as Hin by (apply Hpp; lia).
    assert (∀ l' : list loc, ∀ q, q ∈ filter (λ q, q ≠ p) l' ↔ q ≠ p ∧ q ∈ l') as Hfl
      by (intros l' q; by rewrite list_elem_of_filter).
    assert (nr_partial A -ᵤ 1 = Z.of_nat (length (filter (λ q, q ≠ p) (page_partial A)))) as Hnp.
    { rewrite filter_ne_length by (done || apply Hli). rewrite (li_nr_partial _ _ Hli) in *.
      apply sub64_small. destruct (page_partial A); [by apply elem_of_nil in Hin|]. cbn [length] in *. lia. }
    assert (filter (λ q, q ≠ p) (page_full A) = page_full A) as Hff by by apply filter_ne_id.
    assert (NoDup (filter (λ q, q ≠ p) (page_partial A))) as Hnd by (apply NoDup_filter, Hli).
    split.
    + apply (lists_update A G); simpl; rewrite ?Hff, ?Hx; try done.
      * intros q. rewrite Hfl. naive_solver lia.
      * intros q. rewrite elem_of_cons. destruct (decide (q = p)) as [->|]; naive_solver lia.
      * apply NoDup_cons. split; [done|apply Hli].
      * rewrite add64_small by lia. rewrite (li_nr_full _ _ Hli). lia.
      * lia.
    + rewrite (sumG_update _ _ _ _ _ Hp) in Hnf.
      pose proof (sumG_delete zlen G p l Hp) as Hd. pose proof (sumG_delete is_empty G p l Hp) as Hd'.
      apply (lists_without A G); simpl; rewrite ?Hff; try done.
      * intros q. destruct (decide (q = p)) as [->|]; naive_solver.
      * apply Hli.
      * apply Hli.
      * rewrite (li_nr_empty _ _ Hli). lia.
      * unfold nf. rewrite Hnf, (li_nfree _ _ Hli) in *. rewrite sub64_small; lia.
Qed.

(** What a successful free of [x] does. *)
Definition given_back (h : heap (S := S)) (a : loc) (A : SlabAllocator) (G : gmap loc (list Z)) (x : Z)
    (h' : heap (S := S)) : Prop :=
  ∃ A' G', slab_inv h' a A' G' ∧ same_geometry A A' ∧
    (∀ y, allocated A' G' y ↔ allocated A G y ∧ y ≠ x) ∧
    (∀ y w, allocated A G y → y ≠ x → y <= w < y + real_obj_size A → hp_words h' w = hp_words h w) ∧
    others_kept h h' a ∧ ∀ q, held h' G' q ↔ held h G q.

Section free.
Context (h : heap (S := S)) (a : loc) (A : SlabAllocator) (G : gmap loc (list Z)).
Context (Hinv : slab_inv h a A G).
Context (p : loc) (l : list Z) (x pobj : Z).
Context (Hp : G !! p = Some l) (Hx : is_slot A p x) (Hxl : x ∉ l).
Context (Hch : chain_of (hp_words h) pobj l).

Let w := set_word (hp_words h) x pobj.
Let sp := mkSlabPage (zlen l + 1) x a.

Lemma freed_words y v : is_slot A p x → (∃ q, frame_ok q ∧ is_slot A q y) → y ≠ x →
  y <= v < y + real_obj_size A → w v = hp_words h v.
Proof.
  intros _ (q & Hq & Hy) Hne Hv. unfold w, set_word. rewrite decide_False; [done|]. intros ->.
  pose proof (sv_geometry _ _ _ _ Hinv) as Hg.
  apply (slot_disjoint A q p y x x); try done; [|destruct Hg; lia].
  apply (pi_frame _ _ _ _ _ (sv_pages _ _ _ _ Hinv p l Hp)).
Qed.

Lemma freed_other q l' y : q ≠ p → G !! q = Some l' → y ∈ l' → w y = hp_words h y.
Proof.
  intros Hne Hq Hy. destruct (sv_pages _ _ _ _ Hinv q l' Hq) as [_ _ Hs Hf _ _].
  pose proof (sv_geometry _ _ _ _ Hinv) as Hg.
  pose proof (pi_frame _ _ _ _ _ (sv_pages _ _ _ _ Hinv p l Hp)) as Hfp.
  apply (freed_words y); try done; [eauto| |destruct Hg; lia].
  intros ->. apply Hne. by apply (slot_unique A q p x); auto.
Qed.

Lemma freed_page src A' :
  same_geometry A A' → src = hp_source h →
  page_inv (mkHeap src (<[p := sp]> (hp_pages h)) w (<[a := A']> (hp_slabs h))) A' a p (x :: l).
Proof.
  intros Hsame ->. destruct (sv_pages _ _ _ _ Hinv p l Hp) as [_ Hn Hs Hf Ho Hfl].
  pose proof (slot_nonnull A p x (sv_geometry _ _ _ _ Hinv) Hf Hx).
  split; simpl; try done.
  - exists x. rewrite lookup_insert_eq. split.
    + f_equal. unfold sp. f_equal. unfold zlen. cbn [length]. lia.
    + split_and!; [done|lia|]. unfold w at 2, set_word. rewrite decide_True by done.
      eapply chain_of_ext; [|done]. intros y Hy. unfold w, set_word. rewrite decide_False; [done|]. by intros ->.
  - by apply NoDup_cons.
  - intros y [->|Hy]%elem_of_cons; eapply is_slot_geometry; eauto.
Qed.

Lemma freed_len : 0 <= zlen l < objs_per_page A ∧
  (zlen l + 1 = objs_per_page A → ∀ y, is_slot A p y → y ∉ l → y = x).
Proof.
  destruct (sv_pages _ _ _ _ Hinv p l Hp) as [_ Hn Hs _ _ _].
  destruct (slots_bound A p (x :: l) (sv_geometry _ _ _ _ Hinv)) as [Hle Hall].
  { by apply NoDup_cons. }
  { intros y [->|Hy]%elem_of_cons; auto. }
  assert (zlen (x :: l) = zlen l + 1 ∧ 0 <= zlen l) as [E H0] by (unfold zlen; cbn [length]; lia).
  split; [lia|]. intros E' y Hy Hyl. specialize (Hall ltac:(lia) y Hy). set_solver.
Qed.

Lemma freed_allocated y :
  allocated A G y ∧ y ≠ x ↔
  (∃ q l', q ≠ p ∧ G !! q = Some l' ∧ is_slot A q y ∧ y ∉ l') ∨ (is_slot A p y ∧ y ∉ l ∧ y ≠ x).
Proof.
  split.
  - intros [(q & l' & Hq & Hy & Hyl) Hne]. destruct (decide (q = p)) as [->|]; [right|left; by exists q, l'].
    rewrite Hp in Hq. by injection Hq as <-.
  - intros [(q & l' & Hne & Hq & Hy & Hyl)|(Hy & Hyl & Hne)]; [|split; [by exists p, l|done]].
    split; [by exists q, l'|]. intros ->. apply Hne. pose proof (sv_pages _ _ _ _ Hinv) as Hpages.
    apply (slot_unique A q p x); try done; [apply Hinv|..]; by eapply pi_frame, Hpages.
Qed.

Lemma freed_touches src A' :
  ps_ok src →
  (∀ q, q ≠ p → ¬ ps_free (hp_source h) q → ¬ ps_free src q ∧ ps_flags src q = ps_flags (hp_source h) q) →
  others_kept h (mkHeap src (<[p := sp]> (hp_pages h)) w (<[a := A']> (hp_slabs h))) a.
Proof.
  intros Hok Hsrc. destruct (sv_pages _ _ _ _ Hinv p l Hp) as [(pobj' & Hpo & _) _ _ Hf _ _].
  apply (touches_others _ _ _ p). split; simpl; try done.
  - right. eauto.
  - intros q Hne. by rewrite lookup_insert_ne.
  - intros v Hv. unfold w, set_word. rewrite decide_False; [done|]. intros ->. apply Hv.
    pose proof (sv_geometry _ _ _ _ Hinv) as Hg. apply (slot_page A p x x); try done. destruct Hg; lia.
  - intros b Hb. by rewrite lookup_insert_ne.
Qed.

(** The page stays with the allocator. *)
Lemma freed_kept A' :
  lists_inv A' (<[p := x :: l]> G) → same_geometry A A' →
  given_back h a A G x (mkHeap (hp_source h) (<[p := sp]> (hp_pages h)) w (<[a := A']> (hp_slabs h))).
Proof.
  intros Hli Hsame. exists A', (<[p := x :: l]> G). split_and!; [|done|..].
  - apply (slab_update h a A G); try done; [by apply freed_page|exact freed_other|apply Hinv].
  - intros y. rewrite (allocated_update A), freed_allocated by done. set_solver.
  - intros y v (q & l' & Hq & Hy & _) Hne Hv. apply (freed_words y); try done.
    exists q. split; [|done]. apply (pi_frame _ _ _ _ _ (sv_pages _ _ _ _ Hinv q l' Hq)).
  - apply freed_touches; [apply Hinv|]. done.
  - intros q. by apply (held_update h G p l).
Qed.

(** The page, all free, goes back to the page allocator. *)
Lemma freed_released A' src :
  lists_inv A' (delete p G) → same_geometry A A' → zlen l + 1 = objs_per_page A →
  ps_ok src → (∀ q, ps_free src q ↔ ps_free (hp_source h) q ∨ q = p) →
  (∀ q, q ≠ p → ps_flags src q = ps_flags (hp_source h) q) →
  given_back h a A G x (mkHeap src (<[p := sp]> (hp_pages h)) w (<[a := A']> (hp_slabs h))).
Proof.
  intros Hli Hsame Hlen Hok Hfree Hfl. exists A', (delete p G). split_and!; [|done|..].
  - apply (slab_remove h a A G); try done; [exact freed_other|].
    intros q Hne Hq. rewrite Hfree, Hfl by done. tauto.
  - intros y. rewrite freed_allocated.
    assert (allocated A' (delete p G) y ↔ allocated A (delete p G) y) as ->.
    { destruct Hsame as (_ & E1 & E2). unfold allocated, is_slot. by rewrite E1, E2. }
    unfold allocated. setoid_rewrite lookup_delete_Some.
    pose proof (proj2 freed_len Hlen y). naive_solver.
  - intros y v (q & l' & Hq & Hy & _) Hne Hv. apply (freed_words y); try done.
    exists q. split; [|done]. apply (pi_frame _ _ _ _ _ (sv_pages _ _ _ _ Hinv q l' Hq)).
  - apply freed_touches; [done|]. intros q Hne Hq. rewrite Hfree, Hfl by done. tauto.
  - intros q. unfold held. simpl. rewrite Hfree. destruct (decide (q = p)) as [->|Hne].
    + rewrite Hp. naive_solver.
    + rewrite lookup_delete_ne by done. naive_solver.
Qed.

End free.

Lemma slab_free_cases h a A G x :
  slab_inv h a A G → allocated A G x →
  ∃ h', slab_free page_map HHDM_OFFSET h x = Some h' ∧ given_back h a A G x h' ∧
    (page_full A = [] → hp_source h' = hp_source h).
Proof.
  intros Hinv (p & l & Hp & Hx & Hxl).
  destruct (sv_pages _ _ _ _ Hinv p l Hp) as [(pobj & Hpo & Hch) _ _ Hf Hown _].
  pose proof (sv_geometry _ _ _ _ Hinv) as Hg. pose proof (objs_small A Hg) as Hsm.
  destruct (freed_len h a A G Hinv p l x pobj Hp Hx Hxl Hch) as [Hlen _].
  destruct (freed_lists h a A G p l x Hinv Hp ltac:(lia)) as (Hl1 & Hl2 & Hl3).
  pose proof (freed_kept h a A G Hinv p l x pobj Hp Hx Hxl Hch) as Hkept.
  pose proof (freed_released h a A G Hinv p l x pobj Hp Hx Hxl Hch) as Hrel.
  unfold slab_free. rewrite (slot_page A p x x) by (done || (destruct Hg; lia)). rewrite Hpo.
  cbn [mbind option_bind sp_allocator sp_nfree sp_pobj]. rewrite (sv_alloc _ _ _ _ Hinv).
  cbn [mbind option_bind].
  rewrite (wrap_small _ (zlen l + 1)) by (unfold in_width; lia).
  destruct (decide (zlen l + 1 = 1)) as [H1|H1].
  { eexists. split_and!; [done|apply Hkept; [apply Hl1; lia|done]|done]. }
  destruct (decide (zlen l + 1 ≠ objs_per_page A)) as [H2|H2].
  { eexists. split_and!; [done|apply Hkept; [apply Hl2; lia|done]|done]. }
  destruct (decide (zlen l + 1 = objs_per_page A)) as [H3|]; [|done].
  destruct (Hl3 H3) as [Hfull Hgone].
  destruct (decide _) as [H4|H4].
  { eexists. split_and!; [done|by apply Hkept|done]. }
  destruct (ps_release_ok (hp_source h) p (sv_source _ _ _ _ Hinv)) as (src & -> & Hok & Hfree & Hfl);
    [apply Hown..|]. cbn [mbind option_bind].
  eexists. split_and!; [done|by apply Hrel|]. intros Hef. simpl in H4.
  rewrite (li_nr_full _ _ (sv_lists _ _ _ _ Hinv)), Hef in H4. done.
Qed.

(** C12. [slab_free] of a handed-out object: it succeeds, keeps the allocator's
    invariant, takes exactly that object from the ones handed out and leaves
    the memory of every other handed-out object alone.  No page is lost; the page
    allocator is touched only when the page became all free and another page already was. *)
Theorem slab_free_correct h a A G x :
  slab_inv h a A G → allocated A G x →
  ∃ h' A' G', slab_free page_map HHDM_OFFSET h x = Some h' ∧
    slab_inv h' a A' G' ∧ same_geometry A A' ∧
    (∀ y, allocated A' G' y ↔ allocated A G y ∧ y ≠ x) ∧
    (∀ y w, allocated A G y → y ≠ x → y <= w < y + real_obj_size A → hp_words h' w = hp_words h w) ∧
    others_kept h h' a ∧ (∀ q, held h' G' q ↔ held h G q) ∧
    (page_full A = [] → hp_source h' = hp_source h).
Proof.
  intros Hinv Hx. destruct (slab_free_cases h a A G x Hinv Hx) as (h' & E & (A' & G' & H) & Hs).
  exists h', A', G'. tauto.
Qed.

(** ** New allocators *)

Lemma sumG_empty f : sumG f ∅ = 0.
Proof. done. Qed.

Lemma fresh_slab_inv h a inp_size inp_align real_size (A := init_new_allocator inp_size inp_align real_size) :
  hp_slabs h !! a = Some A → geometry A → ps_ok (hp_source h) → (∀ p, ps_page p → frame_ok p) →
  slab_inv h a A ∅.
Proof.
  intros Ha Hg Hok Hfr. split; try done.
  split; simpl; try done; try constructor; try (by intros ?%elem_of_nil);
    intros (l & Hl & _); by rewrite lookup_empty in Hl.
Qed.

(** The sizes [slab_create] accepts. *)
Definition valid_size (size align : Z) : Prop :=
  Z.land align (align -ᵤ 1) = 0 ∧ 0 < size <= PAGE_SIZE / 2 ∧ 0 <= align <= PAGE_SIZE / 2.

(** The geometry of an accepted allocator. *)
Lemma create_geometry size align (al := if decide (8 > align) then 8 else align)
    (A := init_new_allocator size al (align_up size al)) :
  valid_size size align → geometry A ∧ (al | real_obj_size A) ∧ (align ≠ 0 → (align | al)) ∧ (al | PAGE_SIZE) ∧ (8 | al).
Proof.
  intros (Hl & Hs & Hal). change (PAGE_SIZE / 2) with 2048 in *.
  assert (is_pow2 8 ∧ is_pow2 2048 ∧ is_pow2 PAGE_SIZE) as (H8 & H2k & H4k)
    by (split_and!; [by exists 3|by exists 11|by exists 12]).
  assert (align ≠ 0 → is_pow2 align) as Hp by (intros ?; apply land_pred_pow2; [lia|done]).
  assert (is_pow2 al ∧ 8 <= al <= 2048 ∧ (align ≠ 0 → (align | al))) as (Ha & Har & Hd).
  { unfold al. case_decide as H; split_and!; try lia; try done.
    - intros H0. apply pow2_divide; [by apply Hp|done|lia].
    - apply Hp. lia. }
  assert (u64 size) as Hu by (unfold in_width; lia).
  destruct (align_up_spec size al Hu Ha) as [(_ & (H1 & H2 & H3) & _)|[? _]]; [|lia].
  pose proof (pow2_divide al 2048 Ha H2k ltac:(lia)) as Hd2.
  apply Z.mod_divide in H2; [|lia].
  assert (align_up size al <= 2048) by (apply H3; [lia|]; apply Z.mod_divide; [lia|done]).
  assert (al <= align_up size al) by (apply Z.divide_pos_le; [lia|done]).
  split_and!; try done; [|apply pow2_divide; [done..|unfold PAGE_SIZE; lia]|apply pow2_divide; [done..|lia]].
  split; simpl; try lia.
  - apply Z.div_le_lower_bound; unfold PAGE_SIZE; lia.
  - rewrite Z.mul_comm. apply Z.mul_div_le. lia.
Qed.

(** The objects are aligned as asked. *)
Lemma slot_aligned A p x al :
  (al | real_obj_size A) → (al | PAGE_SIZE) → (PAGE_SIZE | HHDM_OFFSET) → frame_ok p → is_slot A p x →
  (al | x).
Proof.
  intros H1 H2 H3 (pfn & H0 & -> & Hm & HH & Hle) (i & Hi & ->). rewrite page_addr_pfn by done.
  apply Z.divide_add_r; [|by apply Z.divide_mul_r]. apply Z.divide_add_r; [by etrans|].
  by apply Z.divide_mul_r.
Qed.

Lemma slab_inv_slabs h a A G slabs :
  slab_inv h a A G → slabs !! a = Some A →
  slab_inv (mkHeap (hp_source h) (hp_pages h) (hp_words h) slabs) a A G.
Proof.
  intros [H1 H2 H3 H4 H5 H6] Ha. split; try done.
  intros p l Hp. destruct (H5 p l Hp). by split.
Qed.

Section create.
(** The allocator of allocators is a static object, outside the pages. *)
Context (sa : loc) (Hstatic : ∀ p off, frame_ok p → 0 <= off < PAGE_SIZE → page_addr p + off ≠ Z.pos sa).

(** What a successful creation of [a] does. *)
Definition created (h : heap (S := S)) (A : SlabAllocator) (G : gmap loc (list Z)) (size align : Z)
    (a : loc) (h' : heap (S := S)) : Prop :=
  ∃ A' G' B,
    slab_inv h' sa A' G' ∧ (∀ y, allocated A' G' y ↔ allocated A G y ∨ y = Z.pos a) ∧
    ¬ allocated A G (Z.pos a) ∧
    slab_inv h' a B ∅ ∧ inp_obj_size B = size ∧ size <= real_obj_size B ∧
    (∀ p x, (PAGE_SIZE | HHDM_OFFSET) → frame_ok p → is_slot B p x →
       (8 | x) ∧ (align ≠ 0 → (align | x))) ∧
    ∀ b C K, allocated A G (Z.pos b) → slab_inv h b C K → slab_inv h' b C K.

Lemma not_static h A G b : slab_inv h sa A G → allocated A G (Z.pos b) → b ≠ sa.
Proof.
  intros Hinv (p & l & Hp & (i & Hi & E) & _) ->. destruct (sv_geometry _ _ _ _ Hinv) as [H1 H2 H3 H4].
  apply (Hstatic p (i * real_obj_size A)); [|nia|done].
  apply (pi_frame _ _ _ _ _ (sv_pages _ _ _ _ Hinv p l Hp)).
Qed.

Lemma slab_create_cases h A G globals size align :
  slab_inv h sa A G → 0 <= size → 0 <= align →
  (¬ valid_size size align →
   slab_create page_map HHDM_OFFSET h globals sa size align = Some (None, h, globals)) ∧
  (valid_size size align →
   (slab_create page_map HHDM_OFFSET h globals sa size align = Some (None, h, globals) ∧ nfree A = 0) ∨
   ∃ a h', slab_create page_map HHDM_OFFSET h globals sa size align = Some (Some a, h', globals ++ [a]) ∧
     created h A G size align a h').
Proof.
  intros Hinv Hs0 Ha0. unfold slab_create, valid_size. split.
  { intros Hbad. destruct (decide (Z.land _ _ ≠ 0)) as [|H1]; [done|]. destruct (decide (_ ∨ _)); [done|].
    destruct (decide (size = 0)); [done|]. exfalso. apply Hbad. split_and!; lia. }
  intros Hv. pose proof Hv as (Hv1 & Hv2 & Hv3). rewrite !decide_False by (lia || tauto).
  destruct (create_geometry size align Hv) as (Hg & Hd1 & Hd2 & Hd3 & Hd8).
  set (al := if decide (8 > align) then 8 else align) in *.
  destruct (slab_alloc_cases h sa A G ALLOC_KERNEL Hinv) as [[-> Hnf]|(x & h' & -> & A' & G' & H)].
  { by left. }
  destruct H as (Hinv' & Hsame & Hna & Hall & _ & _ & Hothers & _).
  cbn [mbind option_bind].
  assert (allocated A' G' x) as Hx by (apply Hall; by right).
  assert (0 < x) as Hx0.
  { destruct Hx as (p & l & Hp & Hx & _).
    pose proof (pi_frame _ _ _ _ _ (sv_pages _ _ _ _ Hinv' p l Hp)) as Hf.
    pose proof (slot_nonnull A' p x (sv_geometry _ _ _ _ Hinv') Hf Hx). lia. }
  right. eexists (Z.to_pos x), _. split; [done|].
  exists A', G', (init_new_allocator size al (align_up size al)). rewrite Z2Pos.id by lia.
  split_and!; try done.
  - apply slab_inv_slabs; [done|]. rewrite lookup_insert_ne; [apply Hinv'|].
    apply (not_static h' A' G'); [done|]. by rewrite Z2Pos.id by lia.
  - apply fresh_slab_inv; [by apply lookup_insert_eq|done|apply Hinv'|apply Hinv'].
  - apply Hg.
  - intros q y HH Hq Hy. pose proof (slot_aligned _ q y al Hd1 Hd3 HH Hq Hy). split; [by etrans|].
    intros Hne. etrans; [by apply Hd2|done].
  - intros b C K Hb Hinvb. destruct (Hothers b C K) as [Hinvb' _]; [by apply (not_static h A G)|done|].
    apply slab_inv_slabs; [done|]. rewrite lookup_insert_ne; [apply Hinvb'|].
    intros <-. apply Hna. by rewrite Z2Pos.id in Hb by lia.
Qed.

(** C13. [slab_create] rejects exactly the alignments that are no power of two,
    objects or alignments over half a page, and empty objects.  Otherwise,
    unless memory for the allocator runs out, it makes an allocator that
    satisfies the invariant, with at least two objects in a page, each at least
    as large and as aligned as asked, and appends it to the list of all
    allocators; the allocator of allocators and the allocators made before keep
    their own invariants. *)
Theorem slab_create_correct h A G globals size align :
  slab_inv h sa A G → 0 <= size → 0 <= align →
  (¬ valid_size size align →
   slab_create page_map HHDM_OFFSET h globals sa size align = Some (None, h, globals)) ∧
  (valid_size size align →
   (slab_create page_map HHDM_OFFSET h globals sa size align = Some (None, h, globals) ∧ nfree A = 0) ∨
   ∃ a h' A' G' B, slab_create page_map HHDM_OFFSET h globals sa size align = Some (Some a, h', globals ++ [a]) ∧
     slab_inv h' sa A' G' ∧ (∀ y, allocated A' G' y ↔ allocated A G y ∨ y = Z.pos a) ∧
     ¬ allocated A G (Z.pos a) ∧
     slab_inv h' a B ∅ ∧ inp_obj_size B = size ∧ size <= real_obj_size B ∧
     (∀ p x, (PAGE_SIZE | HHDM_OFFSET) → frame_ok p → is_slot B p x →
        (8 | x) ∧ (align ≠ 0 → (align | x))) ∧
     ∀ b C K, allocated A G (Z.pos b) → slab_inv h b C K → slab_inv h' b C K).
Proof.
  intros Hinv Hs Ha. destruct (slab_create_cases h A G globals size align Hinv Hs Ha) as [H1 H2].
  split; [done|]. intros [?|(a & h' & E & A' & G' & B & H)]%H2; [by left|].
  right. by exists a, h', A', G', B.
Qed.

(** The allocators [l] serve the sizes, and are objects of [sa]. *)
Definition serve (h : heap (S := S)) (A : SlabAllocator) (G : gmap loc (list Z)) (sizes : list Z)
    (l : list loc) : Prop :=
  Forall2 (λ size a, allocated A G (Z.pos a) ∧ ∃ B, slab_inv h a B ∅ ∧ inp_obj_size B = size) sizes l.

Lemma create_slabs_correct sizes : ∀ h A G globals,
  slab_inv h sa A G → Forall (λ s, valid_size s s) sizes →
  (∃ h' gl, create_slabs page_map HHDM_OFFSET h globals sa sizes = Some (None, h', gl)) ∨
  ∃ l h' A' G', create_slabs page_map HHDM_OFFSET h globals sa sizes = Some (Some l, h', globals ++ l) ∧
    slab_inv h' sa A' G' ∧ serve h' A' G' sizes l ∧ NoDup l ∧
    (∀ y, allocated A' G' y ↔ allocated A G y ∨ ∃ a, a ∈ l ∧ y = Z.pos a) ∧
    (∀ a, a ∈ l → ¬ allocated A G (Z.pos a)) ∧
    ∀ b C K, allocated A G (Z.pos b) → slab_inv h b C K → slab_inv h' b C K.
Proof.
  induction sizes as [|s sizes IH]; intros h A G globals Hinv Hv.
  { right. exists [], h, A, G. simpl. rewrite app_nil_r. split_and!; try done; [constructor|constructor| |].
    - intros y. set_solver.
    - set_solver. }
  apply Forall_cons in Hv as [Hv Hvs]. cbn [create_slabs].
  destruct (slab_create_cases h A G globals s s Hinv) as [_ Hc]; [destruct Hv; lia..|].
  destruct (Hc Hv) as [[-> _]|(a & h1 & -> & A1 & G1 & B & Hinv1 & Hall1 & Hna & HB & Hsz & _ & _ & Hkeep)];
    cbn [mbind option_bind].
  { left. eauto. }
  destruct (IH h1 A1 G1 (globals ++ [a]) Hinv1 Hvs) as
    [(h' & gl & ->)|(l & h' & A' & G' & -> & Hinv' & Hserve & Hnd & Hall' & Hfresh & Hkeep')];
    cbn [mbind option_bind option_map].
  { left. eauto. }
  right. exists (a :: l), h', A', G'. rewrite <-app_assoc. split_and!; try done.
  - constructor; [|done]. split; [apply Hall'; left; apply Hall1; by right|].
    exists B. split; [|done]. apply Hkeep'; [|done]. apply Hall1. by right.
  - apply NoDup_cons. split; [|done]. intros Hin%Hfresh. apply Hin, Hall1. by right.
  - intros y. rewrite Hall', Hall1. setoid_rewrite elem_of_cons. naive_solver.
  - intros b [->|Hb]%elem_of_cons; [done|]. intros Hb'. apply (Hfresh b Hb), Hall1. by left.
  - intros b C K Hb HK. apply Hkeep'; [apply Hall1; by left|]. by apply Hkeep.
Qed.

(** [kmalloc_init] either panics (memory for an allocator ran out) or makes
    nine different allocators, one for each size class in order, each with its
    invariant, and lists them all. *)
Theorem kmalloc_init_correct h globals :
  ps_ok (hp_source h) → (∀ p, ps_page p → frame_ok p) →
  (∃ h' gl, kmalloc_init page_map HHDM_OFFSET h globals sa = Some (None, h', gl)) ∨
  ∃ l h' A G, kmalloc_init page_map HHDM_OFFSET h globals sa = Some (Some l, h', globals ++ l) ∧
    slab_inv h' sa A G ∧ NoDup l ∧ (∀ y, allocated A G y ↔ ∃ a, a ∈ l ∧ y = Z.pos a) ∧
    Forall2 (λ size a, ∃ B, slab_inv h' a B ∅ ∧ inp_obj_size B = size) kmalloc_sizes l.
Proof.
  intros Hok Hfr. unfold kmalloc_init. set (A := init_new_allocator _ _ _). set (h0 := mkHeap _ _ _ _).
  assert (slab_inv h0 sa A ∅) as Hinv.
  { apply fresh_slab_inv; try done. by apply lookup_insert_eq. }
  destruct (create_slabs_correct kmalloc_sizes h0 A ∅ globals Hinv) as
    [|(l & h' & A' & G' & E & Hinv' & Hserve & Hnd & Hall & _)]; [|by left|].
  { unfold kmalloc_sizes. repeat (apply Forall_cons; split; [by split_and!|]). by apply Forall_nil. }
  right. exists l, h', A', G'. split_and!; try done.
  - intros y. rewrite Hall. split; [|auto]. intros [(p & l' & Hp & _)|?]; [by rewrite lookup_empty in Hp|done].
  - eapply Forall2_impl; [done|]. naive_solver.
Qed.

End create.

(** ** The size classes of [kmalloc] *)

(** [i] is the first class that [size] fits. *)
Definition class_of (size : Z) (i : nat) : Prop :=
  ∃ s, kmalloc_sizes !! i = Some s ∧ size <= s ∧
    ∀ j s', (j < i)%nat → kmalloc_sizes !! j = Some s' → s' < size.

Lemma size_class_spec sizes size k :
  match size_class k sizes size with
  | Some i => ∃ j s, i = (k + j)%nat ∧ sizes !! j = Some s ∧ size <= s ∧
      ∀ j' s', (j' < j)%nat → sizes !! j' = Some s' → s' < size
  | None => ∀ j s, sizes !! j = Some s → s < size
  end.
Proof.
  revert k. induction sizes as [|s sizes IH]; intros k; simpl; [done|].
  case_decide as Hs; [exists 0%nat, s; split_and!; [lia|done|lia|lia]|].
  specialize (IH (Datatypes.S k)). destruct (size_class (Datatypes.S k) sizes size) as [i|].
  - destruct IH as (j & s1 & -> & Hj & Hle & Hlt). exists (Datatypes.S j), s1. split_and!; [lia|done|done|].
    intros [|j'] s' Hj' E; simpl in E; [injection E as <-; lia|]. apply (Hlt j'); [lia|done].
  - intros [|j] s' E; simpl in E; [injection E as <-; lia|]. by apply (IH j).
Qed.

Lemma class_of_size_class size i : class_of size i → size_class 0 kmalloc_sizes size = Some i.
Proof.
  intros (s & Hi & Hle & Hlt). pose proof (size_class_spec kmalloc_sizes size 0) as Hc.
  destruct (size_class 0 kmalloc_sizes size) as [k|].
  - destruct Hc as (j & s' & -> & Hj & Hle' & Hlt'). f_equal.
    destruct (decide (j < i)%nat); [specialize (Hlt j s' ltac:(lia) Hj); lia|].
    destruct (decide (i < j)%nat); [specialize (Hlt' i s ltac:(lia) Hi); lia|]. lia.
  - specialize (Hc i s Hi). lia.
Qed.

(** C14. [kmalloc] fails for more than 2048 bytes; every smaller request has a
    first size class it fits, and the object comes from the allocator of that
    class, under its invariant: not handed out before, other objects and
    allocators untouched.  [kfree] of the object succeeds and leaves exactly
    the objects handed out that were before. *)
Theorem kmalloc_kfree h (kmalloc_slabs : nat → loc) size aclass :
  (2048 < size → kmalloc page_map HHDM_OFFSET h kmalloc_slabs size aclass = Some (None, h)) ∧
  (size <= 2048 → ∃ i, class_of size i ∧ ∀ A G, slab_inv h (kmalloc_slabs i) A G →
     (kmalloc page_map HHDM_OFFSET h kmalloc_slabs size aclass = Some (None, h) ∧ nfree A = 0) ∨
     ∃ x h1 h2 A2 G2, kmalloc page_map HHDM_OFFSET h kmalloc_slabs size aclass = Some (Some x, h1) ∧
       handed_out h (kmalloc_slabs i) A G aclass x h1 ∧
       kfree page_map HHDM_OFFSET h1 x = Some h2 ∧ slab_inv h2 (kmalloc_slabs i) A2 G2 ∧
       ∀ y, allocated A2 G2 y ↔ allocated A G y).
Proof.
  pose proof (size_class_spec kmalloc_sizes size 0) as Hc. unfold kmalloc. split.
  - intros Hs. destruct (size_class 0 kmalloc_sizes size) as [i|]; [|done].
    destruct Hc as (j & s & _ & Hj & Hle & _). exfalso.
    apply list_elem_of_lookup_2 in Hj. unfold kmalloc_sizes in Hj.
    repeat (apply elem_of_cons in Hj as [->|Hj]; [lia|]). by apply elem_of_nil in Hj.
  - intros Hs. destruct (size_class 0 kmalloc_sizes size) as [i|]; [|specialize (Hc 8%nat 2048 eq_refl); lia].
    destruct Hc as (j & s & -> & Hj & Hle & Hlt). exists (0 + j)%nat. split; [by exists s|].
    intros A G Hinv.
    destruct (slab_alloc_cases h (kmalloc_slabs (0 + j)%nat) A G aclass Hinv) as [?|(x & h1 & E & H)];
      [by left|right].
    pose proof H as (A1 & G1 & Hinv1 & Hsame1 & Hna & Hall1 & _).
    assert (allocated A1 G1 x) as Hx by (apply Hall1; by right).
    destruct (slab_free_cases h1 _ A1 G1 x Hinv1 Hx) as (h2 & E2 & (A2 & G2 & Hinv2 & _ & Hall2 & _) & _).
    exists x, h1, h2, A2, G2. split_and!; try done.
    + unfold kfree. destruct Hx as (p & l & Hp & Hx & _). rewrite decide_False; [done|].
      pose proof (slot_nonnull A1 p x (sv_geometry _ _ _ _ Hinv1)
        (pi_frame _ _ _ _ _ (sv_pages _ _ _ _ Hinv1 p l Hp)) Hx). lia.
    + intros y. rewrite Hall2, Hall1. naive_solver.
Qed.

(** Every object handed out is recognised as one. *)
Lemma allocated_is_slab h a A G x :
  slab_inv h a A G → allocated A G x → ptr_is_slab page_map HHDM_OFFSET h x = true.
Proof.
  intros Hinv (p & l & Hp & Hx & _). destruct (sv_pages _ _ _ _ Hinv p l Hp) as [_ _ _ Hf _ Hfl].
  pose proof (sv_geometry _ _ _ _ Hinv) as Hg. unfold ptr_is_slab.
  rewrite (slot_page A p x x), Hfl by (done || (destruct Hg; lia)). done.
Qed.

End slab.
