(* ===== verification/SlabPages.v ===== *)
(** * The slab allocator over the page allocator

    [PageAlloc] implements the interface the slab allocator needs, so the
    theorems of [SlabOps] hold of the two together; then [slab_create], the
    [kmalloc] size classes, and a concrete heap. *)

From S2P Require Import Prelude Align LinkedList PageAlloc Slab SlabOps.

Section instance.
Local Open Scope Z_scope.
Context (page_map : Z) (zone_head : Z → loc).
Context (Hinj : ∀ z1 z2, is_zone z1 → is_zone z2 → zone_head z1 = zone_head z2 → z1 = z2).

(** The managed pages; the list heads are not among them. *)
Context (M : gset loc) (HM : ∀ z, is_zone z → zone_head z ∉ M).

Definition pages_ok (s : pgalloc) (F : Z → list loc) : Prop :=
  pg_wf page_map zone_head s F ∧ M ⊆ dom (pg_lists s) ∧ ∀ z p, is_zone z → p ∈ F z → p ∈ M.

Definition page_is_free (s : pgalloc) (p : loc) : Prop :=
  ∃ z xs, is_zone z ∧ list_elements (pg_lists s) (zone_head z) = Some xs ∧ p ∈ xs.

Definition set_page_flags (s : pgalloc) (p : loc) (v : Z) : pgalloc :=
  mkPg (pg_lists s) (zone_count s) (total_free_pages s) (<[p := v]> (page_flags s)) (contents s).

Lemma page_is_free_spec s F p :
  pg_wf page_map zone_head s F → page_is_free s p ↔ ∃ z, is_zone z ∧ p ∈ F z.
Proof.
  intros Hwf. assert (∀ z, is_zone z → list_elements (pg_lists s) (zone_head z) = Some (F z)) as He.
  { intros z Hz. apply elements_spec, (pg_ok _ _ _ _ Hwf). by apply heads_lookup. }
  split.
  - intros (z & xs & Hz & E & Hp). rewrite He in E by done. injection E as <-. eauto.
  - intros (z & Hz & Hp). exists z, (F z). auto.
Qed.

(** Which pages are on the lists. *)
Lemma on_list_free F p :
  p ∈ M → on_list (heads zone_head F) p ↔ ∃ z, is_zone z ∧ p ∈ F z.
Proof.
  intros Hp. split.
  - intros (h & xs & Hh & Hx). unfold heads in Hh.
    assert (∃ z, is_zone z ∧ h = zone_head z) as (z & Hz & ->).
    { unfold is_zone. destruct (decide (h = zone_head 0)); [eauto|].
      destruct (decide (h = zone_head 1)); [eauto|]. destruct (decide (h = zone_head 2)); [eauto|].
      by rewrite !lookup_insert_ne, lookup_singleton_ne in Hh. }
    exists z. split; [done|]. fold (heads zone_head F) in Hh. rewrite heads_lookup in Hh by done.
    injection Hh as <-. apply elem_of_cons in Hx as [->|]; [|done]. by destruct (HM z).
  - intros (z & Hz & Hx). exists (zone_head z), (F z). rewrite heads_lookup by done. set_solver.
Qed.

Lemma alloc_page_source s F c :
  pages_ok s F →
  alloc_page zone_head s c = Some (None, s) ∨
  ∃ p s' F', alloc_page zone_head s c = Some (Some p, s') ∧ pages_ok s' F' ∧ p ∈ M ∧ page_is_free s p ∧
    (∀ q, page_is_free s' q ↔ page_is_free s q ∧ q ≠ p) ∧ page_flags s' = page_flags s.
Proof.
  intros (Hwf & Hdom & HF). unfold alloc_page, num_page_zones.
  destruct (alloc_loop_spec page_map zone_head Hinj s F (allocation_zone c) 3 Hwf) as
    [[_ ->]|(z & p & l & s' & Hfn & Hz & -> & Hwf' & Hoff & _ & Hfl & _ & Hd)].
  { apply allocation_zone_is_zone. }
  { unfold zone_chain. repeat case_decide; simpl; lia. }
  { by left. }
  right. cbn [mbind option_bind].
  assert (is_zone z) as Hzone.
  { destruct Hfn as (b & a & Hch & _).
    assert (z ∈ zone_chain (allocation_zone c)) as Hin by (rewrite Hch; set_solver).
    unfold zone_chain, is_zone in *. repeat case_decide; set_solver. }
  assert (p ∈ M) as HpM by (apply (HF z); [done|]; rewrite Hz; set_solver).
  assert (∀ z' q, is_zone z' → q ∈ set_list F z l z' ↔ q ∈ F z' ∧ q ≠ p) as HF'.
  { intros z' q Hz'. split.
    - intros Hq. split; [unfold set_list in Hq; case_decide; subst; rewrite ?Hz; set_solver|].
      intros ->. apply Hoff. apply on_list_free; [done|]. eauto.
    - intros [Hq Hne]. unfold set_list. case_decide; [|done]. subst. rewrite Hz in Hq. set_solver. }
  set (s2 := if decide _ then _ else _).
  assert (pg_wf page_map zone_head s2 (set_list F z l) ∧ pg_lists s2 = pg_lists s' ∧
          page_flags s2 = page_flags s') as (Hwf2 & Hl2 & Hf2).
  { unfold s2. destruct Hwf' as [H1 H2 H3 H4]. case_decide; (split_and!; [by split|done..]). }
  exists p, s2, (set_list F z l). split_and!; try done.
  - split_and!; [done|by rewrite Hl2, Hd|]. intros z' q Hz' [Hq _]%HF'; [|done]. by apply (HF z').
  - apply (page_is_free_spec s F); [done|]. exists z. split; [done|]. rewrite Hz. set_solver.
  - intros q. rewrite (page_is_free_spec s2 _ q Hwf2), (page_is_free_spec s F q Hwf).
    clear -HF'. naive_solver.
  - by rewrite Hf2.
Qed.

Lemma free_page_source s F p :
  pages_ok s F → p ∈ M → ¬ page_is_free s p →
  ∃ s' F', free_page page_map zone_head s p = Some s' ∧ pages_ok s' F' ∧
    (∀ q, page_is_free s' q ↔ page_is_free s q ∨ q = p) ∧ page_flags s' = <[p := 0]> (page_flags s).
Proof.
  intros (Hwf & Hdom & HF) Hp Hnf. rewrite (page_is_free_spec s F) in Hnf by done.
  destruct (free_page_wf page_map zone_head Hinj s F p Hwf) as (s' & E & Hwf' & Hfl & _ & Hd & _).
  { by rewrite on_list_free. }
  { apply elem_of_dom. set_solver. }
  set (z := page_zone page_map p) in *.
  assert (is_zone z) as Hz by apply phys_to_zone_is_zone.
  assert (∀ z' q, q ∈ set_list F z (p :: F z) z' ↔ q ∈ F z' ∨ (z' = z ∧ q = p)) as HF'.
  { intros z' q. unfold set_list. case_decide; [subst; rewrite elem_of_cons|]; naive_solver. }
  exists s', (set_list F z (p :: F z)). split_and!; try done.
  - split_and!; [done|by rewrite Hd|]. intros z' q Hz' [Hq|[_ ->]]%HF'; [by apply (HF z')|done].
  - intros q. rewrite (page_is_free_spec s' _ q Hwf'), (page_is_free_spec s F q Hwf).
    setoid_rewrite HF'. clear -Hz. naive_solver.
Qed.

#[refine] Instance page_source : PageSource pgalloc := {|
  ps_ok s := ∃ F, pages_ok s F;
  ps_page p := p ∈ M;
  ps_free := page_is_free;
  ps_alloc := alloc_page zone_head;
  ps_release := free_page page_map zone_head;
  ps_flags s p := default 0 (page_flags s !! p);
  ps_set_flags := set_page_flags;
|}.
Proof.
  - intros s c [F HF]. destruct (alloc_page_source s F c HF) as [|(p & s' & F' & E & H1 & H2 & H3 & H4 & H5)].
    + by left.
    + right. exists p, s'. rewrite H5. eauto 10.
  - intros s p [F HF] Hp Hnf. destruct (free_page_source s F p HF Hp Hnf) as (s' & F' & E & H1 & H2 & H3).
    exists s'. split_and!; [done|by exists F'|done|]. intros q Hne. by rewrite H3, lookup_insert_ne.
  - intros s p v [F (Hwf & Hd & HF)] _ _. split_and!.
    + exists F. split_and!; [|done|done]. destruct Hwf. by split.
    + done.
    + intros q. simpl. case_decide; subst; [by rewrite lookup_insert_eq|by rewrite lookup_insert_ne].
Defined.

End instance.

(** ** A concrete heap

    The page allocator of the example in [PageAlloc], and one allocator, at
    address 5, of 40-byte objects in 64-byte slots. *)

Local Open Scope Z_scope.

Definition ex_M : gset loc := {[ex_low; ex_used; ex_mid]}.

Lemma ex_M_heads z : is_zone z → ex_head z ∉ ex_M.
Proof. intros [-> | [-> | ->]]; by apply (bool_decide_unpack _). Qed.

Definition ex_source : PageSource pgalloc := page_source 1000 ex_head ex_head_inj ex_M ex_M_heads.
Definition ex_hhdm : Z := 2 ^ 64 - 2 ^ 47.
Definition ex_slab : SlabAllocator := init_new_allocator 40 8 64.
Definition ex_heap : heap := mkHeap ex_pg ∅ (λ _, 7) {[5%positive := ex_slab]}.

Lemma ex_frames p : ps_page (PageSource := ex_source) p → frame_ok 1000 ex_hhdm p.
Proof.
  intros Hp. apply elem_of_union in Hp as [Hp|Hp]; [apply elem_of_union in Hp as [Hp|Hp]|];
    apply elem_of_singleton in Hp as ->; [exists 1|exists 2|exists 256]; split_and!; done.
Qed.

Lemma ex_pages_ok : ps_ok (PageSource := ex_source) ex_pg.
Proof.
  exists ex_free. split_and!; [exact ex_pg_wf|by apply (bool_decide_unpack _)|].
  intros z p [-> | [-> | ->]] Hp; simpl in Hp; [by apply elem_of_nil in Hp|..];
    apply list_elem_of_singleton in Hp as ->; by apply (bool_decide_unpack _).
Qed.

Lemma ex_heap_inv : slab_inv (PageSource0 := ex_source) 1000 ex_hhdm ex_heap 5 ex_slab ∅.
Proof. apply fresh_slab_inv; [done|split; done|exact ex_pages_ok|exact ex_frames]. Qed.

(** The first object comes from the page at 1 MiB. *)
Definition ex_object : Z := ex_hhdm + 2 ^ 20.
Definition ex_heap1 : heap :=
  match slab_alloc (PageSource0 := ex_source) 1000 ex_hhdm ex_heap 5 ALLOC_ZERO with
  | Some (_, h) => h
  | None => ex_heap
  end.

Lemma ex_alloc_object :
  slab_alloc (PageSource0 := ex_source) 1000 ex_hhdm ex_heap 5 ALLOC_ZERO = Some (Some ex_object, ex_heap1).
Proof.
  assert (fst <$> slab_alloc (PageSource0 := ex_source) 1000 ex_hhdm ex_heap 5 ALLOC_ZERO =
          Some (Some ex_object)) as E by (vm_compute; reflexivity).
  unfold ex_heap1. destruct (slab_alloc _ _ ex_heap 5 ALLOC_ZERO) as [[x h]|]; [|done].
  simpl in E. by injection E as ->.
Qed.

Lemma ex_heap1_inv :
  handed_out (PageSource0 := ex_source) 1000 ex_hhdm ex_heap 5 ex_slab ∅ ALLOC_ZERO ex_object ex_heap1.
Proof.
  destruct (slab_alloc_cases (PageSource0 := ex_source) 1000 ex_hhdm ex_heap 5 ex_slab ∅ ALLOC_ZERO
    ex_heap_inv) as [[E _]|(x & h' & E & H)]; rewrite ex_alloc_object in E; [done|].
  by injection E as <- <-.
Qed.

Lemma slab_alloc_correct_witness :
  slab_inv (PageSource0 := ex_source) 1000 ex_hhdm ex_heap 5 ex_slab ∅ ∧
  ∃ A' G', slab_inv (PageSource0 := ex_source) 1000 ex_hhdm ex_heap1 5 A' G' ∧
    (∀ y, allocated 1000 ex_hhdm A' G' y ↔ allocated 1000 ex_hhdm ex_slab ∅ y ∨ y = ex_object) ∧
    ∀ w, ex_object <= w < ex_object + 40 → hp_words ex_heap1 w = 0.
Proof.
  split; [exact ex_heap_inv|].
  destruct (slab_alloc_correct (PageSource0 := ex_source) 1000 ex_hhdm ex_heap 5 ex_slab ∅ ALLOC_ZERO
    ex_heap_inv) as [[E _]|(x & h' & A' & G' & E & H)]; rewrite ex_alloc_object in E; [discriminate E|].
  injection E as <- <-. exists A', G'. destruct H as (H1 & H2 & H3 & H4 & H5 & H6 & H7).
  split; [exact H1|]. split; [exact H4|]. apply H6. discriminate.
Defined.

Lemma slab_free_correct_witness :
  ∃ A G h' A' G', slab_inv (PageSource0 := ex_source) 1000 ex_hhdm ex_heap1 5 A G ∧
    allocated 1000 ex_hhdm A G ex_object ∧
    slab_free (PageSource0 := ex_source) 1000 ex_hhdm ex_heap1 ex_object = Some h' ∧
    slab_inv (PageSource0 := ex_source) 1000 ex_hhdm h' 5 A' G' ∧
    ∀ y, allocated 1000 ex_hhdm A' G' y ↔ allocated 1000 ex_hhdm A G y ∧ y ≠ ex_object.
Proof.
  destruct ex_heap1_inv as (A & G & Hinv & _ & _ & Hall & _).
  assert (allocated 1000 ex_hhdm A G ex_object) as Hx by (apply Hall; by right).
  destruct (slab_free_correct (PageSource0 := ex_source) 1000 ex_hhdm ex_heap1 5 A G ex_object Hinv Hx)
    as (h' & A' & G' & E & H1 & _ & H3 & _).
  exists A, G, h', A', G'. split_and!; assumption.
Defined.

Lemma ex_static p off :
  frame_ok 1000 ex_hhdm p → 0 <= off < PAGE_SIZE → page_to_virt 1000 ex_hhdm p + off ≠ 5.
Proof.
  intros (pfn & H0 & -> & Hm & HH & Hle) Ho. rewrite page_addr_pfn by done.
  unfold ex_hhdm, PAGE_SIZE in *. lia.
Qed.

Lemma slab_create_correct_witness :
  valid_size 24 16 ∧ ¬ valid_size 24 12 ∧
  ∃ a h' B, slab_create (PageSource0 := ex_source) 1000 ex_hhdm ex_heap [] 5 24 16 = Some (Some a, h', [a]) ∧
    slab_inv (PageSource0 := ex_source) 1000 ex_hhdm h' a B ∅ ∧ inp_obj_size B = 24.
Proof.
  assert (valid_size 24 16) as Hv by (split_and!; vm_compute; done).
  split; [exact Hv|]. split; [intros [H _]; discriminate H|].
  assert ((λ r, r.1.1) <$> slab_create (PageSource0 := ex_source) 1000 ex_hhdm ex_heap [] 5 24 16 =
          Some (Some (Z.to_pos ex_object))) as E by (vm_compute; reflexivity).
  destruct (slab_create_correct (PageSource0 := ex_source) 1000 ex_hhdm 5 ex_static ex_heap ex_slab ∅ [] 24 16
    ex_heap_inv ltac:(lia) ltac:(lia)) as [_ Hc].
  destruct (Hc Hv) as [[E' _]|(a & h' & A' & G' & B & E' & H1 & H2 & H3 & H4 & H5 & _)].
  - rewrite E' in E. discriminate E.
  - exists a, h', B. split_and!; assumption.
Defined.

Lemma kmalloc_init_correct_witness :
  ∃ l h', kmalloc_init (PageSource0 := ex_source) 1000 ex_hhdm ex_heap [] 5 = Some (Some l, h', l) ∧
    length l = 9%nat ∧
    Forall2 (λ size a, ∃ B, slab_inv (PageSource0 := ex_source) 1000 ex_hhdm h' a B ∅ ∧ inp_obj_size B = size)
      kmalloc_sizes l.
Proof.
  assert ((λ r, bool_decide (r.1.1 = None)) <$>
          kmalloc_init (PageSource0 := ex_source) 1000 ex_hhdm ex_heap [] 5 = Some false) as E
    by (vm_compute; reflexivity).
  destruct (kmalloc_init_correct (PageSource0 := ex_source) 1000 ex_hhdm 5 ex_static ex_heap []
    ex_pages_ok ex_frames) as [(h' & gl & E')|(l & h' & A & G & E' & _ & _ & _ & H)].
  - rewrite E' in E. discriminate E.
  - exists l, h'. split; [exact E'|]. split; [by rewrite <-(Forall2_length _ _ _ H)|exact H].
Defined.

Lemma kmalloc_kfree_witness :
  kmalloc (PageSource0 := ex_source) 1000 ex_hhdm ex_heap (λ _, 5%positive) 4000 ALLOC_KERNEL =
    Some (None, ex_heap) ∧
  ∃ x h1 h2, kmalloc (PageSource0 := ex_source) 1000 ex_hhdm ex_heap (λ _, 5%positive) 40 ALLOC_ZERO =
      Some (Some x, h1) ∧ kfree (PageSource0 := ex_source) 1000 ex_hhdm h1 x = Some h2.
Proof.
  split.
  - apply (kmalloc_kfree (PageSource0 := ex_source) 1000 ex_hhdm ex_heap (λ _, 5%positive) 4000 ALLOC_KERNEL).
    lia.
  - destruct (proj2 (kmalloc_kfree (PageSource0 := ex_source) 1000 ex_hhdm ex_heap (λ _, 5%positive) 40
      ALLOC_ZERO) ltac:(lia)) as (i & _ & H).
    destruct (H ex_slab ∅ ex_heap_inv) as [[E _]|(x & h1 & h2 & A2 & G2 & E & _ & E2 & _)].
    + change (slab_alloc (PageSource0 := ex_source) 1000 ex_hhdm ex_heap 5 ALLOC_ZERO =
              Some (None, ex_heap)) in E. rewrite ex_alloc_object in E. discriminate E.
    + exists x, h1, h2. split; assumption.
Defined.
