(* ===== verification/Pgtable.v ===== *)
(** * Page tables ([asm/pgtable.h], [asm/pgtable_modify.h], [mm/tlb.cc])

    The page-table entries of x86-64 and the walk through the tables.  A table
    is known by its virtual address in the direct map, a pointer to an entry is
    a table and an index; [tables] holds the tables that are allocated, by
    index to the entries that are not zero, and an access to anything else is
    undefined ([None]).  Pages come from the interface [PageSource].  The
    operations run one after the other. *)

From S2P Require Import Prelude Align LinkedList PageAlloc.
From S2P Require Export Slab.

Section pgtable_defs.
Local Open Scope Z_scope.

(** ** Entries ([asm/pg_bits.h], [asm/pgtable.h]) *)

Definition PG_PRESENT : Z := 1.
Definition PG_WRITE : Z := 2.
Definition PG_USER : Z := 4.
Definition PG_GLOBAL : Z := 256.
Definition PG_ADDR_MASK : Z := 4503599627366400. (* 0x000ffffffffff000 *)

Definition phys_addr (value : Z) : Z := Z.land value PG_ADDR_MASK.
Definition pte_empty (value : Z) : bool := bool_decide (value = 0).
Definition readable (value : Z) : bool := bool_decide (Z.land value PG_PRESENT ≠ 0).
Definition writable (value : Z) : bool :=
  bool_decide (Z.land value (Z.lor PG_PRESENT PG_WRITE) = Z.lor PG_PRESENT PG_WRITE).

Definition PAGE_KERNEL_PGTABLE : Z := Z.lor PG_PRESENT PG_WRITE.
Definition PAGE_KERNEL_DATA (x86_nx_bit : Z) : Z :=
  Z.lor (Z.lor (Z.lor PG_PRESENT PG_WRITE) PG_GLOBAL) x86_nx_bit.

Inductive page_cache_mode := pcm_writeback | pcm_writethrough | pcm_uc_minus | pcm_uncached | pcm_writecombine.

(** The bits the boot code found for the cache modes and for no-execute. *)
Record pg_config := mkPgConfig {
  x86_nx_bit : Z; PG_WT : Z; PG_UC_MINUS : Z; PG_UC : Z; PG_WC : Z }.

Definition pcm_pteval (c : pg_config) (pcm : page_cache_mode) : Z :=
  match pcm with
  | pcm_writethrough => PG_WT c
  | pcm_uc_minus => PG_UC_MINUS c
  | pcm_uncached => PG_UC c
  | pcm_writecombine => PG_WC c
  | pcm_writeback => 0
  end.

Definition make_pte_k (phys flags : Z) : Z :=
  Z.lor phys (if decide (Z.land flags PG_PRESENT ≠ 0) then Z.lor flags PG_GLOBAL else flags).

Definition make_io_pte (c : pg_config) (phys : Z) (pcm : page_cache_mode) : Z :=
  make_pte_k phys (Z.lor (PAGE_KERNEL_DATA (x86_nx_bit c)) (pcm_pteval c pcm)).

(** ** Indices and boundaries *)

Definition pgtable_index (addr : Z) (level : nat) : Z :=
  Z.land (Z.shiftr addr (3 + 9 * Z.of_nat level)) 511.

Definition pgtable_entry_size (level : nat) : Z := shl64 1 (3 + 9 * Z.of_nat level).

Definition pgtable_boundary_next (start stop : Z) (level : nat) : Z :=
  let entry_size := pgtable_entry_size level in
  let start := Z.land start (not64 (entry_size -ᵤ 1)) in
  let start := start +ᵤ entry_size in
  if decide (stop ≠ 0 ∧ stop < start) then stop else start.

Definition max_pgtable_level (la57 : bool) : nat := if la57 then 5 else 4.

(** Where the boot code puts the kernel's virtual mappings. *)
Definition KERNEL_VM_FIRST (la57 : bool) : Z := if la57 then 0xff90000000000000 else 0xffffe00000000000.
Definition KERNEL_VM_LAST (la57 : bool) : Z := if la57 then 0xffcfffffffffffff else 0xffffefffffffffff.

(** ** The accumulator of TLB flushes; the list of pages is a sequence *)

Record tlb_accumulator := mkTlb { flush_range_start : Z; flush_range_end : Z; deferred_pages : list loc }.

Definition tlb_begin_kernel (t : tlb_accumulator) : tlb_accumulator := mkTlb 0 0 (deferred_pages t).

Definition tlb_add_range (t : tlb_accumulator) (start stop : Z) : tlb_accumulator :=
  if decide (flush_range_start t = flush_range_end t) then mkTlb start stop (deferred_pages t)
  else
    mkTlb (if decide (start < flush_range_start t) then start else flush_range_start t)
      (if decide (stop > flush_range_end t) then stop else flush_range_end t) (deferred_pages t).

Definition tlb_add_page (t : tlb_accumulator) (p : loc) : tlb_accumulator :=
  mkTlb (flush_range_start t) (flush_range_end t) (deferred_pages t ++ [p]).

Definition tlb_accumulator_empty (t : tlb_accumulator) : bool :=
  bool_decide (flush_range_start t = flush_range_end t) && bool_decide (deferred_pages t = []).

(** ** Tables in memory *)

Context (page_map HHDM_OFFSET : Z) (la57 : bool) (root_pgtable : Z).
Context {S : Type} `{!PageSource S}.

Record slot := mkSlot { in_table : Z; at_index : Z }.

(** [flushed] lists the ranges the CPUs were told to flush. *)
Record vm := mkVm { tables : gmap Z (gmap Z Z); pool : S; flushed : list (Z * Z) }.

Definition pte_read (s : vm) (e : slot) : option Z :=
  t ← tables s !! in_table e;
  if decide (0 <= at_index e < 512) then Some (default 0 (t !! at_index e)) else None.

Definition pte_store (s : vm) (e : slot) (v : Z) : option vm :=
  t ← tables s !! in_table e;
  if decide (0 <= at_index e < 512)
  then Some (mkVm (<[in_table e := <[at_index e := v]> t]> (tables s)) (pool s) (flushed s)) else None.

Definition pte_clear (s : vm) (e : slot) : option vm := pte_store s e 0.
Definition pte_install (s : vm) (e : slot) (v : Z) : option vm := pte_store s e v.

(** [atomic_cmpxchg]: whether it succeeded, and [value] after it. *)
Definition pgtable_install (s : vm) (e : slot) (value : Z) : option (bool * Z * vm) :=
  cur ← pte_read s e;
  if decide (cur = 0) then s ← pte_store s e value; Some (true, value, s)
  else Some (false, cur, s).

Definition pte_pgtable (value : Z) : Z := phys_to_virt HHDM_OFFSET (phys_addr value).

Definition make_pte_pgtable_k (table : Z) : Z :=
  Z.lor (virt_to_phys HHDM_OFFSET table) PAGE_KERNEL_PGTABLE.

Definition pgtable_entry (value addr : Z) (level : nat) : slot :=
  mkSlot (pte_pgtable value) (pgtable_index addr level).

Definition get_vmap_pgtable : Z := phys_to_virt HHDM_OFFSET root_pgtable.

Definition get_vmap_pgtable_entry (addr : Z) : slot :=
  mkSlot get_vmap_pgtable (pgtable_index addr (max_pgtable_level la57)).

Definition next_slot (e : slot) : slot := mkSlot (in_table e) (at_index e + 1).

(** [alloc_page (ALLOC_KERNEL | __ALLOC_ZERO)]: the page is zeroed. *)
Definition alloc_pgtable (s : vm) : option (option Z * vm) :=
  '(p, src) ← ps_alloc (pool s) (Z.lor ALLOC_KERNEL ALLOC_ZERO);
  match p with
  | Some p => let t := page_to_virt page_map HHDM_OFFSET p in
              Some (Some t, mkVm (<[t := ∅]> (tables s)) src (flushed s))
  | None => Some (None, mkVm (tables s) src (flushed s))
  end.

(** [free_page]: if the page was a table, it is one no longer. *)
Definition release_page (s : vm) (p : loc) : option vm :=
  src ← ps_release (pool s) p;
  Some (mkVm (delete (page_to_virt page_map HHDM_OFFSET p) (tables s)) src (flushed s)).

Definition free_pgtable (s : vm) (table : Z) : option vm :=
  release_page s (virt_to_page page_map HHDM_OFFSET table).

Definition tlb_add_pgtable (t : tlb_accumulator) (table : Z) : tlb_accumulator :=
  tlb_add_page t (virt_to_page page_map HHDM_OFFSET table).

Fixpoint release_pages (s : vm) (ps : list loc) : option vm :=
  match ps with
  | [] => Some s
  | p :: ps => s ← release_page s p; release_pages s ps
  end.

(** Every CPU flushes the range before the deferred pages are freed. *)
Definition tlb_end_kernel (s : vm) (t : tlb_accumulator) : option (vm * tlb_accumulator) :=
  if tlb_accumulator_empty t then Some (s, t)
  else
    let s := mkVm (tables s) (pool s) (flushed s ++ [(flush_range_start t, flush_range_end t)]) in
    s ← release_pages s (deferred_pages t);
    Some (s, mkTlb 0 0 []).

(** ** What the processor does: the walk to the entry of an address *)

Fixpoint walk (level : nat) (s : vm) (table addr : Z) : option Z :=
  match level with
  | O => None
  | Datatypes.S l =>
    v ← pte_read s (mkSlot table (pgtable_index addr level));
    if decide (l = O) then Some v
    else if decide (v = 0) then Some 0 else walk l s (pte_pgtable v) addr
  end.

(** The last-level entry of [addr], zero if it is not mapped. *)
Definition translate (s : vm) (addr : Z) : option Z :=
  walk (max_pgtable_level la57) s get_vmap_pgtable addr.

End pgtable_defs.

(** ** Arithmetic of levels *)

Section levels.
Local Open Scope Z_scope.

(** The number of bytes an entry of level [l] maps. *)
Definition es (l : nat) : Z := 2 ^ (3 + 9 * Z.of_nat l).

(** The address of the first byte the entry for [a] maps. *)
Definition apos (l : nat) (a : Z) : Z := es l * (a / es l).

Lemma es_pos l : 0 < es l.
Proof. unfold es. lia. Qed.

Lemma es_succ l : es (S l) = 512 * es l.
Proof. unfold es. replace (3 + 9 * Z.of_nat (S l)) with (9 + (3 + 9 * Z.of_nat l)) by lia. by rewrite Z.pow_add_r by lia. Qed.

#[global] Instance es_divides_dec l a : Decision (es l | a).
Proof.
  destruct (decide (a mod es l = 0)) as [H|H]; [left|right; intros H'; apply H];
    by apply Z.mod_divide; [pose proof (es_pos l); lia|].
Defined.

Lemma es_divide l k : (l ≤ k)%nat → (es l | es k).
Proof.
  intros H. exists (2 ^ (9 * Z.of_nat (k - l))). unfold es. rewrite <-Z.pow_add_r by lia. f_equal. lia.
Qed.

Lemma apos_bounds l a : apos l a <= a < apos l a + es l.
Proof. unfold apos. pose proof (es_pos l). Z.div_mod_to_equations. nia. Qed.

Lemma apos_divide l a : (es l | apos l a).
Proof. exists (a / es l). unfold apos. lia. Qed.

Lemma apos_fixed l a : (es l | a) → apos l a = a.
Proof. intros [k ->]. unfold apos. rewrite Z.div_mul by (pose proof (es_pos l); lia). lia. Qed.

Lemma apos_unique l a b : (es l | b) → b <= a < b + es l → apos l a = b.
Proof.
  intros [k ->] H. unfold apos. pose proof (es_pos l).
  assert (a / es l = k) as ->; [|lia]. symmetry. apply (Z.div_unique a (es l) k (a - k * es l)); lia.
Qed.

Lemma apos_greatest l a b : (es l | b) → b <= a → b <= apos l a.
Proof.
  intros [q ->] H. unfold apos. pose proof (es_pos l).
  assert (q <= a / es l); [|nia]. apply Z.div_le_lower_bound; lia.
Qed.

Lemma apos_nested l k a : (l ≤ k)%nat → apos k (apos l a) = apos k a.
Proof.
  intros H. pose proof (apos_bounds k a). pose proof (apos_bounds l a).
  apply apos_unique; [apply apos_divide|]. split; [|lia]. apply apos_greatest; [|lia].
  etrans; [by apply es_divide|apply apos_divide].
Qed.

Lemma entry_size_eq l : (l ≤ 6)%nat → pgtable_entry_size l = es l.
Proof.
  intros Hl. unfold pgtable_entry_size, shl64, es. rewrite Z.shiftl_mul_pow2, Z.mul_1_l by lia.
  apply wrap_small. split; [lia|]. apply Z.pow_lt_mono_r; lia.
Qed.

Lemma es_is_pow2 l : (l ≤ 6)%nat → is_pow2 (es l).
Proof. intros Hl. exists (3 + 9 * Z.of_nat l). split; [lia|done]. Qed.

Lemma index_eq a l : pgtable_index a l = (a / es l) mod 512.
Proof.
  unfold pgtable_index. change 511 with (Z.ones 9). rewrite Z.land_ones, Z.shiftr_div_pow2 by lia. done.
Qed.

Lemma index_range a l : 0 <= pgtable_index a l < 512.
Proof. rewrite index_eq. apply Z.mod_pos_bound. lia. Qed.

(** The entry for [a] in its table. *)
Lemma apos_index l a : apos l a = apos (S l) a + pgtable_index a l * es l.
Proof.
  rewrite index_eq. unfold apos. rewrite es_succ, (Z.mul_comm 512), <-Z.div_div by (pose proof (es_pos l); lia).
  pose proof (Z.div_mod (a / es l) 512 ltac:(lia)) as H.
  transitivity (es l * (512 * (a / es l / 512) + (a / es l) mod 512)); [by rewrite <-H|ring].
Qed.

Lemma index_apos l a : pgtable_index (apos l a) l = pgtable_index a l.
Proof. rewrite !index_eq. unfold apos. rewrite Z.mul_comm, Z.div_mul by (pose proof (es_pos l); lia). done. Qed.

Lemma index_ext l a b : apos l a = apos l b → pgtable_index a l = pgtable_index b l.
Proof. intros H. by rewrite <-(index_apos l a), H, index_apos. Qed.

(** In one table different entries have different indices. *)
Lemma index_inj l a b :
  apos (S l) a = apos (S l) b → pgtable_index a l = pgtable_index b l → apos l a = apos l b.
Proof. intros H1 H2. by rewrite (apos_index l a), (apos_index l b), H1, H2. Qed.

Lemma index_next l a :
  (es l | a) → apos (S l) (a + es l) = apos (S l) a → pgtable_index (a + es l) l = pgtable_index a l + 1.
Proof.
  intros Ha H. pose proof (es_pos l). pose proof (apos_index l a) as H1. pose proof (apos_index l (a + es l)) as H2.
  rewrite (apos_fixed l a) in H1 by done. rewrite (apos_fixed l (a + es l)) in H2 by (apply Z.divide_add_r; [done|by exists 1; lia]).
  rewrite H in H2. nia.
Qed.

Lemma boundary_next_eq start stop l :
  u64 start → (l ≤ 6)%nat → 0 < stop → apos l start + es l < 2 ^ 64 →
  pgtable_boundary_next start stop l = Z.min stop (apos l start + es l).
Proof.
  intros Hs Hl Hp Hf. unfold pgtable_boundary_next. rewrite entry_size_eq by done.
  pose proof (es_pos l). pose proof (is_pow2_range _ (es_is_pow2 l Hl)).
  assert (Z.land start (not64 (es l -ᵤ 1)) = apos l start) as ->.
  { rewrite sub64_small by lia. unfold es at 1. rewrite land_not64_pow2 by (done || lia). fold (es l).
    unfold apos. rewrite Z.mod_eq by lia. lia. }
  pose proof (apos_bounds l start). assert (0 <= apos l start) by (unfold apos; apply Z.mul_nonneg_nonneg; [lia|apply Z.div_pos; [apply Hs|lia]]).
  rewrite add64_small by lia. case_decide; lia.
Qed.

End levels.

(** ** The invariant

    [own] tells which table holds the entries of a level for an address: the
    tables form a tree below the root, which belongs to the highest level. *)

Section pgtable.
Local Open Scope Z_scope.
Context (page_map HHDM_OFFSET : Z) (la57 : bool) (root_pgtable : Z).
Context {S : Type} `{!PageSource S}.
Abbreviation page_virt := (page_to_virt page_map HHDM_OFFSET).
Abbreviation root := (get_vmap_pgtable HHDM_OFFSET root_pgtable).
Abbreviation M := (max_pgtable_level la57).
Abbreviation pgtable_of := (pte_pgtable HHDM_OFFSET).
Abbreviation new_pte := (make_pte_pgtable_k HHDM_OFFSET).
Implicit Types (s : @vm S) (own : gmap (nat * Z) Z).

(** Page frames lie in the array [page_map] and below 2^52; the root table is
    not one of the pages of the allocator. *)
Definition frame_ok (p : loc) : Prop := ∃ pfn, 0 <= pfn < 2 ^ 40 ∧ Z.pos p = page_map + 64 * pfn.
Context (Hframe : ∀ p, ps_page p → frame_ok p).
Context (Hroot : ∀ p, ps_page p → page_virt p ≠ root).

(** The first address of those the root table covers in the kernel's half; the
    end of the kernel's virtual mappings, and the addresses of these. *)
Definition kbase : Z := 2 ^ 64 - es (Datatypes.S M).
Definition ktop : Z := KERNEL_VM_LAST la57 + 1.
Definition kaddr (a : Z) : Prop := KERNEL_VM_FIRST la57 <= a < ktop.

(** The entry of level [l] for the address [a]. *)
Definition ent s own (l : nat) (a : Z) : Z :=
  match own !! (l, apos (Datatypes.S l) a) with
  | Some t => default 0 (tables s !! t ≫= λ m, m !! pgtable_index a l)
  | None => 0
  end.

Record pt_wf s own : Prop := {
  pw_pool : ps_ok (pool s);
  pw_root : own !! (M, kbase) = Some root;
  pw_table l B t : own !! (l, B) = Some t →
    (1 ≤ l ≤ M)%nat ∧ (l = M → B = kbase) ∧ is_Some (tables s !! t) ∧
    ((l < M)%nat → ∃ p, ps_page p ∧ ¬ ps_free (pool s) p ∧ t = page_virt p);
  pw_inj k1 k2 t : own !! k1 = Some t → own !! k2 = Some t → k1 = k2;
  pw_ent l a : (1 ≤ l < M)%nat → kaddr a →
    match own !! (l, apos (Datatypes.S l) a) with
    | Some t => ent s own (Datatypes.S l) a ≠ 0 ∧ pgtable_of (ent s own (Datatypes.S l) a) = t
    | None => ent s own (Datatypes.S l) a = 0
    end;
}.

Lemma M_cases : M = 4%nat ∨ M = 5%nat.
Proof. destruct la57; [by right|by left]. Qed.

Lemma kbase_divide l : (l ≤ Datatypes.S M)%nat → (es l | kbase).
Proof.
  intros Hl. unfold kbase. apply Z.divide_sub_r; [|by apply es_divide].
  exists (2 ^ (61 - 9 * Z.of_nat l)). unfold es. rewrite <-Z.pow_add_r by (destruct M_cases; lia). f_equal. lia.
Qed.

(** The region is made of whole entries of the root table, and none of them is
    its last. *)
Lemma kfirst_divide l : (l ≤ M)%nat → (es l | KERNEL_VM_FIRST la57).
Proof.
  intros Hl. etrans; [by apply (es_divide l M)|]. unfold KERNEL_VM_FIRST, es.
  destruct la57; [by exists 0xff90|by exists 0x1ffffc0].
Qed.

Lemma ktop_divide l : (l ≤ M)%nat → (es l | ktop).
Proof.
  intros Hl. etrans; [by apply (es_divide l M)|]. unfold ktop, KERNEL_VM_LAST, es.
  destruct la57; [by exists 0xffd0|by exists 0x1ffffe0].
Qed.

Lemma region_bounds : 4096 < kbase ∧ kbase <= KERNEL_VM_FIRST la57 < ktop ∧ ktop < 2 ^ 64 - es M.
Proof. unfold kbase, ktop, es. destruct la57; vm_compute; done. Qed.

Lemma kaddr_u64 a : kaddr a → u64 a.
Proof. pose proof region_bounds. pose proof (es_pos M). unfold kaddr, in_width. lia. Qed.

Lemma kaddr_apos l a : (l ≤ M)%nat → kaddr a → kaddr (apos l a).
Proof.
  intros Hl [H1 H2]. pose proof (apos_bounds l a). split; [|lia]. apply apos_greatest; [|done]. by apply kfirst_divide.
Qed.

Lemma kaddr_root a : kaddr a → apos (Datatypes.S M) a = kbase.
Proof.
  intros [H1 H2]. apply apos_unique; [by apply kbase_divide|]. pose proof region_bounds. pose proof (es_pos M).
  unfold kbase in *. lia.
Qed.

Lemma apos_ktop l a : (l ≤ M)%nat → a < ktop → apos l a + es l <= ktop.
Proof.
  intros Hl Ha. destruct (ktop_divide l Hl) as [q Hq], (apos_divide l a) as [r Hr].
  pose proof (es_pos l) as Hpos. pose proof (apos_bounds l a). rewrite Hr, Hq in *. assert (r < q) by nia. nia.
Qed.

Lemma ktop_u64 : ktop < 2 ^ 64.
Proof. pose proof region_bounds. pose proof (es_pos M). lia. Qed.

(** ** Pages and entries *)

Lemma frame_phys p : frame_ok p →
  ∃ n, 0 <= n < 2 ^ 40 ∧ page_to_phys page_map p = 4096 * n ∧ phys_to_page page_map (4096 * n) = p.
Proof.
  intros (n & Hn & Hp). exists n. split; [done|]. unfold page_to_phys, pfn_to_phys, page_to_pfn, phys_to_page, pfn_to_page, phys_to_pfn, PAGE_SIZE.
  rewrite Hp. replace (page_map + 64 * n - page_map) with (n * 64) by lia. rewrite Z.div_mul by lia.
  unfold mul64. rewrite wrap_small by (unfold in_width; lia). split; [lia|].
  replace (4096 * n / 4096) with n by (rewrite Z.mul_comm, Z.div_mul; lia). rewrite <-Hp. done.
Qed.

Lemma phys_addr_lor n f :
  0 <= n < 2 ^ 40 → Z.land f PG_ADDR_MASK = 0 → phys_addr (Z.lor (4096 * n) f) = 4096 * n.
Proof.
  intros Hn Hf. unfold phys_addr. rewrite Z.land_lor_distr_l, Hf, Z.lor_0_r.
  replace (4096 * n) with (Z.shiftl n 12) by (rewrite Z.shiftl_mul_pow2 by lia; lia).
  change PG_ADDR_MASK with (Z.shiftl (Z.ones 40) 12). rewrite <-Z.shiftl_land, Z.land_ones by lia.
  by rewrite Z.mod_small.
Qed.

Lemma virt_phys_virt x : u64 x → virt_to_phys HHDM_OFFSET (phys_to_virt HHDM_OFFSET x) = x.
Proof. apply add64_sub64. Qed.

Lemma new_pte_ok p : ps_page p → new_pte (page_virt p) ≠ 0 ∧ pgtable_of (new_pte (page_virt p)) = page_virt p.
Proof.
  intros (n & Hn & Hph & _)%Hframe%frame_phys. unfold make_pte_pgtable_k, page_to_virt. rewrite Hph.
  rewrite virt_phys_virt by (unfold in_width; lia). split.
  - intros [_ H]%Z.lor_eq_0_iff. done.
  - unfold pte_pgtable. by rewrite phys_addr_lor.
Qed.

Lemma page_of_virt p : ps_page p → virt_to_page page_map HHDM_OFFSET (page_virt p) = p.
Proof.
  intros (n & Hn & Hph & Hinv)%Hframe%frame_phys. unfold virt_to_page, page_to_virt. rewrite Hph.
  by rewrite virt_phys_virt by (unfold in_width; lia).
Qed.

Lemma page_virt_inj p q : ps_page p → ps_page q → page_virt p = page_virt q → p = q.
Proof. intros Hp Hq H. by rewrite <-(page_of_virt p Hp), H, page_of_virt. Qed.

(** ** The walk *)

Lemma read_ent s own l a t :
  own !! (l, apos (Datatypes.S l) a) = Some t → is_Some (tables s !! t) →
  pte_read s (mkSlot t (pgtable_index a l)) = Some (ent s own l a).
Proof.
  intros Ho [m Hm]. unfold pte_read, ent. simpl. rewrite Hm, Ho, Hm. cbn [mbind option_bind].
  by rewrite decide_True by apply index_range.
Qed.

Lemma own_parent s own l a :
  pt_wf s own → kaddr a → (1 ≤ l < M)%nat → is_Some (own !! (l, apos (Datatypes.S l) a)) →
  is_Some (own !! (Datatypes.S l, apos (Datatypes.S (Datatypes.S l)) a)).
Proof.
  intros Hwf Ha Hl [t Ht]. pose proof (pw_ent _ _ Hwf l a Hl Ha) as H. rewrite Ht in H. destruct H as [H _].
  unfold ent in H. destruct (own !! (Datatypes.S l, _)); [by eexists|done].
Qed.

Lemma own_ancestor s own l k a :
  pt_wf s own → kaddr a → (1 ≤ l ≤ k)%nat → (k ≤ M)%nat →
  is_Some (own !! (l, apos (Datatypes.S l) a)) → is_Some (own !! (k, apos (Datatypes.S k) a)).
Proof.
  intros Hwf Ha [Hl Hk] HM H. induction Hk as [|k Hk IH]; [done|]. eapply own_parent; [done..|lia|]. apply IH. lia.
Qed.

Lemma walk_ent s own l a t :
  pt_wf s own → kaddr a → (1 ≤ l ≤ M)%nat → own !! (l, apos (Datatypes.S l) a) = Some t →
  walk HHDM_OFFSET l s t a = Some (ent s own 1 a).
Proof.
  intros Hwf Ha. revert t. induction l as [|l IH]; intros t Hl Ho; [lia|]. cbn [walk].
  destruct (pw_table _ _ Hwf _ _ _ Ho) as (_ & _ & Hs & _).
  rewrite (read_ent s own (Datatypes.S l) a t Ho Hs). cbn [mbind option_bind].
  destruct (decide (l = 0%nat)) as [->|Hn]; [done|].
  pose proof (pw_ent _ _ Hwf l a ltac:(lia) Ha) as He. destruct (own !! (l, apos (Datatypes.S l) a)) as [t'|] eqn:Ho'.
  - destruct He as [He1 He2]. rewrite decide_False by done. rewrite He2. apply IH; [lia|done].
  - rewrite decide_True by done. f_equal. unfold ent.
    destruct (own !! (1%nat, apos 2 a)) as [t1|] eqn:Ho1; [|done]. exfalso.
    destruct (own_ancestor s own 1 l a Hwf Ha ltac:(lia) ltac:(lia)) as [t2 Ht2]; [by eexists|]. congruence.
Qed.

(** The processor finds the last-level entry. *)
Lemma translate_ent s own a :
  pt_wf s own → kaddr a → translate HHDM_OFFSET la57 root_pgtable s a = Some (ent s own 1 a).
Proof.
  intros Hwf Ha. apply walk_ent; [done..| |]; [destruct M_cases; lia|].
  rewrite kaddr_root by done. apply (pw_root _ _ Hwf).
Qed.

(** ** Storing an entry *)

Lemma store_ent s own l a t v :
  pt_wf s own → own !! (l, apos (Datatypes.S l) a) = Some t →
  ∃ s', pte_store s (mkSlot t (pgtable_index a l)) v = Some s' ∧ pool s' = pool s ∧ flushed s' = flushed s ∧
    dom (tables s') = dom (tables s) ∧
    ∀ l' b, ent s' own l' b = if decide (l' = l ∧ apos l b = apos l a) then v else ent s own l' b.
Proof.
  intros Hwf Ho. destruct (pw_table _ _ Hwf _ _ _ Ho) as (_ & _ & [m Hm] & _).
  unfold pte_store. simpl. rewrite Hm. cbn [mbind option_bind]. rewrite decide_True by apply index_range.
  eexists. split; [done|]. simpl. split_and!; [done..|by rewrite dom_insert_lookup_L by (by eexists)|].
  intros l' b. unfold ent. simpl. destruct (own !! (l', apos (Datatypes.S l') b)) as [t'|] eqn:Ho'.
  - destruct (decide (t' = t)) as [->|Hne].
    + pose proof (pw_inj _ _ Hwf _ _ _ Ho' Ho) as Hk. injection Hk as Hl Hk. subst l'. rewrite lookup_insert_eq. simpl. rewrite Hm. simpl.
      destruct (decide (apos l b = apos l a)) as [Heq|Hneq].
      * rewrite decide_True by done. by rewrite (index_ext l b a), lookup_insert_eq.
      * rewrite decide_False by tauto. rewrite lookup_insert_ne; [done|]. intros Hi. apply Hneq. by apply index_inj.
    + rewrite lookup_insert_ne by done. rewrite decide_False; [done|]. intros [-> Heq].
      apply Hne. assert (apos (Datatypes.S l) b = apos (Datatypes.S l) a) as Hk.
      { by rewrite <-(apos_nested l (Datatypes.S l) b), <-(apos_nested l (Datatypes.S l) a), Heq by lia. }
      rewrite Hk in Ho'. congruence.
  - rewrite decide_False; [done|]. intros [-> Heq].
    assert (apos (Datatypes.S l) b = apos (Datatypes.S l) a) as Hk.
    { by rewrite <-(apos_nested l (Datatypes.S l) b), <-(apos_nested l (Datatypes.S l) a), Heq by lia. }
    rewrite Hk in Ho'. congruence.
Qed.

(** A last-level entry may be changed at will. *)
Lemma store_leaf s own a t v :
  pt_wf s own → own !! (1%nat, apos 2 a) = Some t →
  ∃ s', pte_store s (mkSlot t (pgtable_index a 1)) v = Some s' ∧ pt_wf s' own ∧ pool s' = pool s ∧
    flushed s' = flushed s ∧ dom (tables s') = dom (tables s) ∧
    ∀ l b, ent s' own l b = if decide (l = 1%nat ∧ apos 1 b = apos 1 a) then v else ent s own l b.
Proof.
  intros Hwf Ho. destruct (store_ent s own 1 a t v Hwf Ho) as (s' & E & Hp & Hfl & Hd & He). exists s'.
  split_and!; try done.
  split; rewrite ?Hp; try apply Hwf.
  - intros l B t' H. destruct (pw_table _ _ Hwf l B t' H) as (H1 & H3 & H4 & H5).
    split_and!; try done; try lia. apply elem_of_dom. rewrite Hd. by apply elem_of_dom.
  - intros l b Hl Hb. pose proof (pw_ent _ _ Hwf l b Hl Hb) as H.
    assert (ent s' own (Datatypes.S l) b = ent s own (Datatypes.S l) b) as ->; [|done].
    rewrite He, decide_False; [done|]. intros [[=] _]. lia.
Qed.

(** ** Adding a table *)

Lemma own_not_page s own k t p :
  pt_wf s own → own !! k = Some t → ps_page p → ps_free (pool s) p → t ≠ page_virt p.
Proof.
  intros Hwf Ho Hp Hf ->. destruct k as [l B]. destruct (pw_table _ _ Hwf _ _ _ Ho) as (Hl & HB & _ & Hpg).
  destruct (decide (l < M)%nat) as [Hlt|Hge].
  - destruct (Hpg Hlt) as (q & Hq & Hnf & E). apply page_virt_inj in E; [|done..]. by subst q.
  - assert (l = M) as -> by lia. rewrite (HB eq_refl) in *.
    rewrite (pw_root _ _ Hwf) in Ho. injection Ho as Ho. by apply (Hroot p Hp).
Qed.

(** The state after a table for level [l] at [a] was linked in. *)
Lemma grow_wf s own l a tp p src :
  pt_wf s own → kaddr a → (1 ≤ l < M)%nat →
  own !! (Datatypes.S l, apos (Datatypes.S (Datatypes.S l)) a) = Some tp → ent s own (Datatypes.S l) a = 0 →
  ps_ok src → ps_page p → ps_free (pool s) p → (∀ q, ps_free src q ↔ ps_free (pool s) q ∧ q ≠ p) →
  let s1 := mkVm (<[page_virt p := ∅]> (tables s)) src (flushed s) in
  let own' := <[(l, apos (Datatypes.S l) a) := page_virt p]> own in
  ∃ s', pte_store s1 (mkSlot tp (pgtable_index a (Datatypes.S l))) (new_pte (page_virt p)) = Some s' ∧
    pt_wf s' own' ∧ pool s' = src ∧ flushed s' = flushed s ∧ ∀ b, ent s' own' 1 b = ent s own 1 b.
Proof.
  intros Hwf Ha Hl Htp He Hok Hp Hf Hfree s1 own'. pose proof (own_not_page s own _ _ p Hwf Htp Hp Hf) as Hne.
  assert (own !! (l, apos (Datatypes.S l) a) = None) as Hnone.
  { pose proof (pw_ent _ _ Hwf l a Hl Ha) as H. destruct (own !! (l, _)); [|done]. by destruct H. }
  destruct (pw_table _ _ Hwf _ _ _ Htp) as (_ & _ & [m Hm] & _).
  unfold pte_store. simpl. rewrite lookup_insert_ne by done. rewrite Hm. cbn [mbind option_bind].
  rewrite decide_True by apply index_range. eexists. split; [done|]. set (s' := mkVm _ src (flushed s)).
  (* the entries afterwards *)
  assert (∀ l' b, ent s' own' l' b =
    if decide (l' = Datatypes.S l ∧ apos (Datatypes.S l) b = apos (Datatypes.S l) a) then new_pte (page_virt p)
    else ent s own l' b) as Hent.
  { intros l' b. destruct (store_ent s own (Datatypes.S l) a tp (new_pte (page_virt p)) Hwf Htp) as (s2 & E2 & _ & _ & _ & He2).
    unfold pte_store in E2. simpl in E2. rewrite Hm in E2. simpl in E2. rewrite decide_True in E2 by apply index_range.
    injection E2 as <-. rewrite <-He2. unfold ent, own'. simpl.
    destruct (decide ((l', apos (Datatypes.S l') b) = (l, apos (Datatypes.S l) a))) as [Hk|Hk].
    - rewrite Hk, lookup_insert_eq, Hnone. simpl. rewrite lookup_insert_ne by done. by rewrite lookup_insert_eq.
    - rewrite lookup_insert_ne by done. destruct (own !! (l', _)) as [t'|] eqn:Ho'; [|done].
      assert (t' ≠ page_virt p) as Hn' by by eapply own_not_page.
      destruct (decide (t' = tp)) as [->|]; [by rewrite !lookup_insert_eq|]. by rewrite !lookup_insert_ne by done. }
  split_and!; [|done..|].
  - split.
    + done.
    + unfold own'. rewrite lookup_insert_ne; [apply Hwf|]. intros [= ? ?]. lia.
    + intros l' B t' [[Hk <-]|[Hk Ho]]%lookup_insert_Some.
      * injection Hk as <- <-. split_and!; [lia|lia|lia| |].
        -- simpl. rewrite lookup_insert_ne by done. by rewrite lookup_insert_eq.
        -- intros _. exists p. split_and!; [done| |done]. simpl. rewrite Hfree. tauto.
      * destruct (pw_table _ _ Hwf _ _ _ Ho) as (H1 & H3 & H4 & H5). split_and!; try done; try lia.
        -- simpl. destruct (decide (t' = tp)) as [->|]; [by rewrite lookup_insert_eq|]. rewrite lookup_insert_ne by done.
           rewrite lookup_insert_ne; [done|]. intros E. symmetry in E. by eapply own_not_page in E.
        -- intros Hlt. destruct (H5 Hlt) as (q & Hq1 & Hq2 & Hq3). exists q. split_and!; try done. simpl. rewrite Hfree. tauto.
    + intros k1 k2 t' [[Hk1 <-]|[Hk1 H1]]%lookup_insert_Some [[Hk2 E2]|[Hk2 H2]]%lookup_insert_Some.
      * congruence.
      * by eapply own_not_page in H2.
      * subst t'. by eapply own_not_page in H1.
      * by eapply (pw_inj _ _ Hwf).
    + intros l' b Hl' Hb. rewrite Hent. unfold own'.
      destruct (decide ((l', apos (Datatypes.S l') b) = (l, apos (Datatypes.S l) a))) as [Hk|Hk].
      * rewrite Hk, lookup_insert_eq. injection Hk as -> Hk. rewrite decide_True by done. by apply new_pte_ok.
      * rewrite lookup_insert_ne by done. rewrite decide_False; [by apply Hwf|]. intros [[= ->] E]. by rewrite E in Hk.
  - intros b. rewrite Hent, decide_False; [done|]. intros [[=] _]. lia.
Qed.

(** ** Giving up a table or a page *)

(** The page is one of the tables. *)
Definition is_table own (p : loc) : Prop := ∃ k, own !! k = Some (page_virt p).

(** Unlinking an empty table. *)
Lemma shrink_wf s own l a t tp :
  pt_wf s own → kaddr a → (1 ≤ l < M)%nat → own !! (l, apos (Datatypes.S l) a) = Some t →
  own !! (Datatypes.S l, apos (Datatypes.S (Datatypes.S l)) a) = Some tp →
  (∀ b, apos (Datatypes.S l) b = apos (Datatypes.S l) a → ent s own l b = 0) →
  let own' := delete (l, apos (Datatypes.S l) a) own in
  ∃ s', pte_store s (mkSlot tp (pgtable_index a (Datatypes.S l))) 0 = Some s' ∧ pt_wf s' own' ∧ pool s' = pool s ∧
    flushed s' = flushed s ∧
    ∀ l' b, ent s' own' l' b =
      if decide (l' = Datatypes.S l ∧ apos (Datatypes.S l) b = apos (Datatypes.S l) a) then 0 else ent s own l' b.
Proof.
  intros Hwf Ha Hl Ht Htp Hz own'. destruct (store_ent s own (Datatypes.S l) a tp 0 Hwf Htp) as (s' & E & Hp & Hfl & Hd & He).
  assert (∀ l' b, ent s' own' l' b = ent s' own l' b) as Hown.
  { intros l' b. unfold ent, own'. destruct (decide ((l', apos (Datatypes.S l') b) = (l, apos (Datatypes.S l) a))) as [Hk|Hk].
    - rewrite Hk, lookup_delete_eq. injection Hk as -> Hk. specialize (He l b). rewrite decide_False in He by (intros [[=] _]; lia).
      rewrite (Hz b Hk) in He. unfold ent in He. by rewrite Hk in He.
    - by rewrite lookup_delete_ne. }
  exists s'. split_and!; try done; [|by intros l' b; rewrite Hown, He]. split; rewrite ?Hp.
  - apply Hwf.
  - unfold own'. rewrite lookup_delete_ne; [apply Hwf|]. intros [= ? ?]. lia.
  - intros l' B t' [_ H]%lookup_delete_Some. destruct (pw_table _ _ Hwf l' B t' H) as (H1 & H3 & H4 & H5).
    split_and!; try done; try lia. apply elem_of_dom. rewrite Hd. by apply elem_of_dom.
  - intros k1 k2 t' [_ H1]%lookup_delete_Some [_ H2]%lookup_delete_Some. by eapply (pw_inj _ _ Hwf).
  - intros l' b Hl' Hb. rewrite Hown, He. pose proof (pw_ent _ _ Hwf l' b Hl' Hb) as H. unfold own'.
    destruct (decide ((l', apos (Datatypes.S l') b) = (l, apos (Datatypes.S l) a))) as [Hk|Hk].
    + rewrite Hk, lookup_delete_eq. injection Hk as -> Hk. by rewrite decide_True.
    + rewrite lookup_delete_ne by done. rewrite decide_False; [done|]. intros [[= ->] E2]. by rewrite E2 in Hk.
Qed.

Lemma release_wf s own p :
  pt_wf s own → ps_page p → ¬ ps_free (pool s) p → ¬ is_table own p →
  ∃ s', release_page page_map HHDM_OFFSET s p = Some s' ∧ pt_wf s' own ∧ flushed s' = flushed s ∧
    (∀ q, ps_free (pool s') q ↔ ps_free (pool s) q ∨ q = p) ∧ ∀ l b, ent s' own l b = ent s own l b.
Proof.
  intros Hwf Hp Hnf Hnt. destruct (ps_release_ok (pool s) p (pw_pool _ _ Hwf) Hp Hnf) as (src & E & Hok & Hfree & _).
  unfold release_page. rewrite E. cbn [mbind option_bind]. eexists. split; [done|].
  assert (∀ k t, own !! k = Some t → t ≠ page_virt p) as Hne by (intros k t Hk ->; apply Hnt; by eexists).
  assert (∀ l b, ent (mkVm (delete (page_virt p) (tables s)) src (flushed s)) own l b = ent s own l b) as Hent.
  { intros l b. unfold ent. destruct (own !! _) as [t|] eqn:Ho; [|done]. simpl. apply Hne in Ho.
    by rewrite lookup_delete_ne. }
  split_and!; try done. split; try done; try apply Hwf.
  - intros l B t Ho. destruct (pw_table _ _ Hwf l B t Ho) as (H1 & H3 & H4 & H5). split_and!; try done; try lia.
    + simpl. rewrite lookup_delete_ne; [done|]. intros E2. by apply (Hne _ _ Ho).
    + intros Hlt. destruct (H5 Hlt) as (q & Hq1 & Hq2 & Hq3). exists q. split_and!; try done. simpl. rewrite Hfree.
      intros [H|Heq]; [done|]. apply (Hne _ _ Ho). by rewrite Hq3, Heq.
  - intros l b Hl Hb. rewrite Hent. by apply (pw_ent _ _ Hwf).
Qed.

(** The state in which nothing is mapped yet. *)
Lemma root_only_wf src :
  ps_ok src → pt_wf (mkVm {[root := ∅]} src []) {[(M, kbase) := root]} ∧
  ∀ l b, ent (mkVm {[root := ∅]} src []) {[(M, kbase) := root]} l b = 0.
Proof.
  intros Hok. assert (∀ l b, ent (mkVm {[root := ∅]} src []) {[(M, kbase) := root]} l b = 0) as He.
  { intros l b. unfold ent. destruct (_ !! (l, _)) as [t|] eqn:E; [|done]. apply lookup_singleton_Some in E as [_ <-].
    cbn [tables]. by rewrite lookup_singleton_eq. }
  split; [|done]. split; try done.
  - apply lookup_singleton_eq.
  - intros l B t [[= <- <-] <-]%lookup_singleton_Some. split_and!; try lia; [destruct M_cases; lia|cbn [tables]; by rewrite lookup_singleton_eq].
  - intros k1 k2 t [<- _]%lookup_singleton_Some [<- _]%lookup_singleton_Some. done.
  - intros l a Hl Ha. rewrite lookup_singleton_ne; [by rewrite He|]. intros [= ? ?]. lia.
Qed.

End pgtable.
