(* ===== verification/VmapPt.v ===== *)
(** * The page tables of virtual mappings ([mm/vmap.cc])

    [get_pte] finds the last-level entry of an address and makes the tables on
    the way; [free_pte_range] clears the entries of a range and gives back the
    tables that no other mapping can need. *)

From S2P Require Import Prelude Align LinkedList PageAlloc.
From S2P Require Export Pgtable.

Section vmap_pt_defs.
Local Open Scope Z_scope.
Context (page_map HHDM_OFFSET : Z) (la57 : bool) (root_pgtable : Z).
Context {S : Type} `{!PageSource S}.
Abbreviation M := (max_pgtable_level la57).

(** In the loop of [get_pte]: the table an entry points to, a new one if it is
    empty; null if there is no memory. *)
Definition get_pte_table (entry : slot) (s : @vm S) : option (option Z * @vm S) :=
  value ← pte_read s entry;
  if pte_empty value then
    '(new_table, s) ← alloc_pgtable page_map HHDM_OFFSET s;
    match new_table with
    | None => Some (None, s)
    | Some t =>
      '(ok, value, s) ← pgtable_install s entry (make_pte_pgtable_k HHDM_OFFSET t);
      s ← (if ok : bool then Some s else free_pgtable page_map HHDM_OFFSET s t);
      Some (Some value, s)
    end
  else Some (Some value, s).

(** The loop of [get_pte]; a slot, or null. *)
Fixpoint get_pte_loop (level : nat) (addr : Z) (entry : slot) (s : @vm S) : option (option slot * @vm S) :=
  match level with
  | O => None
  | Datatypes.S level =>
    '(value, s) ← get_pte_table entry s;
    match value with
    | None => Some (None, s)
    | Some value =>
      let entry := pgtable_entry HHDM_OFFSET value addr level in
      if decide (1 < level)%nat then get_pte_loop level addr entry s else Some (Some entry, s)
    end
  end.

Definition get_pte (s : @vm S) (addr : Z) : option (option slot * @vm S) :=
  get_pte_loop M addr (get_vmap_pgtable_entry HHDM_OFFSET la57 root_pgtable addr) s.

(** [do ... while]: the entries of one table from [start] to [stop]. *)
Fixpoint entry_loop (body : Z → Z → slot → @vm S * tlb_accumulator → option (@vm S * tlb_accumulator))
    (fuel level : nat) (start stop : Z) (entry : slot) (st : @vm S * tlb_accumulator)
    : option (@vm S * tlb_accumulator) :=
  match fuel with
  | O => None
  | Datatypes.S fuel =>
    let next := pgtable_boundary_next start stop level in
    st ← body start next entry st;
    if decide (next = stop) then Some st
    else entry_loop body fuel level next stop (next_slot entry) st
  end.

(** [__free_pte_range] *)
Fixpoint free_pte_range_level (free_pages : bool) (level : nat) (start stop : Z) (pte : slot)
    (st : @vm S * tlb_accumulator) : option (@vm S * tlb_accumulator) :=
  let '(s, tlb) := st in
  value ← pte_read s pte;
  if pte_empty value then Some (s, tlb)
  else
    match level with
    | O =>
      s ← pte_clear s pte;
      let tlb := tlb_add_range tlb start (start +ᵤ PAGE_SIZE) in
      s ← (if free_pages
           then release_page page_map HHDM_OFFSET s (phys_to_page page_map (phys_addr value)) else Some s);
      Some (s, tlb)
    | Datatypes.S l =>
      let size := pgtable_entry_size (Datatypes.S level) in
      let full := bool_decide (start = align_down start size) && bool_decide (stop = align_up stop size) in
      '(s, tlb) ← entry_loop (free_pte_range_level free_pages l) 512 level start stop
        (pgtable_entry HHDM_OFFSET value start level) (s, tlb);
      if full && bool_decide (level < M - 1)%nat then
        s ← pte_clear s pte;
        Some (s, tlb_add_pgtable page_map HHDM_OFFSET tlb (pte_pgtable HHDM_OFFSET value))
      else Some (s, tlb)
    end.

Definition free_pte_range (s : @vm S) (start stop floor ceiling : Z) (free_pages : bool) : option (@vm S) :=
  let level := M in
  let tmp := align_down start (pgtable_entry_size level) in
  let floor := max floor tmp in
  let tmp := align_up stop (pgtable_entry_size level) in
  let ceiling := if decide (tmp ≠ 0) then (if decide (ceiling ≠ 0) then min ceiling tmp else tmp) else ceiling in
  let tlb := tlb_begin_kernel (mkTlb 0 0 []) in
  '(s, tlb) ← entry_loop (free_pte_range_level free_pages (level - 1)) 512 level floor ceiling
    (get_vmap_pgtable_entry HHDM_OFFSET la57 root_pgtable floor) (s, tlb);
  '(s, _) ← tlb_end_kernel page_map HHDM_OFFSET s tlb;
  Some s.

End vmap_pt_defs.

(** ** Looking up and making an entry *)

Section vmap_pt.
Local Open Scope Z_scope.
Context (page_map HHDM_OFFSET : Z) (la57 : bool) (root_pgtable : Z).
Context {S : Type} `{!PageSource S}.
Context (Hframe : ∀ p, ps_page p → frame_ok page_map p).
Context (Hroot : ∀ p, ps_page p → page_to_virt page_map HHDM_OFFSET p ≠ get_vmap_pgtable HHDM_OFFSET root_pgtable).
Abbreviation M := (max_pgtable_level la57).
Abbreviation pt_wf := (pt_wf page_map HHDM_OFFSET la57 root_pgtable).
Abbreviation kaddr := (kaddr la57).
Abbreviation ktop := (ktop la57).
Abbreviation is_table := (is_table page_map HHDM_OFFSET).
Implicit Types (s : @vm S) (own : gmap (nat * Z) Z).

(** The pages in the allocator and those used as tables. *)
Definition accounted s own (p : loc) : Prop := ps_free (pool s) p ∨ is_table own p.

(** No mapping changed, no page was lost, no table went away. *)
Definition same_maps s own s' own' : Prop :=
  (∀ b, ent s' own' 1 b = ent s own 1 b) ∧ (∀ p, ps_page p → accounted s' own' p ↔ accounted s own p) ∧
  own ⊆ own' ∧ flushed s' = flushed s.

Lemma same_maps_trans s own s1 own1 s2 own2 :
  same_maps s own s1 own1 → same_maps s1 own1 s2 own2 → same_maps s own s2 own2.
Proof.
  intros (A1 & A2 & A3 & A4) (B1 & B2 & B3 & B4).
  split_and!; [by intros b; rewrite B1|by intros p Hp; rewrite B2, A2|by etrans|by rewrite B4].
Qed.

(** A free page becomes a table. *)
Lemma accounted_grow s own k p src (s' : @vm S) :
  own !! k = None → ps_page p → ps_free (pool s) p → pool s' = src →
  (∀ q, ps_free src q ↔ ps_free (pool s) q ∧ q ≠ p) →
  ∀ q, ps_page q → accounted s' (<[k := page_to_virt page_map HHDM_OFFSET p]> own) q ↔ accounted s own q.
Proof.
  intros Hk Hp Hf Hpool Hfree q Hq. unfold accounted. rewrite Hpool, Hfree. split.
  - intros [[? _]|(k' & [[_ E]|[_ E]]%lookup_insert_Some)]; [by left| |right; by exists k'].
    left. apply (page_virt_inj page_map HHDM_OFFSET Hframe) in E; [|done..]. by subst q.
  - destruct (decide (q = p)) as [->|Hne].
    + intros _. right. eexists. apply lookup_insert_eq.
    + intros [Hq'|[k' Hk']]; [by left|right]. exists k'. rewrite lookup_insert_ne; [done|]. intros <-. congruence.
Qed.

Lemma get_pte_table_spec s own l a t :
  pt_wf s own → kaddr a → (1 ≤ l < M)%nat → own !! (Datatypes.S l, apos (Datatypes.S (Datatypes.S l)) a) = Some t →
  ∃ o s1 own1, get_pte_table page_map HHDM_OFFSET (mkSlot t (pgtable_index a (Datatypes.S l))) s = Some (o, s1) ∧
    pt_wf s1 own1 ∧ same_maps s own s1 own1 ∧
    match o with
    | None => True
    | Some v => own1 !! (l, apos (Datatypes.S l) a) = Some (pte_pgtable HHDM_OFFSET v)
    end.
Proof.
  intros Hwf Ha Hl Ho. unfold get_pte_table. destruct (pw_table _ _ _ _ _ _ Hwf _ _ _ Ho) as (_ & _ & Hs & _).
  rewrite (read_ent s own _ a t Ho Hs). cbn [mbind option_bind].
  pose proof (pw_ent _ _ _ _ _ _ Hwf l a Hl Ha) as He. unfold pte_empty.
  destruct (own !! (l, apos (Datatypes.S l) a)) as [t'|] eqn:Ho'.
  - destruct He as [He1 He2]. rewrite bool_decide_false by done. eexists _, s, own. split; [done|].
    split_and!; try done. by rewrite He2.
  - rewrite bool_decide_true by done. unfold alloc_pgtable.
    destruct (ps_alloc_ok (pool s) (Z.lor ALLOC_KERNEL ALLOC_ZERO) (pw_pool _ _ _ _ _ _ Hwf))
      as [-> | (p & src & -> & Hok & Hp & Hf & Hfree & _)]; cbn [mbind option_bind].
    { eexists None, _, own. split; [done|]. by destruct s. }
    destruct (grow_wf page_map HHDM_OFFSET la57 root_pgtable Hframe Hroot s own l a t p src)
      as (s' & E & Hwf' & Hpool & Hfl & Hent); try done.
    assert (pte_read (mkVm (<[page_to_virt page_map HHDM_OFFSET p:=∅]> (tables s)) src (flushed s))
      (mkSlot t (pgtable_index a (Datatypes.S l))) = Some 0) as Er.
    { pose proof (read_ent s own _ a t Ho Hs) as Hr. rewrite He in Hr. unfold pte_read in *. simpl in *.
      rewrite lookup_insert_ne; [done|]. apply not_eq_sym.
      by eapply (own_not_page page_map HHDM_OFFSET la57 root_pgtable Hframe Hroot s own). }
    unfold pgtable_install. rewrite Er. cbn [mbind option_bind]. rewrite decide_True by done. rewrite E.
    cbn [mbind option_bind]. eexists (Some _), s', _. split; [done|]. split_and!; [done| |].
    + split_and!; [done|by eapply accounted_grow|by apply insert_subseteq|done].
    + rewrite lookup_insert_eq. f_equal. symmetry. by apply (new_pte_ok page_map HHDM_OFFSET Hframe).
Qed.

Lemma get_pte_loop_spec l : ∀ s own a t,
  pt_wf s own → kaddr a → (1 ≤ l < M)%nat → own !! (Datatypes.S l, apos (Datatypes.S (Datatypes.S l)) a) = Some t →
  ∃ r s' own', get_pte_loop page_map HHDM_OFFSET (Datatypes.S l) a (mkSlot t (pgtable_index a (Datatypes.S l))) s = Some (r, s') ∧
    pt_wf s' own' ∧ same_maps s own s' own' ∧
    match r with
    | Some e => ∃ t1, own' !! (1%nat, apos 2 a) = Some t1 ∧ e = mkSlot t1 (pgtable_index a 1)
    | None => True
    end.
Proof.
  induction l as [|l IH]; intros s own a t Hwf Ha Hl Ho; [lia|]. cbn [get_pte_loop].
  destruct (get_pte_table_spec s own _ a t Hwf Ha Hl Ho) as (o & s1 & own1 & -> & Hwf1 & Hsame1 & Ho1).
  cbn [mbind option_bind]. destruct o as [v|]; [|by exists None, s1, own1].
  destruct (decide (1 < Datatypes.S l)%nat) as [Hlt|Hge].
  - destruct (IH s1 own1 a (pte_pgtable HHDM_OFFSET v) Hwf1 Ha ltac:(lia) Ho1) as (r & s' & own' & E & Hwf' & Hsame' & Hr).
    exists r, s', own'. split_and!; try done. by eapply same_maps_trans.
  - assert (l = 0%nat) as -> by lia. eexists (Some _), s1, own1. split_and!; try done. by eexists.
Qed.

(** [get_pte]. *)
Lemma get_pte_spec s own a :
  pt_wf s own → kaddr a →
  ∃ r s' own', get_pte page_map HHDM_OFFSET la57 root_pgtable s a = Some (r, s') ∧ pt_wf s' own' ∧
    same_maps s own s' own' ∧
    match r with
    | Some e => ∃ t1, own' !! (1%nat, apos 2 a) = Some t1 ∧ e = mkSlot t1 (pgtable_index a 1)
    | None => True
    end.
Proof.
  intros Hwf Ha. unfold get_pte, get_vmap_pgtable_entry.
  pose proof (pw_root _ _ _ _ _ _ Hwf) as Hr. rewrite <-(kaddr_root la57 a Ha) in Hr.
  destruct (M_cases la57) as [E|E]; rewrite E in Hr |- *; apply get_pte_loop_spec; rewrite ?E; try done; lia.
Qed.

(** ** Freeing a range *)

(** The page a last-level entry maps. *)
Definition mapped_page s own (b : Z) : loc := phys_to_page page_map (phys_addr (ent s own 1 b)).

(** If they are to be freed, the pages mapped in the range are allocated, each
    mapped once, and no tables. *)
Definition data_ok (fp : bool) s own (start stop : Z) : Prop := fp = true →
  (∀ b, (4096 | b) → start <= b < stop → ent s own 1 b ≠ 0 →
     ps_page (mapped_page s own b) ∧ ¬ accounted s own (mapped_page s own b)) ∧
  (∀ b c, (4096 | b) → (4096 | c) → start <= b < stop → start <= c < stop →
     ent s own 1 b ≠ 0 → ent s own 1 c ≠ 0 → mapped_page s own b = mapped_page s own c → b = c).

Definition tlb_covers (t : tlb_accumulator) (b : Z) : Prop := flush_range_start t <= b < flush_range_end t.

(** The table of level [l] for [a] serves only the range. *)
Definition serves_only (start stop : Z) (l : nat) (a : Z) : Prop :=
  (l < M - 1)%nat ∧ start <= apos (Datatypes.S l) a ∧ apos (Datatypes.S l) a + es (Datatypes.S l) <= stop.

(** What freeing the range does: exactly its last-level entries are cleared,
    and are in the range to flush; the tables unlinked are those of level [top]
    or below, but not of the two highest levels, that serve only the range, and
    are the deferred pages [nd]; with [fp] the mapped pages are freed. *)
Record freed (fp : bool) (top : nat) (start stop : Z) s own (tlb : tlb_accumulator) s' own' (tlb' : tlb_accumulator) (nd : list loc) : Prop := {
  fr_wf : pt_wf s' own';
  fr_leaf b : kaddr b → ent s' own' 1 b = if decide (start <= b < stop) then 0 else ent s own 1 b;
  fr_zero l b : ent s own l b = 0 → ent s' own' l b = 0;
  fr_sub : own' ⊆ own;
  fr_in l B : is_Some (own !! (l, B)) → own' !! (l, B) = None →
    (l ≤ top)%nat ∧ (l < M - 1)%nat ∧ start <= B ∧ B + es (Datatypes.S l) <= stop;
  fr_all l a : kaddr a → (l ≤ top)%nat → serves_only start stop l a → own' !! (l, apos (Datatypes.S l) a) = None;
  fr_def : deferred_pages tlb' = deferred_pages tlb ++ nd;
  fr_nodup : NoDup nd;
  fr_nd q : q ∈ nd ↔ ps_page q ∧ is_table own q ∧ ¬ is_table own' q;
  fr_pool q : ps_free (pool s') q ↔ ps_free (pool s) q ∨
    (fp = true ∧ ∃ b, (4096 | b) ∧ start <= b < stop ∧ ent s own 1 b ≠ 0 ∧ q = mapped_page s own b);
  fr_tlb b : tlb_covers tlb b ∨ (kaddr b ∧ start <= b < stop ∧ ent s own 1 b ≠ 0) → tlb_covers tlb' b;
  fr_flushed : flushed s' = flushed s;
}.

Lemma is_table_sub own own' q : own' ⊆ own → is_table own' q → is_table own q.
Proof. intros Hs [k Hk]. exists k. by eapply lookup_weaken. Qed.

(** Nothing to do: nothing in the range is mapped. *)
Lemma freed_nothing fp top start stop s own tlb :
  pt_wf s own → (∀ b, start <= b < stop → ent s own 1 b = 0) →
  (∀ l a, kaddr a → (l ≤ top)%nat → serves_only start stop l a → own !! (l, apos (Datatypes.S l) a) = None) →
  freed fp top start stop s own tlb s own tlb [].
Proof.
  intros Hwf Hz Hnt. split; try done.
  - intros b _. case_decide; [by apply Hz|done].
  - intros l B [t Ht]. congruence.
  - by rewrite app_nil_r.
  - constructor.
  - intros q. rewrite elem_of_nil. tauto.
  - intros q. split; [by left|]. intros [|(_ & b & _ & Hb & Hne & _)]; [done|]. by destruct Hne; apply Hz.
  - intros b [H|(_ & Hb & Hne)]; [done|]. by destruct Hne; apply Hz.
Qed.

(** A table unlinked twice over. *)
Lemma unlinked_trans s own own1 own2 q :
  pt_wf s own → own1 ⊆ own → own2 ⊆ own1 →
  (is_table own q ∧ ¬ is_table own2 q) ↔
  (is_table own q ∧ ¬ is_table own1 q) ∨ (is_table own1 q ∧ ¬ is_table own2 q).
Proof.
  intros Hwf S1 S2. split.
  - intros [[k Hk] Hn]. destruct (own1 !! k) as [t|] eqn:Hk1.
    + right. split; [|done]. exists k. pose proof (lookup_weaken _ _ _ _ Hk1 S1). congruence.
    + left. split; [by exists k|]. intros [k' Hk']. pose proof (lookup_weaken _ _ _ _ Hk' S1) as Hk2.
      pose proof (pw_inj _ _ _ _ _ _ Hwf _ _ _ Hk Hk2). congruence.
  - intros [[H1 H2]|[H1 H2]]; (split; [|intros H]); [done| |by eapply is_table_sub|done].
    apply H2. by eapply is_table_sub.
Qed.

Lemma freed_trans fp top a m b s own tlb s1 own1 tlb1 nd1 s2 own2 tlb2 nd2 :
  pt_wf s own → kaddr a → b <= ktop → a <= m <= b → (es (Datatypes.S top) | m) →
  freed fp top a m s own tlb s1 own1 tlb1 nd1 → freed fp top m b s1 own1 tlb1 s2 own2 tlb2 nd2 →
  freed fp top a b s own tlb s2 own2 tlb2 (nd1 ++ nd2).
Proof.
  intros Hwf Ka Kb Hm Hdm [A1 A2 A3 A4 A5 A12 A6 A7 A8 A9 A10 A11] [B1 B2 B3 B4 B5 B12 B6 B7 B8 B9 B10 B11].
  assert (∀ x, m <= x < b → ent s1 own1 1 x = ent s own 1 x) as Hr.
  { intros x Hx. rewrite A2 by (destruct Ka; split; lia). by rewrite decide_False by lia. }
  split; try done.
  - intros x Hx. rewrite B2, A2 by done. repeat case_decide; lia.
  - intros l x H. by apply B3, A3.
  - by etrans.
  - intros l B Ho H2. destruct (own1 !! (l, B)) as [t|] eqn:H1.
    + destruct (B5 l B) as (H3 & H4 & H5 & H6); [by eexists|done|]. lia.
    + destruct (A5 l B Ho H1) as (? & ? & ? & ?). lia.
  - intros l x Hx Hl (Hlm & H1 & H2). destruct (decide (apos (Datatypes.S l) x < m)) as [Hlt|Hge].
    + assert (own1 !! (l, apos (Datatypes.S l) x) = None) as Hn.
      { apply A12; [done..|]. split_and!; [done|done|].
        assert (es (Datatypes.S l) | m) as [q Hq] by (etrans; [|exact Hdm]; apply es_divide; lia).
        destruct (apos_divide (Datatypes.S l) x) as [t Ht]. pose proof (es_pos (Datatypes.S l)).
        assert (t < q) by (apply (Z.mul_lt_mono_pos_r (es (Datatypes.S l))); lia).
        assert ((t + 1) * es (Datatypes.S l) <= q * es (Datatypes.S l)) by (apply Z.mul_le_mono_nonneg_r; lia). lia. }
      destruct (own2 !! _) as [t|] eqn:E; [|done]. pose proof (lookup_weaken _ _ _ _ E B4). congruence.
    + apply B12; [done..|]. split_and!; [done|lia|done].
  - by rewrite B6, A6, app_assoc.
  - apply NoDup_app. split_and!; try done. intros q (_ & _ & Hn)%A8 (_ & Ht & _)%B8. done.
  - intros q. rewrite elem_of_app, A8, B8. pose proof (unlinked_trans s own own1 own2 q Hwf A4 B4). tauto.
  - intros q. rewrite B9, A9. split.
    + intros [[H|(H & x & H1 & H2 & H3 & H4)]|(H & x & H1 & H2 & H3 & H4)]; [by left|right..]; (split; [done|]); exists x.
      * split_and!; [done|lia|lia|done|done].
      * unfold mapped_page in H4. rewrite Hr in H3, H4 by done. split_and!; [done|lia|lia|done|done].
    + intros [H|(H & x & H1 & H2 & H3 & H4)]; [by left; left|]. destruct (decide (x < m)).
      * left; right. split; [done|]. exists x. split_and!; [done|lia|lia|done|done].
      * right. split; [done|]. exists x. unfold mapped_page. rewrite Hr by lia. split_and!; [done|lia|lia|done|done].
  - intros x [H|(Hk & Hx & Hne)]; [by apply B10; left; apply A10; left|]. destruct (decide (x < m)).
    + apply B10. left. apply A10. right. split_and!; [done|lia|lia|done].
    + apply B10. right. rewrite Hr by lia. split_and!; [done|lia|lia|done].
  - by rewrite B11.
Qed.

Lemma data_ok_rest fp top a m b s own tlb s1 own1 tlb1 nd1 :
  pt_wf s own → kaddr a → b <= ktop → a <= m <= b → freed fp top a m s own tlb s1 own1 tlb1 nd1 →
  data_ok fp s own a b → data_ok fp s1 own1 m b.
Proof.
  intros Hwf Ka Kb Hm [A1 A2 A3 A4 A5 A12 A6 A7 A8 A9 A10 A11] HD Hfp. destruct (HD Hfp) as [D1 D2].
  assert (∀ x, m <= x < b → ent s1 own1 1 x = ent s own 1 x) as Hr.
  { intros x Hx. rewrite A2 by (destruct Ka; split; lia). by rewrite decide_False by lia. }
  split.
  - intros x Hd Hx Hne. unfold mapped_page. rewrite Hr in * by done.
    destruct (D1 x Hd ltac:(lia) Hne) as [Hp Hn]. split; [done|]. intros [Hf|Ht].
    + apply A9 in Hf as [Hf|(_ & y & Hy1 & Hy2 & Hy3 & Hy4)]; [by apply Hn; left|].
      assert (x = y) as -> by (apply D2; [done..|lia|lia|done|done|done]). lia.
    + apply Hn. right. by eapply is_table_sub.
  - intros x y Hdx Hdy Hx Hy Hnx Hny E. unfold mapped_page in E. rewrite !Hr in * by done.
    apply D2; [done..|lia|lia|done|done|done].
Qed.

Lemma ent_ext s own l a b : apos l a = apos l b → ent s own l a = ent s own l b.
Proof.
  intros H. unfold ent. rewrite (index_ext l a b H).
  by rewrite <-(apos_nested l (Datatypes.S l) a), H, apos_nested by lia.
Qed.

Lemma kaddr_same l a b : (l ≤ M)%nat → kaddr a → apos l b = apos l a → kaddr b.
Proof.
  intros Hl Ha Hab. pose proof (kaddr_apos la57 l a Hl Ha) as [H1 _]. pose proof (apos_ktop la57 l a Hl (proj2 Ha)).
  pose proof (apos_bounds l b). rewrite Hab in *. split; lia.
Qed.

Lemma zero_below s own l a b :
  pt_wf s own → kaddr a → (l < M)%nat → ent s own (Datatypes.S l) a = 0 →
  apos (Datatypes.S l) b = apos (Datatypes.S l) a → ent s own 1 b = 0.
Proof.
  intros Hwf Ha Hl He Hb. rewrite (ent_ext _ _ _ a b) in He by done.
  destruct l as [|l]; [done|]. assert (kaddr b) as Kb by (eapply kaddr_same; [|exact Ha|exact Hb]; lia).
  pose proof (pw_ent _ _ _ _ _ _ Hwf (Datatypes.S l) b ltac:(lia) Kb) as H. unfold ent at 1.
  destruct (own !! (1%nat, apos 2 b)) as [t|] eqn:Ho; [|done].
  destruct (own_ancestor _ _ _ _ s own 1 (Datatypes.S l) b Hwf Kb ltac:(lia) ltac:(lia)) as [t2 Ht2]; [by eexists|].
  rewrite Ht2 in H. by destruct H.
Qed.

Lemma page_apos b start : (4096 | start) → apos 1 b = apos 1 start ↔ start <= b < start + 4096.
Proof.
  intros Hs. assert (apos 1 start = start) as -> by (by apply apos_fixed). split.
  - intros <-. apply apos_bounds.
  - intros H. apply apos_unique; [done|]. exact H.
Qed.

Lemma add_range_covers tlb start stop b :
  start < stop → tlb_covers tlb b ∨ start <= b < stop → tlb_covers (tlb_add_range tlb start stop) b.
Proof. intros Hlt. unfold tlb_covers, tlb_add_range. repeat (case_decide; simpl); lia. Qed.

Lemma no_table0 s own l B : pt_wf s own → (l < 1)%nat → own !! (l, B) = None.
Proof.
  intros Hwf Hl. destruct (own !! (l, B)) as [t|] eqn:E; [|done].
  destruct (pw_table _ _ _ _ _ _ Hwf _ _ _ E) as [? _]. lia.
Qed.

(** Clearing a last-level entry. *)
Lemma free_leaf_spec fp s own tlb start t :
  pt_wf s own → kaddr start → (4096 | start) → start + 4096 <= ktop →
  own !! (1%nat, apos 2 start) = Some t → data_ok fp s own start (start + 4096) →
  ∃ s' tlb', free_pte_range_level page_map HHDM_OFFSET la57 fp 0 start (start + 4096)
      (mkSlot t (pgtable_index start 1)) (s, tlb) = Some (s', tlb') ∧
    freed fp 0 start (start + 4096) s own tlb s' own tlb' [] ∧ ent s' own 1 start = 0.
Proof.
  intros Hwf Ks Hd Htop Ho Hdata. destruct (pw_table _ _ _ _ _ _ Hwf _ _ _ Ho) as (_ & _ & Hs & _).
  cbn [free_pte_range_level]. rewrite (read_ent s own 1 start t Ho Hs). cbn [mbind option_bind]. unfold pte_empty.
  destruct (decide (ent s own 1 start = 0)) as [Hz|Hnz].
  { rewrite bool_decide_true by done. exists s, tlb. split_and!; try done. apply freed_nothing; [done| |intros l a _ Hl _; by apply (no_table0 s own l); [|lia]].
    intros b Hb. rewrite <-Hz. apply ent_ext, page_apos; done. }
  rewrite bool_decide_false by done. unfold pte_clear.
  destruct (store_leaf _ _ _ _ s own start t 0 Hwf Ho) as (s1 & -> & Hwf1 & Hp1 & Hf1 & _ & He1). cbn [mbind option_bind].
  rewrite add64_small by (unfold PAGE_SIZE; pose proof (ktop_u64 la57); destruct (kaddr_u64 _ _ Ks); lia).
  change (start + PAGE_SIZE) with (start + 4096).
  assert (∀ l b, ent s1 own l b = if decide (l = 1%nat ∧ start <= b < start + 4096) then 0 else ent s own l b) as Hent.
  { intros l b. rewrite He1. apply decide_ext. by rewrite page_apos. }
  assert (∃ s2, (if fp then release_page page_map HHDM_OFFSET s1 (phys_to_page page_map (phys_addr (ent s own 1 start)))
      else Some s1) = Some s2 ∧ pt_wf s2 own ∧ flushed s2 = flushed s1 ∧ (∀ l b, ent s2 own l b = ent s1 own l b) ∧
      ∀ q, ps_free (pool s2) q ↔ ps_free (pool s1) q ∨ (fp = true ∧ q = mapped_page s own start))
    as (s2 & -> & Hwf2 & Hf2 & He2 & Hp2).
  { destruct fp; [|exists s1; split_and!; try done; intros q; naive_solver].
    destruct (proj1 (Hdata eq_refl) start Hd ltac:(lia) Hnz) as [Hpg Hacc].
    destruct (release_wf page_map HHDM_OFFSET la57 root_pgtable s1 own (mapped_page s own start) Hwf1 Hpg)
      as (s2 & E & Hwf2 & Hf2 & Hfree & He2).
    { intros H. apply Hacc. left. by rewrite <-Hp1. } { intros H. apply Hacc. by right. }
    exists s2. split; [exact E|]. split_and!; try done. intros q. rewrite Hfree. naive_solver. }
  cbn [mbind option_bind]. eexists _, _. split; [done|]. split; [|by rewrite He2, Hent, decide_True by lia].
  split; try done.
  - intros b _. rewrite He2, Hent. apply decide_ext. tauto.
  - intros l b Hz. rewrite He2, Hent. by case_decide.
  - intros l B [x Hx]. congruence.
  - intros l a _ Hl _. by apply (no_table0 s own l); [|lia].
  - unfold tlb_add_range. case_decide; simpl; by rewrite app_nil_r.
  - constructor.
  - intros q. rewrite elem_of_nil. tauto.
  - intros q. rewrite Hp2, Hp1. apply or_iff_compat_l, and_iff_compat_l. split.
    + intros ->. exists start. split_and!; [done|lia|lia|done|done].
    + intros (b & Hb1 & Hb2 & _ & ->). f_equal. destruct Hb1 as [i ->], Hd as [j ->]. lia.
  - intros b [H|(_ & H & _)]; apply add_range_covers; [lia|by left|lia|by right].
  - by rewrite Hf2.
Qed.

Lemma page_es l : (1 ≤ l)%nat → (4096 | es l).
Proof. intros Hl. by apply (es_divide 1 l). Qed.

(** [__free_pte_range] at a level does what it should. *)
Definition frees_entry (fp : bool) (k : nat) : Prop := ∀ start stop t s own tlb,
  pt_wf s own → kaddr start → (4096 | start) → (4096 | stop) →
  start < stop <= apos (Datatypes.S k) start + es (Datatypes.S k) → stop <= ktop →
  own !! (Datatypes.S k, apos (Datatypes.S (Datatypes.S k)) start) = Some t → data_ok fp s own start stop →
  ∃ s' tlb' own' nd, free_pte_range_level page_map HHDM_OFFSET la57 fp k start stop
      (mkSlot t (pgtable_index start (Datatypes.S k))) (s, tlb) = Some (s', tlb') ∧
    freed fp k start stop s own tlb s' own' tlb' nd ∧
    ((es (Datatypes.S k) | start) → stop = start + es (Datatypes.S k) → (k < M - 1)%nat →
     ent s' own' (Datatypes.S k) start = 0).

(** A table of a higher level stays. *)
Lemma table_stays fp top l B start stop s own tlb s' own' tlb' nd t :
  freed fp top start stop s own tlb s' own' tlb' nd → (top < l)%nat →
  own !! (l, B) = Some t → own' !! (l, B) = Some t.
Proof.
  intros Hf Hl Ho. destruct (own' !! (l, B)) as [t'|] eqn:H'.
  - pose proof (lookup_weaken _ _ _ _ H' (fr_sub _ _ _ _ _ _ _ _ _ _ _ Hf)). congruence.
  - exfalso. destruct (fr_in _ _ _ _ _ _ _ _ _ _ _ Hf l B ltac:(by eexists) H') as [H1 _]. lia.
Qed.

Lemma aligned_first l start b :
  (es l | b) → start <= b < apos l start + es l → b = start ∧ apos l start = start.
Proof.
  intros Hd Hb. pose proof (apos_bounds l start).
  assert (apos l start = b); [|lia]. rewrite <-(apos_fixed l b Hd). symmetry. apply apos_unique; [apply apos_divide|lia].
Qed.

Lemma entry_loop_spec fp k :
  frees_entry fp k → (k < M)%nat → ∀ fuel start stop t s own tlb,
  let l := Datatypes.S k in
  pt_wf s own → kaddr start → (4096 | start) → (4096 | stop) →
  start < stop <= apos (Datatypes.S l) start + es (Datatypes.S l) → stop <= ktop →
  stop <= apos l start + Z.of_nat fuel * es l →
  own !! (l, apos (Datatypes.S l) start) = Some t → data_ok fp s own start stop →
  ∃ s' tlb' own' nd, entry_loop (free_pte_range_level page_map HHDM_OFFSET la57 fp k) fuel l start stop
      (mkSlot t (pgtable_index start l)) (s, tlb) = Some (s', tlb') ∧
    freed fp k start stop s own tlb s' own' tlb' nd ∧
    ∀ b, (es l | b) → start <= b → b + es l <= stop → (k < M - 1)%nat → ent s' own' l b = 0.
Proof.
  intros IHk HkM fuel. induction fuel as [|fuel IH]; intros start stop t s own tlb l Hwf Ks Hds Hde Hse Htop Hfuel Ho Hdata.
  { pose proof (apos_bounds l start). lia. }
  pose proof (ktop_u64 la57). pose proof (es_pos l) as Hpos. pose proof (apos_bounds l start) as Hb.
  assert (apos l start + es l <= ktop) as Hk by (apply apos_ktop; unfold l; lia).
  pose proof (region_bounds la57) as Hkb. pose proof Ks as [Ks1 Ks2]. cbn [entry_loop].
  rewrite boundary_next_eq; [|by apply kaddr_u64 in Ks|unfold l; destruct (M_cases la57); lia|lia|lia].
  set (next := Z.min stop (apos l start + es l)).
  assert (4096 | next) as Hdn.
  { unfold next. apply Z.min_case; [done|]. pose proof (page_es l ltac:(unfold l; lia)) as He.
    apply Z.divide_add_r; [|done]. etrans; [exact He|apply apos_divide]. }
  destruct (IHk start next t s own tlb) as (s1 & tlb1 & own1 & nd1 & E1 & Hf1 & Hz1); try done.
  { fold l. lia. } { lia. }
  { intros Hfp. destruct (Hdata Hfp) as [D1 D2]. split; [intros b ?? ; apply D1; [done|lia]|]. intros b c ????. apply D2; [done..|lia|lia]. }
  fold l in E1, Hz1. rewrite E1. cbn [mbind option_bind]. destruct (decide (next = stop)) as [Hn|Hn].
  - exists s1, tlb1, own1, nd1. rewrite Hn in *. split_and!; try done. intros b Hdb Hsb Hbe Hlt.
    destruct (aligned_first l start b) as [-> Hst]; [done|lia|]. apply Hz1; [done|lia|done].
  - assert (next = apos l start + es l) as Hnext by lia.
    assert (apos (Datatypes.S l) next = apos (Datatypes.S l) start) as Hsame.
    { apply apos_unique; [apply apos_divide|]. pose proof (apos_bounds (Datatypes.S l) start). lia. }
    assert (next_slot (mkSlot t (pgtable_index start l)) = mkSlot t (pgtable_index next l)) as ->.
    { unfold next_slot. simpl. f_equal. rewrite <-(index_apos l start), Hnext. symmetry. apply index_next; [apply apos_divide|].
      rewrite <-Hnext, Hsame. symmetry. apply apos_nested. lia. }
    assert (apos l next = next) as Hnn by (apply apos_fixed; rewrite Hnext; apply Z.divide_add_r; [apply apos_divide|by exists 1; lia]).
    destruct (IH next stop t s1 own1 tlb1) as (s2 & tlb2 & own2 & nd2 & E2 & Hf2 & Hz2); fold l; rewrite ?Hsame; try done; try lia.
    { apply Hf1. } { split; lia. }
    { eapply table_stays; [exact Hf1|unfold l; lia|done]. }
    { eapply data_ok_rest; [exact Hwf|exact Ks|lia| |exact Hf1|done]. lia. }
    fold l in E2, Hz2. exists s2, tlb2, own2, (nd1 ++ nd2). split; [done|]. split.
    { apply (freed_trans fp k start next stop s own tlb s1 own1 tlb1 nd1); try done; [lia|].
      fold l. rewrite Hnext. apply Z.divide_add_r; [apply apos_divide|by exists 1; lia]. }
    intros b Hdb Hsb Hbe Hlt. destruct (decide (next <= b)) as [Hge|Hlt']; [by apply Hz2|].
    destruct (aligned_first l start b) as [-> Hst]; [done|lia|].
    apply (fr_zero _ _ _ _ _ _ _ _ _ _ _ Hf2). apply Hz1; [done|lia|done].
Qed.

(** Unlinking the table whose entries were all cleared. *)
Lemma unlink_spec fp j start stop s own tlb s1 own1 tlb1 nd t t' :
  let k := Datatypes.S j in
  pt_wf s own → freed fp j start stop s own tlb s1 own1 tlb1 nd → kaddr start → (k < M - 1)%nat →
  (es (Datatypes.S k) | start) → stop = start + es (Datatypes.S k) →
  own !! (Datatypes.S k, apos (Datatypes.S (Datatypes.S k)) start) = Some t →
  own !! (k, apos (Datatypes.S k) start) = Some t' →
  (∀ b, (es k | b) → start <= b → b + es k <= stop → ent s1 own1 k b = 0) →
  ∃ s2 own2 nd2, pte_store s1 (mkSlot t (pgtable_index start (Datatypes.S k))) 0 = Some s2 ∧
    freed fp k start stop s own tlb s2 own2 (tlb_add_pgtable page_map HHDM_OFFSET tlb1 t') nd2 ∧
    ent s2 own2 (Datatypes.S k) start = 0.
Proof.
  intros k Hwf Hf Ks Hk Hd Hstop Ho Ho' Hz. pose proof (fr_wf _ _ _ _ _ _ _ _ _ _ _ Hf) as Hwf1.
  assert (apos (Datatypes.S k) start = start) as Hst by by apply apos_fixed.
  assert (own1 !! (k, apos (Datatypes.S k) start) = Some t') as Ho1' by (eapply table_stays; [exact Hf|unfold k; lia|done]).
  destruct (shrink_wf page_map HHDM_OFFSET la57 root_pgtable s1 own1 k start t' t Hwf1 Ks) as (s2 & E & Hwf2 & Hp2 & Hfl2 & He2).
  { unfold k in *. lia. } { done. } { eapply table_stays; [exact Hf|unfold k; lia|done]. }
  { intros b Hb. rewrite (ent_ext _ _ _ b (apos k b)) by (symmetry; by apply apos_nested).
    pose proof (apos_bounds (Datatypes.S k) b) as Hbb. pose proof (apos_index k b) as Hi. pose proof (index_range b k).
    pose proof (es_pos k). rewrite Hb, Hst in *. rewrite es_succ in *. apply Hz; [apply apos_divide|nia|nia]. }
  set (own2 := delete (k, apos (Datatypes.S k) start) own1) in *.
  destruct (pw_table _ _ _ _ _ _ Hwf1 _ _ _ Ho1') as (_ & _ & _ & Hpg). destruct (Hpg ltac:(lia)) as (p & Hp & Hnf & Et).
  assert (virt_to_page page_map HHDM_OFFSET t' = p) as Hvp by (rewrite Et; by apply (page_of_virt page_map HHDM_OFFSET Hframe)).
  assert (∀ q, ps_page q → q = p ↔ is_table own1 q ∧ ¬ is_table own2 q) as Hq.
  { intros q Hq. split.
    - intros ->. split; [eexists; by rewrite <-Et|]. intros [κ [Hne Hκ]%lookup_delete_Some]. apply Hne.
      eapply (pw_inj _ _ _ _ _ _ Hwf1); [exact Ho1'|by rewrite Et].
    - intros [[κ Hκ] Hn]. destruct (decide (κ = (k, apos (Datatypes.S k) start))) as [->|Hne].
      + rewrite Ho1' in Hκ. injection Hκ as Hκ. apply (page_virt_inj page_map HHDM_OFFSET Hframe); [done..|]. by rewrite <-Hκ.
      + destruct Hn. exists κ. unfold own2. by rewrite lookup_delete_ne. }
  exists s2, own2, (nd ++ [p]). split; [done|]. split; [|by rewrite He2, decide_True].
  assert (own2 ⊆ own1) as Hsub by apply delete_subseteq.
  destruct Hf as [F1 F2 F3 F4 F5 F12 F6 F7 F8 F9 F10 F11]. split; try done.
  - intros b Hb. rewrite He2, decide_False by (unfold k; intros [[=] _]). by apply F2.
  - intros l b Hb. rewrite He2. case_decide; [done|]. by apply F3.
  - by etrans.
  - intros l B Hs H2. destruct (decide ((l, B) = (k, apos (Datatypes.S k) start))) as [[= -> ->]|Hne].
    + rewrite Hst. lia.
    + unfold own2 in H2. rewrite lookup_delete_ne in H2 by done. destruct (F5 l B Hs H2) as (? & ? & ? & ?). unfold k. lia.
  - intros l a Ha Hl Hso. unfold own2. destruct (decide (l = k)) as [->|Hlk].
    + destruct Hso as (_ & H1 & H2). assert (apos (Datatypes.S k) a = apos (Datatypes.S k) start) as -> by lia. apply lookup_delete_eq.
    + rewrite lookup_delete_ne by congruence. apply F12; [done|unfold k in *; lia|done].
  - simpl. by rewrite F6, Hvp, app_assoc.
  - apply NoDup_app. split_and!; [done| |apply NoDup_singleton]. intros q (Hqp & _ & Hn)%F8 ->%list_elem_of_singleton.
    by apply Hn, Hq.
  - intros q. rewrite elem_of_app, list_elem_of_singleton, F8.
    pose proof (unlinked_trans s own own1 own2 q Hwf F4 Hsub) as Hu. split.
    + intros [(A & B & C)|Hqp]; [tauto|]. assert (ps_page q) as Hqq by by rewrite Hqp. apply Hq in Hqp; tauto.
    + intros (A & B & C). specialize (Hq q A). tauto.
  - intros q. rewrite Hp2. apply F9.
  - by rewrite Hfl2.
Qed.

Lemma freed_weaken fp top top' start stop s own tlb s' own' tlb' nd :
  (top ≤ top')%nat → (∀ l a, (top < l ≤ top')%nat → serves_only start stop l a → False) →
  freed fp top start stop s own tlb s' own' tlb' nd → freed fp top' start stop s own tlb s' own' tlb' nd.
Proof.
  intros Ht Hno [F1 F2 F3 F4 F5 F12 F6 F7 F8 F9 F10 F11]. split; try done.
  - intros l B Hs H2. destruct (F5 l B Hs H2) as (? & ? & ? & ?). split_and!; try done. lia.
  - intros l a Ha Hl Hso. destruct (decide (l ≤ top)%nat); [by apply F12|]. destruct (Hno l a); [lia|done].
Qed.

(** The test for a whole entry. *)
Lemma full_spec l start stop :
  (l ≤ M)%nat → kaddr start → start < stop <= apos l start + es l → stop <= ktop →
  bool_decide (start = align_down start (pgtable_entry_size l)) && bool_decide (stop = align_up stop (pgtable_entry_size l)) = true ↔
  (es l | start) ∧ stop = start + es l.
Proof.
  intros Hl Ks Hse Htop. assert (l ≤ 6)%nat as Hl6 by (destruct (M_cases la57); lia).
  rewrite entry_size_eq by done. pose proof (es_is_pow2 l Hl6) as Hp. pose proof (kaddr_u64 _ _ Ks) as Hu.
  pose proof (ktop_u64 la57). pose proof (es_pos l) as Hpos. destruct Hu as [Hu1 Hu2].
  rewrite align_down_eq by (done || split; done).
  assert (start = start - start mod es l ↔ (es l | start)) as H1.
  { rewrite <-Z.mod_divide by lia. lia. }
  assert (stop = align_up stop (es l) ↔ (es l | stop)) as H2.
  { split.
    - intros E. rewrite E, align_up_eq by done. rewrite Z.mod_eq by lia. eexists. by rewrite Z.sub_sub_distr, Z.sub_diag, Z.add_0_l, Z.mul_comm.
    - intros Hd. symmetry. apply align_up_fixed; [split; lia|done|]. by apply Z.mod_divide; [lia|]. }
  rewrite andb_true_iff, !bool_decide_eq_true, H1, H2. split.
  - intros [Hd1 Hd2]. split; [done|]. pose proof (apos_fixed l start Hd1) as Ha. rewrite Ha in *.
    destruct Hd1 as [q ->], Hd2 as [r ->].
    assert (q < r) by (apply (Z.mul_lt_mono_pos_r (es l)); lia).
    assert (r <= q + 1) by (apply (Z.mul_le_mono_pos_r _ _ (es l)); lia). assert (r = q + 1) as -> by lia. lia.
  - intros [Hd ->]. split; [done|]. apply Z.divide_add_r; [done|]. by exists 1; lia.
Qed.

(** [__free_pte_range] *)
Lemma free_level_spec fp k : (k < M)%nat → frees_entry fp k.
Proof.
  induction k as [|j IH]; intros HkM start stop t s own tlb Hwf Ks Hds Hde Hse Htop Ho Hdata.
  { assert (apos 1 start = start) as Ha by (by apply apos_fixed). rewrite Ha in Hse. change (es 1) with 4096 in *.
    assert (stop = start + 4096) as -> by (destruct Hds as [q ->], Hde as [r ->]; lia).
    destruct (free_leaf_spec fp s own tlb start t) as (s' & tlb' & E & Hf & Hz); try done. by exists s', tlb', own, []. }
  set (k := Datatypes.S j) in *. destruct (pw_table _ _ _ _ _ _ Hwf _ _ _ Ho) as (_ & _ & Hs & _).
  unfold k at 1. cbn [free_pte_range_level]. rewrite (read_ent s own _ start t Ho Hs). cbn [mbind option_bind].
  unfold pte_empty. pose proof (pw_ent _ _ _ _ _ _ Hwf k start ltac:(unfold k; lia) Ks) as He.
  destruct (own !! (k, apos (Datatypes.S k) start)) as [t'|] eqn:Ho'.
  2:{ rewrite bool_decide_true by done. exists s, tlb, own, []. split_and!; try done. apply freed_nothing; [done|..].
      - intros b Hb. eapply zero_below; [exact Hwf|exact Ks|exact HkM|exact He|]. apply apos_unique; [apply apos_divide|].
        pose proof (apos_bounds (Datatypes.S k) start). lia.
      - intros l a Ha Hl (_ & H1 & H2). destruct (own !! (l, apos (Datatypes.S l) a)) as [x|] eqn:Ex; [|done]. exfalso.
        destruct (pw_table _ _ _ _ _ _ Hwf _ _ _ Ex) as ([Hl1 _] & _).
        assert (apos (Datatypes.S k) a = apos (Datatypes.S k) start) as Hsame.
        { apply apos_unique; [apply apos_divide|]. pose proof (apos_bounds (Datatypes.S k) start). pose proof (apos_bounds (Datatypes.S l) a). lia. }
        destruct (decide (l = k)) as [->|Hlk]; [congruence|].
        destruct (own_ancestor _ _ _ _ s own l k a Hwf Ha ltac:(lia) ltac:(unfold k in *; lia)) as [t2 Ht2]; [by eexists|]. congruence. }
  destruct He as [He1 He2]. rewrite bool_decide_false by done. unfold pgtable_entry. rewrite He2.
  pose proof (apos_bounds (Datatypes.S k) start) as Hb1. pose proof (apos_index k start) as Hi. pose proof (index_range start k).
  pose proof (es_pos k) as Hpos.
  destruct (entry_loop_spec fp j (IH ltac:(lia)) ltac:(lia) 512 start stop t' s own tlb)
    as (s1 & tlb1 & own1 & nd & E1 & Hf1 & Hz1); try done.
  { fold k. rewrite es_succ in Hse. nia. }
  fold k in E1, Hz1. change (Datatypes.S j) with k. rewrite E1. cbn [mbind option_bind].
  destruct (_ && bool_decide (k < M - 1)%nat) eqn:Efull.
  - apply andb_true_iff in Efull as [[Hd Hst]%full_spec Hlt%bool_decide_eq_true]; try done.
    destruct (unlink_spec fp j start stop s own tlb s1 own1 tlb1 nd t t' Hwf Hf1 Ks Hlt Hd Hst Ho Ho')
      as (s2 & own2 & nd2 & E2 & Hf2 & Hz2).
    { intros b ???. apply Hz1; [done..|unfold k in *; lia]. }
    unfold pte_clear. fold k in E2. rewrite E2. cbn [mbind option_bind].
    exists s2, (tlb_add_pgtable page_map HHDM_OFFSET tlb1 t'), own2, nd2. done.
  - assert ((es (Datatypes.S k) | start) → stop = start + es (Datatypes.S k) → (k < M - 1)%nat → False) as Hnf.
    { intros Hd Hst Hlt. apply andb_false_iff in Efull as [Efull|Efull%bool_decide_eq_false]; [|done].
      apply not_true_iff_false in Efull. destruct Efull. by apply full_spec. }
    exists s1, tlb1, own1, nd. split; [done|]. split; [|intros Hd Hst Hlt; by destruct (Hnf Hd Hst Hlt)].
    apply (freed_weaken fp j k); [unfold k; lia| |exact Hf1]. intros l a Hl (Hlm & H1 & H2). assert (l = k) as -> by (unfold k in *; lia).
    pose proof (apos_bounds (Datatypes.S k) a). assert (apos (Datatypes.S k) a = apos (Datatypes.S k) start) as Ha.
    { rewrite <-(apos_fixed (Datatypes.S k) (apos (Datatypes.S k) a)) by apply apos_divide. apply apos_unique; [apply apos_divide|lia]. }
    apply Hnf; [|lia|done]. assert (start = apos (Datatypes.S k) a) as -> by lia. apply apos_divide.
Qed.

(** Freeing the deferred tables. *)
Lemma release_pages_spec own ps : ∀ s,
  pt_wf s own → NoDup ps → (∀ p, p ∈ ps → ps_page p ∧ ¬ ps_free (pool s) p ∧ ¬ is_table own p) →
  ∃ s', release_pages page_map HHDM_OFFSET s ps = Some s' ∧ pt_wf s' own ∧ flushed s' = flushed s ∧
    (∀ q, ps_free (pool s') q ↔ ps_free (pool s) q ∨ q ∈ ps) ∧ ∀ l b, ent s' own l b = ent s own l b.
Proof.
  induction ps as [|p ps IH]; intros s Hwf Hnd Hps; cbn [release_pages].
  { exists s. split_and!; try done. intros q. rewrite elem_of_nil. tauto. }
  apply NoDup_cons in Hnd as [Hn Hnd]. destruct (Hps p) as (Hp & Hf & Ht); [set_solver|].
  destruct (release_wf _ _ _ _ s own p Hwf Hp Hf Ht) as (s1 & -> & Hwf1 & Hfl1 & Hp1 & He1). cbn [mbind option_bind].
  destruct (IH s1 Hwf1 Hnd) as (s2 & -> & Hwf2 & Hfl2 & Hp2 & He2).
  { intros q Hq. destruct (Hps q) as (H1 & H2 & H3); [set_solver|]. split_and!; try done. rewrite Hp1.
    intros [|Heq]; [done|congruence]. }
  exists s2. split_and!; try done; [congruence| |by intros l b; rewrite He2].
  intros q. rewrite Hp2, Hp1, elem_of_cons. tauto.
Qed.

(** What [free_pte_range] has done in the end. *)
Definition unmapped (fp : bool) (start stop : Z) s own s' own' : Prop :=
  pt_wf s' own' ∧ own' ⊆ own ∧
  (∀ b, kaddr b → ent s' own' 1 b = if decide (start <= b < stop) then 0 else ent s own 1 b) ∧
  (∀ p, ps_page p → accounted s' own' p ↔ accounted s own p ∨
     (fp = true ∧ ∃ b, (4096 | b) ∧ start <= b < stop ∧ ent s own 1 b ≠ 0 ∧ p = mapped_page s own b)) ∧
  ∃ l, flushed s' = flushed s ++ l ∧
    ∀ b, kaddr b → start <= b < stop → ent s own 1 b ≠ 0 → ∃ x y, (x, y) ∈ l ∧ x <= b < y.

Lemma tlb_end_spec fp top start stop s own s1 own1 tlb nd :
  pt_wf s own → data_ok fp s own start stop →
  freed fp top start stop s own (mkTlb 0 0 []) s1 own1 tlb nd →
  ∃ s' tlb', tlb_end_kernel page_map HHDM_OFFSET s1 tlb = Some (s', tlb') ∧ unmapped fp start stop s own s' own1.
Proof.
  intros Hwf Hdata [F1 F2 F3 F4 F5 _ F6 F7 F8 F9 F10 F11]. simpl in F6. unfold tlb_end_kernel. rewrite F6.
  set (sf := mkVm (tables s1) (pool s1) (flushed s1 ++ [(flush_range_start tlb, flush_range_end tlb)])).
  assert (∀ p, p ∈ nd → ps_page p ∧ ¬ ps_free (pool s1) p ∧ ¬ is_table own1 p) as Hnd.
  { intros p (Hp & Ht & Hn)%F8. split_and!; try done. rewrite F9. intros [Hf|(Hfp & b & Hb1 & Hb2 & Hb3 & ->)].
    - destruct Ht as [κ Hκ]. by apply (own_not_page page_map HHDM_OFFSET la57 root_pgtable Hframe Hroot s own κ _ p Hwf Hκ Hp Hf).
    - destruct (proj1 (Hdata Hfp) b Hb1 Hb2 Hb3) as [_ Hacc]. apply Hacc. by right. }
  assert (∀ s', pt_wf s' own1 → (∀ q, ps_free (pool s') q ↔ ps_free (pool s1) q ∨ q ∈ nd) →
    (∀ l b, ent s' own1 l b = ent s1 own1 l b) →
    (∃ l, flushed s' = flushed s ++ l ∧ ∀ b, kaddr b → start <= b < stop → ent s own 1 b ≠ 0 → ∃ x y, (x, y) ∈ l ∧ x <= b < y) →
    unmapped fp start stop s own s' own1) as Hfin.
  { intros s' Hw' Hp' He' Hfl'. split_and!; try done; [by intros b Hb; rewrite He', F2|]. intros p Hp. unfold accounted.
    rewrite Hp', F9, F8. split.
    - intros [[[?|?]|(_ & ? & _)]|?]; [by left; left|by right|by left; right|]. left; right. by eapply is_table_sub.
    - intros [[?|[κ Hκ]]|?]; [by left; left; left| |by left; left; right].
      destruct (own1 !! κ) as [t|] eqn:Hκ1.
      + right. exists κ. pose proof (lookup_weaken _ _ _ _ Hκ1 F4). congruence.
      + left; right. split_and!; [done|by exists κ|]. intros [κ' Hκ']. pose proof (lookup_weaken _ _ _ _ Hκ' F4) as Hκ2.
        pose proof (pw_inj _ _ _ _ _ _ Hwf _ _ _ Hκ Hκ2). congruence. }
  unfold tlb_accumulator_empty. rewrite F6. destruct (_ && _) eqn:Eempty.
  - apply andb_true_iff in Eempty as [E1%bool_decide_eq_true E2%bool_decide_eq_true]. rewrite E2 in *. simpl in *.
    eexists _, _. split; [done|]. apply Hfin; try done.
    + intros q. rewrite elem_of_nil. tauto.
    + exists []. rewrite app_nil_r. split; [done|]. intros b Hb Hr Hne. exfalso.
      specialize (F10 b (or_intror (conj Hb (conj Hr Hne)))). unfold tlb_covers in F10. lia.
  - simpl. destruct (release_pages_spec own1 nd sf) as (s' & -> & Hw' & Hfl' & Hp' & He').
    { destruct F1; by split. } { done. } { done. }
    cbn [mbind option_bind]. eexists _, _. split; [done|]. apply Hfin; try done.
    exists [(flush_range_start tlb, flush_range_end tlb)]. split; [rewrite Hfl'; simpl; by rewrite F11|].
    intros b Hb Hr Hne. eexists _, _. split; [by apply list_elem_of_singleton|]. apply F10. by right.
Qed.

(** A range that [free_pte_range] may be called for: not empty, or not at the
    first address of an entry of the root table. *)
Definition freeable (start stop ceiling : Z) : Prop :=
  start < stop ∨ (start = stop ∧ ¬ (es M | start) ∧ (ceiling = 0 ∨ start < ceiling)).

(** The range whose tables are given back: from [floor] to [ceiling], but not
    beyond the entries of the root table that [start] and [stop] lie in. *)
Definition free_from (start floor : Z) : Z := Z.max floor (align_down start (es M)).
Definition free_to (stop ceiling : Z) : Z :=
  if decide (ceiling = 0) then align_up stop (es M) else Z.min ceiling (align_up stop (es M)).

(** The bounds [free_pte_range] computes. *)
Lemma free_bounds start stop floor ceiling :
  kaddr start → freeable start stop ceiling → stop <= ktop → (4096 | start) → (4096 | stop) → (4096 | floor) → (4096 | ceiling) →
  0 <= floor <= start → (ceiling = 0 ∨ stop <= ceiling) →
  let F := max floor (align_down start (pgtable_entry_size M)) in
  let tmp := align_up stop (pgtable_entry_size M) in
  let C := if decide (tmp ≠ 0) then (if decide (ceiling ≠ 0) then min ceiling tmp else tmp) else ceiling in
  F = free_from start floor ∧ C = free_to stop ceiling ∧
  kaddr F ∧ floor <= F <= start ∧ stop <= C <= ktop ∧ F < C ∧ (4096 | F) ∧ (4096 | C) ∧ (ceiling ≠ 0 → C <= ceiling).
Proof.
  intros Ks Hse Htop Hds Hde Hdf Hdc Hfl Hce F tmp C. assert (start <= stop) as Hle by (unfold freeable in Hse; lia).
  assert (M ≤ 6)%nat as HM6 by (destruct (M_cases la57); lia). pose proof (es_is_pow2 M HM6) as Hp2.
  pose proof (kaddr_u64 _ _ Ks) as Hu. pose proof (ktop_u64 la57). pose proof (es_pos M) as Hpos.
  assert (4096 | es M) as H4096 by (apply page_es; destruct (M_cases la57); lia).
  assert (align_down start (pgtable_entry_size M) = apos M start) as Hdown.
  { rewrite entry_size_eq, align_down_eq by done. unfold apos. rewrite Z.mod_eq by lia. lia. }
  assert (stop <= tmp <= ktop ∧ (es M | tmp)) as [[Ht1 Ht2] Ht3].
  { unfold tmp. rewrite entry_size_eq by done. destruct Hu as [Hu1 Hu2].
    destruct (align_up_spec stop (es M)) as [(_ & (H1 & H2 & H3) & _)|[Ho _]]; [split; lia|done| |pose proof (region_bounds la57); lia].
    split; [|by apply Z.mod_divide; [lia|]]. split; [done|]. apply H3; [done|].
    apply Z.mod_divide; [lia|]. apply (ktop_divide la57). lia. }
  assert (tmp ≠ 0) as Ht0 by (destruct Hu; pose proof Ks as [? ?]; pose proof (region_bounds la57); intros E0; rewrite E0 in *; lia).
  split; [unfold F, free_from; by rewrite max_spec, entry_size_eq|].
  split; [unfold C, free_to, tmp in *; rewrite entry_size_eq in * by done; rewrite decide_True by done; rewrite min_spec; repeat case_decide; done|].
  unfold F, C. rewrite Hdown, max_spec, min_spec. pose proof (apos_bounds M start). pose proof Ks as [K1 K2].
  pose proof (kaddr_apos la57 M start ltac:(lia) Ks) as [K3 K4].
  assert (4096 | apos M start) by (etrans; [exact H4096|apply apos_divide]).
  assert (4096 | tmp) by (etrans; [exact H4096|exact Ht3]).
  assert (start < tmp ∧ (ceiling ≠ 0 → start < ceiling)) as [Ht4 Ht5].
  { destruct Hse as [|(Heq & Hna & Hc)]; [lia|]. split; [|lia]. destruct (decide (tmp = start)) as [E|]; [by rewrite E in Ht3|lia]. }
  rewrite decide_True by (destruct Hu; lia). split_and!; try lia.
  - split; lia.
  - case_decide; lia.
  - case_decide; lia.
  - case_decide; lia.
  - apply Z.max_case; done.
  - case_decide; [|done]. apply Z.min_case; done.
  - intros Hc. rewrite decide_True by done. lia.
Qed.

(** [free_pte_range] *)
Lemma free_pte_range_spec fp s own start stop floor ceiling :
  pt_wf s own → kaddr start → freeable start stop ceiling → stop <= ktop →
  (4096 | start) → (4096 | stop) → (4096 | floor) → (4096 | ceiling) →
  0 <= floor <= start → (ceiling = 0 ∨ stop <= ceiling) →
  (∀ b, kaddr b → floor <= b < start ∨ (stop <= b ∧ (ceiling ≠ 0 → b < ceiling)) → ent s own 1 b = 0) →
  data_ok fp s own start stop →
  ∃ s' own', free_pte_range page_map HHDM_OFFSET la57 root_pgtable s start stop floor ceiling fp = Some s' ∧
    unmapped fp start stop s own s' own' ∧
    ∀ l a, kaddr a → is_Some (own !! (l, apos (Datatypes.S l) a)) →
      own' !! (l, apos (Datatypes.S l) a) = None ↔ serves_only (free_from start floor) (free_to stop ceiling) l a.
Proof.
  intros Hwf Ks Hse Htop Hds Hde Hdf Hdc Hfl Hce Hclear Hdata. unfold free_pte_range.
  assert (start <= stop) as Hle by (unfold freeable in Hse; lia).
  destruct (free_bounds start stop floor ceiling) as (<- & <- & KF & HF & HC & HFC & HdF & HdC & HCc); try done.
  set (F := max floor (align_down start (pgtable_entry_size M))) in *.
  set (C := if decide (align_up stop (pgtable_entry_size M) ≠ 0) then _ else ceiling) in *.
  pose proof (ktop_u64 la57). assert (∀ b, F <= b < C → kaddr b) as HK by (intros b Hb; destruct KF; split; lia).
  assert (∀ b, F <= b < C → ent s own 1 b ≠ 0 → start <= b < stop) as Hin.
  { intros b Hb Hne. destruct (decide (start <= b < stop)) as [|Ho]; [done|]. destruct Hne. apply Hclear; [by apply HK|].
    destruct (decide (b < start)); [left; lia|right; split; [lia|]]. intros Hc. specialize (HCc Hc). lia. }
  assert (data_ok fp s own F C) as Hdata'.
  { intros Hfp. destruct (Hdata Hfp) as [D1 D2]. split.
    - intros b Hd Hb Hne. apply D1; [done|by apply Hin|done].
    - intros b c Hdb Hdc' Hb Hc Hnb Hnc. apply D2; [done..|by apply Hin|by apply Hin|done|done]. }
  assert (∃ k, M = Datatypes.S k) as [k Ek] by (destruct (M_cases la57); eauto).
  assert (apos (Datatypes.S M) F = kbase la57) as HaF by (by apply kaddr_root).
  pose proof (apos_bounds M F) as HbF. pose proof (region_bounds la57) as Hreg.
  pose proof (apos_greatest M F _ (kfirst_divide la57 M ltac:(lia)) (proj1 KF)).
  destruct (entry_loop_spec fp k (free_level_spec fp k ltac:(lia)) ltac:(lia) 512 F C (get_vmap_pgtable HHDM_OFFSET root_pgtable)
    s own (mkTlb 0 0 [])) as (s1 & tlb1 & own1 & nd & E1 & Hf1 & _); rewrite <-?Ek; try done; try lia.
  { rewrite HaF. unfold kbase. lia. }
  { unfold kbase in *. rewrite es_succ in *. lia. }
  { rewrite HaF. apply (pw_root _ _ _ _ _ _ Hwf). }
  unfold get_vmap_pgtable_entry. rewrite <-Ek in E1. replace (M - 1)%nat with k by lia.
  change (tlb_begin_kernel (mkTlb 0 0 [])) with (mkTlb 0 0 []). rewrite E1. cbn [mbind option_bind].
  destruct (tlb_end_spec fp k F C s own s1 own1 tlb1 nd Hwf Hdata' Hf1) as (s' & tlb' & -> & U1 & U2 & U3 & U4 & l & U5 & U6).
  cbn [mbind option_bind]. exists s', own1. split; [done|]. split; [|].
  2:{ intros l' a Ha Hs. split.
      - intros Hn. destruct (fr_in _ _ _ _ _ _ _ _ _ _ _ Hf1 _ _ Hs Hn) as (_ & H1 & H2 & H3). done.
      - intros Hso. apply (fr_all _ _ _ _ _ _ _ _ _ _ _ Hf1); [done| |done]. destruct Hso. lia. }
  split_and!; try done.
  - intros b Kb. rewrite U3 by done. destruct (decide (F <= b < C)) as [Hb|Hb].
    + case_decide as Hb2; [done|]. destruct (decide (ent s own 1 b = 0)) as [|Hne]; [done|]. by destruct Hb2; apply Hin.
    + by rewrite decide_False by lia.
  - intros p Hp. rewrite U4 by done. apply or_iff_compat_l, and_iff_compat_l. split; intros (b & H1 & H2 & H3 & H4); exists b.
    + split_and!; try done; by apply Hin.
    + split_and!; try done; lia.
  - exists l. split; [done|]. intros b Kb Hb. apply U6; [done|lia].
Qed.

(** [get_pte] makes the tables on the way to the last-level entry of an
    address, or returns null when there is no page for one.  Either way the tree
    of tables stays well formed, what the processor translates stays the same
    for every address, and no page is lost: each is in the allocator, a table,
    or neither, as before.  The entry returned is the right one: storing a value
    there makes the processor translate exactly the addresses of that page to
    it. *)
Theorem get_pte_correct s own a :
  pt_wf s own → kaddr a →
  ∃ r s' own', get_pte page_map HHDM_OFFSET la57 root_pgtable s a = Some (r, s') ∧ pt_wf s' own' ∧
    (∀ b, kaddr b → translate HHDM_OFFSET la57 root_pgtable s' b = translate HHDM_OFFSET la57 root_pgtable s b) ∧
    (∀ p, ps_page p → accounted s' own' p ↔ accounted s own p) ∧
    ∀ e v, r = Some e → ∃ s2, pte_install s' e v = Some s2 ∧ pt_wf s2 own' ∧
      ∀ b, kaddr b → translate HHDM_OFFSET la57 root_pgtable s2 b =
        if decide (apos 1 b = apos 1 a) then Some v else translate HHDM_OFFSET la57 root_pgtable s b.
Proof.
  intros Hwf Ha. destruct (get_pte_spec s own a Hwf Ha) as (r & s' & own' & E & Hwf' & (H1 & H2 & H3 & H4) & Hr).
  exists r, s', own'. split_and!; try done.
  - intros b Hb. by rewrite (translate_ent _ _ _ _ s' own'), (translate_ent _ _ _ _ s own), H1 by done.
  - intros e v ->. destruct Hr as (t1 & Ho & ->).
    destruct (store_leaf _ _ _ _ s' own' a t1 v Hwf' Ho) as (s2 & E2 & Hwf2 & _ & _ & _ & He2).
    exists s2. split_and!; try done. intros b Hb.
    rewrite (translate_ent _ _ _ _ s2 own'), (translate_ent _ _ _ _ s own), He2, H1 by done.
    destruct (decide (apos 1 b = apos 1 a)); [by rewrite decide_True|by rewrite decide_False by tauto].
Qed.

(** C17. [free_pte_range] of a range of the kernel's virtual address space, with
    a floor and a ceiling between which nothing but the range is mapped, where the
    range is not empty or at least does not begin at an entry of the root table,
    and where with [free_pages] every page mapped in the range is mapped once and
    is neither free nor a page table.  It terminates without touching a freed table.  Afterwards the processor
    translates no address of the range and every other address as before; the
    tables that are left are well formed.  The tables that are unlinked are
    exactly those that serve no address outside the floor and the ceiling, cut
    off at the entries of the root table the range lies in, and are not of the
    two highest levels; their pages are back in the allocator, and with
    [free_pages] so is every page that was mapped in the range; no other page
    changes hands.  Every address that was mapped in the range was in a range all
    CPUs were told to flush. *)
Theorem free_pte_range_correct fp s own start stop floor ceiling :
  pt_wf s own → kaddr start → freeable start stop ceiling → stop <= ktop →
  (4096 | start) → (4096 | stop) → (4096 | floor) → (4096 | ceiling) →
  0 <= floor <= start → (ceiling = 0 ∨ stop <= ceiling) →
  (∀ b, kaddr b → floor <= b < start ∨ (stop <= b ∧ (ceiling ≠ 0 → b < ceiling)) →
     translate HHDM_OFFSET la57 root_pgtable s b = Some 0) →
  data_ok fp s own start stop →
  ∃ s' own' l, free_pte_range page_map HHDM_OFFSET la57 root_pgtable s start stop floor ceiling fp = Some s' ∧
    pt_wf s' own' ∧
    (∀ b, kaddr b → translate HHDM_OFFSET la57 root_pgtable s' b =
       if decide (start <= b < stop) then Some 0 else translate HHDM_OFFSET la57 root_pgtable s b) ∧
    (∀ lv a t, kaddr a → own !! (lv, apos (Datatypes.S lv) a) = Some t →
       (serves_only (free_from start floor) (free_to stop ceiling) lv a ∧
          own' !! (lv, apos (Datatypes.S lv) a) = None ∧
          ∃ p, ps_page p ∧ t = page_to_virt page_map HHDM_OFFSET p ∧ ps_free (pool s') p) ∨
       (¬ serves_only (free_from start floor) (free_to stop ceiling) lv a ∧
          own' !! (lv, apos (Datatypes.S lv) a) = Some t)) ∧
    (∀ p, ps_page p → accounted s' own' p ↔ accounted s own p ∨
       (fp = true ∧ ∃ b, (4096 | b) ∧ start <= b < stop ∧ ent s own 1 b ≠ 0 ∧ p = mapped_page s own b)) ∧
    flushed s' = flushed s ++ l ∧
    ∀ b, kaddr b → start <= b < stop → translate HHDM_OFFSET la57 root_pgtable s b ≠ Some 0 →
      ∃ x y, (x, y) ∈ l ∧ x <= b < y.
Proof.
  intros Hwf Ks Hse Htop Hds Hde Hdf Hdc Hfl Hce Hclear Hdata.
  destruct (free_pte_range_spec fp s own start stop floor ceiling)
    as (s' & own' & E & (U1 & U2 & U3 & U4 & l & U5 & U6) & U7); try done.
  { intros b Kb Hb. specialize (Hclear b Kb Hb). rewrite (translate_ent _ _ _ _ s own) in Hclear by done. congruence. }
  exists s', own', l. split_and!; try done.
  - intros b Kb. rewrite (translate_ent _ _ _ _ s' own'), (translate_ent _ _ _ _ s own), U3 by done. by case_decide.
  - intros lv a t Ka Ho. specialize (U7 lv a Ka ltac:(by eexists)).
    destruct (own' !! (lv, apos (Datatypes.S lv) a)) as [t'|] eqn:Ho'.
    + right. split; [by intros H%U7|]. by rewrite <-(lookup_weaken _ _ _ _ Ho' U2), Ho.
    + left. destruct U7 as [Hso _]. specialize (Hso eq_refl). split_and!; [done|done|].
      destruct (pw_table _ _ _ _ _ _ Hwf _ _ _ Ho) as (_ & _ & _ & Hpg). destruct Hpg as (p & Hp & _ & ->); [destruct Hso; lia|].
      exists p. split_and!; try done. assert (accounted s' own' p) as [?|[κ Hκ]]; [|done|].
      { apply U4; [done|]. left. right. by eexists. }
      pose proof (lookup_weaken _ _ _ _ Hκ U2) as Hκ2. pose proof (pw_inj _ _ _ _ _ _ Hwf _ _ _ Ho Hκ2). congruence.
  - intros b Kb Hb Hne. apply U6; [done..|]. rewrite (translate_ent _ _ _ _ s own) in Hne by done. congruence.
Qed.

End vmap_pt.
