(* ===== verification/Vmap.v ===== *)
(** * Virtual mappings ([mm/vmap.cc])

    The areas of the kernel's virtual address space live in the VMA tree, their
    objects come from [kmalloc], their pages and page tables from the page
    allocator.  Both neighbours are interfaces here: [AreaTree] for the tree and
    [AreaSource] for the memory; [VmapHeap] provides the implementations.  The
    operations run one after the other; [vmap_lock] is therefore left out. *)

From S2P Require Import Prelude Align LinkedList VmaFree PageAlloc.
From S2P Require Export VmapPt.

(** ** The interfaces *)

(** Areas in address order, each with its first and last address. *)
Abbreviation areas := (list (loc * Z * Z)).
Definition area_ptr (a : loc * Z * Z) : loc := a.1.1.

(** What [vmap.cc] needs of the tree of areas. *)
Class AreaTree (T : Type) := {
  at_rep : T → areas → Prop;                  (* the tree holds these areas *)
  at_node : loc → Prop;                       (* an object that may be a node *)
  at_bounds : T → loc → option (Z * Z);       (* [node.first], [node.last] *)
  at_set_bounds : T → loc → Z → Z → T;        (* ... of an object not in the tree *)
  at_insert : T → loc → option T;
  at_remove : T → loc → option T;
  at_find : T → Z → option ptr;
  at_prev : T → loc → option ptr;
  at_next : T → loc → option ptr;
  at_find_free_bottomup : T → request → option (option Z);
  at_sorted t R : at_rep t R → NoDup (area_ptr <$> R) ∧
    ∀ R1 x f e R2, R = R1 ++ (x, f, e) :: R2 → (0 <= f <= e)%Z ∧ (e < 2 ^ 64)%Z ∧
      (∀ y f' e', (y, f', e') ∈ R1 → e' < f)%Z ∧ (∀ y f' e', (y, f', e') ∈ R2 → e < f')%Z;
  at_bounds_ok t R x f e : at_rep t R → (x, f, e) ∈ R → at_bounds t x = Some (f, e);
  at_insert_ok t R x f e : at_rep t R → at_node x → x ∉ area_ptr <$> R → (0 <= f <= e)%Z → (e < 2 ^ 64)%Z →
    disjoint_from f e R →
    ∃ t' R1 R2, at_insert (at_set_bounds t x f e) x = Some t' ∧ R = R1 ++ R2 ∧ at_rep t' (R1 ++ (x, f, e) :: R2);
  at_remove_ok t R1 x f e R2 : at_rep t (R1 ++ (x, f, e) :: R2) →
    ∃ t', at_remove t x = Some t' ∧ at_rep t' (R1 ++ R2);
  at_find_ok t R a : at_rep t R → ∃ o, at_find t a = Some o ∧
    match o with
    | Some x => ∃ f e, (x, f, e) ∈ R ∧ (f <= a <= e)%Z
    | None => ∀ x f e, (x, f, e) ∈ R → ¬ (f <= a <= e)%Z
    end;
  at_prev_ok t R1 x f e R2 : at_rep t (R1 ++ (x, f, e) :: R2) → at_prev t x = Some (area_ptr <$> list.last R1);
  at_next_ok t R1 x f e R2 : at_rep t (R1 ++ (x, f, e) :: R2) → at_next t x = Some (area_ptr <$> head R2);
  at_find_free_ok t R q : at_rep t R → request_ok q →
    ∃ res, at_find_free_bottomup t q = Some res ∧ lowest_fit q R res;
  at_find_free_big t q : (max_addr q < req_size q)%Z → at_find_free_bottomup t q = Some None;
}.

(** What it needs of the memory: pages, and objects of the size of a
    [vmap_area].  The pages [kmalloc] holds count as [ps_free], so that
    [as_alloc] and [as_free] change none. *)
Class AreaSource (S : Type) := {
  as_pages :: PageSource S;
  as_live : S → loc → Prop;                   (* the objects handed out *)
  as_alloc : S → option (option loc * S);     (* [kmalloc (sizeof (vmap_area), ALLOC_KERNEL)] *)
  as_free : S → loc → option S;               (* [kfree] *)
  as_alloc_ok s : ps_ok s → ∃ o s', as_alloc s = Some (o, s') ∧ ps_ok s' ∧
    (∀ q, ps_free s' q ↔ ps_free s q) ∧
    match o with
    | Some x => ¬ as_live s x ∧ ∀ y, as_live s' y ↔ as_live s y ∨ y = x
    | None => s' = s
    end;
  as_free_ok s x : ps_ok s → as_live s x → ∃ s', as_free s x = Some s' ∧ ps_ok s' ∧
    (∀ q, ps_free s' q ↔ ps_free s q) ∧ ∀ y, as_live s' y ↔ as_live s y ∧ y ≠ x;
  as_live_alloc s c o s' y : ps_ok s → ps_alloc s c = Some (o, s') → as_live s' y ↔ as_live s y;
  as_live_release s p s' y : ps_ok s → ps_page p → ¬ ps_free s p → ps_release s p = Some s' →
    as_live s' y ↔ as_live s y;
  as_live_flags s p v y : ps_ok s → as_live (ps_set_flags s p v) y ↔ as_live s y;
}.

Section vmap_defs.
Local Open Scope Z_scope.
Context (page_map HHDM_OFFSET : Z) (la57 : bool) (root_pgtable : Z) (cfg : pg_config).
Context {S T : Type} `{!AreaSource S, !AreaTree T}.

Record vmap_state := mkVmap { vmm : @vm S; vmap_tree : T }.

Definition with_vm (st : vmap_state) (s : @vm S) : vmap_state := mkVmap s (vmap_tree st).
Definition with_pool (s : @vm S) (src : S) : @vm S := mkVm (tables s) src (flushed s).

Definition kmalloc_area (st : vmap_state) : option (option loc * vmap_state) :=
  '(vma, src) ← as_alloc (pool (vmm st));
  Some (vma, with_vm st (with_pool (vmm st) src)).

Definition kfree_area (st : vmap_state) (vma : loc) : option vmap_state :=
  src ← as_free (pool (vmm st)) vma;
  Some (with_vm st (with_pool (vmm st) src)).

Definition free_pte_range_vma (st : vmap_state) (start stop : Z) (vma : loc) (free_pages : bool) : option vmap_state :=
  prev ← at_prev (vmap_tree st) vma;
  next ← at_next (vmap_tree st) vma;
  floor ← match prev with Some p => '(_, last) ← at_bounds (vmap_tree st) p; Some (last +ᵤ 1) | None => Some 0 end;
  ceiling ← match next with Some n => '(first, _) ← at_bounds (vmap_tree st) n; Some first | None => Some 0 end;
  s ← free_pte_range page_map HHDM_OFFSET la57 root_pgtable (vmm st) start stop floor ceiling free_pages;
  Some (with_vm st s).

Definition free_pte_range_entire_vma (st : vmap_state) (vma : loc) (free_pages : bool) : option vmap_state :=
  '(first, last) ← at_bounds (vmap_tree st) vma;
  free_pte_range_vma st first (last +ᵤ 1) vma free_pages.

(** [vmap_tree.remove (vma)], then [kfree (vma)]. *)
Definition drop_area (st : vmap_state) (vma : loc) : option vmap_state :=
  t ← at_remove (vmap_tree st) vma;
  kfree_area (mkVmap (vmm st) t) vma.

(** [vunmap] and [kfree_large]; [false] if the error was printed. *)
Definition unmap_area (st : vmap_state) (ptr : Z) (free_pages : bool) : option (bool * vmap_state) :=
  vma ← at_find (vmap_tree st) ptr;
  match vma with
  | None => Some (false, st)
  | Some vma =>
    st ← free_pte_range_entire_vma st vma free_pages;
    st ← drop_area st vma;
    Some (true, st)
  end.

Definition vunmap (st : vmap_state) (ptr : Z) : option (bool * vmap_state) := unmap_area st ptr false.
Definition kfree_large (st : vmap_state) (ptr : Z) : option (bool * vmap_state) := unmap_area st ptr true.

Definition find_free_with_guard_pages (t : T) (size low high : Z) : option (option Z) :=
  let left_guard_hole := PAGE_SIZE in
  let right_guard_hole := PAGE_SIZE in
  let hole_size := size +ᵤ left_guard_hole +ᵤ right_guard_hole in
  if decide (hole_size < size) then Some None
  else
    let low := if decide (low > left_guard_hole) then low -ᵤ left_guard_hole else 0 in
    let high := if decide (high < VMA_TREE_MAX -ᵤ right_guard_hole) then high +ᵤ right_guard_hole else VMA_TREE_MAX in
    res ← at_find_free_bottomup t (mkReq hole_size PAGE_SIZE low high);
    Some (match res with Some addr => Some (addr +ᵤ left_guard_hole) | None => None end).

(** The way out when a page could not be mapped: the pages below [i] are
    unmapped and the area goes away. *)
Definition give_up_area (st : vmap_state) (vma : loc) (addr i : Z) (free_pages : bool) : option vmap_state :=
  st ← free_pte_range_vma st addr (addr +ᵤ i) vma free_pages;
  drop_area st vma.

(** Getting a new area of [size] bytes: its object and its address; null if
    there is no memory or no room. *)
Definition new_area (st : vmap_state) (size low high : Z) : option (option (loc * Z) * vmap_state) :=
  '(vma, st) ← kmalloc_area st;
  match vma with
  | None => Some (None, st)
  | Some vma =>
    addr ← find_free_with_guard_pages (vmap_tree st) size low high;
    match addr with
    | None => st ← kfree_area st vma; Some (None, st)
    | Some addr =>
      t ← at_insert (at_set_bounds (vmap_tree st) vma addr (addr +ᵤ size -ᵤ 1)) vma;
      Some (Some (vma, addr), mkVmap (vmm st) t)
    end
  end.

(** The loops over the pages of a new area, from offset [i]; a step maps one
    page, or finds that it cannot. *)
Fixpoint map_pages (step : vmap_state → Z → option (bool * vmap_state)) (free_pages : bool) (fuel : nat)
    (st : vmap_state) (vma : loc) (addr i size : Z) : option (bool * vmap_state) :=
  if decide (i < size) then
    match fuel with
    | O => None
    | Datatypes.S fuel =>
      '(ok, st) ← step st i;
      if ok : bool then map_pages step free_pages fuel st vma addr (i +ᵤ PAGE_SIZE) size
      else st ← give_up_area st vma addr i free_pages; Some (false, st)
    end
  else Some (true, st).

(** The body of the loop of [vmap_io_range]. *)
Definition map_io_page (phys addr : Z) (pcm : page_cache_mode) (st : vmap_state) (i : Z) : option (bool * vmap_state) :=
  '(pte, s) ← get_pte page_map HHDM_OFFSET la57 root_pgtable (vmm st) (addr +ᵤ i);
  match pte with
  | None => Some (false, with_vm st s)
  | Some pte => s ← pte_install s pte (make_io_pte cfg (phys +ᵤ i) pcm); Some (true, with_vm st s)
  end.

Definition vmap_io_range (st : vmap_state) (phys size : Z) (pcm : page_cache_mode) (low high : Z)
    : option (option Z * vmap_state) :=
  let offset_in_page := Z.land phys (PAGE_SIZE -ᵤ 1) in
  if decide (size +ᵤ offset_in_page < size) then Some (None, st)
  else
    let phys := phys -ᵤ offset_in_page in
    let size := size +ᵤ offset_in_page in
    let size := align_up size PAGE_SIZE in
    if decide (size = 0) then Some (None, st)
    else
      '(area, st) ← new_area st size low high;
      match area with
      | None => Some (None, st)
      | Some (vma, addr) =>
        '(ok, st) ← map_pages (map_io_page phys addr pcm) false (Z.to_nat (size / PAGE_SIZE)) st vma addr 0 size;
        if ok : bool then
          '(first, _) ← at_bounds (vmap_tree st) vma;
          Some (Some (first +ᵤ offset_in_page), st)
        else Some (None, st)
      end.

Definition PCM_NORMAL_RAM : page_cache_mode := pcm_writeback.

Definition vmap_io (st : vmap_state) (phys size : Z) (pcm : page_cache_mode) : option (option Z * vmap_state) :=
  vmap_io_range st phys size pcm (KERNEL_VM_FIRST la57) (KERNEL_VM_LAST la57).

Definition vmap_range (st : vmap_state) (phys size low high : Z) : option (option Z * vmap_state) :=
  vmap_io_range st phys size PCM_NORMAL_RAM low high.

Definition vmap (st : vmap_state) (phys size : Z) : option (option Z * vmap_state) :=
  vmap_io_range st phys size PCM_NORMAL_RAM (KERNEL_VM_FIRST la57) (KERNEL_VM_LAST la57).

(** The body of the loop of [kmalloc_large]. *)
Definition map_new_page (addr : Z) (st : vmap_state) (i : Z) : option (bool * vmap_state) :=
  '(page, src) ← ps_alloc (pool (vmm st)) ALLOC_KERNEL;
  let st := with_vm st (with_pool (vmm st) src) in
  match page with
  | None => Some (false, st)
  | Some page =>
    '(pte, s) ← get_pte page_map HHDM_OFFSET la57 root_pgtable (vmm st) (addr +ᵤ i);
    match pte with
    | None => s ← release_page page_map HHDM_OFFSET s page; Some (false, with_vm st s)
    | Some pte =>
      s ← pte_install s pte (make_pte_k (page_to_phys page_map page) (PAGE_KERNEL_DATA (x86_nx_bit cfg)));
      Some (true, with_vm st s)
    end
  end.

Definition kmalloc_large (st : vmap_state) (size : Z) : option (option Z * vmap_state) :=
  let size := align_up size PAGE_SIZE in
  if decide (size = 0) then Some (None, st)
  else
    '(area, st) ← new_area st size (KERNEL_VM_FIRST la57) (KERNEL_VM_LAST la57);
    match area with
    | None => Some (None, st)
    | Some (vma, addr) =>
      '(ok, st) ← map_pages (map_new_page addr) true (Z.to_nat (size / PAGE_SIZE)) st vma addr 0 size;
      if ok : bool then
        '(first, _) ← at_bounds (vmap_tree st) vma;
        Some (Some first, st)
      else Some (None, st)
    end.

End vmap_defs.

(** ** The page tables, with the objects of [kmalloc] kept

    The theorems about the page tables hold for every source of pages; taken
    for the source below, they say that the objects handed out stay so. *)

Section vmap_live.
Local Open Scope Z_scope.
Context (page_map HHDM_OFFSET : Z) (la57 : bool) (root_pgtable : Z).
Context {S : Type} `{!AreaSource S}.
Context (Hframe : ∀ p, ps_page p → frame_ok page_map p).
Context (Hroot : ∀ p, ps_page p → page_to_virt page_map HHDM_OFFSET p ≠ get_vmap_pgtable HHDM_OFFSET root_pgtable).
Implicit Types (s : @vm S) (own : gmap (nat * Z) Z) (L : loc → Prop).

#[program] Definition live_source L : PageSource S := {|
  ps_ok m := ps_ok m ∧ ∀ y, as_live m y ↔ L y;
  ps_page := ps_page;
  ps_free := ps_free;
  ps_alloc := ps_alloc;
  ps_release := ps_release;
  ps_flags := ps_flags;
  ps_set_flags := ps_set_flags;
|}.
Next Obligation.
  intros L s c [Hok HL]. destruct (ps_alloc_ok s c Hok) as [|(p & s' & E & H1 & H2)]; [by left|right].
  exists p, s'. split; [done|]. split; [|done]. split; [done|]. intros y. by rewrite <-HL, (as_live_alloc s c (Some p) s').
Qed.
Next Obligation.
  intros L s p [Hok HL] Hp Hf. destruct (ps_release_ok s p Hok Hp Hf) as (s' & E & H1 & H2).
  exists s'. split; [done|]. split; [|done]. split; [done|]. intros y. by rewrite <-HL, (as_live_release s p s').
Qed.
Next Obligation.
  intros L s p v [Hok HL] Hp Hf. destruct (ps_set_flags_ok s p v Hok Hp Hf) as (H1 & H2).
  split; [|done]. split; [done|]. intros y. by rewrite <-HL, as_live_flags.
Qed.

Abbreviation pt_wf := (pt_wf page_map HHDM_OFFSET la57 root_pgtable).
Abbreviation kaddr := (kaddr la57).

Definition same_objects (a b : S) : Prop := ∀ y, as_live b y ↔ as_live a y.

#[global] Instance same_objects_equivalence : Equivalence same_objects.
Proof. split; [done|by intros a b H y|by intros a b c H1 H2 y; rewrite (H2 y)]. Qed.

#[global] Instance as_live_proper : Proper (same_objects ==> (=) ==> iff) as_live.
Proof. intros a b H y _ <-. symmetry. apply H. Qed.

Lemma pt_wf_live s own L :
  Pgtable.pt_wf page_map HHDM_OFFSET la57 root_pgtable (PageSource0 := live_source L) s own ↔
  pt_wf s own ∧ ∀ y, as_live (pool s) y ↔ L y.
Proof. split; [intros [[H1 H1'] H2 H3 H4 H5]|intros [[H1 H2 H3 H4 H5] H6]]; [split; [|done]|]; by split. Qed.

Lemma get_pte_live s own a :
  pt_wf s own → kaddr a →
  ∃ r s' own', get_pte page_map HHDM_OFFSET la57 root_pgtable s a = Some (r, s') ∧ pt_wf s' own' ∧
    same_maps page_map HHDM_OFFSET s own s' own' ∧ same_objects (pool s) (pool s') ∧
    match r with
    | Some e => ∃ t1, own' !! (1%nat, apos 2 a) = Some t1 ∧ e = mkSlot t1 (pgtable_index a 1)
    | None => True
    end.
Proof.
  intros Hwf Ha.
  destruct (get_pte_spec page_map HHDM_OFFSET la57 root_pgtable (PageSource0 := live_source (as_live (pool s))) Hframe Hroot s own a)
    as (r & s' & own' & E & [Hwf' HL]%pt_wf_live & Hs & Hr); [by apply pt_wf_live|done|].
  exists r, s', own'. split_and!; try done; apply Hs.
Qed.

(** The operations do not depend on which of the two sources is taken. *)
Lemma free_level_live L : free_pte_range_level page_map HHDM_OFFSET la57 (PageSource0 := live_source L) =
  free_pte_range_level page_map HHDM_OFFSET la57.
Proof. reflexivity. Qed.

Lemma tlb_end_live L : tlb_end_kernel page_map HHDM_OFFSET (PageSource0 := live_source L) = tlb_end_kernel page_map HHDM_OFFSET.
Proof. reflexivity. Qed.

Lemma free_range_live L : free_pte_range page_map HHDM_OFFSET la57 root_pgtable (PageSource0 := live_source L) =
  free_pte_range page_map HHDM_OFFSET la57 root_pgtable.
Proof. unfold free_pte_range. by rewrite free_level_live, tlb_end_live. Qed.

Lemma free_pte_range_live fp s own start stop floor ceiling :
  pt_wf s own → kaddr start → freeable la57 start stop ceiling → stop <= ktop la57 →
  (4096 | start) → (4096 | stop) → (4096 | floor) → (4096 | ceiling) →
  0 <= floor <= start → (ceiling = 0 ∨ stop <= ceiling) →
  (∀ b, kaddr b → floor <= b < start ∨ (stop <= b ∧ (ceiling ≠ 0 → b < ceiling)) → ent s own 1 b = 0) →
  data_ok page_map HHDM_OFFSET fp s own start stop →
  ∃ s' own', free_pte_range page_map HHDM_OFFSET la57 root_pgtable s start stop floor ceiling fp = Some s' ∧
    unmapped page_map HHDM_OFFSET la57 root_pgtable fp start stop s own s' own' ∧ same_objects (pool s) (pool s').
Proof.
  intros Hwf Ha Hfr Ht H1 H2 H3 H4 H5 H6 H7 H8.
  destruct (free_pte_range_spec page_map HHDM_OFFSET la57 root_pgtable (PageSource0 := live_source (as_live (pool s))) Hframe Hroot
    fp s own start stop floor ceiling) as (s' & own' & E & ([Hwf' HL]%pt_wf_live & HU) & _); try done; [by apply pt_wf_live|].
  rewrite free_range_live in E. exists s', own'. split; [exact E|]. split; [exact (conj Hwf' HU)|exact HL].
Qed.

(** Changing the source of memory but not its pages. *)
Lemma pt_wf_pool s own src :
  pt_wf s own → ps_ok src → (∀ q, ps_free src q → ps_free (pool s) q) → pt_wf (with_pool s src) own.
Proof.
  intros [H1 H2 H3 H4 H5] Hok Hf. split; try done. intros l B t Ho. destruct (H3 l B t Ho) as (A1 & A2 & A3 & A4).
  split_and!; try done; try lia. intros Hl. destruct (A4 Hl) as (p & B1 & B2 & B3). exists p. split_and!; try done. intros H. by apply B2, Hf.
Qed.

Lemma release_live s own p :
  pt_wf s own → ps_page p → ¬ accounted page_map HHDM_OFFSET s own p →
  ∃ s', release_page page_map HHDM_OFFSET s p = Some s' ∧ pt_wf s' own ∧ same_objects (pool s) (pool s') ∧
    (∀ q, accounted page_map HHDM_OFFSET s' own q ↔ accounted page_map HHDM_OFFSET s own q ∨ q = p) ∧
    ∀ l b, ent s' own l b = ent s own l b.
Proof.
  intros Hwf Hp Hn.
  destruct (release_wf page_map HHDM_OFFSET la57 root_pgtable (PageSource0 := live_source (as_live (pool s))) s own p)
    as (s' & E & [Hwf' HL]%pt_wf_live & _ & Hf & He); [by apply pt_wf_live|done|..].
  { intros H. apply Hn. by left. } { intros H. apply Hn. by right. }
  exists s'. split_and!; try done. intros q. unfold accounted. rewrite (Hf q). tauto.
Qed.

End vmap_live.

(** ** The invariant *)

Section vmap.
Local Open Scope Z_scope.
Context (page_map HHDM_OFFSET : Z) (la57 : bool) (root_pgtable : Z) (cfg : pg_config).
Context {S T : Type} `{!AreaSource S, !AreaTree T}.
Context (Hframe : ∀ p, ps_page p → frame_ok page_map p).
Context (Hroot : ∀ p, ps_page p → page_to_virt page_map HHDM_OFFSET p ≠ get_vmap_pgtable HHDM_OFFSET root_pgtable).
Context (Hnode : ∀ (m : S) x, ps_ok m → as_live m x → at_node x).
Abbreviation M := (max_pgtable_level la57).
Abbreviation pt_wf := (pt_wf page_map HHDM_OFFSET la57 root_pgtable).
Abbreviation kaddr := (kaddr la57).
Abbreviation mapped_page := (mapped_page page_map).
Abbreviation accounted := (accounted page_map HHDM_OFFSET).
Implicit Types (st : @vmap_state S T) (s : @vm S) (own : gmap (nat * Z) Z) (R : areas) (K : gset loc).

(** An address of an area whose pages are its own: one of [kmalloc_large]. *)
Definition large R K (b : Z) : Prop := ∃ x f e, (x, f, e) ∈ R ∧ x ∈ K ∧ f <= b <= e.

(** [R] are the areas; those in [K] were made by [kmalloc_large]. *)
Record vmap_wf st own R K : Prop := {
  vw_pt : pt_wf (vmm st) own;
  vw_tree : at_rep (vmap_tree st) R;
  vw_area x f e : (x, f, e) ∈ R →
    as_live (pool (vmm st)) x ∧ kaddr f ∧ kaddr e ∧ (4096 | f) ∧ (4096 | e + 1);
  vw_guard x f e y f' e' : (x, f, e) ∈ R → (y, f', e') ∈ R → x ≠ y → e + 4096 < f' ∨ e' + 4096 < f;
  vw_mapped b : kaddr b → ent (vmm st) own 1 b ≠ 0 → ∃ x f e, (x, f, e) ∈ R ∧ f <= b <= e;
  vw_data b : large R K b → (4096 | b) → ent (vmm st) own 1 b ≠ 0 →
    ps_page (mapped_page (vmm st) own b) ∧ ¬ accounted (vmm st) own (mapped_page (vmm st) own b);
  vw_inj b c : large R K b → large R K c → (4096 | b) → (4096 | c) →
    ent (vmm st) own 1 b ≠ 0 → ent (vmm st) own 1 c ≠ 0 →
    mapped_page (vmm st) own b = mapped_page (vmm st) own c → b = c;
}.

(** The same mappings and the same pages. *)
Definition same_memory s own s' own' : Prop :=
  (∀ b, kaddr b → ent s' own' 1 b = ent s own 1 b) ∧ ∀ p, ps_page p → accounted s' own' p ↔ accounted s own p.

Lemma same_memory_trans s own s1 own1 s2 own2 :
  same_memory s own s1 own1 → same_memory s1 own1 s2 own2 → same_memory s own s2 own2.
Proof. intros [A1 A2] [B1 B2]. split; [intros b Hb; by rewrite B1, A1|intros p Hp; by rewrite B2, A2]. Qed.

Lemma large_kaddr st own R K b : vmap_wf st own R K → large R K b → kaddr b.
Proof.
  intros Hwf (x & f & e & Hin & _ & Hb). destruct (vw_area _ _ _ _ Hwf x f e Hin) as (_ & [? ?] & [? ?] & _). split; lia.
Qed.

Lemma wf_shrink st own R K s' own' :
  vmap_wf st own R K → pt_wf s' own' → (∀ b, kaddr b → ent s' own' 1 b = ent (vmm st) own 1 b) →
  (∀ p, ps_page p → accounted s' own' p → accounted (vmm st) own p) →
  (∀ x f e, (x, f, e) ∈ R → as_live (pool s') x) → vmap_wf (with_vm st s') own' R K.
Proof.
  intros Hwf Hpt He Ha Hl. pose proof (large_kaddr st own R K) as HK.
  assert (∀ b, kaddr b → mapped_page s' own' b = mapped_page (vmm st) own b) as Hm.
  { intros b Hb. unfold VmapPt.mapped_page. by rewrite He. }
  pose proof Hwf as [H1 H2 H3 H4 H5 H6 H7]. split; try done; simpl.
  - intros x f e Hin. split; [by eapply Hl|by eapply H3].
  - intros b Hb. rewrite He by done. by apply H5.
  - intros b Hb. rewrite He, Hm by eauto. intros Hd Hne. destruct (H6 b Hb Hd Hne) as [Hp Hn]. split; [done|]. intros H. by apply Hn, Ha.
  - intros b c Hb Hc. rewrite !He, !Hm by eauto. by apply H7.
Qed.

Lemma wf_memory st own R K s' own' :
  vmap_wf st own R K → pt_wf s' own' → same_memory (vmm st) own s' own' →
  (∀ x f e, (x, f, e) ∈ R → as_live (pool s') x) → vmap_wf (with_vm st s') own' R K.
Proof. intros Hwf Hpt [He Ha] Hl. apply wf_shrink with own; try done. intros p Hp. by apply Ha. Qed.

(** Only which areas of [R] are in [K] matters. *)
Lemma wf_large st own R K K' :
  vmap_wf st own R K → (∀ x f e, (x, f, e) ∈ R → x ∈ K' → x ∈ K) → vmap_wf st own R K'.
Proof.
  intros [H1 H2 H3 H4 H5 H6 H7] HK.
  assert (∀ b, large R K' b → large R K b) as HL by (intros b (x & f & e & ? & ? & ?); exists x, f, e; eauto).
  split; try done; eauto.
Qed.

(** ** Objects *)

Lemma kmalloc_area_spec st own R K :
  vmap_wf st own R K →
  kmalloc_area st = Some (None, st) ∨
  ∃ x st', kmalloc_area st = Some (Some x, st') ∧ vmap_wf st' own R K ∧ vmap_tree st' = vmap_tree st ∧
    same_memory (vmm st) own (vmm st') own ∧ tables (vmm st') = tables (vmm st) ∧ flushed (vmm st') = flushed (vmm st) ∧
    as_alloc (pool (vmm st)) = Some (Some x, pool (vmm st')) ∧ ¬ as_live (pool (vmm st)) x ∧
    ∀ y, as_live (pool (vmm st')) y ↔ as_live (pool (vmm st)) y ∨ y = x.
Proof.
  intros Hwf. destruct (as_alloc_ok _ (pw_pool _ _ _ _ _ _ (vw_pt _ _ _ _ Hwf))) as (o & m & E & Hok & Hf & Ho).
  unfold kmalloc_area. rewrite E. cbn [mbind option_bind]. destruct o as [x|].
  - right. destruct Ho as [Hn Hl]. assert (same_memory (vmm st) own (with_pool (vmm st) m) own) as Hs.
    { split; [done|]. intros p _. unfold VmapPt.accounted. simpl. by rewrite Hf. }
    exists x, (with_vm st (with_pool (vmm st) m)). split_and!; try done.
    apply wf_memory with own; [done|apply pt_wf_pool; [apply Hwf|done|intros q; apply Hf]|done|]. intros y f e Hin. simpl. rewrite Hl. left.
    by eapply (vw_area _ _ _ _ Hwf).
  - left. rewrite Ho. by destruct st as [[] ?].
Qed.

Lemma kfree_area_spec st own R K x :
  vmap_wf st own R K → as_live (pool (vmm st)) x → x ∉ area_ptr <$> R →
  ∃ st', kfree_area st x = Some st' ∧ vmap_wf st' own R K ∧ same_memory (vmm st) own (vmm st') own ∧
    ∀ y, as_live (pool (vmm st')) y ↔ as_live (pool (vmm st)) y ∧ y ≠ x.
Proof.
  intros Hwf Hx HR. destruct (as_free_ok _ x (pw_pool _ _ _ _ _ _ (vw_pt _ _ _ _ Hwf)) Hx) as (m & E & Hok & Hf & Hl).
  unfold kfree_area. rewrite E. cbn [mbind option_bind]. eexists. split; [done|].
  assert (same_memory (vmm st) own (with_pool (vmm st) m) own) as Hs.
  { split; [done|]. intros p _. unfold VmapPt.accounted. simpl. by rewrite Hf. }
  split_and!; try done. apply wf_memory with own; [done|apply pt_wf_pool; [apply Hwf|done|intros q; apply Hf]|done|].
  intros y f e Hin. simpl. rewrite Hl. split; [by eapply (vw_area _ _ _ _ Hwf)|].
  intros ->. apply HR. apply list_elem_of_fmap. by exists (x, f, e).
Qed.

(** ** Adding and removing an area *)

Lemma drop_area_spec st own R1 x f e R2 K :
  vmap_wf st own (R1 ++ (x, f, e) :: R2) K → (∀ b, f <= b <= e → ent (vmm st) own 1 b = 0) →
  ∃ st', drop_area st x = Some st' ∧ vmap_wf st' own (R1 ++ R2) (K ∖ {[x]}) ∧
    same_memory (vmm st) own (vmm st') own ∧
    ∀ y, as_live (pool (vmm st')) y ↔ as_live (pool (vmm st)) y ∧ y ≠ x.
Proof.
  intros Hwf Hz. pose proof Hwf as [H1 H2 H3 H4 H5 H6 H7]. destruct (at_remove_ok _ _ _ _ _ _ H2) as (t' & E & Ht).
  unfold drop_area. rewrite E. cbn [mbind option_bind].
  assert (∀ a, a ∈ R1 ++ R2 → a ∈ R1 ++ (x, f, e) :: R2) as Hsub by set_solver.
  assert (∀ b, large (R1 ++ R2) (K ∖ {[x]}) b → large (R1 ++ (x, f, e) :: R2) K b) as HL.
  { intros b (y & f' & e' & ? & ? & ?). exists y, f', e'. set_solver. }
  apply (kfree_area_spec (mkVmap (vmm st) t') own); simpl.
  - split; simpl; try done; eauto.
    intros b Hb Hne. destruct (H5 b Hb Hne) as (y & f' & e' & Hin & Hr). exists y, f', e'. split; [|done].
    apply elem_of_app in Hin as [|[[= -> -> ->]|]%elem_of_cons]; [set_solver| |set_solver]. by destruct Hne; apply Hz.
  - apply (H3 x f e). set_solver.
  - destruct (at_sorted _ _ H2) as [Hnd _]. rewrite fmap_app in Hnd |- *. rewrite fmap_cons in Hnd.
    apply NoDup_app in Hnd as (_ & Hn1 & [Hn2 _]%NoDup_cons). intros [Hin|Hin]%elem_of_app; [|done].
    apply (Hn1 _ Hin). by left.
Qed.

(** The area and the guard pages around it are free of other areas. *)
Definition roomy R (f e : Z) : Prop :=
  kaddr f ∧ kaddr e ∧ f <= e ∧ (4096 | f) ∧ (4096 | e + 1) ∧ disjoint_from (f - 4096) (e + 4096) R.

Lemma insert_area_spec st own R K x f e :
  vmap_wf st own R K → as_live (pool (vmm st)) x → x ∉ area_ptr <$> R → roomy R f e →
  ∃ t' R1 R2, at_insert (at_set_bounds (vmap_tree st) x f e) x = Some t' ∧ R = R1 ++ R2 ∧
    ∀ K', K' ∖ {[x]} ⊆ K → vmap_wf (mkVmap (vmm st) t') own (R1 ++ (x, f, e) :: R2) K'.
Proof.
  intros Hwf Hx HR (Kf & Ke & Hfe & Hdf & Hde & Hdis). pose proof Hwf as [H1 H2 H3 H4 H5 H6 H7].
  pose proof (kaddr_u64 _ _ Kf) as [? _]. pose proof (kaddr_u64 _ _ Ke) as [_ ?].
  unfold disjoint_from in Hdis. rewrite Forall_forall in Hdis.
  destruct (at_insert_ok _ R x f e H2) as (t' & R1 & R2 & E & -> & Ht); try done.
  { by apply (Hnode (pool (vmm st))); [apply H1|]. }
  { unfold disjoint_from. apply Forall_forall. intros [[y f'] e'] Hin. specialize (Hdis _ Hin). simpl in Hdis. lia. }
  exists t', R1, R2. split_and!; try done. intros K' HK.
  assert (∀ a, a ∈ R1 ++ (x, f, e) :: R2 ↔ a = (x, f, e) ∨ a ∈ R1 ++ R2) as Hin by set_solver.
  assert (∀ b, kaddr b → ent (vmm st) own 1 b ≠ 0 → ¬ f <= b <= e) as Hz.
  { intros b Hb Hne Hbe. destruct (H5 b Hb Hne) as (y & f' & e' & Hy & Hr). specialize (Hdis _ Hy). simpl in Hdis. lia. }
  assert (∀ b, large (R1 ++ (x, f, e) :: R2) K' b → ent (vmm st) own 1 b ≠ 0 → large (R1 ++ R2) K b) as HL.
  { intros b (y & f' & e' & [[= -> -> ->]|Hy]%Hin & HyK & Hb) Hne.
    - exfalso. apply (Hz b); [destruct Kf, Ke; split; lia|done|done].
    - exists y, f', e'. split_and!; try done; try lia. apply HK. apply elem_of_difference. split; [done|].
      apply not_elem_of_singleton. intros ->. apply HR. apply list_elem_of_fmap. by exists (x, f', e'). }
  split; simpl; try done; eauto.
  - intros y f' e' [[= -> -> ->]|Hy]%Hin; [|by apply H3]. done.
  - intros y f1 e1 z f2 e2 [[= -> -> ->]|Hy]%Hin [[= -> -> ->]|Hy']%Hin Hne; [done| | |by eapply H4].
    + specialize (Hdis _ Hy'). simpl in Hdis. lia.
    + specialize (Hdis _ Hy). simpl in Hdis. lia.
  - intros b Hb Hne. destruct (H5 b Hb Hne) as (y & f' & e' & Hy & Hr). exists y, f', e'. split; [|done]. apply Hin. by right.
Qed.

(** ** Freeing the pages of an area *)

(** The addresses [free_pte_range_vma] computes from the neighbours. *)
Lemma neighbours_spec t R1 x f e R2 :
  at_rep t (R1 ++ (x, f, e) :: R2) →
  ∃ prev next floor ceiling, at_prev t x = Some prev ∧ at_next t x = Some next ∧
    match prev with Some p => '(_, last) ← at_bounds t p; Some (last +ᵤ 1) | None => Some 0 end = Some floor ∧
    match next with Some n => '(first, _) ← at_bounds t n; Some first | None => Some 0 end = Some ceiling ∧
    0 <= floor <= f ∧ (ceiling = 0 ∨ e < ceiling) ∧
    (floor = 0 ∨ ∃ y f', (y, f', floor - 1) ∈ R1 ++ (x, f, e) :: R2) ∧
    (ceiling = 0 ∨ ∃ y e', (y, ceiling, e') ∈ R1 ++ (x, f, e) :: R2) ∧
    ∀ y f' e', (y, f', e') ∈ R1 ++ (x, f, e) :: R2 → (f', e') = (f, e) ∨ e' < floor ∨ (ceiling ≠ 0 ∧ ceiling <= f').
Proof.
  intros Ht. destruct (at_sorted _ _ Ht) as [_ Hs]. destruct (Hs R1 x f e R2 eq_refl) as (Hf & He & HR1 & HR2).
  rewrite (at_prev_ok _ _ _ _ _ _ Ht), (at_next_ok _ _ _ _ _ _ Ht).
  assert (∃ floor, match area_ptr <$> list.last R1 with Some p => '(_, last) ← at_bounds t p; Some (last +ᵤ 1) | None => Some 0 end = Some floor ∧
    0 <= floor <= f ∧ (floor = 0 ∨ ∃ y f', (y, f', floor - 1) ∈ R1) ∧ ∀ y f' e', (y, f', e') ∈ R1 → e' < floor) as (floor & E1 & Hf1 & Hf2 & Hf3).
  { destruct R1 as [|[[p fp] ep] R1 _] using rev_ind; simpl; [exists 0; split_and!; [done|lia|lia|by left|set_solver]|].
    rewrite last_snoc. unfold area_ptr. simpl. rewrite <-app_assoc in Ht, Hs. simpl in Ht, Hs. rewrite (at_bounds_ok _ _ p fp ep Ht) by set_solver.
    cbn [mbind option_bind]. destruct (Hs R1 p fp ep _ eq_refl) as (? & ? & HR & _).
    specialize (HR1 p fp ep ltac:(set_solver)). rewrite add64_small by lia. exists (ep + 1). split_and!; [done|lia|lia| |].
    - right. exists p, fp. rewrite Z.add_simpl_r. set_solver.
    - intros y f' e' [Hy|[= -> -> ->]%list_elem_of_singleton]%elem_of_app; [specialize (HR y f' e' Hy)|]; lia. }
  assert (∃ ceiling, match area_ptr <$> head R2 with Some n => '(first, _) ← at_bounds t n; Some first | None => Some 0 end = Some ceiling ∧
    (ceiling = 0 ∨ e < ceiling) ∧ (ceiling = 0 ∨ ∃ y e', (y, ceiling, e') ∈ R2) ∧ ∀ y f' e', (y, f', e') ∈ R2 → ceiling ≠ 0 ∧ ceiling <= f') as (ceiling & E2 & Hc1 & Hc2 & Hc3).
  { unfold area_ptr. destruct R2 as [|[[p fp] ep] R2]; simpl; [exists 0; split_and!; [done|by left|by left|set_solver]|].
    rewrite (at_bounds_ok _ _ p fp ep Ht) by set_solver. cbn [mbind option_bind].
    destruct (Hs (R1 ++ [(x, f, e)]) p fp ep R2) as (? & ? & _ & HR); [by rewrite <-app_assoc|].
    specialize (HR2 p fp ep ltac:(set_solver)). exists fp. split_and!; [done|lia|right; set_solver|].
    intros y f' e' [[= -> -> ->]|Hy]%elem_of_cons; [|specialize (HR y f' e' Hy)]; lia. }
  eexists _, _, floor, ceiling. split_and!; try done; try lia.
  - destruct Hf2 as [|(y & f' & ?)]; [by left|right]. exists y, f'. set_solver.
  - destruct Hc2 as [|(y & e' & ?)]; [by left|right]. exists y, e'. set_solver.
  - intros y f' e' [H|[[= -> -> ->]|H]%elem_of_cons]%elem_of_app; [right; left; by eapply Hf3|by left|right; right; by eapply Hc3].
Qed.

(** The mappings of an area are cleared, with [fp] its pages freed. *)
Lemma unmapped_wf st own R K x f e stop fp s' own' :
  vmap_wf st own R K → (x, f, e) ∈ R → stop <= e + 1 → (fp = true → x ∈ K) →
  unmapped page_map HHDM_OFFSET la57 root_pgtable fp f stop (vmm st) own s' own' →
  same_objects (pool (vmm st)) (pool s') → vmap_wf (with_vm st s') own' R K.
Proof.
  intros Hwf Hin Hstop HK (U1 & U2 & U3 & U4 & _) Hobj. pose proof (large_kaddr st own R K) as HKa.
  pose proof Hwf as [H1 H2 H3 H4 H5 H6 H7].
  assert (∀ b, kaddr b → ent s' own' 1 b ≠ 0 → ¬ (f <= b < stop) ∧ ent s' own' 1 b = ent (vmm st) own 1 b) as He.
  { intros b Hb. rewrite U3 by done. by case_decide. }
  split; simpl; try done.
  - intros y f' e' Hy. split; [apply Hobj|]; by eapply H3.
  - intros b Hb Hne. destruct (He b Hb Hne) as [_ E]. rewrite E in Hne. by apply H5.
  - intros b Hb Hd Hne. destruct (He b (HKa b Hwf Hb) Hne) as [Hout E]. unfold VmapPt.mapped_page. rewrite E in *.
    destruct (H6 b Hb Hd Hne) as [Hp Hn]. split; [done|]. rewrite U4 by done.
    intros [|(Hfp & c & Hc1 & Hc2 & Hc3 & Hc4)]; [done|]. apply Hout.
    rewrite (H7 b c Hb); try done. exists x, f, e. split_and!; [done|by apply HK|lia|lia].
  - intros b c Hb Hc Hdb Hdc Hnb Hnc. destruct (He b (HKa b Hwf Hb) Hnb) as [_ E1], (He c (HKa c Hwf Hc) Hnc) as [_ E2].
    unfold VmapPt.mapped_page. rewrite E1, E2 in *. by apply H7.
Qed.

Lemma free_vma_unfold st x prev next floor ceiling start stop fp :
  at_prev (vmap_tree st) x = Some prev → at_next (vmap_tree st) x = Some next →
  match prev with Some p => '(_, last) ← at_bounds (vmap_tree st) p; Some (last +ᵤ 1) | None => Some 0 end = Some floor →
  match next with Some n => '(first, _) ← at_bounds (vmap_tree st) n; Some first | None => Some 0 end = Some ceiling →
  free_pte_range_vma page_map HHDM_OFFSET la57 root_pgtable st start stop x fp =
  with_vm st <$> free_pte_range page_map HHDM_OFFSET la57 root_pgtable (vmm st) start stop floor ceiling fp.
Proof.
  unfold free_pte_range_vma. generalize (free_pte_range page_map HHDM_OFFSET la57 root_pgtable (vmm st)) as F.
  intros F E1 E2 E3 E4. rewrite E1, E2. cbn [mbind option_bind]. rewrite E3, E4. cbn [mbind option_bind]. by destruct (F _ _ _ _ _).
Qed.

Lemma free_vma_spec st own R1 x f e R2 K stop fp (R := R1 ++ (x, f, e) :: R2) :
  vmap_wf st own R K → f <= stop <= e + 1 → (4096 | stop) → f < stop ∨ ¬ (es M | f) →
  (∀ b, stop <= b <= e → ent (vmm st) own 1 b = 0) → (fp = true → x ∈ K) →
  ∃ s' own', free_pte_range_vma page_map HHDM_OFFSET la57 root_pgtable st f stop x fp = Some (with_vm st s') ∧
    vmap_wf (with_vm st s') own' R K ∧
    unmapped page_map HHDM_OFFSET la57 root_pgtable fp f stop (vmm st) own s' own' ∧ same_objects (pool (vmm st)) (pool s').
Proof.
  intros Hwf Hst Hds Hne Hz HK. pose proof Hwf as [H1 H2 H3 H4 H5 H6 H7].
  destruct (neighbours_spec _ _ _ _ _ _ H2) as (prev & next & floor & ceiling & E1 & E2 & E3 & E4 & Hfl & Hce & Hfl' & Hce' & Hall).
  destruct (at_sorted _ _ H2) as [_ Hs]. destruct (Hs R1 x f e R2 eq_refl) as (Hfe & _).
  fold R in Hfl', Hce', Hall. assert ((x, f, e) ∈ R) as Hin by (apply elem_of_app; right; by left).
  destruct (H3 x f e Hin) as (_ & Kf & Ke & Hdf & Hde). pose proof (kaddr_u64 _ _ Kf) as [? ?].
  rewrite (free_vma_unfold st x prev next floor ceiling) by done.
  destruct (free_pte_range_live page_map HHDM_OFFSET la57 root_pgtable Hframe Hroot fp (vmm st) own f stop floor ceiling)
    as (s' & own' & E & HU & Hobj); try done; try lia.
  - unfold freeable. destruct (decide (f < stop)); [by left|right]. destruct Hne; [done|]. split_and!; [lia|done|lia].
  - destruct Ke. lia.
  - destruct Hfl' as [-> |(y & f' & (_ & _ & _ & _ & Hd)%H3)]; [apply Z.divide_0_r|]. by rewrite Z.sub_add in Hd.
  - destruct Hce' as [-> |(y & e' & (_ & _ & _ & Hd & _)%H3)]; [apply Z.divide_0_r|done].
  - intros b Hb Hr. destruct (decide (ent (vmm st) own 1 b = 0)) as [|Hnz]; [done|].
    destruct (H5 b Hb Hnz) as (y & f' & e' & Hy & Hbe). destruct (Hall y f' e' Hy) as [[= -> ->]|[?|[? ?]]].
    + apply Hz. lia. + lia. + lia.
  - intros Hfp. assert (∀ b, f <= b < stop → large R K b) as HL.
    { intros b Hb. exists x, f, e. split_and!; [done|by apply HK|lia|lia]. }
    split; [intros b Hd Hb; apply H6; [by apply HL|done]|]. intros b c Hdb Hdc Hb Hc. apply H7; [by apply HL|by apply HL|done|done].
  - rewrite E. exists s', own'. split_and!; try done. apply (unmapped_wf st own R K x f e stop fp s' own'); try done; lia.
Qed.

(** [vunmap] and [kfree_large]. *)
Lemma unmap_area_spec st own R K ptr fp :
  vmap_wf st own R K → (fp = true → ∀ x f e, (x, f, e) ∈ R → f <= ptr <= e → x ∈ K) →
  (unmap_area page_map HHDM_OFFSET la57 root_pgtable st ptr fp = Some (false, st) ∧
   ∀ x f e, (x, f, e) ∈ R → ¬ f <= ptr <= e) ∨
  ∃ R1 x f e R2 st' own', R = R1 ++ (x, f, e) :: R2 ∧ f <= ptr <= e ∧
    unmap_area page_map HHDM_OFFSET la57 root_pgtable st ptr fp = Some (true, st') ∧
    vmap_wf st' own' (R1 ++ R2) (K ∖ {[x]}) ∧
    (∀ b, kaddr b → ent (vmm st') own' 1 b = if decide (f <= b <= e) then 0 else ent (vmm st) own 1 b) ∧
    (∀ p, ps_page p → accounted (vmm st') own' p ↔ accounted (vmm st) own p ∨
       (fp = true ∧ ∃ b, (4096 | b) ∧ f <= b <= e ∧ ent (vmm st) own 1 b ≠ 0 ∧ p = mapped_page (vmm st) own b)) ∧
    ∀ y, as_live (pool (vmm st')) y ↔ as_live (pool (vmm st)) y ∧ y ≠ x.
Proof.
  intros Hwf HK. unfold unmap_area. destruct (at_find_ok _ _ ptr (vw_tree _ _ _ _ Hwf)) as ([x|] & E & Ho); rewrite E; cbn [mbind option_bind].
  2:{ left. done. }
  right. destruct Ho as (f & e & Hin & Hptr). unfold free_pte_range_entire_vma.
  rewrite (at_bounds_ok _ _ x f e (vw_tree _ _ _ _ Hwf) Hin). cbn [mbind option_bind].
  destruct (vw_area _ _ _ _ Hwf x f e Hin) as (_ & Kf & Ke & Hdf & Hde). pose proof (kaddr_u64 _ _ Kf) as [? _].
  pose proof (ktop_u64 la57). pose proof Ke as [_ Ke2]. rewrite add64_small by lia.
  assert (fp = true → x ∈ K) as Hx by (intros Hfp; by apply (HK Hfp x f e)).
  apply list_elem_of_split in Hin as (R1 & R2 & ->).
  destruct (free_vma_spec st own R1 x f e R2 K (e + 1) fp Hwf) as (s' & own' & E2 & Hwf' & (U1 & U2 & U3 & U4 & U5) & Hobj); try done; try lia.
  rewrite E2. cbn [mbind option_bind].
  destruct (drop_area_spec (with_vm st s') own' R1 x f e R2 K Hwf') as (st' & E3 & Hwf3 & [Hm1 Hm2] & Hl3).
  { intros b Hb. simpl. rewrite U3 by (destruct Kf; split; lia). by rewrite decide_True by lia. }
  rewrite E3. cbn [mbind option_bind]. exists R1, x, f, e, R2, st', own'. split_and!; try done; try lia.
  - intros b Hb. rewrite Hm1, U3 by done. simpl. apply decide_ext. lia.
  - intros p Hp. rewrite Hm2, U4 by done. apply or_iff_compat_l, and_iff_compat_l. split; intros (b & ? & ? & ?); exists b; (split_and!; [done|lia|lia|tauto|tauto]).
  - intros y. rewrite Hl3. simpl. by rewrite <-Hobj.
Qed.

(** ** Finding room *)

(** A range of the window with a free page on both sides. *)
Definition has_room R (size low high a : Z) : Prop :=
  low <= a ∧ a + size - 1 <= high ∧ (4096 | a) ∧ disjoint_from (a - 4096) (a + size - 1 + 4096) R.

Lemma find_free_spec t R size low high :
  at_rep t R → 0 < size < 2 ^ 64 → (4096 | size) → KERNEL_VM_FIRST la57 <= low → high <= KERNEL_VM_LAST la57 →
  low < 2 ^ 64 → 0 <= high →
  ∃ o, find_free_with_guard_pages t size low high = Some o ∧
    match o with
    | Some a => has_room R size low high a ∧ ∀ b, has_room R size low high b → a <= b
    | None => ∀ b, ¬ has_room R size low high b
    end.
Proof.
  intros Ht Hs Hd Hlo Hhi Hlo' Hhi'. pose proof (region_bounds la57) as (Hb1 & [Hb2 Hb3] & Hb4). pose proof (es_pos M) as Hpos.
  assert (4096 < es M) as Hes by (pose proof (page_es M ltac:(destruct (M_cases la57); lia)) as [q Hq]; destruct la57; vm_compute; done).
  unfold ktop in *. unfold find_free_with_guard_pages, PAGE_SIZE, VMA_TREE_MAX, UINT64_MAX.
  destruct (decide (size + 8192 < 2 ^ 64)) as [Hfit|Hbig].
  2:{ rewrite decide_True. { exists None. split; [done|]. intros b (H1 & H2 & _). lia. }
      unfold add64, wrap. rewrite Zplus_mod_idemp_l. replace ((size + 4096 + 4096) mod 2 ^ 64) with (size + 8192 - 2 ^ 64); [lia|].
      apply (Z.mod_unique _ _ 1); lia. }
  rewrite (add64_small size 4096), (add64_small (size + 4096) 4096), (add64_small high 4096), (sub64_small low 4096), (sub64_small _ 4096) by lia.
  rewrite decide_False, (decide_True (P := low > 4096)), decide_True by lia.
  set (q := mkReq _ _ _ _).
  assert (∀ v, fits q R v ↔ has_room R size low high (v + 4096)) as Hfits.
  { intros v. unfold fits, has_room, q. simpl. rewrite Z.mod_divide by lia.
    replace (v + 4096 - 4096) with v by lia. replace (v + 4096 + size - 1 + 4096) with (v + (size + 4096 + 4096) - 1) by lia.
    assert ((4096 | v) ↔ (4096 | v + 4096)) as ->; [|split; intros (?&?&?&?); split_and!; try done; lia].
    split; intros [k Hk]; [exists (k + 1)|exists (k - 1)]; lia. }
  destruct (decide (max_addr q < req_size q)) as [Hlt|Hge].
  { rewrite at_find_free_big by done. cbn [mbind option_bind]. exists None. split; [done|]. intros b (H1 & H2 & _). simpl in Hlt. lia. }
  destruct (at_find_free_ok t R q Ht) as (res & E & Hres).
  { split; simpl in *; [lia|by exists 12|lia|lia]. }
  rewrite E. cbn [mbind option_bind]. eexists. split; [done|]. destruct res as [v|].
  - destruct Hres as [Hv Hmin]. pose proof (proj1 (Hfits v) Hv) as Hr. pose proof Hr as (R1 & R2 & _).
    rewrite add64_small by lia. split; [done|]. intros b Hb. specialize (Hmin (b - 4096)). rewrite Hfits in Hmin.
    rewrite Z.sub_add in Hmin. specialize (Hmin Hb). lia.
  - intros b Hb. apply (Hres (b - 4096)). rewrite Hfits. by rewrite Z.sub_add.
Qed.

(** ** A new area *)

Lemma room_roomy R size low high f :
  0 < size → (4096 | size) → KERNEL_VM_FIRST la57 <= low → high <= KERNEL_VM_LAST la57 →
  has_room R size low high f → roomy R f (f + size - 1).
Proof.
  intros Hs Hd Hlo Hhi (H1 & H2 & H3 & H4). unfold roomy, Pgtable.kaddr, ktop. split_and!; try lia; [done| |done].
  replace (f + size - 1 + 1) with (f + size) by lia. by apply Z.divide_add_r.
Qed.

Lemma fresh_area st own R K x :
  vmap_wf st own R K → ¬ as_live (pool (vmm st)) x → x ∉ area_ptr <$> R.
Proof. intros Hwf Hn ([[y f] e] & -> & [Hl _]%(vw_area _ _ _ _ Hwf))%list_elem_of_fmap. done. Qed.

Lemma new_area_spec st own R K size low high :
  vmap_wf st own R K → 0 < size < 2 ^ 64 → (4096 | size) → KERNEL_VM_FIRST la57 <= low → high <= KERNEL_VM_LAST la57 →
  low < 2 ^ 64 → 0 <= high →
  (∃ st', new_area st size low high = Some (None, st') ∧ vmap_wf st' own R K ∧
     same_memory (vmm st) own (vmm st') own ∧ same_objects (pool (vmm st)) (pool (vmm st'))) ∨
  ∃ x f st' R1 R2, new_area st size low high = Some (Some (x, f), st') ∧ R = R1 ++ R2 ∧
    (∀ K', K' ∖ {[x]} ⊆ K → vmap_wf st' own (R1 ++ (x, f, f + size - 1) :: R2) K') ∧
    same_memory (vmm st) own (vmm st') own ∧ ¬ as_live (pool (vmm st)) x ∧
    (∀ y, as_live (pool (vmm st')) y ↔ as_live (pool (vmm st)) y ∨ y = x) ∧
    has_room R size low high f ∧ ∀ b, has_room R size low high b → f <= b.
Proof.
  intros Hwf Hs Hd Hlo Hhi Hlo' Hhi'. unfold new_area.
  destruct (kmalloc_area_spec st own R K Hwf) as [->|(x & st1 & -> & Hwf1 & Ht1 & Hm1 & _ & _ & _ & Hx & Hl1)]; cbn [mbind option_bind].
  { left. by exists st. }
  pose proof (fresh_area st own R K x Hwf Hx) as HxR. assert (as_live (pool (vmm st1)) x) as Hlx by (apply Hl1; by right).
  destruct (find_free_spec (vmap_tree st1) R size low high (vw_tree _ _ _ _ Hwf1)) as ([f|] & -> & Ho); try done; cbn [mbind option_bind].
  - right. destruct Ho as [Hroom Hmin]. pose proof Hroom as (Hf1 & Hf2 & _).
    destruct (insert_area_spec st1 own R K x f (f + size - 1) Hwf1 Hlx HxR) as (t' & R1 & R2 & E & HR & Hwf2).
    { apply (room_roomy R size low high); try done; lia. }
    pose proof (region_bounds la57) as (? & [? ?] & ?). pose proof (es_pos M). unfold ktop in *.
    rewrite add64_small, sub64_small by lia. rewrite E. cbn [mbind option_bind].
    exists x, f, (mkVmap (vmm st1) t'), R1, R2. split_and!; done.
  - left. destruct (kfree_area_spec st1 own R K x Hwf1 Hlx HxR) as (st2 & -> & Hwf2 & Hm2 & Hl2).
    cbn [mbind option_bind]. exists st2. split_and!; [done|done|by eapply same_memory_trans|].
    intros y. rewrite Hl2, Hl1. split; [|intros Hy; split; [by left|congruence]]. intros [[?|?] ?]; done.
Qed.

(** ** The loops over the pages *)

(** The first [i] bytes of the area at [f] are mapped, by entries in [V]; the
    rest is as in the state [s0].  With [fp] the pages mapped are no longer
    accounted for elsewhere.  No table has gone away. *)
Record progress (fp : bool) (V : Z → Z → Prop) s0 own0 s own (f i : Z) : Prop := {
  pr_out b : kaddr b → ¬ (f <= b < f + i) → ent s own 1 b = ent s0 own0 1 b;
  pr_in j : 0 <= j < i → (4096 | j) → ∃ v, V j v ∧ v ≠ 0 ∧ ∀ b, f + j <= b < f + j + 4096 → ent s own 1 b = v;
  pr_acc p : ps_page p → accounted s0 own0 p ↔ accounted s own p ∨
    (fp = true ∧ ∃ b, (4096 | b) ∧ f <= b < f + i ∧ p = mapped_page s own b);
  pr_own : own0 ⊆ own;
}.

Lemma progress_start fp V s0 own0 s f : same_memory s0 own0 s own0 → progress fp V s0 own0 s own0 f 0.
Proof.
  intros [H1 H2]. split; [by intros; apply H1|lia| |done]. intros p Hp. rewrite H2 by done. split; [by left|]. intros [|(_ & b & _ & ? & _)]; [done|lia].
Qed.

Lemma page_multiple b f i : (4096 | f) → (4096 | b) → (4096 | i) → f <= b < f + i → b < f + i - 4096 ∨ b = f + i - 4096.
Proof. intros [q ->] [r ->] [t ->]. lia. Qed.

(** The entries of the mapped part are not empty. *)
Lemma progress_mapped fp V s0 own0 s own f i b :
  progress fp V s0 own0 s own f i → (4096 | f) → (4096 | b) → f <= b < f + i → ent s own 1 b ≠ 0.
Proof.
  intros Hp Hf Hb Hr. destruct (pr_in _ _ _ _ _ _ _ _ Hp (b - f)) as (v & _ & Hv & He); [lia|by apply Z.divide_sub_r|].
  rewrite He by lia. done.
Qed.

Lemma give_up_spec fp V s0 own0 st own R1 x f e R2 K i :
  vmap_wf st own (R1 ++ (x, f, e) :: R2) K → progress fp V s0 own0 (vmm st) own f i →
  (4096 | i) → 0 <= i → f + i <= e + 1 → 0 < i ∨ ¬ (es M | f) → (∀ b, f <= b <= e → ent s0 own0 1 b = 0) → (fp = true → x ∈ K) →
  ∃ st' own', give_up_area page_map HHDM_OFFSET la57 root_pgtable st x f i fp = Some st' ∧
    vmap_wf st' own' (R1 ++ R2) (K ∖ {[x]}) ∧ same_memory s0 own0 (vmm st') own' ∧
    ∀ y, as_live (pool (vmm st')) y ↔ as_live (pool (vmm st)) y ∧ y ≠ x.
Proof.
  intros Hwf Hp Hdi Hi Hie Hne Hz HK. destruct (vw_area _ _ _ _ Hwf x f e) as (_ & Kf & Ke & Hdf & Hde); [set_solver|].
  pose proof (ktop_u64 la57). pose proof (kaddr_u64 _ _ Kf) as [? _]. pose proof Kf as [Kf1 _]. pose proof Ke as [_ Ke2].
  assert (∀ b, f <= b <= e → kaddr b) as Ka by (intros b Hb; split; lia).
  unfold give_up_area. rewrite add64_small by lia.
  destruct (free_vma_spec st own R1 x f e R2 K (f + i) fp Hwf) as (s' & own' & E & Hwf' & (U1 & U2 & U3 & U4 & U5) & Hobj); try done; try lia.
  { by apply Z.divide_add_r. } { destruct Hne; [left; lia|by right]. }
  { intros b Hb. rewrite (pr_out _ _ _ _ _ _ _ _ Hp) by (lia || (apply Ka; lia)). apply Hz. lia. }
  rewrite E. cbn [mbind option_bind].
  assert (same_memory s0 own0 s' own') as Hs.
  { split.
    - intros b Hb. rewrite U3 by done. case_decide as Hr; [symmetry; apply Hz; lia|]. by apply (pr_out _ _ _ _ _ _ _ _ Hp).
    - intros p Hpp. rewrite U4, (pr_acc _ _ _ _ _ _ _ _ Hp) by done. apply or_iff_compat_l, and_iff_compat_l.
      split; intros (b & B1 & B2 & B3); exists b; (split_and!; [done|lia|lia|try tauto..]).
      by eapply progress_mapped. }
  destruct (drop_area_spec (with_vm st s') own' R1 x f e R2 K Hwf') as (st' & -> & Hwf3 & Hm3 & Hl3).
  { intros b Hb. simpl. rewrite (proj1 Hs) by (by apply Ka). by apply Hz. }
  exists st', own'. split_and!; try done; [by eapply same_memory_trans|]. intros y. rewrite Hl3. simpl. by rewrite <-Hobj.
Qed.

(** What the body of a loop does for the page at offset [i]. *)
Definition step_ok (fp : bool) (V : Z → Z → Prop) (step : vmap_state → Z → option (bool * vmap_state))
    R K (f e : Z) : Prop := ∀ st own i,
  vmap_wf st own R K → (4096 | i) → 0 <= i → f + i <= e → ent (vmm st) own 1 (f + i) = 0 →
  ∃ ok st' own', step st i = Some (ok, st') ∧ vmap_wf st' own' R K ∧ same_objects (pool (vmm st)) (pool (vmm st')) ∧ own ⊆ own' ∧
    if ok then ∃ v, V i v ∧ v ≠ 0 ∧
      (∀ b, kaddr b → ent (vmm st') own' 1 b = if decide (f + i <= b < f + i + 4096) then v else ent (vmm st) own 1 b) ∧
      ∀ p, ps_page p → accounted (vmm st) own p ↔ accounted (vmm st') own' p ∨
        (fp = true ∧ p = phys_to_page page_map (phys_addr v))
    else same_memory (vmm st) own (vmm st') own'.

Lemma progress_next fp V s0 own0 s own s' own' f e i v :
  progress fp V s0 own0 s own f i → kaddr f → kaddr e → (4096 | f) → (4096 | i) → 0 <= i → f + i + 4095 <= e → V i v → v ≠ 0 → own ⊆ own' →
  (∀ b, kaddr b → ent s' own' 1 b = if decide (f + i <= b < f + i + 4096) then v else ent s own 1 b) →
  (∀ p, ps_page p → accounted s own p ↔ accounted s' own' p ∨ (fp = true ∧ p = phys_to_page page_map (phys_addr v))) →
  progress fp V s0 own0 s' own' f (i + 4096).
Proof.
  intros [P1 P2 P3 P4] [Kf _] [_ Ke] Hdf Hdi Hi Hie HV Hv Hown He Ha.
  assert (∀ b, f <= b < f + (i + 4096) → kaddr b) as HK by (intros b Hb; split; lia). split; [| | |by etrans].
  - intros b Hb Hr. rewrite He, decide_False by (done || lia). apply P1; [done|lia].
  - intros j Hj Hdj. destruct (decide (j = i)) as [->|Hne].
    + exists v. split_and!; try done. intros b Hb. rewrite He by (apply HK; lia). by rewrite decide_True by lia.
    + assert (j + 4096 <= i) as Hlt by (destruct Hdj as [q ->], Hdi as [r ->]; lia).
      destruct (P2 j) as (u & Hu & Hnz & Heq); [lia|done|]. exists u. split_and!; try done. intros b Hb.
      rewrite He by (apply HK; lia). rewrite decide_False by lia. by apply Heq.
  - intros p Hp. rewrite P3, Ha by done. split.
    + intros [[?|[? ->]]|(? & b & B1 & B2 & ->)]; [by left|right..]; (split; [done|]).
      * exists (f + i). unfold VmapPt.mapped_page. rewrite He, decide_True by (lia || (apply HK; lia)). split_and!; [by apply Z.divide_add_r|lia|lia|done].
      * exists b. unfold VmapPt.mapped_page. rewrite He, decide_False by (lia || (apply HK; lia)). split_and!; [done|lia|lia|done].
    + intros [?|(? & b & B1 & B2 & ->)]; [by left; left|].
      unfold VmapPt.mapped_page. rewrite He by (by apply HK). case_decide as Hr; [left; right; done|].
      right. split; [done|]. exists b. split_and!; [done|lia|lia|done].
Qed.

Lemma map_pages_spec fp V step R1 x f e R2 K s0 own0 (R := R1 ++ (x, f, e) :: R2) :
  step_ok fp V step R K f e → (∀ b, f <= b <= e → ent s0 own0 1 b = 0) → (fp = true → x ∈ K) →
  ∀ fuel st own i, vmap_wf st own R K → progress fp V s0 own0 (vmm st) own f i →
  (4096 | i) → 0 <= i → f + i <= e + 1 → e + 1 - f - i <= 4096 * Z.of_nat fuel →
  (∃ st' own', map_pages page_map HHDM_OFFSET la57 root_pgtable step fp fuel st x f i (e + 1 - f) = Some (true, st') ∧ vmap_wf st' own' R K ∧
     progress fp V s0 own0 (vmm st') own' f (e + 1 - f) ∧ same_objects (pool (vmm st)) (pool (vmm st'))) ∨
  (∃ st' own', map_pages page_map HHDM_OFFSET la57 root_pgtable step fp fuel st x f i (e + 1 - f) = Some (false, st') ∧
     vmap_wf st' own' (R1 ++ R2) (K ∖ {[x]}) ∧ same_memory s0 own0 (vmm st') own' ∧
     ∀ y, as_live (pool (vmm st')) y ↔ as_live (pool (vmm st)) y ∧ y ≠ x) ∨
  (i = 0 ∧ (es M | f) ∧ ∃ st1, step st 0 = Some (false, st1)).
Proof.
  intros Hstep Hz HK fuel. induction fuel as [|fuel IH]; intros st own i Hwf Hp Hdi Hi Hie Hfuel; cbn [map_pages].
  { rewrite decide_False by lia. left. exists st, own. split_and!; try done. by replace (e + 1 - f) with i by lia. }
  destruct (decide (i < e + 1 - f)) as [Hlt|Hge].
  2:{ left. exists st, own. split_and!; try done. by replace (e + 1 - f) with i by lia. }
  destruct (vw_area _ _ _ _ Hwf x f e) as (_ & Kf & Ke & Hdf & Hde); [unfold R; set_solver|].
  pose proof (ktop_u64 la57). pose proof Ke as [_ Ke2]. pose proof (kaddr_u64 _ _ Kf) as [? _].
  assert (f + i + 4095 <= e) as Hroom by (destruct Hdi as [q ->], Hdf as [r ->], Hde as [t Ht]; lia).
  destruct (Hstep st own i Hwf Hdi Hi) as (ok & st1 & own1 & E & Hwf1 & Hobj1 & Hown1 & Hok); [lia| |].
  { rewrite (pr_out _ _ _ _ _ _ _ _ Hp); [apply Hz; lia|destruct Kf; split; lia|lia]. }
  rewrite E. cbn [mbind option_bind]. destruct ok.
  - destruct Hok as (v & HV & Hv & He & Ha). unfold PAGE_SIZE. rewrite add64_small by lia.
    destruct (IH st1 own1 (i + 4096) Hwf1) as [(st' & own' & E' & A & B & C)|[(st' & own' & E' & A & B & C)|(? & _)]]; try lia.
    + by eapply progress_next.
    + apply Z.divide_add_r; [done|]. by exists 1.
    + left. exists st', own'. split_and!; try done. by etrans.
    + right; left. exists st', own'. split_and!; try done. intros y. by rewrite C, <-Hobj1.
  - destruct (decide (0 < i ∨ ¬ (es M | f))) as [Hne|Hne].
    + right; left. destruct (give_up_spec fp V s0 own0 st1 own1 R1 x f e R2 K i Hwf1) as (st' & own' & E' & A & B & C); try done.
      { destruct Hok as [O1 O2], Hp as [P1 P2 P3 P4]. split; [| | |by etrans].
        - intros b Hb Hr. by rewrite O1, P1.
        - intros j Hj Hdj. destruct (P2 j Hj Hdj) as (u & ? & ? & Hu). exists u. split_and!; try done. intros b Hb.
          rewrite O1; [by apply Hu|]. destruct Kf. split; [lia|]. destruct Hdj as [q ->], Hdi as [t ->]. lia.
        - intros p Hpp. rewrite O2, P3 by done. apply or_iff_compat_l, and_iff_compat_l. split; intros (b & B1 & B2 & ->); exists b;
            (split_and!; [done|lia|lia|]; unfold VmapPt.mapped_page; rewrite O1; [done|destruct Kf; split; lia]). }
      rewrite E'. cbn [mbind option_bind]. exists st', own'. split_and!; try done. intros y. by rewrite C, <-Hobj1.
    + right; right. assert (i = 0) as -> by lia. split_and!; [done| |by exists st1].
      destruct (decide (es M | f)); tauto.
Qed.

(** ** The bodies of the loops *)

Lemma aligned_in_page a b : (4096 | a) → (4096 | b) → a <= b < a + 4096 → b = a.
Proof. intros [q ->] [r ->]. lia. Qed.

(** Mapping a page of an area; a page of [kmalloc_large] must be nobody's. *)
Lemma install_wf st own R K x f e a t v (p := phys_to_page page_map (phys_addr v)) :
  vmap_wf st own R K → (x, f, e) ∈ R → (4096 | a) → f <= a <= e → own !! (1%nat, apos 2 a) = Some t →
  (x ∈ K → ps_page p ∧ ¬ accounted (vmm st) own p ∧
     ∀ b, large R K b → (4096 | b) → ent (vmm st) own 1 b ≠ 0 → mapped_page (vmm st) own b ≠ p) →
  ∃ s2, pte_install (vmm st) (mkSlot t (pgtable_index a 1)) v = Some s2 ∧ vmap_wf (with_vm st s2) own R K ∧
    pool s2 = pool (vmm st) ∧ ∀ b, kaddr b → ent s2 own 1 b = if decide (a <= b < a + 4096) then v else ent (vmm st) own 1 b.
Proof.
  intros Hwf Hin Hda Hae Ho Hdata. pose proof (large_kaddr st own R K) as HKa. pose proof Hwf as [H1 H2 H3 H4 H5 H6 H7].
  destruct (store_leaf page_map HHDM_OFFSET la57 root_pgtable (vmm st) own a t v H1 Ho) as (s2 & E & Hpt & Hpool & _ & _ & He).
  assert (∀ b, ent s2 own 1 b = if decide (a <= b < a + 4096) then v else ent (vmm st) own 1 b) as Hent.
  { intros b. rewrite He. apply decide_ext. rewrite page_apos by done. tauto. }
  assert (∀ q, accounted s2 own q ↔ accounted (vmm st) own q) as Hacc by (intros q; unfold VmapPt.accounted; by rewrite Hpool).
  assert (∀ b, large R K b → (4096 | b) → ent s2 own 1 b ≠ 0 →
    (b = a ∧ x ∈ K ∧ mapped_page s2 own b = p) ∨
    (b ≠ a ∧ ent (vmm st) own 1 b ≠ 0 ∧ mapped_page s2 own b = mapped_page (vmm st) own b)) as Hcase.
  { intros b Hb Hdb Hne. unfold VmapPt.mapped_page. rewrite Hent in *. case_decide as Hr; [left|right].
    - pose proof (aligned_in_page a b Hda Hdb Hr) as ->. split_and!; try done. destruct Hb as (y & f' & e' & Hy & HyK & Hb).
      destruct (decide (x = y)) as [->|Hxy]; [done|]. destruct (H4 _ _ _ _ _ _ Hin Hy Hxy); lia.
    - split_and!; try done. intros ->. lia. }
  exists s2. split_and!; try done. split; simpl; try done; rewrite ?Hpool; try done.
  - intros b Hb. rewrite Hent. case_decide as Hr; [|by apply H5]. intros _. exists x, f, e. split; [done|].
    destruct (H3 x f e Hin) as (_ & _ & _ & Hdf & [q Hq]). destruct Hda as [r ->], Hdf as [u ->]. lia.
  - intros b Hb Hdb Hne. destruct (Hcase b Hb Hdb Hne) as [(-> & HxK & ->)|(_ & Hne' & ->)]; rewrite Hacc; [|by apply H6].
    by destruct (Hdata HxK) as (? & ? & _).
  - intros b c Hb Hc Hdb Hdc Hnb Hnc.
    destruct (Hcase b Hb Hdb Hnb) as [(-> & HxK & ->)|(Hb' & Hnb' & ->)], (Hcase c Hc Hdc Hnc) as [(-> & HxK' & ->)|(Hc' & Hnc' & ->)]; try done.
    + intros Heq. destruct (proj2 (proj2 (Hdata HxK)) c Hc Hdc Hnc'). done.
    + intros Heq. by destruct (proj2 (proj2 (Hdata HxK')) b Hb Hdb Hnb').
    + by apply H7.
Qed.

(** Looking up the entry changes nothing. *)
Lemma get_pte_wf st own R K a :
  vmap_wf st own R K → kaddr a →
  ∃ r s' own', get_pte page_map HHDM_OFFSET la57 root_pgtable (vmm st) a = Some (r, s') ∧
    vmap_wf (with_vm st s') own' R K ∧ same_memory (vmm st) own s' own' ∧ same_objects (pool (vmm st)) (pool s') ∧ own ⊆ own' ∧
    match r with
    | Some e => ∃ t1, own' !! (1%nat, apos 2 a) = Some t1 ∧ e = mkSlot t1 (pgtable_index a 1)
    | None => True
    end.
Proof.
  intros Hwf Ha. destruct (get_pte_live page_map HHDM_OFFSET la57 root_pgtable Hframe Hroot (vmm st) own a) as
    (r & s' & own' & E & Hpt & (Hs1 & Hs2 & Hs3 & _) & Hobj & Hr); [apply Hwf|done|].
  assert (same_memory (vmm st) own s' own') as Hs by (split; [intros b _; apply Hs1|done]).
  exists r, s', own'. split_and!; try done. apply wf_memory with own; try done.
  intros x f e Hin. rewrite <-Hobj. by eapply (vw_area _ _ _ _ Hwf).
Qed.

(** [pte_install] of a present entry. *)
Lemma make_pte_k_nonzero phys flags : Z.land flags PG_PRESENT ≠ 0 → make_pte_k phys flags ≠ 0.
Proof.
  intros Hf. unfold make_pte_k. rewrite decide_True by done. intros [_ [H _]%Z.lor_eq_0_iff]%Z.lor_eq_0_iff. by rewrite H in Hf.
Qed.

Lemma data_present nx extra : Z.land (Z.lor (PAGE_KERNEL_DATA nx) extra) PG_PRESENT ≠ 0.
Proof.
  unfold PAGE_KERNEL_DATA. rewrite !Z.land_lor_distr_l. change (Z.land PG_PRESENT PG_PRESENT) with 1.
  intros [[[[H _]%Z.lor_eq_0_iff _]%Z.lor_eq_0_iff _]%Z.lor_eq_0_iff _]%Z.lor_eq_0_iff. done.
Qed.

Lemma map_io_page_ok phys pcm R K x f e :
  (x, f, e) ∈ R → x ∉ K →
  step_ok false (λ i v, v = make_io_pte cfg (phys +ᵤ i) pcm)
    (map_io_page page_map HHDM_OFFSET la57 root_pgtable cfg phys f pcm) R K f e.
Proof.
  intros Hin HxK st own i Hwf Hdi Hi Hie Hz. destruct (vw_area _ _ _ _ Hwf x f e Hin) as (_ & Kf & Ke & Hdf & Hde).
  pose proof (ktop_u64 la57). pose proof Kf as [Kf1 _]. pose proof Ke as [_ Ke2]. pose proof (kaddr_u64 _ _ Kf) as [? _].
  unfold map_io_page. rewrite (add64_small f i) by lia.
  destruct (get_pte_wf st own R K (f + i) Hwf) as (r & s1 & own1 & -> & Hwf1 & Hs1 & Hobj1 & Hown1 & Hr); [split; lia|]. cbn [mbind option_bind].
  destruct r as [en|]; [|by exists false, (with_vm st s1), own1]. destruct Hr as (t1 & Ho & ->).
  destruct (install_wf (with_vm st s1) own1 R K x f e (f + i) t1 (make_io_pte cfg (phys +ᵤ i) pcm) Hwf1 Hin) as (s2 & E2 & Hwf2 & Hp2 & He2); try done; try lia.
  { by apply Z.divide_add_r. }
  simpl in E2. rewrite E2. cbn [mbind option_bind]. exists true, (with_vm st s2), own1. split_and!; try done.
  { simpl. by rewrite Hp2. }
  destruct Hs1 as [Hs1 Ha1]. eexists. split_and!; [done| | |].
  - apply make_pte_k_nonzero, data_present.
  - intros b Hb. simpl. rewrite He2 by done. case_decide; [done|]. by apply Hs1.
  - intros p Hp. unfold VmapPt.accounted. simpl. rewrite Hp2. fold (accounted s1 own1 p). rewrite (Ha1 p Hp).
    split; [by left|by intros [?|[? _]]].
Qed.

(** ** New areas with their pages *)

(** The state is as it was, but for tables that were added. *)
Definition unchanged st own R K st' : Prop :=
  ∃ own', vmap_wf st' own' R K ∧ same_memory (vmm st) own (vmm st') own' ∧ same_objects (pool (vmm st)) (pool (vmm st')).

Definition area_kinds (fp : bool) K (x : loc) : gset loc := if fp then K ∪ {[x]} else K ∖ {[x]}.

Lemma map_area_spec (fp : bool) (V : Z → Z → Prop) (stepf : Z → vmap_state → Z → option (bool * vmap_state)) st own R K size low high :
  (∀ R' K' x f e, (x, f, e) ∈ R' → (if fp then x ∈ K' else x ∉ K') → step_ok fp V (stepf f) R' K' f e) →
  vmap_wf st own R K → 0 < size < 2 ^ 64 → (4096 | size) → KERNEL_VM_FIRST la57 <= low → high <= KERNEL_VM_LAST la57 →
  low < 2 ^ 64 → 0 <= high →
  (∃ st', new_area st size low high = Some (None, st') ∧ unchanged st own R K st') ∨
  ∃ x f st1, new_area st size low high = Some (Some (x, f), st1) ∧
   ((∃ st' own' R1 R2,
      map_pages page_map HHDM_OFFSET la57 root_pgtable (stepf f) fp (Z.to_nat (size / 4096)) st1 x f 0 size = Some (true, st') ∧
      R = R1 ++ R2 ∧ vmap_wf st' own' (R1 ++ (x, f, f + size - 1) :: R2) (area_kinds fp K x) ∧
      has_room R size low high f ∧ progress fp V (vmm st) own (vmm st') own' f size ∧ ¬ as_live (pool (vmm st)) x ∧
      ∀ y, as_live (pool (vmm st')) y ↔ as_live (pool (vmm st)) y ∨ y = x) ∨
    (∃ st', map_pages page_map HHDM_OFFSET la57 root_pgtable (stepf f) fp (Z.to_nat (size / 4096)) st1 x f 0 size = Some (false, st') ∧
      unchanged st own R K st') ∨
    ((es M | f) ∧ ∃ st2, stepf f st1 0 = Some (false, st2))).
Proof.
  intros Hstep Hwf Hs Hd Hlo Hhi Hlo' Hhi'.
  destruct (new_area_spec st own R K size low high) as [(st' & E & Hwf' & Hm & Hobj)|(x & f & st1 & R1 & R2 & E & HR & Hwf1 & Hm1 & Hx & Hl1 & Hroom & _)]; try done.
  { left. exists st'. split; [done|]. by exists own. }
  right. exists x, f, st1. split; [done|]. set (e := f + size - 1) in *. set (K' := area_kinds fp K x).
  assert (K' ∖ {[x]} ⊆ K) as HK' by (unfold K', area_kinds; destruct fp; set_solver).
  pose proof (fresh_area st own R K x Hwf Hx) as HxR. pose proof (room_roomy R size low high f ltac:(lia) Hd Hlo Hhi Hroom) as (Kf & Ke & _ & Hdf & _ & Hdis).
  destruct (map_pages_spec fp V (stepf f) R1 x f e R2 K' (vmm st) own) with (fuel := Z.to_nat (size / 4096)) (st := st1) (own := own) (i := 0)
    as [(st' & own' & Em & A & B & C)|[(st' & own' & Em & A & B & C)|(_ & Hdv & st2 & E2)]].
  - apply (Hstep _ _ x); [set_solver|]. unfold K', area_kinds. destruct fp; set_solver.
  - intros b Hb. destruct (decide (ent (vmm st) own 1 b = 0)) as [|Hne]; [done|]. exfalso.
    destruct (vw_mapped _ _ _ _ Hwf b) as (y & f' & e' & Hy & Hye); [destruct Kf, Ke; split; lia|done|].
    unfold disjoint_from in Hdis. rewrite Forall_forall in Hdis. specialize (Hdis _ Hy). simpl in Hdis. lia.
  - intros ->. unfold K', area_kinds. set_solver.
  - by apply Hwf1.
  - by apply progress_start.
  - apply Z.divide_0_r.
  - done.
  - lia.
  - destruct Hd as [q ->]. rewrite Z.div_mul by lia. lia.
  - left. replace (e + 1 - f) with size in * by lia. exists st', own', R1, R2. split_and!; try done.
    intros y. by rewrite <-C.
  - right; left. replace (e + 1 - f) with size in * by lia. exists st'. split; [done|]. exists own'. rewrite HR. split_and!; try done.
    + apply wf_large with (K' ∖ {[x]}); [done|]. intros y f' e' Hy HyK. rewrite <-HR in Hy.
      assert (y ≠ x) by (intros ->; apply HxR, list_elem_of_fmap; by exists (x, f', e')).
      unfold K', area_kinds. destruct fp; set_solver.
    + intros y. rewrite C, Hl1. split; [|intros Hy; split; [by left|congruence]]. by intros [[?|?] ?].
  - right; right. split; [done|]. by exists st2.
Qed.

(** ** The operations *)

Abbreviation translate st b := (translate HHDM_OFFSET la57 root_pgtable (vmm st) b).

Lemma translate_wf st own R K b : vmap_wf st own R K → kaddr b → translate st b = Some (ent (vmm st) own 1 b).
Proof. intros Hwf Hb. apply (translate_ent page_map HHDM_OFFSET la57 root_pgtable (vmm st) own b); [apply Hwf|done]. Qed.

(** A call that failed: the areas, translations and objects are as they were and
    every page is still in the allocators' hands or a page table. *)
Definition failed_clean st own R K (r : option (option Z * vmap_state)) : Prop :=
  ∃ st' own', r = Some (None, st') ∧ vmap_wf st' own' R K ∧ (∀ b, kaddr b → translate st' b = translate st b) ∧
    (∀ p, ps_page p → accounted (vmm st') own' p ↔ accounted (vmm st) own p) ∧
    same_objects (pool (vmm st)) (pool (vmm st')).

Lemma unchanged_clean st own R K st' :
  vmap_wf st own R K → unchanged st own R K st' → failed_clean st own R K (Some (None, st')).
Proof.
  intros Hwf (own' & Hwf' & [H1 H2] & H3). exists st', own'. split_and!; try done. intros b Hb.
  by rewrite (translate_wf st' own' R K), (translate_wf st own R K), H1.
Qed.

Lemma pages_of_size size :
  u64 size → align_up size PAGE_SIZE ≠ 0 → 0 < align_up size PAGE_SIZE < 2 ^ 64 ∧ (4096 | align_up size PAGE_SIZE).
Proof.
  intros [Hs1 Hs2] Hnz. destruct (align_up_spec size PAGE_SIZE) as [(_ & (H1 & H2 & _) & H3)|[_ H]]; [by split|by exists 12| |done].
  split; [lia|]. apply Z.mod_divide; [done|]. exact H2.
Qed.

(** The bytes mapped for [size] bytes at [phys], and the page they begin in. *)
Definition io_offset (phys : Z) : Z := phys mod 4096.
Definition io_length (phys size : Z) : Z := align_up (size + io_offset phys) PAGE_SIZE.

Lemma io_offset_eq phys : u64 phys → Z.land phys (PAGE_SIZE -ᵤ 1) = io_offset phys ∧ phys -ᵤ io_offset phys = phys - io_offset phys.
Proof.
  intros [H1 H2]. unfold io_offset, PAGE_SIZE. rewrite (sub64_small 4096 1) by lia. change (4096 - 1) with (Z.ones 12).
  rewrite Z.land_ones by lia. change (2 ^ 12) with 4096. split; [done|]. pose proof (Z.mod_pos_bound phys 4096 ltac:(lia)).
  pose proof (Z.mod_le phys 4096 ltac:(lia) ltac:(lia)). by rewrite sub64_small by lia.
Qed.

(** [vmap_io_range] when the request makes sense. *)
Lemma io_range_unfold st phys size pcm low high :
  u64 phys → u64 size → size + io_offset phys < 2 ^ 64 → io_length phys size ≠ 0 →
  vmap_io_range page_map HHDM_OFFSET la57 root_pgtable cfg st phys size pcm low high =
  '(area, st) ← new_area st (io_length phys size) low high;
  match area with
  | None => Some (None, st)
  | Some (vma, addr) =>
    '(ok, st) ← map_pages page_map HHDM_OFFSET la57 root_pgtable
      (map_io_page page_map HHDM_OFFSET la57 root_pgtable cfg (phys - io_offset phys) addr pcm) false
      (Z.to_nat (io_length phys size / 4096)) st vma addr 0 (io_length phys size);
    if ok : bool then '(first, _) ← at_bounds (vmap_tree st) vma; Some (Some (first +ᵤ io_offset phys), st) else Some (None, st)
  end.
Proof.
  intros Hp Hs Hsz Hnz. destruct (io_offset_eq phys Hp) as [E1 E2]. unfold vmap_io_range. rewrite E1, E2.
  pose proof (Z.mod_pos_bound phys 4096 ltac:(lia)). fold (io_offset phys) in *. destruct Hs. rewrite add64_small by lia. rewrite decide_False by lia.
  fold (io_length phys size). by rewrite decide_False.
Qed.

(** C15. [vmap_io_range] (and with it [vmap_io], [vmap_range], [vmap]), called in
    a well-formed state for a window of the kernel's virtual address space, ends
    in one of three ways.  It returns the address of the byte of a new area: the
    area lies in the window, page-aligned and with a free page on both sides, each
    of its pages is translated to the page of the MMIO window it stands for, every
    other address as before, and the state is well formed with exactly that area
    added.  Or it returns null: the areas, every translation and every object are
    as they were and no page is lost, a page being in the allocators' hands or a
    page table exactly if it was before; but page tables allocated on the way may
    stay behind empty, so that fewer pages may be free.  Or the very first page
    could not be mapped and the area begins at an entry of the root table, the one
    case the way out does not handle and about which nothing is claimed. *)
Theorem vmap_io_range_correct st own R K phys size pcm low high (off := io_offset phys) (len := io_length phys size) :
  vmap_wf st own R K → u64 phys → u64 size → KERNEL_VM_FIRST la57 <= low < 2 ^ 64 → 0 <= high <= KERNEL_VM_LAST la57 →
  let r := vmap_io_range page_map HHDM_OFFSET la57 root_pgtable cfg st phys size pcm low high in
  (∃ x f st' own' R1 R2, r = Some (Some (f + off), st') ∧ R = R1 ++ R2 ∧
     vmap_wf st' own' (R1 ++ (x, f, f + len - 1) :: R2) (K ∖ {[x]}) ∧ size + off <= len ∧ has_room R len low high f ∧
     (∀ b, kaddr b → translate st' b =
        if decide (f <= b < f + len) then Some (make_io_pte cfg ((phys - off) +ᵤ (apos 1 b - f)) pcm) else translate st b) ∧
     (∀ p, ps_page p → accounted (vmm st') own' p ↔ accounted (vmm st) own p) ∧
     ∀ y, as_live (pool (vmm st')) y ↔ as_live (pool (vmm st)) y ∨ y = x) ∨
  failed_clean st own R K r ∨
  (∃ x f st1 st2, new_area st len low high = Some (Some (x, f), st1) ∧ (es M | f) ∧
     map_io_page page_map HHDM_OFFSET la57 root_pgtable cfg (phys - off) f pcm st1 0 = Some (false, st2)).
Proof.
  intros Hwf Hp Hs [Hlo Hlo'] [Hhi' Hhi] r. assert (unchanged st own R K st) as Hrefl by (by exists own).
  assert (0 <= off < 4096) as Hoff by (apply Z.mod_pos_bound; lia).
  destruct (decide (size + off < 2 ^ 64)) as [Hsz|Hbig].
  2:{ right; left. unfold r, vmap_io_range. rewrite (proj1 (io_offset_eq phys Hp)). fold off. rewrite decide_True; [by apply unchanged_clean|].
      destruct Hs. unfold add64, wrap. rewrite <-(Z.mod_unique (size + off) (2 ^ 64) 1 (size + off - 2 ^ 64)); lia. }
  destruct (decide (len = 0)) as [Hz|Hnz].
  { right; left. unfold r, vmap_io_range. rewrite (proj1 (io_offset_eq phys Hp)). fold off. destruct Hs.
    rewrite (add64_small size off), decide_False by lia. change (align_up (size + off) PAGE_SIZE) with len.
    rewrite decide_True by done. by apply unchanged_clean. }
  assert (0 < len < 2 ^ 64 ∧ (4096 | len)) as [Hlen Hdlen] by (apply pages_of_size; [destruct Hs; split; lia|done]).
  unfold r. rewrite io_range_unfold by done. fold len off.
  destruct (map_area_spec false (λ i v, v = make_io_pte cfg ((phys - off) +ᵤ i) pcm)
    (λ f, map_io_page page_map HHDM_OFFSET la57 root_pgtable cfg (phys - off) f pcm) st own R K len low high)
    as [(st' & -> & Hu)|(x & f & st1 & -> & [(st' & own' & R1 & R2 & Em & HR & Hwf' & Hroom & Hpr & _ & Hl)|[(st' & Em & Hu)|(Hd & st2 & E2)]])];
    try done; cbn [mbind option_bind].
  { intros R' K' x f e. apply map_io_page_ok. }
  - right; left. by apply unchanged_clean.
  - left. rewrite Em. cbn [mbind option_bind].
    rewrite (at_bounds_ok _ _ x f (f + len - 1) (vw_tree _ _ _ _ Hwf')) by set_solver. cbn [mbind option_bind].
    destruct (vw_area _ _ _ _ Hwf' x f (f + len - 1)) as (_ & Kf & Ke & Hdf & _); [set_solver|].
    pose proof (ktop_u64 la57). pose proof Ke as [_ Ke2]. pose proof Kf as [Kf1 _]. pose proof (kaddr_u64 _ _ Kf) as [? _].
    assert (size + off <= len) as Hle.
    { unfold len, io_length. fold off. destruct (align_up_spec (size + off) PAGE_SIZE) as [(_ & (? & _) & _)|[_ Hz]]; [destruct Hs; split; lia|by exists 12|done|done]. }
    assert (4096 <= len) by (destruct Hdlen as [q Hq]; lia). rewrite add64_small by lia.
    exists x, f, st', own', R1, R2. split_and!; try done.
    + intros b Hb. rewrite (translate_wf _ _ _ _ _ Hwf'), (translate_wf st own R K) by done. case_decide as Hr.
      * pose proof (apos_bounds 1 b) as Hab. change (es 1) with 4096 in Hab.
        assert (f <= apos 1 b) as Hge by (apply apos_greatest; [exact Hdf|lia]).
        destruct (pr_in _ _ _ _ _ _ _ _ Hpr (apos 1 b - f)) as (v & -> & _ & He); [lia|by apply Z.divide_sub_r; [apply (apos_divide 1 b)|]|].
        rewrite He by lia. done.
      * by rewrite (pr_out _ _ _ _ _ _ _ _ Hpr).
    + intros p Hpp. rewrite (pr_acc _ _ _ _ _ _ _ _ Hpr p Hpp). split; [by left|by intros [?|[? _]]].
  - right; left. rewrite Em. cbn [mbind option_bind]. by apply unchanged_clean.
  - right; right. by exists x, f, st1, st2.
Qed.

(** C18. [vunmap], and [kfree_large] of a pointer from [kmalloc_large], terminate
    without touching a freed table.  If no area contains the pointer, an error is
    printed and nothing changes.  Otherwise exactly that area goes away: none of
    its addresses is translated any more, every other address is translated as
    before, its object is freed, the state stays well formed, and no page is lost;
    with [kfree_large] every page of the area is back in the allocator. *)
Theorem vunmap_correct st own R K ptr (free_pages : bool) :
  vmap_wf st own R K → (free_pages = true → ∀ x f e, (x, f, e) ∈ R → f <= ptr <= e → x ∈ K) →
  let r := if free_pages then kfree_large page_map HHDM_OFFSET la57 root_pgtable st ptr
           else vunmap page_map HHDM_OFFSET la57 root_pgtable st ptr in
  (r = Some (false, st) ∧ ∀ x f e, (x, f, e) ∈ R → ¬ f <= ptr <= e) ∨
  ∃ R1 x f e R2 st' own', R = R1 ++ (x, f, e) :: R2 ∧ f <= ptr <= e ∧ r = Some (true, st') ∧
    vmap_wf st' own' (R1 ++ R2) (K ∖ {[x]}) ∧
    (∀ b, kaddr b → translate st' b = if decide (f <= b <= e) then Some 0 else translate st b) ∧
    (∀ p, ps_page p → accounted (vmm st') own' p ↔ accounted (vmm st) own p ∨
       (free_pages = true ∧ ∃ b, (4096 | b) ∧ f <= b <= e ∧ ent (vmm st) own 1 b ≠ 0 ∧ p = mapped_page (vmm st) own b)) ∧
    ∀ y, as_live (pool (vmm st')) y ↔ as_live (pool (vmm st)) y ∧ y ≠ x.
Proof.
  intros Hwf HK r. assert (r = unmap_area page_map HHDM_OFFSET la57 root_pgtable st ptr free_pages) as -> by (by destruct free_pages).
  destruct (unmap_area_spec st own R K ptr free_pages Hwf HK) as [|(R1 & x & f & e & R2 & st' & own' & H1 & H2 & H3 & H4 & H5 & H6 & H7)]; [by left|right].
  exists R1, x, f, e, R2, st', own'. split_and!; try done; try lia.
  intros b Hb. rewrite (translate_wf _ _ _ _ _ H4), (translate_wf _ _ _ _ _ Hwf), H5 by done. by case_decide.
Qed.

(** ** [kmalloc_large] *)

(** The no-execute bit is not part of an address. *)
Context (Hnx : Z.land (x86_nx_bit cfg) PG_ADDR_MASK = 0).

(** A page of [kmalloc_large] and its entry. *)
Definition data_pte (p : loc) : Z := make_pte_k (page_to_phys page_map p) (PAGE_KERNEL_DATA (x86_nx_bit cfg)).

Lemma data_pte_page p : ps_page p → phys_to_page page_map (phys_addr (data_pte p)) = p ∧ data_pte p ≠ 0.
Proof.
  intros (n & Hn & Hph & Hinv)%Hframe%frame_phys.
  pose proof (data_present (x86_nx_bit cfg) 0) as Hpr. rewrite Z.lor_0_r in Hpr.
  split; [|by apply make_pte_k_nonzero]. unfold data_pte, make_pte_k. rewrite decide_True, Hph by done.
  rewrite phys_addr_lor; [done|done|]. unfold PAGE_KERNEL_DATA. by rewrite !Z.land_lor_distr_l, Hnx.
Qed.

(** Taking a page out of the allocator. *)
Lemma take_page_wf st own R K p src :
  vmap_wf st own R K → ps_ok src → ps_page p → ps_free (pool (vmm st)) p →
  (∀ q, ps_free src q ↔ ps_free (pool (vmm st)) q ∧ q ≠ p) → same_objects (pool (vmm st)) src →
  vmap_wf (with_vm st (with_pool (vmm st) src)) own R K ∧ ¬ accounted (with_pool (vmm st) src) own p ∧
  ∀ q, accounted (vmm st) own q ↔ accounted (with_pool (vmm st) src) own q ∨ q = p.
Proof.
  intros Hwf Hok Hp Hf Hfree Hobj.
  assert (¬ is_table page_map HHDM_OFFSET own p) as Hnt.
  { intros [k Hk]. by apply (own_not_page page_map HHDM_OFFSET la57 root_pgtable Hframe Hroot (vmm st) own k _ p (vw_pt _ _ _ _ Hwf) Hk Hp Hf). }
  assert (∀ q, accounted (with_pool (vmm st) src) own q ↔ ps_free (pool (vmm st)) q ∧ q ≠ p ∨ is_table page_map HHDM_OFFSET own q) as Ha.
  { intros q. unfold VmapPt.accounted. simpl. by rewrite Hfree. }
  split_and!.
  - apply wf_shrink with own; try done.
    + apply pt_wf_pool; [apply Hwf|done|]. intros q. rewrite Hfree. tauto.
    + intros q _. rewrite Ha. unfold VmapPt.accounted. tauto.
    + intros x f e Hin. simpl. rewrite <-Hobj. by eapply (vw_area _ _ _ _ Hwf).
  - rewrite Ha. tauto.
  - intros q. rewrite Ha. unfold VmapPt.accounted. destruct (decide (q = p)) as [->|]; tauto.
Qed.

Lemma map_new_page_ok R K x f e :
  (x, f, e) ∈ R → x ∈ K →
  step_ok true (λ _ v, ∃ p, ps_page p ∧ v = data_pte p)
    (map_new_page page_map HHDM_OFFSET la57 root_pgtable cfg f) R K f e.
Proof.
  intros Hin HxK st own i Hwf Hdi Hi Hie Hz. destruct (vw_area _ _ _ _ Hwf x f e Hin) as (_ & Kf & Ke & Hdf & Hde).
  pose proof (ktop_u64 la57). pose proof Kf as [Kf1 _]. pose proof Ke as [_ Ke2]. pose proof (kaddr_u64 _ _ Kf) as [? _].
  unfold map_new_page. pose proof (pw_pool _ _ _ _ _ _ (vw_pt _ _ _ _ Hwf)) as Hpool.
  destruct (ps_alloc_ok (pool (vmm st)) ALLOC_KERNEL Hpool) as [E|(p & src & E & Hok & Hp & Hf & Hfree & _)]; rewrite E; cbn [mbind option_bind].
  { exists false, st, own. split_and!; try done. by destruct st as [[] ?]. }
  destruct (take_page_wf st own R K p src Hwf Hok Hp Hf Hfree) as (Hwf1 & Hn1 & Ha1).
  { intros y. by apply (as_live_alloc _ ALLOC_KERNEL (Some p)). }
  assert (same_objects (pool (vmm st)) src) as Hobj1 by (intros y; by apply (as_live_alloc _ ALLOC_KERNEL (Some p))).
  rewrite (add64_small f i) by lia.
  destruct (get_pte_wf _ own R K (f + i) Hwf1) as (r & s2 & own2 & -> & Hwf2 & [Hs2 Ha2] & Hobj2 & Hown2 & Hr); [split; lia|]. cbn [mbind option_bind].
  simpl in Ha2, Hobj2. change (∀ b, kaddr b → ent s2 own2 1 b = ent (vmm st) own 1 b) in Hs2.
  assert (¬ accounted s2 own2 p) as Hn2 by by rewrite Ha2. destruct r as [en|].
  - destruct Hr as (t1 & Ho & ->). destruct (data_pte_page p Hp) as [Hpp Hnz].
    destruct (install_wf _ own2 R K x f e (f + i) t1 (data_pte p) Hwf2 Hin) as (s3 & E3 & Hwf3 & Hp3 & He3); try done; try lia.
    { by apply Z.divide_add_r. }
    { rewrite Hpp. intros _. split_and!; try done. intros b Hb Hdb Hne Heq.
      destruct (vw_data _ _ _ _ Hwf b Hb Hdb) as [_ Hna].
      - rewrite <-Hs2; [done|]. by apply (large_kaddr st own R K).
      - apply Hna. unfold VmapPt.mapped_page in *. simpl in Heq. rewrite Hs2 in Heq by (by apply (large_kaddr st own R K)). rewrite Heq. by left. }
    simpl in E3. unfold data_pte in E3. rewrite E3. cbn [mbind option_bind]. exists true, (with_vm st s3), own2. split_and!; try done.
    { simpl. rewrite Hp3. by etrans. }
    exists (data_pte p). split_and!; [by exists p|done| |].
    + intros b Hb. simpl. rewrite He3 by done. case_decide; [done|]. by apply Hs2.
    + intros q Hq. rewrite Ha1, <-Ha2, Hpp by done. unfold VmapPt.accounted. simpl. rewrite Hp3. tauto.
  - destruct (release_live page_map HHDM_OFFSET la57 root_pgtable s2 own2 p) as (s3 & -> & Hpt3 & Hobj3 & Ha3 & He3); [apply Hwf2|done|done|].
    cbn [mbind option_bind]. exists false, (with_vm st s3), own2. assert (same_memory (vmm st) own s3 own2) as Hs.
    { split; [intros b Hb; by rewrite He3, Hs2|]. intros q Hq. by rewrite Ha3, Ha2, <-Ha1. }
    assert (same_objects (pool (vmm st)) (pool s3)) as Hobj by (etrans; [exact Hobj1|]; by etrans).
    split_and!; try done. apply wf_memory with own; try done. intros y f' e' Hy. rewrite <-Hobj. by eapply (vw_area _ _ _ _ Hwf).
Qed.

(** C16. [kmalloc_large], called in a well-formed state with a no-execute bit
    outside the address bits of an entry, ends in one of three ways.  It returns
    the address of a new area of the kernel's virtual address space, page-aligned,
    at least as large as asked for and with a free page on both sides; every page
    of the area is translated to a page frame of its own that was in the
    allocators' hands before and is neither there nor a page table now, every
    other address is translated as before, and no page is lost.  Or it returns
    null: the areas, every translation and every object are as they were and no
    page is lost, a page being in the allocators' hands or a page table exactly if
    it was before; but page tables allocated on the way may stay behind empty, so
    that fewer pages may be free.  Or the very first page could not be mapped and
    the area begins at an entry of the root table, the one case the way out does
    not handle and about which nothing is claimed. *)
Theorem kmalloc_large_correct st own R K size (len := align_up size PAGE_SIZE) :
  vmap_wf st own R K → u64 size →
  let r := kmalloc_large page_map HHDM_OFFSET la57 root_pgtable cfg st size in
  (∃ x f st' own' R1 R2, r = Some (Some f, st') ∧ R = R1 ++ R2 ∧
     vmap_wf st' own' (R1 ++ (x, f, f + len - 1) :: R2) (K ∪ {[x]}) ∧
     has_room R len (KERNEL_VM_FIRST la57) (KERNEL_VM_LAST la57) f ∧ size <= len ∧
     (∀ b, kaddr b → ¬ (f <= b < f + len) → translate st' b = translate st b) ∧
     (∀ b, f <= b < f + len → ∃ p, ps_page p ∧ ps_free (pool (vmm st)) p ∧ ¬ accounted (vmm st') own' p ∧
        translate st' b = Some (data_pte p)) ∧
     (∀ b c, f <= b < f + len → f <= c < f + len → translate st' b = translate st' c → apos 1 b = apos 1 c) ∧
     (∀ p, ps_page p → accounted (vmm st) own p ↔ accounted (vmm st') own' p ∨
        ∃ b, f <= b < f + len ∧ translate st' b = Some (data_pte p)) ∧
     ∀ y, as_live (pool (vmm st')) y ↔ as_live (pool (vmm st)) y ∨ y = x) ∨
  failed_clean st own R K r ∨
  (∃ x f st1 st2, new_area st len (KERNEL_VM_FIRST la57) (KERNEL_VM_LAST la57) = Some (Some (x, f), st1) ∧ (es M | f) ∧
     map_new_page page_map HHDM_OFFSET la57 root_pgtable cfg f st1 0 = Some (false, st2)).
Proof.
  intros Hwf Hs r. unfold r, kmalloc_large. fold len. change (len / PAGE_SIZE) with (len / 4096).
  destruct (decide (len = 0)) as [Hz|Hnz]; [right; left; apply unchanged_clean; [done|by exists own]|].
  assert (0 < len < 2 ^ 64 ∧ (4096 | len)) as [Hlen Hdlen] by (by apply pages_of_size).
  pose proof (region_bounds la57) as (? & [? ?] & ?). pose proof (es_pos M). unfold ktop in *.
  destruct (map_area_spec true (λ _ v, ∃ p, ps_page p ∧ v = data_pte p) (map_new_page page_map HHDM_OFFSET la57 root_pgtable cfg)
    st own R K len (KERNEL_VM_FIRST la57) (KERNEL_VM_LAST la57))
    as [(st' & -> & Hu)|(x & f & st1 & -> & [(st' & own' & R1 & R2 & Em & HR & Hwf' & Hroom & Hpr & _ & Hl)|[(st' & Em & Hu)|(Hd & st2 & E2)]])];
    try done; try lia; cbn [mbind option_bind]; [intros R' K' x f e; apply map_new_page_ok|by right; left; apply unchanged_clean| |
      right; left; rewrite Em; by apply unchanged_clean|right; right; by exists x, f, st1, st2].
  left. rewrite Em. cbn [mbind option_bind].
  rewrite (at_bounds_ok _ _ x f (f + len - 1) (vw_tree _ _ _ _ Hwf')) by set_solver. cbn [mbind option_bind].
  destruct (vw_area _ _ _ _ Hwf' x f (f + len - 1)) as (_ & Kf & Ke & Hdf & _); [set_solver|].
  assert (∀ b, f <= b < f + len → kaddr b) as Ka by (intros b Hb; destruct Kf, Ke; split; lia).
  assert (∀ b, f <= b < f + len → f <= apos 1 b < f + len ∧ (4096 | apos 1 b) ∧ large (R1 ++ (x, f, f + len - 1) :: R2) (K ∪ {[x]}) (apos 1 b)) as Hpg.
  { intros b Hb. pose proof (apos_bounds 1 b). assert (f <= apos 1 b) by (apply apos_greatest; [exact Hdf|lia]).
    split_and!; [lia|lia|apply (apos_divide 1 b)|]. exists x, f, (f + len - 1). split_and!; [set_solver|set_solver|lia|lia]. }
  assert (∀ b, f <= b < f + len → ∃ p, ps_page p ∧ translate st' b = Some (data_pte p) ∧ mapped_page (vmm st') own' (apos 1 b) = p ∧
    ent (vmm st') own' 1 (apos 1 b) ≠ 0) as Hmap.
  { intros b Hb. destruct (Hpg b Hb) as (Hr & Hd & _). pose proof (apos_bounds 1 b) as Hab. change (es 1) with 4096 in Hab.
    destruct (pr_in _ _ _ _ _ _ _ _ Hpr (apos 1 b - f)) as (v & (p & Hp & ->) & Hv & He); [lia|by apply Z.divide_sub_r|].
    exists p. rewrite (translate_wf _ _ _ _ _ Hwf') by (by apply Ka). unfold VmapPt.mapped_page. rewrite !He by lia.
    split_and!; try done. by apply data_pte_page. }
  exists x, f, st', own', R1, R2. split_and!; try done.
  - unfold len. destruct (align_up_spec size PAGE_SIZE Hs) as [(_ & (? & _) & _)|[_ Hz]]; [by exists 12|done|done].
  - intros b Hb Hr. by rewrite (translate_wf _ _ _ _ _ Hwf'), (translate_wf st own R K), (pr_out _ _ _ _ _ _ _ _ Hpr).
  - intros b Hb. destruct (Hmap b Hb) as (p & Hp & E & Hm & Hne). destruct (Hpg b Hb) as (Hr & Hd & Hlg).
    destruct (vw_data _ _ _ _ Hwf' _ Hlg Hd Hne) as [_ Hn]. rewrite Hm in Hn. exists p. split_and!; try done.
    assert (accounted (vmm st) own p) as [?|[κ Hκ]]; [|done|].
    { apply (pr_acc _ _ _ _ _ _ _ _ Hpr p Hp). right. split; [done|]. by exists (apos 1 b). }
    destruct Hn. right. exists κ. by apply (lookup_weaken _ _ _ _ Hκ (pr_own _ _ _ _ _ _ _ _ Hpr)).
  - intros b c Hb Hc Heq. destruct (Hmap b Hb) as (p & Hp & E & Hm & Hne), (Hmap c Hc) as (q & Hq & E' & Hm' & Hne').
    destruct (Hpg b Hb) as (_ & Hd & Hlg), (Hpg c Hc) as (_ & Hd' & Hlg'). apply (vw_inj _ _ _ _ Hwf'); try done. rewrite Hm, Hm'.
    assert (data_pte p = data_pte q) as Hpq by congruence. by rewrite <-(proj1 (data_pte_page p Hp)), Hpq, (proj1 (data_pte_page q Hq)).
  - intros p Hp. rewrite (pr_acc _ _ _ _ _ _ _ _ Hpr p Hp). apply or_iff_compat_l. split.
    + intros (_ & b & Hd & Hb & ->). exists b. split; [done|]. destruct (Hmap b Hb) as (q & Hq & E & Hm & _).
      by rewrite (apos_fixed 1 b Hd) in Hm; rewrite Hm.
    + intros (b & Hb & E). split; [done|]. destruct (Hmap b Hb) as (q & Hq & E' & Hm & _). destruct (Hpg b Hb) as (Hr & Hd & _).
      exists (apos 1 b). split_and!; [done|lia|lia|]. rewrite Hm. assert (data_pte p = data_pte q) as Hpq by congruence.
      by rewrite <-(proj1 (data_pte_page p Hp)), Hpq, (proj1 (data_pte_page q Hq)).
Qed.

End vmap.
