(* ===== verification/VmapTree.v ===== *)
(** * The VMA tree as the tree of areas

    [dsl::VMATree] provides what [mm/vmap.cc] needs of its tree: the theorems
    about the VMA tree discharge the interface [AreaTree]. *)

From S2P Require Import Prelude Align LinkedList VmaInsert VmaRemove VmaFree.
From S2P Require Export Vmap.

Section area_tree.
Local Open Scope Z_scope.

(** The list head of the tree, and what the memory of a new [vmap_area] holds
    before its fields are set. *)
Context (head : loc) (junk : node vma) (junk_list : ListHead).

Definition area_bounds (st : VMATree) (x : loc) : option (Z * Z) :=
  n ← nodes st !! x; Some (first (aux n), last (aux n)).

(** [vma->node.first = f; vma->node.last = e] *)
Definition set_area_bounds (st : VMATree) (x : loc) (f e : Z) : VMATree :=
  let a := aux junk in
  mkVMATree (<[x := mkNode (child_l junk) (child_r junk) (parent junk) (mkVma f e (height a) (prev_gap a) (biggest_gap a))]> (nodes st))
    (<[x := junk_list]> (lists st)) (m_list st) (root st).

Definition holds_areas (st : VMATree) (R : areas) : Prop := m_list st = head ∧ ∃ t, vma_wf st t ∧ ranges t = R.

Lemma ranges_keys t : area_ptr <$> ranges t = keys t.
Proof. rewrite keys_cores. unfold ranges. rewrite <-list_fmap_compose. by apply list_fmap_ext. Qed.

Lemma ranges_inorder t x f e : (x, f, e) ∈ ranges t ↔ ∃ a, (x, a) ∈ inorder t ∧ first a = f ∧ last a = e.
Proof.
  unfold ranges, cores, cores_of. rewrite <-list_fmap_compose, list_elem_of_fmap. split.
  - intros ([y a] & [= -> -> ->] & Hin). by exists a.
  - intros (a & Hin & <- & <-). by exists (x, a).
Qed.

(** The ranges are in order and do not meet. *)
Lemma ranges_sorted st t R1 x f e R2 :
  vma_wf st t → ranges t = R1 ++ (x, f, e) :: R2 →
  0 <= f <= e ∧ e < 2 ^ 64 ∧ (∀ y f' e', (y, f', e') ∈ R1 → e' < f) ∧ (∀ y f' e', (y, f', e') ∈ R2 → e < f').
Proof.
  intros Hwf (c1 & c2 & HR & E2 & E1)%fmap_app_inv. pose proof (wf_ranges _ _ Hwf) as Hok. rewrite E1 in Hok.
  destruct c2 as [|[y [[f0 e0] g]] c2]; [done|]. injection E2 as <- <- <- ->.
  destruct (ranges_ok_mid _ _ _ _ _ _ _ Hok) as (H1 & H2 & H3 & H4 & _). pose proof (ranges_ok_end _ _ H1).
  split_and!; try lia.
  - intros y' f' e' Hin. subst R1. apply list_elem_of_fmap in Hin as ([z [[f1 e1] g1]] & [= -> -> ->] & Hin).
    pose proof (ranges_ok_upper _ _ H1) as Hu. rewrite Forall_forall in Hu. specialize (Hu _ Hin). unfold core_first, core_last in Hu. simpl in Hu. lia.
  - intros y' f' e' Hin. apply list_elem_of_fmap in Hin as ([z [[f1 e1] g1]] & [= -> -> ->] & Hin).
    pose proof (ranges_ok_lower _ _ H4) as Hl. rewrite Forall_forall in Hl. specialize (Hl _ Hin). unfold core_first in Hl. simpl in Hl. lia.
Qed.

(** Setting up an object outside the tree. *)
Lemma set_bounds_wf st t x f e :
  vma_wf st t → x ∉ m_list st :: keys t → vma_wf (set_area_bounds st x f e) t.
Proof.
  intros [H1 H2 H3 H4 H5 H6] Hx. split; simpl; try done.
  - apply (rep_ext (nodes st)); [|done]. intros y Hy. apply lookup_insert_ne. set_solver.
  - destruct H3 as [Hnd Hl]. split; [done|]. apply (links_ext (lists st) _ (m_list st :: keys t)); [..|done];
      intros p Hp; unfold get_next, get_prev; rewrite lookup_insert_ne; set_solver.
Qed.

Lemma split_at_key (R1 R2 R1' R2' : areas) x f e f' e' :
  NoDup (area_ptr <$> R1 ++ (x, f, e) :: R2) → R1 ++ (x, f, e) :: R2 = R1' ++ (x, f', e') :: R2' →
  R1 = R1' ∧ R2 = R2' ∧ f = f' ∧ e = e'.
Proof.
  revert R1'. induction R1 as [|a R1 IH]; intros [|b R1']; simpl; intros [Hn Hnd]%NoDup_cons Heq.
  - by injection Heq as -> -> ->.
  - injection Heq as <- ->. destruct Hn. rewrite fmap_app. apply elem_of_app. right. by left.
  - injection Heq as -> <-. destruct Hn. rewrite fmap_app. apply elem_of_app. right. by left.
  - injection Heq as -> Heq. by destruct (IH R1' Hnd Heq) as (-> & -> & -> & ->).
Qed.

Lemma areas_insert st R x f e :
  holds_areas st R → x ≠ head → x ∉ area_ptr <$> R → 0 <= f <= e → e < 2 ^ 64 → disjoint_from f e R →
  ∃ st' R1 R2, VMATree_insert (set_area_bounds st x f e) x = Some st' ∧ R = R1 ++ R2 ∧ holds_areas st' (R1 ++ (x, f, e) :: R2).
Proof.
  intros (Hh & t & Hwf & <-) Hx HR Hf He Hd. rewrite ranges_keys in HR.
  assert (x ∉ m_list st :: keys t) as Hn by (rewrite Hh; set_solver).
  edestruct (VMATree_insert_spec (set_area_bounds st x f e) t x) as (st' & t' & R1 & R2 & E & Hwf' & Hm & E1 & E2 & _);
    [by apply set_bounds_wf|simpl; apply lookup_insert_eq|done|simpl; rewrite lookup_insert_eq; by eexists|done..|].
  exists st', R1, R2. split_and!; try done. split; [by rewrite Hm|]. by exists t'.
Qed.

Lemma areas_remove st R1 x f e R2 :
  holds_areas st (R1 ++ (x, f, e) :: R2) → ∃ st', VMATree_remove st x = Some st' ∧ holds_areas st' (R1 ++ R2).
Proof.
  intros (Hh & t & Hwf & Ht).
  destruct (VMATree_remove_spec st t x Hwf) as (st' & t' & R1' & f' & e' & R2' & E & Hwf' & Hm & E1 & E2 & _).
  { rewrite <-ranges_keys, Ht, fmap_app. apply elem_of_app. right. by left. }
  exists st'. split; [done|]. split; [by rewrite Hm|]. exists t'. split; [done|]. rewrite E2.
  rewrite Ht in E1. apply split_at_key in E1 as (-> & -> & _); [done|]. rewrite <-Ht, ranges_keys.
  by pose proof (is_list_NoDup _ _ _ (wf_list _ _ Hwf)) as [_ ?]%NoDup_cons.
Qed.

Lemma keys_split t R1 x f e R2 :
  ranges t = R1 ++ (x, f, e) :: R2 → keys t = (area_ptr <$> R1) ++ x :: (area_ptr <$> R2).
Proof. intros E. by rewrite <-ranges_keys, E, fmap_app. Qed.

#[refine] Instance vma_area_tree : AreaTree VMATree := {|
  at_rep := holds_areas;
  at_node x := x ≠ head;
  at_bounds := area_bounds;
  at_set_bounds := set_area_bounds;
  at_insert := VMATree_insert;
  at_remove := VMATree_remove;
  at_find := VMATree_find;
  at_prev st x := VMATree_prev (lists st) (m_list st) (Some x);
  at_next st x := VMATree_next (lists st) (m_list st) (Some x);
  at_find_free_bottomup := VMATree_find_free_bottomup;
|}.
Proof.
  - intros st R (_ & t & Hwf & <-). rewrite ranges_keys. split.
    + by pose proof (is_list_NoDup _ _ _ (wf_list _ _ Hwf)) as [_ ?]%NoDup_cons.
    + intros R1 x f e R2 HR. by apply (ranges_sorted st t R1 x f e R2).
  - intros st R x f e (_ & t & Hwf & <-) (a & Hin & <- & <-)%ranges_inorder.
    destruct (rep_inorder _ _ _ _ _ (wf_rep _ _ Hwf) Hin) as (n & Hn & <-). unfold area_bounds. by rewrite Hn.
  - exact areas_insert.
  - exact areas_remove.
  - intros st R a (_ & t & Hwf & <-). destruct (VMATree_find_spec st t a Hwf) as (o & E & Ho). exists o. split; [done|]. destruct o as [x|].
    + destruct Ho as (n & Hin & Hr). exists (first n), (last n). split; [|done]. apply ranges_inorder. by exists n.
    + intros x f e (n & Hin & <- & <-)%ranges_inorder Hr. rewrite Forall_forall in Ho. specialize (Ho _ Hin). simpl in Ho. lia.
  - intros st R1 x f e R2 (_ & t & Hwf & Ht). rewrite <-fmap_last. apply (VMATree_prev_spec _ _ _ _ (area_ptr <$> R2)).
    rewrite <-(keys_split t R1 x f e R2) by done. apply Hwf.
  - intros st R1 x f e R2 (_ & t & Hwf & Ht).
    assert (area_ptr <$> list.head R2 = list.head (area_ptr <$> R2)) as -> by (by destruct R2).
    apply (VMATree_next_spec _ _ (area_ptr <$> R1)). rewrite <-(keys_split t R1 x f e R2) by done. apply Hwf.
  - intros st R q (_ & t & Hwf & <-) Hq. by apply find_free_bottomup_spec.
  - intros st q Hlt. unfold VMATree_find_free_bottomup, search_refuses.
    rewrite (bool_decide_true (max_addr q < req_size q)) by done. by rewrite orb_true_r.
Defined.

End area_tree.
