(* ===== verification/VmapHeap.v ===== *)
(** * The memory of virtual mappings

    Pages from a page allocator and [vmap_area]s from the slab allocator on top
    of it provide the interface [AreaSource]: the theorems about the slab
    allocator discharge it. *)

From S2P Require Import Prelude Align LinkedList PageAlloc Slab SlabOps.
From S2P Require Export Vmap.

Section area_source.
Local Open Scope Z_scope.
Context (page_map HHDM_OFFSET : Z) (kmalloc_slabs : nat → loc).
Context {P : Type} `{!PageSource P}.
Abbreviation sheap := (@heap P).
Abbreviation slab_inv := (slab_inv page_map HHDM_OFFSET).
Abbreviation allocated := (allocated page_map HHDM_OFFSET).

(** [struct vmap_area]: two list pointers, two bounds, three tree pointers, the
    height with its padding and two gaps. *)
Definition sizeof_vmap_area : Z := 2 * 8 + 2 * 8 + 3 * 8 + 8 + 2 * 8.

(** Its size class is the one of 128 bytes. *)
Definition area_slab : loc := kmalloc_slabs 4%nat.

(** The memory, with two sets that the theorems speak of and no operation
    reads: the pages that are free or hold [vmap_area]s, and the objects that
    are handed out. *)
Record area_heap := mkAreaHeap { ah_heap : sheap; ah_pages : gset loc; ah_live : gset loc }.
Implicit Types (m : area_heap) (h : sheap).

Definition with_source h (src : P) : sheap := mkHeap src (hp_pages h) (hp_words h) (hp_slabs h).

Definition area_heap_ok m : Prop := ∃ A G, slab_inv (ah_heap m) area_slab A G ∧
  (∀ p, p ∈ ah_pages m ↔ ps_page p ∧ held (ah_heap m) G p) ∧
  ∀ x, x ∈ ah_live m ↔ allocated A G (Z.pos x).

Definition area_page_alloc m (aclass : Z) : option (option loc * area_heap) :=
  '(o, src) ← ps_alloc (hp_source (ah_heap m)) aclass;
  Some (o, mkAreaHeap (with_source (ah_heap m) src)
             (match o with Some p => ah_pages m ∖ {[p]} | None => ah_pages m end) (ah_live m)).

Definition area_page_release m (p : loc) : option area_heap :=
  src ← ps_release (hp_source (ah_heap m)) p;
  Some (mkAreaHeap (with_source (ah_heap m) src) (ah_pages m ∪ {[p]}) (ah_live m)).

Definition area_kmalloc m : option (option loc * area_heap) :=
  '(o, h) ← kmalloc page_map HHDM_OFFSET (ah_heap m) kmalloc_slabs sizeof_vmap_area ALLOC_KERNEL;
  Some (match o with
        | Some ptr => (Some (Z.to_pos ptr), mkAreaHeap h (ah_pages m) (ah_live m ∪ {[Z.to_pos ptr]}))
        | None => (None, mkAreaHeap h (ah_pages m) (ah_live m))
        end).

Definition area_kfree m (x : loc) : option area_heap :=
  h ← kfree page_map HHDM_OFFSET (ah_heap m) (Z.pos x);
  Some (mkAreaHeap h (ah_pages m) (ah_live m ∖ {[x]})).

(** The slab allocator does not notice what happens to pages of others. *)
Lemma slab_inv_source h a A G src :
  slab_inv h a A G → ps_ok src →
  (∀ q l, G !! q = Some l → ¬ ps_free src q ∧ ps_flags src q = ps_flags (hp_source h) q) →
  slab_inv (with_source h src) a A G.
Proof.
  intros [H1 H2 H3 H4 H5 H6] Hok Hq. split; try done. intros p l Hp. destruct (H5 p l Hp) as [P1 P2 P3 P4 [P5 P6] P7].
  destruct (Hq p l Hp) as [Q1 Q2]. split; try done. by rewrite <-P7.
Qed.

Lemma slab_page_owned h a A G q : slab_inv h a A G → is_Some (G !! q) → ps_page q ∧ ¬ ps_free (hp_source h) q.
Proof. intros Hinv [l Hl]. apply (pi_owned _ _ _ _ _ _ _ (sv_pages _ _ _ _ _ _ Hinv q l Hl)). Qed.

Lemma area_page_alloc_ok m c :
  area_heap_ok m →
  area_page_alloc m c = Some (None, m) ∨
  ∃ p m', area_page_alloc m c = Some (Some p, m') ∧ area_heap_ok m' ∧ ps_page p ∧ p ∈ ah_pages m ∧
    (∀ q, q ∈ ah_pages m' ↔ q ∈ ah_pages m ∧ q ≠ p) ∧
    ∀ q, ps_flags (hp_source (ah_heap m')) q = ps_flags (hp_source (ah_heap m)) q.
Proof.
  intros (A & G & Hinv & Hpg & Hlv). unfold area_page_alloc.
  destruct (ps_alloc_ok _ c (sv_source _ _ _ _ _ _ Hinv)) as [->|(p & src & -> & Hok & Hp & Hf & Hfree & Hfl)]; cbn [mbind option_bind].
  { left. by destruct m as [[] ? ?]. }
  right. eexists p, _. split; [done|]. simpl.
  assert (¬ is_Some (G !! p)) as HnG by (intros H; by destruct (slab_page_owned _ _ _ _ _ Hinv H)).
  split_and!; try done.
  - exists A, G. simpl. split_and!; [|intros q|done].
    + apply slab_inv_source; [done..|]. intros q l Hq. rewrite Hfree, Hfl. split; [|done]. intros [H _].
      destruct (slab_page_owned _ _ _ _ q Hinv); [by eexists|done].
    + rewrite elem_of_difference, elem_of_singleton, Hpg. unfold held. simpl. rewrite Hfree. destruct (decide (q = p)) as [->|]; tauto.
  - apply Hpg. split; [done|by left].
  - intros q. rewrite elem_of_difference, elem_of_singleton. done.
Qed.

Lemma area_page_release_ok m p :
  area_heap_ok m → ps_page p → p ∉ ah_pages m →
  ∃ m', area_page_release m p = Some m' ∧ area_heap_ok m' ∧ ah_live m' = ah_live m ∧
    (∀ q, q ∈ ah_pages m' ↔ q ∈ ah_pages m ∨ q = p) ∧
    ∀ q, q ≠ p → ps_flags (hp_source (ah_heap m')) q = ps_flags (hp_source (ah_heap m)) q.
Proof.
  intros (A & G & Hinv & Hpg & Hlv) Hp Hn. rewrite Hpg in Hn. unfold area_page_release.
  destruct (ps_release_ok (hp_source (ah_heap m)) p (sv_source _ _ _ _ _ _ Hinv) Hp) as (src & -> & Hok & Hfree & Hfl).
  { intros H. apply Hn. split; [done|by left]. }
  cbn [mbind option_bind]. eexists. split; [done|]. simpl. split_and!; try done.
  - exists A, G. simpl. split_and!; [|intros q|done].
    + apply slab_inv_source; [done..|]. intros q l Hq. assert (q ≠ p) as Hne by (intros ->; apply Hn; split; [done|right; by eexists]).
      rewrite Hfree, Hfl by done. split; [|done]. intros [H|H]; [|done]. destruct (slab_page_owned _ _ _ _ q Hinv); [by eexists|done].
    + rewrite elem_of_union, elem_of_singleton, Hpg. unfold held. simpl. rewrite Hfree. destruct (decide (q = p)) as [->|]; tauto.
  - intros q. rewrite elem_of_union, elem_of_singleton. done.
Qed.

Definition area_set_flags m (p : loc) (v : Z) : area_heap :=
  mkAreaHeap (with_source (ah_heap m) (ps_set_flags (hp_source (ah_heap m)) p v)) (ah_pages m) (ah_live m).

Lemma area_set_flags_ok m p v :
  area_heap_ok m → ps_page p → p ∉ ah_pages m →
  area_heap_ok (area_set_flags m p v) ∧
  ∀ q, ps_flags (hp_source (ah_heap (area_set_flags m p v))) q = if decide (q = p) then v else ps_flags (hp_source (ah_heap m)) q.
Proof.
  intros (A & G & Hinv & Hpg & Hlv) Hp Hn. rewrite Hpg in Hn. unfold held in Hn.
  destruct (ps_set_flags_ok (hp_source (ah_heap m)) p v (sv_source _ _ _ _ _ _ Hinv) Hp) as (Hok & Hfree & Hfl); [tauto|].
  split; [|done]. exists A, G. simpl. split_and!; [|intros q|done].
  - apply slab_inv_source; [done..|]. intros q l Hq. rewrite Hfree, Hfl, decide_False.
    + split; [|done]. destruct (slab_page_owned _ _ _ _ q Hinv); [by eexists|done].
    + intros ->. apply Hn. split; [done|]. right. by eexists.
  - rewrite Hpg. unfold held. simpl. by rewrite Hfree.
Qed.

Lemma allocated_pos h a A G x : slab_inv h a A G → allocated A G x → Z.pos (Z.to_pos x) = x ∧ x ≠ 0.
Proof.
  intros Hinv (p & l & Hp & Hx & _).
  pose proof (slot_nonnull page_map HHDM_OFFSET A p x (sv_geometry _ _ _ _ _ _ Hinv) (pi_frame _ _ _ _ _ _ _ (sv_pages _ _ _ _ _ _ Hinv p l Hp)) Hx).
  rewrite Z2Pos.id by lia. lia.
Qed.

Lemma area_kmalloc_ok m :
  area_heap_ok m →
  ∃ o m', area_kmalloc m = Some (o, m') ∧ area_heap_ok m' ∧ ah_pages m' = ah_pages m ∧
    match o with
    | Some x => x ∉ ah_live m ∧ ∀ y, y ∈ ah_live m' ↔ y ∈ ah_live m ∨ y = x
    | None => m' = m
    end.
Proof.
  intros (A & G & Hinv & Hpg & Hlv). unfold area_kmalloc.
  change (kmalloc page_map HHDM_OFFSET (ah_heap m) kmalloc_slabs sizeof_vmap_area ALLOC_KERNEL)
    with (slab_alloc page_map HHDM_OFFSET (ah_heap m) area_slab ALLOC_KERNEL).
  destruct (slab_alloc_cases page_map HHDM_OFFSET _ area_slab A G ALLOC_KERNEL Hinv)
    as [[-> _]|(x & h' & -> & A' & G' & Hinv' & _ & Hna & Hall & _ & _ & _ & Hheld)]; cbn [mbind option_bind].
  { exists None, m. split_and!; try done; [by destruct m|]. by exists A, G. }
  assert (allocated A' G' x) as Hx by (apply Hall; by right). destruct (allocated_pos _ _ _ _ _ Hinv' Hx) as [Ex _].
  eexists (Some (Z.to_pos x)), _. split; [done|]. simpl. split_and!; try done.
  - exists A', G'. simpl. split_and!; [done|intros q; by rewrite Hpg, Hheld|]. intros y.
    rewrite elem_of_union, elem_of_singleton, Hlv, Hall. apply or_iff_compat_l. rewrite <-Ex at 2. split; [by intros ->|by intros [= ->]].
  - rewrite Hlv. by rewrite Ex.
  - intros y. rewrite elem_of_union, elem_of_singleton. done.
Qed.

Lemma area_kfree_ok m x :
  area_heap_ok m → x ∈ ah_live m →
  ∃ m', area_kfree m x = Some m' ∧ area_heap_ok m' ∧ ah_pages m' = ah_pages m ∧ ∀ y, y ∈ ah_live m' ↔ y ∈ ah_live m ∧ y ≠ x.
Proof.
  intros (A & G & Hinv & Hpg & Hlv) Hx. pose proof Hx as Hx'. rewrite Hlv in Hx'. unfold area_kfree, kfree. rewrite decide_False by done.
  destruct (slab_free_cases page_map HHDM_OFFSET _ area_slab A G (Z.pos x) Hinv Hx')
    as (h' & -> & (A' & G' & Hinv' & _ & Hall & _ & _ & Hheld) & _). cbn [mbind option_bind].
  eexists. split; [done|]. simpl. split_and!; try done.
  - exists A', G'. simpl. split_and!; [done|intros q; by rewrite Hpg, Hheld|]. intros y.
    rewrite elem_of_difference, elem_of_singleton, Hlv, Hall. apply and_iff_compat_l. split; [by intros H [= ->]|by intros H ->].
  - intros y. rewrite elem_of_difference, elem_of_singleton. done.
Qed.

#[refine] Instance area_pages : PageSource area_heap := {|
  ps_ok := area_heap_ok;
  ps_page := ps_page;
  ps_free m p := p ∈ ah_pages m;
  ps_alloc := area_page_alloc;
  ps_release := area_page_release;
  ps_flags m p := ps_flags (hp_source (ah_heap m)) p;
  ps_set_flags := area_set_flags;
|}.
Proof.
  - exact area_page_alloc_ok.
  - intros m p Hok Hp Hn. destruct (area_page_release_ok m p Hok Hp Hn) as (m' & E & H1 & _ & H2 & H3). by exists m'.
  - intros m p v Hok Hp Hn. destruct (area_set_flags_ok m p v Hok Hp Hn) as [H1 H2]. done.
Defined.

#[refine] Instance heap_area_source : AreaSource area_heap := {|
  as_pages := area_pages;
  as_live m x := x ∈ ah_live m;
  as_alloc := area_kmalloc;
  as_free := area_kfree;
|}.
Proof.
  - intros m Hok. destruct (area_kmalloc_ok m Hok) as (o & m' & E & H1 & H2 & H3). exists o, m'. split_and!; try done.
    intros q. simpl. by rewrite H2.
  - intros m x Hok Hx. destruct (area_kfree_ok m x Hok Hx) as (m' & E & H1 & H2 & H3). exists m'. split_and!; try done.
    intros q. simpl. by rewrite H2.
  - intros m c o m' y _ E. simpl in E. unfold area_page_alloc in E. apply bind_Some in E as ([o' src] & _ & E). by injection E as _ <-.
  - intros m p m' y _ _ _ E. simpl in E. unfold area_page_release in E. apply bind_Some in E as (src & _ & E). by injection E as <-.
  - done.
Defined.

(** Objects lie in the direct map, so a static object is none of them. *)
Lemma area_not_static (head : loc) m x :
  (∀ p off, ps_page p → 0 <= off < PAGE_SIZE → page_to_virt page_map HHDM_OFFSET p + off ≠ Z.pos head) →
  area_heap_ok m → x ∈ ah_live m → x ≠ head.
Proof.
  intros Hst (A & G & Hinv & _ & Hlv) Hx ->. apply Hlv in Hx as (p & l & Hp & Hx & _).
  destruct (sv_pages _ _ _ _ _ _ Hinv p l Hp) as [_ _ _ _ [Hpp _] _]. pose proof (sv_geometry _ _ _ _ _ _ Hinv) as Hg.
  destruct Hx as (i & Hi & Hx). apply (Hst p (Z.pos head - page_to_virt page_map HHDM_OFFSET p) Hpp); [|lia].
  rewrite Hx. destruct Hg as [G1 G2 G3 G4]. nia.
Qed.

End area_source.
