(* ===== verification/VmapExample.v ===== *)
(** * Virtual mappings on a concrete machine

    Six page frames, the page allocator, the slab allocator and the VMA tree, all
    put together; the theorems about virtual mappings are applied to them, and
    one run shows what happens in the case they leave out. *)

From S2P Require Import Prelude Align LinkedList VmaInsert VmaRemove VmaFree PageAlloc Slab SlabOps SlabPages.
From S2P Require Import Vmap VmapTree VmapHeap.

Local Open Scope Z_scope.

(** ** The page allocator, after the pages were freed into it *)

Section release.
Context {P : Type} `{!PageSource P}.

Fixpoint release_all (m : P) (ps : list loc) : option P :=
  match ps with
  | [] => Some m
  | p :: ps => m ← ps_release m p; release_all m ps
  end.

Lemma release_all_ok ps : ∀ m,
  ps_ok m → NoDup ps → (∀ p, p ∈ ps → ps_page p ∧ ¬ ps_free m p) →
  ∃ m', release_all m ps = Some m' ∧ ps_ok m' ∧ ∀ q, ps_free m' q ↔ ps_free m q ∨ q ∈ ps.
Proof.
  induction ps as [|p ps IH]; intros m Hok Hnd Hps; cbn [release_all].
  { exists m. split_and!; try done. intros q. rewrite elem_of_nil. tauto. }
  apply NoDup_cons in Hnd as [Hn Hnd]. destruct (Hps p ltac:(by left)) as [Hp Hf].
  destruct (ps_release_ok m p Hok Hp Hf) as (m1 & -> & Hok1 & Hf1 & _). cbn [mbind option_bind].
  destruct (IH m1 Hok1 Hnd) as (m2 & -> & Hok2 & Hf2).
  { intros q Hq. destruct (Hps q ltac:(by right)) as [? ?]. split; [done|]. rewrite Hf1. intros [?|Heq]; [done|congruence]. }
  exists m2. split_and!; try done. intros q. rewrite Hf2, Hf1, elem_of_cons. tauto.
Qed.
End release.

(** Frames 256 to 261, from 1 MiB. *)
Definition vex_frames : list loc := pfn_to_page 1000 <$> [256; 257; 258; 259; 260; 261].
Definition vex_M : gset loc := list_to_set vex_frames.
Definition self_list (p : loc) : loc * ListHead := (p, mkListHead p p).
Definition vex_none : pgalloc :=
  mkPg (list_to_map (self_list <$> [10; 11; 12]%positive ++ vex_frames)) (λ _, 0) 0 ∅ ∅.

Lemma vex_M_heads z : is_zone z → ex_head z ∉ vex_M.
Proof. intros [-> | [-> | ->]]; by apply (bool_decide_unpack _). Qed.

Definition vex_source : PageSource pgalloc := page_source 1000 ex_head ex_head_inj vex_M vex_M_heads.

Lemma vex_none_ok : ps_ok (PageSource := vex_source) vex_none.
Proof.
  exists (λ _, []). split_and!.
  - split; [split| |done|done].
    + intros h xs Hh. unfold heads in Hh. change (ex_head 0) with 10%positive in Hh.
      change (ex_head 1) with 11%positive in Hh. change (ex_head 2) with 12%positive in Hh.
      apply lookup_insert_Some in Hh as [[<- <-]|[_ [[<- <-]|[_ [<- <-]%lookup_singleton_Some]]%lookup_insert_Some]];
        (split; [apply (bool_decide_unpack _); vm_compute; done|vm_compute; repeat split]).
    + intros h1 h2 xs1 xs2 x Hh1 Hh2 Hne Hx Hx2. unfold heads in Hh1, Hh2.
      assert (xs1 = [] ∧ xs2 = []) as [-> ->]; [|set_solver].
      apply lookup_insert_Some in Hh1 as [[_ <-]|[_ [[_ <-]|[_ [_ <-]%lookup_singleton_Some]]%lookup_insert_Some]];
      apply lookup_insert_Some in Hh2 as [[_ <-]|[_ [[_ <-]|[_ [_ <-]%lookup_singleton_Some]]%lookup_insert_Some]]; done.
    + intros z p _ Hp. by apply elem_of_nil in Hp.
  - by apply (bool_decide_unpack _).
  - intros z p _ Hp. by apply elem_of_nil in Hp.
Qed.

Definition vex_pg : pgalloc := default vex_none (release_all (PageSource0 := vex_source) vex_none vex_frames).

Lemma vex_pg_ok : ps_ok (PageSource := vex_source) vex_pg ∧
  ∀ q, ps_free (PageSource := vex_source) vex_pg q ↔ q ∈ vex_M.
Proof.
  destruct (release_all_ok (PageSource0 := vex_source) vex_frames vex_none vex_none_ok) as (m & E & Hok & Hf).
  - apply (bool_decide_unpack _). vm_compute. done.
  - intros p Hp. split; [by apply elem_of_list_to_set|]. intros (z & xs & [-> | [-> | ->]] & Hl & Hx);
      vm_compute in Hl; injection Hl as <-; by apply elem_of_nil in Hx.
  - unfold vex_pg. rewrite E. split; [done|]. intros q. rewrite Hf. unfold vex_M. rewrite elem_of_list_to_set. split; [|by right].
    intros [(z & xs & [-> | [-> | ->]] & Hl & Hx)|?]; [..|done]; vm_compute in Hl; injection Hl as <-; by apply elem_of_nil in Hx.
Qed.

(** ** The memory, the tree and the page tables *)

Definition vex_slabs (i : nat) : loc := 5%positive.
Definition vex_slab : SlabAllocator := init_new_allocator 128 128 128.
Definition vex_memory : area_heap := mkAreaHeap (mkHeap vex_pg ∅ (λ _, 7) {[5%positive := vex_slab]}) vex_M ∅.
Definition vex_area_source : AreaSource area_heap := heap_area_source 1000 ex_hhdm vex_slabs (PageSource0 := vex_source).

Lemma vex_M_frames p : p ∈ vex_M → ∃ n, 256 <= n <= 261 ∧ p = pfn_to_page 1000 n.
Proof.
  intros Hp. unfold vex_M in Hp. rewrite elem_of_list_to_set in Hp. apply list_elem_of_fmap in Hp as (n & -> & Hn). exists n. split; [|done].
  repeat (apply elem_of_cons in Hn as [-> |Hn]; [lia|]). by apply elem_of_nil in Hn.
Qed.

Lemma vex_memory_ok : ps_ok (PageSource := as_pages (AreaSource := vex_area_source)) vex_memory.
Proof.
  destruct vex_pg_ok as [Hok Hf]. exists vex_slab, ∅. split_and!.
  - apply fresh_slab_inv; [done|split; done|exact Hok|]. intros p (n & Hn & ->)%vex_M_frames. exists n.
    unfold ex_hhdm, PAGE_SIZE. split_and!; [lia|done|lia|done|lia].
  - intros p. simpl. unfold held. rewrite lookup_empty. simpl. specialize (Hf p). simpl in Hf. rewrite Hf.
    split; [|tauto]. intros Hp. split; [done|by left].
  - intros x. split; [set_solver|]. intros (p & l & Hp & _). by rewrite lookup_empty in Hp.
Qed.

Definition vex_junk : node vma := mkNode (Some 7%positive) None (Some 9%positive) (mkVma 1 2 3 4 5).
Definition vex_area_tree : AreaTree VMATree := vma_area_tree 20 vex_junk (mkListHead 7 7).
Definition vex_tree : VMATree := mkVMATree ∅ {[20%positive := mkListHead 20 20]} 20 None.

Lemma vex_tree_ok : at_rep (AreaTree := vex_area_tree) vex_tree [].
Proof.
  split; [done|]. exists E. split; [|done]. split; try done. split; [apply (bool_decide_unpack _); vm_compute; done|vm_compute; repeat split].
Qed.

(** The root table is frame 3; no-execute is bit 63. *)
Definition vex_root : Z := 3 * 4096.
Definition vex_cfg : pg_config := mkPgConfig (2 ^ 63) 8 16 24 128.
Definition vex_state : @vmap_state area_heap VMATree :=
  mkVmap (mkVm {[get_vmap_pgtable ex_hhdm vex_root := ∅]} vex_memory []) vex_tree.
Definition vex_own : gmap (nat * Z) Z := {[(4%nat, kbase false) := get_vmap_pgtable ex_hhdm vex_root]}.

Lemma vex_frame p : p ∈ vex_M → frame_ok 1000 p.
Proof. intros (n & Hn & ->)%vex_M_frames. exists n. unfold pfn_to_page. rewrite Z2Pos.id by lia. lia. Qed.

Lemma vex_virt p : p ∈ vex_M → ∃ n, 256 <= n <= 261 ∧ page_to_virt 1000 ex_hhdm p = ex_hhdm + n * 4096.
Proof. intros (n & Hn & ->)%vex_M_frames. exists n. split; [done|]. rewrite page_addr_pfn; unfold ex_hhdm, PAGE_SIZE; lia. Qed.

Lemma vex_not_root p : p ∈ vex_M → page_to_virt 1000 ex_hhdm p ≠ get_vmap_pgtable ex_hhdm vex_root.
Proof. intros (n & Hn & ->)%vex_virt. change (get_vmap_pgtable ex_hhdm vex_root) with (ex_hhdm + 3 * 4096). lia. Qed.

Lemma vex_node (m : area_heap) x :
  ps_ok (PageSource := as_pages (AreaSource := vex_area_source)) m → as_live (AreaSource := vex_area_source) m x →
  at_node (AreaTree := vex_area_tree) x.
Proof.
  intros Hok Hx. apply (area_not_static 1000 ex_hhdm vex_slabs (PageSource0 := vex_source) 20 m x); [|done|done].
  intros p off (n & Hn & ->)%vex_virt Ho. unfold ex_hhdm. lia.
Qed.

Abbreviation vex_wf := (vmap_wf 1000 ex_hhdm false vex_root (AreaSource0 := vex_area_source) (AreaTree0 := vex_area_tree)).

Lemma vex_state_wf : vex_wf vex_state vex_own [] ∅.
Proof.
  destruct (root_only_wf 1000 ex_hhdm false vex_root (PageSource0 := as_pages (AreaSource := vex_area_source)) vex_memory vex_memory_ok) as [Hwf He].
  assert (∀ b, ent (vmm vex_state) vex_own 1 b = 0) as Hz by apply He.
  split; try done.
  - exact vex_tree_ok.
  - intros x f e Hin. by apply elem_of_nil in Hin.
  - intros x f e y f' e' Hin. by apply elem_of_nil in Hin.
  - intros b _. by rewrite Hz.
  - intros b (x & f & e & Hin & _). by apply elem_of_nil in Hin.
  - intros b c (x & f & e & Hin & _). by apply elem_of_nil in Hin.
Qed.

(** ** The operations on the concrete machine *)

Abbreviation vex_io := (vmap_io_range 1000 ex_hhdm false vex_root vex_cfg (AreaSource0 := vex_area_source) (AreaTree0 := vex_area_tree)).
Abbreviation vex_large := (kmalloc_large 1000 ex_hhdm false vex_root vex_cfg (AreaSource0 := vex_area_source) (AreaTree0 := vex_area_tree)).
Abbreviation vex_kfree := (kfree_large 1000 ex_hhdm false vex_root (AreaSource0 := vex_area_source) (AreaTree0 := vex_area_tree)).
Abbreviation vex_translate st := (translate ex_hhdm false vex_root (vmm st)).
Abbreviation vex_first := (KERNEL_VM_FIRST false).

(** A kernel that has two areas of one page, frees the first one, and runs out
    of memory: a request that then fails takes the mapping of the second area
    with it.  The new area would begin at an entry of the root table, and its
    first page cannot be had, so [free_pte_range] is called for an empty range
    there: it finds the range "full" and unlinks the tables, although the second
    area uses them. *)
Definition vex_run : option (option Z * option Z * option Z) :=
  '(_, st) ← vex_large vex_state 4096;
  '(b, st) ← vex_large st 4096;
  '(_, st) ← vex_kfree st vex_first;
  '(_, m) ← ps_alloc (PageSource := as_pages (AreaSource := vex_area_source)) (pool (vmm st)) ALLOC_KERNEL;
  let st := with_vm st (with_pool (vmm st) m) in
  let second := default 0 b in
  let before := vex_translate st second in
  '(r, st) ← vex_large st 4096;
  Some (r, before, vex_translate st second).

Theorem failed_request_unmaps_neighbour :
  vex_run = Some (None, Some (data_pte 1000 vex_cfg (pfn_to_page 1000 256)), Some 0).
Proof. vm_compute. reflexivity. Qed.

(** The theorems, applied. *)

Abbreviation vex_kaddr := (kaddr false).

Lemma vex_first_kaddr : vex_kaddr vex_first.
Proof. split; vm_compute; done. Qed.

Lemma vmap_io_range_correct_witness :
  vex_wf vex_state vex_own [] ∅ ∧
  ∃ st', vex_io vex_state 0xfee00010 32 pcm_uncached vex_first (KERNEL_VM_LAST false) = Some (Some (vex_first + 16), st') ∧
    vex_translate st' vex_first = Some (make_io_pte vex_cfg 0xfee00000 pcm_uncached) ∧
    vex_translate st' (vex_first + 4096) = vex_translate vex_state (vex_first + 4096).
Proof.
  split; [exact vex_state_wf|].
  assert (fst <$> vex_io vex_state 0xfee00010 32 pcm_uncached vex_first (KERNEL_VM_LAST false) = Some (Some (vex_first + 16))) as E
    by (vm_compute; reflexivity).
  assert (('(o, st1) ← new_area (AreaSource0 := vex_area_source) (AreaTree0 := vex_area_tree) vex_state 4096 vex_first (KERNEL_VM_LAST false);
    xf ← o; fst <$> map_io_page 1000 ex_hhdm false vex_root vex_cfg (AreaSource0 := vex_area_source) (T := VMATree)
      (0xfee00010 - 16) xf.2 pcm_uncached st1 0) = Some true) as E3 by (vm_compute; reflexivity).
  destruct (vmap_io_range_correct 1000 ex_hhdm false vex_root vex_cfg (AreaSource0 := vex_area_source) (AreaTree0 := vex_area_tree)
    vex_frame vex_not_root vex_node vex_state vex_own [] ∅ 0xfee00010 32 pcm_uncached vex_first (KERNEL_VM_LAST false)
    vex_state_wf) as [(x & f & st' & own' & R1 & R2 & Er & _ & _ & _ & _ & Ht & _)|[(st' & own' & Er & _)|(x & f & st1 & st2 & Ea & _ & Em)]].
  - split; vm_compute; done.
  - split; vm_compute; done.
  - split; vm_compute; done.
  - split; vm_compute; done.
  - rewrite Er in E. injection E as E. change (io_offset 0xfee00010) with 16 in E. exists st'. rewrite Er.
    assert (f = vex_first) as -> by (change vex_first with 0xffffe00000000000 in *; lia). split; [reflexivity|].
    pose proof vex_first_kaddr as K. split.
    + rewrite (Ht vex_first K). vm_compute. reflexivity.
    + rewrite (Ht (vex_first + 4096)) by (split; vm_compute; done). reflexivity.
  - rewrite Er in E. discriminate E.
  - change (io_length 0xfee00010 32) with 4096 in Ea. rewrite Ea in E3. cbn [mbind option_bind snd] in E3.
    change (io_offset 0xfee00010) with 16 in Em. rewrite Em in E3. discriminate E3.
Defined.

Lemma kmalloc_large_correct_witness :
  vex_wf vex_state vex_own [] ∅ ∧
  ∃ st' p q, vex_large vex_state 5000 = Some (Some vex_first, st') ∧ p ≠ q ∧
    vex_translate st' (vex_first + 4095) = Some (data_pte 1000 vex_cfg p) ∧
    vex_translate st' (vex_first + 4096) = Some (data_pte 1000 vex_cfg q).
Proof.
  split; [exact vex_state_wf|].
  assert (fst <$> vex_large vex_state 5000 = Some (Some vex_first)) as E by (vm_compute; reflexivity).
  assert (('(o, st1) ← new_area (AreaSource0 := vex_area_source) (AreaTree0 := vex_area_tree) vex_state 8192 vex_first (KERNEL_VM_LAST false);
    xf ← o; fst <$> map_new_page 1000 ex_hhdm false vex_root vex_cfg (AreaSource0 := vex_area_source) (T := VMATree) xf.2 st1 0) = Some true) as E3
    by (vm_compute; reflexivity).
  destruct (kmalloc_large_correct 1000 ex_hhdm false vex_root vex_cfg (AreaSource0 := vex_area_source) (AreaTree0 := vex_area_tree)
    vex_frame vex_not_root vex_node eq_refl vex_state vex_own [] ∅ 5000 vex_state_wf)
    as [(x & f & st' & own' & R1 & R2 & Er & _ & _ & _ & _ & _ & Ht & Hinj & _)|[(st' & own' & Er & _)|(x & f & st1 & st2 & Ea & _ & Em)]].
  - split; vm_compute; done.
  - rewrite Er in E. injection E as ->. change (align_up 5000 PAGE_SIZE) with 8192 in *.
    change 0xffffe00000000000 with vex_first in *.
    destruct (Ht (vex_first + 4095) ltac:(lia)) as (p & _ & _ & _ & Ep), (Ht (vex_first + 4096) ltac:(lia)) as (q & _ & _ & _ & Eq).
    exists st', p, q. split; [exact Er|]. split; [|split; assumption]. intros ->.
    specialize (Hinj (vex_first + 4095) (vex_first + 4096) ltac:(lia) ltac:(lia) ltac:(by rewrite Ep, Eq)). vm_compute in Hinj. discriminate Hinj.
  - rewrite Er in E. discriminate E.
  - change (align_up 5000 PAGE_SIZE) with 8192 in Ea. rewrite Ea in E3. cbn [mbind option_bind snd] in E3. rewrite Em in E3. discriminate E3.
Defined.

(** A state with one area of one page. *)
Lemma vex_one_area : ∃ x f st own, vex_wf st own [(x, f, f + 4096 - 1)] {[x]}.
Proof.
  assert (('(o, st1) ← new_area (AreaSource0 := vex_area_source) (AreaTree0 := vex_area_tree) vex_state 4096 vex_first (KERNEL_VM_LAST false);
    xf ← o; fst <$> map_pages 1000 ex_hhdm false vex_root (AreaSource0 := vex_area_source) (AreaTree0 := vex_area_tree)
      (map_new_page 1000 ex_hhdm false vex_root vex_cfg (AreaSource0 := vex_area_source) (T := VMATree) xf.2) true 1 st1 xf.1 xf.2 0 4096) = Some true) as E
    by (vm_compute; reflexivity).
  assert (('(o, st1) ← new_area (AreaSource0 := vex_area_source) (AreaTree0 := vex_area_tree) vex_state 4096 vex_first (KERNEL_VM_LAST false);
    xf ← o; fst <$> map_new_page 1000 ex_hhdm false vex_root vex_cfg (AreaSource0 := vex_area_source) (T := VMATree) xf.2 st1 0) = Some true) as E3
    by (vm_compute; reflexivity).
  destruct (map_area_spec 1000 ex_hhdm false vex_root (AreaSource0 := vex_area_source) (AreaTree0 := vex_area_tree)
    vex_frame vex_not_root vex_node true (λ _ v, ∃ p, p ∈ vex_M ∧ v = data_pte 1000 vex_cfg p)
    (map_new_page 1000 ex_hhdm false vex_root vex_cfg (AreaSource0 := vex_area_source) (T := VMATree)) vex_state vex_own [] ∅ 4096
    vex_first (KERNEL_VM_LAST false)) as [(st' & Ea & _)|(x & f & st1 & Ea & [(st' & own' & R1 & R2 & Em & HR & Hwf & _)|[(st' & Em & _)|(_ & st2 & Em)]])].
  - intros R' K' x f e. apply (map_new_page_ok 1000 ex_hhdm false vex_root vex_cfg (AreaSource0 := vex_area_source) (AreaTree0 := vex_area_tree)
      vex_frame vex_not_root eq_refl).
  - exact vex_state_wf.
  - lia.
  - by exists 1.
  - done.
  - done.
  - done.
  - done.
  - rewrite Ea in E. discriminate E.
  - symmetry in HR. apply app_eq_nil in HR as [-> ->]. exists x, f, st', own'. apply (wf_large _ _ _ _ _ _ _ _ _ Hwf).
    intros y f' e' _ Hy. apply elem_of_union. by right.
  - rewrite Ea in E. cbn [mbind option_bind fst snd] in E. change (Z.to_nat (4096 / 4096)) with 1%nat in Em. rewrite Em in E. discriminate E.
  - rewrite Ea in E3. cbn [mbind option_bind snd] in E3. rewrite Em in E3. discriminate E3.
Qed.

Lemma vunmap_correct_witness :
  ∃ x f st own, vex_wf st own [(x, f, f + 4096 - 1)] {[x]} ∧
    ∃ st' own', vex_kfree st f = Some (true, st') ∧ vex_wf st' own' [] ∅ ∧ vex_translate st' f = Some 0.
Proof.
  destruct vex_one_area as (x & f & st & own & Hwf). exists x, f, st, own. split; [exact Hwf|].
  assert ((x, f, f + 4096 - 1) ∈ [(x, f, f + 4096 - 1)]) as Hin by (by left).
  destruct (vunmap_correct 1000 ex_hhdm false vex_root (AreaSource0 := vex_area_source) (AreaTree0 := vex_area_tree)
    vex_frame vex_not_root vex_node st own [(x, f, f + 4096 - 1)] {[x]} f true Hwf)
    as [[_ H]|(R1 & y & f' & e' & R2 & st' & own' & HR & Hr & E & Hwf' & Ht & _)].
  - intros _ y f' e' Hy _. apply list_elem_of_singleton in Hy. injection Hy as -> _ _. by apply elem_of_singleton.
  - destruct (H _ _ _ Hin). lia.
  - exists st', own'. split; [exact E|].
    destruct R1 as [|a R1]; [|injection HR as _ HR; by destruct R1]. injection HR as <- <- <- <-. split.
    + replace ({[x]} ∖ {[x]} : gset loc) with (∅ : gset loc) in Hwf' by set_solver. exact Hwf'.
    + destruct (vw_area _ _ _ _ _ _ _ _ Hwf x f (f + 4096 - 1) Hin) as (_ & K & _). rewrite (Ht f K). by rewrite decide_True by lia.
Defined.

Lemma free_pte_range_correct_witness :
  ∃ f (s : @vm area_heap) own, pt_wf 1000 ex_hhdm false vex_root (PageSource0 := as_pages (AreaSource := vex_area_source)) s own ∧ vex_kaddr f ∧
    ∃ s', free_pte_range 1000 ex_hhdm false vex_root (PageSource0 := as_pages (AreaSource := vex_area_source)) s f (f + 4096) 0 0 true = Some s' ∧
      translate ex_hhdm false vex_root s' f = Some 0.
Proof.
  destruct vex_one_area as (x & f & st & own & Hwf). exists f, (vmm st), own.
  assert ((x, f, f + 4096 - 1) ∈ [(x, f, f + 4096 - 1)]) as Hin by (by left).
  pose proof Hwf as [H1 H2 H3 H4 H5 H6 H7]. destruct (H3 x f (f + 4096 - 1) Hin) as (_ & Kf & Ke & Hdf & Hde).
  split; [exact H1|]. split; [exact Kf|]. pose proof Ke as [_ Ke2].
  destruct (free_pte_range_correct 1000 ex_hhdm false vex_root (PageSource0 := as_pages (AreaSource := vex_area_source)) vex_frame vex_not_root
    true (vmm st) own f (f + 4096) 0 0 H1 Kf) as (s' & own' & l & E & _ & Ht & _).
  - left. lia.
  - lia.
  - exact Hdf.
  - replace (f + 4096) with (f + 4096 - 1 + 1) by lia. exact Hde.
  - apply Z.divide_0_r.
  - apply Z.divide_0_r.
  - destruct (kaddr_u64 _ _ Kf). lia.
  - by left.
  - intros b Kb Hb. rewrite (translate_ent 1000 ex_hhdm false vex_root (PageSource0 := as_pages (AreaSource := vex_area_source)) (vmm st) own b H1 Kb).
    destruct (decide (ent (vmm st) own 1 b = 0)) as [->|Hne]; [done|].
    destruct (H5 b Kb Hne) as (y & f' & e' & Hy & Hr). apply list_elem_of_singleton in Hy. injection Hy as -> -> ->. lia.
  - intros _. assert (∀ b, f <= b < f + 4096 → large [(x, f, f + 4096 - 1)] {[x]} b) as HL.
    { intros b Hb. exists x, f, (f + 4096 - 1). split_and!; [exact Hin|by apply elem_of_singleton|lia|lia]. }
    split; [intros b Hd Hb; apply H6; auto|intros b c Hd Hd' Hb Hc; apply H7; auto].
  - exists s'. split; [exact E|]. rewrite (Ht f Kf). by rewrite decide_True by lia.
Defined.
