(* ===== verification/BootMap.v ===== *)
(** * The boot page tables ([arch/x86/boot/setup.cc])

    [identity_map] covers a range of virtual addresses with pages of 4 KiB,
    2 MiB and 1 GiB.  Where the entry of an address is found is a parameter
    ([set_entry]), which [BootPt] instantiates with [get_p1e], [get_p2e] and
    [get_p3e]. *)

From S2P Require Import Prelude Align PageAlloc Pgtable.

Section boot_map_defs.
Local Open Scope Z_scope.

Definition P1D_SIZE : Z := 0x200000.
Definition P2D_SIZE : Z := 0x40000000.
Definition PG_PAT : Z := 128.
Definition PG_HUGE : Z := 128.
Definition PG_PAT_HUGE : Z := 4096.

Definition addr_end (addr end_ align : Z) : Z :=
  let addr := align_up addr align in
  if decide (end_ = 0) then addr else min addr end_.

Context {St : Type}.
(** [*get_p<level>e (virt) = value]; [None] is a panic for lack of memory. *)
Context (set_entry : nat → Z → Z → St → option St).

(** [for (; virt != x; phys += step, virt += step) *get_p<level>e (virt) = phys | flags] *)
Fixpoint map_until (fuel level : nat) (step flags x virt phys : Z) (st : St) : option (Z * Z * St) :=
  if decide (virt = x) then Some (virt, phys, st)
  else
    match fuel with
    | O => None
    | S fuel => st ← set_entry level virt (Z.lor phys flags) st;
                map_until fuel level step flags x (virt +ᵤ step) (phys +ᵤ step) st
    end.

Definition huge_flags (flags : Z) : Z :=
  if decide (Z.land flags PG_PAT ≠ 0) then Z.lor flags PG_PAT_HUGE else Z.lor flags PG_HUGE.

Definition tail_p1d (fuel : nat) (flags end_ virt phys : Z) (st : St) : option St :=
  '(_, _, st) ← map_until fuel 1 PAGE_SIZE flags end_ virt phys st; Some st.

Definition tail_p2d (fuel : nat) (flags end_ virt phys : Z) (st : St) : option St :=
  '(virt, phys, st) ← map_until fuel 2 P1D_SIZE (huge_flags flags) (align_down end_ P1D_SIZE) virt phys st;
  tail_p1d fuel flags end_ virt phys st.

Definition identity_map (virt phys size flags maxhuge : Z) (st : St) : option St :=
  let fuel := Z.to_nat (size / PAGE_SIZE + 2) in
  let end_ := align_up (virt +ᵤ size) PAGE_SIZE in
  let virt := align_down virt PAGE_SIZE in
  let phys := align_down phys PAGE_SIZE in
  let maxhuge := if decide (end_ ≠ 0 ∧ align_down end_ P2D_SIZE < virt) then min maxhuge 2 else maxhuge in
  let maxhuge := if decide (end_ ≠ 0 ∧ align_down end_ P1D_SIZE < virt) then min maxhuge 1 else maxhuge in
  if decide (maxhuge <= 1) then tail_p1d fuel flags end_ virt phys st
  else
    '(virt, phys, st) ← map_until fuel 1 PAGE_SIZE flags (addr_end virt end_ P1D_SIZE) virt phys st;
    if decide (maxhuge <= 2) then tail_p2d fuel flags end_ virt phys st
    else
      '(virt, phys, st) ← map_until fuel 2 P1D_SIZE (huge_flags flags) (addr_end virt end_ P2D_SIZE) virt phys st;
      '(virt, phys, st) ← map_until fuel 3 P2D_SIZE (huge_flags flags) (align_down end_ P2D_SIZE) virt phys st;
      tail_p2d fuel flags end_ virt phys st.

End boot_map_defs.

(** ** The entries it writes *)

Section boot_map.
Local Open Scope Z_scope.
Context {St : Type} (set_entry : nat → Z → Z → St → option St).

(** A page: its level and its address. *)
Implicit Types (ps : list (nat * Z)).

(** [ps] covers [lo] to [hi], page after page, every page at a multiple of its
    size and of a level between 1 and [top]. *)
Fixpoint tiles (top : nat) (lo hi : Z) ps : Prop :=
  match ps with
  | [] => lo = hi
  | (l, v) :: ps => v = lo ∧ (1 <= l <= top)%nat ∧ (es l | v) ∧ tiles top (lo + es l) hi ps
  end.

(** The value written for a page, when [delta] is the distance from virtual to
    physical addresses. *)
Definition page_value (flags delta : Z) (l : nat) (v : Z) : Z :=
  Z.lor (wrap 64 (v + delta)) (if decide (l = 1%nat) then flags else huge_flags flags).

Fixpoint write_pages (flags delta : Z) ps (st : St) : option St :=
  match ps with
  | [] => Some st
  | (l, v) :: ps => st ← set_entry l v (page_value flags delta l v) st; write_pages flags delta ps st
  end.

Lemma tiles_app top lo mid hi ps qs : tiles top lo mid ps → tiles top mid hi qs → tiles top lo hi (ps ++ qs).
Proof.
  revert lo. induction ps as [|[l v] ps IH]; intros lo; simpl; [by intros ->|]. intros (-> & ? & ? & ?) ?. split_and!; [done|lia..|done|by apply IH].
Qed.

Lemma write_pages_app flags delta ps qs st :
  write_pages flags delta (ps ++ qs) st = write_pages flags delta ps st ≫= write_pages flags delta qs.
Proof. revert st. induction ps as [|[l v] ps IH]; intros st; [done|]. simpl. destruct (set_entry _ _ _ _); simpl; [apply IH|done]. Qed.

Lemma tiles_weaken top top' lo hi ps : (top <= top')%nat → tiles top lo hi ps → tiles top' lo hi ps.
Proof.
  intros Ht. revert lo. induction ps as [|[l v] ps IH]; intros lo; simpl; [done|]. intros (? & ? & ? & ?). split_and!; [done|lia..|done|auto].
Qed.

(** The pages of one level one after the other. *)
Fixpoint pages_run (l n : nat) (v : Z) : list (nat * Z) :=
  match n with O => [] | S n => (l, v) :: pages_run l n (v + es l) end.

Lemma tiles_run top l n v : (1 <= l <= top)%nat → (es l | v) → tiles top v (v + Z.of_nat n * es l) (pages_run l n v).
Proof.
  intros Hl. revert v. induction n as [|n IH]; intros v Hd; simpl; [lia|]. split_and!; [done|lia..|done|].
  replace (v + Z.of_nat (S n) * es l) with (v + es l + Z.of_nat n * es l) by lia. apply IH. apply Z.divide_add_r; [done|by exists 1; lia].
Qed.

Lemma wrap_add x y : wrap 64 (wrap 64 x + y) = wrap 64 (x + y).
Proof. unfold wrap. by rewrite Zplus_mod_idemp_l. Qed.

(** A loop writes the pages of its level. *)
Lemma map_until_run l flags delta : (1 <= l <= 3)%nat → ∀ (n : nat) fuel virt st,
  (n <= fuel)%nat → 0 <= virt → Z.of_nat n * es l < 2 ^ 64 → virt + Z.of_nat n * es l <= 2 ^ 64 →
  map_until set_entry fuel l (es l) (if decide (l = 1%nat) then flags else huge_flags flags)
    (wrap 64 (virt + Z.of_nat n * es l)) (wrap 64 virt) (wrap 64 (virt + delta)) st =
  st ← write_pages flags delta (pages_run l n virt) st;
  Some (wrap 64 (virt + Z.of_nat n * es l), wrap 64 (virt + Z.of_nat n * es l + delta), st).
Proof.
  intros Hl n. pose proof (es_pos l) as He. induction n as [|n IH]; intros fuel virt st Hf Hv Hn Hx.
  - replace (virt + Z.of_nat 0 * es l) with virt by lia. destruct fuel; simpl; by rewrite decide_True.
  - destruct fuel as [|fuel]; [lia|]. cbn [map_until pages_run write_pages].
    replace (Z.of_nat (S n) * es l) with (es l + Z.of_nat n * es l) in * by lia.
    assert (0 <= Z.of_nat n * es l) by nia. set (rest := Z.of_nat n * es l) in *.
    rewrite (wrap_small 64 virt) by (split; lia). rewrite decide_False.
    2:{ destruct (decide (virt + (es l + rest) = 2 ^ 64)) as [E|]; [rewrite E; change (wrap 64 (2 ^ 64)) with 0|rewrite wrap_small by (split; lia)]; lia. }
    unfold page_value at 1. destruct (set_entry _ _ _ st) as [st'|]; [|done]. cbn [mbind option_bind].
    unfold add64. rewrite wrap_add. replace (virt + delta + es l) with (virt + es l + delta) by lia.
    replace (virt + (es l + rest)) with (virt + es l + rest) by lia. apply IH; lia.
Qed.

(** ** From one address to another *)

(** The least multiple of a level's size that is not below [a]. *)
Definition aup (l : nat) (a : Z) : Z := apos l (a + es l - 1).

Lemma aup_bounds l a : a <= aup l a < a + es l.
Proof. unfold aup. pose proof (apos_bounds l (a + es l - 1)). lia. Qed.

Lemma aup_least l a b : (es l | b) → a <= b → aup l a <= b.
Proof.
  intros [q Hq] Hab. destruct (apos_divide l (a + es l - 1)) as [k Hk]. pose proof (aup_bounds l a). unfold aup in *. pose proof (es_pos l).
  assert (k < q + 1) by (apply (Z.mul_lt_mono_pos_r (es l)); lia). nia.
Qed.

Lemma es_divides_top l : (l <= 6)%nat → (es l | 2 ^ 64).
Proof.
  intros Hl. exists (2 ^ (64 - (3 + 9 * Z.of_nat l))). unfold es. rewrite <-Z.pow_add_r by lia. f_equal. lia.
Qed.

Lemma wrap_top_cases x : 0 <= x <= 2 ^ 64 → (x < 2 ^ 64 ∧ wrap 64 x = x) ∨ (x = 2 ^ 64 ∧ wrap 64 x = 0).
Proof.
  intros Hx. destruct (decide (x = 2 ^ 64)) as [->|]; [by right|left]. split; [lia|]. apply wrap_small. split; lia.
Qed.

Lemma align_down_wrap l x : (1 <= l <= 3)%nat → 0 <= x <= 2 ^ 64 → align_down (wrap 64 x) (es l) = wrap 64 (apos l x).
Proof.
  intros Hl Hx. pose proof (es_pos l). rewrite align_down_eq by (apply wrap_range || apply es_is_pow2; lia).
  destruct (wrap_top_cases x Hx) as [[Hlt ->]|[-> ->]].
  - pose proof (apos_bounds l x). assert (0 <= apos l x) by (apply apos_greatest; [apply Z.divide_0_r|lia]).
    rewrite wrap_small by (split; lia). unfold apos. rewrite Z.mod_eq by lia. lia.
  - rewrite apos_fixed by (apply es_divides_top; lia). by rewrite Z.mod_0_l by lia.
Qed.

Lemma addr_end_wrap l v E :
  (1 <= l <= 3)%nat → 0 <= v → v <= E <= 2 ^ 64 → 0 < E → aup l v <= E →
  addr_end (wrap 64 v) (wrap 64 E) (es l) = wrap 64 (aup l v).
Proof.
  intros Hl Hv HE H0 Hle. unfold addr_end. pose proof (es_is_pow2 l ltac:(lia)) as Hp. pose proof (is_pow2_range _ Hp). pose proof (aup_bounds l v).
  assert ((es l | 2 ^ 64)) as Htop by (apply es_divides_top; lia).
  assert (align_up (wrap 64 v) (es l) = wrap 64 (aup l v)) as ->.
  { destruct (wrap_top_cases v ltac:(lia)) as [[Hlt ->]|[-> ->]].
    - destruct (align_up_spec v (es l)) as [(Ho & (J1 & J2 & J3) & J4)|[Ho ->]]; [split; lia|done| |].
      + assert (aup l v = align_up v (es l)) as ->; [|by rewrite wrap_small by (split; lia)].
        apply Z.mod_divide in J2; [|lia]. pose proof (aup_least l v _ J2 J1).
        specialize (J3 (aup l v) ltac:(lia)). assert (aup l v mod es l = 0) as Hm by (apply Z.mod_divide; [lia|apply apos_divide]). specialize (J3 Hm). lia.
      + assert (aup l v = 2 ^ 64) as ->; [|done]. apply Z.le_antisymm; [by apply aup_least; [|lia]|].
        apply apos_greatest; [done|lia].
    - assert (aup l (2 ^ 64) = 2 ^ 64) as ->; [apply Z.le_antisymm; [by apply aup_least|lia]|].
      change (wrap 64 (2 ^ 64)) with 0. by rewrite align_up_fixed by (done || split; lia). }
  destruct (wrap_top_cases E ltac:(lia)) as [[Hlt ->]|[-> ->]]; [|by rewrite decide_True].
  rewrite decide_False, min_spec, wrap_small by (try split; lia). lia.
Qed.

(** A loop, from an address to a multiple of its level's size above it. *)
Lemma map_until_spec l flags delta fuel virt x :
  (1 <= l <= 3)%nat → 0 <= virt <= x → x <= 2 ^ 64 → x - virt < 2 ^ 64 → (es l | virt) → (es l | x) → (x - virt) / es l <= Z.of_nat fuel →
  ∃ ps, tiles l virt x ps ∧ ∀ st,
    map_until set_entry fuel l (es l) (if decide (l = 1%nat) then flags else huge_flags flags) (wrap 64 x) (wrap 64 virt) (wrap 64 (virt + delta)) st =
    st ← write_pages flags delta ps st; Some (wrap 64 x, wrap 64 (x + delta), st).
Proof.
  intros Hl Hv Hx Hlt Hdv Hdx Hf. pose proof (es_pos l) as He. assert (es l | x - virt) as [k Hk] by by apply Z.divide_sub_r.
  rewrite Hk, Z.div_mul in Hf by lia. assert (0 <= k) by nia.
  assert (x = virt + Z.of_nat (Z.to_nat k) * es l) as -> by (rewrite Z2Nat.id; lia).
  exists (pages_run l (Z.to_nat k) virt). split; [by apply tiles_run; [lia|]|]. intros st. apply map_until_run; try lia.
Qed.

(** The range to map, and enough fuel for every loop. *)
Context (V E flags delta : Z) (fuel : nat).
Context (HV : 0 <= V) (HE : 0 < E <= 2 ^ 64) (Hlen : E - V < 2 ^ 64) (HpV : (es 1 | V)) (HpE : (es 1 | E)).
Context (Hfuel : (E - V) / es 1 <= Z.of_nat fuel).

Lemma loop_spec l v x :
  (1 <= l <= 3)%nat → V <= v <= x → x <= E → (es l | v) → (es l | x) →
  ∃ ps, tiles l v x ps ∧ ∀ st,
    map_until set_entry fuel l (es l) (if decide (l = 1%nat) then flags else huge_flags flags) (wrap 64 x) (wrap 64 v) (wrap 64 (v + delta)) st =
    st ← write_pages flags delta ps st; Some (wrap 64 x, wrap 64 (x + delta), st).
Proof.
  intros Hl Hv Hx Hd1 Hd2. apply map_until_spec; try done; [lia..|]. etrans; [|exact Hfuel]. pose proof (es_pos l). pose proof (es_pos 1).
  etrans; [|apply (Z.div_le_mono (x - v)); lia].
  apply Z.div_le_compat_l; [lia|]. split; [lia|]. apply Z.divide_pos_le; [lia|]. apply es_divide. lia.
Qed.

Lemma tail_p1d_spec v : V <= v <= E → (es 1 | v) →
  ∃ ps, tiles 1 v E ps ∧ ∀ st, tail_p1d set_entry fuel flags (wrap 64 E) (wrap 64 v) (wrap 64 (v + delta)) st = write_pages flags delta ps st.
Proof.
  intros Hv Hd. destruct (loop_spec 1 v E ltac:(lia) Hv ltac:(lia) Hd HpE) as (ps & Ht & Heq). exists ps. split; [done|]. intros st.
  unfold tail_p1d. change PAGE_SIZE with (es 1). rewrite Heq. by destruct (write_pages flags delta ps st).
Qed.

Lemma apos_le l : (1 <= l)%nat → (es 1 | apos l E).
Proof. intros Hl. etrans; [by apply es_divide|apply apos_divide]. Qed.

Lemma tail_p2d_spec v : V <= v <= apos 2 E → (es 2 | v) →
  ∃ ps, tiles 2 v E ps ∧ ∀ st, tail_p2d set_entry fuel flags (wrap 64 E) (wrap 64 v) (wrap 64 (v + delta)) st = write_pages flags delta ps st.
Proof.
  intros Hv Hd. pose proof (apos_bounds 2 E).
  destruct (loop_spec 2 v (apos 2 E) ltac:(lia) ltac:(lia) ltac:(lia) Hd (apos_divide _ _)) as (ps & Ht & Heq).
  destruct (tail_p1d_spec (apos 2 E)) as (qs & Ht' & Heq'); [lia|by apply apos_le; lia|].
  exists (ps ++ qs). split; [eapply tiles_app; [done|by apply (tiles_weaken 1); [lia|]]|]. intros st.
  unfold tail_p2d. change P1D_SIZE with (es 2). rewrite align_down_wrap by lia. rewrite Heq, write_pages_app.
  destruct (write_pages flags delta ps st) as [st'|]; [|done]. apply Heq'.
Qed.

(** The head, up to the first address at which a page of 2 MiB fits. *)
Lemma head_spec : V <= apos 2 E →
  ∃ ps, tiles 1 V (aup 2 V) ps ∧ V <= aup 2 V <= apos 2 E ∧ ∀ st,
    map_until set_entry fuel 1 PAGE_SIZE flags (addr_end (wrap 64 V) (wrap 64 E) P1D_SIZE) (wrap 64 V) (wrap 64 (V + delta)) st =
    st ← write_pages flags delta ps st; Some (wrap 64 (aup 2 V), wrap 64 (aup 2 V + delta), st).
Proof.
  intros Hle. pose proof (apos_bounds 2 E). pose proof (aup_bounds 2 V). pose proof (aup_least 2 V _ (apos_divide 2 E) Hle).
  destruct (loop_spec 1 V (aup 2 V)) as (ps & Ht & Heq); [lia..|done|etrans; [apply (es_divide 1 2); lia|apply apos_divide]|].
  exists ps. split_and!; [done|lia..|]. intros st. change P1D_SIZE with (es 2). rewrite addr_end_wrap by lia. apply Heq.
Qed.

(** The pages of 2 MiB up to the first of 1 GiB, and those. *)
Lemma huge_spec v : V <= v <= apos 3 E → (es 2 | v) →
  ∃ ps, tiles 3 v (apos 3 E) ps ∧ ∀ st,
    ('(virt, phys, st) ← map_until set_entry fuel 2 P1D_SIZE (huge_flags flags) (addr_end (wrap 64 v) (wrap 64 E) P2D_SIZE) (wrap 64 v) (wrap 64 (v + delta)) st;
     map_until set_entry fuel 3 P2D_SIZE (huge_flags flags) (align_down (wrap 64 E) P2D_SIZE) virt phys st) =
    st ← write_pages flags delta ps st; Some (wrap 64 (apos 3 E), wrap 64 (apos 3 E + delta), st).
Proof.
  intros Hv Hd. pose proof (apos_bounds 3 E). pose proof (aup_bounds 3 v). pose proof (aup_least 3 v _ (apos_divide 3 E) ltac:(lia)).
  destruct (loop_spec 2 v (aup 3 v)) as (ps & Ht & Heq); [lia..|done|etrans; [apply (es_divide 2 3); lia|apply apos_divide]|].
  destruct (loop_spec 3 (aup 3 v) (apos 3 E)) as (qs & Ht' & Heq'); [lia..|apply apos_divide|apply apos_divide|].
  exists (ps ++ qs). split; [eapply tiles_app; [by apply (tiles_weaken 2); [lia|]|done]|]. intros st.
  change P2D_SIZE with (es 3). change P1D_SIZE with (es 2). rewrite addr_end_wrap by lia. rewrite align_down_wrap by lia.
  setoid_rewrite Heq. rewrite write_pages_app. destruct (write_pages flags delta ps st) as [st'|]; [|done]. apply Heq'.
Qed.

End boot_map.

Section boot_map_claim.
Local Open Scope Z_scope.

(** The end of the range, rounded up: zero stands for the top. *)
Lemma end_wrap x : 0 < x <= 2 ^ 64 → align_up (wrap 64 x) PAGE_SIZE = wrap 64 (x + (- x) mod 4096).
Proof.
  intros Hx. pose proof (Z.mod_pos_bound (- x) 4096 ltac:(lia)). assert (is_pow2 PAGE_SIZE) as Hp by by exists 12.
  destruct (wrap_top_cases x ltac:(lia)) as [[Hlt ->]|[-> ->]]; [|done].
  destruct (align_up_spec x PAGE_SIZE) as [(Ho & (J1 & J2 & J3) & J4)|[Ho ->]]; [split; lia|done|..]; change PAGE_SIZE with 4096 in *.
  - specialize (J3 (x + (- x) mod 4096) ltac:(lia)). rewrite wrap_small; [|split; [lia|]]; Z.div_mod_to_equations; lia.
  - assert (x + (- x) mod 4096 = 2 ^ 64) as ->; [|done]. Z.div_mod_to_equations; lia.
Qed.

(** The largest page size that is left. *)
Lemma maxhuge_reduced (maxhuge : Z) (c3 c2 : Prop) `{!Decision c3, !Decision c2} :
  let m := if decide c2 then min (if decide c3 then min maxhuge 2 else maxhuge) 1 else if decide c3 then min maxhuge 2 else maxhuge in
  m <= maxhuge ∧ (1 < m → ¬ c2) ∧ (2 < m → ¬ c3).
Proof. rewrite !min_spec. repeat case_decide; split_and!; (lia || done). Qed.

Lemma fits_huge l V E : (1 <= l <= 3)%nat → 0 <= V < 2 ^ 64 → V <= E → 0 < E <= 2 ^ 64 →
  ¬ (wrap 64 E ≠ 0 ∧ align_down (wrap 64 E) (es l) < wrap 64 V) → V <= apos l E.
Proof.
  intros Hl HV Hle HE Hn. rewrite align_down_wrap, (wrap_small 64 V) in Hn by (try split; lia).
  destruct (wrap_top_cases E ltac:(lia)) as [[Hlt Hw]|[-> _]]; [|rewrite apos_fixed by (apply es_divides_top; lia); lia].
  pose proof (apos_bounds l E). assert (0 <= apos l E) by (apply apos_greatest; [apply Z.divide_0_r|lia]).
  rewrite Hw, wrap_small in Hn by (split; lia). lia.
Qed.

(** What [identity_map] does: the entries of a sequence of pages. *)
Lemma identity_map_spec {St} (set_entry : nat → Z → Z → St → option St) virt phys size flags maxhuge :
  0 <= virt → 0 < size < 2 ^ 63 → virt + size <= 2 ^ 64 → u64 phys →
  let V := virt - virt mod 4096 in
  let E := virt + size + (- (virt + size)) mod 4096 in
  ∃ ps, tiles (Z.to_nat (Z.max 1 (Z.min maxhuge 3))) V E ps ∧
    ∀ st, identity_map set_entry virt phys size flags maxhuge st = write_pages set_entry flags (phys - phys mod 4096 - V) ps st.
Proof.
  intros Hv Hs Htop Hp V E. set (delta := phys - phys mod 4096 - V).
  assert (0 <= V <= virt ∧ virt < V + 4096 ∧ V mod 4096 = 0) as (HV1 & HV2 & HV3) by (unfold V; Z.div_mod_to_equations; lia).
  assert (virt + size <= E < virt + size + 4096 ∧ E <= 2 ^ 64 ∧ E mod 4096 = 0) as (HE1 & HE2 & HE3)
    by (unfold E; Z.div_mod_to_equations; lia).
  assert (es 1 | V) as HpV by (by apply Z.mod_divide). assert (es 1 | E) as HpE by (by apply Z.mod_divide).
  unfold identity_map. set (fuel := Z.to_nat (size / PAGE_SIZE + 2)).
  assert ((E - V) / es 1 <= Z.of_nat fuel) as Hfuel.
  { unfold fuel. change PAGE_SIZE with 4096. change (es 1) with 4096. rewrite Z2Nat.id; Z.div_mod_to_equations; lia. }
  unfold add64. rewrite end_wrap by lia. fold E.
  assert (is_pow2 PAGE_SIZE) as Hpow by by exists 12.
  assert (align_down virt PAGE_SIZE = wrap 64 V) as -> by (rewrite align_down_eq, wrap_small by (done || split; lia); done).
  assert (align_down phys PAGE_SIZE = wrap 64 (V + delta)) as ->.
  { rewrite align_down_eq by done. destruct Hp. replace (V + delta) with (phys - phys mod 4096) by (unfold delta; lia).
    rewrite wrap_small; [done|]. split; Z.div_mod_to_equations; lia. }
  set (c3 := wrap 64 E ≠ 0 ∧ align_down (wrap 64 E) P2D_SIZE < wrap 64 V). set (c2 := wrap 64 E ≠ 0 ∧ align_down (wrap 64 E) P1D_SIZE < wrap 64 V).
  destruct (maxhuge_reduced maxhuge c3 c2) as (Hm1 & Hm2 & Hm3). set (mh := if decide c2 then _ else _) in *. cbv zeta.
  assert (1 < mh → V <= apos 2 E) as Hc2 by (intros H%Hm2; apply (fits_huge 2); [lia..|done]).
  assert (2 < mh → V <= apos 3 E) as Hc3 by (intros H%Hm3; apply (fits_huge 3); [lia..|done]).
  clearbody mh. clear Hm2 Hm3 c2 c3.
  destruct (decide (mh <= 1)) as [Hmh|Hmh].
  { destruct (tail_p1d_spec set_entry V E flags delta fuel ltac:(lia) ltac:(lia) ltac:(lia) HpE Hfuel V ltac:(lia) HpV) as (ps & Ht & Heq).
    exists ps. split; [|done]. eapply tiles_weaken; [|done]. lia. }
  destruct (head_spec set_entry V E flags delta fuel ltac:(lia) ltac:(lia) ltac:(lia) HpV Hfuel (Hc2 ltac:(lia))) as (ps & Ht & Hb & Heq).
  setoid_rewrite Heq. clear Heq.
  destruct (decide (mh <= 2)) as [Hmh'|Hmh'].
  { destruct (tail_p2d_spec set_entry V E flags delta fuel ltac:(lia) ltac:(lia) ltac:(lia) HpE Hfuel (aup 2 V) Hb (apos_divide _ _)) as (qs & Ht' & Heq).
    exists (ps ++ qs). split; [eapply (tiles_weaken 2), tiles_app; [lia| |done]; by apply (tiles_weaken 1); [lia|]|].
    intros st. rewrite write_pages_app. destruct (write_pages set_entry flags delta ps st); [|done]. apply Heq. }
  destruct (huge_spec set_entry V E flags delta fuel ltac:(lia) ltac:(lia) ltac:(lia) Hfuel (aup 2 V)) as (qs & Ht' & Heq);
    [split; [lia|by apply aup_least; [etrans; [apply (es_divide 2 3); lia|apply apos_divide]|apply Hc3; lia]]|apply apos_divide|].
  destruct (tail_p2d_spec set_entry V E flags delta fuel ltac:(lia) ltac:(lia) ltac:(lia) HpE Hfuel (apos 3 E)) as (rs & Ht'' & Heq');
    [split; [apply Hc3; lia|apply apos_greatest; [etrans; [apply (es_divide 2 3); lia|apply apos_divide]|apply apos_bounds]]
    |etrans; [apply (es_divide 2 3); lia|apply apos_divide]|].
  exists (ps ++ qs ++ rs). split.
  { replace (Z.to_nat (Z.max 1 (Z.min maxhuge 3))) with 3%nat by lia.
    eapply tiles_app; [by apply (tiles_weaken 1); [lia|]|]. eapply tiles_app; [done|by apply (tiles_weaken 2); [lia|]]. }
  intros st. rewrite write_pages_app. destruct (write_pages set_entry flags delta ps st) as [st1|]; [|done].
  cbn [mbind option_bind]. rewrite write_pages_app. specialize (Heq st1).
  destruct (map_until set_entry fuel 2 P1D_SIZE _ _ _ _ st1) as [[[v p] st2]|]; cbn [mbind option_bind] in *.
  - rewrite Heq. destruct (write_pages set_entry flags delta qs st1) as [st3|]; [|done]. apply Heq'.
  - by destruct (write_pages set_entry flags delta qs st1).
Qed.
(** [identity_map] terminates, and what it does is exactly to write the
    entries of a sequence of pages that covers the range, rounded outwards to
    page boundaries, without gap or overlap, from the bottom to the top: each
    page lies at a multiple of its size, is no larger than [maxhuge] allows,
    and gets the physical address at the same distance throughout, with the
    flags for its size.  This includes ranges that end at the very top of the
    address space, where the end wraps around to zero. *)
Theorem identity_map_correct {St} (set_entry : nat → Z → Z → St → option St) virt phys size flags maxhuge :
  0 <= virt → 0 < size < 2 ^ 63 → virt + size <= 2 ^ 64 → u64 phys →
  let V := virt - virt mod 4096 in
  let E := virt + size + (- (virt + size)) mod 4096 in
  ∃ ps, tiles (Z.to_nat (Z.max 1 (Z.min maxhuge 3))) V E ps ∧
    ∀ st, identity_map set_entry virt phys size flags maxhuge st = write_pages set_entry flags (phys - phys mod 4096 - V) ps st.
Proof. intros Hv Hs Htop Hp. by apply identity_map_spec. Qed.

(** The entries are recorded. *)
Definition record_entry (l : nat) (v val : Z) (log : list (nat * Z * Z)) : option (list (nat * Z * Z)) := Some (log ++ [(l, v, val)]).

Lemma identity_map_correct_witness :
  ∃ ps, tiles 2 0xffff8000001ff000 0xffff800000601000 ps ∧
    ∀ st, identity_map record_entry 0xffff8000001ff800 0x1ff800 0x401000 0x103 2 st =
          write_pages record_entry 0x103 (- 0xffff800000000000) ps st.
Proof. apply (identity_map_correct record_entry 0xffff8000001ff800 0x1ff800 0x401000 0x103 2); (lia || (split; lia)). Defined.

Example example_pages :
  identity_map record_entry 0xffff8000001ff800 0x1ff800 0x401000 0x103 2 [] =
  Some [(1%nat, 0xffff8000001ff000, 0x1ff103); (2%nat, 0xffff800000200000, 0x200183);
        (2%nat, 0xffff800000400000, 0x400183); (1%nat, 0xffff800000600000, 0x600103)].
Proof. vm_compute. reflexivity. Qed.

(** The last page of the address space. *)
Example example_top :
  identity_map record_entry 0xfffffffffffff000 0x1000 0x1000 0x103 3 [] = Some [(1%nat, 0xfffffffffffff000, 0x1103)].
Proof. vm_compute. reflexivity. Qed.

End boot_map_claim.
