(* ===== verification/BootPt.v ===== *)
(** * Building the boot page tables ([arch/x86/boot/setup.cc])

    The boot code reaches a page table through one window per level (a fixed
    virtual page, [kmap_fixed]) and remembers in [curr_mapped] which table the
    window shows.  A pointer to an entry is a window and an index; what it
    points to depends on the window at the time of the access.  Tables are
    known by their physical addresses, new ones come from [alloc_from_memmap].
    Entries are written with [identity_map] ([BootMap]). *)

From S2P Require Import Prelude Align PageAlloc Pgtable BootMem BootMap.

Section boot_pt_defs.
Local Open Scope Z_scope.

(** The pointer [kmap_fixed_address (KMAP_FIXED_IDX_P1D + level - 1) + index]. *)
Record wslot := mkWslot { window_level : nat; window_index : Z }.

Record bootpt := mkBootpt {
  bt_boot : boot;
  frames : gmap Z (gmap Z Z);      (* the tables: index to entry, zero if absent *)
  windows : gmap nat Z;            (* the page each window shows *)
  curr_mapped : gmap nat Z;        (* zero if absent *)
}.

Definition ptr_read (st : bootpt) (e : wslot) : option Z :=
  phys ← windows st !! window_level e;
  t ← frames st !! phys;
  Some (default 0 (t !! window_index e)).

Definition ptr_write (st : bootpt) (e : wslot) (v : Z) : option bootpt :=
  phys ← windows st !! window_level e;
  t ← frames st !! phys;
  Some (mkBootpt (bt_boot st) (<[phys := <[window_index e := v]> t]> (frames st)) (windows st) (curr_mapped st)).

(** [kmap_fixed_install] with [curr_mapped = value]. *)
Definition show_table (st : bootpt) (level : nat) (value : Z) : bootpt :=
  mkBootpt (bt_boot st) (frames st) (<[level := value]> (windows st)) (<[level := value]> (curr_mapped st)).

(** [for (int i = 0; i < 512; i++) table[i] = 0] *)
Definition clear_table (st : bootpt) (level : nat) : option bootpt :=
  phys ← windows st !! level;
  Some (mkBootpt (bt_boot st) (<[phys := ∅]> (frames st)) (windows st) (curr_mapped st)).

Definition with_boot (st : bootpt) (b : boot) : bootpt := mkBootpt b (frames st) (windows st) (curr_mapped st).

(** [None] for an access to something that is not a table; the panic for lack
    of memory is [Some None]. *)
Definition get_next_pte (level : nat) (entry : wslot) (addr : Z) (st : bootpt) : option (option (wslot * bootpt)) :=
  value ← ptr_read st entry;
  let table := mkWslot level (pgtable_index addr level) in
  if decide (value ≠ 0) then
    let value := phys_addr value in
    Some (Some (table, if decide (default 0 (curr_mapped st !! level) ≠ value) then show_table st level value else st))
  else
    '(r, b) ← alloc_from_memmap (bt_boot st) PAGE_SIZE;
    match r with
    | None => Some None
    | Some value =>
      let st := show_table (with_boot st b) level value in
      st ← clear_table st level;
      st ← ptr_write st entry (Z.lor value PAGE_KERNEL_PGTABLE);
      Some (Some (table, st))
    end.

Context (la57 : bool).

Definition get_p4e (addr : Z) (st : bootpt) : option (option (wslot * bootpt)) :=
  if la57 then get_next_pte 4 (mkWslot 5 (pgtable_index addr 5)) addr st
  else Some (Some (mkWslot 4 (pgtable_index addr 4), st)).

Definition then_next (level : nat) (r : option (option (wslot * bootpt))) (addr : Z) : option (option (wslot * bootpt)) :=
  r ← r;
  match r with
  | None => Some None
  | Some (entry, st) => get_next_pte level entry addr st
  end.

Definition get_p3e (addr : Z) (st : bootpt) := then_next 3 (get_p4e addr st) addr.
Definition get_p2e (addr : Z) (st : bootpt) := then_next 2 (get_p3e addr st) addr.
Definition get_p1e (addr : Z) (st : bootpt) := then_next 1 (get_p2e addr st) addr.

Definition get_pe (level : nat) : Z → bootpt → option (option (wslot * bootpt)) :=
  match level with 1%nat => get_p1e | 2%nat => get_p2e | 3%nat => get_p3e | _ => get_p4e end.

(** [*get_p<level>e (virt) = value]; after a panic nothing runs any more. *)
Definition set_entry (level : nat) (virt value : Z) (r : option bootpt) : option (option bootpt) :=
  match r with
  | None => Some None
  | Some st =>
    r ← get_pe level virt st;
    match r with
    | None => Some None
    | Some (entry, st) => st ← ptr_write st entry value; Some (Some st)
    end
  end.

(** The root table, cleared, in its window. *)
Definition boot_root (root : Z) (b : boot) : bootpt :=
  mkBootpt b {[root := ∅]} {[max_pgtable_level la57 := root]} ∅.

(** ** What the processor does *)

Definition is_huge (v : Z) : bool := Z.testbit v 7.

(** [Some None]: not mapped; [Some (Some (level, entry))]: a page of that
    level. *)
Fixpoint huge_walk (level : nat) (st : bootpt) (table addr : Z) : option (option (nat * Z)) :=
  match level with
  | O => None
  | S l =>
    t ← frames st !! table;
    let v := default 0 (t !! pgtable_index addr level) in
    if decide (v = 0) then Some None
    else if decide (l = O ∨ is_huge v = true) then Some (Some (level, v))
    else huge_walk l st (phys_addr v) addr
  end.

Definition lookup_page (st : bootpt) (root addr : Z) : option (option (nat * Z)) :=
  huge_walk (max_pgtable_level la57) st root addr.

End boot_pt_defs.

(** ** The invariant *)

Section boot_pt.
Local Open Scope Z_scope.
Context (la57 : bool) (root : Z).
Abbreviation M := (max_pgtable_level la57).
Abbreviation base := (kbase la57).
Implicit Types (st : bootpt) (own : gmap (nat * Z) Z).

(** The addresses the root table covers in the kernel's half. *)
Definition haddr (a : Z) : Prop := base <= a < 2 ^ 64.

(** The entry of level [l] for [a]. *)
Definition bent st own (l : nat) (a : Z) : Z :=
  match own !! (l, apos (S l) a) with
  | Some t => default 0 (frames st !! t ≫= λ m, m !! pgtable_index a l)
  | None => 0
  end.

(** A table that the boot code can have allocated. *)
Definition table_ok (t : Z) : Prop := ∃ n, 0 < n < 2 ^ 40 ∧ t = 4096 * n.

(** An entry of level [l] that maps a page. *)
Definition leaf (l : nat) (v : Z) : Prop := v ≠ 0 ∧ (l = 1%nat ∨ is_huge v = true).

Record bpt_wf st own : Prop := {
  bw_boot : boot_ok (bt_boot st);
  bw_early : use_early_alloc (bt_boot st) = false;
  bw_low : memmap_alloc_wmark (bt_boot st) <= 2 ^ 52;
  bw_blocked : ∃ bl, bl ∈ blockers (bt_boot st) ∧ bl.1 <= root < bl.2;
  bw_root : own !! (M, base) = Some root;
  bw_window : windows st !! M = Some root;
  bw_table l B t : own !! (l, B) = Some t →
    (1 <= l <= M)%nat ∧ (l = M → B = base) ∧ is_Some (frames st !! t) ∧ table_ok t ∧
    ((l < M)%nat → memmap_alloc_wmark (bt_boot st) <= t);
  bw_inj k1 k2 t : own !! k1 = Some t → own !! k2 = Some t → k1 = k2;
  bw_ent l a : (1 <= l < M)%nat → haddr a →
    match own !! (l, apos (S l) a) with
    | Some t => bent st own (S l) a = Z.lor t PAGE_KERNEL_PGTABLE
    | None => bent st own (S l) a = 0 ∨ leaf (S l) (bent st own (S l) a)
    end;
  bw_curr l c : (l < M)%nat → curr_mapped st !! l = Some c → windows st !! l = Some c;
}.

Lemma boot_M_cases : M = 4%nat ∨ M = 5%nat.
Proof. destruct la57; [by right|by left]. Qed.

Lemma top_cases : (la57 = true ∧ M = 5%nat) ∨ (la57 = false ∧ M = 4%nat).
Proof. destruct la57; [by left|by right]. Qed.

Lemma base_divide l : (l <= S M)%nat → (es l | base).
Proof.
  intros Hl. unfold kbase. apply Z.divide_sub_r; [|by apply es_divide]. apply es_divides_top. destruct boot_M_cases; lia.
Qed.

Lemma kbase_nonneg : 0 <= base.
Proof. unfold kbase, es. by destruct boot_M_cases as [-> | ->]. Qed.

Lemma haddr_root a : haddr a → apos (S M) a = base.
Proof. intros [H1 H2]. apply apos_unique; [by apply base_divide|]. unfold kbase in *. lia. Qed.

Lemma pgtable_value t : table_ok t →
  Z.lor t PAGE_KERNEL_PGTABLE ≠ 0 ∧ phys_addr (Z.lor t PAGE_KERNEL_PGTABLE) = t ∧ is_huge (Z.lor t PAGE_KERNEL_PGTABLE) = false.
Proof.
  intros (n & Hn & ->). split_and!.
  - intros [_ H]%Z.lor_eq_0_iff. done.
  - by apply phys_addr_lor; [lia|].
  - unfold is_huge. rewrite Z.lor_spec. replace (4096 * n) with (Z.shiftl n 12) by (rewrite Z.shiftl_mul_pow2 by lia; lia).
    by rewrite Z.shiftl_spec_low by lia.
Qed.

(** ** Reading and writing through a window *)

(** [e] points to the entry of level [l] for [a]. *)
Definition slot_at st own (l : nat) (a : Z) (e : wslot) : Prop :=
  e = mkWslot l (pgtable_index a l) ∧ ∃ t, own !! (l, apos (S l) a) = Some t ∧ windows st !! l = Some t.

Lemma ptr_read_ent st own l a e : bpt_wf st own → slot_at st own l a e → ptr_read st e = Some (bent st own l a).
Proof.
  intros Hwf (-> & t & Ho & Hw). destruct (bw_table _ _ Hwf _ _ _ Ho) as (_ & _ & [m Hm] & _).
  unfold ptr_read, bent. simpl. by rewrite Hw, Ho; simpl; rewrite Hm.
Qed.

Lemma same_entry l a b : apos l b = apos l a → apos (S l) b = apos (S l) a.
Proof. intros H. by rewrite <-(apos_nested l (S l) b), <-(apos_nested l (S l) a), H by lia. Qed.

(** Changing an entry of a table. *)
Lemma insert_ent st st' own l a t m v :
  (∀ k1 k2 t, own !! k1 = Some t → own !! k2 = Some t → k1 = k2) →
  own !! (l, apos (S l) a) = Some t → frames st !! t = Some m →
  frames st' = <[t := <[pgtable_index a l := v]> m]> (frames st) →
  ∀ k b, bent st' own k b = if decide (k = l ∧ apos l b = apos l a) then v else bent st own k b.
Proof.
  intros Hinj Ho Hm Hf k b. unfold bent. rewrite Hf. destruct (own !! (k, apos (S k) b)) as [t'|] eqn:Ho'.
  - destruct (decide (t' = t)) as [->|Hne].
    + pose proof (Hinj _ _ _ Ho' Ho) as Hk. injection Hk as -> Hk. rewrite lookup_insert_eq. simpl. rewrite Hm. simpl.
      destruct (decide (apos l b = apos l a)) as [Heq|Hneq].
      * rewrite decide_True by done. by rewrite (index_ext l b a), lookup_insert_eq.
      * rewrite decide_False by tauto. rewrite lookup_insert_ne; [done|]. intros Hi. apply Hneq. by apply index_inj.
    + rewrite lookup_insert_ne by done. rewrite decide_False; [done|]. intros [-> Heq%same_entry]. rewrite Heq in Ho'. congruence.
  - rewrite decide_False; [done|]. intros [-> Heq%same_entry]. rewrite Heq in Ho'. congruence.
Qed.

Lemma ptr_write_ent st own l a e v : bpt_wf st own → slot_at st own l a e →
  ∃ st', ptr_write st e v = Some st' ∧ bt_boot st' = bt_boot st ∧ windows st' = windows st ∧ curr_mapped st' = curr_mapped st ∧
    dom (frames st') = dom (frames st) ∧
    ∀ k b, bent st' own k b = if decide (k = l ∧ apos l b = apos l a) then v else bent st own k b.
Proof.
  intros Hwf (-> & t & Ho & Hw). destruct (bw_table _ _ Hwf _ _ _ Ho) as (_ & _ & [m Hm] & _).
  unfold ptr_write. simpl. rewrite Hw. simpl. rewrite Hm. simpl. eexists. split; [done|]. simpl.
  split_and!; [done..|by rewrite dom_insert_lookup_L by (by eexists)|]. eapply insert_ent; [apply Hwf|done..].
Qed.

(** Writing a page into an entry that was zero. *)
Lemma write_leaf st own l a e v :
  bpt_wf st own → slot_at st own l a e → (1 <= l <= M)%nat → bent st own l a = 0 → leaf l v →
  ∃ st', ptr_write st e v = Some st' ∧ bpt_wf st' own ∧ bt_boot st' = bt_boot st ∧
    ∀ k b, bent st' own k b = if decide (k = l ∧ apos l b = apos l a) then v else bent st own k b.
Proof.
  intros Hwf Hs Hl Hz Hv. destruct (ptr_write_ent st own l a e v Hwf Hs) as (st' & E & Hb & Hw & Hc & Hd & He).
  exists st'. split_and!; try done. split; rewrite ?Hb, ?Hw, ?Hc; try apply Hwf.
  - intros k B t Ho. destruct (bw_table _ _ Hwf _ _ _ Ho) as (H1 & H2 & H3 & H4 & H5). split_and!; try done; try lia.
    apply elem_of_dom. rewrite Hd. by apply elem_of_dom.
  - intros k b Hk Hb'. rewrite He. pose proof (bw_ent _ _ Hwf k b Hk Hb') as H.
    destruct (decide (S k = l ∧ apos l b = apos l a)) as [[<- Heq]|]; [|done].
    destruct (own !! (k, apos (S k) b)) as [t|] eqn:Ho; [|by right]. exfalso.
    destruct (bw_table _ _ Hwf _ _ _ Ho) as (_ & _ & _ & Ht & _). destruct (pgtable_value t Ht) as [Hn _]. apply Hn. rewrite <-H, <-Hz.
    unfold bent. rewrite (same_entry _ _ _ Heq). destruct (own !! _); [|done]. by rewrite (index_ext (S k) b a).
Qed.

(** ** A new table *)

Lemma fresh_table st own x : bpt_wf st own → candidate (bt_boot st) 4096 x →
  table_ok x ∧ ∀ k t, own !! k = Some t → t ≠ x.
Proof.
  intros Hwf (H1 & H2 & H3 & _ & H4). pose proof (bw_low _ _ Hwf) as Hlow. unfold min_alloc_addr in H2. split.
  - exists (x / 4096). Z.div_mod_to_equations; lia.
  - intros [l B] t Ho ->. destruct (bw_table _ _ Hwf _ _ _ Ho) as (Hl & HB & _ & _ & Hw).
    destruct (decide (l < M)%nat) as [Hlt|Hge]; [specialize (Hw Hlt); lia|]. assert (l = M) as -> by lia. rewrite (HB eq_refl), (bw_root _ _ Hwf) in Ho.
    injection Ho as ->. destruct (bw_blocked _ _ Hwf) as (bl & Hin & Hbl). destruct (H4 bl Hin); lia.
Qed.

(** The entries after a table [x] for level [l] at [a] was linked in. *)
Lemma grow_ents st st' own l a tp m x :
  bpt_wf st own → (1 <= l < M)%nat → own !! (S l, apos (S (S l)) a) = Some tp → frames st !! tp = Some m →
  own !! (l, apos (S l) a) = None → (∀ k t, own !! k = Some t → t ≠ x) →
  frames st' = <[tp := <[pgtable_index a (S l) := Z.lor x PAGE_KERNEL_PGTABLE]> m]> (<[x := ∅]> (frames st)) →
  ∀ k b, bent st' (<[(l, apos (S l) a) := x]> own) k b =
    if decide (k = S l ∧ apos (S l) b = apos (S l) a) then Z.lor x PAGE_KERNEL_PGTABLE else bent st own k b.
Proof.
  intros Hwf Hl Htp Hm Hnone Hx Hf k b. pose proof (Hx _ _ Htp) as Hne.
  rewrite <-(insert_ent st (mkBootpt (bt_boot st) (<[tp := <[pgtable_index a (S l) := Z.lor x PAGE_KERNEL_PGTABLE]> m]> (frames st)) (windows st) (curr_mapped st))
    own (S l) a tp m _ (bw_inj _ _ Hwf) Htp Hm eq_refl k b).
  unfold bent. rewrite Hf. simpl. destruct (decide ((k, apos (S k) b) = (l, apos (S l) a))) as [Hk|Hk].
  - rewrite Hk, lookup_insert_eq, Hnone. rewrite lookup_insert_ne by done. by rewrite lookup_insert_eq.
  - rewrite lookup_insert_ne by done. destruct (own !! (k, _)) as [t|] eqn:Ho; [|done]. apply Hx in Ho.
    destruct (decide (t = tp)) as [->|]; [by rewrite !lookup_insert_eq|]. by rewrite !lookup_insert_ne by done.
Qed.

Lemma bgrow_wf st st' own l a tp m x :
  bpt_wf st own → haddr a → (1 <= l < M)%nat → own !! (S l, apos (S (S l)) a) = Some tp → frames st !! tp = Some m →
  own !! (l, apos (S l) a) = None → candidate (bt_boot st) 4096 x →
  frames st' = <[tp := <[pgtable_index a (S l) := Z.lor x PAGE_KERNEL_PGTABLE]> m]> (<[x := ∅]> (frames st)) →
  windows st' = <[l := x]> (windows st) → curr_mapped st' = <[l := x]> (curr_mapped st) →
  boot_ok (bt_boot st') → moves_down (bt_boot st) (bt_boot st') → memmap_alloc_wmark (bt_boot st') = x →
  bpt_wf st' (<[(l, apos (S l) a) := x]> own).
Proof.
  intros Hwf Ha Hl Htp Hm Hnone Hc Hf Hw Hcm Hbo Hmd Hx. destruct (fresh_table _ _ _ Hwf Hc) as [Hok Hfresh].
  pose proof (grow_ents _ _ _ _ _ _ _ _ Hwf Hl Htp Hm Hnone Hfresh Hf) as He. destruct Hmd as (_ & Hmb & Hme & _ & _ & Hmw).
  pose proof (bw_low _ _ Hwf) as Hlow. split; rewrite ?Hw, ?Hcm, ?Hmb, ?Hme; try done; try apply Hwf.
  - lia.
  - rewrite lookup_insert_ne; [apply Hwf|]. intros [= ? ?]. lia.
  - rewrite lookup_insert_ne by lia. apply Hwf.
  - intros k B t [[[= <- <-] <-]|[Hk Ho]]%lookup_insert_Some.
    + split_and!; try lia; [|done]. rewrite Hf, lookup_insert_ne by (by apply (Hfresh _ _ Htp)). by rewrite lookup_insert_eq.
    + destruct (bw_table _ _ Hwf _ _ _ Ho) as (H1 & H2 & H3 & H4 & H5). split_and!; try done; try lia.
      rewrite Hf. destruct (decide (t = tp)) as [->|]; [by rewrite lookup_insert_eq|]. rewrite lookup_insert_ne by done.
      rewrite lookup_insert_ne; [done|]. intros E. symmetry in E. by apply (Hfresh _ _ Ho).
  - intros k1 k2 t [[Hk1 <-]|[Hk1 H1]]%lookup_insert_Some [[Hk2 E2]|[Hk2 H2]]%lookup_insert_Some.
    + congruence.
    + by apply Hfresh in H2.
    + subst t. by apply Hfresh in H1.
    + by eapply (bw_inj _ _ Hwf).
  - intros k b Hk Hb. rewrite He. pose proof (bw_ent _ _ Hwf k b Hk Hb) as H.
    destruct (decide ((k, apos (S k) b) = (l, apos (S l) a))) as [Hkk|Hkk].
    + rewrite Hkk, lookup_insert_eq. injection Hkk as -> Hkk. by rewrite decide_True.
    + rewrite lookup_insert_ne by done. rewrite decide_False; [done|]. intros [[= ->] E]. by rewrite E in Hkk.
  - intros k c Hk [[<- <-]|[Hne Hcc]]%lookup_insert_Some; [by rewrite lookup_insert_eq|]. rewrite lookup_insert_ne by done.
    by apply (bw_curr _ _ Hwf).
Qed.

(** ** From an entry to the next level *)

(** New tables are linked in on the way to [a], above level [l]; nothing else
    changes. *)
Definition extends (l : nat) (a : Z) st own st' own' : Prop :=
  own ⊆ own' ∧ moves_down (bt_boot st) (bt_boot st') ∧
  (∀ k B t, own' !! (k, B) = Some t → own !! (k, B) = Some t ∨ (l <= k)%nat ∧ B = apos (S k) a) ∧
  ∀ k b, bent st' own' k b = bent st own k b ∨
    ((l < k)%nat ∧ apos k b = apos k a ∧ bent st own k b = 0 ∧ ∃ t, table_ok t ∧ bent st' own' k b = Z.lor t PAGE_KERNEL_PGTABLE).

Lemma extends_refl l a st own : extends l a st own st own.
Proof. split_and!; [done..|by left|by left]. Qed.

Lemma extends_trans l l' a st own st1 own1 st2 own2 :
  (l <= l')%nat → extends l' a st own st1 own1 → extends l a st1 own1 st2 own2 → extends l a st own st2 own2.
Proof.
  intros Hl (H1 & H2 & H3 & H4) (J1 & J2 & J3 & J4). split_and!; [by etrans|by etrans|..].
  - intros k B t Ho. destruct (J3 _ _ _ Ho) as [Ho1|[? ?]]; [|right; by split; [lia|]].
    destruct (H3 _ _ _ Ho1) as [?|[? ?]]; [by left|right; by split; [lia|]].
  - intros k b. destruct (H4 k b) as [E|(Hk & Hp & Hz & t & Ht & E)].
    + destruct (J4 k b) as [->|(Hk' & Hp' & Hz' & Ht')]; [by left|]. right. rewrite <-E. done.
    + right. split_and!; [lia|done|done|]. exists t. split; [done|]. destruct (J4 k b) as [->|(_ & _ & Hz' & _)]; [done|].
      exfalso. rewrite E in Hz'. by apply (pgtable_value t Ht).
Qed.

(** A panic means that the allocator has no page left. *)
Definition no_page_left (b : boot) : Prop := ∃ b', moves_down b b' ∧ ∀ y, ¬ candidate b' PAGE_SIZE y.

Lemma no_page_left_moves b b' : moves_down b b' → no_page_left b' → no_page_left b.
Proof. intros H (b'' & H1 & H2). exists b''. by split; [etrans|]. Qed.

Definition gets (l : nat) (a : Z) st own (r : option (wslot * bootpt)) : Prop :=
  match r with
  | None => no_page_left (bt_boot st)
  | Some (e, st') => ∃ own', bpt_wf st' own' ∧ extends l a st own st' own' ∧ slot_at st' own' l a e
  end.

(** Showing the table in its window. *)
Lemma show_wf st own l a t : bpt_wf st own → (l < M)%nat → own !! (l, apos (S l) a) = Some t →
  let st' := if decide (default 0 (curr_mapped st !! l) ≠ t) then show_table st l t else st in
  bpt_wf st' own ∧ extends l a st own st' own ∧ slot_at st' own l a (mkWslot l (pgtable_index a l)).
Proof.
  intros Hwf Hl Ho. destruct (bw_table _ _ Hwf _ _ _ Ho) as (_ & _ & _ & (n & Hn & Ht) & _). case_decide as Hc.
  - split_and!.
    + split; try apply Hwf; simpl; [rewrite lookup_insert_ne by lia; apply Hwf|].
      intros k c Hk [[<- <-]|[Hne Hcc]]%lookup_insert_Some; [by rewrite lookup_insert_eq|]. rewrite lookup_insert_ne by done. by apply (bw_curr _ _ Hwf).
    + split_and!; try done; by left.
    + split; [done|]. exists t. split; [done|]. simpl. by rewrite lookup_insert_eq.
  - split_and!; [done|apply extends_refl|]. split; [done|]. exists t. split; [done|]. apply (bw_curr _ _ Hwf); [done|].
    destruct (curr_mapped st !! l) as [c|] eqn:E; simpl in Hc; [f_equal|]; lia.
Qed.

Lemma get_next_pte_spec st own l a e :
  bpt_wf st own → haddr a → (1 <= l < M)%nat → slot_at st own (S l) a e → ¬ leaf (S l) (bent st own (S l) a) →
  ∃ r, get_next_pte l e a st = Some r ∧ gets l a st own r.
Proof.
  intros Hwf Ha Hl Hs Hnl. unfold get_next_pte. rewrite (ptr_read_ent _ _ _ _ _ Hwf Hs). cbn [mbind option_bind].
  pose proof (bw_ent _ _ Hwf l a Hl Ha) as He. destruct (own !! (l, apos (S l) a)) as [t|] eqn:Ho.
  - destruct (bw_table _ _ Hwf _ _ _ Ho) as (_ & _ & _ & Ht & _). destruct (pgtable_value t Ht) as (Hv1 & Hv2 & _).
    rewrite He, decide_True by done. rewrite Hv2. eexists. split; [done|]. exists own. by apply show_wf; [|lia|].
  - destruct He as [He|]; [|done]. rewrite He, decide_False by lia.
    assert (is_pow2 PAGE_SIZE) as Hp by by exists 12.
    destruct (alloc_from_memmap_spec _ PAGE_SIZE (bw_boot _ _ Hwf) (bw_early _ _ Hwf) Hp ltac:(done)) as (r & b & E & Hbo & Hmd & Hh & Hw).
    rewrite E. cbn [mbind option_bind]. destruct r as [x|]; [|eexists; split; [done|]; by exists (bt_boot st)].
    destruct Hh as [Hc _]. specialize (Hw x eq_refl). destruct Hs as (-> & tp & Htp & Hwin).
    destruct (bw_table _ _ Hwf _ _ _ Htp) as (_ & _ & [m Hm] & _). destruct (fresh_table _ _ _ Hwf Hc) as [Hok Hfresh].
    pose proof (Hfresh _ _ Htp) as Hne.
    unfold clear_table, ptr_write. cbn [show_table with_boot windows frames window_level window_index]. rewrite lookup_insert_eq. cbn [mbind option_bind].
    cbn [windows frames]. rewrite lookup_insert_ne by lia. rewrite Hwin. cbn [mbind option_bind]. rewrite lookup_insert_ne by done. rewrite Hm. cbn [mbind option_bind].
    eexists. split; [done|]. exists (<[(l, apos (S l) a) := x]> own). split_and!.
    + by eapply bgrow_wf.
    + split_and!; [by apply insert_subseteq|done|..].
      * intros k B t [[[= <- <-] <-]|[_ ?]]%lookup_insert_Some; [by right|by left].
      * intros k b'. erewrite (grow_ents st); try done. case_decide as Hd; [right|by left]. destruct Hd as [-> Hd]. split_and!; [lia|done| |by exists x].
        rewrite <-He. unfold bent. rewrite (same_entry _ _ _ Hd). destruct (own !! _); [|done]. by rewrite (index_ext (S l) b' a).
    + split; [done|]. exists x. cbn [windows]. by rewrite !lookup_insert_eq.
Qed.

Lemma then_next_spec st own l a prog :
  bpt_wf st own → haddr a → (1 <= l < M)%nat → ¬ leaf (S l) (bent st own (S l) a) →
  (∃ r, prog = Some r ∧ gets (S l) a st own r) → ∃ r, then_next l prog a = Some r ∧ gets l a st own r.
Proof.
  intros Hwf Ha Hl Hnl (r & -> & Hr). unfold then_next. cbn [mbind option_bind]. destruct r as [[e st1]|]; [|by exists None].
  destruct Hr as (own1 & Hwf1 & Hext & Hs). pose proof Hext as (_ & Hmd & _ & Hent).
  destruct (get_next_pte_spec st1 own1 l a e Hwf1 Ha Hl Hs) as (r & E & Hr).
  { destruct (Hent (S l) a) as [->|(? & _)]; [done|lia]. }
  exists r. split; [done|]. destruct r as [[e' st']|]; [|by eapply no_page_left_moves].
  destruct Hr as (own' & ? & ? & ?). exists own'. split_and!; try done. eapply (extends_trans l (S l)); [lia|done..].
Qed.

(** The way to the entry of level [l] meets no page. *)
Definition clear_above st own (l : nat) (a : Z) : Prop := ∀ k, (l < k <= M)%nat → ¬ leaf k (bent st own k a).

Lemma get_pe_spec st own l a :
  bpt_wf st own → haddr a → (1 <= l <= 3)%nat → clear_above st own l a →
  ∃ r, get_pe la57 l a st = Some r ∧ gets l a st own r.
Proof.
  intros Hwf Ha Hl Hclear.
  assert (slot_at st own M a (mkWslot M (pgtable_index a M))) as Htop.
  { split; [done|]. exists root. rewrite (haddr_root a Ha). split; apply Hwf. }
  assert (∃ r, get_p4e la57 a st = Some r ∧ gets 4 a st own r) as H4.
  { destruct top_cases as [[E HM]|[E HM]]; rewrite HM in Htop.
    - assert (get_p4e la57 a st = get_next_pte 4 (mkWslot 5 (pgtable_index a 5)) a st) as -> by (by rewrite E).
      apply get_next_pte_spec; [done|done|lia|done|]. apply Hclear. lia.
    - assert (get_p4e la57 a st = Some (Some (mkWslot 4 (pgtable_index a 4), st))) as -> by (by rewrite E).
      eexists. split; [done|]. exists own. split_and!; [done|apply extends_refl|done]. }
  assert (4 <= M)%nat by (destruct boot_M_cases; lia).
  assert (∃ r, get_p3e la57 a st = Some r ∧ gets 3 a st own r) as H3 by (apply then_next_spec; try done; [lia|apply Hclear; lia]).
  destruct (decide (l = 3%nat)) as [->|]; [done|].
  assert (∃ r, get_p2e la57 a st = Some r ∧ gets 2 a st own r) as H2 by (apply then_next_spec; try done; [lia|apply Hclear; lia]).
  destruct (decide (l = 2%nat)) as [->|]; [done|]. assert (l = 1%nat) as -> by lia.
  apply then_next_spec; try done; [lia|apply Hclear; lia].
Qed.

(** ** The page of an address *)

(** The entry of the highest level that maps a page. *)
Fixpoint scan (l : nat) st own (a : Z) : option (nat * Z) :=
  match l with
  | O => None
  | S l' => if decide (bent st own l a ≠ 0 ∧ (l' = O ∨ is_huge (bent st own l a) = true)) then Some (l, bent st own l a)
            else scan l' st own a
  end.

Lemma leaf_dec l v : leaf (S l) v ↔ v ≠ 0 ∧ (l = O ∨ is_huge v = true).
Proof. unfold leaf. split; intros [? [?|?]]; split; auto; left; lia. Qed.

Lemma scan_leaf l st own a k : (k < l)%nat → (∀ j, (S k < j <= l)%nat → ¬ leaf j (bent st own j a)) →
  leaf (S k) (bent st own (S k) a) → scan l st own a = Some (S k, bent st own (S k) a).
Proof.
  induction l as [|l IH]; intros Hk Hno Hleaf; [lia|]. cbn [scan]. destruct (decide (l = k)) as [->|Hne].
  - rewrite decide_True; [done|]. by apply leaf_dec.
  - rewrite decide_False by (rewrite <-leaf_dec; apply Hno; lia). apply IH; [lia| |done]. intros j Hj. apply Hno. lia.
Qed.

Lemma scan_none l st own a : scan l st own a = None ↔ ∀ j, (1 <= j <= l)%nat → ¬ leaf j (bent st own j a).
Proof.
  induction l as [|l IH]; cbn [scan]; [split; [lia|done]|]. case_decide as Hd.
  - split; [done|]. intros H. exfalso. apply (H (S l)); [lia|]. by apply leaf_dec.
  - rewrite IH. rewrite <-leaf_dec in Hd. split; intros H j Hj; [|apply H; lia].
    destruct (decide (j = S l)) as [->|]; [done|apply H; lia].
Qed.

(** Only the leaves matter. *)
Lemma scan_ext l st own st' own' a :
  (∀ j, (1 <= j <= l)%nat → (leaf j (bent st own j a) ↔ leaf j (bent st' own' j a)) ∧
     (leaf j (bent st own j a) → bent st' own' j a = bent st own j a)) →
  scan l st' own' a = scan l st own a.
Proof.
  induction l as [|l IH]; intros H; [done|]. cbn [scan]. destruct (H (S l) ltac:(lia)) as [H1 H2]. rewrite !leaf_dec in H1. rewrite leaf_dec in H2.
  destruct (decide (bent st own (S l) a ≠ 0 ∧ _)) as [Hd|Hd].
  - rewrite decide_True by tauto. by rewrite H2.
  - rewrite decide_False by tauto. apply IH. intros j Hj. apply H. lia.
Qed.

(** Below an entry that is zero or a page there is nothing. *)
Lemma below_empty st own l a :
  bpt_wf st own → haddr a → (1 <= l <= M)%nat → bent st own l a = 0 → ∀ j, (1 <= j < l)%nat → bent st own j a = 0.
Proof.
  intros Hwf Ha Hl Hz j Hj. induction l as [|l IH]; [lia|].
  assert (own !! (l, apos (S l) a) = None) as Hn.
  { pose proof (bw_ent _ _ Hwf l a ltac:(lia) Ha) as H. destruct (own !! (l, _)) as [t|] eqn:Ho; [|done]. exfalso.
    destruct (bw_table _ _ Hwf _ _ _ Ho) as (_ & _ & _ & Ht & _). apply (pgtable_value t Ht). congruence. }
  assert (bent st own l a = 0) as Hl' by (unfold bent; by rewrite Hn).
  destruct (decide (j = l)) as [->|]; [done|]. apply IH; [lia|done|lia].
Qed.

Lemma walk_scan st own l a t :
  bpt_wf st own → haddr a → (1 <= l <= M)%nat → own !! (l, apos (S l) a) = Some t →
  huge_walk l st t a = Some (scan l st own a).
Proof.
  intros Hwf Ha. revert t. induction l as [|l IH]; intros t Hl Ho; [lia|]. cbn [huge_walk].
  destruct (bw_table _ _ Hwf _ _ _ Ho) as (_ & _ & [m Hm] & _). rewrite Hm. cbn [mbind option_bind].
  assert (default 0 (m !! pgtable_index a (S l)) = bent st own (S l) a) as -> by (unfold bent; rewrite Ho; simpl; by rewrite Hm).
  cbn [scan]. destruct (decide (bent st own (S l) a = 0)) as [Hz|Hnz].
  - rewrite decide_False by tauto. f_equal. symmetry. apply scan_none. intros j Hj [Hn _]. apply Hn. by apply (below_empty st own (S l)); [..|lia].
  - destruct (decide (l = 0%nat ∨ is_huge (bent st own (S l) a) = true)) as [Hd|Hd]; [by rewrite decide_True|]. rewrite decide_False by tauto.
    pose proof (bw_ent _ _ Hwf l a ltac:(lia) Ha) as He. destruct (own !! (l, apos (S l) a)) as [t'|] eqn:Ho'.
    + destruct (bw_table _ _ Hwf _ _ _ Ho') as (_ & _ & _ & Ht & _). rewrite He. destruct (pgtable_value t' Ht) as (_ & -> & _). apply IH; [lia|done].
    + destruct He as [He|He]; [done|]. rewrite leaf_dec in He. tauto.
Qed.

(** The processor finds it. *)
Lemma lookup_scan st own a : bpt_wf st own → haddr a → lookup_page la57 st root a = Some (scan M st own a).
Proof.
  intros Hwf Ha. apply walk_scan; [done..|destruct boot_M_cases; lia|]. rewrite (haddr_root a Ha). apply Hwf.
Qed.

(** ** Mapping a page *)

Definition in_page (l : nat) (v a : Z) : Prop := v <= a < v + es l.

Lemma in_page_apos l v a : (es l | v) → in_page l v a ↔ apos l a = v.
Proof.
  intros Hd. split; [by apply apos_unique|]. intros <-. apply apos_bounds.
Qed.

Lemma bent_ext st own l a b : apos l a = apos l b → bent st own l a = bent st own l b.
Proof. intros H. unfold bent. rewrite (same_entry _ _ _ H). destruct (own !! _); [|done]. by rewrite (index_ext l a b). Qed.

Lemma pointer_not_leaf l t : (2 <= l)%nat → table_ok t → ¬ leaf l (Z.lor t PAGE_KERNEL_PGTABLE).
Proof. intros Hl Ht [_ [?|H]]; [lia|]. destruct (pgtable_value t Ht) as (_ & _ & E). congruence. Qed.

(** Nothing is in the way of a page of level [l] at [v]. *)
Definition page_free st own (l : nat) (v : Z) : Prop := bent st own l v = 0 ∧ clear_above st own l v.

(** The page [v] of level [l] was mapped by the entry [val]. *)
Record page_mapped (l : nat) (v val : Z) st own st' own' : Prop := {
  pm_wf : bpt_wf st' own';
  pm_own : own ⊆ own';
  pm_boot : moves_down (bt_boot st) (bt_boot st');
  pm_tables k B t : own' !! (k, B) = Some t → own !! (k, B) = Some t ∨ (l <= k)%nat ∧ B = apos (S k) v;
  pm_page a : in_page l v a → bent st' own' l a = val;
  pm_rest k a : k ≠ l ∨ ¬ in_page l v a → bent st' own' k a = bent st own k a ∨
    ((l < k)%nat ∧ apos k a = apos k v ∧ bent st own k a = 0 ∧ ∃ t, table_ok t ∧ bent st' own' k a = Z.lor t PAGE_KERNEL_PGTABLE);
}.

Lemma set_entry_spec st own l v val :
  bpt_wf st own → haddr v → (1 <= l <= 3)%nat → (es l | v) → page_free st own l v → leaf l val →
  ∃ r, set_entry la57 l v val (Some st) = Some r ∧
    match r with None => no_page_left (bt_boot st) | Some st' => ∃ own', page_mapped l v val st own st' own' end.
Proof.
  intros Hwf Hv Hl Hd [Hz Hclear] Hleaf. unfold set_entry.
  destruct (get_pe_spec st own l v Hwf Hv Hl Hclear) as (r & E & Hr). rewrite E. cbn [mbind option_bind].
  destruct r as [[e st1]|]; [|by exists None]. destruct Hr as (own' & Hwf1 & (H1 & H2 & H3 & H4) & Hs).
  assert (bent st1 own' l v = 0) as Hz1 by (destruct (H4 l v) as [->|(? & _)]; [done|lia]).
  destruct (write_leaf st1 own' l v e val Hwf1 Hs ltac:(destruct boot_M_cases; lia) Hz1 Hleaf) as (st' & E' & Hwf' & Hb & He).
  rewrite E'. cbn [mbind option_bind]. eexists. split; [done|]. exists own'. split; try done.
  - by rewrite Hb.
  - intros a Ha%in_page_apos; [|done]. rewrite He, decide_True; [done|]. by rewrite (apos_fixed l v).
  - intros k a Hk. rewrite He, decide_False; [apply H4|]. rewrite (apos_fixed l v) by done. rewrite <-in_page_apos by done. tauto.
Qed.

Lemma page_mapped_scan l v val st own st' own' a :
  page_mapped l v val st own st' own' → (1 <= l <= 3)%nat → (es l | v) → page_free st own l v → leaf l val →
  scan M st' own' a = if decide (v <= a < v + es l) then Some (l, val) else scan M st own a.
Proof.
  intros Hm Hl Hd [Hz Hclear] Hleaf. assert (4 <= M)%nat as HM by (destruct boot_M_cases; lia). case_decide as Hin.
  - destruct l as [|l]; [lia|]. rewrite <-(pm_page _ _ _ _ _ _ _ Hm a Hin) in *. apply scan_leaf; [lia| |done]. intros j Hj Hlf.
    apply in_page_apos in Hin; [|done]. assert (apos j a = apos j v) as Hp by (rewrite <-(apos_nested (S l) j a), Hin by lia; done).
    destruct (pm_rest _ _ _ _ _ _ _ Hm j a ltac:(lia)) as [E|(Hj' & _ & _ & t & Ht & E)]; rewrite E in Hlf.
    + apply (Hclear j ltac:(lia)). by rewrite <-(bent_ext st own j a v).
    + by eapply pointer_not_leaf; [| |exact Hlf]; [lia|].
  - apply scan_ext. intros j Hj. destruct (pm_rest _ _ _ _ _ _ _ Hm j a ltac:(right; exact Hin)) as [->|(Hj' & _ & Hz' & t & Ht & ->)]; [done|].
    rewrite Hz'. pose proof (pointer_not_leaf j t ltac:(lia) Ht). split; [split; [by intros []|done]|by intros []].
Qed.

(** A page further up stays free. *)
Lemma page_mapped_free l v val st own st' own' l' v' :
  page_mapped l v val st own st' own' → (1 <= l)%nat → (es l | v) → (es l' | v') → v + es l <= v' →
  page_free st own l' v' → page_free st' own' l' v'.
Proof.
  intros Hm Hl Hd Hd' Hlt [Hz Hclear]. pose proof (es_pos l).
  assert (¬ in_page l v v') as Hout by (unfold in_page; lia). split.
  - destruct (pm_rest _ _ _ _ _ _ _ Hm l' v' ltac:(by right)) as [->|(_ & Hp & _)]; [done|].
    rewrite (apos_fixed l' v') in Hp by done. pose proof (apos_bounds l' v). lia.
  - intros k Hk Hlf. destruct (pm_rest _ _ _ _ _ _ _ Hm k v' ltac:(by right)) as [E|(Hk' & _ & _ & t & Ht & E)]; rewrite E in Hlf.
    + by apply (Hclear k Hk).
    + by eapply pointer_not_leaf; [| |exact Hlf]; [lia|].
Qed.

(** ** Mapping a range *)

(** The range [lo] to [hi] was mapped with the pages [ps]. *)
Record range_mapped (value : nat → Z → Z) (lo hi : Z) (ps : list (nat * Z)) st own st' own' : Prop := {
  rm_wf : bpt_wf st' own';
  rm_own : own ⊆ own';
  rm_boot : moves_down (bt_boot st) (bt_boot st');
  rm_tables k B t : own' !! (k, B) = Some t → own !! (k, B) = Some t ∨ ∃ a, lo <= a < hi ∧ B = apos (S k) a;
  rm_page l v a : (l, v) ∈ ps → in_page l v a → scan M st' own' a = Some (l, value l v);
  rm_rest a : ¬ lo <= a < hi → scan M st' own' a = scan M st own a;
}.

Lemma tiles_above top lo hi ps l v : tiles top lo hi ps → (l, v) ∈ ps → lo <= v ∧ v + es l <= hi ∧ (1 <= l <= top)%nat ∧ (es l | v).
Proof.
  revert lo. induction ps as [|[l' v'] ps IH]; intros lo; simpl; [by intros _ []%not_elem_of_nil|].
  intros (-> & Hl & Hd & Ht) [[= -> ->]|Hin]%elem_of_cons.
  - split_and!; [lia| |lia..|done]. clear IH. revert Ht. generalize (lo + es l'). induction ps as [|[l2 v2] ps IH]; intros x; simpl; [lia|].
    intros (-> & _ & _ & Ht). apply IH in Ht. pose proof (es_pos l2). lia.
  - destruct (IH _ Ht Hin) as (? & ?). pose proof (es_pos l'). split; [lia|done].
Qed.

Lemma write_pages_spec flags delta top ps : (top <= 3)%nat → ∀ lo hi st own,
  bpt_wf st own → base <= lo → hi <= 2 ^ 64 → tiles top lo hi ps →
  (∀ l v, (l, v) ∈ ps → page_free st own l v ∧ leaf l (page_value flags delta l v)) →
  ∃ r, write_pages (set_entry la57) flags delta ps (Some st) = Some r ∧
    match r with
    | None => no_page_left (bt_boot st)
    | Some st' => ∃ own', range_mapped (page_value flags delta) lo hi ps st own st' own'
    end.
Proof.
  intros Htop. induction ps as [|[l v] ps IH]; intros lo hi st own Hwf Hlo Hhi Ht Hfree.
  { simpl in *. subst hi. eexists. split; [done|]. exists own. split; try done; [by left|]. by intros ??? []%not_elem_of_nil. }
  pose proof Ht as (-> & Hl & Hd & Ht'). pose proof (es_pos l).
  destruct (tiles_above _ _ _ _ l lo Ht ltac:(left)) as (_ & Hle & _).
  destruct (Hfree l lo ltac:(left)) as [Hf Hleaf].
  destruct (set_entry_spec st own l lo (page_value flags delta l lo)) as (r & E & Hr); try done; [split; lia|lia|].
  cbn [write_pages]. rewrite E. cbn [mbind option_bind]. destruct r as [st1|].
  2:{ exists None. split; [|done]. clear. induction ps as [|[??] ps IH]; [done|]. simpl. apply IH. }
  destruct Hr as (own1 & Hm). destruct (IH (lo + es l) hi st1 own1) as (r & E' & Hr'); [apply Hm|lia|done|done|..].
  { intros l' v' Hin. destruct (tiles_above _ _ _ _ l' v' Ht' Hin) as (? & _ & _ & ?). destruct (Hfree l' v' ltac:(by right)) as [? ?].
    split; [|done]. eapply page_mapped_free; try done. lia. }
  exists r. split; [done|]. destruct r as [st'|]; [|eapply no_page_left_moves; [apply Hm|done]]. destruct Hr' as (own' & Hr). exists own'.
  assert (∀ a, scan M st1 own1 a = if decide (lo <= a < lo + es l) then Some (l, page_value flags delta l lo) else scan M st own a) as Hscan.
  { intros a. eapply page_mapped_scan; try done. lia. }
  split.
  - apply Hr.
  - etrans; [apply Hm|apply Hr].
  - etrans; [apply Hm|apply Hr].
  - intros k B t Ho. destruct (rm_tables _ _ _ _ _ _ _ _ Hr _ _ _ Ho) as [Ho1|(a & Ha & ->)]; [|right; exists a; split; [lia|done]].
    destruct (pm_tables _ _ _ _ _ _ _ Hm _ _ _ Ho1) as [?|[_ ->]]; [by left|right; exists lo; split; [lia|done]].
  - intros l' v' a [[= -> ->]|Hin]%elem_of_cons Ha; [|by apply (rm_page _ _ _ _ _ _ _ _ Hr)].
    rewrite (rm_rest _ _ _ _ _ _ _ _ Hr a) by (unfold in_page in Ha; lia). by rewrite Hscan, decide_True.
  - intros a Ha. rewrite (rm_rest _ _ _ _ _ _ _ _ Hr a) by lia. by rewrite Hscan, decide_False by lia.
Qed.

(** ** What [identity_map] maps *)

(** Nothing is mapped in the range, and no table lies entirely in it. *)
Definition vacant st own (lo hi : Z) : Prop :=
  (∀ a, lo <= a < hi → lookup_page la57 st root a = Some None) ∧
  ∀ k B t, own !! (k, B) = Some t → ¬ (lo <= B ∧ B + es (S k) <= hi).

Lemma vacant_page_free st own lo hi top ps l v :
  bpt_wf st own → base <= lo → hi <= 2 ^ 64 → vacant st own lo hi → (top <= 3)%nat → tiles top lo hi ps → (l, v) ∈ ps → page_free st own l v.
Proof.
  intros Hwf Hlo Hhi [Hno Htab] Htop Ht Hin. destruct (tiles_above _ _ _ _ _ _ Ht Hin) as (H1 & H2 & H3 & H4). pose proof (es_pos l).
  assert (haddr v) as Hv by (split; lia). assert (4 <= M)%nat as HM by (destruct boot_M_cases; lia).
  specialize (Hno v ltac:(lia)). rewrite (lookup_scan st own v Hwf Hv) in Hno. injection Hno as Hno. rewrite scan_none in Hno.
  split; [|intros k Hk; apply Hno; lia]. specialize (Hno l ltac:(lia)).
  destruct (decide (bent st own l v = 0)) as [|Hnz]; [done|exfalso].
  destruct (decide (l = 1%nat)) as [->|Hne]; [apply Hno; by split; [|left]|]. destruct l as [|l]; [lia|].
  pose proof (bw_ent _ _ Hwf l v ltac:(lia) Hv) as He. destruct (own !! (l, apos (S l) v)) as [t|] eqn:Ho; [|tauto].
  rewrite (apos_fixed (S l) v) in Ho by done. by apply (Htab l v t Ho).
Qed.

(** Where a page of level [l] takes an address; the bits of a large page below
    its size are not part of the address. *)
Definition page_phys (l : nat) (val a : Z) : Z := apos l (phys_addr val) + a mod es l.

Lemma huge_flags_leaf flags : is_huge (huge_flags flags) = true.
Proof.
  unfold is_huge, huge_flags. case_decide as H; rewrite Z.lor_spec; [|by rewrite orb_true_r].
  rewrite orb_true_iff. left. destruct (Z.testbit flags 7) eqn:E; [done|]. exfalso. apply H. change PG_PAT with (2 ^ 7).
  apply Z.bits_inj'. intros n Hn. rewrite Z.land_spec, Z.pow2_bits_eqb, Z.bits_0 by lia. destruct (Z.eqb_spec 7 n) as [<-|]; [by rewrite E|by rewrite andb_false_r].
Qed.

Lemma page_value_leaf flags delta l v : Z.testbit flags 0 = true → (1 <= l)%nat → leaf l (page_value flags delta l v).
Proof.
  intros Hf Hl. unfold leaf, page_value. assert (∀ x y n, Z.testbit y n = true → Z.lor x y ≠ 0) as Hnz.
  { intros x y n Hy Hz. pose proof (Z.lor_spec x y n) as H. rewrite Hz, Hy, Z.bits_0, orb_true_r in H. done. }
  case_decide as Hd; [split; [by eapply Hnz|by left]|]. pose proof (huge_flags_leaf flags) as Hh. unfold is_huge in *.
  split; [by eapply Hnz|right]. by rewrite Z.lor_spec, Hh, orb_true_r.
Qed.

Lemma page_value_flags flags delta l v : Z.land (page_value flags delta l v) flags = flags.
Proof.
  unfold page_value, huge_flags. apply Z.bits_inj'. intros n Hn. rewrite Z.land_spec, Z.lor_spec.
  repeat case_decide; rewrite ?Z.lor_spec; destruct (Z.testbit flags n); rewrite ?orb_true_r, ?orb_true_l, ?andb_false_r; done.
Qed.

Lemma page_value_phys flags delta l v a :
  (1 <= l <= 3)%nat → (es l | v) → (es l | delta) → 0 <= v + delta → v + delta + es l <= 2 ^ 52 → Z.land flags PG_ADDR_MASK = 0 →
  in_page l v a → page_phys l (page_value flags delta l v) a = a + delta.
Proof.
  intros Hl Hdv Hdd H0 H52 Hf Ha. pose proof (es_pos l) as Hes. set (X := v + delta) in *.
  assert (es l | X) as HX by by apply Z.divide_add_r.
  assert (a mod es l = a - v) as Hmod.
  { destruct Hdv as [q ->]. symmetry. apply (Z.mod_unique_pos a (es l) q); unfold in_page in Ha; lia. }
  assert (apos l (phys_addr (page_value flags delta l v)) = X) as Hap.
  { unfold page_value. fold X. rewrite wrap_small by (split; lia). apply apos_unique; [done|].
    destruct (es_divide 1 l ltac:(lia)) as [q1 Hq1], HX as [q2 Hq2]. change (es 1) with 4096 in Hq1.
    assert (phys_addr X = X) as HpX.
    { assert (X = 4096 * (q2 * q1)) as E by lia. rewrite E. rewrite <-(Z.lor_0_r (4096 * (q2 * q1))) at 1. apply phys_addr_lor; [lia|done]. }
    unfold phys_addr in *. rewrite Z.land_lor_distr_l, HpX. case_decide as Hd; [rewrite Hf, Z.lor_0_r; lia|].
    unfold huge_flags. case_decide; rewrite Z.land_lor_distr_l, Hf, Z.lor_0_l; [|change (Z.land PG_HUGE PG_ADDR_MASK) with 0; rewrite Z.lor_0_r; lia].
    change (Z.land PG_PAT_HUGE PG_ADDR_MASK) with 4096. destruct (es_divide 2 l ltac:(lia)) as [q3 Hq3]. change (es 2) with (2 ^ 21) in Hq3.
    assert (Z.land X 4096 = 0) as Hlow; [|pose proof (Z.add_lor_land X 4096) as Hadd; rewrite Hlow in Hadd; rewrite Z.add_0_r in Hadd;
      assert (0 < q3) by nia; split; nia].
    replace X with (Z.shiftl (q2 * q3) 21) by (rewrite Z.shiftl_mul_pow2 by lia; lia).
    apply Z.bits_inj'. intros n Hn. rewrite Z.land_spec, Z.bits_0. change 4096 with (2 ^ 12). rewrite Z.pow2_bits_eqb by lia.
    destruct (Z.eqb_spec 12 n) as [<-|]; [|by rewrite andb_false_r]. by rewrite Z.shiftl_spec_low by lia. }
  unfold page_phys. rewrite Hap, Hmod. unfold X. lia.
Qed.

(** The whole of a call, in terms of the pages it maps. *)
Lemma identity_map_ranges st own virt phys size flags maxhuge :
  bpt_wf st own → base <= virt - virt mod 4096 → 0 < size < 2 ^ 63 → virt + size <= 2 ^ 64 → u64 phys → Z.testbit flags 0 = true →
  let V := virt - virt mod 4096 in
  let E := virt + size + (- (virt + size)) mod 4096 in
  vacant st own V E →
  ∃ ps r, tiles (Z.to_nat (Z.max 1 (Z.min maxhuge 3))) V E ps ∧
    identity_map (set_entry la57) virt phys size flags maxhuge (Some st) = Some r ∧
    match r with
    | None => no_page_left (bt_boot st)
    | Some st' => ∃ own', range_mapped (page_value flags (phys - phys mod 4096 - V)) V E ps st own st' own'
    end.
Proof.
  intros Hwf HV Hs Htop Hp Hf V E Hvac. assert (0 <= virt) as Hv.
  { pose proof kbase_nonneg. pose proof (Z.mod_pos_bound virt 4096 ltac:(lia)). lia. }
  destruct (identity_map_spec (set_entry la57) virt phys size flags maxhuge Hv Hs Htop Hp) as (ps & Ht & Heq).
  fold V in Ht, Heq. fold E in Ht. set (top := Z.to_nat _) in *. assert (top <= 3)%nat by lia.
  assert (E <= 2 ^ 64) as HE by (unfold E; Z.div_mod_to_equations; lia).
  destruct (write_pages_spec flags (phys - phys mod 4096 - V) top ps ltac:(done) V E st own Hwf HV HE Ht) as (r & Er & Hr).
  - intros l v Hin. split; [by eapply vacant_page_free|]. apply page_value_leaf; [done|].
    destruct (tiles_above _ _ _ _ _ _ Ht Hin) as (_ & _ & ? & _). lia.
  - exists ps, r. split_and!; [done|by rewrite Heq|done].
Qed.

(** Only the pages of the range [lo] to [hi] changed. *)
Record changes_only (lo hi : Z) st own st' own' : Prop := {
  co_wf : bpt_wf st' own';
  co_own : own ⊆ own';
  co_boot : moves_down (bt_boot st) (bt_boot st');
  co_tables k B t : own' !! (k, B) = Some t → own !! (k, B) = Some t ∨ ∃ a, lo <= a < hi ∧ B = apos (S k) a;
  co_rest a : ¬ lo <= a < hi → scan M st' own' a = scan M st own a;
}.

Lemma changes_trans lo hi st own st1 own1 st2 own2 :
  changes_only lo hi st own st1 own1 → changes_only lo hi st1 own1 st2 own2 → changes_only lo hi st own st2 own2.
Proof.
  intros [A1 A2 A3 A4 A5] [B1 B2 B3 B4 B5]. split; [done|by etrans|by etrans|..].
  - intros k B t Ho. destruct (B4 _ _ _ Ho) as [Ho'|]; [|by right]. by apply A4.
  - intros a Ha. by rewrite B5, A5.
Qed.

Lemma changes_wider lo hi lo' hi' st own st' own' :
  lo' <= lo → hi <= hi' → changes_only lo hi st own st' own' → changes_only lo' hi' st own st' own'.
Proof.
  intros H1 H2 [A1 A2 A3 A4 A5]. split; try done.
  - intros k B t Ho. destruct (A4 _ _ _ Ho) as [|(a & Ha & ->)]; [by left|right]. exists a. split; [lia|done].
  - intros a Ha. apply A5. lia.
Qed.

Lemma changes_refl lo hi st own : bpt_wf st own → changes_only lo hi st own st own.
Proof. intros Hwf. split; try done. by left. Qed.

Lemma changes_vacant lo hi st own st' own' lo' hi' :
  bpt_wf st own → changes_only lo hi st own st' own' → base <= lo' → hi' <= 2 ^ 64 → hi <= lo' ∨ hi' <= lo →
  vacant st own lo' hi' → vacant st' own' lo' hi'.
Proof.
  intros Hwf Hr Hlo Hhi Hdis [Hno Htab]. split.
  - intros a Ha. specialize (Hno a Ha). assert (haddr a) as Hh by (split; lia).
    rewrite (lookup_scan st own a Hwf Hh) in Hno. rewrite (lookup_scan st' own' a (co_wf _ _ _ _ _ _ Hr) Hh).
    rewrite (co_rest _ _ _ _ _ _ Hr a) by lia. done.
  - intros k B t Ho [H1 H2]. destruct (co_tables _ _ _ _ _ _ Hr _ _ _ Ho) as [Ho'|(a & Ha & ->)]; [by apply (Htab _ _ _ Ho')|].
    pose proof (apos_bounds (S k) a). lia.
Qed.

Lemma range_mapped_changes value lo hi ps st own st' own' :
  range_mapped value lo hi ps st own st' own' → changes_only lo hi st own st' own'.
Proof. intros [A1 A2 A3 A4 A5 A6]. by split. Qed.

Lemma tiles_cover top lo hi ps a : tiles top lo hi ps → lo <= a < hi → ∃ l v, (l, v) ∈ ps ∧ in_page l v a.
Proof.
  revert lo. induction ps as [|[l v] ps IH]; intros lo; simpl; [lia|]. intros (-> & _ & _ & Ht) Ha.
  destruct (decide (a < lo + es l)) as [Hlt|Hge]; [exists l, lo; split; [left|split; lia]|].
  destruct (IH _ Ht ltac:(lia)) as (l' & v' & Hin & Hpg). exists l', v'. split; [by right|done].
Qed.

(** The physical addresses behind a range. *)
Definition maps_range st (lo hi delta flags : Z) : Prop :=
  ∀ a, lo <= a < hi → ∃ l val, lookup_page la57 st root a = Some (Some (l, val)) ∧ page_phys l val a = a + delta ∧ Z.land val flags = flags.

Lemma range_mapped_maps flags delta top lo hi ps st own st' own' :
  range_mapped (page_value flags delta) lo hi ps st own st' own' → tiles top lo hi ps → (top <= 3)%nat → base <= lo → hi <= 2 ^ 64 →
  (es top | delta) → 0 <= lo + delta → hi + delta <= 2 ^ 52 → Z.land flags PG_ADDR_MASK = 0 →
  maps_range st' lo hi delta flags.
Proof.
  intros Hr Ht Htop Hlo Hhi Hd H0 H52 Hf a Ha. destruct (tiles_cover _ _ _ _ _ Ht Ha) as (l & v & Hin & Hpg).
  destruct (tiles_above _ _ _ _ _ _ Ht Hin) as (H1 & H2 & H3 & H4). exists l, (page_value flags delta l v).
  rewrite (lookup_scan st' own' a (rm_wf _ _ _ _ _ _ _ _ Hr)) by (split; lia). rewrite (rm_page _ _ _ _ _ _ _ _ Hr l v a Hin Hpg).
  split_and!; [done| |apply page_value_flags]. apply page_value_phys; try done; try lia.
  etrans; [|exact Hd]. apply es_divide. lia.
Qed.

End boot_pt.

(** ** The first state *)

Section boot_root.
Local Open Scope Z_scope.

Lemma boot_root_bent la57 root b l a : bent (boot_root la57 root b) {[(max_pgtable_level la57, kbase la57) := root]} l a = 0.
Proof.
  unfold bent. destruct (_ !! (l, _)) as [t|] eqn:E; [|done]. apply lookup_singleton_Some in E as [_ <-]. simpl. by rewrite lookup_singleton_eq.
Qed.

Lemma boot_root_wf la57 root b :
  boot_ok b → use_early_alloc b = false → memmap_alloc_wmark b <= 2 ^ 52 → (∃ bl, bl ∈ blockers b ∧ bl.1 <= root < bl.2) → table_ok root →
  bpt_wf la57 root (boot_root la57 root b) {[(max_pgtable_level la57, kbase la57) := root]}.
Proof.
  intros Hok He Hw Hbl Hroot. split; try done.
  - apply lookup_singleton_eq.
  - apply lookup_singleton_eq.
  - intros l B t [[= <- <-] <-]%lookup_singleton_Some. split_and!; try done; try lia; [destruct (boot_M_cases la57); lia|].
    simpl. by rewrite lookup_singleton_eq.
  - intros k1 k2 t [<- _]%lookup_singleton_Some [<- _]%lookup_singleton_Some. done.
  - intros l a Hl Ha. rewrite lookup_singleton_ne; [left; apply boot_root_bent|]. intros [= ? ?]. lia.
Qed.

Lemma boot_root_vacant la57 root b lo hi :
  bpt_wf la57 root (boot_root la57 root b) {[(max_pgtable_level la57, kbase la57) := root]} →
  kbase la57 <= lo → hi <= 2 ^ 64 → (kbase la57 < lo ∨ hi < 2 ^ 64) →
  vacant la57 root (boot_root la57 root b) {[(max_pgtable_level la57, kbase la57) := root]} lo hi.
Proof.
  intros Hwf Hlo Hhi Hpart. split.
  - intros a Ha. rewrite (lookup_scan _ _ _ _ a Hwf) by (split; lia). f_equal. apply scan_none. intros j _ [Hn _]. apply Hn, boot_root_bent.
  - intros k B t [[= <- <-] <-]%lookup_singleton_Some [H1 H2]. unfold kbase in *. lia.
Qed.

End boot_root.

Section boot_pt_claim.
Local Open Scope Z_scope.

(** C20. On well-formed boot page tables with a vacant range, [identity_map]
    through the windows terminates, never follows an entry that is not a
    table, and panics only when the boot allocator has no page left.
    Otherwise the tables stay well formed; every address of the range leads,
    by the processor's walk, to the physical address at the right distance
    with the flags asked for, whatever page sizes were chosen; every other
    address leads where it led before; and every other vacant range stays
    vacant. *)
Theorem identity_map_translates la57 root st own virt phys size flags maxhuge :
  let V := virt - virt mod 4096 in
  let E := virt + size + (- (virt + size)) mod 4096 in
  let delta := phys - phys mod 4096 - V in
  bpt_wf la57 root st own → kbase la57 <= V → 0 < size < 2 ^ 63 → virt + size <= 2 ^ 64 → vacant la57 root st own V E →
  0 <= phys → E + delta <= 2 ^ 52 → (es (Z.to_nat (Z.max 1 (Z.min maxhuge 3))) | delta) →
  Z.testbit flags 0 = true → Z.land flags PG_ADDR_MASK = 0 →
  ∃ r, identity_map (set_entry la57) virt phys size flags maxhuge (Some st) = Some r ∧
    match r with
    | None => no_page_left (bt_boot st)
    | Some st' => ∃ own', bpt_wf la57 root st' own' ∧ maps_range la57 root st' V E delta flags ∧
        (∀ a, haddr la57 a → ¬ V <= a < E → lookup_page la57 st' root a = lookup_page la57 st root a) ∧
        ∀ lo hi, kbase la57 <= lo → hi <= 2 ^ 64 → E <= lo ∨ hi <= V → vacant la57 root st own lo hi → vacant la57 root st' own' lo hi
    end.
Proof.
  intros V E delta Hwf HV Hs Htop Hvac Hp H52 Hd Hf Hm.
  assert (E <= 2 ^ 64 ∧ V < E) as [HE HVE] by (unfold E, V; Z.div_mod_to_equations; lia).
  assert (0 <= V + delta ∧ phys < 2 ^ 53) as [H0 Hp'] by (unfold delta in *; Z.div_mod_to_equations; lia).
  destruct (identity_map_ranges la57 root st own virt phys size flags maxhuge) as (ps & r & Ht & Er & Hr); try done; [split; lia|].
  exists r. split; [done|]. destruct r as [st'|]; [|done]. destruct Hr as (own' & Hr). exists own'. pose proof (rm_wf _ _ _ _ _ _ _ _ _ _ Hr) as Hwf'.
  split_and!; [done| | |].
  - eapply range_mapped_maps; try done. lia.
  - intros a Ha Hout. rewrite (lookup_scan _ _ st' own'), (lookup_scan _ _ st own) by done. by rewrite (rm_rest _ _ _ _ _ _ _ _ _ _ Hr).
  - intros lo hi Hlo Hhi Hdis. eapply changes_vacant; [done|by eapply range_mapped_changes|done..].
Qed.

Lemma identity_map_translates_witness :
  let st := boot_root false 0x200000 (example_boot 0 0x9f000) in
  ∃ r, identity_map (set_entry false) 0xffff800000100000 0x100000 0x3f00000 0x103 2 (Some st) = Some r ∧
    match r with
    | None => no_page_left (bt_boot st)
    | Some st' => maps_range false 0x200000 st' 0xffff800000100000 0xffff800004000000 (- 0xffff800000000000) 0x103
    end.
Proof.
  intros st.
  assert (bpt_wf false 0x200000 st {[(4%nat, kbase false) := 0x200000]}) as Hwf.
  { apply boot_root_wf; [apply example_boot_ok; lia|done|done| |exists 512; lia]. exists (0x200000, 0x400000). split; [left|simpl; lia]. }
  assert (vacant false 0x200000 st {[(4%nat, kbase false) := 0x200000]} 0xffff800000100000 0xffff800004000000) as Hvac.
  { apply boot_root_vacant; [exact Hwf|vm_compute; discriminate|lia|right; lia]. }
  destruct (identity_map_translates false 0x200000 st {[(4%nat, kbase false) := 0x200000]} 0xffff800000100000 0x100000 0x3f00000 0x103 2
    Hwf ltac:(vm_compute; discriminate) ltac:(lia) ltac:(lia) Hvac ltac:(lia) ltac:(vm_compute; discriminate) ltac:(by exists (- 0x7fffc000000))
    ltac:(reflexivity) ltac:(reflexivity)) as (r & E & Hr).
  exists r. split; [exact E|]. destruct r as [st'|]; [|exact Hr]. destruct Hr as (own' & _ & Hmaps & _). exact Hmaps.
Defined.

(** The last page of the example lies in the direct map. *)
Example example_direct_map :
  (r ← identity_map (set_entry false) 0xffff800000100000 0x100000 0x3f00000 0x103 2 (Some (boot_root false 0x200000 (example_boot 0 0x9f000)));
   st ← r; lookup_page false st 0x200000 0xffff800003fff123) = Some (Some (2%nat, 0x3e00183)).
Proof. vm_compute. reflexivity. Qed.

End boot_pt_claim.
