(* ===== verification/BootSetup.v ===== *)
(** * The direct map ([arch/x86/boot/setup.cc])

    [setup_memory] maps the memory of the firmware's map at [HHDM_OFFSET] and
    gives the part of the array [page_map] that describes it pages of its own,
    joining entries that follow each other.  The state is [None] after a panic
    ([BootPt]); the contents of pages that are not tables are not modelled. *)

From S2P Require Import Prelude Align PageAlloc Pgtable BootMem BootMap BootPt.

Section boot_setup_defs.
Local Open Scope Z_scope.
Context (la57 : bool) (x86_nx_bit : Z) (x86_max_phys_addr : Z) (maxhuge : Z).

Definition should_map (type : memory_type) : bool :=
  bool_decide (type = MEM_USABLE) || bool_decide (type = MEM_ACPI_RECLAIM) || bool_decide (type = MEM_BOOT_SERVICES).

Definition boot_HHDM_OFFSET : Z := if la57 then 0xff00000000000000 else 0xffff800000000000.
Definition boot_page_map : Z := if la57 then 0xff80000000000000 else 0xffffc00000000000.
Definition max_supported_ram : Z := min (if la57 then 0x80000000000000 else 0x400000000000) x86_max_phys_addr.

(** One iteration, for the page at [start] of the array. *)
Definition page_struct_step (start : Z) (st : bootpt) : option (option bootpt) :=
  r ← get_p1e la57 start st;
  match r with
  | None => Some None
  | Some (entry, st) =>
    v ← ptr_read st entry;
    if decide (v ≠ 0) then Some (Some st)
    else
      '(r, b) ← alloc_from_memmap (bt_boot st) PAGE_SIZE;
      match r with
      | None => Some None
      | Some value => st ← ptr_write (with_boot st b) entry (make_pte_k value (PAGE_KERNEL_DATA x86_nx_bit)); Some (Some st)
      end
  end.

Fixpoint page_struct_loop (fuel : nat) (start end_ : Z) (r : option bootpt) : option (option bootpt) :=
  if decide (start = end_) then Some r
  else
    match r, fuel with
    | None, _ => Some None
    | Some _, O => None
    | Some st, S fuel => r ← page_struct_step start st; page_struct_loop fuel (start +ᵤ PAGE_SIZE) end_ r
    end.

Definition setup_page_struct (start end_ : Z) (r : option bootpt) : option (option bootpt) :=
  let first := align_down (Z.pos (phys_to_page boot_page_map start)) PAGE_SIZE in
  let last := align_up (Z.pos (phys_to_page boot_page_map end_)) PAGE_SIZE in
  page_struct_loop (Z.to_nat ((last - first) / PAGE_SIZE)) first last r.

Definition map_region (mstart mend : Z) (r : option bootpt) : option (option bootpt) :=
  if decide (mstart ≠ mend) then
    r ← identity_map (set_entry la57) (boot_HHDM_OFFSET +ᵤ mstart) mstart (mend -ᵤ mstart) (PAGE_KERNEL_DATA x86_nx_bit) maxhuge r;
    setup_page_struct mstart mend r
  else Some r.

(** The loop over the memory map, and the region that is left at its end. *)
Fixpoint map_entries (entries : list memmap_entry) (mstart mend : Z) (r : option bootpt) : option (option bootpt) :=
  match entries with
  | [] => map_region mstart mend r
  | e :: entries =>
    if negb (should_map (memmap_entry_type e)) then map_entries entries mstart mend r
    else
      let estart := memmap_entry_start e in
      let eend := estart +ᵤ memmap_entry_size e in
      if decide (estart >= max_supported_ram) then map_entries entries mstart mend r
      else if decide (eend < max_supported_ram ∧ eend <= estart) then map_entries entries mstart mend r
      else
        let eend := if decide (eend >= max_supported_ram) then max_supported_ram else eend in
        if decide (estart = mend) then map_entries entries mstart eend r
        else
          r ← map_region mstart mend r;
          match r with None => Some None | Some _ => map_entries entries estart eend r end
  end.

Definition setup_direct_map (st : bootpt) : option (option bootpt) := map_entries (memmap (bt_boot st)) 0 0 (Some st).

End boot_setup_defs.

(** ** The array of page structures *)

Section page_struct.
Local Open Scope Z_scope.
Context (la57 : bool) (root x86_nx_bit : Z).
Abbreviation M := (max_pgtable_level la57).
Abbreviation base := (kbase la57).
Implicit Types (st : bootpt) (own : gmap (nat * Z) Z).

(** Pages of the array are mapped one by one. *)
Definition small_pages st own (lo hi : Z) : Prop := ∀ a, lo <= a < hi → ∀ l v, scan M st own a = Some (l, v) → l = 1%nat.

Lemma small_clear st own a : (∀ l v, scan M st own a = Some (l, v) → l = 1%nat) → clear_above la57 st own 1 a.
Proof.
  intros Hs k. remember (M - k)%nat as d eqn:Hd. revert k Hd. induction d as [d IH] using lt_wf_ind. intros k Hd Hk Hleaf.
  destruct k as [|k]; [lia|]. assert (S k = 1%nat); [|lia]. eapply Hs, scan_leaf; [lia| |done].
  intros j Hj. apply (IH (M - j)%nat); [lia|done|lia].
Qed.

(** Taking a page for data. *)
Lemma with_boot_wf st own b : bpt_wf la57 root st own → boot_ok b → moves_down (bt_boot st) b → bpt_wf la57 root (with_boot st b) own.
Proof.
  intros Hwf Hok (Hm1 & Hm2 & Hm3 & _ & _ & Hm4). pose proof (bw_low _ _ _ _ Hwf).
  split; try apply Hwf; simpl; try done; rewrite ?Hm2, ?Hm3; try apply Hwf; [lia|].
  intros l B t Ho. destruct (bw_table _ _ _ _ Hwf _ _ _ Ho) as (H1 & H2 & H3 & H4 & H5). split_and!; try done; try lia.
Qed.

(** What an iteration leaves at [v]: the page that was there, or a new one. *)
Definition filled_page st own st' own' (a : Z) : Prop :=
  match scan M st own a with
  | Some p => scan M st' own' a = Some p
  | None => ∃ x, candidate (bt_boot st) PAGE_SIZE x ∧ memmap_alloc_wmark (bt_boot st') <= x ∧
              scan M st' own' a = Some (1%nat, make_pte_k x (PAGE_KERNEL_DATA x86_nx_bit))
  end.

Lemma data_leaf x : leaf 1 (make_pte_k x (PAGE_KERNEL_DATA x86_nx_bit)).
Proof.
  split; [|by left]. unfold make_pte_k, PAGE_KERNEL_DATA. intros Hz.
  assert (Z.testbit (Z.lor x (if decide (Z.land (Z.lor (Z.lor (Z.lor PG_PRESENT PG_WRITE) PG_GLOBAL) x86_nx_bit) PG_PRESENT ≠ 0)
    then Z.lor (Z.lor (Z.lor (Z.lor PG_PRESENT PG_WRITE) PG_GLOBAL) x86_nx_bit) PG_GLOBAL
    else Z.lor (Z.lor (Z.lor PG_PRESENT PG_WRITE) PG_GLOBAL) x86_nx_bit)) 0 = true) as Hb.
  { case_decide; rewrite !Z.lor_spec; simpl; by rewrite ?orb_true_r. }
  rewrite Hz in Hb. done.
Qed.

Lemma extends_scan l v st own st' own' a : (1 <= l)%nat → extends l v st own st' own' → scan M st' own' a = scan M st own a.
Proof.
  intros Hl (_ & _ & _ & He). apply scan_ext. intros j Hj. destruct (He j a) as [->|(Hj' & _ & Hz & t & Ht & ->)]; [done|].
  rewrite Hz. pose proof (pointer_not_leaf j t ltac:(lia) Ht). split; [split; [by intros []|done]|by intros []].
Qed.

Lemma page_struct_step_spec st own v :
  bpt_wf la57 root st own → haddr la57 v → (es 1 | v) → clear_above la57 st own 1 v →
  ∃ r, page_struct_step la57 x86_nx_bit v st = Some r ∧
    match r with
    | None => no_page_left (bt_boot st)
    | Some st' => ∃ own', changes_only la57 root v (v + 4096) st own st' own' ∧ ∀ a, v <= a < v + 4096 → filled_page st own st' own' a
    end.
Proof.
  intros Hwf Hv Hd Hclear. pose proof (get_pe_spec la57 root st own 1 v Hwf Hv ltac:(lia) Hclear) as (r & E & Hr).
  unfold page_struct_step. change (get_p1e la57 v st) with (get_pe la57 1 v st). rewrite E. cbn [mbind option_bind].
  destruct r as [[e st1]|]; [|by exists None]. destruct Hr as (own1 & Hwf1 & Hext & Hs). pose proof Hext as (H1 & H2 & H3 & H4).
  rewrite (ptr_read_ent la57 root st1 own1 1 v e Hwf1 Hs). cbn [mbind option_bind].
  assert (bent st1 own1 1 v = bent st own 1 v) as Hb by (destruct (H4 1%nat v) as [->|(? & _)]; [done|lia]). rewrite Hb.
  assert (∀ a, v <= a < v + 4096 → apos 1 a = apos 1 v) as Hpage.
  { intros a Ha. rewrite (apos_fixed 1 v Hd). by apply apos_unique. }
  assert (∀ a, v <= a < v + 4096 → bent st own 1 v = 0 → scan M st own a = None) as Hnone.
  { intros a Ha Hz. apply scan_none. intros j Hj Hl. destruct (decide (j = 1%nat)) as [->|].
    - destruct Hl as [Hl _]. apply Hl. by rewrite (bent_ext st own 1 a v (Hpage a Ha)).
    - apply (Hclear j ltac:(lia)). rewrite <-(bent_ext st own j a v); [done|]. by rewrite <-(apos_nested 1 j a), (Hpage a Ha), apos_nested by lia. }
  assert (4 <= M)%nat as HM by (destruct (boot_M_cases la57); lia).
  destruct (decide (bent st own 1 v ≠ 0)) as [Hnz|Hz].
  - eexists. split; [done|]. exists own1. split.
    + split; [done..| |].
      * intros k B t Ho. destruct (H3 _ _ _ Ho) as [|[_ ->]]; [by left|right]. exists v. split; [lia|done].
      * intros a _. by apply (extends_scan 1 v).
    + intros a Ha. unfold filled_page. rewrite (extends_scan 1 v st own st1 own1 a) by done. destruct (scan M st own a) eqn:Es; [done|].
      exfalso. rewrite scan_none in Es. apply (Es 1%nat); [lia|]. split; [|by left]. by rewrite (bent_ext st own 1 a v (Hpage a Ha)).
  - assert (bent st own 1 v = 0) as Hz' by lia. assert (is_pow2 PAGE_SIZE) as Hp by by exists 12.
    destruct (alloc_from_memmap_spec _ PAGE_SIZE (bw_boot _ _ _ _ Hwf1) (bw_early _ _ _ _ Hwf1) Hp ltac:(done)) as (r & b & Ea & Hbo & Hmd & Hh & Hw).
    rewrite Ea. cbn [mbind option_bind]. destruct r as [x|].
    2:{ exists None. split; [done|]. eapply no_page_left_moves; [done|]. by exists (bt_boot st1). }
    destruct Hh as [Hc _]. specialize (Hw x eq_refl). pose proof (with_boot_wf st1 own1 b Hwf1 Hbo Hmd) as Hwf2.
    destruct (write_leaf la57 root (with_boot st1 b) own1 1 v e (make_pte_k x (PAGE_KERNEL_DATA x86_nx_bit)) Hwf2) as (st2 & Ew & Hwf3 & Hb2 & He2);
      [exact Hs|lia|by rewrite <-Hz', <-Hb|apply data_leaf|].
    rewrite Ew. cbn [mbind option_bind]. eexists. split; [done|]. exists own1.
    assert (page_mapped la57 root 1 v (make_pte_k x (PAGE_KERNEL_DATA x86_nx_bit)) st own st2 own1) as Hm.
    { split; [done..|by rewrite Hb2; etrans|by apply H3| |].
      - intros a Ha. rewrite He2, decide_True; [done|]. split; [done|]. by apply Hpage.
      - intros k a Hk. rewrite He2, decide_False; [apply H4|]. intros [-> Heq]. destruct Hk as [|Hk]; [done|]. apply Hk.
        apply in_page_apos; [done|]. by rewrite Heq, apos_fixed. }
    assert (∀ a, scan M st2 own1 a = if decide (v <= a < v + 4096) then Some (1%nat, make_pte_k x (PAGE_KERNEL_DATA x86_nx_bit)) else scan M st own a) as Hsc.
    { intros a. change 4096 with (es 1). eapply page_mapped_scan; [done|lia|done|by split|apply data_leaf]. }
    split.
    + split; [done..|by rewrite Hb2; etrans| |].
      * intros k B t Ho. destruct (H3 _ _ _ Ho) as [|[_ ->]]; [by left|right]. exists v. split; [lia|done].
      * intros a Ha. by rewrite Hsc, decide_False.
    + intros a Ha. unfold filled_page. rewrite (Hnone a Ha Hz'). exists x. split_and!; [by eapply candidate_mono|rewrite Hb2; simpl; lia|].
      by rewrite Hsc, decide_True.
Qed.

Context (Hnx : Z.land x86_nx_bit PG_ADDR_MASK = 0).

Lemma data_phys x : table_ok x → phys_addr (make_pte_k x (PAGE_KERNEL_DATA x86_nx_bit)) = x.
Proof.
  intros (n & Hn & ->). unfold make_pte_k. apply phys_addr_lor; [lia|].
  case_decide; unfold PAGE_KERNEL_DATA; rewrite !Z.land_lor_distr_l, Hnx; done.
Qed.

Lemma candidate_table_ok st own x : bpt_wf la57 root st own → candidate (bt_boot st) PAGE_SIZE x → table_ok x.
Proof. intros Hwf Hc. by apply (fresh_table la57 root st own x Hwf). Qed.

(** The array from [lo] to [hi] has its pages: those that were missing are new
    and different from each other. *)
Record filled (lo hi : Z) st own st' own' : Prop := {
  fi_changes : changes_only la57 root lo hi st own st' own';
  fi_page a : lo <= a < hi → filled_page st own st' own' a;
  fi_distinct a b : lo <= a < hi → lo <= b < hi → scan M st own a = None → scan M st own b = None →
    scan M st' own' a = scan M st' own' b → apos 1 a = apos 1 b;
}.

Lemma filled_page_later lo hi st own st1 own1 st2 own2 a :
  ¬ lo <= a < hi → changes_only la57 root lo hi st1 own1 st2 own2 → filled_page st own st1 own1 a → filled_page st own st2 own2 a.
Proof.
  intros Ha Hc. unfold filled_page. rewrite (co_rest _ _ _ _ _ _ _ _ Hc a Ha). destruct (scan M st own a); [done|].
  intros (x & H1 & H2 & H3). exists x. split_and!; try done. destruct (co_boot _ _ _ _ _ _ _ _ Hc) as (_ & _ & _ & _ & _ & ?). lia.
Qed.

Lemma filled_page_earlier lo hi st own st1 own1 st2 own2 a :
  ¬ lo <= a < hi → changes_only la57 root lo hi st own st1 own1 → filled_page st1 own1 st2 own2 a → filled_page st own st2 own2 a.
Proof.
  intros Ha Hc. unfold filled_page. rewrite (co_rest _ _ _ _ _ _ _ _ Hc a Ha). destruct (scan M st own a); [done|].
  intros (x & H1 & H2 & H3). exists x. split_and!; try done. eapply candidate_mono; [|done]. apply Hc.
Qed.

(** A page that was filled first differs from one that was filled later. *)
Lemma filled_apart lo hi lo' hi' st own st1 own1 st2 own2 a b :
  bpt_wf la57 root st own → changes_only la57 root lo hi st own st1 own1 → changes_only la57 root lo' hi' st1 own1 st2 own2 →
  ¬ lo' <= a < hi' → ¬ lo <= b < hi → filled_page st own st1 own1 a → filled_page st1 own1 st2 own2 b →
  scan M st own a = None → scan M st own b = None → scan M st2 own2 a ≠ scan M st2 own2 b.
Proof.
  intros Hwf Hc1 Hc2 Ha Hb Hfa Hfb Hna Hnb E. unfold filled_page in Hfa, Hfb. rewrite Hna in Hfa. rewrite (co_rest _ _ _ _ _ _ _ _ Hc1 b Hb), Hnb in Hfb.
  destruct Hfa as (x & Hx1 & Hx2 & Hx3), Hfb as (y & Hy1 & Hy2 & Hy3). rewrite (co_rest _ _ _ _ _ _ _ _ Hc2 a Ha), Hx3, Hy3 in E.
  injection E as E. apply (f_equal phys_addr) in E.
  rewrite data_phys in E by (by eapply candidate_table_ok). rewrite data_phys in E by (eapply (candidate_table_ok st1); [apply Hc1|done]).
  subst y. destruct Hy1 as (_ & _ & Hy1 & _). unfold PAGE_SIZE in Hy1. lia.
Qed.

Lemma filled_trans lo mid hi st own st1 own1 st2 own2 :
  bpt_wf la57 root st own → lo <= mid <= hi → (es 1 | mid) → filled lo mid st own st1 own1 → filled mid hi st1 own1 st2 own2 → filled lo hi st own st2 own2.
Proof.
  intros Hwf Hm Hd [A1 A2 A3] [B1 B2 B3]. split.
  - eapply changes_trans; [by eapply (changes_wider _ _ lo mid); [..|exact A1]; lia|by eapply (changes_wider _ _ mid hi); [..|exact B1]; lia].
  - intros a Ha. destruct (decide (a < mid)).
    + eapply filled_page_later; [|exact B1|apply A2]; lia.
    + eapply filled_page_earlier; [|exact A1|apply B2]; lia.
  - intros a b Ha Hb Hna Hnb E. destruct (decide (a < mid)), (decide (b < mid)).
    + apply A3; [lia|lia|done|done|]. by rewrite <-!(co_rest _ _ _ _ _ _ _ _ B1) by lia.
    + exfalso. eapply (filled_apart lo mid mid hi st own st1 own1 st2 own2 a b); try done; try lia; [apply A2; lia|apply B2; lia].
    + exfalso. eapply (filled_apart lo mid mid hi st own st1 own1 st2 own2 b a); try done; try lia; [apply A2; lia|apply B2; lia].
    + apply B3; [lia|lia| | |done]; by rewrite (co_rest _ _ _ _ _ _ _ _ A1) by lia.
Qed.

Lemma page_struct_loop_spec (n : nat) : ∀ fuel st own v,
  (n <= fuel)%nat → bpt_wf la57 root st own → base <= v → (es 1 | v) → v + Z.of_nat n * 4096 < 2 ^ 64 →
  small_pages st own v (v + Z.of_nat n * 4096) →
  ∃ r, page_struct_loop la57 x86_nx_bit fuel v (v + Z.of_nat n * 4096) (Some st) = Some r ∧
    match r with
    | None => no_page_left (bt_boot st)
    | Some st' => ∃ own', filled v (v + Z.of_nat n * 4096) st own st' own'
    end.
Proof.
  pose proof (kbase_nonneg la57). induction n as [|n IH]; intros fuel st own v Hf Hwf Hv Hd Htop Hs.
  { rewrite Z.add_0_r. exists (Some st). split; [destruct fuel; simpl; by rewrite decide_True|]. exists own.
    split; [by apply changes_refl|lia..]. }
  destruct fuel as [|fuel]; [lia|]. cbn [page_struct_loop]. rewrite decide_False by lia.
  destruct (page_struct_step_spec st own v Hwf) as (r & E & Hr); [split; lia|done|apply small_clear; apply Hs; lia|].
  rewrite E. cbn [mbind option_bind]. unfold add64. rewrite wrap_small by (unfold PAGE_SIZE; split; lia).
  destruct r as [st1|]; [|exists None; split; [destruct fuel; simpl; by case_decide|done]].
  destruct Hr as (own1 & Hc & Hp).
  replace (v + Z.of_nat (S n) * 4096) with (v + 4096 + Z.of_nat n * 4096) in * by lia.
  destruct (IH fuel st1 own1 (v + 4096)) as (r & E' & Hr'); [lia|apply Hc|lia|by apply Z.divide_add_r; [|by exists 1]|lia| |].
  { intros a Ha l w Hsc. rewrite (co_rest _ _ _ _ _ _ _ _ Hc) in Hsc by lia. eapply Hs; [|done]. lia. }
  exists r. split; [done|]. destruct r as [st2|]; [|eapply no_page_left_moves; [apply Hc|done]]. destruct Hr' as (own2 & Hfi). exists own2.
  eapply (filled_trans v (v + 4096)); [done|lia|by apply Z.divide_add_r; [|by exists 1]| |done].
  split; [done|done|]. intros a b Ha Hb _ _ _. rewrite (apos_unique 1 a v), (apos_unique 1 b v) by done. done.
Qed.

End page_struct.

(** ** Regions *)

Section regions.
Local Open Scope Z_scope.
Context (la57 : bool) (root x86_nx_bit x86_max_phys_addr maxhuge : Z).
Context (Hnx : Z.land x86_nx_bit PG_ADDR_MASK = 0).
Context (Hmax : 0 < x86_max_phys_addr <= 2 ^ 52) (Hmaxal : (4096 | x86_max_phys_addr)).
Abbreviation M := (max_pgtable_level la57).
Abbreviation base := (kbase la57).
Abbreviation HH := (boot_HHDM_OFFSET la57).
Abbreviation PM := (boot_page_map la57).
Abbreviation ram := (max_supported_ram la57 x86_max_phys_addr).
Abbreviation DATA := (PAGE_KERNEL_DATA x86_nx_bit).
Implicit Types (st : bootpt) (own : gmap (nat * Z) Z).

(** Where the page structure of an address begins, and the end of the array. *)
Definition struct_addr (p : Z) : Z := PM + 64 * (p / 4096).
Definition array_end : Z := PM + ram / 64 + 4096.

(** The direct map, the array and their bounds. *)
Lemma layout_facts : base <= HH ∧ HH + ram <= PM ∧ array_end + 4096 < 2 ^ 64 ∧ 0 < ram <= 2 ^ 52 ∧ (4096 | ram) ∧ (2 ^ 30 | HH) ∧ 0 < HH ∧ (4096 | PM).
Proof.
  assert (0 < ram <= 2 ^ 52 ∧ (4096 | ram) ∧ HH + ram <= PM ∧ ram <= PM - HH) as (H1 & H2 & H3 & H4).
  { assert (4096 | if la57 then 0x80000000000000 else 0x400000000000) as Hcap by (destruct la57; [by exists (2 ^ 43)|by exists (2 ^ 34)]).
    unfold max_supported_ram, boot_HHDM_OFFSET, boot_page_map. rewrite min_spec. split_and!; try (destruct la57; lia).
    by apply Z.min_case. }
  split_and!; try done; try lia.
  - unfold kbase, boot_HHDM_OFFSET. destruct la57; vm_compute; discriminate.
  - unfold array_end. assert (ram / 64 <= (PM - HH) / 64) by (apply Z.div_le_mono; lia).
    assert (PM + (PM - HH) / 64 + 8192 < 2 ^ 64) by (unfold boot_HHDM_OFFSET, boot_page_map; by destruct la57). lia.
  - unfold boot_HHDM_OFFSET. destruct la57; [by exists 0x3fc000000|by exists 0x3fffe0000].
  - unfold boot_HHDM_OFFSET. by destruct la57.
  - unfold boot_page_map. destruct la57; [by exists 0xff80000000000|by exists 0xffffc00000000].
Qed.

(** The pages of the array that describe a region. *)
Lemma struct_bounds mstart mend : 0 <= mstart < mend → mend <= ram → (4096 | mstart) → (4096 | mend) →
  let first := align_down (Z.pos (phys_to_page PM mstart)) PAGE_SIZE in
  let last := align_up (Z.pos (phys_to_page PM mend)) PAGE_SIZE in
  PM <= first ∧ last <= array_end ∧ first < last ∧ (4096 | first) ∧ (4096 | last) ∧
  ∀ p, mstart <= p < mend → first <= struct_addr p ∧ struct_addr p + 64 <= last.
Proof.
  intros Hm Hle [q1 Hq1] [q2 Hq2]. destruct layout_facts as (_ & _ & Htop & Hr & _ & _ & HH0 & Hpm).
  assert (HH + ram <= PM) as Hpmr by apply layout_facts. unfold array_end in *.
  assert (∀ x, 0 <= x → x <= ram → Z.pos (phys_to_page PM x) = struct_addr x) as Hsa.
  { intros x Hx Hx'. unfold phys_to_page, pfn_to_page, phys_to_pfn, struct_addr. rewrite Z2Pos.id; [done|]. assert (0 <= x / 4096) by (apply Z.div_pos; lia). change PAGE_SIZE with 4096. lia. }
  assert (∀ x y, x <= y → struct_addr x <= struct_addr y) as Hmono.
  { intros x y Hxy. unfold struct_addr. pose proof (Z.div_le_mono x y 4096 ltac:(lia) Hxy). lia. }
  assert (struct_addr ram <= PM + ram / 64) as Hcap.
  { unfold struct_addr. Z.div_mod_to_equations; lia. }
  rewrite !Hsa by lia. pose proof (Hmono 0 mstart ltac:(lia)) as Hs0. pose proof (Hmono mend ram ltac:(lia)) as Hs1. change (struct_addr 0) with (PM + 64 * (0 / 4096)) in Hs0. rewrite Z.div_0_l in Hs0 by lia.
  assert (struct_addr mstart + 64 <= struct_addr mend) as Hlt.
  { unfold struct_addr. rewrite Hq1, Hq2, !Z.div_mul by lia. nia. }
  destruct (page_down_bounds (struct_addr mstart)) as [Hd1 Hd2]; [split; lia|]. destruct (page_up_bounds (struct_addr mend)) as [Hu1 Hu2]; [split; lia|].
  unfold page_down in *. unfold page_up in *. cbv zeta. set (first := align_down _ _) in *. set (last := align_up _ _) in *.
  split_and!; [|lia|lia|by apply Z.mod_divide|by apply Z.mod_divide|].
  - destruct Hpm as [q Hq]. unfold first. rewrite align_down_eq by (apply page_pow2 || split; lia). change PAGE_SIZE with 4096.
    Z.div_mod_to_equations; lia.
  - intros p Hp. pose proof (Hmono mstart p ltac:(lia)). split; [lia|]. etrans; [|apply Hu1].
    unfold struct_addr. rewrite Hq2, Z.div_mul by lia. assert (p / 4096 < q2) by (apply Z.div_lt_upper_bound; lia). lia.
Qed.

(** ** A region is mapped *)

(** Everything in the direct map and in the array is fine from here on: the
    array has small pages only, and the direct map is vacant from [lo] on. *)
Record ready (lo : Z) st own : Prop := {
  rd_wf : bpt_wf la57 root st own;
  rd_small : small_pages la57 st own PM array_end;
  rd_vacant : vacant la57 root st own (HH + lo) (HH + ram);
}.

(** The physical address [p] is in the direct map, with its page structure. *)
Definition direct st own (p : Z) : Prop :=
  (∃ l val, scan M st own (HH + p) = Some (l, val) ∧ page_phys l val (HH + p) = p ∧ Z.land val DATA = DATA) ∧
  ∀ a, struct_addr p <= a < struct_addr p + 64 → ∃ val, scan M st own a = Some (1%nat, val).

(** Nothing outside the direct map from [lo] to [hi] and the array changes,
    and no page of the array goes away. *)
Record between (lo hi : Z) st own st' own' : Prop := {
  bt_moves : moves_down (bt_boot st) (bt_boot st');
  bt_rest a : ¬ HH + lo <= a < HH + hi → ¬ PM <= a < array_end → scan M st' own' a = scan M st own a;
  bt_array a pg : PM <= a < array_end → scan M st own a = Some pg → scan M st' own' a = Some pg;
}.

Lemma between_trans lo mid hi st own st1 own1 st2 own2 :
  lo <= mid <= hi → between lo mid st own st1 own1 → between mid hi st1 own1 st2 own2 → between lo hi st own st2 own2.
Proof.
  intros Hm [A1 A2 A3] [B1 B2 B3]. split; [by etrans|..].
  - intros a H1 H2. by rewrite B2, A2 by (done || lia).
  - intros a pg H1 H2. apply B3; [done|]. by apply A3.
Qed.

Lemma direct_later lo hi st own st' own' p :
  0 <= p < lo → lo <= ram → hi <= ram → between lo hi st own st' own' → direct st own p → direct st' own' p.
Proof.
  intros Hp Hlo Hhi [B1 B2 B3] [(l & val & H1 & H2) H3]. destruct layout_facts as (_ & Hle & _). split.
  - exists l, val. split; [|done]. rewrite B2; [done|lia|lia].
  - intros a Ha. destruct (H3 a Ha) as [val' Hv]. exists val'. apply B3; [|done]. unfold struct_addr, array_end in *.
    Z.div_mod_to_equations; lia.
Qed.

Lemma vacant_sub st own lo hi lo' hi' : lo <= lo' → hi' <= hi → vacant la57 root st own lo hi → vacant la57 root st own lo' hi'.
Proof.
  intros H1 H2 [Hno Htab]. split; [intros a Ha; apply Hno; lia|]. intros k B t Ho [? ?]. apply (Htab _ _ _ Ho). lia.
Qed.

Lemma data_flags : Z.testbit DATA 0 = true ∧ Z.land DATA PG_ADDR_MASK = 0.
Proof. unfold PAGE_KERNEL_DATA. split; [by rewrite !Z.lor_spec|]. by rewrite !Z.land_lor_distr_l, Hnx. Qed.

(** The first half of [map_region]. *)
Lemma map_direct_spec st own mstart mend :
  bpt_wf la57 root st own → vacant la57 root st own (HH + mstart) (HH + mend) →
  0 <= mstart < mend → mend <= ram → (4096 | mstart) → (4096 | mend) →
  ∃ r, identity_map (set_entry la57) (HH +ᵤ mstart) mstart (mend -ᵤ mstart) DATA maxhuge (Some st) = Some r ∧
    match r with
    | None => no_page_left (bt_boot st)
    | Some st' => ∃ own', changes_only la57 root (HH + mstart) (HH + mend) st own st' own' ∧
        maps_range la57 root st' (HH + mstart) (HH + mend) (- HH) DATA
    end.
Proof.
  intros Hwf Hvac Hm Hle [q1 Hq1] [q2 Hq2]. destruct layout_facts as (Hb & Hpm & Htop & Hr & _ & [q0 Hq0] & HH0 & _). destruct data_flags as [Hf1 Hf2].
  unfold array_end in Htop. assert (0 <= ram / 64) by (apply Z.div_pos; lia). rewrite add64_small, sub64_small by lia.
  assert ((HH + mstart) mod 4096 = 0 ∧ mstart mod 4096 = 0) as [Hm1 Hm2] by (split; Z.div_mod_to_equations; lia).
  assert ((- (HH + mstart + (mend - mstart))) mod 4096 = 0) as Hm3 by (Z.div_mod_to_equations; lia).
  destruct (identity_map_ranges la57 root st own (HH + mstart) mstart (mend - mstart) DATA maxhuge) as (ps & r & Ht & E & Hr');
    rewrite ?Hm1, ?Hm2, ?Hm3 in *; try done; try lia; [split; lia|by rewrite Z.sub_0_r, Z.add_0_r; replace (HH + mstart + (mend - mstart)) with (HH + mend) by lia|].
  rewrite !Z.sub_0_r, Z.add_0_r in *. replace (HH + mstart + (mend - mstart)) with (HH + mend) in * by lia.
  replace (mstart - (HH + mstart)) with (- HH) in * by lia. exists r. split; [done|]. destruct r as [st'|]; [|done].
  destruct Hr' as (own' & Hr'). exists own'. split; [by eapply range_mapped_changes|].
  eapply range_mapped_maps; try done; try lia. apply Z.divide_opp_r.
  etrans; [apply (es_divide _ 3); lia|]. by exists q0.
Qed.

Lemma map_region_spec st own mstart mend :
  ready mstart st own → 0 <= mstart < mend → mend <= ram → (4096 | mstart) → (4096 | mend) →
  ∃ r, map_region la57 x86_nx_bit maxhuge mstart mend (Some st) = Some r ∧
    match r with
    | None => no_page_left (bt_boot st)
    | Some st' => ∃ own', ready mend st' own' ∧ between mstart mend st own st' own' ∧ ∀ p, mstart <= p < mend → direct st' own' p
    end.
Proof.
  intros [Hwf Hsm Hvac] Hm Hle Ha1 Ha2. pose proof layout_facts as (Hb & Hpm & Htop & Hr & _ & _ & HH0 & _). unfold map_region. rewrite decide_True by lia.
  destruct (map_direct_spec st own mstart mend Hwf) as (r & E & Hr'); try done; [by eapply vacant_sub; [| |exact Hvac]; lia|].
  rewrite E. cbn [mbind option_bind]. destruct (struct_bounds mstart mend Hm Hle Ha1 Ha2) as (Hs1 & Hs2 & Hs3 & Hs4 & Hs5 & Hs6).
  unfold setup_page_struct. set (first := align_down _ _) in *. set (last := align_up _ _) in *.
  destruct r as [st1|]; [|exists None; split; [by destruct (Z.to_nat _); simpl; case_decide|done]].
  destruct Hr' as (own1 & Hc1 & Hmaps). assert (small_pages la57 st1 own1 PM array_end) as Hsm1.
  { intros a Ha l v Hsc. rewrite (co_rest _ _ _ _ _ _ _ _ Hc1) in Hsc by lia. by eapply Hsm. }
  assert (first + Z.of_nat (Z.to_nat ((last - first) / PAGE_SIZE)) * 4096 = last) as Hlast.
  { destruct Hs4 as [k1 ->], Hs5 as [k2 ->]. change PAGE_SIZE with 4096. rewrite <-Z.mul_sub_distr_r, Z.div_mul, Z2Nat.id by lia. lia. }
  destruct (page_struct_loop_spec la57 root x86_nx_bit Hnx (Z.to_nat ((last - first) / PAGE_SIZE)) (Z.to_nat ((last - first) / PAGE_SIZE)) st1 own1 first)
    as (r & E' & Hr'); rewrite ?Hlast; try done; try lia; [apply Hc1|intros a Ha; apply Hsm1; lia|].
  rewrite Hlast in E', Hr'. exists r. split; [done|]. destruct r as [st'|]; [|eapply no_page_left_moves; [apply Hc1|done]].
  destruct Hr' as (own' & [Hc2 Hpage _]). exists own'.
  assert (∀ a, ¬ first <= a < last → scan M st' own' a = scan M st1 own1 a) as Hrest2 by apply Hc2.
  split_and!.
  - split; [apply Hc2| |].
    + intros a Ha l v Hsc. destruct (decide (first <= a < last)) as [Hin|Hout]; [|rewrite Hrest2 in Hsc by done; by eapply Hsm1].
      specialize (Hpage a Hin). unfold filled_page in Hpage. destruct (scan M st1 own1 a) as [[l' v']|] eqn:Es.
      * rewrite Hpage in Hsc. injection Hsc as -> ->. by eapply Hsm1.
      * destruct Hpage as (x & _ & _ & Hx). congruence.
    + eapply (changes_vacant la57 root first last); [apply Hc1|done|lia|lia|lia|]. eapply (changes_vacant la57 root (HH + mstart) (HH + mend)); [done|done|lia|lia|lia|].
      eapply vacant_sub; [| |exact Hvac]; lia.
  - split; [etrans; [apply Hc1|apply Hc2]|..].
    + intros a H1 H2. rewrite Hrest2 by lia. by apply Hc1.
    + intros a pg H1 H2. assert (scan M st1 own1 a = Some pg) as H3 by (rewrite (co_rest _ _ _ _ _ _ _ _ Hc1); [done|lia]).
      destruct (decide (first <= a < last)) as [Hin|Hout]; [|by rewrite Hrest2]. specialize (Hpage a Hin). unfold filled_page in Hpage. by rewrite H3 in Hpage.
  - intros p Hp. split.
    + destruct (Hmaps (HH + p) ltac:(lia)) as (l & val & Hl & Hph & Hfl). exists l, val.
      rewrite (lookup_scan la57 root st1 own1) in Hl by (apply Hc1 || split; lia). injection Hl as Hl.
      rewrite Hrest2 by lia. split_and!; [done|rewrite Hph; lia|done].
    + intros a Ha. destruct (Hs6 p Hp) as [? ?]. assert (first <= a < last) as Hin by lia. specialize (Hpage a Hin). unfold filled_page in Hpage.
      destruct (scan M st1 own1 a) as [[l v]|] eqn:Es; [|destruct Hpage as (x & _ & _ & Hx); by eexists].
      exists v. rewrite Hpage. f_equal. f_equal. by eapply (Hsm1 a ltac:(lia)).
Qed.

(** ** The entries of the memory map *)

(** The part of an entry that is mapped. *)
Definition clipped (e : memmap_entry) : option (Z * Z) :=
  let estart := memmap_entry_start e in
  let eend := estart +ᵤ memmap_entry_size e in
  if should_map (memmap_entry_type e) && bool_decide (estart < ram) && bool_decide (estart < eend ∨ ram <= eend)
  then Some (estart, Z.min eend ram) else None.

(** The entries that are mapped consist of pages and are in the order of their
    addresses. *)
Fixpoint ordered (lo : Z) (entries : list memmap_entry) : Prop :=
  match entries with
  | [] => True
  | e :: entries =>
    match clipped e with
    | Some (s, t) => lo <= s ∧ (4096 | s) ∧ (4096 | t) ∧ ordered t entries
    | None => ordered lo entries
    end
  end.

Definition covered (entries : list memmap_entry) (p : Z) : Prop := ∃ e s t, e ∈ entries ∧ clipped e = Some (s, t) ∧ s <= p < t.

Lemma clipped_bounds e s t : clipped e = Some (s, t) → s < t <= ram.
Proof.
  unfold clipped. destruct (should_map _ && _ && _) eqn:E; [|done]. intros [= <- <-].
  rewrite !andb_true_iff, !bool_decide_eq_true in E. lia.
Qed.

Lemma covered_cons e entries p :
  covered (e :: entries) p ↔ (∃ s t, clipped e = Some (s, t) ∧ s <= p < t) ∨ covered entries p.
Proof.
  split.
  - intros (e' & s & t & [->|Hin]%elem_of_cons & Hc & Hp); [left; by exists s, t|right; by exists e', s, t].
  - intros [(s & t & Hc & Hp)|(e' & s & t & Hin & Hc & Hp)]; [exists e, s, t|exists e', s, t]; (split; [set_solver|done]).
Qed.

Lemma ordered_above lo entries p : ordered lo entries → covered entries p → lo <= p.
Proof.
  revert lo. induction entries as [|e entries IH]; intros lo Ho Hc; [by destruct Hc as (? & ? & ? & []%not_elem_of_nil & _)|].
  apply covered_cons in Hc. simpl in Ho. destruct (clipped e) as [[s t]|] eqn:Ec.
  - destruct Ho as (H1 & _ & _ & H2). pose proof (clipped_bounds _ _ _ Ec). destruct Hc as [(s' & t' & [= <- <-] & Hp)|Hc]; [lia|]. specialize (IH _ H2 Hc). lia.
  - destruct Hc as [(? & ? & [=] & _)|Hc]. by apply IH.
Qed.

(** The step of the loop, by what is left of the entry. *)
Lemma map_entries_cons e entries mstart mend r :
  map_entries la57 x86_nx_bit x86_max_phys_addr maxhuge (e :: entries) mstart mend r =
  match clipped e with
  | None => map_entries la57 x86_nx_bit x86_max_phys_addr maxhuge entries mstart mend r
  | Some (s, t) =>
    if decide (s = mend) then map_entries la57 x86_nx_bit x86_max_phys_addr maxhuge entries mstart t r
    else r ← map_region la57 x86_nx_bit maxhuge mstart mend r;
         match r with None => Some None | Some _ => map_entries la57 x86_nx_bit x86_max_phys_addr maxhuge entries s t r end
  end.
Proof.
  cbn [map_entries]. unfold clipped. destruct (should_map (memmap_entry_type e)); cbn [negb andb]; [|done].
  set (eend := _ +ᵤ _). destruct (decide (memmap_entry_start e >= ram)); [by rewrite bool_decide_false by lia|]. rewrite bool_decide_true by lia. cbn [andb].
  destruct (decide (eend < ram ∧ eend <= memmap_entry_start e)); [by rewrite bool_decide_false by lia|]. rewrite bool_decide_true by lia.
  replace (if decide (eend >= ram) then ram else eend) with (Z.min eend ram) by (case_decide; lia). done.
Qed.

(** What the loop has to do from here on was done. *)
Record all_mapped (entries : list memmap_entry) (mstart mend : Z) st own st' own' : Prop := {
  am_wf : bpt_wf la57 root st' own';
  am_between : between mstart ram st own st' own';
  am_direct p : mstart <= p < mend ∨ covered entries p → direct st' own' p;
  am_none p : mend <= p < ram → ¬ covered entries p → scan M st' own' (HH + p) = None;
}.

Lemma vacant_scan st own lo hi a : bpt_wf la57 root st own → base <= lo → hi <= 2 ^ 64 → vacant la57 root st own lo hi → lo <= a < hi → scan M st own a = None.
Proof.
  intros Hwf Hlo Hhi [Hno _] Ha. specialize (Hno a Ha). rewrite (lookup_scan la57 root st own) in Hno by (done || split; lia). by injection Hno.
Qed.

(** The pending region, which may be empty. *)
Lemma map_pending_spec st own mstart mend :
  ready mstart st own → 0 <= mstart <= mend → mend <= ram → (4096 | mstart) → (4096 | mend) →
  ∃ r, map_region la57 x86_nx_bit maxhuge mstart mend (Some st) = Some r ∧
    match r with
    | None => no_page_left (bt_boot st)
    | Some st' => ∃ own', ready mend st' own' ∧ between mstart mend st own st' own' ∧ ∀ p, mstart <= p < mend → direct st' own' p
    end.
Proof.
  intros Hr Hm Hle H1 H2. destruct (decide (mstart = mend)) as [<-|Hne]; [|apply map_region_spec; try done; lia].
  unfold map_region. rewrite decide_False by tauto. eexists. split; [done|]. exists own. split_and!; [done|by split|lia].
Qed.

Lemma ready_further lo lo' st own : lo <= lo' → ready lo st own → ready lo' st own.
Proof. intros H [H1 H2 H3]. split; try done. eapply vacant_sub; [| |exact H3]; lia. Qed.

Lemma map_entries_spec entries : ∀ st own mstart mend,
  ready mstart st own → 0 <= mstart <= mend → mend <= ram → (4096 | mstart) → (4096 | mend) → ordered mend entries →
  ∃ r, map_entries la57 x86_nx_bit x86_max_phys_addr maxhuge entries mstart mend (Some st) = Some r ∧
    match r with
    | None => no_page_left (bt_boot st)
    | Some st' => ∃ own', all_mapped entries mstart mend st own st' own'
    end.
Proof.
  destruct layout_facts as (Hb & Hpm & Htop & Hram & _ & _ & HH0 & _). assert (HH + ram <= 2 ^ 64) as H64 by (unfold array_end in Htop; assert (0 <= ram / 64) by (apply Z.div_pos; lia); lia).
  induction entries as [|e entries IH]; intros st own mstart mend Hr Hm Hle H1 H2 Ho.
  - cbn [map_entries]. destruct (map_pending_spec st own mstart mend Hr Hm Hle H1 H2) as (r & E & Hr'). exists r. split; [done|].
    destruct r as [st'|]; [|done]. destruct Hr' as (own' & Hrd & Hbt & Hd). exists own'. split.
    + apply Hrd.
    + destruct Hbt as [B1 B2 B3]. split; try done. intros a Ha1 Ha2. apply B2; [lia|done].
    + intros p [Hp|Hc]; [by apply Hd|]. by destruct Hc as (? & ? & ? & []%not_elem_of_nil & _).
    + intros p Hp _. eapply (vacant_scan st' own' (HH + mend) (HH + ram)); [apply Hrd|lia|done|apply Hrd|lia].
  - rewrite map_entries_cons. simpl in Ho. destruct (clipped e) as [[s t]|] eqn:Ec.
    2:{ destruct (IH st own mstart mend Hr Hm Hle H1 H2 Ho) as (r & E & Hr'). exists r. split; [done|]. destruct r as [st'|]; [|done].
        destruct Hr' as (own' & [A1 A2 A3 A4]). exists own'. split; try done.
        - intros p Hp. apply A3. rewrite covered_cons in Hp. destruct Hp as [|[(? & ? & Hc & _)|]]; [by left|congruence|by right].
        - intros p Hp Hn. apply A4; [done|]. intros Hc. apply Hn. apply covered_cons. by right. }
    destruct Ho as (Hs & Hs4 & Ht4 & Ho). pose proof (clipped_bounds _ _ _ Ec) as Hst.
    assert (∀ p, covered (e :: entries) p ↔ s <= p < t ∨ covered entries p) as Hcov.
    { intros p. rewrite covered_cons, Ec. split; (intros [Hp|]; [left|by right]); [by destruct Hp as (? & ? & [= <- <-] & ?)|by exists s, t]. }
    destruct (decide (s = mend)) as [->|Hne].
    + destruct (IH st own mstart t Hr ltac:(lia) ltac:(lia) H1 Ht4 Ho) as (r & E & Hr'). exists r. split; [done|]. destruct r as [st'|]; [|done].
      destruct Hr' as (own' & [A1 A2 A3 A4]). exists own'. split; try done.
      * intros p Hp. apply A3. rewrite Hcov in Hp. destruct Hp as [?|[?|?]]; [left; lia|left; lia|by right].
      * intros p Hp Hn. rewrite Hcov in Hn. apply A4; [|tauto]. destruct (decide (p < t)); [exfalso; apply Hn; left; lia|lia].
    + destruct (map_pending_spec st own mstart mend Hr Hm Hle H1 H2) as (r & E & Hr'). rewrite E. cbn [mbind option_bind].
      destruct r as [st1|]; [|by exists None]. destruct Hr' as (own1 & Hrd & Hbt & Hd).
      destruct (IH st1 own1 s t (ready_further mend s _ _ Hs Hrd) ltac:(lia) ltac:(lia) Hs4 Ht4 Ho) as (r & E' & Hr'). exists r. split; [done|].
      destruct r as [st'|]; [|eapply no_page_left_moves; [apply Hbt|done]]. destruct Hr' as (own' & [A1 A2 A3 A4]). exists own'.
      assert (between mend ram st1 own1 st' own') as Hbt2 by (destruct A2 as [B1 B2 B3]; split; try done; intros a Ha1 Ha2; apply B2; [lia|done]).
      split; [done|by eapply (between_trans mstart mend ram); [lia|..]|..].
      * intros p Hp. rewrite Hcov in Hp. destruct (decide (mstart <= p < mend)) as [Hin|Hout].
        -- eapply (direct_later mend ram); [lia|lia|lia|done|by apply Hd].
        -- apply A3. destruct Hp as [?|[?|?]]; [lia|by left|by right].
      * intros p Hp Hn. rewrite Hcov in Hn. destruct (decide (p < s)) as [Hlt|Hge].
        -- rewrite (bt_rest _ _ _ _ _ _ A2) by lia. eapply (vacant_scan st1 own1 (HH + mend) (HH + ram)); [apply Hrd|lia|done|apply Hrd|lia].
        -- apply A4; [|tauto]. destruct (decide (p < t)); [exfalso; apply Hn; left; lia|lia].
Qed.

End regions.

Section boot_setup_claim.
Local Open Scope Z_scope.

(** The address leads to the physical address [p], with the flags of kernel
    data. *)
Definition direct_mapped (la57 : bool) (root x86_nx_bit : Z) (st : bootpt) (p : Z) : Prop :=
  (∃ l val, lookup_page la57 st root (boot_HHDM_OFFSET la57 + p) = Some (Some (l, val)) ∧
     page_phys l val (boot_HHDM_OFFSET la57 + p) = p ∧ Z.land val (PAGE_KERNEL_DATA x86_nx_bit) = PAGE_KERNEL_DATA x86_nx_bit) ∧
  ∀ a, struct_addr la57 p <= a < struct_addr la57 p + 64 → ∃ val, lookup_page la57 st root a = Some (Some (1%nat, val)).

(** C19. Preconditions of the loop of [setup_memory] over the memory map: the
    entries to be mapped are made of whole pages, in the order of their addresses
    and without overlap ([gap_inside_page_breaks] shows that otherwise the loop
    can take a large page for a table); the direct map is still empty and the
    array of page structures has no large page; the no-execute bit is outside the
    address bits; and the maximal physical address is a multiple of the page size,
    at most 2^52.  Then the loop, with [identity_map] and [setup_page_struct]
    through the page-table windows, terminates, follows only tables, and panics
    only when the boot allocator has no page left.  If it does not panic, the
    direct map leads from [HHDM_OFFSET + p] to [p] for every address [p] of the
    entries to be mapped, below the supported maximum, and the page structure of
    [p] is mapped; no other address of the direct map is mapped; and outside the
    direct map and the array of page structures nothing changes. *)
Theorem setup_direct_map_correct la57 root x86_nx_bit x86_max_phys_addr maxhuge st own :
  let ram := max_supported_ram la57 x86_max_phys_addr in
  Z.land x86_nx_bit PG_ADDR_MASK = 0 → 0 < x86_max_phys_addr <= 2 ^ 52 → (4096 | x86_max_phys_addr) →
  ready la57 root x86_max_phys_addr 0 st own → ordered la57 x86_max_phys_addr 0 (memmap (bt_boot st)) →
  ∃ r, setup_direct_map la57 x86_nx_bit x86_max_phys_addr maxhuge st = Some r ∧
    match r with
    | None => no_page_left (bt_boot st)
    | Some st' => ∃ own', bpt_wf la57 root st' own' ∧
        (∀ p, covered la57 x86_max_phys_addr (memmap (bt_boot st)) p → direct_mapped la57 root x86_nx_bit st' p) ∧
        (∀ p, 0 <= p < ram → ¬ covered la57 x86_max_phys_addr (memmap (bt_boot st)) p →
           lookup_page la57 st' root (boot_HHDM_OFFSET la57 + p) = Some None) ∧
        ∀ a, haddr la57 a → ¬ boot_HHDM_OFFSET la57 <= a < boot_HHDM_OFFSET la57 + ram →
          ¬ boot_page_map la57 <= a < array_end la57 x86_max_phys_addr → lookup_page la57 st' root a = lookup_page la57 st root a
    end.
Proof.
  intros ram Hnx Hmax Hal Hrd Hord. pose proof (layout_facts la57 x86_max_phys_addr Hmax Hal) as (Hb & Hpm & Htop & Hr & _ & _ & HH0 & _). fold ram in Hpm, Hr.
  destruct (map_entries_spec la57 root x86_nx_bit x86_max_phys_addr maxhuge Hnx Hmax Hal (memmap (bt_boot st)) st own 0 0) as (r & E & Hr'); try done;
    try lia; [apply Z.divide_0_r..|].
  exists r. split; [done|]. destruct r as [st'|]; [|done]. destruct Hr' as (own' & [A1 A2 A3 A4]). exists own'.
  unfold array_end in *. fold ram in Htop. assert (0 <= ram / 64) by (apply Z.div_pos; lia). split_and!; [done|..].
  - intros p Hc. pose proof (ordered_above la57 x86_nx_bit x86_max_phys_addr Hnx Hmax Hal _ _ _ Hord Hc) as Hp0.
    assert (p < ram) as Hp1 by (destruct Hc as (e & s & t & _ & Ec & Hp); assert (s < t <= ram) by (by eapply clipped_bounds); lia).
    destruct (A3 p ltac:(by right)) as [(l & val & H1 & H2 & H3) H4]. split.
    + exists l, val. rewrite (lookup_scan la57 root st' own' _ A1) by (split; lia). rewrite H1. done.
    + intros a Ha. destruct (H4 a Ha) as [val' Hv]. exists val'. rewrite (lookup_scan la57 root st' own' _ A1), Hv; [done|].
      unfold struct_addr in Ha. split; [Z.div_mod_to_equations; lia|]. assert (64 * (p / 4096) <= ram / 64) by (Z.div_mod_to_equations; lia). lia.
  - intros p Hp Hn. rewrite (lookup_scan la57 root st' own' _ A1) by (split; lia). f_equal. by apply A4.
  - intros a Ha H1 H2. rewrite (lookup_scan la57 root st' own' _ A1), (lookup_scan la57 root st own _ (rd_wf _ _ _ _ _ _ Hrd)) by done. f_equal.
    apply (bt_rest _ _ _ _ _ _ _ _ A2); unfold array_end, ram in *; lia.
Qed.

Lemma setup_direct_map_correct_witness :
  let st := boot_root false 0x200000 (example_boot 0 0x9f000) in
  ∃ r, setup_direct_map false 0 (2 ^ 40) 3 st = Some r ∧
    match r with
    | None => no_page_left (bt_boot st)
    | Some st' => ∀ p, covered false (2 ^ 40) (memmap (bt_boot st)) p → direct_mapped false 0x200000 0 st' p
    end.
Proof.
  intros st.
  assert (bpt_wf false 0x200000 st {[(4%nat, kbase false) := 0x200000]}) as Hwf.
  { apply boot_root_wf; [apply example_boot_ok; lia|done|done| |exists 512; lia]. exists (0x200000, 0x400000). split; [left|simpl; lia]. }
  assert (ready false 0x200000 (2 ^ 40) 0 st {[(4%nat, kbase false) := 0x200000]}) as Hrd.
  { split; [exact Hwf| |].
    - intros a _ l v Hsc. assert (scan 4 st {[(4%nat, kbase false) := 0x200000]} a = None) as Hn; [|change (max_pgtable_level false) with 4%nat in Hsc; rewrite Hn in Hsc; discriminate].
      apply scan_none. intros j _ [Hz _]. apply Hz. apply (boot_root_bent false).
    - apply boot_root_vacant; [exact Hwf|vm_compute; discriminate|vm_compute; discriminate|right; reflexivity]. }
  destruct (setup_direct_map_correct false 0x200000 0 (2 ^ 40) 3 st {[(4%nat, kbase false) := 0x200000]}
    ltac:(reflexivity) ltac:(lia) ltac:(by exists (2 ^ 28)) Hrd) as (r & E & Hr).
  - change (0 <= 0 ∧ (4096 | 0) ∧ (4096 | 0x9f000) ∧ 0x9f000 <= 0x100000 ∧ (4096 | 0x100000) ∧ (4096 | 0x4000000) ∧ True).
    split_and!; try lia; [by exists 0|by exists 0x9f|by exists 0x100|by exists 0x4000].
  - exists r. split; [exact E|]. destruct r as [st'|]; [|exact Hr]. destruct Hr as (own' & _ & Hd & _). exact Hd.
Defined.

(** The entries must be made of pages: between two entries whose gap lies
    inside one page, the rounded end of the first is mapped by a large page, and
    the code takes that page for a table when it maps the second. *)
Theorem gap_inside_page_breaks :
  let b := mkBoot [MultibootEntry 0 0x1ffc00 1; MultibootEntry 0x1ffe00 0x3e00200 1] [(0x200000, 0x400000)] 1 (2 ^ 46) false [] in
  boot_ok b ∧ setup_direct_map false 0 (2 ^ 40) 2 (boot_root false 0x200000 b) = None.
Proof.
  intros b. split; [|vm_compute; reflexivity]. split; simpl.
  - lia.
  - unfold entry_end. intros e [->|[->|[]%not_elem_of_nil]%elem_of_cons]%elem_of_cons _; simpl; lia.
  - intros [|[|i]] [|[|j]] e e' L1 L2 Hij U1 U2; simpl in *; simplify_eq; try done; unfold entry_end; simpl; lia.
  - by split.
  - intros bl [->|[]%not_elem_of_nil]%elem_of_cons; split; simpl; lia.
Qed.

End boot_setup_claim.
