(* ===== verification/KmapFixed.v ===== *)
(** * Fixed mappings ([arch/x86/mm/kmap_fixed.cc])

    One page table of 512 entries gives the boot code a window of virtual
    memory; indices from [KMAP_FIXED_IDX_FIRST_DYNAMIC] on are handed out in
    runs.  [inuse] holds the length of a run at its first index.  An access
    outside the arrays is undefined ([None]); an entry that changes is flushed
    from the TLB ([flushes]). *)

From S2P Require Import Prelude Align PageAlloc Pgtable.

Section kmap_defs.
Local Open Scope Z_scope.

Definition KMAP_FIXED_BASE : Z := 0xffffffffffe00000.
Definition KMAP_FIXED_IDX_FIRST_DYNAMIC : Z := 7.

(** The index is non-negative where this is called. *)
Definition kmap_fixed_address (idx : Z) : Z := KMAP_FIXED_BASE +ᵤ idx *ᵤ PAGE_SIZE.

Record kmap := mkKmap {
  kmap_page : Z → Z;        (* __kmap_fixed_page *)
  inuse : Z → Z;
  flushes : list Z;
}.

Definition set_index (f : Z → Z) (i v : Z) : Z → Z := λ j, if decide (j = i) then v else f j.

Definition kmap_fixed_clear (s : kmap) (idx : Z) : option kmap :=
  if decide (0 <= idx < 512)
  then Some (mkKmap (set_index (kmap_page s) idx 0) (inuse s) (flushes s ++ [kmap_fixed_address idx])) else None.

Definition kmap_fixed_install (s : kmap) (idx pte : Z) : option (Z * kmap) :=
  if decide (0 <= idx < 512) then
    let old_value := kmap_page s idx in
    Some (kmap_fixed_address idx,
          mkKmap (set_index (kmap_page s) idx pte) (inuse s)
            (if decide (old_value ≠ 0) then flushes s ++ [kmap_fixed_address idx] else flushes s))
  else None.

(** The loop that looks for [num] free indices: [None] when it runs out of
    fuel, [Some 0] when there are none. *)
Fixpoint find_indices (fuel : nat) (s : kmap) (num a b : Z) : option Z :=
  if decide (b < a + num) then
    match fuel with
    | O => None
    | S fuel =>
      if decide (b > 511) then Some 0
      else if decide (inuse s b ≠ 0) then let a := b + inuse s b in find_indices fuel s num a a
      else find_indices fuel s num a (b + 1)
    end
  else Some a.

Definition kmap_fixed_alloc_indices (s : kmap) (num : Z) : option (Z * kmap) :=
  if decide (num <= 0 ∨ num > 511 - KMAP_FIXED_IDX_FIRST_DYNAMIC) then Some (0, s)
  else
    a ← find_indices 512 s num KMAP_FIXED_IDX_FIRST_DYNAMIC KMAP_FIXED_IDX_FIRST_DYNAMIC;
    if decide (a = 0) then Some (0, s)
    else if decide (0 <= a < 512) then Some (a, mkKmap (kmap_page s) (set_index (inuse s) a num) (flushes s)) else None.

Fixpoint clear_run (n : nat) (s : kmap) (idx : Z) : option kmap :=
  match n with
  | O => Some s
  | S n => s ← kmap_fixed_clear s idx; clear_run n s (idx + 1)
  end.

Definition kmap_fixed_free_indices (s : kmap) (idx : Z) : option kmap :=
  if decide (0 <= idx < 512) then
    let n := inuse s idx in
    clear_run (Z.to_nat n) (mkKmap (kmap_page s) (set_index (inuse s) idx 0) (flushes s)) idx
  else None.

Fixpoint install_run (n : nat) (s : kmap) (idx phys flags : Z) : option kmap :=
  match n with
  | O => Some s
  | S n => '(_, s) ← kmap_fixed_install s idx (make_pte_k phys flags); install_run n s (idx + 1) (phys +ᵤ PAGE_SIZE) flags
  end.

(** Zero is the null pointer. *)
Definition kmap_fixed (s : kmap) (phys size flags : Z) : option (Z * kmap) :=
  if decide (size > (511 - KMAP_FIXED_IDX_FIRST_DYNAMIC) * PAGE_SIZE) then Some (0, s)
  else
    let offset := Z.land phys (PAGE_SIZE - 1) in
    let phys := phys -ᵤ offset in
    let size := size +ᵤ offset in
    let size := align_up size PAGE_SIZE in
    let npages := size / PAGE_SIZE in
    '(idx, s) ← kmap_fixed_alloc_indices s npages;
    if decide (idx = 0) then Some (0, s)
    else s ← install_run (Z.to_nat npages) s idx phys flags; Some (kmap_fixed_address idx +ᵤ offset, s).

Definition kunmap_fixed (s : kmap) (ptr : Z) : option kmap :=
  kmap_fixed_free_indices s ((ptr -ᵤ KMAP_FIXED_BASE) / PAGE_SIZE).

End kmap_defs.

(** ** Runs of indices *)

Section kmap.
Local Open Scope Z_scope.
Implicit Types (s : kmap) (runs : gmap Z Z).

(** [runs] are the runs handed out, by first index and length. *)
Record kmap_wf s runs : Prop := {
  kw_inuse i : 0 <= i < 512 → inuse s i = default 0 (runs !! i);
  kw_run i n : runs !! i = Some n → 7 <= i ∧ 0 < n ∧ i + n <= 512;
  kw_disjoint i n j m : runs !! i = Some n → runs !! j = Some m → i = j ∨ i + n <= j ∨ j + m <= i;
  kw_clear i : 7 <= i < 512 → (∀ j n, runs !! j = Some n → i < j ∨ j + n <= i) → kmap_page s i = 0;
}.

(** The indices from [a] on are free for [num] of them. *)
Definition free_run runs (a num : Z) : Prop :=
  7 <= a ∧ a + num <= 512 ∧ ∀ i n, runs !! i = Some n → i + n <= a ∨ a + num <= i.

(** Reference: the lowest place. *)
Definition first_fit runs (num : Z) (r : Z) : Prop :=
  (r = 0 ∧ ∀ a, ¬ free_run runs a num) ∨ (free_run runs r num ∧ ∀ a, free_run runs a num → r <= a).

(** The loop: the indices from [a] to [b] are free, no place before [a] is
    large enough and [b] is not inside a run. *)
Lemma find_indices_spec s runs num : kmap_wf s runs → 0 < num → ∀ fuel a b,
  7 <= a <= b → b <= 512 → b <= a + num →
  (512 - b < Z.of_nat fuel) →
  (∀ c, free_run runs c num → a <= c) →
  (∀ i n, runs !! i = Some n → i + n <= a ∨ b <= i) →
  ∃ r, find_indices fuel s num a b = Some r ∧ first_fit runs num r.
Proof.
  intros Hwf Hnum fuel. induction fuel as [|fuel IH]; intros a b Hab Hb Hbn Hf Hlow Hruns; [lia|]. cbn [find_indices].
  destruct (decide (b < a + num)) as [Hlt|Hge].
  2:{ exists a. split; [done|]. right. split; [|done]. assert (b = a + num) as -> by lia. split_and!; [lia|lia|done]. }
  destruct (decide (b > 511)) as [Hend|Hin].
  { exists 0. split; [done|]. left. split; [done|]. intros c Hc. pose proof (Hlow c Hc). destruct Hc as (? & ? & ?). lia. }
  rewrite (kw_inuse _ _ Hwf b) by lia. destruct (runs !! b) as [n|] eqn:Er.
  - change (default 0 (Some n)) with n. destruct (kw_run _ _ Hwf _ _ Er) as (? & ? & ?). rewrite decide_True by lia. apply IH; try lia.
    + intros c Hc. pose proof (Hlow c Hc). destruct Hc as (? & ? & Hc). destruct (Hc _ _ Er); lia.
    + intros i m Hi. destruct (kw_disjoint _ _ Hwf _ _ _ _ Er Hi) as [<-|[?|?]]; [simplify_eq; lia|lia|lia].
  - change (default 0 (@None Z)) with 0. rewrite decide_False by tauto. apply IH; try lia; [done|]. intros i n Hi. destruct (Hruns i n Hi) as [?|?]; [by left|].
    destruct (decide (i = b)) as [->|]; [congruence|lia].
Qed.

Lemma alloc_indices_spec s runs num : kmap_wf s runs →
  (num <= 0 ∨ 504 < num) ∧ kmap_fixed_alloc_indices s num = Some (0, s) ∨
  0 < num <= 504 ∧ ∃ r, first_fit runs num r ∧
    (r = 0 ∧ kmap_fixed_alloc_indices s num = Some (0, s) ∨
     r ≠ 0 ∧ ∃ s', kmap_fixed_alloc_indices s num = Some (r, s') ∧ kmap_page s' = kmap_page s ∧ flushes s' = flushes s ∧ kmap_wf s' (<[r := num]> runs)).
Proof.
  intros Hwf. unfold kmap_fixed_alloc_indices, KMAP_FIXED_IDX_FIRST_DYNAMIC.
  destruct (decide (num <= 0 ∨ num > 511 - 7)) as [|Hn]; [left; split; [lia|done]|right]. split; [lia|].
  destruct (find_indices_spec s runs num Hwf ltac:(lia) 512 7 7) as (r & E & Hr); try lia.
  { intros c Hc. apply Hc. }
  { intros i n Hi. destruct (kw_run _ _ Hwf _ _ Hi). lia. }
  exists r. split; [done|]. rewrite E. cbn [mbind option_bind]. destruct (decide (r = 0)) as [->|Hr0]; [by left|right]. split; [done|].
  destruct Hr as [[? _]|[(H1 & H2 & H3) _]]; [done|]. rewrite decide_True by lia. eexists. split; [done|]. split_and!; try done.
  split.
  - intros i Hi. simpl. unfold set_index. case_decide as Hd; [subst; by rewrite lookup_insert_eq|]. rewrite lookup_insert_ne by done. by apply Hwf.
  - intros i n [[<- <-]|[_ Hi]]%lookup_insert_Some; [lia|by apply Hwf].
  - intros i n j m [[<- <-]|[Hi1 Hi]]%lookup_insert_Some [[<- <-]|[Hj1 Hj]]%lookup_insert_Some; [by left| | |by eapply Hwf].
    + destruct (H3 _ _ Hj); [right; right; lia|right; left; lia].
    + destruct (H3 _ _ Hi); [right; left; lia|right; right; lia].
  - intros i Hi Hout. simpl. apply (kw_clear _ _ Hwf); [done|]. intros j n Hj. apply Hout. destruct (decide (j = r)) as [->|]; [|by rewrite lookup_insert_ne].
    destruct (H3 _ _ Hj); destruct (kw_run _ _ Hwf _ _ Hj); lia.
Qed.

(** ** Entries *)

Lemma install_run_spec flags : ∀ (n : nat) s idx phys,
  0 <= idx → idx + Z.of_nat n <= 512 → 0 <= phys → phys + Z.of_nat n * 4096 <= 2 ^ 64 → (∀ i, idx <= i < idx + Z.of_nat n → kmap_page s i = 0) →
  ∃ s', install_run n s idx phys flags = Some s' ∧ inuse s' = inuse s ∧ flushes s' = flushes s ∧
    ∀ i, kmap_page s' i = if decide (idx <= i < idx + Z.of_nat n) then make_pte_k (phys + (i - idx) * 4096) flags else kmap_page s i.
Proof.
  induction n as [|n IH]; intros s idx phys H1 H2 H3 H4 H5.
  { exists s. split_and!; [done..|]. intros i. by rewrite decide_False by lia. }
  cbn [install_run]. unfold kmap_fixed_install. rewrite decide_True by lia. rewrite (H5 idx) by lia. cbn [mbind option_bind]. rewrite decide_False by tauto.
  destruct (decide (n = 0%nat)) as [->|Hn].
  { exists (mkKmap (set_index (kmap_page s) idx (make_pte_k phys flags)) (inuse s) (flushes s)). split_and!; [done..|]. intros i. simpl. unfold set_index.
    destruct (decide (i = idx)) as [->|]; [rewrite decide_True by lia; f_equal; lia|by rewrite decide_False by lia]. }
  unfold add64. rewrite wrap_small by (unfold PAGE_SIZE; split; lia).
  edestruct (IH (mkKmap (set_index (kmap_page s) idx (make_pte_k phys flags)) (inuse s) (flushes s)) (idx + 1) (phys + PAGE_SIZE)) as (s' & E & I1 & I2 & I3);
    [lia|lia|unfold PAGE_SIZE; lia|unfold PAGE_SIZE; lia|intros i Hi; simpl; unfold set_index; rewrite decide_False by lia; apply H5; lia|].
  exists s'. split_and!; [done..|]. intros i. rewrite I3. simpl. unfold set_index, PAGE_SIZE.
  destruct (decide (i = idx)) as [->|Hne]; [rewrite decide_False, decide_True by lia; f_equal; lia|].
  destruct (decide (idx + 1 <= i < idx + 1 + Z.of_nat n)); [rewrite decide_True by lia; f_equal; lia|by rewrite decide_False by lia].
Qed.

Lemma clear_run_spec : ∀ (n : nat) s idx,
  0 <= idx → idx + Z.of_nat n <= 512 →
  ∃ s', clear_run n s idx = Some s' ∧ inuse s' = inuse s ∧
    (∀ i, kmap_page s' i = if decide (idx <= i < idx + Z.of_nat n) then 0 else kmap_page s i) ∧
    (∀ i, i ∈ flushes s → i ∈ flushes s') ∧ ∀ i, idx <= i < idx + Z.of_nat n → kmap_fixed_address i ∈ flushes s'.
Proof.
  induction n as [|n IH]; intros s idx H1 H2.
  { exists s. split_and!; [done..| |done|lia]. intros i. by rewrite decide_False by lia. }
  cbn [clear_run]. unfold kmap_fixed_clear. rewrite decide_True by lia. cbn [mbind option_bind].
  edestruct (IH (mkKmap (set_index (kmap_page s) idx 0) (inuse s) (flushes s ++ [kmap_fixed_address idx])) (idx + 1)) as (s' & E & I1 & I2 & I3 & I4); [lia..|].
  exists s'. split_and!; [done..| | |].
  - intros i. rewrite I2. simpl. unfold set_index. destruct (decide (i = idx)) as [->|]; [rewrite decide_False, decide_True by lia; done|].
    destruct (decide (idx + 1 <= i < idx + 1 + Z.of_nat n)); [by rewrite decide_True by lia|by rewrite decide_False by lia].
  - intros i Hi. apply I3. simpl. set_solver.
  - intros i Hi. destruct (decide (i = idx)) as [->|]; [apply I3; simpl; set_solver|apply I4; lia].
Qed.

Lemma free_indices_spec s runs r n : kmap_wf s runs → runs !! r = Some n →
  ∃ s', kmap_fixed_free_indices s r = Some s' ∧ kmap_wf s' (delete r runs) ∧
    (∀ i, kmap_page s' i = if decide (r <= i < r + n) then 0 else kmap_page s i) ∧
    (∀ i, r <= i < r + n → kmap_fixed_address i ∈ flushes s').
Proof.
  intros Hwf Hr. destruct (kw_run _ _ Hwf _ _ Hr) as (H1 & H2 & H3). unfold kmap_fixed_free_indices. rewrite decide_True by lia.
  rewrite (kw_inuse _ _ Hwf r), Hr by lia. change (default 0 (Some n)) with n. cbv zeta.
  destruct (clear_run_spec (Z.to_nat n) (mkKmap (kmap_page s) (set_index (inuse s) r 0) (flushes s)) r) as (s' & E & I1 & I2 & _ & I4); [lia..|].
  rewrite Z2Nat.id in I2, I4 by lia. exists s'. split_and!; [done| |done|done]. split.
  - intros i Hi. rewrite I1. simpl. unfold set_index. destruct (decide (i = r)) as [->|]; [by rewrite lookup_delete_eq|].
    rewrite lookup_delete_ne by done. by apply Hwf.
  - intros i m [_ Hi]%lookup_delete_Some. by apply Hwf.
  - intros i m j k [_ Hi]%lookup_delete_Some [_ Hj]%lookup_delete_Some. by eapply Hwf.
  - intros i Hi Hout. rewrite I2. case_decide as Hd; [done|]. simpl. apply (kw_clear _ _ Hwf); [done|]. intros j m Hj.
    destruct (decide (j = r)) as [->|]; [simplify_eq; lia|]. apply Hout. by rewrite lookup_delete_ne.
Qed.

End kmap.

Section kmap_claim.
Local Open Scope Z_scope.

(** The number of pages that [size] bytes from [phys] on touch. *)
Definition pages_touched (phys size : Z) : Z := (phys mod 4096 + size + 4095) / 4096.

Lemma kmap_size phys size : 0 <= phys → 0 <= size <= 504 * 4096 →
  align_up (size +ᵤ phys mod 4096) PAGE_SIZE / PAGE_SIZE = pages_touched phys size ∧ 0 <= pages_touched phys size <= 505 ∧
  pages_touched phys size * 4096 < phys mod 4096 + size + 4096.
Proof.
  intros Hp Hs. pose proof (Z.mod_pos_bound phys 4096 ltac:(lia)). rewrite add64_small by lia.
  rewrite align_up_eq by (by exists 12). change (PAGE_SIZE - 1) with 4095. change PAGE_SIZE with 4096. rewrite add64_small by lia.
  unfold pages_touched. split_and!; Z.div_mod_to_equations; lia.
Qed.

(** The index a pointer into the first page of a run stands for. *)
Lemma kunmap_index r off : 0 <= r < 512 → 0 <= off < 4096 →
  ((kmap_fixed_address r +ᵤ off) -ᵤ KMAP_FIXED_BASE) / PAGE_SIZE = r ∧ kmap_fixed_address r +ᵤ off = KMAP_FIXED_BASE + r * 4096 + off.
Proof.
  intros Hr Ho. unfold kmap_fixed_address, KMAP_FIXED_BASE, mul64. change PAGE_SIZE with 4096. rewrite (wrap_small 64 (r * 4096)) by (split; lia).
  rewrite (add64_small 0xffffffffffe00000) by lia. rewrite add64_small by lia. split; [|done]. rewrite sub64_small by lia.
  replace (0xffffffffffe00000 + r * 4096 + off - 0xffffffffffe00000) with (r * 4096 + off) by lia. rewrite Z.div_add_l, (Z.div_small off) by lia. lia.
Qed.

(** A range of pages mapped at [r], and unmapped again. *)
Definition mapped_at s runs (phys size flags r : Z) : Prop :=
  let n := pages_touched phys size in
  ∃ ptr s', kmap_fixed s phys size flags = Some (ptr, s') ∧ ptr = KMAP_FIXED_BASE + r * 4096 + phys mod 4096 ∧
    kmap_wf s' (<[r := n]> runs) ∧ flushes s' = flushes s ∧
    (∀ i, kmap_page s' i = if decide (r <= i < r + n) then make_pte_k (phys - phys mod 4096 + (i - r) * 4096) flags else kmap_page s i) ∧
    ∃ s'', kunmap_fixed s' ptr = Some s'' ∧ kmap_wf s'' runs ∧ (∀ i, kmap_page s'' i = kmap_page s i) ∧
      ∀ i, r <= i < r + n → kmap_fixed_address i ∈ flushes s''.

Lemma kmap_fixed_spec s runs phys size flags :
  kmap_wf s runs → 0 <= phys → 0 <= size → phys + size + 4096 <= 2 ^ 64 →
  let n := pages_touched phys size in
  (kmap_fixed s phys size flags = Some (0, s) ∧ (n <= 0 ∨ 504 < n ∨ ∀ a, ¬ free_run runs a n)) ∨
  0 < n <= 504 ∧ ∃ r, free_run runs r n ∧ (∀ a, free_run runs a n → r <= a) ∧ mapped_at s runs phys size flags r.
Proof.
  intros Hwf Hp Hs Htop n. unfold mapped_at. fold n. unfold kmap_fixed, KMAP_FIXED_IDX_FIRST_DYNAMIC. change ((511 - 7) * PAGE_SIZE) with (504 * 4096).
  destruct (decide (size > 504 * 4096)) as [|Hsz]; [left; split; [done|]|].
  { right. left. pose proof (Z.mod_pos_bound phys 4096 ltac:(lia)). unfold n, pages_touched. Z.div_mod_to_equations. lia. }
  destruct (kmap_size phys size Hp ltac:(lia)) as (Hn1 & Hn2 & Hn3). fold n in Hn1, Hn2, Hn3. pose proof (Z.mod_pos_bound phys 4096 ltac:(lia)) as Hmod.
  assert (Z.land phys (PAGE_SIZE - 1) = phys mod 4096) as -> by (change (PAGE_SIZE - 1) with (Z.ones 12); by rewrite Z.land_ones by lia).
  cbv zeta. rewrite Hn1. pose proof (Z.mod_le phys 4096 Hp ltac:(lia)). rewrite sub64_small by lia.
  destruct (alloc_indices_spec s runs n Hwf) as [[Hbad E]|(Hn & r & Hfit & [[-> E]|(Hr0 & s1 & E & P1 & F1 & Hwf1)])].
  - rewrite E. left. split; [done|lia].
  - rewrite E. left. split; [done|]. do 2 right. destruct Hfit as [[_ H0]|[H0 _]]; [done|]. destruct H0. lia.
  - right. split; [done|]. rewrite E. cbn [mbind option_bind]. rewrite decide_False by done. destruct Hfit as [[? _]|[Hfr Hlow]]; [done|]. pose proof Hfr as (H1 & H2 & H3).
    destruct (install_run_spec flags (Z.to_nat n) s1 r (phys - phys mod 4096)) as (s2 & E2 & I1 & I2 & I3); rewrite ?Z2Nat.id by lia; try lia.
    { intros i Hi. rewrite P1. apply (kw_clear _ _ Hwf); [lia|]. intros j m Hj. destruct (H3 _ _ Hj); lia. }
    rewrite E2. cbn [mbind option_bind]. rewrite Z2Nat.id in I3 by lia. destruct (kunmap_index r (phys mod 4096) ltac:(lia) Hmod) as [Hidx Hptr].
    assert (kmap_wf s2 (<[r := n]> runs)) as Hwf2.
    { destruct Hwf1 as [W1 W2 W3 W4]. split; [by rewrite I1|done|done|]. intros i Hi Hout. rewrite I3, decide_False; [by apply W4|].
      destruct (Hout r n); [by rewrite lookup_insert_eq|lia|lia]. }
    assert (runs !! r = None) as Hnone.
    { destruct (runs !! r) as [m|] eqn:Er; [|done]. destruct (H3 _ _ Er), (kw_run _ _ Hwf _ _ Er); lia. }
    exists r. split; [done|]. split; [done|]. eexists _, s2. split_and!; try done; [congruence|intros i; by rewrite I3, P1|].
    destruct (free_indices_spec s2 _ r n Hwf2 (lookup_insert_eq _ _ _)) as (s3 & E3 & Hwf3 & J2 & J3). rewrite delete_insert_id in Hwf3 by done.
    exists s3. unfold kunmap_fixed. rewrite Hidx. split_and!; [done..| |done]. intros i. rewrite J2. case_decide as Hd.
    + symmetry. apply (kw_clear _ _ Hwf); [lia|]. intros j m Hj. destruct (H3 _ _ Hj); lia.
    + by rewrite I3, P1, decide_False.
Qed.

(** C23. A range of physical memory that ends at least a page before 2^64 and
    touches between 1 and 504 pages is mapped by [kmap_fixed] at the lowest run of free indices that is long enough;
    if there is no such run, null is returned and nothing changes.  The pointer
    has the range's offset in its page, the entries of the run map the pages of
    the range one after the other, no other entry changes and none needs a
    flush; [kunmap_fixed] of that pointer then gives back exactly the run,
    restores every entry, and flushes every page of it.  Such a range of no or of
    more than 504 pages is refused and nothing changes: of these, only one of 505
    pages could have fitted. *)
Theorem kmap_fixed_correct s runs phys size flags :
  kmap_wf s runs → 0 <= phys → 0 <= size → phys + size + 4096 <= 2 ^ 64 →
  let n := pages_touched phys size in
  (0 < n <= 504 →
    (∃ r, free_run runs r n ∧ (∀ a, free_run runs a n → r <= a) ∧ mapped_at s runs phys size flags r) ∨
    (∀ a, ¬ free_run runs a n) ∧ kmap_fixed s phys size flags = Some (0, s)) ∧
  (n <= 0 ∨ 504 < n → kmap_fixed s phys size flags = Some (0, s)) ∧
  (505 < n → ∀ a, ¬ free_run runs a n).
Proof.
  intros Hwf Hp Hs Htop n. pose proof (kmap_fixed_spec s runs phys size flags Hwf Hp Hs Htop) as H. cbv zeta in H. fold n in H.
  split_and!; [| |intros Hn a (? & ? & _); lia].
  - intros Hn. destruct H as [[E [?|[?|Hno]]]|[_ H]]; [lia|lia|by right|by left].
  - intros Hn. destruct H as [[E _]|[? _]]; [done|lia].
Qed.

Definition kmap_empty : kmap := mkKmap (λ _, 0) (λ _, 0) [].

Lemma kmap_fixed_correct_witness :
  kmap_wf kmap_empty ∅ ∧
  option_map fst (kmap_fixed kmap_empty 0xfee00123 0x2000 0x103) = Some 0xffffffffffe07123 ∧
  ∃ r ptr s', free_run ∅ r 3 ∧ kmap_fixed kmap_empty 0xfee00123 0x2000 0x103 = Some (ptr, s') ∧ kmap_page s' (r + 1) = 0xfee01103.
Proof.
  assert (kmap_wf kmap_empty ∅) as Hwf by (split; [done|by intros ?? []%lookup_empty_Some|by intros ???? []%lookup_empty_Some|done]).
  split; [exact Hwf|]. split; [vm_compute; reflexivity|].
  destruct (kmap_fixed_correct kmap_empty ∅ 0xfee00123 0x2000 0x103 Hwf ltac:(lia) ltac:(lia) ltac:(lia)) as [H _].
  change (pages_touched 0xfee00123 0x2000) with 3 in H.
  destruct (H ltac:(lia)) as [(r & Hf & _ & ptr & s' & E & _ & _ & _ & Hpg & _)|[Hno _]].
  - change (pages_touched 0xfee00123 0x2000) with 3 in Hpg. exists r, ptr, s'. split; [exact Hf|]. split; [exact E|].
    rewrite Hpg, decide_True by lia. replace (r + 1 - r) with 1 by lia. reflexivity.
  - exfalso. apply (Hno 7). split_and!; [lia|lia|]. by intros ?? []%lookup_empty_Some.
Defined.

(** With all 505 dynamic indices free, a range of 505 pages is refused. *)
Example kmap_fixed_full_window :
  free_run ∅ 7 (pages_touched 4097 (504 * 4096)) ∧
  kmap_fixed kmap_empty 4097 (504 * 4096) 0x103 = Some (0, kmap_empty).
Proof. split; [split_and!; [done|done|by intros ?? []%lookup_empty_Some]|done]. Qed.

End kmap_claim.
